(* ===== verification/_CoqProject ===== *)
-Q . S2P
Prelude.v
Json.v
Sqlite.v
EventTable.v
Lifecycle.v
Schema.v
Job.v
Engine.v
EngineProps.v
EnginePaging.v
ViewRepository.v
JobQueue.v
JobQueueProps.v
Repository.v
SqliteEs.v
SchemaRecovery.v
JobHistory.v
History.v
Reactor.v
Dispatch.v
Worker.v
Backend.v
Execution.v
Poll.v
Projection.v
Startup.v
Store.v
StoreProps.v
StoreHistory.v
Queries.v
StoreViews.v
ViewBackend.v
Delivery.v
DispatchJson.v
Effects.v
TestDouble.v
Decimal.v
Shop.v
OrderOrigin.v
SupportTicket.v
TicketOrigin.v
Abi.v
ClaimRegistry.v
StoreHandle.v
Ffi.v
FfiProps.v
Buffers.v
JobStore.v
Protocol.v
Completion.v
Witnesses.v
AbiWitnesses.v
StoreWitnesses.v
DeliveryWitnesses.v
ViewWitnesses.v
