(* ===== verification/Prelude.v ===== *)
(** * Event Sorcery: a verification of the event store, its jobs, its projections and its C ABI

    Event Sorcery is a Rust library for event-sourced applications over SQLite.
    This development models its storage engine, the durable job queue built on it,
    the command and dispatch protocols, the projections, schema recovery at startup
    and the C ABI, as executable Rocq definitions translated from the sources under
    src/crates, and proves the properties that make them correct.  This first file is
    the shared prelude.

    ** The program

    An application defines entities ([EventSourced]: originate, evolve, initialize,
    transition).  The [Lifecycle] adapter folds events into an entity and runs its
    commands; a command yields events, or a [Dispatch] of a durable job.  The event
    repository hands the events, the snapshot and the jobs a command buffered to
    the engine, which commits them in one SQLite transaction guarded by optimistic
    concurrency.  A job is itself an event-sourced aggregate whose view row in
    [job_queue] carries a lease: workers poll the row, claim the job in a
    transaction that appends to its stream, execute it, and settle it with a
    command fenced by the claim id.  The origin entity learns the verdict before
    the job is acknowledged.  Projections fold committed events into view rows and
    catch up on start, when a registry of schema versions decides whether they are
    rebuilt.  The C ABI serves other languages: it decodes bounded CBOR requests, runs
    the engine and the job runtime behind reference-counted store handles, and hands
    out claims as tokens.

    ** Files

    - [Prelude]: results, machine integers (i64, u64, u32 and a 64-bit usize, with
      checked and wrapping operations), lists, the tactic [range].
    - [Json]: JSON values, the interface of [serde_json] as a class with its round
      trip law for documents of portable numbers and at most 127 levels, the derived
      serialization of structs and enums, and a binary text that satisfies the
      interface.
    - [Sqlite]: the database (events, snapshots, views), the statement monad over a
      schedule of driver failures, transactions, and weakest preconditions.
    - [EventTable] (sqlite-es event_repository.rs): batched inserts in chunks of 142
      rows under the primary key, ordered reads.
    - [Lifecycle] (lifecycle.rs, Effect and EventSourced of dispatch.rs and lib.rs):
      [handle], [apply], replay, the serialized lifecycle.
    - [Schema] (schema_registry.rs): the registry aggregate and its targets.
    - [Job] (job.rs, job_store.rs): the job aggregate, the claim planner
      [plan_claim], the per-command buffer, the execution context.
    - [Engine] (engine.rs, compact_events of lib.rs): every request type, commits,
      opaque commits, paged and bounded reads, snapshots, versions, compaction.
      [EngineProps] and [EnginePaging] hold its contracts.
    - [ViewRepository] (sqlite-es view_repository.rs): versioned view rows, the
      predicate scan, the generated columns of [job_queue].
    - [JobQueue] (the job primitives of engine.rs, the poll of job_backend.rs):
      claim, renew, enqueue.  [JobQueueProps] relates a job's row to its stream.
    - [Repository] (sqlite_event_repository.rs, Store::send of lib.rs): loading,
      [persist] with the pending jobs, and the command path [execute_from].
    - [SqliteEs] (sqlite-es event_repository.rs): the crate's own repository, which the
      schema registry uses; its reads, writes and replay streams agree with the
      engine's ([repositories_agree], [replay_stream_faithful]).
    - [SchemaRecovery] (schema_registry.rs): loading the registry, reconciling and
      recording a target.
    - [JobHistory] and [History]: step relations of one job and of the whole engine,
      and what holds along every history.
    - [Reactor] (reactor.rs, the bridge of lifecycle.rs): the reactor interface,
      backoff, the retry loop, busy classification.
    - [Dispatch] (dispatch.rs): the dispatched-job machine and [perform].
    - [Worker] (job_backend.rs): the runtime operations, acknowledgement, settlement
      classification, the poll loop; [Backend] (job_store.rs, job_sqlite.rs) the backend
      interface with its SQLite instance and the standalone enqueues; [Poll] proves the loop over all jobs and
      [Execution] the run of a claimed job beside its renewal loop.
    - [Projection] (projection.rs): react, catch_up, rebuild.
    - [Startup] (wire.rs, Reconciler of schema_registry.rs): what building a store does
      to the database, and its recovery after crashes.
    - [Store] (lib.rs, wire.rs): the facade an application uses, [store_send],
      [store_load] and their pool-level counterparts, and the invariant [store_inv] that
      says which log a database holds for an entity.  [StoreProps] proves the facade
      against the log, [StoreHistory] any number of concurrent clients, [StoreViews] a
      store with its projection, [JobStore] the runtime's own store of jobs under the
      worker and the C ABI.
    - [Queries] (lib.rs, projection.rs): listing, paging and counting aggregates,
      loading and filtering views.
    - [ViewBackend] (view_backend.rs, projection.rs): the interface of view repositories
      with its laws, the SQLite repository under them, the projection as a value, and its
      reactions as interleaved steps.
    - [Effects] (fx of dispatch.rs, dependency.rs, testing.rs): what handlers return, the
      union of several entities' events and its handler chain, the test harness.
    - [TestDouble] (testing.rs): the in-memory store and the assertions of the harness.
    - [Delivery] (dispatch.rs): the port that carries a verdict to its origin, the
      execution of a dispatched job against it, executions that race over one origin,
      and the contract [Origin] an entity that
      dispatches keeps; [DispatchJson] the stored form of the dispatch types, [OrderOrigin]
      and [TicketOrigin] the orders and the support tickets of the examples under that
      contract.
    - [Protocol]: origin, queue and worker in one database, as a step relation of any
      number of claims, racing executions and acknowledgements; [Completion] a dispatched job
      from its command to its verdict.
    - [Decimal], [Shop] and [SupportTicket] (src/examples): the text of identifiers, and
      the example applications as clients of the entity, dispatch and reactor interfaces.
    - [Abi] (event-sorcery-ffi lib.rs): limits, wire types, error classes, bounded
      decoding and encoding, request validation, open options.
    - [ClaimRegistry]: the tokens of claimed jobs, as functions of the registry and a
      step relation of concurrent calls.
    - [StoreHandle]: owner cells, leases and closing, with a step relation of
      concurrent calls and closers and the condition variable they wait on.
    - [Ffi]: the body and the entry point of each [es_] function with the output cells
      it resets and writes; [FfiProps] their contracts.
    - [Buffers]: the memory of output buffers, from a call's answer to [es_buf_free].
    - [Witnesses], [AbiWitnesses], [StoreWitnesses], [DeliveryWitnesses] and
      [ViewWitnesses]: concrete
      instances of the external interfaces, a concrete run for each property with hypotheses, and the runs behind the findings.

    ** How the code is modelled

    Data are records and inductive types with the constructors of the source;
    [Result] is [result], with one error type per module as in the source.  An async
    operation on the database is a function [M E A] from a world (the database and a
    schedule saying which driver round trip fails with which error) to a result and
    a world.  [BEGIN IMMEDIATE] serializes writers, so a transaction runs as one step
    and its database is restored unless its [COMMIT] succeeds; interleavings are
    sequences of such steps ([engine_step], [job_step]), where a settlement may be
    handled against any earlier state of its job.  A driver failure means that the
    statement did not take effect.  The functions of the ABI that run under one lock
    are atomic steps of [registry_step] and [handle_step], interleaved over any number
    of threads; a thread that waits on a condition variable sleeps until it is notified.
    Loading an entity is two statements, so in [store_step] and [delivery_step] clients
    read the snapshot, read the events and commit in separate steps.

    Integers are [Z] with their width written out where the code converts, adds with
    a check or wraps (release semantics).  Clocks and fresh identifiers are
    arguments.  A panic (a [chrono] instant outside its range) is [None].

    Code outside src/ is an argument with its documented behaviour as laws: JSON text
    ([SerdeJson]), instants ([Chrono]), ULID text ([Ulid]), SQLite's JSON reader and
    its unordered scans ([SqliteJson], [TableScan], [EventScan], [RowIds]), the order
    of a hash map ([HashOrder]), CBOR ([CborCodec], [CommitCodec]).  [cqrs-es] appears
    through what the crates rely on: [execute_from] takes the state and sequence a
    command is handled against and the snapshot it decides to write as arguments, which
    [Store] obtains from the interface [CqrsEs]: a load through the crate's repository
    and the snapshot to write with a batch, under [CqrsEsLaws] (a load replays what the
    repository answers on top of the snapshot it starts from and surfaces its errors; a
    snapshot is of the state after a part of the batch, the whole of it if no boundary of
    [SNAPSHOT_SIZE] divides it, see [snapshot_with_folds]).  The registry's load is [CqrsLoad],
    the in-memory store of the tests [MemStore].  The witness files instantiate them.

    ** What the theorems show

    - Engine: a commit is atomic and exactly its specification ([commit_spec]), reads
      back ([commit_load]; opaque bytes by [opaque_commit_round_trip]), and a version is committed at
      most once in every history of the steps that do not lower a version
      ([version_committed_once], [engine_history]); paging
      is complete, bounded pages are all or nothing, native events cannot pose as
      engine-owned bytes; snapshots and compaction never move a version.
    - Jobs: a claim is a compare-and-swap on the job's stream, a lease excludes other
      claims, a renewal and a settlement act only for the claim that made them, a
      job's row is the fold of its log up to its last claim in every history, the SQL
      poll selects exactly what the planner accepts, a runnable job can be claimed, a
      worker only runs what it durably claimed, and the retry budget is exact.  A
      standalone job, once enqueued, is polled from its instant on and its first claim
      hands the worker that job ([enqueued_job_delivered]).
    - Store: a load answers its snapshot with the later events folded on top, which is
      the fold of the whole log if no snapshot boundary divided a batch
      ([store_load_exact]); a command is one atomic step of that log ([send_refines]);
      concurrent clients are linearizable, compaction past a client in flight excluded
      ([store_linearizable]); after a command the
      view agrees with the load ([send_projects]); a compacted state is never replaced
      by a guess ([corrupt_snapshot_surfaced]).  The settlements of the runtime and of
      the C ABI's tokens are such commands on the job's own store
      ([store_settles_claim], [token_settles_claim]).
    - Commands and dispatch: a command cannot commit events its entity cannot replay;
      events and dispatched jobs commit together; a verdict is delivered before the
      acknowledgement and, whatever number of executions race and wherever they fail,
      applied exactly once ([verdict_applied_once]); an external action is resubmitted
      only after reconciliation.  Across origin, queue and worker, a recorded outcome is
      backed by a settled origin ([outcome_backed_by_origin]), and a dispatched job
      reaches its verdict ([dispatch_completes]).
    - Projections: a reaction applies its event once or not at all, and reactions side by
      side, over any backend that keeps the laws of [ViewBackend], lose no update
      ([reactions_lose_no_update]); catching up and rebuilding restore the fold of the stream; retries are bounded; the listing
      queries are exact and agree ([ids_exact], [projection_reads_agree]).
    - Startup: recording a schema version settles it; a startup interrupted anywhere,
      any number of times, is completed by the next one ([startup_crash_safe]).
    - C ABI: a commit answers truthfully and loads back byte for byte; every answer is
      a documented one; a claim is never stranded and a token is settled at most once,
      by one operation at a time; closing is linearized, drains calls, happens once and
      terminates; batches, registry and responses are bounded; every output buffer has
      one owner and is freed once ([buffers_accounted]).
    - Applications: an order or a ticket moves only on the verdict of the one job it
      enqueued ([order_life], [ticket_life]); the confirmation job always confirms, once
      ([order_confirmed]); the stock of an item is the sum of its movements
      ([inventory_ledger]); identifiers read back ([id_round_trip]); an event reaches its
      entity's handler ([chain_routes]).
    - Test support: the in-memory store agrees with the SQLite one
      ([test_store_agrees]), except on commands that dispatch a job.
    - Execution: a job that renews in time is run by its claimant alone ([kept_claim]).

    Fuel: [chunks_fuel] is given the length of the list it splits,
    [lifecycle_error_of_json] the depth of the document, [load_all] one request per
    event and one more (proved enough in [paging_complete]); the ack loop takes the
    number of resends as an argument since nothing bounds it in the code.

    ** What is not modelled

    - The SQL migrations ([Engine::migrate]): the tables are the fields of [Db].
    - What exists at compile time only: type-level job lists and dependency lists, the
      typestate of the builder.
    - The apalis service plumbing around the poll loop and the execution (layers,
      heartbeats, the monitor), which is that library's; the floating-point backoff,
      whose power function the language leaves unspecified (its delay is an argument);
      logging and the labels of jobs.
    - The bounded channel between a replay stream and its reader beyond the number of
      events taken.
    - The examples' main functions and benchmarks, and the Haskell binding.
    - In [Protocol], a success or a rejection that a foreign caller would record through
      the C ABI for a dispatched job it claimed, without its origin, is outside; other
      settlements are not.
    - What a load or a command does after a snapshot boundary divided a batch is
      [store_load_exact] and the run [boundary_snapshot_drops_tail]; the theorems over
      [store_inv] ask that none does ([undivided]). *)

From Stdlib Require Export ZArith Lia.
From stdpp Require Export base tactics option strings gmap sorting numbers list.

(** ** Results

    Rust's [Result<A, E>]. *)

Inductive result (E A : Type) : Type :=
| Ok (a : A)
| Err (e : E).
Arguments Ok {E A} a.
Arguments Err {E A} e.

#[global] Instance result_ret {E} : MRet (result E) := fun A a => Ok a.
#[global] Instance result_bind {E} : MBind (result E) :=
  fun A B f r => match r with Ok a => f a | Err e => Err e end.
#[global] Instance result_fmap {E} : FMap (result E) :=
  fun A B f r => match r with Ok a => Ok (f a) | Err e => Err e end.

(** [Result::map_err]; [?] with a [From] conversion is [map_err] followed by a
    bind. *)
Definition map_err {E F A} (f : E -> F) (r : result E A) : result F A :=
  match r with Ok a => Ok a | Err e => Err (f e) end.

(** [Option::ok_or]. *)
Definition ok_or {E A} (e : E) (o : option A) : result E A :=
  match o with Some a => Ok a | None => Err e end.

(** [Result::ok]. *)
Definition ok {E A} (r : result E A) : option A :=
  match r with Ok a => Some a | Err _ => None end.

Definition is_ok {E A} (r : result E A) : bool :=
  match r with Ok _ => true | Err _ => false end.

(** [iter().map(f).collect::<Result<Vec<_>, _>>()]: the first error wins. *)
Fixpoint collect {E A B} (f : A -> result E B) (l : list A) : result E (list B) :=
  match l with
  | [] => Ok []
  | x :: l => match f x with
              | Err e => Err e
              | Ok y => match collect f l with
                        | Err e => Err e
                        | Ok ys => Ok (y :: ys)
                        end
              end
  end.

(** [iter().enumerate()] mapped through [f] and collected, from index [i]. *)
Fixpoint collect_from {E A B} (f : Z -> A -> result E B) (i : Z) (l : list A) :
    result E (list B) :=
  match l with
  | [] => Ok []
  | x :: l => match f i x with
              | Err e => Err e
              | Ok y => match collect_from f (i + 1)%Z l with
                        | Err e => Err e
                        | Ok ys => Ok (y :: ys)
                        end
              end
  end.

(** ** Machine integers

    A w-bit integer is a [Z]; every operation that can overflow or fail to
    convert states its range check. *)

Definition i64_max : Z := 9223372036854775807.
Definition i64_min : Z := -9223372036854775808.
Definition u64_max : Z := 18446744073709551615.
Definition u32_max : Z := 4294967295.
(** [usize] on the supported 64-bit hosts. *)
Definition usize_max : Z := 18446744073709551615.

Definition in_i64 (z : Z) : bool := ((i64_min <=? z) && (z <=? i64_max))%Z.
Definition in_usize (z : Z) : bool := ((0 <=? z) && (z <=? usize_max))%Z.
Definition in_u64 (z : Z) : bool := ((0 <=? z) && (z <=? u64_max))%Z.
Definition in_u32 (z : Z) : bool := ((0 <=? z) && (z <=? u32_max))%Z.

#[global] Arguments in_i64 : simpl never.
#[global] Arguments in_usize : simpl never.
#[global] Arguments in_u64 : simpl never.
#[global] Arguments in_u32 : simpl never.

(** [std::num::TryFromIntError] carries no information. *)
Inductive TryFromIntError : Type := OutOfRange.

Definition i64_try_from (z : Z) : result TryFromIntError Z :=
  if in_i64 z then Ok z else Err OutOfRange.
Definition usize_try_from (z : Z) : result TryFromIntError Z :=
  if in_usize z then Ok z else Err OutOfRange.

Definition usize_checked_add (a b : Z) : option Z :=
  if in_usize (a + b) then Some (a + b)%Z else None.
Definition i64_checked_add (a b : Z) : option Z :=
  if in_i64 (a + b) then Some (a + b)%Z else None.
Definition u32_checked_add (a b : Z) : option Z :=
  if in_u32 (a + b) then Some (a + b)%Z else None.
Definition u64_checked_mul (a b : Z) : option Z :=
  if in_u64 (a * b) then Some (a * b)%Z else None.
Definition u64_checked_pow (a b : Z) : option Z :=
  if in_u64 (a ^ b) then Some (a ^ b)%Z else None.

(** Release-profile arithmetic: [+] wraps at the width. *)
Definition u32_add (a b : Z) : Z := ((a + b) mod (u32_max + 1))%Z.
Definition i64_add (a b : Z) : Z :=
  ((a + b - i64_min) mod (u64_max + 1) + i64_min)%Z.

(** ** Tactics *)

Create HintDb sorcery discriminated.

Ltac unfold_ints :=
  unfold in_i64, in_usize, in_u64, in_u32, i64_max, i64_min, u64_max, u32_max,
    usize_max in *.

(** Integer range goals: unfold the width bounds, turn boolean comparisons into
    propositions and call [lia]. *)
Ltac range := unfold_ints; lia.

#[global] Instance result_eq_dec {E A} `{EqDecision E, EqDecision A} :
  EqDecision (result E A).
Proof. solve_decision. Defined.
#[global] Instance TryFromIntError_eq_dec : EqDecision TryFromIntError.
Proof. solve_decision. Defined.

Lemma bind_Ok {E A B} (f : A -> result E B) (r : result E A) (b : B) :
  r ≫= f = Ok b <-> exists a, r = Ok a /\ f a = Ok b.
Proof. destruct r; naive_solver. Qed.

Lemma map_err_Ok {E F A} (f : E -> F) (r : result E A) (a : A) :
  map_err f r = Ok a <-> r = Ok a.
Proof. destruct r; naive_solver. Qed.

Lemma ok_or_Ok {E A} (e : E) (o : option A) (a : A) :
  ok_or e o = Ok a <-> o = Some a.
Proof. destruct o; naive_solver. Qed.

Lemma i64_try_from_Ok z w : i64_try_from z = Ok w <-> w = z /\ in_i64 z = true.
Proof. unfold i64_try_from. case_match; naive_solver. Qed.

Lemma usize_try_from_Ok z w : usize_try_from z = Ok w <-> w = z /\ in_usize z = true.
Proof. unfold usize_try_from. case_match; naive_solver. Qed.

Lemma usize_checked_add_Some a b c :
  usize_checked_add a b = Some c <-> c = (a + b)%Z /\ in_usize (a + b) = true.
Proof. unfold usize_checked_add. case_match; naive_solver. Qed.

Lemma collect_Ok {E A B} (f : A -> result E B) l ys :
  collect f l = Ok ys <-> Forall2 (fun x y => f x = Ok y) l ys.
Proof.
  revert ys. induction l as [|x l IH]; intros ys; simpl.
  - split; [by intros [= <-] | by inversion 1].
  - split.
    + intros H. destruct (f x) eqn:Hx; [|done]. destruct (collect f l) eqn:Hl; [|done].
      simplify_eq. constructor; [done|]. by apply IH.
    + inversion 1 as [|? ? ? ? Hx Hl]; subst. apply IH in Hl. by rewrite Hx, Hl.
Qed.

(** Collecting a function that always succeeds is [fmap]. *)
Lemma collect_total {E A B} (f : A -> result E B) (g : A -> B) l :
  (forall x, x ∈ l -> f x = Ok (g x)) -> collect f l = Ok (g <$> l).
Proof.
  intros H. apply collect_Ok. apply Forall2_fmap_r, Forall_Forall2_diag, Forall_forall.
  intros x Hx. by apply H.
Qed.

Lemma collect_app {E A B} (f : A -> result E B) l k ys zs :
  collect f l = Ok ys -> collect f k = Ok zs -> collect f (l ++ k) = Ok (ys ++ zs).
Proof. rewrite !collect_Ok. apply Forall2_app. Qed.

Lemma u32_add_small a b : (0 <= a + b <= u32_max)%Z -> u32_add a b = (a + b)%Z.
Proof. intros. unfold u32_add. apply Z.mod_small. range. Qed.
Lemma in_u32_add a b : in_u32 (u32_add a b) = true.
Proof. unfold u32_add. pose proof (Z.mod_pos_bound (a + b) (u32_max + 1) ltac:(done)). range. Qed.

Lemma i64_add_small a b : in_i64 (a + b) = true -> i64_add a b = (a + b)%Z.
Proof.
  intros. unfold i64_add. rewrite Z.mod_small; [lia|]. range.
Qed.

Lemma i64_add_succ_usize v s :
  in_i64 v = true -> usize_try_from (i64_add v 1) = Ok s -> s = (v + 1)%Z /\ in_i64 s = true.
Proof.
  intros Hv Hs. apply usize_try_from_Ok in Hs as [-> Hs].
  destruct (decide (v = i64_max)) as [->|Hne]; [done|].
  assert (i64_add v 1 = v + 1)%Z as -> by (apply i64_add_small; range).
  split; [done|range].
Qed.

(** *** Lists *)

Lemma StronglySorted_filter {A} (R : A -> A -> Prop) (P : A -> Prop) `{forall x, Decision (P x)} (l : list A) :
  StronglySorted R l -> StronglySorted R (filter P l).
Proof.
  induction 1 as [|x l Hs IH Hx]; [constructor|]. rewrite filter_cons. case_decide; [|done].
  constructor; [done|]. rewrite Forall_forall in *. intros y Hy.
  apply list_elem_of_filter in Hy as [_ ?]. auto.
Qed.

Lemma list_filter_all {A} (P : A -> Prop) `{forall x, Decision (P x)} (l : list A) :
  (forall x, x ∈ l -> P x) -> filter P l = l.
Proof.
  induction l as [|x l IH]; intros Hl; [done|].
  rewrite filter_cons_True by (apply Hl; constructor). f_equal. apply IH.
  intros y Hy. apply Hl. by constructor.
Qed.

Lemma list_filter_none {A} (P : A -> Prop) `{forall x, Decision (P x)} (l : list A) :
  (forall x, x ∈ l -> ~ P x) -> filter P l = [].
Proof.
  induction l as [|x l IH]; intros Hl; [done|].
  rewrite filter_cons_False by (apply Hl; constructor). apply IH.
  intros y Hy. apply Hl. by constructor.
Qed.

Lemma list_filter_ext_in {A} (P Q : A -> Prop) `{forall x, Decision (P x)}
    `{forall x, Decision (Q x)} (l : list A) :
  (forall x, x ∈ l -> P x <-> Q x) -> filter P l = filter Q l.
Proof.
  induction l as [|x l IH]; intros Hl; [done|].
  assert (P x <-> Q x) as Hx by (apply Hl; constructor).
  assert (filter P l = filter Q l) as Hfl by (apply IH; intros y Hy; apply Hl; by constructor).
  rewrite !filter_cons. repeat case_decide; rewrite ?Hfl; tauto.
Qed.

Lemma Sorted_lookup_S {A} (R : A -> A -> Prop) (l : list A) i x y :
  Sorted R l -> l !! i = Some x -> l !! S i = Some y -> R x y.
Proof.
  intros Hs. revert i. induction Hs as [|z l Hs IH Hz]; intros i Hx Hy; [done|].
  destruct i as [|i]; simpl in *; [|by eapply IH]. simplify_eq.
  destruct l as [|w l]; [done|]. simplify_eq/=. by inversion Hz.
Qed.

Create Rewrite HintDb sorcery_rw.
#[export] Hint Rewrite @bind_Ok @map_err_Ok @ok_or_Ok i64_try_from_Ok
  usize_try_from_Ok usize_checked_add_Some : sorcery_rw.
