(* ===== verification/Json.v ===== *)
(** * JSON values and the serde conventions the crate relies on

    [Json] is the serde data model of a JSON document: objects keep the order
    their fields were written in.  [serde_json::Value] is the sub-language of
    trees whose objects are [BTreeMap]s, i.e. the fixed points of [canon].

    The text format itself belongs to [serde_json], which is not part of the
    repository: the class [SerdeJson] is the interface the crate uses
    ([to_string], [from_str]) and [SerdeJsonLaws] its documented round trip, on
    the documents for which the library documents one: no floating-point number
    (the crate does not enable [float_roundtrip]), integers of 64 bits, and a
    nesting below the parser's recursion limit.

    [struct_of] and [enum_of] are the derive conventions of [serde]: structs as
    objects (or, as [serde_json] also accepts, positional arrays), enums
    externally tagged. *)

From Stdlib Require Import Ascii.
From S2P Require Import Prelude.

Inductive Json : Type :=
| JNull
| JBool (b : bool)
| JInt (z : Z)
| JFloat (bits : Z)
| JString (s : string)
| JArray (l : list Json)
| JObject (kvs : list (string * Json)).

Section json_ind.
Context (P : Json -> Prop).
Context (Hnull : P JNull) (Hbool : forall b, P (JBool b)) (Hint : forall z, P (JInt z)).
Context (Hfloat : forall z, P (JFloat z)) (Hstring : forall s, P (JString s)).
Context (Harray : forall l, Forall P l -> P (JArray l)).
Context (Hobject : forall kvs, Forall (fun kv => P kv.2) kvs -> P (JObject kvs)).

Fixpoint Json_nested_ind (j : Json) : P j :=
  match j with
  | JNull => Hnull
  | JBool b => Hbool b
  | JInt z => Hint z
  | JFloat z => Hfloat z
  | JString s => Hstring s
  | JArray l =>
      Harray l ((fix go l := match l return Forall P l with
                             | [] => List.Forall_nil _
                             | x :: l => List.Forall_cons _ _ _ (Json_nested_ind x) (go l)
                             end) l)
  | JObject kvs =>
      Hobject kvs ((fix go l := match l return Forall (fun kv => P kv.2) l with
                                | [] => List.Forall_nil _
                                | kv :: l => List.Forall_cons _ _ _ (Json_nested_ind kv.2) (go l)
                                end) kvs)
  end.
End json_ind.

(** ** Countability

    [Json] embeds into stdpp's [gen_tree], which gives decidable equality and an
    encoding into [positive] from which a concrete text codec is built below. *)

Definition json_leaf : Type := (() + bool) + ((Z + Z) + string).

Fixpoint json_to_tree (j : Json) : gen_tree json_leaf :=
  match j with
  | JNull => GenLeaf (inl (inl ()))
  | JBool b => GenLeaf (inl (inr b))
  | JInt z => GenLeaf (inr (inl (inl z)))
  | JFloat z => GenLeaf (inr (inl (inr z)))
  | JString s => GenLeaf (inr (inr s))
  | JArray l => GenNode 0 (map json_to_tree l)
  | JObject kvs =>
      GenNode 1 (map (fun kv => GenNode 0 [GenLeaf (inr (inr kv.1)); json_to_tree kv.2]) kvs)
  end.

Fixpoint json_of_tree (t : gen_tree json_leaf) : Json :=
  match t with
  | GenLeaf (inl (inl ())) => JNull
  | GenLeaf (inl (inr b)) => JBool b
  | GenLeaf (inr (inl (inl z))) => JInt z
  | GenLeaf (inr (inl (inr z))) => JFloat z
  | GenLeaf (inr (inr s)) => JString s
  | GenNode 0 ts => JArray (map json_of_tree ts)
  | GenNode _ ts =>
      JObject (map (fun t => match t with
                             | GenNode _ [GenLeaf (inr (inr k)); v] => (k, json_of_tree v)
                             | _ => (EmptyString, JNull)
                             end) ts)
  end.

Lemma json_of_to_tree j : json_of_tree (json_to_tree j) = j.
Proof.
  induction j as [| | | | |l IH|kvs IH] using Json_nested_ind; try done; simpl; f_equal.
  - induction IH; simpl; by f_equal.
  - induction IH as [|[k v] kvs Hv ? IHkvs]; simpl in *; [done|]. by rewrite Hv, IHkvs.
Qed.

#[global] Instance Json_eq_dec : EqDecision Json.
Proof.
  refine (fun x y => cast_if (decide (json_to_tree x = json_to_tree y))).
  - abstract (rewrite <-(json_of_to_tree x), <-(json_of_to_tree y); by f_equal).
  - abstract congruence.
Defined.
#[global] Instance Json_countable : Countable Json :=
  inj_countable' json_to_tree json_of_tree json_of_to_tree.

(** ** [serde_json::Value] *)

(** [BTreeMap::insert] on a key-sorted association list. *)
Fixpoint btree_insert {A} (k : string) (v : A) (m : list (string * A)) : list (string * A) :=
  match m with
  | [] => [(k, v)]
  | (k', v') :: m' =>
      match String.compare k k' with
      | Lt => (k, v) :: m
      | Eq => (k, v) :: m'
      | Gt => (k', v') :: btree_insert k v m'
      end
  end.

(** The [Value] a document denotes: every object collected into a [BTreeMap]. *)
Fixpoint canon (j : Json) : Json :=
  match j with
  | JArray l => JArray (map canon l)
  | JObject kvs =>
      JObject (fold_left (fun m kv => btree_insert kv.1 kv.2 m)
                 (map (fun kv => (kv.1, canon kv.2)) kvs) [])
  | _ => j
  end.

Definition is_value (j : Json) : bool := bool_decide (canon j = j).

(** [Map::get] on a [Value]'s object. *)
Fixpoint assoc {A} (k : string) (m : list (string * A)) : option A :=
  match m with
  | [] => None
  | (k', v) :: m => if String.eqb k k' then Some v else assoc k m
  end.

Definition max_list (l : list nat) : nat := fold_right max 0 l.

(** Container nesting depth. *)
Fixpoint depth (j : Json) : nat :=
  match j with
  | JArray l => S (max_list (map depth l))
  | JObject kvs => S (max_list (map (fun kv => depth kv.2) kvs))
  | _ => 0
  end.

(** Only integers that fit [i64] or [u64], and no floating-point number. *)
Fixpoint integral (j : Json) : bool :=
  match j with
  | JFloat _ => false
  | JInt z => ((i64_min <=? z) && (z <=? u64_max))%Z
  | JArray l => forallb integral l
  | JObject kvs => forallb (fun kv => integral kv.2) kvs
  | _ => true
  end.

(** [serde_json]'s parser refuses documents nested 128 containers deep. *)
Definition recursion_limit : nat := 128.

Definition portable (j : Json) : bool := integral j && (depth j <? recursion_limit)%nat.

(** ** The text format *)

Class SerdeJson := {
  to_string : Json -> string;
  from_str : string -> option Json;
}.

Class SerdeJsonLaws `{SerdeJson} := {
  from_str_to_string : forall j, portable j = true -> from_str (to_string j) = Some j;
}.

(** [serde_json::Error], whose contents no caller inspects. *)
Inductive JsonError : Type := Malformed.
#[global] Instance JsonError_eq_dec : EqDecision JsonError.
Proof. solve_decision. Defined.

(** [serde_json::from_str::<Value>]. *)
Definition value_from_str `{SerdeJson} (s : string) : result JsonError Json :=
  ok_or Malformed (canon <$> from_str s).

Lemma value_from_str_to_string `{SerdeJsonLaws} j :
  portable j = true -> is_value j = true -> value_from_str (to_string j) = Ok j.
Proof.
  intros Hp Hv. unfold value_from_str. rewrite from_str_to_string by done. simpl.
  apply bool_decide_eq_true in Hv. by rewrite Hv.
Qed.

(** A concrete instance: the text is the binary expansion of the encoding into
    [positive].  It serves the evaluations of the development; no theorem depends
    on it. *)
Module BinaryText.
Fixpoint pos_to_text (p : positive) : string :=
  match p with
  | xH => EmptyString
  | xO p => String "0"%char (pos_to_text p)
  | xI p => String "1"%char (pos_to_text p)
  end.

Fixpoint pos_of_text (s : string) : option positive :=
  match s with
  | EmptyString => Some xH
  | String c s =>
      if Ascii.eqb c "0"%char then xO <$> pos_of_text s
      else if Ascii.eqb c "1"%char then xI <$> pos_of_text s
      else None
  end.

Lemma pos_of_to_text p : pos_of_text (pos_to_text p) = Some p.
Proof. induction p as [p IH|p IH|]; simpl; by rewrite ?IH. Qed.

#[export] Instance binary_text : SerdeJson := {|
  to_string j := pos_to_text (encode j);
  from_str s := pos_of_text s ≫= decode;
|}.

#[export] Instance binary_text_laws : SerdeJsonLaws.
Proof.
  constructor. intros j _. simpl. rewrite pos_of_to_text. simpl. apply decode_encode.
Qed.
End BinaryText.

(** ** Derived [Deserialize] conventions *)

(** The value of a field an object must hold exactly once (serde refuses a
    duplicate field). *)
Definition field (k : string) (kvs : list (string * Json)) : option Json :=
  match filter (fun kv => kv.1 = k) kvs with
  | [(_, v)] => Some v
  | _ => None
  end.

(** The fields of a struct, in declaration order: by name from an object, by
    position from an array of the exact length. *)
Definition struct_of (names : list string) (j : Json) : option (list Json) :=
  match j with
  | JObject kvs => mapM (fun k => field k kvs) names
  | JArray l => if decide (length l = length names) then Some l else None
  | _ => None
  end.

(** An externally tagged enum: the variant's name and its content, if any. *)
Definition enum_of (j : Json) : option (string * option Json) :=
  match j with
  | JString s => Some (s, None)
  | JObject [(k, v)] => Some (k, Some v)
  | _ => None
  end.

(** The content of a unit variant, written ["V"] or [{"V": null}]. *)
Definition unit_variant (o : option Json) : bool :=
  match o with
  | None | Some JNull => true
  | Some _ => false
  end.

Definition as_string (j : Json) : option string :=
  match j with JString s => Some s | _ => None end.

(** An integer field of the given range. *)
Definition as_int (range : Z -> bool) (j : Json) : option Z :=
  match j with JInt z => if range z then Some z else None | _ => None end.

Definition as_array (j : Json) : option (list Json) :=
  match j with JArray l => Some l | _ => None end.

(** ** [Serialize]/[Deserialize] implementations

    [ser] is the document a value serializes to, fields in declaration order;
    [de] what a document deserializes to.  [SerdeLaws A P] is the round trip of
    the values satisfying [P]. *)

Class Serde (A : Type) := {
  ser : A -> Json;
  de : Json -> option A;
}.
Class SerdeLaws (A : Type) `{Serde A} (P : A -> Prop) :=
  de_ser : forall a, P a -> de (ser a) = Some a.
