(* ===== verification/Sqlite.v ===== *)
(** * The SQLite database, its statements and transactions

    The persistent state of the system is one SQLite database
    (src/crates/sqlite-es/migrations): the [events] and [snapshots] tables and the
    view tables, of which [job_queue] is one.  A table is its contents; the
    [events] table is the list of its rows in insertion order.

    Statements run in the monad [M E A]: the world holds the database and a fault
    schedule that says, for each round trip to the driver, whether it fails and
    with which [sqlx::Error].  Every theorem about an operation quantifies over
    the schedule, so it covers an infrastructure failure at each of its
    statements.  [BEGIN IMMEDIATE] serializes writers, hence a transaction is one
    step; a transaction that is not committed, a failed [COMMIT] included, is
    rolled back by the guard that owns it.

    [wp] is the weakest precondition of an operation, with one rule per
    construct, against which the components prove their contracts. *)

From S2P Require Import Prelude Json.

(** ** Rows and errors *)

(** [cqrs_es::persist::SerializedEvent]. *)
Record SerializedEvent : Type := mkSerializedEvent {
  ev_aggregate_type : string;
  ev_aggregate_id : string;
  ev_sequence : Z;
  ev_event_type : string;
  ev_event_version : string;
  ev_payload : Json;
  ev_metadata : Json;
}.

(** One row of [events], the JSON columns as stored text. *)
Record StoredEventRow : Type := mkStoredEventRow {
  row_aggregate_type : string;
  row_aggregate_id : string;
  row_sequence : Z;
  row_event_type : string;
  row_event_version : string;
  row_payload : string;
  row_metadata : string;
}.

(** One row of [snapshots]; its write-only [timestamp] column is left out. *)
Record StoredSnapshotRow : Type := mkStoredSnapshotRow {
  snap_last_sequence : Z;
  snap_snapshot_version : Z;
  snap_payload : string;
}.

(** One row of a view table.  [lease_until] is the column only [job_queue] has;
    it is [NULL] on every other view. *)
Record ViewRow : Type := mkViewRow {
  view_version : Z;
  view_payload : string;
  view_lease_until : option Z;
}.

#[global] Instance SerializedEvent_eq_dec : EqDecision SerializedEvent.
Proof. solve_decision. Defined.
#[global] Instance StoredEventRow_eq_dec : EqDecision StoredEventRow.
Proof. solve_decision. Defined.
#[global] Instance StoredSnapshotRow_eq_dec : EqDecision StoredSnapshotRow.
Proof. solve_decision. Defined.
#[global] Instance ViewRow_eq_dec : EqDecision ViewRow.
Proof. solve_decision. Defined.

(** [sqlx::Error]: a database error with its code, whether the driver classifies
    it as a unique violation, and its message; or any other failure. *)
Inductive SqlxError : Type :=
| SqlxDatabase (code : option string) (unique_violation : bool) (message : string)
| SqlxOther (what : string).
#[global] Instance SqlxError_eq_dec : EqDecision SqlxError.
Proof. solve_decision. Defined.

Definition unique_violation_error : SqlxError :=
  SqlxDatabase (Some "1555") true "UNIQUE constraint failed".

Record Db : Type := mkDb {
  db_events : list StoredEventRow;
  db_snapshots : gmap (string * string) StoredSnapshotRow;
  db_views : gmap string (gmap string ViewRow);
}.

Definition empty_db : Db := mkDb [] ∅ ∅.

Definition view_table (t : string) (db : Db) : gmap string ViewRow :=
  default ∅ (db_views db !! t).

Definition set_events (evs : list StoredEventRow) (db : Db) : Db :=
  mkDb evs (db_snapshots db) (db_views db).
Definition set_snapshot (k : string * string) (r : StoredSnapshotRow) (db : Db) : Db :=
  mkDb (db_events db) (<[k := r]> (db_snapshots db)) (db_views db).
Definition set_view_table (t : string) (m : gmap string ViewRow) (db : Db) : Db :=
  mkDb (db_events db) (db_snapshots db) (<[t := m]> (db_views db)).
Definition set_view (t k : string) (r : ViewRow) (db : Db) : Db :=
  set_view_table t (<[k := r]> (view_table t db)) db.

(** ** The statement monad *)

Record World : Type := mkWorld {
  w_db : Db;
  w_faults : list (option SqlxError);
}.

Definition M (E A : Type) : Type := World -> result E A * World.

#[global] Instance M_ret {E} : MRet (M E) := fun A a w => (Ok a, w).
#[global] Instance M_bind {E} : MBind (M E) :=
  fun A B f m w => match m w with
                   | (Ok a, w') => f a w'
                   | (Err e, w') => (Err e, w')
                   end.

Definition fail {E A} (e : E) : M E A := fun w => (Err e, w).
Definition lift {E A} (r : result E A) : M E A := fun w => (r, w).
Definition lift_err {E F A} (f : E -> F) (m : M E A) : M F A :=
  fun w => let '(r, w') := m w in (map_err f r, w').

(** One round trip: it fails as scheduled, or runs on the current database. *)
Definition statement {A} (run : Db -> result SqlxError (A * Db)) : M SqlxError A :=
  fun w =>
    match w_faults w with
    | Some e :: fs => (Err e, mkWorld (w_db w) fs)
    | fs =>
        match run (w_db w) with
        | Ok (a, db') => (Ok a, mkWorld db' (tail fs))
        | Err e => (Err e, mkWorld (w_db w) (tail fs))
        end
    end.

Definition query {A} (f : Db -> A) : M SqlxError A :=
  statement (fun db => Ok (f db, db)).
Definition execute (f : Db -> Db) : M SqlxError () :=
  statement (fun db => Ok ((), f db)).

(** [pool.acquire()]. *)
Definition acquire : M SqlxError () := query (fun _ => ()).

(** [pool.begin()] and [transaction.commit()]; the handle of an open transaction
    is the database to restore. *)
Definition begin_tx : M SqlxError Db := statement (fun db => Ok (db, db)).
Definition commit_tx : M SqlxError () := execute id.

(** Dropping or rolling back restores the database whatever the round trip
    reports. *)
Definition rollback_tx (saved : Db) : M SqlxError () :=
  fun w => let '(r, w') := query (fun _ => ()) w in (r, mkWorld saved (w_faults w')).

(** [let tx = pool.begin()?; body; tx.commit()?]: an error on any path drops the
    guard. *)
Definition transaction {E A} (from : SqlxError -> E) (body : M E A) : M E A :=
  fun w =>
    match lift_err from begin_tx w with
    | (Err e, w') => (Err e, w')
    | (Ok saved, w') =>
        match (a ← body; _ ← lift_err from commit_tx; mret a) w' with
        | (Ok a, w'') => (Ok a, w'')
        | (Err e, w'') => (Err e, mkWorld saved (w_faults w''))
        end
    end.

(** Runs [m] without infrastructure failures. *)
Definition run {E A} (m : M E A) (db : Db) : result E A * Db :=
  let '(r, w) := m (mkWorld db []) in (r, w_db w).

(** ** Weakest preconditions

    [wp true m db Q]: whatever the fault schedule, running [m] on [db] ends in a
    result and a database related by [Q].  [wp false m db Q] is the same for the
    schedule without faults. *)

Definition wp (faulty : bool) {E A} (m : M E A) (db : Db) (Q : result E A -> Db -> Prop) : Prop :=
  forall fs, (faulty = false -> fs = []) ->
    let '(r, w) := m (mkWorld db fs) in
    (faulty = false -> w_faults w = []) /\ Q r (w_db w).

Section wp.
Context (b : bool).

Lemma wp_mono {E A} (m : M E A) db (Q R : result E A -> Db -> Prop) :
  wp b m db Q -> (forall r db', Q r db' -> R r db') -> wp b m db R.
Proof. intros H HQR fs Hfs. specialize (H fs Hfs). destruct (m _). naive_solver. Qed.

Lemma wp_ret {E A} (a : A) db (Q : result E A -> Db -> Prop) :
  Q (Ok a) db -> wp b (mret a) db Q.
Proof. intros H fs Hfs. simpl. auto. Qed.

Lemma wp_fail {E A} (e : E) db (Q : result E A -> Db -> Prop) :
  Q (Err e) db -> wp b (fail e) db Q.
Proof. intros H fs Hfs. simpl. auto. Qed.

Lemma wp_lift {E A} (r : result E A) db (Q : result E A -> Db -> Prop) :
  Q r db -> wp b (lift r) db Q.
Proof. intros H fs Hfs. simpl. auto. Qed.

Lemma wp_bind {E A B} (m : M E A) (f : A -> M E B) db (Q : result E B -> Db -> Prop) :
  wp b m db (fun r db' => match r with Ok a => wp b (f a) db' Q | Err e => Q (Err e) db' end) ->
  wp b (m ≫= f) db Q.
Proof.
  intros H fs Hfs. specialize (H fs Hfs). unfold mbind, M_bind.
  destruct (m _) as [[a|e] [db' fs']]; simpl in *; [|naive_solver].
  destruct H as [Hfs' H]. apply (H fs' Hfs').
Qed.

Lemma wp_assoc {E A B C} (m : M E A) (f : A -> M E B) (g : B -> M E C) db (Q : result E C -> Db -> Prop) :
  wp b ((m ≫= f) ≫= g) db Q -> wp b (m ≫= fun a => f a ≫= g) db Q.
Proof.
  intros H fs Hfs. specialize (H fs Hfs). unfold mbind, M_bind in *. by destruct (m _) as [[a|e] w].
Qed.

(** Inspecting the result of an operation, success or not. *)
Lemma wp_attempt {E F A B} (m : M E A) (k : result E A -> M F B) db (Q : result F B -> Db -> Prop) :
  wp b m db (fun r db' => wp b (k r) db' Q) ->
  wp b (fun w => let '(r, w) := m w in k r w) db Q.
Proof.
  intros H fs Hfs. specialize (H fs Hfs). destruct (m _) as [r [db' fs']]; simpl in *.
  destruct H as [Hfs' H]. apply (H fs' Hfs').
Qed.

Lemma wp_lift_err {E F A} (f : E -> F) (m : M E A) db (Q : result F A -> Db -> Prop) :
  wp b m db (fun r db' => Q (map_err f r) db') -> wp b (lift_err f m) db Q.
Proof. intros H fs Hfs. specialize (H fs Hfs). unfold lift_err. by destruct (m _). Qed.

Lemma wp_statement {A} (run : Db -> result SqlxError (A * Db)) db
    (Q : result SqlxError A -> Db -> Prop) :
  (b = true -> forall e, Q (Err e) db) ->
  match run db with Ok (a, db') => Q (Ok a) db' | Err e => Q (Err e) db end ->
  wp b (statement run) db Q.
Proof.
  intros Hf H fs Hfs. unfold statement; simpl.
  destruct b; [|rewrite Hfs in * by done]; simpl.
  - destruct fs as [|[e|] fs]; simpl; destruct (run db) as [[a db']|e'];
      simpl; split; try done; auto.
  - destruct (run db) as [[a db']|e']; simpl; auto.
Qed.

Lemma wp_query {A} (f : Db -> A) db (Q : result SqlxError A -> Db -> Prop) :
  (b = true -> forall e, Q (Err e) db) -> Q (Ok (f db)) db -> wp b (query f) db Q.
Proof. intros. by apply wp_statement. Qed.

Lemma wp_execute (f : Db -> Db) db (Q : result SqlxError () -> Db -> Prop) :
  (b = true -> forall e, Q (Err e) db) -> Q (Ok ()) (f db) -> wp b (execute f) db Q.
Proof. intros. by apply wp_statement. Qed.

Lemma wp_rollback saved db (Q : result SqlxError () -> Db -> Prop) :
  (b = true -> forall e, Q (Err e) saved) -> Q (Ok ()) saved ->
  wp b (rollback_tx saved) db Q.
Proof.
  intros Hf H fs Hfs. unfold rollback_tx.
  assert (wp b (query (fun _ => ())) db (fun r _ => Q r saved)) as Hw by by apply wp_query.
  specialize (Hw fs Hfs). by destruct (query _ _).
Qed.

(** A transaction's errors leave the database as it was. *)
Lemma wp_transaction {E A} (from : SqlxError -> E) (body : M E A) db
    (Q : result E A -> Db -> Prop) :
  (b = true -> forall e, Q (Err (from e)) db) ->
  wp b body db (fun r db' => match r with Ok a => Q (Ok a) db' | Err e => Q (Err e) db end) ->
  wp b (transaction from body) db Q.
Proof.
  intros Hf H. unfold transaction.
  assert (wp b (lift_err from begin_tx) db
            (fun r db' => db' = db /\ match r with Ok s => s = db | Err e => Q (Err e) db end))
    as Hbegin by (apply wp_lift_err, wp_statement; naive_solver).
  intros fs Hfs. specialize (Hbegin fs Hfs).
  destruct (lift_err from begin_tx _) as [[saved|e] [db' fs']]; simpl in *; [|naive_solver].
  destruct Hbegin as (Hfs' & -> & ->).
  assert (wp b (a ← body; _ ← lift_err from commit_tx; mret a) db
            (fun r db' => match r with Ok a => Q (Ok a) db' | Err e => Q (Err e) db end)) as Hbody.
  { apply wp_bind. eapply wp_mono; [apply H|]. intros [a|e] db''; [|done]. intros HQ.
    apply wp_bind, wp_lift_err, wp_execute; [naive_solver|]. by apply wp_ret. }
  specialize (Hbody fs' Hfs').
  destruct (mbind _ body _) as [[a|e] [db'' fs'']]; simpl in *; naive_solver.
Qed.
End wp.

(** From a triple to a run. *)
Lemma wp_run {E A} (m : M E A) db Q :
  wp false m db Q -> Q (run m db).1 (run m db).2.
Proof.
  intros H. specialize (H [] (fun _ => eq_refl)). unfold run.
  destruct (m _) as [r w]; simpl in *. tauto.
Qed.

Lemma wp_run_eq {E A} (m : M E A) db r db' :
  wp false m db (fun r1 db1 => r1 = r /\ db1 = db') -> run m db = (r, db').
Proof. intros [Hr Hd]%wp_run. by destruct (run m db); simpl in *; subst. Qed.

Lemma run_bind_lift {E A B} (m : M E A) (f : A -> result E B) db :
  run (a ← m; lift (f a)) db = ((run m db).1 ≫= f, (run m db).2).
Proof. unfold run, mbind at 1, M_bind. by destruct (m _) as [[a|e] w]. Qed.

Lemma wp_world {E A} (m : M E A) w Q :
  wp true m (w_db w) Q -> Q (m w).1 (w_db (m w).2).
Proof.
  intros H. destruct w as [db fs]. specialize (H fs ltac:(done)). simpl in *.
  destruct (m _) as [r w]; simpl in *. tauto.
Qed.

Lemma wp_and {E A} b (m : M E A) db (Q R : result E A -> Db -> Prop) :
  wp b m db Q -> wp b m db R -> wp b m db (fun r db' => Q r db' /\ R r db').
Proof.
  intros HQ HR fs Hfs. specialize (HQ fs Hfs). specialize (HR fs Hfs). destruct (m _). naive_solver.
Qed.

(** What a run does, the faults it met included. *)
Lemma wp_worlds {E A} (m : M E A) w (Q : bool -> result E A -> Db -> Prop) :
  (forall b, wp b m (w_db w) (Q b)) -> Q (bool_decide (w_faults w <> [])) (m w).1 (w_db (m w).2).
Proof.
  intros H. destruct w as [db fs]. specialize (H (bool_decide (fs <> [])) fs). simpl in *.
  destruct (m _) as [r w]; simpl in *. apply H. by intros ?%bool_decide_eq_false%dec_stable.
Qed.

(** Peels one construct off a [wp] goal. *)
Ltac wp_step :=
  match goal with
  | |- wp _ (mbind _ _) _ _ => apply wp_bind
  | |- wp ?b (fun w => ?m w) ?db ?Q => change (wp b m db Q)
  | |- wp _ (mret _) _ _ => apply wp_ret
  | |- wp _ (fail _) _ _ => apply wp_fail
  | |- wp _ (lift _) _ _ => apply wp_lift
  | |- wp _ (lift_err _ _) _ _ => apply wp_lift_err
  | |- wp _ (query _) _ _ => apply wp_query
  | |- wp _ acquire _ _ => apply wp_query
  | |- wp _ (execute _) _ _ => apply wp_execute
  | |- wp _ (transaction _ _) _ _ => apply wp_transaction
  | |- wp _ (rollback_tx _) _ _ => apply wp_rollback
  end.
