(* ===== verification/EventTable.v ===== *)
(** * The [events] table: batched inserts and ordered reads

    Models src/crates/sqlite-es/src/event_repository.rs
    ([insert_serialized_events_batch], [is_optimistic_lock_error],
    [row_to_serialized_event]) and the [SELECT ... ORDER BY sequence] statements
    src/crates/event-sorcery/src/engine.rs runs.

    [insert_batch_spec] is the contract of the batched insert: it appends exactly
    the proposed rows or reports the primary-key conflict; the other components
    use nothing else of it.  The read lemmas say that a stream's rows come back in
    sequence order and that rows appended above the stream's maximum extend the
    result at the end. *)

From S2P Require Import Prelude Json Sqlite.

(** ** Errors *)

Inductive SqliteAggregateError : Type :=
| AggOptimisticLock
| AggConnection (e : SqlxError)
| AggDeserialization (e : JsonError)
| AggTryFromInt (e : TryFromIntError)
| AggEmptySnapshotUpdate.
#[global] Instance SqliteAggregateError_eq_dec : EqDecision SqliteAggregateError.
Proof. solve_decision. Defined.

(** [cqrs_es::persist::PersistenceError], whose payloads are boxed errors. *)
Inductive PersistenceError : Type :=
| OptimisticLockError
| ConnectionError (e : SqlxError)
| DeserializationError (e : JsonError)
| UnknownError.
#[global] Instance PersistenceError_eq_dec : EqDecision PersistenceError.
Proof. solve_decision. Defined.

Definition persistence_of_aggregate_error (err : SqliteAggregateError) : PersistenceError :=
  match err with
  | AggOptimisticLock => OptimisticLockError
  | AggConnection e => ConnectionError e
  | AggDeserialization e => DeserializationError e
  | AggTryFromInt _ | AggEmptySnapshotUpdate => UnknownError
  end.

(** [cqrs_es::AggregateError], and its conversion from [PersistenceError]. *)
Inductive AggregateError (UserErr : Type) : Type :=
| UserError (e : UserErr)
| AggregateConflict
| DatabaseConnectionError (e : SqlxError)
| AggregateDeserializationError (e : JsonError)
| UnexpectedError.
Arguments UserError {UserErr}.
Arguments AggregateConflict {UserErr}.
Arguments DatabaseConnectionError {UserErr}.
Arguments AggregateDeserializationError {UserErr}.
Arguments UnexpectedError {UserErr}.

#[global] Instance AggregateError_eq_dec {U} `{EqDecision U} : EqDecision (AggregateError U).
Proof. solve_decision. Defined.

Definition aggregate_error_of_persistence {U} (error : PersistenceError) : AggregateError U :=
  match error with
  | OptimisticLockError => AggregateConflict
  | ConnectionError e => DatabaseConnectionError e
  | DeserializationError e => AggregateDeserializationError e
  | UnknownError => UnexpectedError
  end.

(** [str::contains]. *)
Fixpoint contains (needle hay : string) : bool :=
  String.prefix needle hay ||
  match hay with EmptyString => false | String _ hay => contains needle hay end.

Definition is_optimistic_lock_error (e : SqlxError) : bool :=
  match e with
  | SqlxDatabase _ unique message => unique || contains "UNIQUE constraint failed" message
  | SqlxOther _ => false
  end.

(** ** Inserting *)

Definition row_key (r : StoredEventRow) : string * string * Z :=
  (row_aggregate_type r, row_aggregate_id r, row_sequence r).
Definition event_key (e : SerializedEvent) : string * string * Z :=
  (ev_aggregate_type e, ev_aggregate_id e, ev_sequence e).

(** The row a [SerializedEvent] is bound as; JSON columns are bound as text. *)
Definition event_row `{SerdeJson} (e : SerializedEvent) : StoredEventRow :=
  mkStoredEventRow (ev_aggregate_type e) (ev_aggregate_id e) (ev_sequence e)
    (ev_event_type e) (ev_event_version e)
    (to_string (ev_payload e)) (to_string (ev_metadata e)).

(** A multi-row [INSERT] under the primary key
    [(aggregate_type, aggregate_id, sequence)]. *)
Definition insert_rows (rows : list StoredEventRow) (db : Db) : result SqlxError (() * Db) :=
  if decide (NoDup (row_key <$> rows) /\
             Forall (fun k => k ∉ row_key <$> db_events db) (row_key <$> rows))
  then Ok ((), set_events (db_events db ++ rows) db)
  else Err unique_violation_error.

(** [slice::chunks]. *)
Fixpoint chunks_fuel {A} (fuel n : nat) (l : list A) : list (list A) :=
  match fuel, l with
  | 0, _ | _, [] => []
  | S fuel, _ => take n l :: chunks_fuel fuel n (drop n l)
  end.
Definition chunks {A} (n : nat) (l : list A) : list (list A) := chunks_fuel (length l) n l.

Definition BINDS_PER_ROW : nat := 7.
Definition SQLITE_MAX_VARIABLE_NUMBER : nat := 999.
Definition MAX_ROWS_PER_BATCH : nat := SQLITE_MAX_VARIABLE_NUMBER / BINDS_PER_ROW.

Definition insert_chunk `{SerdeJson} (chunk : list SerializedEvent) :
    M SqliteAggregateError () :=
  _ ← lift (map_err AggTryFromInt (collect (fun e => i64_try_from (ev_sequence e)) chunk));
  lift_err (fun e => if is_optimistic_lock_error e then AggOptimisticLock else AggConnection e)
    (statement (insert_rows (event_row <$> chunk))).

Fixpoint insert_chunks `{SerdeJson} (cs : list (list SerializedEvent)) :
    M SqliteAggregateError () :=
  match cs with
  | [] => mret ()
  | c :: cs => _ ← insert_chunk c; insert_chunks cs
  end.

Definition insert_serialized_events_batch `{SerdeJson} (events : list SerializedEvent) :
    M SqliteAggregateError () :=
  match events with
  | [] => mret ()
  | _ => insert_chunks (chunks MAX_ROWS_PER_BATCH events)
  end.

(** ** Reading *)

Definition in_stream (t i : string) (r : StoredEventRow) : bool :=
  String.eqb (row_aggregate_type r) t && String.eqb (row_aggregate_id r) i.

Definition row_le (r1 r2 : StoredEventRow) : Prop := (row_sequence r1 <= row_sequence r2)%Z.
#[global] Instance row_le_dec : RelDecision row_le.
Proof. intros r1 r2. unfold row_le. apply _. Defined.

(** [WHERE aggregate_type = ?1 AND aggregate_id = ?2]. *)
Definition stream_rows (t i : string) (db : Db) : list StoredEventRow :=
  filter (fun r => in_stream t i r = true) (db_events db).

(** [... AND sequence > ?3], or no bound. *)
Definition after (bound : option Z) (r : StoredEventRow) : bool :=
  match bound with None => true | Some n => (n <? row_sequence r)%Z end.

(** [... ORDER BY sequence]. *)
Definition select_events (t i : string) (bound : option Z) (db : Db) : list StoredEventRow :=
  merge_sort row_le (filter (fun r => after bound r = true) (stream_rows t i db)).

(** [SELECT MAX(sequence)], [COALESCE]d to 0. *)
Definition max_sequence (rows : list StoredEventRow) : Z :=
  fold_right (fun r m => Z.max (row_sequence r) m) 0%Z rows.

(** [TryFrom<StoredEventRow> for SerializedEvent]. *)
Inductive RowError : Type := RowInteger (e : TryFromIntError) | RowJson (e : JsonError).

Definition serialized_event `{SerdeJson} (row : StoredEventRow) : result RowError SerializedEvent :=
  sequence ← map_err RowInteger (usize_try_from (row_sequence row));
  payload ← map_err RowJson (value_from_str (row_payload row));
  metadata ← map_err RowJson (value_from_str (row_metadata row));
  mret (mkSerializedEvent (row_aggregate_type row) (row_aggregate_id row) sequence
          (row_event_type row) (row_event_version row) payload metadata).

(** ** What can be inserted *)

(** The primary key the database maintains. *)
Definition keys_unique (db : Db) : Prop := NoDup (row_key <$> db_events db).

Definition insertable (db : Db) (events : list SerializedEvent) : Prop :=
  Forall (fun e => in_i64 (ev_sequence e) = true) events /\
  NoDup (event_key <$> events) /\
  Forall (fun e => event_key e ∉ row_key <$> db_events db) events.

Definition append_events `{SerdeJson} (events : list SerializedEvent) (db : Db) : Db :=
  set_events (db_events db ++ (event_row <$> events)) db.

Section lemmas.
Context `{SerdeJson}.

Lemma row_key_event_row e : row_key (event_row e) = event_key e.
Proof. done. Qed.

Lemma row_keys_event_rows (l : list SerializedEvent) : row_key <$> (event_row <$> l) = event_key <$> l.
Proof. rewrite <-list_fmap_compose. done. Qed.

Lemma insert_rows_events db l :
  Forall (fun e => in_i64 (ev_sequence e) = true) l ->
  insert_rows (event_row <$> l) db =
    if decide (insertable db l) then Ok ((), append_events l db) else Err unique_violation_error.
Proof.
  intros Hr. unfold insert_rows, insertable, append_events. rewrite row_keys_event_rows.
  assert (Forall (fun k => k ∉ row_key <$> db_events db) (event_key <$> l) <->
          Forall (fun e => event_key e ∉ row_key <$> db_events db) l) by apply Forall_fmap.
  repeat case_decide; naive_solver.
Qed.

Lemma insertable_app db l k :
  insertable db (l ++ k) <-> insertable db l /\ insertable (append_events l db) k.
Proof.
  unfold insertable, append_events; simpl.
  rewrite !Forall_app, fmap_app, NoDup_app, fmap_app, row_keys_event_rows.
  rewrite !(Forall_forall (fun e => event_key e ∉ _)).
  setoid_rewrite not_elem_of_app.
  assert ((forall x, x ∈ event_key <$> l -> x ∉ event_key <$> k) <->
          (forall x, x ∈ k -> event_key x ∉ event_key <$> l)) as ->.
  { split; intros Hd x Hx Hx'.
    - apply (Hd _ Hx'). by apply list_elem_of_fmap_2.
    - apply list_elem_of_fmap in Hx' as (y & -> & Hy). by apply (Hd y Hy). }
  naive_solver.
Qed.

Lemma append_events_app l k db : append_events k (append_events l db) = append_events (l ++ k) db.
Proof. unfold append_events, set_events; simpl. by rewrite fmap_app, (assoc_L (++)). Qed.

Lemma concat_chunks_fuel {A} fuel n (l : list A) :
  length l <= fuel -> 0 < n -> concat (chunks_fuel fuel n l) = l.
Proof.
  intros Hl Hn. revert l Hl. induction fuel as [|fuel IH]; intros l Hl.
  - by destruct l; simpl in *; [|lia].
  - destruct l as [|x l]; [done|]. cbn [chunks_fuel concat]. rewrite IH; [apply take_drop|].
    rewrite length_drop. simpl in *. lia.
Qed.

(** The outcome of the insert of [events] on [db]: everything appended, or the
    conflict the schedule did not cause. *)
Definition insert_post (b : bool) (events : list SerializedEvent) (db : Db)
    (r : result SqliteAggregateError ()) (db' : Db) : Prop :=
  match r with
  | Ok _ => insertable db events /\ db' = append_events events db
  | Err e => b = false -> ~ insertable db events /\
      (Forall (fun e => in_i64 (ev_sequence e) = true) events -> e = AggOptimisticLock)
  end.

Lemma insert_chunk_spec b c db :
  wp b (insert_chunk c) db (insert_post b c db).
Proof.
  unfold insert_chunk. wp_step. wp_step.
  destruct (collect _ c) as [sq|e] eqn:Hc; simpl.
  - apply collect_Ok in Hc.
    assert (Forall (fun e => in_i64 (ev_sequence e) = true) c) as Hr.
    { eapply Forall2_Forall_l; [exact Hc|]. apply Forall_forall. intros z _ e.
      rewrite i64_try_from_Ok. tauto. }
    wp_step. apply wp_statement; [intros ->; done|].
    rewrite insert_rows_events by done. case_decide; naive_solver.
  - intros _. split; [|intros Hr].
    + intros [Hr _]. rewrite (collect_total _ ev_sequence) in Hc; [done|].
      intros x Hx. apply i64_try_from_Ok. rewrite Forall_forall in Hr. auto.
    + rewrite (collect_total _ ev_sequence) in Hc; [done|].
      intros x Hx. apply i64_try_from_Ok. rewrite Forall_forall in Hr. auto.
Qed.

Lemma insert_chunks_spec b cs db :
  wp b (insert_chunks cs) db (insert_post b (concat cs) db).
Proof.
  revert db. induction cs as [|c cs IH]; intros db; simpl.
  - wp_step. simpl. unfold append_events, insertable, set_events; simpl.
    rewrite app_nil_r. destruct db; repeat constructor.
  - wp_step. eapply wp_mono; [apply insert_chunk_spec|].
    intros [[]|e] db'; simpl.
    + intros [Hi ->]. eapply wp_mono; [apply IH|].
      intros [[]|e] db''; simpl; rewrite insertable_app, ?Forall_app, <-?append_events_app; naive_solver.
    + rewrite insertable_app, ?Forall_app. naive_solver.
Qed.

Lemma insert_batch_spec b events db :
  wp b (insert_serialized_events_batch events) db (insert_post b events db).
Proof.
  assert (concat (chunks MAX_ROWS_PER_BATCH events) = events) as Hc.
  { apply concat_chunks_fuel; [done|]. apply Nat.ltb_lt. reflexivity. }
  unfold insert_serialized_events_batch.
  destruct events as [|e events]; [apply (insert_chunks_spec b [])|].
  rewrite <-Hc at 2. apply insert_chunks_spec.
Qed.
End lemmas.

(** ** Ordered reads

    Under the primary key a stream's rows have distinct sequences, so the ordered
    read is the one strictly increasing arrangement of them: [select_events_char].
    Everything else about reads follows from it. *)

Definition row_lt (r1 r2 : StoredEventRow) : Prop := (row_sequence r1 < row_sequence r2)%Z.

(** The rows a stream read ranges over. *)
Definition visible (t i : string) (bound : option Z) (db : Db) : list StoredEventRow :=
  filter (fun r => after bound r = true) (stream_rows t i db).

Lemma in_stream_true t i r :
  in_stream t i r = true <-> row_aggregate_type r = t /\ row_aggregate_id r = i.
Proof. unfold in_stream. by rewrite andb_true_iff, !String.eqb_eq. Qed.

Lemma elem_of_visible t i bound db r :
  r ∈ visible t i bound db <->
  r ∈ db_events db /\ row_aggregate_type r = t /\ row_aggregate_id r = i /\ after bound r = true.
Proof.
  unfold visible, stream_rows. rewrite !list_elem_of_filter, in_stream_true. tauto.
Qed.

Lemma visible_sequences_NoDup t i bound db :
  keys_unique db -> NoDup (row_sequence <$> visible t i bound db).
Proof.
  unfold keys_unique, visible, stream_rows. induction (db_events db) as [|r l IH]; intros Hk.
  - constructor.
  - rewrite fmap_cons, NoDup_cons in Hk. destruct Hk as [Hr Hk]. rewrite filter_cons.
    case_decide as Hs; [|by apply IH]. rewrite filter_cons. case_decide; [|by apply IH].
    rewrite fmap_cons. constructor; [|by apply IH].
    rewrite list_elem_of_fmap. intros (r' & Heq & Hr').
    rewrite !list_elem_of_filter in Hr'. destruct Hr' as (_ & Hs' & Hin). apply Hr.
    apply list_elem_of_fmap. exists r'. split; [|done].
    apply in_stream_true in Hs as [??], Hs' as [??]. unfold row_key. congruence.
Qed.

Lemma sorted_strict l :
  StronglySorted row_le l -> NoDup (row_sequence <$> l) -> StronglySorted row_lt l.
Proof.
  induction 1 as [|r l Hs IH Hr]; intros Hn; [constructor|].
  rewrite fmap_cons, NoDup_cons in Hn. destruct Hn as [Hrn Hn]. constructor; [by apply IH|].
  rewrite Forall_forall in *. intros r' Hin. specialize (Hr r' Hin). unfold row_le, row_lt in *.
  assert (row_sequence r' <> row_sequence r); [|lia].
  intros Heq. apply Hrn. rewrite <-Heq. by apply list_elem_of_fmap_2.
Qed.

#[global] Instance row_le_total : Total row_le.
Proof. intros x y. unfold row_le. lia. Qed.
#[global] Instance row_le_trans : Transitive row_le.
Proof. intros x y z. unfold row_le. lia. Qed.

Lemma select_events_perm t i bound db : select_events t i bound db ≡ₚ visible t i bound db.
Proof. apply merge_sort_Permutation. Qed.

Lemma select_events_sorted t i bound db :
  keys_unique db -> StronglySorted row_lt (select_events t i bound db).
Proof.
  intros Hk. apply sorted_strict; [by apply (StronglySorted_merge_sort _)|].
  rewrite select_events_perm.
  by apply visible_sequences_NoDup.
Qed.

Lemma elem_of_select t i bound db r :
  r ∈ select_events t i bound db <-> r ∈ visible t i bound db.
Proof. by rewrite select_events_perm. Qed.

(** The read is determined by the rows it ranges over. *)
Lemma select_events_char t i bound db l :
  keys_unique db -> StronglySorted row_lt l -> l ≡ₚ visible t i bound db ->
  select_events t i bound db = l.
Proof.
  intros Hk Hl Hp. apply (StronglySorted_unique_strong row_lt).
  - intros x y _ _. unfold row_lt. lia.
  - by apply select_events_sorted.
  - done.
  - by rewrite Hp, select_events_perm.
Qed.

Definition min_bound (a b : option Z) : option Z :=
  match a, b with Some x, Some y => Some (Z.max x y) | Some x, None => Some x | None, b => b end.

(** Reading after a cursor is reading everything and keeping what follows. *)
Lemma select_events_after t i bound c db :
  keys_unique db ->
  select_events t i (min_bound bound (Some c)) db =
    filter (fun r => after (Some c) r = true) (select_events t i bound db).
Proof.
  intros Hk. apply select_events_char; [done|by apply StronglySorted_filter, select_events_sorted|].
  rewrite select_events_perm. unfold visible. rewrite list_filter_filter.
  apply reflexive_eq, list_filter_iff. intros r.
  destruct bound as [b|]; simpl; rewrite ?Z.ltb_lt; lia.
Qed.

(** *** Appending above the maximum *)

Lemma max_sequence_app l k : max_sequence (l ++ k) = Z.max (max_sequence l) (max_sequence k).
Proof.
  unfold max_sequence. induction l as [|r l IH]; simpl; [|lia].
  induction k as [|r k IH]; simpl; lia.
Qed.

Lemma max_sequence_nonneg l : (0 <= max_sequence l)%Z.
Proof. unfold max_sequence. induction l; simpl; lia. Qed.

Lemma max_sequence_elem l r : r ∈ l -> (row_sequence r <= max_sequence l)%Z.
Proof. unfold max_sequence. induction 1; simpl; lia. Qed.

Lemma max_sequence_bound l n :
  (0 <= n)%Z -> Forall (fun r => (row_sequence r <= n)%Z) l -> (max_sequence l <= n)%Z.
Proof. unfold max_sequence. induction 2; simpl; lia. Qed.

Section append.
Context `{SerdeJson}.

Definition in_stream_event (t i : string) (e : SerializedEvent) : Prop :=
  ev_aggregate_type e = t /\ ev_aggregate_id e = i.

Lemma stream_rows_append_same t i l db :
  Forall (in_stream_event t i) l ->
  stream_rows t i (append_events l db) = stream_rows t i db ++ (event_row <$> l).
Proof.
  intros Hl. unfold stream_rows, append_events; simpl. rewrite filter_app. f_equal.
  apply list_filter_all. intros r (e & -> & He)%list_elem_of_fmap. rewrite in_stream_true.
  rewrite Forall_forall in Hl. by apply (Hl e).
Qed.

Lemma stream_rows_append_other t i l db :
  Forall (fun e => ~ in_stream_event t i e) l ->
  stream_rows t i (append_events l db) = stream_rows t i db.
Proof.
  intros Hl. unfold stream_rows, append_events; simpl. rewrite filter_app.
  rewrite (list_filter_none _ (event_row <$> l)); [apply app_nil_r|].
  intros r (e & -> & He)%list_elem_of_fmap. rewrite in_stream_true.
  rewrite Forall_forall in Hl. by apply (Hl e).
Qed.

Lemma keys_unique_append l db :
  keys_unique db -> insertable db l -> keys_unique (append_events l db).
Proof.
  intros Hk (_ & Hn & Hf). unfold keys_unique, append_events; simpl.
  rewrite fmap_app, NoDup_app, row_keys_event_rows. split_and!; [done| |done].
  intros k Hk1 Hk2. apply list_elem_of_fmap in Hk2 as (e & -> & He).
  rewrite Forall_forall in Hf. by apply (Hf e).
Qed.

(** Events appended in order above a stream's maximum extend every read that
    reaches them, at its end. *)
Lemma select_events_append t i bound l db :
  keys_unique db -> insertable db l -> Forall (in_stream_event t i) l ->
  StronglySorted row_lt (event_row <$> l) ->
  Forall (fun e => max_sequence (stream_rows t i db) < ev_sequence e)%Z l ->
  from_option (fun b => b <= max_sequence (stream_rows t i db))%Z True bound ->
  select_events t i bound (append_events l db) =
    select_events t i bound db ++ (event_row <$> l).
Proof.
  intros Hk Hi Hl Hs Hm Hb. apply select_events_char; [by apply keys_unique_append|..].
  - apply StronglySorted_app. split_and!; [|by apply select_events_sorted|done].
    intros r1 r2 Hr1 Hr2. rewrite elem_of_select, elem_of_visible in Hr1.
    destruct Hr1 as (Hin & ? & ? & _). apply list_elem_of_fmap in Hr2 as (e & -> & He).
    rewrite Forall_forall in Hm. specialize (Hm e He). unfold row_lt. simpl.
    eapply Z.le_lt_trans; [|exact Hm]. apply max_sequence_elem.
    apply list_elem_of_filter. by rewrite in_stream_true.
  - rewrite select_events_perm. unfold visible. rewrite stream_rows_append_same by done.
    rewrite filter_app. f_equiv. apply reflexive_eq. symmetry. apply list_filter_all.
    intros r Hr. apply list_elem_of_fmap in Hr as (e & -> & He).
    rewrite Forall_forall in Hm. specialize (Hm e He). destruct bound as [b|]; [|done].
    simpl in *. lia.
Qed.
End append.
