(* ===== verification/Lifecycle.v ===== *)
(** * The [Lifecycle] adapter

    Models src/crates/event-sorcery/src/lifecycle.rs: the state machine that wraps
    a domain entity and bridges it to the aggregate interface of [cqrs-es], over
    the interface [EventSourced] of src/crates/event-sorcery/src/lib.rs.

    Handlers are [async] only to satisfy the trait: they touch nothing but their
    arguments, and are functions here.  [Entity::initialize]/[transition] return an
    [Effect]; a dispatched job is buffered on the per-command scope, the
    task-local [PENDING_JOBS] of src/crates/event-sorcery/src/job.rs, which is
    [None] outside a command and the list of pushes inside one.  The event sink of
    [cqrs-es] collects the written events and applies each to the scratch
    aggregate; its contents are discarded when [handle] errors, so [handle] here
    returns the events only on success. *)

From S2P Require Import Prelude Json.

(** ** Effects and the pending-job scope *)

(** A 128-bit ULID; its text form belongs to the [ulid] crate. *)
Definition JobId : Type := N.

Class Ulid := {
  ulid_to_string : JobId -> string;
  ulid_from_str : string -> option JobId;
}.
Class UlidLaws `{Ulid} := {
  ulid_from_str_to_string : forall j, ulid_from_str (ulid_to_string j) = Some j;
}.

(** A dispatched job awaiting flush: identity, the erased job's routing kind and
    encoded arguments, and an optional delay in nanoseconds. *)
Record PendingPush : Type := mkPendingPush {
  push_job_id : JobId;
  push_kind : string;
  push_encode : result JsonError Json;
  push_delay : option Z;
}.

Record JobDispatch (Event : Type) : Type := mkJobDispatch {
  dispatch_event : Event;
  dispatch_pending : PendingPush;
}.
Arguments mkJobDispatch {Event}.
Arguments dispatch_event {Event}.
Arguments dispatch_pending {Event}.

Inductive Effect (Event : Type) : Type :=
| Events (events : list Event)
| Dispatch (dispatch : JobDispatch Event).
Arguments Events {Event}.
Arguments Dispatch {Event}.

Inductive DispatchNotBuffered : Type := NotBuffered.

Definition Scope : Type := option (list PendingPush).

Definition buffer (push : PendingPush) (pending : Scope) : result DispatchNotBuffered () * Scope :=
  match pending with
  | Some pushes => (Ok (), Some (pushes ++ [push]))
  | None => (Err NotBuffered, None)
  end.

(** ** The domain interface *)

Class EventSourced (Entity Event Command Error : Type) := {
  originate : Event -> option Entity;
  evolve : Entity -> Event -> result Error (option Entity);
  initialize : Command -> result Error (Effect Event);
  transition : Entity -> Command -> result Error (Effect Event);
}.

(** Whether the events a snapshot covers may be deleted. *)
Inductive CompactionPolicy : Type := Retain | CompactAfterSnapshot.
#[global] Instance CompactionPolicy_eq_dec : EqDecision CompactionPolicy.
Proof. solve_decision. Defined.

(** ** The state machine *)

Inductive LifecycleError (Entity Event Error : Type) : Type :=
| EventCantOriginate (event : Event)
| UnexpectedEvent (entity : Entity) (event : Event)
| AlreadyFailed (failure : LifecycleError Entity Event Error) (event : Event)
| Apply (e : Error)
| LcDispatchNotBuffered (e : DispatchNotBuffered).
Arguments EventCantOriginate {Entity Event Error}.
Arguments UnexpectedEvent {Entity Event Error}.
Arguments AlreadyFailed {Entity Event Error}.
Arguments Apply {Entity Event Error}.
Arguments LcDispatchNotBuffered {Entity Event Error}.

Inductive Lifecycle (Entity Event Error : Type) : Type :=
| Uninitialized
| Live (entity : Entity)
| Failed (error : LifecycleError Entity Event Error) (last_valid_entity : option Entity).
Arguments Uninitialized {Entity Event Error}.
Arguments Live {Entity Event Error}.
Arguments Failed {Entity Event Error}.

#[global] Instance DispatchNotBuffered_eq_dec : EqDecision DispatchNotBuffered.
Proof. solve_decision. Defined.
#[global] Instance LifecycleError_eq_dec {X Y Z} `{EqDecision X, EqDecision Y, EqDecision Z} :
  EqDecision (LifecycleError X Y Z).
Proof. solve_decision. Defined.
#[global] Instance Lifecycle_eq_dec {X Y Z} `{EqDecision X, EqDecision Y, EqDecision Z} :
  EqDecision (Lifecycle X Y Z).
Proof. solve_decision. Defined.

Definition into_result {Entity Event Error} (self : Lifecycle Entity Event Error) :
    result (LifecycleError Entity Event Error) (option Entity) :=
  match self with
  | Live entity => Ok (Some entity)
  | Uninitialized => Ok None
  | Failed error _ => Err error
  end.

Definition failed {Entity Event Error} (self : Lifecycle Entity Event Error) : bool :=
  match self with Failed _ _ => true | _ => false end.

Section lifecycle.
Context {Entity Event Command Error : Type}.
Context `{EventSourced Entity Event Command Error}.

Definition apply (self : Lifecycle Entity Event Error) (event : Event) :
    Lifecycle Entity Event Error :=
  match self with
  | Uninitialized =>
      match originate event with
      | None => Failed (EventCantOriginate event) None
      | Some entity => Live entity
      end
  | Live entity =>
      match evolve entity event with
      | Ok (Some new_entity) => Live new_entity
      | Ok None => Failed (UnexpectedEvent entity event) (Some entity)
      | Err domain_err => Failed (Apply domain_err) (Some entity)
      end
  | Failed error last_valid_entity => Failed (AlreadyFailed error event) last_valid_entity
  end.

(** [View::update] on the payload of an envelope. *)
Definition view_update (self : Lifecycle Entity Event Error) (payload : Event) :
    Lifecycle Entity Event Error := apply self payload.

(** State after replaying [events] on top of [self]: how [cqrs-es] loads an
    aggregate and how a view is updated. *)
Definition replay (self : Lifecycle Entity Event Error) (events : list Event) :
    Lifecycle Entity Event Error :=
  fold_left apply events self.

(** The sink loop of [handle]: write each event, stop at the first one the
    scratch aggregate rejects. *)
Fixpoint write_all (scratch : Lifecycle Entity Event Error) (events : list Event) :
    result (LifecycleError Entity Event Error) () :=
  match events with
  | [] => Ok ()
  | event :: events =>
      let scratch := apply scratch event in
      match scratch with
      | Failed error _ => Err error
      | _ => write_all scratch events
      end
  end.

Definition handle (self : Lifecycle Entity Event Error) (command : Command) (pending : Scope) :
    result (LifecycleError Entity Event Error) (list Event) * Scope :=
  let decision :=
    match self with
    | Uninitialized => map_err Apply (initialize command)
    | Live entity => map_err Apply (transition entity command)
    | Failed error _ => Err error
    end in
  match decision with
  | Err e => (Err e, pending)
  | Ok effect =>
      let buffered :=
        match effect with
        | Events events => (Ok events, pending)
        | Dispatch dispatch =>
            let '(r, pending) := buffer (dispatch_pending dispatch) pending in
            (match r with
             | Ok _ => Ok [dispatch_event dispatch]
             | Err e => Err (LcDispatchNotBuffered e)
             end, pending)
        end in
      match buffered with
      | (Err e, pending) => (Err e, pending)
      | (Ok [], pending) => (Ok [], pending)
      | (Ok events, pending) =>
          match write_all self events with
          | Err e => (Err e, pending)
          | Ok _ => (Ok events, pending)
          end
      end
  end.

(** ** Replay *)

Lemma replay_app self l k : replay self (l ++ k) = replay (replay self l) k.
Proof. apply fold_left_app. Qed.

Lemma replay_failed self l : failed self = true -> failed (replay self l) = true.
Proof.
  revert self. induction l as [|e l IH]; intros self Hs; [done|].
  apply IH. by destruct self.
Qed.

Lemma write_all_Ok self l : failed self = false ->
  write_all self l = Ok () <-> failed (replay self l) = false.
Proof.
  revert self. induction l as [|e l IH]; intros self Hs; simpl; [by rewrite Hs|].
  destruct (apply self e) eqn:Ha; [by apply IH..|].
  split; [done|]. intros Hf. by rewrite replay_failed in Hf.
Qed.

Lemma write_all_Err self l err : failed self = false ->
  write_all self l = Err err ->
  exists pre e post last,
    l = pre ++ e :: post /\ failed (replay self pre) = false /\
    apply (replay self pre) e = Failed err last.
Proof.
  revert self. induction l as [|e l IH]; intros self Hs; simpl; [done|].
  destruct (apply self e) as [|entity|err' last] eqn:Ha.
  1,2: intros Hw; apply IH in Hw as (pre & e' & post & last & -> & Hf & Hl); [|done];
    exists (e :: pre), e', post, last; unfold replay in *; simpl; rewrite Ha; auto.
  intros [= ->]. by exists [], e, l, last.
Qed.

(** ** Commands never commit events their entity cannot replay *)

Lemma handle_accepts self command pending events pending' :
  handle self command pending = (Ok events, pending') ->
  failed (replay self events) = false.
Proof.
  unfold handle. destruct self as [|entity|e last]; simpl; [| |done].
  all: destruct (map_err _ _) as [[evs|d]|]; [..|done].
  2,4: destruct (buffer _ _) as [[?|?] ?].
  all: try done; try destruct evs as [|x evs]; try (by intros [= <- <-]).
  all: destruct (write_all _ _) as [[]|] eqn:Hw; intros [= <- <-];
    by apply write_all_Ok in Hw.
Qed.

(** C19: whatever a command handler returns, the events [handle] lets through to
    the store replay, from the state the command was handled in, to a lifecycle
    that has not failed: a command cannot poison its aggregate. *)
Theorem handle_events_replay self command pending events pending' :
  handle self command pending = (Ok events, pending') ->
  failed (replay self events) = false.
Proof. apply handle_accepts. Qed.

(** The handler's verdict on a command, before the framework enacts it. *)
Definition decide_command (self : Lifecycle Entity Event Error) (command : Command) :
    result (LifecycleError Entity Event Error) (Effect Event) :=
  match self with
  | Uninitialized => map_err Apply (initialize command)
  | Live entity => map_err Apply (transition entity command)
  | Failed error _ => Err error
  end.

(** Events and the job enqueue travel together.  When a command succeeds,
    either the handler returned plain events and the pending-job buffer is
    untouched, or it returned one dispatch, its [Dispatched] event is the only
    event and exactly its push was buffered, on an active command scope. *)
Theorem handle_effect self command pending events pending' :
  handle self command pending = (Ok events, pending') ->
  (decide_command self command = Ok (Events events) /\ pending' = pending) \/
  (exists d pushes, decide_command self command = Ok (Dispatch d) /\
     events = [dispatch_event d] /\ pending = Some pushes /\
     pending' = Some (pushes ++ [dispatch_pending d])).
Proof.
  unfold handle, decide_command.
  destruct (match self with Uninitialized => _ | _ => _ end) as [[evs|d]|]; [..|done].
  - destruct evs as [|x evs]; [naive_solver|]. destruct (write_all _ _); naive_solver.
  - destruct pending as [pushes|]; simpl; [|done].
    destruct (match apply self _ with Failed _ _ => _ | _ => _ end); naive_solver.
Qed.

(** A failing command reports its root cause: the stored error of a failed
    lifecycle, the handler's domain error, a dispatch outside a command scope,
    or the error of the first event its own entity rejects, with everything
    before that event applied cleanly. *)
Theorem handle_error self command pending err pending' :
  handle self command pending = (Err err, pending') ->
  decide_command self command = Err err \/
  (err = LcDispatchNotBuffered NotBuffered /\ pending = None) \/
  (exists pre e last, failed (replay self pre) = false /\
     apply (replay self pre) e = Failed err last /\
     ((exists post, decide_command self command = Ok (Events (pre ++ e :: post))) \/
      (exists d, decide_command self command = Ok (Dispatch d) /\ dispatch_event d = e /\ pre = []))).
Proof.
  assert (forall x, decide_command self command = Ok x -> failed self = false) as Hlive
    by (by destruct self).
  unfold handle. fold (decide_command self command).
  destruct (decide_command self command) as [[evs|d]|] eqn:Hd.
  - specialize (Hlive _ eq_refl). destruct evs as [|x evs]; [done|].
    destruct (write_all self (x :: evs)) eqn:Hw; [done|]. intros [= -> ->].
    apply write_all_Err in Hw as (pre & e & post & last & -> & ? & ?); [|done].
    right; right. exists pre, e, last. eauto.
  - specialize (Hlive _ eq_refl). destruct pending as [pushes|]; simpl; [|naive_solver].
    destruct (apply self (dispatch_event d)) as [|?|e last] eqn:Ha; [done..|].
    intros [= -> <-]. right; right. exists [], (dispatch_event d), last. naive_solver.
  - intros [= -> ->]. by left.
Qed.
End lifecycle.

Arguments handle : simpl never.

(** ** Serialized form

    The derived [Serialize]/[Deserialize] of [Lifecycle] and [LifecycleError],
    over those of the entity, its events and its error. *)

Section serde.
Context {Entity Event Error : Type} `{Serde Entity, Serde Event, Serde Error}.

Fixpoint lifecycle_error_to_json (e : LifecycleError Entity Event Error) : Json :=
  match e with
  | EventCantOriginate event => JObject [("EventCantOriginate", JObject [("event", ser event)])]
  | UnexpectedEvent entity event =>
      JObject [("UnexpectedEvent", JObject [("entity", ser entity); ("event", ser event)])]
  | AlreadyFailed failure event =>
      JObject [("AlreadyFailed",
                JObject [("failure", lifecycle_error_to_json failure); ("event", ser event)])]
  | Apply e => JObject [("Apply", ser e)]
  | LcDispatchNotBuffered _ => JObject [("DispatchNotBuffered", JNull)]
  end.

Definition lifecycle_to_json (self : Lifecycle Entity Event Error) : Json :=
  match self with
  | Uninitialized => JString "Uninitialized"
  | Live entity => JObject [("Live", ser entity)]
  | Failed error last_valid_entity =>
      JObject [("Failed", JObject [("error", lifecycle_error_to_json error);
                                   ("last_valid_entity", default JNull (ser <$> last_valid_entity))])]
  end.

(** [fuel] bounds the nesting of [AlreadyFailed]; the depth of the document is
    enough. *)
Fixpoint lifecycle_error_of_json (fuel : nat) (j : Json) :
    option (LifecycleError Entity Event Error) :=
  match fuel with
  | 0 => None
  | S fuel =>
      '(v, content) ← enum_of j;
      if String.eqb v "EventCantOriginate" then
        fs ← content ≫= struct_of ["event"];
        match fs with [event] => EventCantOriginate <$> de event | _ => None end
      else if String.eqb v "UnexpectedEvent" then
        fs ← content ≫= struct_of ["entity"; "event"];
        match fs with
        | [entity; event] => entity ← de entity; event ← de event;
                             Some (UnexpectedEvent entity event)
        | _ => None
        end
      else if String.eqb v "AlreadyFailed" then
        fs ← content ≫= struct_of ["failure"; "event"];
        match fs with
        | [failure; event] => failure ← lifecycle_error_of_json fuel failure; event ← de event;
                              Some (AlreadyFailed failure event)
        | _ => None
        end
      else if String.eqb v "Apply" then Apply <$> (content ≫= de)
      else if String.eqb v "DispatchNotBuffered" then
        match content with Some JNull => Some (LcDispatchNotBuffered NotBuffered) | _ => None end
      else None
  end.

(** [Option<Box<Entity>>]: a missing field and [null] are [None]. *)
Definition option_field (k : string) (kvs : list (string * Json)) : option (option Entity) :=
  match filter (fun kv => kv.1 = k) kvs with
  | [] | [(_, JNull)] => Some None
  | [(_, v)] => Some <$> de v
  | _ => None
  end.

Definition lifecycle_of_json (j : Json) : option (Lifecycle Entity Event Error) :=
  '(v, content) ← enum_of j;
  if String.eqb v "Uninitialized" then
    if unit_variant content then Some Uninitialized else None
  else if String.eqb v "Live" then Live <$> (content ≫= de)
  else if String.eqb v "Failed" then
    match content with
    | Some (JObject kvs) =>
        error ← field "error" kvs ≫= lifecycle_error_of_json (S (depth j));
        last ← option_field "last_valid_entity" kvs;
        Some (Failed error last)
    | Some (JArray [error; last]) =>
        error ← lifecycle_error_of_json (S (depth j)) error;
        match last with
        | JNull => Some (Failed error None)
        | last => Failed error <$> (Some <$> de last)
        end
    | _ => None
    end
  else None.

#[global] Instance lifecycle_serde : Serde (Lifecycle Entity Event Error) := {|
  ser := lifecycle_to_json;
  de := lifecycle_of_json;
|}.

(** *** Round trip *)

Context (Pn : Entity -> Prop) (Pv : Event -> Prop) (Pr : Error -> Prop).

Fixpoint lifecycle_error_ok (e : LifecycleError Entity Event Error) : Prop :=
  match e with
  | EventCantOriginate event => Pv event
  | UnexpectedEvent entity event => Pn entity /\ Pv event
  | AlreadyFailed failure event => lifecycle_error_ok failure /\ Pv event
  | Apply e => Pr e
  | LcDispatchNotBuffered _ => True
  end.

Definition lifecycle_ok (self : Lifecycle Entity Event Error) : Prop :=
  match self with
  | Uninitialized => True
  | Live entity => Pn entity
  | Failed error last =>
      lifecycle_error_ok error /\
      match last with None => True | Some e => Pn e /\ ser e <> JNull end
  end.

Context `{!SerdeLaws Entity Pn, !SerdeLaws Event Pv, !SerdeLaws Error Pr}.

Lemma lifecycle_error_round_trip fuel e :
  lifecycle_error_ok e -> depth (lifecycle_error_to_json e) <= fuel ->
  lifecycle_error_of_json (S fuel) (lifecycle_error_to_json e) = Some e.
Proof.
  revert fuel. induction e as [ev|en ev|f IH ev|e|[]]; intros fuel Hok Hd; simpl in Hok.
  - simpl. by rewrite (de_ser (P := Pv)).
  - destruct Hok. simpl. by rewrite (de_ser (P := Pn)), (de_ser (P := Pv)).
  - destruct Hok as [Hf Hev]. cbn [depth lifecycle_error_to_json map snd fst max_list] in Hd.
    destruct fuel as [|fuel]; [simpl in Hd; lia|].
    remember (S fuel) as n eqn:Hn. simpl. subst n.
    rewrite IH; [|done|simpl in Hd; lia]. simpl. by rewrite (de_ser (P := Pv)).
  - simpl. by rewrite (de_ser (P := Pr)).
  - done.
Qed.

#[global] Instance lifecycle_serde_laws :
  SerdeLaws (Lifecycle Entity Event Error) lifecycle_ok.
Proof.
  intros [|entity|error last] Hok; simpl in *.
  - done.
  - unfold lifecycle_of_json. simpl. by rewrite (de_ser (P := Pn)).
  - destruct Hok as [He Hl].
    unfold lifecycle_of_json, enum_of. cbn [mbind option_bind].
    cbn [String.eqb Ascii.eqb Bool.eqb].
    change (field "error" _) with (Some (lifecycle_error_to_json error)).
    cbn [mbind option_bind]. rewrite lifecycle_error_round_trip; [|done|simpl; lia].
    cbn [mbind option_bind].
    destruct last as [e|]; simpl; [|done].
    destruct Hl as [He' Hn]. unfold option_field.
    change (filter _ _) with [("last_valid_entity", ser e)].
    assert (de (ser e) = Some e) as Hde by by apply (de_ser (P := Pn)).
    destruct (ser e) eqn:Hs; [done|..]; simpl; by rewrite Hde.
Qed.
End serde.
