(* ===== verification/Schema.v ===== *)
(** * The schema registry aggregate

    Models src/crates/event-sorcery/src/schema_registry.rs up to its [Reconciler]:
    the event-sourced aggregate that remembers the last schema version of each
    aggregate type, its serialized events, and the errors of reconciliation.  The
    operations on the database are in SchemaRecovery.v. *)

From S2P Require Import Prelude Json Sqlite EventTable Lifecycle.

Definition REGISTRY_ID : string := "schema".
Definition REGISTRY_TYPE : string := "SchemaRegistry".

Record SchemaTarget : Type := mkSchemaTarget {
  target_aggregate_type : string;
  target_version : Z;
  target_compaction : CompactionPolicy;
}.

(** [BTreeMap<String, u64>]. *)
Record SchemaRegistry : Type := mkSchemaRegistry {
  versions : gmap string Z;
}.

Definition version_of (self : SchemaRegistry) (name : string) : option Z := versions self !! name.

Inductive SchemaRegistryEvent : Type := VersionUpdated (name : string) (version : Z).
Inductive SchemaRegistryCommand : Type := Register (name : string) (version : Z).

(** The uninhabited error type of an aggregate that never refuses. *)
Inductive Never : Type := .

#[global] Instance SchemaRegistry_eq_dec : EqDecision SchemaRegistry.
Proof. solve_decision. Defined.
#[global] Instance SchemaRegistryEvent_eq_dec : EqDecision SchemaRegistryEvent.
Proof. solve_decision. Defined.
#[global] Instance Never_eq_dec : EqDecision Never.
Proof. solve_decision. Defined.

Definition registry_event_type (e : SchemaRegistryEvent) : string :=
  "SchemaRegistryEvent::VersionUpdated".
Definition registry_event_version (e : SchemaRegistryEvent) : string := "1.0".

Definition registry_originate (event : SchemaRegistryEvent) : option SchemaRegistry :=
  let '(VersionUpdated name version) := event in
  Some (mkSchemaRegistry (<[name := version]> ∅)).

Definition registry_evolve (entity : SchemaRegistry) (event : SchemaRegistryEvent) :
    result Never (option SchemaRegistry) :=
  let '(VersionUpdated name version) := event in
  Ok (Some (mkSchemaRegistry (<[name := version]> (versions entity)))).

Definition registry_initialize (command : SchemaRegistryCommand) :
    result Never (Effect SchemaRegistryEvent) :=
  let '(Register name version) := command in
  Ok (Events [VersionUpdated name version]).

Definition registry_transition (self : SchemaRegistry) (command : SchemaRegistryCommand) :
    result Never (Effect SchemaRegistryEvent) :=
  let '(Register name version) := command in
  if bool_decide (version_of self name = Some version) then Ok (Events [])
  else Ok (Events [VersionUpdated name version]).

#[export] Instance SchemaRegistry_event_sourced :
  EventSourced SchemaRegistry SchemaRegistryEvent SchemaRegistryCommand Never := {|
  originate := registry_originate;
  evolve := registry_evolve;
  initialize := registry_initialize;
  transition := registry_transition;
|}.

(** The derived serialization of an event. *)
Definition registry_event_to_json (e : SchemaRegistryEvent) : Json :=
  let '(VersionUpdated name version) := e in
  JObject [("VersionUpdated", JObject [("name", JString name); ("version", JInt version)])].

Definition registry_event_of_json (j : Json) : option SchemaRegistryEvent :=
  '(v, content) ← enum_of j;
  if String.eqb v "VersionUpdated" then
    fs ← content ≫= struct_of ["name"; "version"];
    match fs with
    | [name; version] => name ← as_string name; version ← as_int in_u64 version;
                         Some (VersionUpdated name version)
    | _ => None
    end
  else None.

#[export] Instance registry_event_serde : Serde SchemaRegistryEvent := {|
  ser := registry_event_to_json; de := registry_event_of_json |}.

Definition registry_event_ok (e : SchemaRegistryEvent) : Prop :=
  let '(VersionUpdated _ version) := e in in_u64 version = true.

#[export] Instance registry_event_serde_laws : SerdeLaws SchemaRegistryEvent registry_event_ok.
Proof. intros [name version] Hok. cbv -[in_u64]. simpl in Hok. by rewrite Hok. Qed.

Inductive SchemaReconciliation : Type := Changed | Unchanged.

Abbreviation RegistryLifecycle := (Lifecycle SchemaRegistry SchemaRegistryEvent Never).
Abbreviation RegistryError := (AggregateError (LifecycleError SchemaRegistry SchemaRegistryEvent Never)).

Inductive ReconcileError : Type :=
| ReSqlx (e : SqlxError)
| ReJson (e : JsonError)
| ReAggregate (e : RegistryError)
| RePersistence (e : PersistenceError)
| CompactedSnapshotClear (aggregate : string) (old_version : option Z) (new_version : Z).
#[global] Instance ReconcileError_eq_dec : EqDecision ReconcileError.
Proof. solve_decision. Defined.

(** ** Replaying the registry *)

(** What a log says of one aggregate type: the last version it records. *)
Definition last_version (name : string) (events : list SchemaRegistryEvent) : option Z :=
  fold_left (fun o '(VersionUpdated n v) => if String.eqb n name then Some v else o) events None.

(** The version a state holds for an aggregate type; nothing before the first event. *)
Definition recorded (self : RegistryLifecycle) (name : string) : option Z :=
  match self with Live registry => version_of registry name | _ => None end.

Lemma recorded_replay_from self events name :
  failed self = false ->
  failed (replay self events) = false /\
  recorded (replay self events) name =
    fold_left (fun o '(VersionUpdated n v) => if String.eqb n name then Some v else o) events
      (recorded self name).
Proof.
  revert self. induction events as [|[n v] events IH]; intros self Hs; [done|].
  change (replay self (VersionUpdated n v :: events))
    with (replay (apply self (VersionUpdated n v)) events).
  destruct (IH (apply self (VersionUpdated n v))) as [? ->]; [by destruct self|].
  split; [done|]. simpl. f_equal.
  destruct self as [|[vs]|]; [| |done]; simpl; unfold version_of; simpl;
    destruct (String.eqb_spec n name) as [->|?]; by rewrite ?lookup_insert_eq, ?lookup_insert_ne.
Qed.

(** Replaying the registry's log gives the last recorded version of every type. *)
Lemma recorded_replay events name :
  recorded (replay Uninitialized events) name = last_version name events.
Proof. by apply recorded_replay_from. Qed.

Lemma last_version_app name events n v :
  last_version name (events ++ [VersionUpdated n v]) =
    if String.eqb n name then Some v else last_version name events.
Proof. unfold last_version. by rewrite fold_left_app. Qed.

(** Handling [Register] writes one event, or none when the version is recorded. *)
Lemma handle_register self name version pending :
  failed self = false ->
  handle self (Register name version) pending =
    (Ok (if bool_decide (recorded self name = Some version) then [] else [VersionUpdated name version]),
     pending).
Proof.
  destruct self as [|registry|]; intros Hs; [done| |done]. unfold handle. simpl.
  unfold registry_transition. by case_bool_decide.
Qed.
