(* ===== verification/Job.v ===== *)
(** * The durable job aggregate

    Models src/crates/event-sorcery/src/job.rs and the claim types of
    src/crates/event-sorcery/src/job_store.rs: the job events, states and
    commands, the fold ([originate]/[evolve]), the fenced settlement command
    ([transition]), the claim planner ([plan_claim]/[plan_abandon]), the enqueue
    payloads, the per-command pending buffer, and the JSON form in which states
    and events are stored.

    Instants are [DateTime<Utc>] values at the millisecond precision in which they
    are stored.  [chrono]'s representable range is the parameter [Chrono]; fresh
    claim ids (ULIDs) and the clock are arguments. *)

From S2P Require Import Prelude Json Sqlite Lifecycle.

(** [DateTime::from_timestamp_millis] is defined exactly on the representable
    instants, which are 64-bit. *)
Class Chrono := { representable : Z -> bool }.
Class ChronoLaws `{Chrono} := {
  representable_i64 : forall ms, representable ms = true -> in_i64 ms = true;
}.

Definition from_timestamp_millis `{Chrono} (ms : Z) : option Z :=
  if representable ms then Some ms else None.

(** ** Data *)

Inductive DeadReason : Type := RetriesExhausted | Rejected | Undecodable | Abandoned.

Inductive JobEvent : Type :=
| Enqueued (kind : string) (payload : Json) (run_at : Z)
| ClaimedEv (worker claim_id : string) (lease_until : Z)
| Succeeded
| RetryScheduled (run_at attempt : Z) (error : string)
| Rescheduled (run_at : Z)
| DeadEv (reason : DeadReason) (error : string).

Inductive JobState : Type :=
| Pending (kind : string) (payload : Json) (run_at attempt claims : Z)
| Claimed (kind : string) (payload : Json) (worker claim_id : string) (run_at attempt claims : Z)
| Done
| Dead (reason : DeadReason).

Inductive JobCommand : Type :=
| Succeed (claim_id : string)
| RetrySchedule (claim_id : string) (run_at attempt : Z) (error : string)
| Reschedule (claim_id : string) (run_at : Z)
| Kill (claim_id : string) (reason : DeadReason) (error : string).

Inductive JobError : Type := Fenced.

#[global] Instance DeadReason_eq_dec : EqDecision DeadReason.
Proof. solve_decision. Defined.
#[global] Instance JobEvent_eq_dec : EqDecision JobEvent.
Proof. solve_decision. Defined.
#[global] Instance JobState_eq_dec : EqDecision JobState.
Proof. solve_decision. Defined.
#[global] Instance JobError_eq_dec : EqDecision JobError.
Proof. solve_decision. Defined.

Definition command_claim_id (c : JobCommand) : string :=
  match c with
  | Succeed claim_id | RetrySchedule claim_id _ _ _
  | Reschedule claim_id _ | Kill claim_id _ _ => claim_id
  end.

(** ** The fold and the settlement command *)

Definition job_originate (event : JobEvent) : option JobState :=
  match event with
  | Enqueued kind payload run_at => Some (Pending kind payload run_at 0 0)
  | _ => None
  end.

Definition job_evolve (entity : JobState) (event : JobEvent) : result JobError (option JobState) :=
  match entity, event with
  | (Pending kind payload run_at attempt claims
    | Claimed kind payload _ _ run_at attempt claims), ClaimedEv worker claim_id _ =>
      Ok (Some (Claimed kind payload worker claim_id run_at attempt (u32_add claims 1)))
  | Claimed _ _ _ _ _ _ _, Succeeded => Ok (Some Done)
  | Claimed kind payload _ _ _ _ claims, RetryScheduled run_at attempt _ =>
      Ok (Some (Pending kind payload run_at attempt claims))
  | Claimed kind payload _ _ _ attempt _, Rescheduled run_at =>
      Ok (Some (Pending kind payload run_at attempt 0))
  | (Pending _ _ _ _ _ | Claimed _ _ _ _ _ _ _), DeadEv reason _ => Ok (Some (Dead reason))
  | _, _ => Ok None
  end.

(** A job is born from the enqueue flush, never from a command. *)
Definition job_initialize (_ : JobCommand) : result JobError (Effect JobEvent) := Ok (Events []).

Definition job_transition (self : JobState) (command : JobCommand) :
    result JobError (Effect JobEvent) :=
  match self with
  | Claimed _ _ _ held _ _ _ =>
      if String.eqb held (command_claim_id command) then
        Ok (Events [match command with
                    | Succeed _ => Succeeded
                    | RetrySchedule _ run_at attempt error => RetryScheduled run_at attempt error
                    | Reschedule _ run_at => Rescheduled run_at
                    | Kill _ reason error => DeadEv reason error
                    end])
      else Err Fenced
  | _ => Err Fenced
  end.

#[global] Instance job_event_sourced : EventSourced JobState JobEvent JobCommand JobError := {|
  originate := job_originate;
  evolve := job_evolve;
  initialize := job_initialize;
  transition := job_transition;
|}.

Abbreviation JobLifecycle := (Lifecycle JobState JobEvent JobError).

(** ** Serialized form *)

Definition dead_reason_to_json (r : DeadReason) : Json :=
  JString match r with
          | RetriesExhausted => "RetriesExhausted"
          | Rejected => "Rejected"
          | Undecodable => "Undecodable"
          | Abandoned => "Abandoned"
          end.

Definition tagged (variant : string) (fields : list (string * Json)) : Json :=
  JObject [(variant, JObject fields)].

Definition job_event_to_json (e : JobEvent) : Json :=
  match e with
  | Enqueued kind payload run_at =>
      tagged "Enqueued" [("kind", JString kind); ("payload", payload); ("run_at", JInt run_at)]
  | ClaimedEv worker claim_id lease_until =>
      tagged "Claimed" [("worker", JString worker); ("claim_id", JString claim_id);
                        ("lease_until", JInt lease_until)]
  | Succeeded => JString "Succeeded"
  | RetryScheduled run_at attempt error =>
      tagged "RetryScheduled" [("run_at", JInt run_at); ("attempt", JInt attempt);
                               ("error", JString error)]
  | Rescheduled run_at => tagged "Rescheduled" [("run_at", JInt run_at)]
  | DeadEv reason error =>
      tagged "Dead" [("reason", dead_reason_to_json reason); ("error", JString error)]
  end.

Definition job_state_to_json (s : JobState) : Json :=
  match s with
  | Pending kind payload run_at attempt claims =>
      tagged "Pending" [("kind", JString kind); ("payload", payload); ("run_at", JInt run_at);
                        ("attempt", JInt attempt); ("claims", JInt claims)]
  | Claimed kind payload worker claim_id run_at attempt claims =>
      tagged "Claimed" [("kind", JString kind); ("payload", payload); ("worker", JString worker);
                        ("claim_id", JString claim_id); ("run_at", JInt run_at);
                        ("attempt", JInt attempt); ("claims", JInt claims)]
  | Done => JString "Done"
  | Dead reason => tagged "Dead" [("reason", dead_reason_to_json reason)]
  end.

Section decode.
Context `{Chrono}.

Definition dead_reason_of_json (j : Json) : option DeadReason :=
  '(v, content) ← enum_of j;
  guard (unit_variant content = true);;
  if String.eqb v "RetriesExhausted" then Some RetriesExhausted
  else if String.eqb v "Rejected" then Some Rejected
  else if String.eqb v "Undecodable" then Some Undecodable
  else if String.eqb v "Abandoned" then Some Abandoned
  else None.

Definition instant (j : Json) : option Z := as_int representable j.

Definition job_event_of_json (j : Json) : option JobEvent :=
  '(v, content) ← enum_of j;
  if String.eqb v "Enqueued" then
    fs ← content ≫= struct_of ["kind"; "payload"; "run_at"];
    match fs with
    | [kind; payload; run_at] =>
        kind ← as_string kind; run_at ← instant run_at;
        Some (Enqueued kind (canon payload) run_at)
    | _ => None
    end
  else if String.eqb v "Claimed" then
    fs ← content ≫= struct_of ["worker"; "claim_id"; "lease_until"];
    match fs with
    | [worker; claim_id; lease_until] =>
        worker ← as_string worker; claim_id ← as_string claim_id;
        lease_until ← instant lease_until;
        Some (ClaimedEv worker claim_id lease_until)
    | _ => None
    end
  else if String.eqb v "Succeeded" then
    if unit_variant content then Some Succeeded else None
  else if String.eqb v "RetryScheduled" then
    fs ← content ≫= struct_of ["run_at"; "attempt"; "error"];
    match fs with
    | [run_at; attempt; error] =>
        run_at ← instant run_at; attempt ← as_int in_u32 attempt; error ← as_string error;
        Some (RetryScheduled run_at attempt error)
    | _ => None
    end
  else if String.eqb v "Rescheduled" then
    fs ← content ≫= struct_of ["run_at"];
    match fs with
    | [run_at] => run_at ← instant run_at; Some (Rescheduled run_at)
    | _ => None
    end
  else if String.eqb v "Dead" then
    fs ← content ≫= struct_of ["reason"; "error"];
    match fs with
    | [reason; error] =>
        reason ← dead_reason_of_json reason; error ← as_string error;
        Some (DeadEv reason error)
    | _ => None
    end
  else None.

Definition job_state_of_json (j : Json) : option JobState :=
  '(v, content) ← enum_of j;
  if String.eqb v "Pending" then
    fs ← content ≫= struct_of ["kind"; "payload"; "run_at"; "attempt"; "claims"];
    match fs with
    | [kind; payload; run_at; attempt; claims] =>
        kind ← as_string kind; run_at ← instant run_at;
        attempt ← as_int in_u32 attempt; claims ← as_int in_u32 claims;
        Some (Pending kind (canon payload) run_at attempt claims)
    | _ => None
    end
  else if String.eqb v "Claimed" then
    fs ← content ≫=
      struct_of ["kind"; "payload"; "worker"; "claim_id"; "run_at"; "attempt"; "claims"];
    match fs with
    | [kind; payload; worker; claim_id; run_at; attempt; claims] =>
        kind ← as_string kind; worker ← as_string worker; claim_id ← as_string claim_id;
        run_at ← instant run_at;
        attempt ← as_int in_u32 attempt; claims ← as_int in_u32 claims;
        Some (Claimed kind (canon payload) worker claim_id run_at attempt claims)
    | _ => None
    end
  else if String.eqb v "Done" then
    if unit_variant content then Some Done else None
  else if String.eqb v "Dead" then
    fs ← content ≫= struct_of ["reason"];
    match fs with
    | [reason] => reason ← dead_reason_of_json reason; Some (Dead reason)
    | _ => None
    end
  else None.
End decode.

#[global] Instance job_event_serde `{Chrono} : Serde JobEvent := {|
  ser := job_event_to_json; de := job_event_of_json |}.
#[global] Instance job_state_serde `{Chrono} : Serde JobState := {|
  ser := job_state_to_json; de := job_state_of_json |}.
#[global] Instance job_error_serde : Serde JobError := {|
  ser _ := JString "Fenced";
  de j := '(v, content) ← enum_of j;
          if String.eqb v "Fenced" && unit_variant content then Some Fenced else None |}.

(** The values the Rust types can hold: instants [chrono] represents, 32-bit
    counters, and a payload that is a [serde_json::Value]. *)
Definition event_ok `{Chrono} (e : JobEvent) : Prop :=
  match e with
  | Enqueued _ payload run_at => is_value payload = true /\ representable run_at = true
  | ClaimedEv _ _ lease_until => representable lease_until = true
  | Succeeded => True
  | RetryScheduled run_at attempt _ => representable run_at = true /\ in_u32 attempt = true
  | Rescheduled run_at => representable run_at = true
  | DeadEv _ _ => True
  end.

Definition state_ok `{Chrono} (s : JobState) : Prop :=
  match s with
  | Pending _ payload run_at attempt claims | Claimed _ payload _ _ run_at attempt claims =>
      is_value payload = true /\ representable run_at = true /\
      in_u32 attempt = true /\ in_u32 claims = true
  | Done | Dead _ => True
  end.

Section serde.
Context `{Chrono}.

Local Ltac decode :=
  repeat match goal with
  | H : is_value _ = true |- _ => apply bool_decide_eq_true in H
  | H : _ /\ _ |- _ => destruct H
  end;
  lazy -[representable in_u32 canon];
  repeat match goal with H : _ = _ |- _ => rewrite H; clear H end; try done.

#[global] Instance job_event_serde_laws : SerdeLaws JobEvent event_ok.
Proof.
  intros [kind payload run_at|worker cid lease| |run_at attempt error|run_at|[] error] Hok;
    simpl in Hok; decode.
Qed.

#[global] Instance job_state_serde_laws : SerdeLaws JobState state_ok.
Proof.
  intros [kind payload run_at attempt claims|kind payload w c run_at attempt claims| |[]] Hok;
    simpl in Hok; decode.
Qed.

#[global] Instance job_error_serde_laws : SerdeLaws JobError (fun _ => True).
Proof. by intros []. Qed.

Definition job_lifecycle_ok : JobLifecycle -> Prop := lifecycle_ok state_ok event_ok (fun _ => True).
End serde.

(** ** Claim types (job_store.rs) *)

Record ClaimRead : Type := mkClaimRead {
  read_version : Z;
  read_payload : string;
  read_lease_until_ms : option Z;
}.

Inductive ClaimDecision (Won : Type) : Type :=
| DecideClaim (event : SerializedEvent) (payload : string) (lease_until_ms : Z) (won : Won)
| DecideAbandon (event : SerializedEvent) (payload : string)
| DecideSkip.
Arguments DecideClaim {Won}.
Arguments DecideAbandon {Won}.
Arguments DecideSkip {Won}.

Inductive ClaimOutcome (Won : Type) : Type :=
| OutcomeWon (won : Won)
| OutcomeAbandoned
| OutcomeContended
| OutcomeSkip.
Arguments OutcomeWon {Won}.
Arguments OutcomeAbandoned {Won}.
Arguments OutcomeContended {Won}.
Arguments OutcomeSkip {Won}.

Inductive LeaseRenewal : Type := LeaseHeld | LeaseLost.

Record WonClaim : Type := mkWonClaim {
  won_claim_seq : Z;
  won_claim_id : string;
  won_attempt : Z;
  won_args : Json;
}.

Record EnqueueRequest : Type := mkEnqueueRequest {
  req_job_id : JobId;
  req_kind : string;
  req_payload : Json;
  req_run_at_ms : Z;
}.

Inductive JobStoreError : Type :=
| Encode (e : JsonError)
| DelayOverflow
| InvalidInstant (ms : Z).
#[global] Instance JobStoreError_eq_dec : EqDecision JobStoreError.
Proof. solve_decision. Defined.

(** ** Serialized events *)

Definition JOB_AGGREGATE_TYPE : string := "job".
Definition JOB_EVENT_VERSION : string := "1.0".

Definition type_name (e : JobEvent) : string :=
  match e with
  | Enqueued _ _ _ => "JobEnqueued"
  | ClaimedEv _ _ _ => "JobClaimed"
  | Succeeded => "JobSucceeded"
  | RetryScheduled _ _ _ => "JobRetryScheduled"
  | Rescheduled _ => "JobRescheduled"
  | DeadEv _ _ => "JobDead"
  end.

(** Encoding a job event never fails: it is strings, integers and a [Value]. *)
Definition serialized `{Chrono} (self : JobEvent) (job_id : string) (sequence : Z) :
    SerializedEvent :=
  mkSerializedEvent JOB_AGGREGATE_TYPE job_id sequence (type_name self) JOB_EVENT_VERSION
    (canon (ser self)) (JObject []).

Section plan.
Context `{SerdeJson, Chrono, Ulid}.

Definition lifecycle_text (l : JobLifecycle) : string := to_string (ser l).

(** [serde_json::from_str::<Lifecycle<JobState>>]. *)
Definition lifecycle_from_text (s : string) : option JobLifecycle := from_str s ≫= de.

Definition instant_from_millis (millis : Z) : result JobStoreError Z :=
  ok_or (InvalidInstant millis) (from_timestamp_millis millis).

Definition plan_abandon {Won} (job_id : string) (claim_seq_usize : Z) : ClaimDecision Won :=
  DecideAbandon (serialized (DeadEv Abandoned "claim budget exhausted") job_id claim_seq_usize)
    (lifecycle_text (Live (Dead Abandoned))).

(** Whether a state may be claimed at [now_ms], given the lease column of its
    projection row. *)
Definition runnable (state : JobState) (lease_until_ms : option Z) (now_ms : Z) : bool :=
  match state with
  | Pending _ _ run_at _ _ => (run_at <=? now_ms)%Z
  | Claimed _ _ _ _ _ _ _ =>
      match lease_until_ms with None => true | Some lease => (lease <? now_ms)%Z end
  | Done | Dead _ => false
  end.

(** [fresh] is the [ClaimId::new()] this call mints. *)
Definition plan_claim (job_id : string) (read : option ClaimRead) (worker : string)
    (now_ms lease_ms max_claims : Z) (fresh : string) : ClaimDecision WonClaim :=
  match read with
  | None => DecideSkip
  | Some read =>
      match lifecycle_from_text (read_payload read) with
      | Some (Live state) =>
          if negb (runnable state (read_lease_until_ms read) now_ms) then DecideSkip
          else
            match state with
            | Pending kind payload run_at attempt claims
            | Claimed kind payload _ _ run_at attempt claims =>
                let claim_seq := i64_add (read_version read) 1 in
                match usize_try_from claim_seq with
                | Err _ => DecideSkip
                | Ok claim_seq_usize =>
                    if (max_claims <=? claims)%Z then plan_abandon job_id claim_seq_usize
                    else
                      match i64_checked_add now_ms lease_ms with
                      | None => DecideSkip
                      | Some lease_until_ms =>
                          match instant_from_millis lease_until_ms with
                          | Err _ => DecideSkip
                          | Ok lease_until =>
                              let claimed := ClaimedEv worker fresh lease_until in
                              let new_state :=
                                Claimed kind payload worker fresh run_at attempt
                                  (u32_add claims 1) in
                              DecideClaim (serialized claimed job_id claim_seq_usize)
                                (lifecycle_text (Live new_state)) lease_until_ms
                                (mkWonClaim claim_seq fresh attempt payload)
                          end
                      end
                end
            | Done | Dead _ => DecideSkip
            end
      | _ => DecideSkip
      end
  end.

Definition enqueued_event (request : EnqueueRequest) : result JobStoreError SerializedEvent :=
  run_at ← instant_from_millis (req_run_at_ms request);
  mret (serialized (Enqueued (req_kind request) (req_payload request) run_at)
          (ulid_to_string (req_job_id request)) 1).

Definition pending_seed_payload (request : EnqueueRequest) : result JobStoreError string :=
  run_at ← instant_from_millis (req_run_at_ms request);
  mret (lifecycle_text (Live (Pending (req_kind request) (req_payload request) run_at 0 0))).
End plan.

Arguments plan_claim : simpl never.

(** ** The per-command buffer *)

Record PreparedPendingJobs : Type := mkPrepared {
  prepared_requests : list EnqueueRequest;
  prepared_count : option nat;
}.

(** The run instant, in milliseconds, of a push observed at [now] (nanoseconds).
    [None] is the panic of [DateTime + TimeDelta] outside [chrono]'s range;
    [max_delay] is the longest delay [chrono::Duration::from_std] accepts. *)
Definition resolve_run_at_ms `{Chrono} (max_delay now : Z) (delay : option Z) :
    option (result JobStoreError Z) :=
  match delay with
  | None => Some (Ok (now / 1000000)%Z)
  | Some delay =>
      if (max_delay <? delay)%Z then Some (Err DelayOverflow)
      else let ms := ((now + delay) / 1000000)%Z in
           if representable ms then Some (Ok ms) else None
  end.

(** One request per push, the first error first; [clock i] is the instant the
    [i]-th push observes. *)
Fixpoint prepare_requests `{Chrono} (max_delay : Z) (clock : nat -> Z) (i : nat)
    (pushes : list PendingPush) : option (result JobStoreError (list EnqueueRequest)) :=
  match pushes with
  | [] => Some (Ok [])
  | push :: pushes =>
      match push_encode push with
      | Err e => Some (Err (Encode e))
      | Ok payload =>
          match resolve_run_at_ms max_delay (clock i) (push_delay push) with
          | None => None
          | Some (Err e) => Some (Err e)
          | Some (Ok run_at_ms) =>
              match prepare_requests max_delay clock (S i) pushes with
              | Some (Ok requests) =>
                  Some (Ok (mkEnqueueRequest (push_job_id push) (push_kind push) payload run_at_ms
                            :: requests))
              | other => other
              end
          end
      end
  end.

Definition prepare_pending `{Chrono} (max_delay : Z) (clock : nat -> Z) (pending : Scope) :
    option (result JobStoreError PreparedPendingJobs) :=
  match pending with
  | None => Some (Ok (mkPrepared [] None))
  | Some pushes =>
      match prepare_requests max_delay clock 0 pushes with
      | None => None
      | Some (Err e) => Some (Err e)
      | Some (Ok requests) => Some (Ok (mkPrepared requests (Some (length pushes))))
      end
  end.

Definition mark_committed (prepared : PreparedPendingJobs) (pending : Scope) : Scope :=
  match prepared_count prepared, pending with
  | Some n, Some pushes => Some (drop n pushes)
  | _, _ => pending
  end.

(** ** Execution context *)

Record DeliveryPolicy : Type := mkDeliveryPolicy {
  retry_delay : Z;
  refused_backoff : Z;
}.

Record JobContext : Type := mkJobContext {
  ctx_job_id : JobId;
  ctx_claim_seq : Z;
  ctx_claim_id : string;
  ctx_attempt : Z;
  ctx_max_attempts : Z;
  ctx_delivery : DeliveryPolicy;
}.

Definition FIRST_CLAIM_SEQ : Z := 2.
Definition is_first_execution (ctx : JobContext) : bool := (ctx_claim_seq ctx =? FIRST_CLAIM_SEQ)%Z.
Definition is_final_attempt (ctx : JobContext) : bool :=
  ((0 <? ctx_max_attempts ctx) && (ctx_max_attempts ctx <=? u32_add (ctx_attempt ctx) 1))%Z.

(** ** Properties of the fold *)

(** The claim a state is held under, and its claim counter. *)
Definition held_claim (s : JobState) : option string :=
  match s with Claimed _ _ _ claim_id _ _ _ => Some claim_id | _ => None end.
Definition claim_count (s : JobState) : Z :=
  match s with Pending _ _ _ _ claims | Claimed _ _ _ _ _ _ claims => claims | _ => 0 end.
Definition attempt_count (s : JobState) : Z :=
  match s with Pending _ _ _ attempt _ | Claimed _ _ _ _ _ attempt _ => attempt | _ => 0 end.
Definition terminal (s : JobState) : bool :=
  match s with Done | Dead _ => true | _ => false end.

Definition is_claim (e : JobEvent) : bool :=
  match e with ClaimedEv _ _ _ => true | _ => false end.

Lemma job_evolve_terminal s e : terminal s = true -> job_evolve s e = Ok None.
Proof. by destruct s, e. Qed.

(** Only the holder of the current claim settles a job: any other command, and
    any command on an unclaimed job, is fenced and produces no event. *)
Lemma job_transition_fenced s command :
  held_claim s <> Some (command_claim_id command) -> job_transition s command = Err Fenced.
Proof.
  destruct s; try done. simpl. intros Hne.
  destruct (String.eqb_spec claim_id (command_claim_id command)); [congruence|done].
Qed.

Lemma job_transition_holder s command effect :
  job_transition s command = Ok effect ->
  held_claim s = Some (command_claim_id command) /\
  exists e s', effect = Events [e] /\ job_evolve s e = Ok (Some s') /\ held_claim s' = None.
Proof.
  destruct s; try done. simpl.
  destruct (String.eqb_spec claim_id (command_claim_id command)); [|done].
  intros [= <-]. split; [by subst|]. destruct command; eauto.
Qed.

(** A stream that folds to a live job starts with [Enqueued]; everything after it
    either is a claim or follows one. *)
Lemma job_replay_head es s :
  replay Uninitialized es = Live s ->
  exists kind payload run_at es',
    es = Enqueued kind payload run_at :: es' /\
    replay (Live (Pending kind payload run_at 0 0)) es' = Live s.
Proof.
  destruct es as [|[] es']; simpl; intros Hr; try done.
  1: by eauto 6.
  all: apply (f_equal failed) in Hr; by rewrite replay_failed in Hr.
Qed.

Lemma job_replay_terminal s es s' :
  terminal s = true -> replay (Live s) es = Live s' -> es = [] /\ s' = s.
Proof.
  intros Ht. destruct es as [|e es]; simpl; [naive_solver|].
  intros Hr. apply (f_equal failed) in Hr.
  rewrite job_evolve_terminal in Hr by done. by rewrite replay_failed in Hr.
Qed.

(** The second event of a stream that leads to an unfinished job is a claim. *)
Lemma first_claim_iff_unclaimed es s :
  replay Uninitialized es = Live s -> terminal s = false ->
  (Z.of_nat (length es) + 1 = FIRST_CLAIM_SEQ)%Z <-> Forall (fun e => is_claim e = false) es.
Proof.
  intros Hr Ht. apply job_replay_head in Hr as (kind & payload & run_at & es' & -> & Hr).
  unfold FIRST_CLAIM_SEQ. rewrite Forall_cons. simpl. split.
  - intros Hl. destruct es'; [by repeat constructor|simpl in *; lia].
  - intros [_ Hc]. destruct es' as [|e es']; [simpl; lia|]. exfalso.
    apply Forall_cons in Hc as [He _].
    destruct e; try done; simpl in Hr;
      try (apply (f_equal failed) in Hr; by rewrite replay_failed in Hr).
    apply job_replay_terminal in Hr as [_ ->]; done.
Qed.

(** The durable claim history decides submit versus reconcile.  In a stream
    that folds to a live, unfinished job, the next claim gets sequence 2 (the
    value [is_first_execution] tests) exactly when no claim was ever recorded, so
    a run routed to [submit] cannot follow an earlier execution. *)
Theorem first_execution_iff_unclaimed es s ctx :
  replay Uninitialized es = Live s -> terminal s = false ->
  ctx_claim_seq ctx = (Z.of_nat (length es) + 1)%Z ->
  is_first_execution ctx = true <-> Forall (fun e => is_claim e = false) es.
Proof.
  intros Hr Ht Hseq. unfold is_first_execution. rewrite Hseq, Z.eqb_eq.
  by apply (first_claim_iff_unclaimed es s).
Qed.

(** ** Properties of the planner *)

Section plan_props.
Context `{SerdeJsonLaws, ChronoLaws, Ulid}.

Lemma lifecycle_text_round_trip (l : JobLifecycle) :
  job_lifecycle_ok l -> portable (ser l) = true ->
  lifecycle_from_text (lifecycle_text l) = Some l.
Proof.
  intros Hok Hp. unfold lifecycle_from_text, lifecycle_text.
  rewrite from_str_to_string by done. cbn [mbind option_bind].
  by apply (lifecycle_serde_laws state_ok event_ok (fun _ => True)).
Qed.

(** What the claim transaction writes is what the job's event stream folds to.
    For a row holding the live state [state], a won claim appends, at the next
    sequence, an event that evolves [state] into exactly the state serialized into
    the row, held by the fresh claim id, with one more claim than before and within
    the budget; an abandoned claim does the same with the terminal [Dead] state
    once the budget is spent; and a skip means the job was not runnable or the next
    sequence or lease instant does not exist. *)
Lemma plan_claim_folds job_id read worker now_ms lease_ms max_claims fresh state :
  lifecycle_from_text (read_payload read) = Some (Live state) ->
  in_i64 (read_version read) = true -> state_ok state -> in_u32 max_claims = true ->
  match plan_claim job_id (Some read) worker now_ms lease_ms max_claims fresh with
  | DecideClaim event payload lease_until_ms won =>
      runnable state (read_lease_until_ms read) now_ms = true /\
      lease_until_ms = (now_ms + lease_ms)%Z /\ representable (now_ms + lease_ms) = true /\
      won_claim_seq won = (read_version read + 1)%Z /\ won_claim_id won = fresh /\
      won_attempt won = attempt_count state /\
      (claim_count state < max_claims)%Z /\
      event = serialized (ClaimedEv worker fresh (now_ms + lease_ms)) job_id (read_version read + 1) /\
      exists state',
        job_evolve state (ClaimedEv worker fresh (now_ms + lease_ms)) = Ok (Some state') /\
        payload = lifecycle_text (Live state') /\
        held_claim state' = Some fresh /\ attempt_count state' = attempt_count state /\
        claim_count state' = (claim_count state + 1)%Z
  | DecideAbandon event payload =>
      runnable state (read_lease_until_ms read) now_ms = true /\
      (max_claims <= claim_count state)%Z /\
      event = serialized (DeadEv Abandoned "claim budget exhausted") job_id (read_version read + 1) /\
      job_evolve state (DeadEv Abandoned "claim budget exhausted") = Ok (Some (Dead Abandoned)) /\
      payload = lifecycle_text (Live (Dead Abandoned))
  | DecideSkip =>
      runnable state (read_lease_until_ms read) now_ms = false \/
      usize_try_from (i64_add (read_version read) 1) = Err OutOfRange \/
      i64_checked_add now_ms lease_ms = None \/ representable (now_ms + lease_ms) = false
  end.
Proof.
  intros Hl Hv Hok Hm. unfold plan_claim. rewrite Hl.
  destruct (runnable state _ now_ms) eqn:Hrun; simpl negb; cbn match; [|by left].
  destruct state as [k p r a c|k p w cid r a c| |]; try done; destruct Hok as (_ & _ & _ & Hc).
  all: destruct (usize_try_from _) as [sq|[]] eqn:Hs; [|by auto].
  all: destruct (i64_add_succ_usize _ _ Hv Hs) as [-> Hi].
  all: apply usize_try_from_Ok in Hs as [Hs _]; rewrite <-Hs.
  all: destruct (Z.leb_spec max_claims c); [unfold plan_abandon; simpl; by eauto 10|].
  all: unfold i64_checked_add, instant_from_millis, from_timestamp_millis.
  all: destruct (in_i64 (now_ms + lease_ms)); [|by auto].
  all: destruct (representable (now_ms + lease_ms)); simpl; [|by auto].
  all: assert (u32_add c 1 = c + 1)%Z as Hadd by (apply u32_add_small; range).
  all: do 8 (split; [done|]); eexists; do 4 (split; [done|]).
  all: simpl; by rewrite Hadd.
Qed.
End plan_props.
