(* ===== verification/Engine.v ===== *)
(** * The serialized storage engine: events, snapshots and atomic commits

    Models src/crates/event-sorcery/src/engine.rs (streams, paging, versions,
    snapshots, commits and the opaque payload envelope) and [compact_events] of
    src/crates/event-sorcery/src/lib.rs.  The job-queue primitives of the same
    file are in JobQueue.v.

    Every operation is a program of the statement monad of Sqlite.v, statement for
    statement; its properties are in EngineProps.v. *)

From S2P Require Import Prelude Json Sqlite EventTable Lifecycle Schema Job.

(** ** Requests *)

Record StreamIdentity : Type := mkStream {
  stream_type : string;
  stream_id : string;
}.
#[global] Instance StreamIdentity_eq_dec : EqDecision StreamIdentity.
Proof. solve_decision. Defined.

Definition matches (self : StreamIdentity) (event : SerializedEvent) : bool :=
  String.eqb (stream_type self) (ev_aggregate_type event) &&
  String.eqb (stream_id self) (ev_aggregate_id event).

Definition from_event (event : SerializedEvent) : StreamIdentity :=
  mkStream (ev_aggregate_type event) (ev_aggregate_id event).

Record OpaqueProposedEvent : Type := mkProposed {
  prop_event_type : string;
  prop_event_version : string;
  prop_payload : list Z;
}.

Record OpaqueStoredEvent : Type := mkOpaqueStored {
  stored_sequence : Z;
  stored_event_type : string;
  stored_event_version : string;
  stored_payload : list Z;
}.

Record OpaqueCommitRequest : Type := mkOpaqueCommit {
  ocr_stream : StreamIdentity;
  ocr_expected_version : Z;
  ocr_events : list OpaqueProposedEvent;
  ocr_jobs : list EnqueueRequest;
}.

Record SnapshotUpdate : Type := mkSnapshotUpdate {
  upd_aggregate : Json;
  upd_snapshot_version : Z;
}.

Record SnapshotWrite : Type := mkSnapshotWrite {
  sw_aggregate : Json;
  sw_last_sequence : Z;
}.

Record CommitRequest : Type := mkCommit {
  cr_stream : StreamIdentity;
  cr_expected_version : option Z;
  cr_events : list SerializedEvent;
  cr_snapshot : option SnapshotUpdate;
  cr_jobs : list EnqueueRequest;
}.

(** [cqrs_es::persist::SerializedSnapshot]. *)
Record SerializedSnapshot : Type := mkSerializedSnapshot {
  ss_aggregate_id : string;
  ss_aggregate : Json;
  ss_current_sequence : Z;
  ss_current_snapshot : Z;
}.

Inductive EngineError : Type :=
| OptimisticLock
| EmptySnapshotUpdate
| SnapshotBeyondCurrentVersion (proposed current : Z)
| SnapshotVersionExhausted
| StreamIdentityMismatch (expected actual : StreamIdentity)
| EventPageTooLarge (observed limit : Z)
| ReservedMetadata (key : string)
| OpaquePayloadVersion (actual : Z)
| EngSql (e : SqlxError)
| EngJson (e : JsonError)
| EngInteger (e : TryFromIntError)
| JobFlush (e : JobStoreError)
| EngSchema (e : ReconcileError).
#[global] Instance EngineError_eq_dec : EqDecision EngineError.
Proof. solve_decision. Defined.

Definition engine_error_of_aggregate (error : SqliteAggregateError) : EngineError :=
  match error with
  | AggOptimisticLock => OptimisticLock
  | AggConnection source => EngSql source
  | AggDeserialization source => EngJson source
  | AggTryFromInt source => EngInteger source
  | AggEmptySnapshotUpdate => EmptySnapshotUpdate
  end.

Definition engine_error_of_row (error : RowError) : EngineError :=
  match error with RowInteger e => EngInteger e | RowJson e => EngJson e end.

(** ** Building commits *)

Definition new_commit (stream : StreamIdentity) (events : list SerializedEvent) : CommitRequest :=
  mkCommit stream None events None [].

Definition at_expected_version (self : CommitRequest) (expected : Z) : CommitRequest :=
  mkCommit (cr_stream self) (Some expected) (cr_events self) (cr_snapshot self) (cr_jobs self).

Definition with_snapshot (self : CommitRequest) (snapshot : SnapshotUpdate) :
    result EngineError CommitRequest :=
  match cr_events self with
  | [] => Err EmptySnapshotUpdate
  | _ => Ok (mkCommit (cr_stream self) (cr_expected_version self) (cr_events self)
               (Some snapshot) (cr_jobs self))
  end.

Definition with_jobs (self : CommitRequest) (jobs : list EnqueueRequest) : CommitRequest :=
  mkCommit (cr_stream self) (cr_expected_version self) (cr_events self) (cr_snapshot self) jobs.

Definition with_job (self : CommitRequest) (job : EnqueueRequest) : CommitRequest :=
  with_jobs self (cr_jobs self ++ [job]).

(** ** Validation *)

Definition validate_event_stream (stream : StreamIdentity) (events : list SerializedEvent) :
    result EngineError () :=
  match List.find (fun event => negb (matches stream event)) events with
  | None => Ok ()
  | Some event => Err (StreamIdentityMismatch stream (from_event event))
  end.

(** [expected.checked_add(index).and_then(|s| s.checked_add(1))]. *)
Definition sequence_at (expected index : Z) : option Z :=
  usize_checked_add expected index ≫= fun s => usize_checked_add s 1.

Fixpoint events_follow_from (expected index : Z) (events : list SerializedEvent) : bool :=
  match events with
  | [] => true
  | event :: events =>
      bool_decide (sequence_at expected index = Some (ev_sequence event)) &&
      events_follow_from expected (index + 1) events
  end.

Definition events_follow_version (events : list SerializedEvent) (expected : Z) : bool :=
  events_follow_from expected 0 events.

(** ** The opaque payload envelope *)

Definition ENGINE_PAYLOAD_PROVENANCE_KEY : string := "$event-sorcery-engine-owned".
Definition ENGINE_PAYLOAD_PROVENANCE : string := "opaque-v1".

(** [serde_json::to_value(EnginePayloadEnvelope { .. })], a [Value]. *)
Definition encode_opaque_payload (payload : list Z) : Json :=
  canon (JObject [("$event-sorcery-engine-payload",
                   JObject [("version", JInt 1); ("bytes", JArray (JInt <$> payload))])]).

Definition in_u8 (z : Z) : bool := ((0 <=? z) && (z <=? 255))%Z.

Definition decode_opaque_payload (payload : Json) : result EngineError (list Z) :=
  let envelope :=
    fs ← struct_of ["$event-sorcery-engine-payload"] payload;
    opaque ← head fs;
    fs ← struct_of ["version"; "bytes"] opaque;
    match fs with
    | [version; bytes] =>
        version ← as_int in_u8 version;
        bytes ← as_array bytes ≫= mapM (as_int in_u8);
        Some (version, bytes)
    | _ => None
    end in
  match envelope with
  | None => Err (EngJson Malformed)
  | Some (version, bytes) =>
      if (version =? 1)%Z then Ok bytes else Err (OpaquePayloadVersion version)
  end.

Definition engine_payload_metadata : Json :=
  JObject [(ENGINE_PAYLOAD_PROVENANCE_KEY, JString ENGINE_PAYLOAD_PROVENANCE)].

Definition reserves_engine_payload (metadata : Json) : bool :=
  match metadata with
  | JObject object => bool_decide (is_Some (assoc ENGINE_PAYLOAD_PROVENANCE_KEY object))
  | _ => false
  end.

Definition has_engine_payload_provenance (metadata : Json) : bool :=
  match metadata with
  | JObject object =>
      (length object =? 1)%nat &&
      match assoc ENGINE_PAYLOAD_PROVENANCE_KEY object with
      | Some (JString provenance) => String.eqb provenance ENGINE_PAYLOAD_PROVENANCE
      | _ => false
      end
  | _ => false
  end.

Definition byte_of_ascii (c : Ascii.ascii) : Z := Z.of_N (Ascii.N_of_ascii c).

Definition decode_opaque_event `{SerdeJson} (event : SerializedEvent) :
    result EngineError OpaqueStoredEvent :=
  payload ← (if has_engine_payload_provenance (ev_metadata event)
             then decode_opaque_payload (ev_payload event)
             else Ok (byte_of_ascii <$> String.list_ascii_of_string (to_string (ev_payload event))));
  mret (mkOpaqueStored (ev_sequence event) (ev_event_type event) (ev_event_version event) payload).

(** ** Engine operations *)

Section engine.
Context `{SerdeJson, Chrono, Ulid}.

Definition committed_version (stream : StreamIdentity) (db : Db) : Z :=
  Z.max (max_sequence (stream_rows (stream_type stream) (stream_id stream) db))
    (from_option snap_last_sequence 0%Z
       (db_snapshots db !! (stream_type stream, stream_id stream))).

Definition committed_stream_version (stream : StreamIdentity) : M EngineError Z :=
  version ← lift_err EngSql (query (committed_version stream));
  lift (map_err EngInteger (usize_try_from version)).

Definition current_version (stream : StreamIdentity) : M EngineError Z :=
  _ ← lift_err EngSql acquire;
  committed_stream_version stream.

(** [after_sequence.map(i64::try_from).transpose()?]. *)
Definition checkpoint (after_sequence : option Z) : result EngineError (option Z) :=
  match after_sequence with
  | None => Ok None
  | Some a => Some <$> map_err EngInteger (i64_try_from a)
  end.

Definition serialized_events (rows : list StoredEventRow) : result EngineError (list SerializedEvent) :=
  collect (fun row => map_err engine_error_of_row (serialized_event row)) rows.

Definition select_stream (stream : StreamIdentity) (bound : option Z) (db : Db) :
    list StoredEventRow :=
  select_events (stream_type stream) (stream_id stream) bound db.

Definition load_events_on (stream : StreamIdentity) (after_sequence : option Z) :
    M EngineError (list SerializedEvent) :=
  bound ← lift (checkpoint after_sequence);
  rows ← lift_err EngSql (query (select_stream stream bound));
  lift (serialized_events rows).

Definition load_events (stream : StreamIdentity) (after_sequence : option Z) :
    M EngineError (list SerializedEvent) :=
  _ ← lift_err EngSql acquire;
  load_events_on stream after_sequence.

(** [... LIMIT ?]: a [NonZeroUsize] limit that fits [i64] is not negative. *)
Definition select_page (stream : StreamIdentity) (bound : option Z) (limit : Z) (db : Db) :
    list StoredEventRow :=
  take (Z.to_nat limit) (select_stream stream bound db).

Definition load_events_page (stream : StreamIdentity) (after_sequence : option Z)
    (limit : positive) : M EngineError (list SerializedEvent) :=
  limit ← lift (map_err EngInteger (i64_try_from (Zpos limit)));
  bound ← lift (checkpoint after_sequence);
  rows ← lift_err EngSql (query (select_page stream bound limit));
  lift (serialized_events rows).

(** The bytes one row accounts for in the page budget. *)
Definition row_bytes (r : StoredEventRow) : Z :=
  Z.of_nat (String.length (row_aggregate_type r)) + Z.of_nat (String.length (row_aggregate_id r))
  + 8
  + Z.of_nat (String.length (row_event_type r)) + Z.of_nat (String.length (row_event_version r))
  + Z.of_nat (String.length (row_payload r)) + Z.of_nat (String.length (row_metadata r)).

(** SQLite's [SUM] over integers fails on overflow. *)
Definition sum_bytes (rows : list StoredEventRow) : result SqlxError Z :=
  let total := fold_right (fun r n => (row_bytes r + n)%Z) 0%Z rows in
  if in_i64 total then Ok total else Err (SqlxDatabase (Some "1") false "integer overflow").

Definition load_events_page_bounded (stream : StreamIdentity) (after_sequence : option Z)
    (item_limit byte_limit : positive) : M EngineError (list SerializedEvent) :=
  item_limit ← lift (map_err EngInteger (i64_try_from (Zpos item_limit)));
  rows ← transaction EngSql
    (bound ← lift (checkpoint after_sequence);
     storage_bytes ← lift_err EngSql
       (statement (fun db => bytes ← sum_bytes (select_page stream bound item_limit db);
                             mret (bytes, db)));
     observed ← lift (map_err EngInteger (usize_try_from storage_bytes));
     if (Zpos byte_limit <? observed)%Z
     then fail (EventPageTooLarge observed (Zpos byte_limit))
     else lift_err EngSql (query (select_page stream bound item_limit)));
  lift (serialized_events rows).

Definition load_opaque_events_page_bounded (stream : StreamIdentity) (after_sequence : option Z)
    (item_limit byte_limit : positive) : M EngineError (list OpaqueStoredEvent) :=
  events ← load_events_page_bounded stream after_sequence item_limit byte_limit;
  lift (collect decode_opaque_event events).

(** *** Snapshots *)

Definition serialized_snapshot (aggregate_id : string) (row : StoredSnapshotRow) :
    result EngineError SerializedSnapshot :=
  aggregate ← map_err EngJson (value_from_str (snap_payload row));
  current_sequence ← map_err EngInteger (usize_try_from (snap_last_sequence row));
  current_snapshot ← map_err EngInteger (usize_try_from (snap_snapshot_version row));
  mret (mkSerializedSnapshot aggregate_id aggregate current_sequence current_snapshot).

Definition load_snapshot_on (stream : StreamIdentity) :
    M EngineError (option SerializedSnapshot) :=
  row ← lift_err EngSql
    (query (fun db => db_snapshots db !! (stream_type stream, stream_id stream)));
  lift (match row with
        | None => Ok None
        | Some row => Some <$> serialized_snapshot (stream_id stream) row
        end).

Definition load_snapshot (stream : StreamIdentity) : M EngineError (option SerializedSnapshot) :=
  _ ← lift_err EngSql acquire;
  load_snapshot_on stream.

Definition insert_or_replace_snapshot (stream : StreamIdentity) (last_sequence version : Z)
    (payload : string) : M EngineError () :=
  lift_err EngSql
    (execute (set_snapshot (stream_type stream, stream_id stream)
                (mkStoredSnapshotRow last_sequence version payload))).

Definition store_snapshot_in_transaction (stream : StreamIdentity) (snapshot : SnapshotWrite) :
    M EngineError Z :=
  current_sequence ← committed_stream_version stream;
  if (current_sequence =? 0)%Z then fail EmptySnapshotUpdate
  else if (current_sequence <? sw_last_sequence snapshot)%Z
  then fail (SnapshotBeyondCurrentVersion (sw_last_sequence snapshot) current_sequence)
  else
    stored ← load_snapshot_on stream;
    if from_option (fun current => sw_last_sequence snapshot <? ss_current_sequence current)%Z
         false stored
    then fail OptimisticLock
    else
      snapshot_version ← lift
        (match stored with
         | None => Ok 1%Z
         | Some current =>
             ok_or SnapshotVersionExhausted (usize_checked_add (ss_current_snapshot current) 1)
         end);
      last_sequence ← lift (map_err EngInteger (i64_try_from (sw_last_sequence snapshot)));
      stored_version ← lift (map_err EngInteger (i64_try_from snapshot_version));
      _ ← insert_or_replace_snapshot stream last_sequence stored_version
            (to_string (sw_aggregate snapshot));
      mret snapshot_version.

Definition store_snapshot (stream : StreamIdentity) (snapshot : SnapshotWrite) : M EngineError Z :=
  transaction EngSql (store_snapshot_in_transaction stream snapshot).

Definition delete_snapshot (k : string * string) (db : Db) : Db :=
  mkDb (db_events db) (delete k (db_snapshots db)) (db_views db).

Definition discard_snapshot (stream : StreamIdentity) : M EngineError () :=
  lift_err EngSql (execute (delete_snapshot (stream_type stream, stream_id stream))).

(** *** Commits *)

Definition JOB_QUEUE : string := "job_queue".

(** [INSERT INTO job_queue (view_id, version, payload, lease_until)
     VALUES (?1, 1, ?2, NULL)]. *)
Definition insert_job_row (job_id payload : string) (db : Db) : result SqlxError (() * Db) :=
  match view_table JOB_QUEUE db !! job_id with
  | Some _ => Err unique_violation_error
  | None => Ok ((), set_view JOB_QUEUE job_id (mkViewRow 1 payload None) db)
  end.

Definition insert_events (events : list SerializedEvent) : M EngineError () :=
  lift_err engine_error_of_aggregate (insert_serialized_events_batch events).

Definition flush_job (request : EnqueueRequest) : M EngineError () :=
  event ← lift (map_err JobFlush (enqueued_event request));
  _ ← insert_events [event];
  payload ← lift (map_err JobFlush (pending_seed_payload request));
  lift_err EngSql (statement (insert_job_row (ulid_to_string (req_job_id request)) payload)).

Fixpoint flush_jobs (jobs : list EnqueueRequest) : M EngineError () :=
  match jobs with
  | [] => mret ()
  | request :: jobs => _ ← flush_job request; flush_jobs jobs
  end.

Definition write_snapshot (stream : StreamIdentity) (events : list SerializedEvent)
    (snapshot : option SnapshotUpdate) : M EngineError () :=
  match snapshot with
  | None => mret ()
  | Some snapshot =>
      last_sequence ← lift (ok_or EmptySnapshotUpdate (ev_sequence <$> last events));
      last_sequence ← lift (map_err EngInteger (i64_try_from last_sequence));
      snapshot_version ← lift (map_err EngInteger (i64_try_from (upd_snapshot_version snapshot)));
      insert_or_replace_snapshot stream last_sequence snapshot_version
        (to_string (upd_aggregate snapshot))
  end.

Definition check_version (stream : StreamIdentity) (expected_version : option Z) :
    M EngineError () :=
  match expected_version with
  | None => mret ()
  | Some expected =>
      actual ← committed_stream_version stream;
      if (actual =? expected)%Z then mret () else fail OptimisticLock
  end.

Definition commit_serialized (request : CommitRequest) : M EngineError () :=
  let '(mkCommit stream expected_version events snapshot jobs) := request in
  _ ← lift (validate_event_stream stream events);
  if from_option (fun expected => negb (events_follow_version events expected)) false
       expected_version
  then fail OptimisticLock
  else
    transaction EngSql
      (_ ← check_version stream expected_version;
       _ ← insert_events events;
       _ ← write_snapshot stream events snapshot;
       flush_jobs jobs).

Definition commit (request : CommitRequest) : M EngineError () :=
  if existsb (fun event => reserves_engine_payload (ev_metadata event)) (cr_events request)
  then fail (ReservedMetadata ENGINE_PAYLOAD_PROVENANCE_KEY)
  else commit_serialized request.

Definition opaque_event (stream : StreamIdentity) (expected_version index : Z)
    (event : OpaqueProposedEvent) : result EngineError SerializedEvent :=
  sequence ← ok_or OptimisticLock (sequence_at expected_version index);
  mret (mkSerializedEvent (stream_type stream) (stream_id stream) sequence
          (prop_event_type event) (prop_event_version event)
          (encode_opaque_payload (prop_payload event)) engine_payload_metadata).

Definition commit_opaque (request : OpaqueCommitRequest) : M EngineError () :=
  let '(mkOpaqueCommit stream expected_version events jobs) := request in
  serialized ← lift (collect_from (opaque_event stream expected_version) 0 events);
  commit_serialized
    (with_jobs (at_expected_version (new_commit stream serialized) expected_version) jobs).

(** *** Compaction (lib.rs) *)

Definition covered (db : Db) (r : StoredEventRow) : bool :=
  (row_sequence r <=? from_option snap_last_sequence 0%Z
     (db_snapshots db !! (row_aggregate_type r, row_aggregate_id r)))%Z.

Definition compactable (aggregate_type : string) (db : Db) (r : StoredEventRow) : bool :=
  String.eqb (row_aggregate_type r) aggregate_type && covered db r.

Definition delete_covered (aggregate_type : string) (db : Db) : Db :=
  set_events (filter (fun r => compactable aggregate_type db r = false) (db_events db)) db.

(** The number of rows deleted. *)
Definition compact_events (aggregate_type : string) (policy : CompactionPolicy) : M SqlxError nat :=
  match policy with
  | Retain => mret 0
  | CompactAfterSnapshot =>
      statement (fun db =>
        Ok (length (filter (fun r => compactable aggregate_type db r = true) (db_events db)),
            delete_covered aggregate_type db))
  end.
End engine.
