(* ===== verification/EngineProps.v ===== *)
(** * Properties of the storage engine

    The contract of [commit] ([commit_spec]), stated once against an abstract
    acceptance predicate and an abstract effect on the database, and what follows
    from it and from the read lemmas of EventTable.v: atomicity under every fault
    schedule, optimistic concurrency along every history of engine operations,
    the text round trip of events and opaque payloads, paging, snapshots and
    compaction. *)

From S2P Require Import Prelude Json Sqlite EventTable Lifecycle Job Engine.

Section commit.
Context `{SerdeJson, Chrono, Ulid}.

(** ** The abstract commit *)

Definition job_event_of (request : EnqueueRequest) : SerializedEvent :=
  serialized (Enqueued (req_kind request) (req_payload request) (req_run_at_ms request))
    (ulid_to_string (req_job_id request)) 1.

Definition job_row_of (request : EnqueueRequest) : ViewRow :=
  mkViewRow 1
    (lifecycle_text (Live (Pending (req_kind request) (req_payload request)
                             (req_run_at_ms request) 0 0))) None.

Definition job_accepted (request : EnqueueRequest) (db : Db) : Prop :=
  representable (req_run_at_ms request) = true /\
  insertable db [job_event_of request] /\
  view_table JOB_QUEUE db !! ulid_to_string (req_job_id request) = None.

Definition job_flushed (request : EnqueueRequest) (db : Db) : Db :=
  set_view JOB_QUEUE (ulid_to_string (req_job_id request)) (job_row_of request)
    (append_events [job_event_of request] db).

Fixpoint jobs_accepted (jobs : list EnqueueRequest) (db : Db) : Prop :=
  match jobs with
  | [] => True
  | request :: jobs => job_accepted request db /\ jobs_accepted jobs (job_flushed request db)
  end.

Definition jobs_flushed (jobs : list EnqueueRequest) (db : Db) : Db :=
  fold_left (fun db request => job_flushed request db) jobs db.

Definition snapshot_accepted (events : list SerializedEvent) (snapshot : option SnapshotUpdate) :
    Prop :=
  match snapshot with
  | None => True
  | Some s => events <> [] /\ in_i64 (upd_snapshot_version s) = true
  end.

Definition snapshot_written (stream : StreamIdentity) (events : list SerializedEvent)
    (snapshot : option SnapshotUpdate) (db : Db) : Db :=
  match snapshot, last events with
  | Some s, Some e =>
      set_snapshot (stream_type stream, stream_id stream)
        (mkStoredSnapshotRow (ev_sequence e) (upd_snapshot_version s)
           (to_string (upd_aggregate s))) db
  | _, _ => db
  end.

Definition version_accepted (request : CommitRequest) (db : Db) : Prop :=
  match cr_expected_version request with
  | None => True
  | Some expected =>
      events_follow_version (cr_events request) expected = true /\
      committed_version (cr_stream request) db = expected /\ in_usize expected = true
  end.

(** When the serialized writer accepts a request. *)
Definition accepted (request : CommitRequest) (db : Db) : Prop :=
  Forall (fun e => matches (cr_stream request) e = true) (cr_events request) /\
  version_accepted request db /\
  insertable db (cr_events request) /\
  snapshot_accepted (cr_events request) (cr_snapshot request) /\
  jobs_accepted (cr_jobs request)
    (snapshot_written (cr_stream request) (cr_events request) (cr_snapshot request)
       (append_events (cr_events request) db)).

(** What an accepted request does. *)
Definition committed (request : CommitRequest) (db : Db) : Db :=
  jobs_flushed (cr_jobs request)
    (snapshot_written (cr_stream request) (cr_events request) (cr_snapshot request)
       (append_events (cr_events request) db)).

Definition unreserved (request : CommitRequest) : Prop :=
  Forall (fun e => reserves_engine_payload (ev_metadata e) = false) (cr_events request).

(** ** The contract *)

(** The shape of every contract below: success has the effect [f] and happens
    only when [ok] holds; without faults it happens whenever [ok] holds. *)
Definition guarded {E A} (b : bool) (ok : Prop) (f : Db) (r : result E A) (db' : Db) : Prop :=
  match r with Ok _ => ok /\ db' = f | Err _ => b = false -> ~ ok end.

Lemma wp_insert_events b events db :
  wp b (insert_events events) db (guarded b (insertable db events) (append_events events db)).
Proof.
  unfold insert_events. wp_step. eapply wp_mono; [apply insert_batch_spec|].
  intros [[]|e] db'; simpl; [done|]. tauto.
Qed.

Lemma wp_flush_job b request db :
  wp b (flush_job request) db (guarded b (job_accepted request db) (job_flushed request db)).
Proof.
  unfold flush_job, enqueued_event, pending_seed_payload, instant_from_millis,
    from_timestamp_millis, job_accepted.
  destruct (representable _) eqn:Hr; simpl; [|by repeat wp_step; simpl; intros _ [? _]].
  repeat wp_step; simpl. repeat wp_step. eapply wp_mono; [apply wp_insert_events|].
  intros [[]|e] db'; simpl; [|naive_solver].
  intros [Hi ->]. repeat wp_step; simpl. repeat wp_step. apply wp_statement; [by intros ->|].
  unfold insert_job_row. change (view_table JOB_QUEUE (append_events _ db)) with (view_table JOB_QUEUE db).
  destruct (view_table JOB_QUEUE db !! _) eqn:Hv; simpl; naive_solver.
Qed.

Lemma wp_flush_jobs b jobs db :
  wp b (flush_jobs jobs) db (guarded b (jobs_accepted jobs db) (jobs_flushed jobs db)).
Proof.
  revert db. induction jobs as [|request jobs IH]; intros db; simpl; [by wp_step|].
  wp_step. eapply wp_mono; [apply wp_flush_job|]. intros [[]|e] db'; simpl; [|naive_solver].
  intros [Hj ->]. eapply wp_mono; [apply IH|]. intros [[]|e] db'; simpl; naive_solver.
Qed.

Lemma wp_write_snapshot b stream events snapshot db :
  Forall (fun e => in_i64 (ev_sequence e) = true) events ->
  wp b (write_snapshot stream events snapshot) db
    (guarded b (snapshot_accepted events snapshot) (snapshot_written stream events snapshot db)).
Proof.
  intros Hr. unfold write_snapshot, snapshot_accepted, snapshot_written.
  destruct snapshot as [s|]; [|by wp_step]. wp_step. wp_step.
  destruct (last events) as [e|] eqn:Hlast; simpl; [|by rewrite last_None in Hlast; naive_solver].
  assert (in_i64 (ev_sequence e) = true) as He.
  { rewrite Forall_forall in Hr. apply Hr. by apply last_Some_elem_of. }
  repeat wp_step. unfold i64_try_from. rewrite He. simpl. repeat wp_step.
  destruct (in_i64 (upd_snapshot_version s)) eqn:Hs; simpl; [|naive_solver].
  unfold insert_or_replace_snapshot. repeat wp_step; [by intros ->|]. simpl.
  split; [|done]. split; [|done]. by intros ->.
Qed.

Lemma wp_committed_stream_version b stream db (Q : result EngineError Z -> Db -> Prop) :
  (b = true -> forall e, Q (Err (EngSql e)) db) ->
  Q (map_err EngInteger (usize_try_from (committed_version stream db))) db ->
  wp b (committed_stream_version stream) db Q.
Proof.
  intros Hf HQ. unfold committed_stream_version. repeat wp_step; simpl; [by auto|].
  by wp_step.
Qed.

Lemma wp_check_version b stream expected db :
  wp b (check_version stream expected) db
    (guarded b (from_option (fun v => committed_version stream db = v /\ in_usize v = true)
                  True expected) db).
Proof.
  unfold check_version. destruct expected as [v|]; [|by wp_step].
  wp_step. apply wp_committed_stream_version; [by intros ->|]. unfold usize_try_from.
  destruct (in_usize _) eqn:Hu; simpl; [|intros _ [<- ?]; congruence].
  destruct (Z.eqb_spec (committed_version stream db) v); wp_step; simpl; [|naive_solver].
  by subst.
Qed.

Lemma validate_event_stream_Ok stream events :
  validate_event_stream stream events = Ok () <->
  Forall (fun e => matches stream e = true) events.
Proof.
  unfold validate_event_stream. induction events as [|e events IH]; simpl.
  - split; [constructor|done].
  - rewrite Forall_cons. destruct (matches stream e); simpl; naive_solver.
Qed.

(** The version guard in front of the transaction and the check inside it. *)
Lemma version_accepted_split request db :
  version_accepted request db <->
  from_option (fun v => negb (events_follow_version (cr_events request) v)) false
    (cr_expected_version request) = false /\
  from_option (fun v => committed_version (cr_stream request) db = v /\ in_usize v = true)
    True (cr_expected_version request).
Proof.
  unfold version_accepted. destruct (cr_expected_version request); simpl; [|naive_solver].
  rewrite negb_false_iff. tauto.
Qed.

Lemma wp_commit_serialized b request db :
  wp b (commit_serialized request) db
    (fun r db' => guarded b (accepted request db) (committed request db) r db' /\
       (is_ok r = false -> db' = db)).
Proof.
  unfold accepted, committed. pose proof (version_accepted_split request db) as Hsplit.
  destruct request as [stream expected events snapshot jobs]; simpl in *. wp_step. wp_step.
  pose proof (validate_event_stream_Ok stream events) as Hvalid.
  destruct (validate_event_stream stream events) as [[]|e] eqn:Hval; simpl; [|naive_solver].
  destruct (from_option _ false expected) eqn:Hfollow; [wp_step; simpl; naive_solver|].
  wp_step; [by intros ->|]. wp_step. eapply wp_mono; [apply wp_check_version|].
  intros [[]|e] db'; simpl; [intros [Hver ->]|naive_solver].
  wp_step. eapply wp_mono; [apply wp_insert_events|].
  intros [[]|e] db'; simpl; [intros [Hins ->]|naive_solver].
  wp_step. eapply wp_mono; [apply wp_write_snapshot, Hins|].
  intros [[]|e] db'; simpl; [intros [Hsnap ->]|naive_solver].
  eapply wp_mono; [apply wp_flush_jobs|].
  intros [[]|e] db'; simpl; [intros [Hjobs ->]|]; naive_solver.
Qed.

Lemma wp_commit b request db :
  wp b (commit request) db
    (fun r db' => guarded b (unreserved request /\ accepted request db) (committed request db) r db' /\
       (is_ok r = false -> db' = db)).
Proof.
  unfold commit. destruct (existsb _ _) eqn:Hres.
  - wp_step. simpl. split; [|done]. intros _ [Hu _].
    apply existsb_exists in Hres as (e & He & Hr). unfold unreserved in Hu.
    rewrite Forall_forall in Hu. rewrite Hu in Hr; [done|]. by apply list_elem_of_In.
  - eapply wp_mono; [apply wp_commit_serialized|]. intros [[]|e] db'; simpl; [|tauto].
    intros [[Ha ->] _]. split; [|done]. split; [|done]. split; [|done].
    apply Forall_forall. intros e He. apply not_true_is_false. intros Ht.
    rewrite <-not_true_iff_false in Hres. apply Hres, existsb_exists. exists e.
    split; [by apply list_elem_of_In|done].
Qed.

(** C1: a commit is atomic and does exactly what it promises.  Whatever driver
    failure strikes at whichever statement, either the request was acceptable
    (metadata unreserved, one stream, the expected version current, every key
    free, snapshot well-formed, every job new) and the database afterwards holds
    exactly the appended events, the snapshot and one [Enqueued] event and
    [job_queue] row per job, or the commit reports an error and the database is
    untouched.  Without failures an acceptable request always succeeds. *)
Theorem commit_spec request w :
  (forall w', commit request w = (Ok (), w') ->
     unreserved request /\ accepted request (w_db w) /\ w_db w' = committed request (w_db w)) /\
  (forall e w', commit request w = (Err e, w') -> w_db w' = w_db w) /\
  (w_faults w = [] -> unreserved request -> accepted request (w_db w) ->
     (commit request w).1 = Ok ()).
Proof.
  pose proof (wp_world _ _ _ (wp_commit true request (w_db w))) as Hw.
  destruct (commit request w) as [[[]|e] w1] eqn:Hc; simpl in *;
    (split_and!; [intros w' [=]; subst; naive_solver | intros e' w' [=]; subst; naive_solver|]).
  - done.
  - intros Hf Hu Ha. destruct w as [db fs]; simpl in *; subst.
    pose proof (wp_run _ _ _ (wp_commit false request db)) as Hr. unfold run in Hr.
    rewrite Hc in Hr. naive_solver.
Qed.

(** ** Streams after a commit *)

Lemma events_follow_sequences v i events :
  events_follow_from v i events = true ->
  ev_sequence <$> events = seqZ (v + i + 1) (Z.of_nat (length events)).
Proof.
  revert i. induction events as [|e events IH]; intros i; [done|].
  cbn [events_follow_from]. rewrite andb_true_iff, bool_decide_eq_true. unfold sequence_at.
  intros [Hs Hrest]. apply bind_Some in Hs as (x & Hx & Hs).
  apply usize_checked_add_Some in Hx as [-> _], Hs as [Hs _].
  rewrite seqZ_cons by (cbn [length]; lia). rewrite fmap_cons, (IH _ Hrest). f_equal; [lia|].
  f_equal; cbn [length]; lia.
Qed.

Lemma seqZ_sorted m (n : nat) : StronglySorted Z.lt (seqZ m (Z.of_nat n)).
Proof.
  revert m. induction n as [|n IH]; intros m; [constructor|].
  rewrite seqZ_cons by lia. replace (Z.pred (Z.of_nat (S n))) with (Z.of_nat n) by lia.
  constructor; [apply IH|]. apply Forall_forall. intros x Hx. apply elem_of_seqZ in Hx. lia.
Qed.

Lemma follow_sorted v events :
  events_follow_version events v = true -> StronglySorted row_lt (event_row <$> events).
Proof.
  intros Hf. apply events_follow_sequences in Hf.
  assert (StronglySorted Z.lt (ev_sequence <$> events)) as Hs by (rewrite Hf; apply seqZ_sorted).
  clear Hf. induction events as [|e events IH]; [constructor|]. rewrite !fmap_cons in *.
  apply StronglySorted_inv in Hs as [Hs He]. constructor; [by apply IH|].
  apply Forall_forall. intros r (e' & -> & He')%list_elem_of_fmap.
  rewrite Forall_forall in He. apply (He (ev_sequence e')). by apply list_elem_of_fmap_2.
Qed.

Lemma follow_bounds v events e :
  events_follow_version events v = true -> e ∈ events ->
  (v < ev_sequence e <= v + Z.of_nat (length events))%Z.
Proof.
  intros Hf%events_follow_sequences He. apply (list_elem_of_fmap_2 ev_sequence) in He.
  rewrite Hf, elem_of_seqZ in He. lia.
Qed.

Lemma follow_last v events e :
  events_follow_version events v = true -> last events = Some e ->
  ev_sequence e = (v + Z.of_nat (length events))%Z.
Proof.
  intros Hf%events_follow_sequences Hl.
  assert (last (ev_sequence <$> events) = Some (ev_sequence e)) as Hs by (by rewrite fmap_last, Hl).
  rewrite Hf, last_lookup, length_seqZ in Hs. apply lookup_seqZ in Hs as [-> Hs].
  destruct events; [done|simpl in *; lia].
Qed.

(** The jobs of a commit touch only job streams and the [job_queue] table. *)
Lemma jobs_flushed_stream_rows jobs db t i :
  t <> JOB_AGGREGATE_TYPE -> stream_rows t i (jobs_flushed jobs db) = stream_rows t i db.
Proof.
  intros Ht. revert db. induction jobs as [|r jobs IH]; intros db; [done|].
  cbn [jobs_flushed fold_left]. fold (jobs_flushed jobs (job_flushed r db)). rewrite IH.
  change (stream_rows t i (job_flushed r db)) with (stream_rows t i (append_events [job_event_of r] db)).
  apply stream_rows_append_other. repeat constructor. unfold in_stream_event. simpl. naive_solver.
Qed.

Lemma jobs_flushed_snapshots jobs db : db_snapshots (jobs_flushed jobs db) = db_snapshots db.
Proof.
  revert db. induction jobs as [|r jobs IH]; intros db; [done|]. exact (IH (job_flushed r db)).
Qed.

Lemma jobs_flushed_keys_unique jobs db :
  keys_unique db -> jobs_accepted jobs db -> keys_unique (jobs_flushed jobs db).
Proof.
  revert db. induction jobs as [|r jobs IH]; intros db Hk Ha; [done|].
  destruct Ha as [(_ & Hi & _) Ha]. apply (IH (job_flushed r db)); [|done]. by apply (keys_unique_append _ db).
Qed.

Lemma snapshot_written_events stream events snapshot db :
  db_events (snapshot_written stream events snapshot db) = db_events db.
Proof. unfold snapshot_written. by repeat case_match. Qed.

Lemma matches_in_stream stream events :
  Forall (fun e => matches stream e = true) events ->
  Forall (in_stream_event (stream_type stream) (stream_id stream)) events.
Proof.
  intros Hm. eapply Forall_impl; [exact Hm|]. intros e. unfold matches, in_stream_event.
  rewrite andb_true_iff, !String.eqb_eq. naive_solver.
Qed.

(** Every commit keeps the primary key. *)
Lemma committed_keys_unique request db :
  keys_unique db -> accepted request db -> keys_unique (committed request db).
Proof.
  intros Hk (_ & _ & Hi & _ & Hj). apply jobs_flushed_keys_unique; [|done].
  unfold keys_unique. rewrite snapshot_written_events. by apply keys_unique_append.
Qed.

(** The rows of the committed stream. *)
Lemma committed_stream_rows request db :
  accepted request db -> stream_type (cr_stream request) <> JOB_AGGREGATE_TYPE ->
  stream_rows (stream_type (cr_stream request)) (stream_id (cr_stream request))
    (committed request db) =
  stream_rows (stream_type (cr_stream request)) (stream_id (cr_stream request)) db ++
    (event_row <$> cr_events request).
Proof.
  intros (Hm & _) Ht. unfold committed. rewrite jobs_flushed_stream_rows by done.
  unfold stream_rows at 1. rewrite snapshot_written_events. fold (append_events).
  apply stream_rows_append_same, matches_in_stream, Hm.
Qed.
End commit.

(** ** The database invariant

    What the schema guarantees of the stored rows: the primary key and 64-bit
    integer columns. *)

Definition snapshot_in_range (s : StoredSnapshotRow) : Prop :=
  in_i64 (snap_last_sequence s) = true /\ in_i64 (snap_snapshot_version s) = true.

Record well_formed (db : Db) : Prop := {
  wf_keys : keys_unique db;
  wf_sequences : Forall (fun r => in_i64 (row_sequence r) = true) (db_events db);
  wf_snapshots : map_Forall (fun _ => snapshot_in_range) (db_snapshots db);
}.

Lemma empty_well_formed : well_formed empty_db.
Proof. split; [constructor..|]. by apply map_Forall_empty. Qed.

Lemma committed_version_nonneg stream db : (0 <= committed_version stream db)%Z.
Proof. unfold committed_version. pose proof (max_sequence_nonneg (stream_rows (stream_type stream) (stream_id stream) db)). lia. Qed.

Lemma committed_version_range stream db :
  well_formed db -> (0 <= committed_version stream db <= i64_max)%Z.
Proof.
  intros [_ Hs Hn]. split; [apply committed_version_nonneg|]. unfold committed_version.
  apply Z.max_lub.
  - apply max_sequence_bound; [done|]. apply Forall_forall. intros r Hr.
    apply list_elem_of_filter in Hr as [_ Hr]. rewrite Forall_forall in Hs.
    specialize (Hs r Hr). range.
  - destruct (_ !! _) as [s|] eqn:Hl; simpl; [|done].
    apply Hn in Hl as [Hl _]. simpl in Hl. range.
Qed.

Lemma well_formed_append `{SerdeJson} events db :
  well_formed db -> insertable db events -> well_formed (append_events events db).
Proof.
  intros [Hk Hs Hn] Hi. split; [by apply keys_unique_append| |done].
  apply Forall_app. split; [done|]. apply Forall_forall.
  intros r (e & -> & He)%list_elem_of_fmap. destruct Hi as (Hi & _).
  rewrite Forall_forall in Hi. by apply (Hi e).
Qed.

Lemma well_formed_set_snapshot k s db :
  well_formed db -> snapshot_in_range s -> well_formed (set_snapshot k s db).
Proof. intros [Hk Hs Hn] Hr. split; [done..|]. by apply map_Forall_insert_2. Qed.

Lemma well_formed_set_view t k r db : well_formed db -> well_formed (set_view t k r db).
Proof. by intros []. Qed.
#[export] Hint Resolve well_formed_append well_formed_set_view : sorcery.

Section wf.
Context `{SerdeJson, Chrono, Ulid}.

Lemma well_formed_jobs_flushed jobs db :
  well_formed db -> jobs_accepted jobs db -> well_formed (jobs_flushed jobs db).
Proof.
  revert db. induction jobs as [|r jobs IH]; intros db Hwf Ha; [done|].
  destruct Ha as [(_ & Hi & _) Ha]. apply (IH (job_flushed r db)); [|done].
  unfold job_flushed. auto with sorcery.
Qed.

Lemma well_formed_committed request db :
  well_formed db -> accepted request db -> well_formed (committed request db).
Proof.
  intros Hwf (_ & _ & Hi & Hs & Hj). apply well_formed_jobs_flushed; [|done].
  apply (well_formed_append (cr_events request)) in Hwf; [|done].
  unfold snapshot_written, snapshot_accepted in *. destruct (cr_snapshot request) as [s|]; [|done].
  destruct (last (cr_events request)) as [e|] eqn:Hl; [|done].
  apply well_formed_set_snapshot; [done|]. split; simpl; [|tauto].
  destruct Hi as (Hi & _). rewrite Forall_forall in Hi. by apply Hi, last_Some_elem_of.
Qed.

(** The version of a stream after a versioned commit to it. *)
Lemma committed_version_committed request db v :
  accepted request db -> stream_type (cr_stream request) <> JOB_AGGREGATE_TYPE ->
  cr_expected_version request = Some v ->
  committed_version (cr_stream request) (committed request db) =
    (v + Z.of_nat (length (cr_events request)))%Z.
Proof.
  intros Ha Ht Hv. pose proof Ha as (Hm & Hver & _). unfold version_accepted in Hver.
  rewrite Hv in Hver. destruct Hver as (Hf & Hcv & _).
  unfold committed_version. rewrite committed_stream_rows, max_sequence_app by done.
  unfold committed. rewrite jobs_flushed_snapshots.
  set (n := Z.of_nat _).
  assert (max_sequence (event_row <$> cr_events request) <= Z.max 0 (v + n))%Z as Hhi.
  { apply max_sequence_bound; [lia|]. apply Forall_forall.
    intros r (e & -> & He)%list_elem_of_fmap. simpl.
    pose proof (follow_bounds _ _ _ Hf He). lia. }
  pose proof (committed_version_nonneg (cr_stream request) db) as Hn. rewrite Hcv in Hn.
  unfold committed_version in Hcv.
  destruct (last (cr_events request)) as [e|] eqn:Hl.
  - pose proof (follow_last _ _ _ Hf Hl) as He. fold n in He.
    assert (ev_sequence e <= max_sequence (event_row <$> cr_events request))%Z as Hlo.
    { apply (max_sequence_elem _ (event_row e)), list_elem_of_fmap_2. by apply last_Some_elem_of. }
    unfold snapshot_written. rewrite Hl. destruct (cr_snapshot request); simpl;
      rewrite ?lookup_insert_eq; simpl; lia.
  - apply last_None in Hl. unfold snapshot_written, n. rewrite Hl in *. simpl in *.
    destruct (cr_snapshot request); simpl; lia.
Qed.
End wf.

(** ** Reading back what was committed *)

(** A proposed event whose JSON survives the text format. *)
Definition readable (e : SerializedEvent) : Prop :=
  (0 <= ev_sequence e)%Z /\
  portable (ev_payload e) = true /\ is_value (ev_payload e) = true /\
  portable (ev_metadata e) = true /\ is_value (ev_metadata e) = true.

Section reads.
Context `{SerdeJsonLaws, Chrono, Ulid}.

Lemma serialized_event_row e :
  readable e -> in_i64 (ev_sequence e) = true -> serialized_event (event_row e) = Ok e.
Proof.
  intros (Hs & Hp & Hpv & Hm & Hmv) Hi. unfold serialized_event. simpl.
  unfold usize_try_from. replace (in_usize (ev_sequence e)) with true by (symmetry; range).
  simpl. rewrite !value_from_str_to_string by done. by destruct e.
Qed.

Lemma serialized_events_rows events :
  Forall readable events -> Forall (fun e => in_i64 (ev_sequence e) = true) events ->
  serialized_events (event_row <$> events) = Ok events.
Proof.
  intros Hr Hi. unfold serialized_events. apply collect_Ok. apply Forall2_fmap_l.
  apply Forall_Forall2_diag. rewrite Forall_forall in *. intros e He.
  cbn. by rewrite serialized_event_row by auto.
Qed.

Lemma run_load_events stream after_sequence db :
  run (load_events stream after_sequence) db =
    ((bound ← checkpoint after_sequence;
      serialized_events (select_stream stream bound db)), db).
Proof.
  unfold run, load_events, load_events_on. cbn. destruct (checkpoint after_sequence); reflexivity.
Qed.

Lemma run_current_version stream db :
  run (current_version stream) db =
    (map_err EngInteger (usize_try_from (committed_version stream db)), db).
Proof. done. Qed.

Lemma run_commit_Ok request db db' :
  run (commit request) db = (Ok (), db') ->
  accepted request db /\ db' = committed request db.
Proof.
  intros Hr. pose proof (wp_run _ _ _ (wp_commit false request db)) as Hw.
  rewrite Hr in Hw. simpl in Hw. naive_solver.
Qed.

(** A read of the committed stream: what was there, then the new events. *)
Lemma select_committed request db v bound :
  well_formed db -> accepted request db -> stream_type (cr_stream request) <> JOB_AGGREGATE_TYPE ->
  cr_expected_version request = Some v ->
  from_option (fun b => b <= max_sequence (stream_rows (stream_type (cr_stream request))
                               (stream_id (cr_stream request)) db))%Z True bound ->
  select_stream (cr_stream request) bound (committed request db) =
    select_stream (cr_stream request) bound db ++ (event_row <$> cr_events request).
Proof.
  intros [Hk _ _] Ha Ht Hv Hb. pose proof Ha as (Hm & Hver & Hi & _).
  unfold version_accepted in Hver. rewrite Hv in Hver. destruct Hver as (Hf & Hcv & _).
  apply matches_in_stream in Hm. unfold select_stream.
  rewrite <-(select_events_append _ _ bound); try done.
  - unfold select_events. by rewrite committed_stream_rows, stream_rows_append_same.
  - by eapply follow_sorted.
  - apply Forall_forall. intros e He. pose proof (follow_bounds _ _ _ Hf He).
    unfold committed_version in Hcv. lia.
Qed.

(** Nothing of a stream lies above its version. *)
Lemma select_above_version stream db :
  select_stream stream (Some (committed_version stream db)) db = [].
Proof.
  apply Permutation_nil_r. unfold select_stream. rewrite select_events_perm.
  apply reflexive_eq, list_filter_none. intros r Hr. simpl. rewrite Z.ltb_lt.
  apply max_sequence_elem in Hr. unfold committed_version. lia.
Qed.

(** Reading above a cursor at least as high as everything stored yields only the
    new events. *)
Lemma select_committed_new request db v :
  well_formed db -> accepted request db -> stream_type (cr_stream request) <> JOB_AGGREGATE_TYPE ->
  cr_expected_version request = Some v ->
  select_stream (cr_stream request) (Some v) (committed request db) =
    event_row <$> cr_events request.
Proof.
  intros Hwf Ha Ht Hv. pose proof Ha as (_ & Hver & _). unfold version_accepted in Hver.
  rewrite Hv in Hver. destruct Hver as (Hf & Hcv & _).
  unfold select_stream. change (Some v) with (min_bound None (Some v)).
  rewrite select_events_after by (by apply committed_keys_unique; [apply wf_keys|]).
  fold (select_stream (cr_stream request) None (committed request db)).
  rewrite (select_committed _ _ v) by done. rewrite filter_app.
  rewrite (list_filter_none _ (select_stream _ _ _)), list_filter_all; [done|..].
  - intros r (e & -> & He)%list_elem_of_fmap. simpl. apply Z.ltb_lt.
    by apply (follow_bounds _ _ _ Hf He).
  - intros r Hr. unfold select_stream in Hr. rewrite select_events_perm in Hr.
    apply list_elem_of_filter in Hr as [_ Hr]. apply max_sequence_elem in Hr.
    simpl. rewrite Z.ltb_lt. unfold committed_version in Hcv. lia.
Qed.

(** C13: a versioned commit is read back exactly.  After a successful commit at
    version [v], the stream's version is [v] plus the number of events, a load
    after [v] returns precisely the proposed events, and a full load returns
    what it returned before followed by them, JSON payloads and metadata
    included. *)
Theorem commit_load request db db' v :
  well_formed db -> stream_type (cr_stream request) <> JOB_AGGREGATE_TYPE ->
  cr_expected_version request = Some v -> Forall readable (cr_events request) ->
  run (commit request) db = (Ok (), db') ->
  run (current_version (cr_stream request)) db' =
    (Ok (v + Z.of_nat (length (cr_events request)))%Z, db') /\
  run (load_events (cr_stream request) (Some v)) db' = (Ok (cr_events request), db') /\
  (forall old, run (load_events (cr_stream request) None) db = (Ok old, db) ->
     run (load_events (cr_stream request) None) db' = (Ok (old ++ cr_events request), db')).
Proof.
  intros Hwf Ht Hv Hr Hc. apply run_commit_Ok in Hc as [Ha ->].
  pose proof Ha as (_ & Hver & (Hi & _) & _).
  unfold version_accepted in Hver. rewrite Hv in Hver. destruct Hver as (_ & Hcv & _).
  pose proof (committed_version_range (cr_stream request) _ Hwf) as Hr0. rewrite Hcv in Hr0.
  split_and!.
  - rewrite run_current_version. f_equal.
    pose proof (committed_version_range (cr_stream request) _ (well_formed_committed _ _ Hwf Ha)) as Hr1.
    rewrite (committed_version_committed _ _ v) in * by done.
    unfold usize_try_from. by replace (in_usize _) with true by (symmetry; range).
  - rewrite run_load_events. f_equal. unfold checkpoint, i64_try_from.
    replace (in_i64 v) with true by (symmetry; range). simpl.
    rewrite select_committed_new by done. by apply serialized_events_rows.
  - intros old. rewrite !run_load_events. intros [= Hold]. f_equal. simpl in *.
    rewrite (select_committed _ _ v) by done.
    apply collect_app; [done|]. by apply serialized_events_rows.
Qed.
End reads.

(** ** Snapshots *)

Section snapshots.
Context `{SerdeJson, Chrono, Ulid}.

Abbreviation stream_key stream := (stream_type stream, stream_id stream).

Definition snapshot_of (stream : StreamIdentity) (db : Db) : option StoredSnapshotRow :=
  db_snapshots db !! stream_key stream.

(** The version number the next snapshot of a stream gets. *)
Definition next_snapshot_version (stream : StreamIdentity) (db : Db) : Z :=
  from_option (fun row => snap_snapshot_version row + 1)%Z 1%Z (snapshot_of stream db).

(** When a snapshot at [last_sequence] may be stored. *)
Definition snapshot_storable (stream : StreamIdentity) (snapshot : SnapshotWrite) (db : Db) : Prop :=
  (0 < committed_version stream db)%Z /\
  (sw_last_sequence snapshot <= committed_version stream db)%Z /\
  from_option (fun row => snap_last_sequence row <= sw_last_sequence snapshot)%Z True
    (snapshot_of stream db) /\
  in_i64 (next_snapshot_version stream db) = true /\
  from_option (fun row => is_ok (serialized_snapshot (stream_id stream) row) = true) True
    (snapshot_of stream db).

Definition snapshot_stored (stream : StreamIdentity) (snapshot : SnapshotWrite) (db : Db) : Db :=
  set_snapshot (stream_key stream)
    (mkStoredSnapshotRow (sw_last_sequence snapshot) (next_snapshot_version stream db)
       (to_string (sw_aggregate snapshot))) db.

Lemma serialized_snapshot_Ok id row s :
  serialized_snapshot id row = Ok s ->
  ss_current_sequence s = snap_last_sequence row /\
  ss_current_snapshot s = snap_snapshot_version row /\
  in_usize (snap_last_sequence row) = true /\ in_usize (snap_snapshot_version row) = true.
Proof.
  unfold serialized_snapshot, mret, result_ret. intros Hs.
  autorewrite with sorcery_rw in Hs. destruct Hs as (j & Hj & Hs).
  autorewrite with sorcery_rw in Hs. destruct Hs as (sq & Hsq & Hs).
  autorewrite with sorcery_rw in Hs. destruct Hs as (sv & Hsv & [= <-]).
  autorewrite with sorcery_rw in Hsq, Hsv. naive_solver.
Qed.

Lemma wp_load_snapshot_on b stream db (Q : result EngineError (option SerializedSnapshot) -> Db -> Prop) :
  (b = true -> forall e, Q (Err (EngSql e)) db) ->
  Q match snapshot_of stream db with
    | None => Ok None
    | Some row => Some <$> serialized_snapshot (stream_id stream) row
    end db ->
  wp b (load_snapshot_on stream) db Q.
Proof. intros Hf HQ. unfold load_snapshot_on. repeat wp_step; simpl; [by auto|]. by wp_step. Qed.

Lemma wp_store_snapshot b stream snapshot db :
  well_formed db -> (0 <= sw_last_sequence snapshot)%Z ->
  wp b (store_snapshot stream snapshot) db (fun r db' =>
    match r with
    | Ok v => snapshot_storable stream snapshot db /\ v = next_snapshot_version stream db /\
              db' = snapshot_stored stream snapshot db
    | Err _ => db' = db /\ (b = false -> ~ snapshot_storable stream snapshot db)
    end).
Proof.
  intros Hwf Hz. pose proof (committed_version_range stream db Hwf) as Hcv.
  unfold store_snapshot. wp_step; [by intros ->|].
  unfold store_snapshot_in_transaction. wp_step. apply wp_committed_stream_version; [by intros ->|].
  unfold usize_try_from. replace (in_usize (committed_version stream db)) with true by (symmetry; range).
  simpl. unfold snapshot_storable, next_snapshot_version.
  destruct (Z.eqb_spec (committed_version stream db) 0) as [Hcv0|Hcv0].
  { wp_step. simpl. split; [done|]. intros _ (? & _). lia. }
  destruct (Z.ltb_spec (committed_version stream db) (sw_last_sequence snapshot)) as [Hbeyond|Hbeyond].
  { wp_step. simpl. split; [done|]. intros _ (_ & ? & _). lia. }
  wp_step. apply wp_load_snapshot_on; [by intros ->|].
  destruct (snapshot_of stream db) as [row|] eqn:Hrow; simpl.
  - destruct (serialized_snapshot _ row) as [s|e] eqn:Hs; simpl; [|naive_solver].
    apply serialized_snapshot_Ok in Hs as (Hl & Hv & Hlu & Hvu). rewrite Hl.
    destruct (Z.ltb_spec (sw_last_sequence snapshot) (snap_last_sequence row)).
    { wp_step. simpl. split; [done|]. intros _ (_ & _ & ? & _). lia. }
    wp_step. wp_step. rewrite Hv. unfold usize_checked_add.
    pose proof (wf_snapshots _ Hwf _ _ Hrow) as [_ Hvi]. simpl in Hvi.
    replace (in_usize (snap_snapshot_version row + 1)) with true by (symmetry; range). simpl.
    wp_step. wp_step. unfold i64_try_from.
    replace (in_i64 (sw_last_sequence snapshot)) with true by (symmetry; range). simpl.
    wp_step. wp_step.
    destruct (in_i64 (snap_snapshot_version row + 1)) eqn:Hin; simpl; [|naive_solver].
    wp_step. unfold insert_or_replace_snapshot. repeat wp_step; [by intros ->|]. simpl.
    wp_step. simpl. split_and!; try done; [lia..|].
    unfold snapshot_stored, next_snapshot_version. by rewrite Hrow.
  - wp_step. wp_step. simpl. wp_step. wp_step. unfold i64_try_from.
    replace (in_i64 (sw_last_sequence snapshot)) with true by (symmetry; range). simpl.
    wp_step. wp_step. simpl. wp_step. unfold insert_or_replace_snapshot.
    repeat wp_step; [by intros ->|]. simpl. wp_step. simpl. split_and!; try done; [lia..|].
    unfold snapshot_stored, next_snapshot_version. by rewrite Hrow.
Qed.

(** A snapshot never runs ahead of the stream nor behind an earlier snapshot.
    Storing succeeds only within the committed history and at or past the stored
    snapshot, numbers snapshots consecutively from 1, leaves every stream's version
    and all events as they were, and is read back exactly; otherwise, driver
    failures included, nothing changes.  Without failures an admissible snapshot is
    always stored. *)
Theorem store_snapshot_sound `{!SerdeJsonLaws} stream snapshot w :
  well_formed (w_db w) -> (0 <= sw_last_sequence snapshot)%Z ->
  portable (sw_aggregate snapshot) = true -> is_value (sw_aggregate snapshot) = true ->
  match store_snapshot stream snapshot w with
  | (Ok v, w') =>
      snapshot_storable stream snapshot (w_db w) /\ v = next_snapshot_version stream (w_db w) /\
      db_events (w_db w') = db_events (w_db w) /\
      (forall s, committed_version s (w_db w') = committed_version s (w_db w)) /\
      ((0 <= next_snapshot_version stream (w_db w))%Z -> run (load_snapshot stream) (w_db w') =
        (Ok (Some (mkSerializedSnapshot (stream_id stream) (sw_aggregate snapshot)
                     (sw_last_sequence snapshot) v)), w_db w'))
  | (Err _, w') => w_db w' = w_db w /\
      (w_faults w = [] -> ~ snapshot_storable stream snapshot (w_db w))
  end.
Proof.
  intros Hwf Hz Hp Hval. destruct w as [db fs]. simpl in *.
  pose proof (wp_store_snapshot true stream snapshot db Hwf Hz fs ltac:(done)) as Hw.
  destruct (store_snapshot stream snapshot (mkWorld db fs)) as [[v|e] w'] eqn:Hop; destruct Hw as [_ Hw].
  - destruct Hw as (Hst & -> & ->). split_and!; try done.
    + intros s. pose proof Hst as (_ & Hle & Hold & _).
      unfold committed_version, stream_rows, snapshot_stored, set_snapshot in *. simpl.
      destruct (decide ((stream_type s, stream_id s) = stream_key stream)) as [Heq|Hne].
      * injection Heq as -> ->. rewrite lookup_insert_eq. unfold snapshot_of in Hold. simpl.
        destruct (db_snapshots db !! _); simpl in *; lia.
      * by rewrite lookup_insert_ne by done.
    + intros Hnv. destruct Hst as (_ & Hle & _ & Hin & _).
      pose proof (committed_version_range stream db Hwf). apply wp_run_eq. unfold load_snapshot.
      repeat wp_step; [done|]. simpl. apply wp_load_snapshot_on; [done|].
      unfold snapshot_of, snapshot_stored, set_snapshot. simpl. rewrite lookup_insert_eq.
      unfold serialized_snapshot. simpl. rewrite value_from_str_to_string by done. simpl.
      unfold usize_try_from. replace (in_usize (sw_last_sequence snapshot)) with true by (symmetry; range).
      simpl. by replace (in_usize _) with true by (symmetry; range).
  - destruct Hw as [-> _]. split; [done|]. intros ->.
    pose proof (wp_store_snapshot false stream snapshot db Hwf Hz [] (fun _ => eq_refl)) as Hw.
    rewrite Hop in Hw. naive_solver.
Qed.
End snapshots.

(** ** Compaction *)

Section compaction.
(** A row survives unless its own stream's snapshot covers it. *)
Lemma elem_of_delete_covered t db r :
  r ∈ db_events (delete_covered t db) <-> r ∈ db_events db /\ compactable t db r = false.
Proof. unfold delete_covered; simpl. rewrite list_elem_of_filter. tauto. Qed.

Lemma stream_rows_delete_covered ty i t db :
  stream_rows ty i (delete_covered t db) =
    filter (fun r => compactable t db r = false) (stream_rows ty i db).
Proof.
  unfold stream_rows, delete_covered; simpl. rewrite !list_filter_filter.
  apply list_filter_iff. tauto.
Qed.

Lemma covered_in_stream stream db r :
  r ∈ stream_rows (stream_type stream) (stream_id stream) db -> covered db r = true ->
  (row_sequence r <= from_option snap_last_sequence 0
     (db_snapshots db !! (stream_type stream, stream_id stream)))%Z.
Proof.
  intros [Hs _]%list_elem_of_filter. apply in_stream_true in Hs as [Ht Hi].
  unfold covered. rewrite Ht, Hi. lia.
Qed.

(** Compaction never changes a stream's version. *)
Lemma committed_version_delete_covered stream t db :
  committed_version stream (delete_covered t db) = committed_version stream db.
Proof.
  unfold committed_version. rewrite stream_rows_delete_covered.
  set (rows := stream_rows _ _ db).
  change (db_snapshots (delete_covered t db)) with (db_snapshots db).
  set (s := from_option _ _ _).
  assert (Forall (fun r => covered db r = true -> row_sequence r <= s)%Z rows) as Hc.
  { apply Forall_forall. intros r Hr. by apply covered_in_stream. }
  clearbody rows s. unfold max_sequence.
  induction Hc as [|r rows Hr Hc IH]; [done|]. rewrite filter_cons. case_decide as Hd; simpl.
  - lia.
  - apply not_false_is_true in Hd. unfold compactable in Hd. apply andb_true_iff in Hd as [_ Hd].
    specialize (Hr Hd). lia.
Qed.

Lemma well_formed_delete_covered t db : well_formed db -> well_formed (delete_covered t db).
Proof.
  intros [Hk Hs Hn]. split; [| |done].
  - unfold keys_unique, delete_covered in *; simpl. clear Hs Hn.
    induction (db_events db) as [|r l IH]; [done|]. rewrite fmap_cons, NoDup_cons in Hk.
    destruct Hk as [Hr Hk]. rewrite filter_cons. case_decide; [|by apply IH].
    rewrite fmap_cons. constructor; [|by apply IH].
    intros Hin. apply Hr. apply list_elem_of_fmap in Hin as (r' & Heq & Hin).
    rewrite Heq. apply list_elem_of_fmap_2. by apply list_elem_of_filter in Hin as [_ ?].
  - rewrite Forall_forall in *. intros r [Hr _]%elem_of_delete_covered. auto.
Qed.

(** Reading above the snapshot of a stream does not see compaction. *)
Lemma select_delete_covered stream t b db :
  well_formed db ->
  (from_option snap_last_sequence 0 (db_snapshots db !! (stream_type stream, stream_id stream)) <= b)%Z ->
  select_stream stream (Some b) (delete_covered t db) = select_stream stream (Some b) db.
Proof.
  intros Hwf Hb. apply select_events_char.
  - by apply wf_keys, well_formed_delete_covered.
  - by apply select_events_sorted, wf_keys.
  - unfold select_stream. rewrite select_events_perm. unfold visible.
    rewrite stream_rows_delete_covered, list_filter_filter.
    apply reflexive_eq, list_filter_ext_in. intros r Hr. simpl. rewrite Z.ltb_lt.
    split; [|tauto]. intros Hlt. split; [done|]. apply not_true_is_false. intros Hc.
    apply andb_true_iff in Hc as [_ Hc]. apply (covered_in_stream _ _ _ Hr) in Hc. lia.
Qed.
End compaction.

(** C31: compaction loses nothing that matters.  Under any fault schedule, after
    [compact_events] every stream reports the same version, every read from a
    stream's snapshot on returns the same events, only rows of the given aggregate
    type covered by their own stream's snapshot are gone (and a count of exactly
    those is reported), and snapshots and views are untouched; a [Retain] policy
    deletes nothing. *)
Theorem compaction_sound t policy w :
  well_formed (w_db w) ->
  let '(r, w') := compact_events t policy w in
  (forall stream, committed_version stream (w_db w') = committed_version stream (w_db w)) /\
  (forall stream b,
     (from_option snap_last_sequence 0 (db_snapshots (w_db w) !! (stream_type stream, stream_id stream)) <= b)%Z ->
     select_stream stream (Some b) (w_db w') = select_stream stream (Some b) (w_db w)) /\
  (forall row, row ∈ db_events (w_db w) -> row ∉ db_events (w_db w') ->
     policy = CompactAfterSnapshot /\ row_aggregate_type row = t /\
     exists s, (row_sequence row <= from_option snap_last_sequence 0 s)%Z /\
       s = db_snapshots (w_db w) !! (t, row_aggregate_id row)) /\
  (forall n, r = Ok n -> length (db_events (w_db w)) = n + length (db_events (w_db w'))) /\
  db_snapshots (w_db w') = db_snapshots (w_db w) /\ db_views (w_db w') = db_views (w_db w) /\
  well_formed (w_db w').
Proof.
  intros Hwf. destruct policy; simpl.
  { split_and!; try done; naive_solver. }
  assert (wp true (compact_events t CompactAfterSnapshot) (w_db w) (fun r db' =>
    db' = w_db w /\ is_ok r = false \/ db' = delete_covered t (w_db w) /\
    r = Ok (length (filter (fun r => compactable t (w_db w) r = true) (db_events (w_db w)))))) as Hc.
  { unfold compact_events. apply wp_statement; simpl; auto. }
  apply wp_world in Hc. unfold compact_events in Hc.
  destruct (statement _ w) as [r w']; simpl in *. destruct Hc as [[-> Hr]|[-> ->]].
  { split_and!; try done; intros n ->; done. }
  split_and!; try done.
  - intros stream. apply committed_version_delete_covered.
  - intros stream b. by apply select_delete_covered.
  - intros row Hin Hout. rewrite elem_of_delete_covered in Hout.
    destruct (compactable t (w_db w) row) eqn:Hc; [|naive_solver].
    unfold compactable in Hc. apply andb_true_iff in Hc as [Ht Hc]. apply String.eqb_eq in Ht.
    unfold covered in Hc. rewrite Ht in Hc. apply Z.leb_le in Hc. eauto.
  - intros n [= <-]. simpl. clear Hwf. induction (db_events (w_db w)) as [|x l IH]; [done|].
    rewrite !filter_cons. destruct (compactable t (w_db w) x) eqn:Hx; simpl; lia.
  - by apply well_formed_delete_covered.
Qed.

(** ** Versions only grow *)

Definition version_le (db db' : Db) : Prop :=
  forall stream, (committed_version stream db <= committed_version stream db')%Z.

#[global] Instance version_le_preorder : PreOrder version_le.
Proof.
  split; [intros db stream; lia|]. intros db1 db2 db3 H12 H23 stream.
  etransitivity; [apply H12|apply H23].
Qed.

Lemma version_le_append `{SerdeJson} events db : version_le db (append_events events db).
Proof.
  intros stream. unfold committed_version. cbn [append_events set_events db_snapshots].
  assert (max_sequence (stream_rows (stream_type stream) (stream_id stream) db) <=
    max_sequence (stream_rows (stream_type stream) (stream_id stream) (append_events events db)))%Z.
  { unfold stream_rows, append_events. simpl. rewrite filter_app, max_sequence_app. lia. }
  unfold append_events, set_events in *. simpl in *. lia.
Qed.

Lemma version_le_set_snapshot k s db :
  from_option (fun row => snap_last_sequence row <= snap_last_sequence s)%Z True (db_snapshots db !! k) ->
  version_le db (set_snapshot k s db).
Proof.
  intros Hk stream. unfold committed_version, stream_rows, set_snapshot. simpl.
  pose proof (max_sequence_nonneg (stream_rows (stream_type stream) (stream_id stream) db)) as Hn.
  unfold stream_rows in Hn.
  destruct (decide (k = (stream_type stream, stream_id stream))) as [->|Hne].
  - rewrite lookup_insert_eq. simpl. destruct (db_snapshots db !! _); simpl in *; lia.
  - rewrite lookup_insert_ne by done. lia.
Qed.

Section growth.
Context `{SerdeJson, Chrono, Ulid}.

Lemma version_le_jobs_flushed jobs db : version_le db (jobs_flushed jobs db).
Proof.
  revert db. induction jobs as [|r jobs IH]; intros db; [reflexivity|].
  etransitivity; [|apply (IH (job_flushed r db))]. apply (version_le_append [job_event_of r] db).
Qed.

(** A versioned commit: its snapshot is at the new version. *)
Lemma version_le_committed request db v :
  accepted request db -> cr_expected_version request = Some v ->
  version_le db (committed request db).
Proof.
  intros (Hm & Hver & Hi & Hs & Hj) Hv. unfold version_accepted in Hver. rewrite Hv in Hver.
  destruct Hver as (Hf & Hcv & Hu). unfold committed.
  etransitivity; [|apply version_le_jobs_flushed]. unfold snapshot_written.
  etransitivity; [apply (version_le_append (cr_events request))|].
  destruct (cr_snapshot request) as [s|]; [|reflexivity].
  destruct (last (cr_events request)) as [e|] eqn:Hl; [|reflexivity].
  pose proof (follow_last _ _ _ Hf Hl) as He.
  apply version_le_set_snapshot; simpl.
  unfold committed_version in Hcv. destruct (db_snapshots db !! _) as [row|]; simpl in *; [lia|done].
Qed.

Lemma version_le_snapshot_stored stream snapshot db :
  (0 <= sw_last_sequence snapshot)%Z -> snapshot_storable stream snapshot db ->
  version_le db (snapshot_stored stream snapshot db).
Proof. intros Hz (_ & _ & Hs & _). by apply version_le_set_snapshot. Qed.
End growth.
