(* ===== verification/EnginePaging.v ===== *)
(** * Paging and opaque payloads of the storage engine

    A client that follows the cursor of [load_events_page] reads the whole stream;
    the byte-bounded page is the same page or an explicit refusal; bytes committed
    by a binding through [commit_opaque] come back unchanged, and a native commit
    cannot pass its JSON off as such bytes. *)

From S2P Require Import Prelude Json Sqlite EventTable Lifecycle Job Engine EngineProps.

(** ** Following the cursor *)

(** Strictly increasing rows: what follows the last row of the first [n] is what
    is left after dropping them. *)
Lemma filter_after_take l n r :
  StronglySorted row_lt l -> last (take n l) = Some r ->
  filter (fun x => after (Some (row_sequence r)) x = true) l = drop n l.
Proof.
  intros Hs Hl. rewrite <-(take_drop n l) in Hs at 1. rewrite <-(take_drop n l) at 1.
  rewrite filter_app, (list_filter_none _ (take n l)), list_filter_all; [done|..].
  - intros x Hx. simpl. apply Z.ltb_lt.
    eapply (StronglySorted_app_1_elem_of row_lt); [exact Hs| |done].
    by apply last_Some_elem_of.
  - intros x Hx. simpl. rewrite Z.ltb_lt. apply StronglySorted_app_1_l in Hs.
    apply last_Some in Hl as [l' Hl']. rewrite Hl' in Hs, Hx.
    apply elem_of_app in Hx as [Hx|Hx%list_elem_of_singleton]; [|by subst; lia].
    assert (row_lt x r); [|unfold row_lt in *; lia].
    eapply (StronglySorted_app_1_elem_of row_lt); [exact Hs|done|]. by apply list_elem_of_singleton.
Qed.

Lemma collect_take {E A B} (f : A -> result E B) l ys n :
  collect f l = Ok ys -> collect f (take n l) = Ok (take n ys).
Proof. rewrite !collect_Ok. apply Forall2_take. Qed.
Lemma collect_drop {E A B} (f : A -> result E B) l ys n :
  collect f l = Ok ys -> collect f (drop n l) = Ok (drop n ys).
Proof. rewrite !collect_Ok. apply Forall2_drop. Qed.

Section paging.
Context `{SerdeJson, Chrono, Ulid}.

(** The loop of a client that pages through a stream: it asks for the page after
    the last event it saw until a page comes back empty. *)
Fixpoint load_all (fuel : nat) (stream : StreamIdentity) (cursor : option Z) (limit : positive) :
    M EngineError (list SerializedEvent) :=
  match fuel with
  | 0 => mret []
  | S fuel =>
      page ← load_events_page stream cursor limit;
      match last page with
      | None => mret []
      | Some e =>
          rest ← load_all fuel stream (Some (ev_sequence e)) limit;
          mret (page ++ rest)
      end
  end.

Lemma serialized_event_sequence row e :
  serialized_event row = Ok e -> ev_sequence e = row_sequence row.
Proof.
  unfold serialized_event, mret, result_ret. intros He.
  autorewrite with sorcery_rw in He. destruct He as (sq & Hsq & He).
  autorewrite with sorcery_rw in He. destruct He as (p & _ & He).
  autorewrite with sorcery_rw in He. destruct He as (m & _ & [= <-]).
  autorewrite with sorcery_rw in Hsq. simpl. tauto.
Qed.

Lemma serialized_events_last rows events e :
  serialized_events rows = Ok events -> last events = Some e ->
  row_sequence <$> last rows = Some (ev_sequence e).
Proof.
  unfold serialized_events. rewrite collect_Ok. intros Hf Hl.
  rewrite last_lookup in Hl. rewrite last_lookup, (Forall2_length _ _ _ Hf).
  eapply Forall2_lookup_r in Hf as (row & Hrow & He); [|exact Hl].
  rewrite Hrow. simpl. apply map_err_Ok in He. by rewrite (serialized_event_sequence _ _ He).
Qed.

Lemma wp_load_events_page b stream after_sequence limit db :
  in_i64 (Zpos limit) = true ->
  wp b (load_events_page stream after_sequence limit) db (fun r db' =>
    db' = db /\
    (is_ok r = true \/ b = false ->
     r = (bound ← checkpoint after_sequence;
          serialized_events (select_page stream bound (Zpos limit) db)))).
Proof.
  intros Hl. unfold load_events_page, i64_try_from. rewrite Hl. repeat wp_step. simpl.
  repeat wp_step. destruct (checkpoint after_sequence) as [bound|e]; simpl; [|done].
  repeat wp_step; [by intros -> e; simpl; naive_solver|]. simpl. by wp_step.
Qed.

Lemma load_all_spec fuel stream cursor bound limit db all :
  well_formed db -> in_i64 (Zpos limit) = true -> checkpoint cursor = Ok bound ->
  serialized_events (select_stream stream bound db) = Ok all -> length all < fuel ->
  wp false (load_all fuel stream cursor limit) db (fun r db' => r = Ok all /\ db' = db).
Proof.
  intros Hwf Hl. revert cursor bound all. induction fuel as [|fuel IH]; [lia|].
  intros cursor bound all Hb Hall Hfuel. cbn [load_all]. wp_step.
  eapply wp_mono; [by apply wp_load_events_page|]. intros r db' [-> Hr].
  rewrite Hr by auto. rewrite Hb. cbn [mbind result_bind]. set (n := Z.to_nat (Zpos limit)).
  assert (serialized_events (select_page stream bound (Zpos limit) db) = Ok (take n all)) as Hpage
    by (by apply collect_take).
  rewrite Hpage. destruct (last (take n all)) as [e|] eqn:Hlast.
  - destruct (last (select_page stream bound (Zpos limit) db)) as [row|] eqn:Hrow.
    2:{ pose proof (serialized_events_last _ _ _ Hpage Hlast) as He. by rewrite Hrow in He. }
    pose proof (serialized_events_last _ _ _ Hpage Hlast) as He. rewrite Hrow in He.
    injection He as He. rewrite <-He.
    assert (row ∈ select_stream stream bound db) as Hin.
    { apply last_Some_elem_of in Hrow. unfold select_page in Hrow.
      eapply elem_of_subseteq; [|exact Hrow]. apply subseteq_take. }
    pose proof Hin as Hvis. unfold select_stream in Hvis.
    rewrite elem_of_select, elem_of_visible in Hvis. destruct Hvis as (Hev & _ & _ & Haft).
    pose proof (wf_sequences _ Hwf) as Hseq. rewrite Forall_forall in Hseq.
    wp_step. eapply wp_mono; [eapply (IH (Some (row_sequence row)) (Some (row_sequence row)) (drop n all))|].
    + unfold checkpoint, i64_try_from. rewrite (Hseq row Hev). reflexivity.
    + replace (select_stream stream (Some (row_sequence row)) db)
        with (drop n (select_stream stream bound db)); [by apply collect_drop|].
      rewrite <-(filter_after_take _ n row); [|by apply select_events_sorted, wf_keys|done].
      unfold select_stream. rewrite <-select_events_after by (by apply wf_keys).
      f_equal. destruct bound as [b|]; simpl in *; [|done]. f_equal. lia.
    + rewrite length_drop. apply last_Some_elem_of in Hlast.
      assert (n > 0) by (unfold n; lia). destruct all; [|simpl in *; lia].
      rewrite take_nil in Hlast. by apply not_elem_of_nil in Hlast.
    + intros r' db' [-> ->]. wp_step. split; [|done]. by rewrite take_drop.
  - wp_step. split; [|done]. apply last_None in Hlast.
    destruct all as [|x all]; [done|]. unfold n in Hlast.
    destruct (Z.to_nat (Z.pos limit)) eqn:Hn; [lia|done].
Qed.

(** C30: paging is complete and terminates.  Following the cursor of
    [load_events_page] with any page size until an empty page returns exactly
    what one unbounded load returns, in at most one request per event and one
    more. *)
Theorem paging_complete stream after_sequence limit db all :
  well_formed db -> in_i64 (Zpos limit) = true ->
  run (load_events stream after_sequence) db = (Ok all, db) ->
  run (load_all (S (length all)) stream after_sequence limit) db = (Ok all, db).
Proof.
  intros Hwf Hl Hload. rewrite run_load_events in Hload. injection Hload as Hload.
  apply bind_Ok in Hload as (bound & Hb & Hall).
  apply wp_run_eq, (load_all_spec _ _ _ bound); auto with lia.
Qed.

(** ** Byte-bounded pages *)

Definition page_bytes (rows : list StoredEventRow) : Z :=
  fold_right (fun r n => (row_bytes r + n)%Z) 0%Z rows.

Lemma page_bytes_nonneg rows : (0 <= page_bytes rows)%Z.
Proof. unfold page_bytes, row_bytes. induction rows; simpl; lia. Qed.

Lemma bounded_page_run stream after_sequence bound item_limit byte_limit db :
  in_i64 (Zpos item_limit) = true -> checkpoint after_sequence = Ok bound ->
  let bytes := page_bytes (select_page stream bound (Zpos item_limit) db) in
  in_i64 bytes = true ->
  run (load_events_page_bounded stream after_sequence item_limit byte_limit) db =
    (if (bytes <=? Zpos byte_limit)%Z
     then serialized_events (select_page stream bound (Zpos item_limit) db)
     else Err (EventPageTooLarge bytes (Zpos byte_limit)), db).
Proof.
  intros Hl Hb bytes Hbytes. apply wp_run_eq.
  assert (in_usize bytes = true) as Hu
    by (pose proof (page_bytes_nonneg (select_page stream bound (Zpos item_limit) db)); range).
  unfold load_events_page_bounded, i64_try_from. rewrite Hl. repeat wp_step. simpl.
  repeat wp_step; [done|]. rewrite Hb. repeat wp_step. apply wp_statement; [done|].
  unfold sum_bytes. fold (page_bytes (select_page stream bound (Zpos item_limit) db)).
  fold bytes. rewrite Hbytes. simpl. repeat wp_step. unfold usize_try_from. rewrite Hu. simpl.
  rewrite Z.leb_antisym. destruct (Z.pos byte_limit <? bytes)%Z; repeat wp_step; [done..|].
  simpl. by wp_step.
Qed.

(** A byte-bounded page is all or nothing.  The page's stored size decides:
    up to the limit the call returns precisely what the unbounded page returns,
    above it the call reports the observed size and returns no events; the
    database is not touched either way. *)
Theorem bounded_page stream after_sequence bound item_limit byte_limit db :
  in_i64 (Zpos item_limit) = true -> checkpoint after_sequence = Ok bound ->
  let bytes := page_bytes (select_page stream bound (Zpos item_limit) db) in
  in_i64 bytes = true ->
  run (load_events_page_bounded stream after_sequence item_limit byte_limit) db =
    if (bytes <=? Zpos byte_limit)%Z
    then run (load_events_page stream after_sequence item_limit) db
    else (Err (EventPageTooLarge bytes (Zpos byte_limit)), db).
Proof.
  intros Hl Hb bytes Hbytes. rewrite (bounded_page_run _ _ bound) by done. fold bytes.
  case_match; [|done]. symmetry. apply wp_run_eq.
  eapply wp_mono; [by apply wp_load_events_page|]. intros r db' [-> ->]; [|by right].
  by rewrite Hb.
Qed.
End paging.

(** ** Opaque payloads *)

(** A payload of bytes. *)
Definition is_bytes (payload : list Z) : Prop := Forall (fun b => in_u8 b = true) payload.

Lemma encode_opaque_payload_eq payload :
  encode_opaque_payload payload =
    JObject [("$event-sorcery-engine-payload",
              JObject [("bytes", JArray (JInt <$> payload)); ("version", JInt 1)])].
Proof.
  unfold encode_opaque_payload. simpl. rewrite map_map.
  by rewrite (map_ext _ JInt) by done.
Qed.

Lemma encode_opaque_payload_portable payload :
  is_bytes payload ->
  portable (encode_opaque_payload payload) = true /\ is_value (encode_opaque_payload payload) = true.
Proof.
  intros Hb. rewrite encode_opaque_payload_eq. split.
  - unfold portable. apply andb_true_iff. split.
    + simpl. rewrite !andb_true_r. apply forallb_forall. intros j Hj.
      apply list_elem_of_In, list_elem_of_fmap in Hj as (z & -> & Hz).
      unfold is_bytes in Hb. rewrite Forall_forall in Hb. specialize (Hb z Hz). simpl.
      unfold in_u8 in Hb. range.
    + simpl. rewrite map_map.
      assert (max_list (map (fun x => depth (JInt x)) payload) = 0) as ->; [|done].
      clear Hb. induction payload; [done|]. simpl in *. by rewrite IHpayload.
  - apply bool_decide_eq_true. simpl. rewrite map_map. by rewrite (map_ext _ JInt) by done.
Qed.

Lemma mapM_as_int payload :
  is_bytes payload -> mapM (as_int in_u8) (JInt <$> payload) = Some payload.
Proof.
  intros Hb. apply mapM_Some. apply Forall2_fmap_l, Forall_Forall2_diag.
  unfold is_bytes in Hb. rewrite Forall_forall in *. intros z Hz. simpl. by rewrite Hb.
Qed.

Lemma opaque_payload_decodes payload :
  is_bytes payload -> decode_opaque_payload (encode_opaque_payload payload) = Ok payload.
Proof.
  intros Hb. rewrite encode_opaque_payload_eq. unfold decode_opaque_payload.
  set (envelope := mbind _ _).
  assert (envelope = Some (1%Z, payload)) as ->; [|done].
  transitivity (bytes ← mapM (as_int in_u8) (JInt <$> payload); Some (1%Z, bytes)); [done|].
  by rewrite mapM_as_int.
Qed.

Section opaque.
Context `{SerdeJsonLaws, Chrono, Ulid}.

(** What a binding gets back for the event it proposed at [sequence]. *)
Definition stored_of (sequence : Z) (event : OpaqueProposedEvent) : OpaqueStoredEvent :=
  mkOpaqueStored sequence (prop_event_type event) (prop_event_version event) (prop_payload event).

Fixpoint stored_from (sequence : Z) (events : list OpaqueProposedEvent) : list OpaqueStoredEvent :=
  match events with
  | [] => []
  | event :: events => stored_of sequence event :: stored_from (sequence + 1) events
  end.

Lemma opaque_events_decode stream v i events serialized :
  Forall (fun e => is_bytes (prop_payload e)) events -> (0 <= v)%Z -> (0 <= i)%Z ->
  collect_from (opaque_event stream v) i events = Ok serialized ->
  Forall readable serialized /\ events_follow_from v i serialized = true /\
  length serialized = length events /\
  collect decode_opaque_event serialized = Ok (stored_from (v + i + 1) events).
Proof.
  intros Hb Hv. revert i serialized. induction Hb as [|e events He Hb IH]; intros i serialized Hi Hc.
  { injection Hc as <-. by repeat constructor. }
  cbn [collect_from] in Hc. unfold opaque_event at 1 in Hc.
  destruct (sequence_at v i) as [sq|] eqn:Hsq; simpl in Hc; [|done].
  destruct (collect_from _ (i + 1) events) as [ys|] eqn:Hys; [|done]. injection Hc as <-.
  apply IH in Hys as (Hr & Hf & Hlen & Hd); [|lia].
  pose proof Hsq as Hsq'. unfold sequence_at in Hsq'. apply bind_Some in Hsq' as (x & Hx & Hs).
  apply usize_checked_add_Some in Hx as [-> _], Hs as [-> Hu].
  destruct (encode_opaque_payload_portable _ He) as [Hp Hpv]. split_and!.
  - constructor; [|done]. split_and!; simpl; [lia|done..].
  - cbn [events_follow_from ev_sequence]. rewrite Hf, andb_true_r. by apply bool_decide_eq_true.
  - simpl. by rewrite Hlen.
  - cbn [collect stored_from]. unfold decode_opaque_event at 1.
    cbn [ev_metadata ev_payload ev_sequence ev_event_type ev_event_version].
    rewrite opaque_payload_decodes by done. cbn. rewrite Hd.
    unfold stored_of. do 3 f_equal. lia.
Qed.

Lemma wp_commit_opaque b request db :
  wp b (commit_opaque request) db (fun r db' =>
    (is_ok r = false -> db' = db) /\
    (is_ok r = true -> exists serialized,
       let commit := mkCommit (ocr_stream request) (Some (ocr_expected_version request))
                       serialized None (ocr_jobs request) in
       collect_from (opaque_event (ocr_stream request) (ocr_expected_version request)) 0
         (ocr_events request) = Ok serialized /\
       accepted commit db /\ db' = committed commit db)).
Proof.
  destruct request as [stream v events jobs]. unfold commit_opaque. wp_step. wp_step.
  cbn [ocr_stream ocr_expected_version ocr_events ocr_jobs].
  destruct (collect_from _ _ _) as [serialized|e] eqn:Hc; [|done].
  eapply wp_mono; [apply wp_commit_serialized|]. intros [[]|e] db'; simpl; [|naive_solver].
  intros [[Ha ->] _]. split; [done|]. intros _. by exists serialized.
Qed.

Lemma run_commit_opaque_Ok request db db' :
  run (commit_opaque request) db = (Ok (), db') ->
  exists serialized,
    let commit := mkCommit (ocr_stream request) (Some (ocr_expected_version request))
                    serialized None (ocr_jobs request) in
    collect_from (opaque_event (ocr_stream request) (ocr_expected_version request)) 0
      (ocr_events request) = Ok serialized /\
    accepted commit db /\ db' = committed commit db.
Proof.
  intros Hr. pose proof (wp_run _ _ _ (wp_commit_opaque false request db)) as [_ Hw].
  rewrite Hr in Hw. by apply Hw.
Qed.

(** The page that holds all the events of a commit. *)
Lemma select_page_committed request db v limit :
  well_formed db -> accepted request db -> stream_type (cr_stream request) <> JOB_AGGREGATE_TYPE ->
  cr_expected_version request = Some v -> (Z.of_nat (length (cr_events request)) <= limit)%Z ->
  select_page (cr_stream request) (Some v) limit (committed request db) =
    event_row <$> cr_events request.
Proof.
  intros Hwf Ha Ht Hv Hl. unfold select_page. rewrite select_committed_new by done.
  apply take_ge. rewrite length_fmap. lia.
Qed.

(** The opaque page after an applied commit. *)
Lemma opaque_page_committed stream v events jobs serialized db item_limit byte_limit :
  let commit := mkCommit stream (Some v) serialized None jobs in
  well_formed db -> stream_type stream <> JOB_AGGREGATE_TYPE -> Forall (fun e => is_bytes (prop_payload e)) events ->
  collect_from (opaque_event stream v) 0 events = Ok serialized -> accepted commit db ->
  in_i64 (Zpos item_limit) = true -> (Z.of_nat (length events) <= Zpos item_limit)%Z ->
  let bytes := page_bytes (select_page stream (Some v) (Zpos item_limit) (committed commit db)) in
  (bytes <= Zpos byte_limit)%Z -> in_i64 bytes = true ->
  run (load_opaque_events_page_bounded stream (Some v) item_limit byte_limit) (committed commit db) =
    (Ok (stored_from (v + 1) events), committed commit db).
Proof.
  intros commit Hwf Ht Hb Hs Ha Hil Hlen bytes Hbl Hbytes.
  pose proof Ha as (_ & (Hf & Hcv & Hu) & (Hi & _) & _). simpl in Hf, Hcv, Hu, Hi.
  pose proof (committed_version_range stream db Hwf) as Hrange. rewrite Hcv in Hrange.
  apply opaque_events_decode in Hs as (Hr & _ & Hlen' & Hd); [|done|lia|lia].
  assert (checkpoint (Some v) = Ok (Some v)) as Hcp.
  { unfold checkpoint, i64_try_from. by replace (in_i64 v) with true by (symmetry; range). }
  assert (select_page stream (Some v) (Zpos item_limit) (committed commit db) = event_row <$> serialized) as Hpage.
  { apply (select_page_committed commit db v); try done. simpl. lia. }
  pose proof (bounded_page_run stream (Some v) (Some v) item_limit byte_limit
    (committed commit db) Hil Hcp Hbytes) as Hrun. fold bytes in Hrun.
  apply Z.leb_le in Hbl. rewrite Hbl in Hrun.
  rewrite Hpage, serialized_events_rows in Hrun by done.
  unfold load_opaque_events_page_bounded. rewrite run_bind_lift, Hrun. cbn [fst snd mbind result_bind].
  rewrite Hd. do 3 f_equal. lia.
Qed.

(** Bytes committed through a binding come back bit for bit.  After a
    successful [commit_opaque] at version [v], the opaque page after [v] that is
    large enough for the batch returns, in order and numbered from [v + 1], the
    proposed types, versions and payload bytes, and nothing else. *)
Theorem opaque_commit_round_trip request db db' item_limit byte_limit :
  well_formed db -> stream_type (ocr_stream request) <> JOB_AGGREGATE_TYPE ->
  Forall (fun e => is_bytes (prop_payload e)) (ocr_events request) ->
  run (commit_opaque request) db = (Ok (), db') ->
  in_i64 (Zpos item_limit) = true ->
  (Z.of_nat (length (ocr_events request)) <= Zpos item_limit)%Z ->
  let v := ocr_expected_version request in
  let bytes := page_bytes (select_page (ocr_stream request) (Some v) (Zpos item_limit) db') in
  (bytes <= Zpos byte_limit)%Z -> in_i64 bytes = true ->
  run (load_opaque_events_page_bounded (ocr_stream request) (Some v) item_limit byte_limit) db' =
    (Ok (stored_from (v + 1) (ocr_events request)), db').
Proof.
  intros Hwf Ht Hb Hc Hil Hlen v bytes Hbl Hbytes.
  apply run_commit_opaque_Ok in Hc as (serialized & Hs & Ha & ->).
  by apply (opaque_page_committed _ _ _ _ serialized).
Qed.
End opaque.

(** A native event as the opaque interface shows it: the text of its payload. *)
Definition native_view `{SerdeJson} (event : SerializedEvent) : OpaqueStoredEvent :=
  mkOpaqueStored (ev_sequence event) (ev_event_type event) (ev_event_version event)
    (byte_of_ascii <$> String.list_ascii_of_string (to_string (ev_payload event))).

(** A native commit cannot forge engine-owned bytes.  Any event that [commit]
    accepts, whatever metadata its caller attached, is read through the opaque
    interface as the text of its own JSON payload, never as the contents of an
    envelope the caller wrote. *)
Theorem native_events_not_opaque `{SerdeJson, Chrono, Ulid} request w w' event :
  commit request w = (Ok (), w') -> event ∈ cr_events request ->
  decode_opaque_event event = Ok (native_view event).
Proof.
  intros Hc Hin. pose proof (wp_world _ _ _ (wp_commit true request (w_db w))) as Hw.
  rewrite Hc in Hw. destruct Hw as [[[Hu _] _] _]. unfold unreserved in Hu.
  rewrite Forall_forall in Hu. specialize (Hu _ Hin). unfold decode_opaque_event.
  replace (has_engine_payload_provenance (ev_metadata event)) with false; [done|].
  destruct (ev_metadata event); try done. simpl in *.
  apply bool_decide_eq_false in Hu. destruct (assoc _ kvs); [by destruct Hu|].
  by rewrite andb_false_r.
Qed.
