(* ===== verification/ViewRepository.v ===== *)
(** * View tables: the SQLite view repository

    Models src/crates/sqlite-es/src/view_repository.rs: loading a view, the
    optimistic-lock update, and the predicate scan [find]; and the generated
    columns of the [job_queue] table
    (src/crates/sqlite-es/migrations/20260627223938_job_queue_event_sourced_view.sql).

    SQLite's JSON functions belong to SQLite: [SqliteJson] is its JSON reader, with
    the law that it reads what [serde_json] wrote.  The order in which SQLite scans
    a table, which decides between rows equal under [ORDER BY], is the parameter
    [TableScan]; no theorem depends on it. *)

From S2P Require Import Prelude Json Sqlite EventTable.

Class SqliteJson := { json_read : string -> option Json }.
Class SqliteJsonLaws `{SerdeJson, SqliteJson} := {
  json_read_to_string : forall j, portable j = true -> json_read (to_string j) = Some j;
}.

Class TableScan := { scan : gmap string ViewRow -> list (string * ViewRow) }.
Class TableScanLaws `{TableScan} := { scan_perm : forall m, scan m ≡ₚ map_to_list m }.

(** ** Errors *)

Inductive SqliteViewError : Type :=
| ViewOptimisticLock
| ViewConnection (e : SqlxError)
| ViewSerialization (e : JsonError)
| ViewDeserialization (e : JsonError)
| ViewTryFromInt (e : TryFromIntError).

Definition persistence_of_view_error (err : SqliteViewError) : PersistenceError :=
  match err with
  | ViewOptimisticLock => OptimisticLockError
  | ViewConnection e => ConnectionError e
  | ViewSerialization _ => UnknownError
  | ViewDeserialization e => DeserializationError e
  | ViewTryFromInt _ => UnknownError
  end.

(** ** Loading and updating one view *)

Record ViewContext : Type := mkViewContext {
  view_instance_id : string;
  ctx_version : Z;
}.

(** [INSERT INTO t (view_id, version, payload) VALUES (?, ?, ?)]. *)
Definition insert_view (t view_id : string) (version : Z) (payload : string) (db : Db) :
    result SqlxError (() * Db) :=
  match view_table t db !! view_id with
  | Some _ => Err unique_violation_error
  | None => Ok ((), set_view t view_id (mkViewRow version payload None) db)
  end.

(** [UPDATE t SET version = ?, payload = ? WHERE view_id = ? AND version = ?]; the
    number of rows affected.  No other column is written. *)
Definition update_view_row (t : string) (version : Z) (payload view_id : string) (expected : Z) (db : Db) :
    nat * Db :=
  match view_table t db !! view_id with
  | Some row =>
      if (view_version row =? expected)%Z
      then (1, set_view t view_id (mkViewRow version payload (view_lease_until row)) db)
      else (0, db)
  | None => (0, db)
  end.

Section view.
Context `{SerdeJson} {V : Type} `{Serde V}.

Definition view_from_str (s : string) : result JsonError V := ok_or Malformed (from_str s ≫= de).

Definition load_view (t view_id : string) : M PersistenceError (option V) :=
  row ← lift_err ConnectionError (query (fun db => view_table t db !! view_id));
  lift (match row with
        | None => Ok None
        | Some row => Some <$> map_err DeserializationError (view_from_str (view_payload row))
        end).

Definition load_with_context (t view_id : string) : M PersistenceError (option (V * ViewContext)) :=
  row ← lift_err ConnectionError (query (fun db => view_table t db !! view_id));
  lift (match row with
        | None => Ok None
        | Some row =>
            (fun view => Some (view, mkViewContext view_id (view_version row))) <$>
            map_err DeserializationError (view_from_str (view_payload row))
        end).

Definition update_view (t : string) (view : V) (context : ViewContext) : M PersistenceError () :=
  let payload := to_string (ser view) in
  let new_version := i64_add (ctx_version context) 1 in
  if (ctx_version context =? 0)%Z
  then lift_err ConnectionError (statement (insert_view t (view_instance_id context) new_version payload))
  else
    rows_affected ← lift_err ConnectionError
      (statement (fun db => Ok (update_view_row t new_version payload
                                  (view_instance_id context) (ctx_version context) db)));
    if (rows_affected =? 0)%nat then fail OptimisticLockError else mret ().

(** ** Contracts *)

Lemma wp_load_with_context b t view_id db :
  wp b (load_with_context t view_id) db (fun r db' =>
    db' = db /\
    (b = false \/ is_ok r = true ->
     r = match view_table t db !! view_id with
         | None => Ok None
         | Some row =>
             (fun view => Some (view, mkViewContext view_id (view_version row))) <$>
             map_err DeserializationError (view_from_str (view_payload row))
         end)).
Proof.
  unfold load_with_context. repeat wp_step; [intros ->; simpl; naive_solver|]. simpl. by wp_step.
Qed.

Lemma wp_update_view b t (view : V) context db :
  wp b (update_view t view context) db (fun r db' =>
    match r with
    | Err _ => db' = db
    | Ok _ =>
        let row lease := mkViewRow (i64_add (ctx_version context) 1) (to_string (ser view)) lease in
        (ctx_version context = 0%Z /\ view_table t db !! view_instance_id context = None /\
         db' = set_view t (view_instance_id context) (row None) db) \/
        (exists old, view_table t db !! view_instance_id context = Some old /\
           view_version old = ctx_version context /\
           db' = set_view t (view_instance_id context) (row (view_lease_until old)) db)
    end).
Proof.
  unfold update_view. destruct (Z.eqb_spec (ctx_version context) 0) as [H0'|H0'].
  - wp_step. apply wp_statement; [done|]. unfold insert_view.
    destruct (view_table t db !! _) eqn:Hv; [done|]. left. done.
  - wp_step. wp_step. apply wp_statement; [done|]. simpl. unfold update_view_row.
    destruct (view_table t db !! _) as [old|] eqn:Hv; [|simpl; by wp_step].
    destruct (Z.eqb_spec (view_version old) (ctx_version context)); simpl; wp_step; [|done].
    right. by exists old.
Qed.

End view.

(** ** Columns *)

Inductive Value : Type := VInt (z : Z) | VText (s : string).
#[global] Instance Value_eq_dec : EqDecision Value.
Proof. solve_decision. Defined.

(** [json_extract(payload, '$.a.b')] as a SQL value: [None] is [NULL]. *)
Fixpoint json_path (path : list string) (j : Json) : option Json :=
  match path with
  | [] => Some j
  | k :: path => match j with JObject kvs => assoc k kvs ≫= json_path path | _ => None end
  end.

(** Containers and floats are not compared by the queries of the crate. *)
Definition sql_value (j : Json) : option Value :=
  match j with
  | JInt z => Some (VInt z)
  | JString s => Some (VText s)
  | JBool b => Some (VInt (if b then 1 else 0))
  | _ => None
  end.

Definition json_extract `{SqliteJson} (payload : string) (path : list string) : option Value :=
  (json_read payload ≫= json_path path) ≫= sql_value.
(** [json_type(payload, path) IS NOT NULL]. *)
Definition json_has `{SqliteJson} (payload : string) (path : list string) : bool :=
  bool_decide (is_Some (json_read payload ≫= json_path path)).

Definition coalesce {A} (a b : option A) : option A := match a with Some _ => a | None => b end.

(** The generated columns of [job_queue]. *)
Definition job_kind `{SqliteJson} (payload : string) : option Value :=
  coalesce (json_extract payload ["Live"; "Pending"; "kind"])
           (json_extract payload ["Live"; "Claimed"; "kind"]).
Definition job_status `{SqliteJson} (payload : string) : option Value :=
  if json_has payload ["Live"; "Pending"] then Some (VText "pending")
  else if json_has payload ["Live"; "Claimed"] then Some (VText "claimed")
  else if bool_decide (json_extract payload ["Live"] = Some (VText "Done")) then Some (VText "done")
  else if json_has payload ["Live"; "Dead"] then Some (VText "dead")
  else None.
Definition job_run_at `{SqliteJson} (payload : string) : option Value :=
  coalesce (json_extract payload ["Live"; "Pending"; "run_at"])
           (json_extract payload ["Live"; "Claimed"; "run_at"]).

(** A column of a [job_queue] row; [None] is [NULL]. *)
Definition job_column `{SqliteJson} (view_id : string) (row : ViewRow) (column : string) :
    option Value :=
  if String.eqb column "view_id" then Some (VText view_id)
  else if String.eqb column "version" then Some (VInt (view_version row))
  else if String.eqb column "payload" then Some (VText (view_payload row))
  else if String.eqb column "lease_until" then VInt <$> view_lease_until row
  else if String.eqb column "kind" then job_kind (view_payload row)
  else if String.eqb column "status" then job_status (view_payload row)
  else if String.eqb column "run_at" then job_run_at (view_payload row)
  else None.

Definition job_columns : list string :=
  ["view_id"; "version"; "payload"; "lease_until"; "kind"; "status"; "run_at"].

(** ** The predicate scan *)

Inductive Cmp : Type := CmpEq | CmpLt | CmpLe | CmpGt | CmpGe | CmpIsNull | CmpIsNotNull.

Record Term : Type := mkTerm {
  term_column : string;
  term_cmp : Cmp;
  term_value : option Value;
}.

Record Predicate : Type := mkPredicate { any_of : list (list Term) }.
Record Order : Type := mkOrder { order_column : string; order_ascending : bool }.

(** SQLite's order across storage classes: integers sort before text. *)
Definition value_compare (a b : Value) : comparison :=
  match a, b with
  | VInt x, VInt y => (x ?= y)%Z
  | VInt _, VText _ => Lt
  | VText _, VInt _ => Gt
  | VText x, VText y => String.compare x y
  end.

(** An operand that is [NULL] makes a comparison [NULL], which a [WHERE] does not
    accept. *)
Definition eval_term (col : option Value) (cmp : Cmp) (value : option Value) : bool :=
  match cmp, col, value with
  | CmpIsNull, None, _ => true
  | CmpIsNotNull, Some _, _ => true
  | CmpEq, Some c, Some v => match value_compare c v with Eq => true | _ => false end
  | CmpLt, Some c, Some v => match value_compare c v with Lt => true | _ => false end
  | CmpLe, Some c, Some v => match value_compare c v with Gt => false | _ => true end
  | CmpGt, Some c, Some v => match value_compare c v with Gt => true | _ => false end
  | CmpGe, Some c, Some v => match value_compare c v with Lt => false | _ => true end
  | _, _, _ => false
  end.

(** Whether the generated statement parses: known columns, a value exactly for the
    comparisons that take one, and no empty conjunction. *)
Definition term_parses (t : Term) : bool :=
  bool_decide (term_column t ∈ job_columns) &&
  match term_cmp t, term_value t with
  | (CmpIsNull | CmpIsNotNull), None => true
  | (CmpIsNull | CmpIsNotNull), Some _ => false
  | _, Some _ => true
  | _, None => false
  end.
Definition conjunction_parses (terms : list Term) : bool :=
  match terms with [] => false | _ => forallb term_parses terms end.
Definition query_parses (p : Predicate) (order : option Order) : bool :=
  forallb conjunction_parses (any_of p) &&
  match order with None => true | Some o => bool_decide (order_column o ∈ job_columns) end.

Section find.
Context `{SqliteJson, TableScan}.

Definition eval_conjunction (view_id : string) (row : ViewRow) (terms : list Term) : bool :=
  forallb (fun t => eval_term (job_column view_id row (term_column t)) (term_cmp t) (term_value t))
    terms.

Definition eval_predicate (view_id : string) (row : ViewRow) (p : Predicate) : bool :=
  existsb (eval_conjunction view_id row) (any_of p).

(** [NULL] sorts first. *)
Definition column_le (asc : bool) (a b : option Value) : bool :=
  let le x y :=
    match x, y with
    | None, _ => true
    | Some _, None => false
    | Some x, Some y => match value_compare x y with Gt => false | _ => true end
    end in
  if asc then le a b else le b a.

Definition order_le (order : Order) (x y : string * ViewRow) : Prop :=
  column_le (order_ascending order)
    (job_column x.1 x.2 (order_column order))
    (job_column y.1 y.2 (order_column order)) = true.

#[global] Instance order_le_dec order : RelDecision (order_le order).
Proof. intros x y. unfold order_le. apply _. Defined.

(** A negative [LIMIT] is no limit. *)
Definition sql_limit {A} (limit : Z) (l : list A) : list A :=
  if (limit <? 0)%Z then l else take (Z.to_nat limit) l.

(** The ids a scan of [job_queue] selects. *)
Definition select_jobs (p : Predicate) (order : option Order) (limit : Z)
    (m : gmap string ViewRow) : list string :=
  let rows := filter (fun kr => eval_predicate kr.1 kr.2 p = true) (scan m) in
  let rows := match order with None => rows | Some order => merge_sort (order_le order) rows end in
  sql_limit limit rows.*1.

Definition find (t : string) (p : Predicate) (order : option Order) (limit : Z) :
    M PersistenceError (list string) :=
  match any_of p with
  | [] => mret []
  | _ =>
      lift_err ConnectionError
        (statement (fun db =>
           if query_parses p order
           then Ok (select_jobs p order limit (view_table t db), db)
           else Err (SqlxDatabase (Some "1") false "syntax error")))
  end.
End find.
