(* ===== verification/JobQueue.v ===== *)
(** * The durable job queue

    Models the job primitives of src/crates/event-sorcery/src/engine.rs
    ([claim_job], [renew_job], [enqueue_job] and the transaction helpers they run
    in), and the worker poll of src/crates/event-sorcery/src/job_backend.rs
    ([poll_predicate], [poll_order]).

    A job is an event stream ([aggregate_type = 'job']) and one [job_queue] row that
    projects a prefix of it.  Claims append under the stream's primary key and
    write the row in the same transaction; settlements append through the command
    path and reach the row later, through the projection.  [job_inv] relates the
    two at every moment. *)

From S2P Require Import Prelude Json Sqlite EventTable Lifecycle Job Engine EngineProps.
From S2P Require Import ViewRepository.

Inductive SqliteJobError : Type :=
| JobSql (e : SqlxError)
| JobAppend (e : SqliteAggregateError)
| JobSequence (e : TryFromIntError)
| DuplicateEnqueue (job_id : string).
#[global] Instance SqliteJobError_eq_dec : EqDecision SqliteJobError.
Proof. solve_decision. Defined.

(** ** Transactions with a rollback verdict *)

Inductive TransactionOutcome (Output : Type) : Type :=
| TxCommit (output : Output)
| TxRollback (output : Output).
Arguments TxCommit {Output}.
Arguments TxRollback {Output}.

(** The error of a failed rollback is logged when the operation itself failed, and
    returned otherwise. *)
Definition immediate_transaction {A} (operation : M SqliteJobError (TransactionOutcome A)) :
    M SqliteJobError A :=
  fun w =>
    match lift_err JobSql begin_tx w with
    | (Err e, w) => (Err e, w)
    | (Ok saved, w) =>
        match operation w with
        | (Ok (TxCommit output), w) =>
            match lift_err JobSql commit_tx w with
            | (Ok _, w) => (Ok output, w)
            | (Err e, w) => (Err e, mkWorld saved (w_faults w))
            end
        | (Ok (TxRollback output), w) =>
            match lift_err JobSql (rollback_tx saved) w with
            | (Ok _, w) => (Ok output, w)
            | (Err e, w) => (Err e, w)
            end
        | (Err claim_error, w) => (Err claim_error, (rollback_tx saved w).2)
        end
    end.

Section queue.
Context `{SerdeJson, Chrono, Ulid, SqliteJson}.

(** ** Primitives *)

Definition append_job_event (event : SerializedEvent) : M SqliteJobError (option Z) :=
  fun w =>
    match insert_serialized_events_batch [event] w with
    | (Ok _, w) => (Some <$> map_err JobSequence (i64_try_from (ev_sequence event)), w)
    | (Err AggOptimisticLock, w) => (Ok None, w)
    | (Err other, w) => (Err (JobAppend other), w)
    end.

Definition read_job_projection_for_claim (job_id : string) : M SqliteJobError (option ClaimRead) :=
  lift_err JobSql
    (query (fun db =>
       (fun row => mkClaimRead (view_version row) (view_payload row) (view_lease_until row)) <$>
       view_table JOB_QUEUE db !! job_id)).

Definition write_job_projection (job_id : string) (version : Z) (payload : string)
    (lease_until_ms : option Z) : M SqliteJobError () :=
  lift_err JobSql (execute (set_view JOB_QUEUE job_id (mkViewRow version payload lease_until_ms))).

Definition claim_job_in_transaction {Won} (job_id : string)
    (decide : option ClaimRead -> ClaimDecision Won) : M SqliteJobError (ClaimOutcome Won) :=
  read ← read_job_projection_for_claim job_id;
  match decide read with
  | DecideSkip => mret OutcomeSkip
  | DecideClaim event payload lease_until_ms won =>
      appended ← append_job_event event;
      match appended with
      | Some version =>
          _ ← write_job_projection job_id version payload (Some lease_until_ms);
          mret (OutcomeWon won)
      | None => mret OutcomeContended
      end
  | DecideAbandon event payload =>
      appended ← append_job_event event;
      match appended with
      | Some version =>
          _ ← write_job_projection job_id version payload None;
          mret OutcomeAbandoned
      | None => mret OutcomeContended
      end
  end.

Definition claim_job {Won} (job_id : string) (decide : option ClaimRead -> ClaimDecision Won) :
    M SqliteJobError (ClaimOutcome Won) :=
  immediate_transaction
    (outcome ← claim_job_in_transaction job_id decide;
     mret (match outcome with
           | OutcomeWon won => TxCommit (OutcomeWon won)
           | OutcomeAbandoned => TxCommit OutcomeAbandoned
           | OutcomeContended => TxRollback OutcomeContended
           | OutcomeSkip => TxRollback OutcomeSkip
           end)).

(** [UPDATE job_queue SET lease_until = ?1
     WHERE view_id = ?2 AND version = ?3 AND status = 'claimed']. *)
Definition update_lease (new_lease_until_ms : Z) (job_id : string) (claim_seq : Z) (db : Db) :
    nat * Db :=
  match view_table JOB_QUEUE db !! job_id with
  | Some row =>
      if (view_version row =? claim_seq)%Z
         && bool_decide (job_status (view_payload row) = Some (VText "claimed"))
      then (1, set_view JOB_QUEUE job_id
                 (mkViewRow (view_version row) (view_payload row) (Some new_lease_until_ms)) db)
      else (0, db)
  | None => (0, db)
  end.

Definition renew_job (job_id : string) (claim_seq new_lease_until_ms : Z) :
    M SqliteJobError LeaseRenewal :=
  rows_affected ← lift_err JobSql
    (statement (fun db => Ok (update_lease new_lease_until_ms job_id claim_seq db)));
  mret (if (rows_affected =? 0)%nat then LeaseLost else LeaseHeld).

(** An error of [append_job_event] drops the guard; every later error is rolled
    back, and a failing rollback is what is reported. *)
Definition enqueue_job (event : SerializedEvent) (payload : string) : M SqliteJobError () :=
  fun w =>
    match lift_err JobSql begin_tx w with
    | (Err e, w) => (Err e, w)
    | (Ok saved, w) =>
        match append_job_event event w with
        | (Err e, w) => (Err e, mkWorld saved (w_faults w))
        | (Ok appended, w) =>
            let seed :=
              match appended with
              | Some version => write_job_projection (ev_aggregate_id event) version payload None
              | None => fail (DuplicateEnqueue (ev_aggregate_id event))
              end in
            match seed w with
            | (Ok _, w) =>
                match lift_err JobSql commit_tx w with
                | (Ok _, w) => (Ok (), w)
                | (Err e, w) => (Err e, mkWorld saved (w_faults w))
                end
            | (Err error, w) =>
                match lift_err JobSql (rollback_tx saved) w with
                | (Ok _, w) => (Err error, w)
                | (Err e, w) => (Err e, w)
                end
            end
        end
    end.

(** ** The worker poll *)

Definition poll_predicate (kind : string) (now_ms : Z) : Predicate :=
  let kind_eq := mkTerm "kind" CmpEq (Some (VText kind)) in
  let status_eq status := mkTerm "status" CmpEq (Some (VText status)) in
  mkPredicate
    [ [kind_eq; status_eq "pending"; mkTerm "run_at" CmpLe (Some (VInt now_ms))];
      [kind_eq; status_eq "claimed"; mkTerm "lease_until" CmpLt (Some (VInt now_ms))];
      [kind_eq; status_eq "claimed"; mkTerm "lease_until" CmpIsNull None] ].

Definition poll_order : Order := mkOrder "run_at" true.

Definition poll_jobs `{TableScan} (kind : string) (now_ms limit : Z) :
    M PersistenceError (list string) :=
  find JOB_QUEUE (poll_predicate kind now_ms) (Some poll_order) limit.
End queue.
