(* ===== verification/JobQueueProps.v ===== *)
(** * Properties of the durable job queue

    Contracts of the queue primitives, the invariant [job_inv] between a job's
    event stream and its [job_queue] row, and what it gives: claims are atomic
    compare-and-swaps on the stream's head, a leased claim excludes every other
    claim until it expires, a renewal is refused once a re-claim happened, a job id
    is enqueued once, and the poll returns exactly the jobs the planner would
    claim. *)

From S2P Require Import Prelude Json Sqlite EventTable Lifecycle Job Engine EngineProps.
From S2P Require Import ViewRepository JobQueue.

(** ** Contracts of the primitives *)

Lemma wp_immediate_transaction b {A} (op : M SqliteJobError (TransactionOutcome A)) db
    (Q : result SqliteJobError A -> Db -> Prop) :
  (b = true -> forall e, Q (Err (JobSql e)) db) ->
  wp b op db (fun r db' =>
    match r with
    | Ok (TxCommit a) => Q (Ok a) db'
    | Ok (TxRollback a) => Q (Ok a) db
    | Err e => Q (Err e) db
    end) ->
  wp b (immediate_transaction op) db Q.
Proof.
  intros Hf Hop. unfold immediate_transaction.
  assert (wp b (lift_err JobSql begin_tx) db
            (fun r db' => db' = db /\ match r with Ok s => s = db | Err e => Q (Err e) db end))
    as Hbegin by (apply wp_lift_err, wp_statement; naive_solver).
  intros fs Hfs. specialize (Hbegin fs Hfs).
  destruct (lift_err JobSql begin_tx _) as [[saved|e] [db' fs']]; simpl in *; [|naive_solver].
  destruct Hbegin as (Hfs' & -> & ->). specialize (Hop fs' Hfs').
  destruct (op _) as [[[a|a]|e] [db' fs1]]; simpl in *; destruct Hop as [Hfs1 HQ].
  - assert (wp b (lift_err JobSql commit_tx) db'
      (fun r db1 => match r with Ok _ => Q (Ok a) db1 | Err e => Q (Err e) db end)) as Hc
      by (apply wp_lift_err, wp_execute; naive_solver).
    specialize (Hc fs1 Hfs1). destruct (lift_err JobSql commit_tx _) as [[?|?] [? ?]]; simpl in *; naive_solver.
  - assert (wp b (lift_err JobSql (rollback_tx db)) db'
      (fun r db1 => match r with Ok _ => Q (Ok a) db1 | Err e => Q (Err e) db1 end)) as Hc
      by (apply wp_lift_err, wp_rollback; naive_solver).
    specialize (Hc fs1 Hfs1). destruct (lift_err JobSql _ _) as [[?|?] [? ?]]; simpl in *; naive_solver.
  - assert (wp b (rollback_tx db) db' (fun _ db1 => Q (Err e) db1)) as Hc
      by (apply wp_rollback; naive_solver).
    specialize (Hc fs1 Hfs1). destruct (rollback_tx db _) as [? [? ?]]; simpl in *; naive_solver.
Qed.

Section contracts.
Context `{SerdeJson, Chrono, Ulid, SqliteJson}.

Definition read_of (job_id : string) (db : Db) : option ClaimRead :=
  (fun row => mkClaimRead (view_version row) (view_payload row) (view_lease_until row)) <$>
  view_table JOB_QUEUE db !! job_id.

(** The event at which a claim swaps the head of the stream, and the row it
    writes. *)
Definition swapped (job_id : string) (event : SerializedEvent) (payload : string)
    (lease_until_ms : option Z) (db : Db) : Db :=
  set_view JOB_QUEUE job_id (mkViewRow (ev_sequence event) payload lease_until_ms)
    (append_events [event] db).

Lemma well_formed_swapped job_id event payload lease db :
  well_formed db -> insertable db [event] -> well_formed (swapped job_id event payload lease db).
Proof. intros. unfold swapped. auto with sorcery. Qed.

Lemma wp_append_job_event b event db :
  wp b (append_job_event event) db (fun r db' =>
    match r with
    | Ok (Some v) => v = ev_sequence event /\ insertable db [event] /\ db' = append_events [event] db
    | _ => b = false -> ~ insertable db [event]
    end).
Proof.
  intros fs Hfs. unfold append_job_event. pose proof (insert_batch_spec b [event] db fs Hfs) as Hi.
  destruct (insert_serialized_events_batch [event] _) as [[[]|e] w]; simpl in *.
  - destruct Hi as (Hf & Hi & ->). split; [done|]. unfold i64_try_from.
    destruct Hi as (Hr & Hrest). pose proof Hr as Hr'. apply Forall_cons in Hr' as [-> _]. done.
  - destruct e; simpl; naive_solver.
Qed.

Lemma wp_claim_job b {Won} job_id (decide : option ClaimRead -> ClaimDecision Won) db :
  wp b (claim_job job_id decide) db (fun r db' =>
    match r with
    | Ok (OutcomeWon won) => exists event payload lease,
        decide (read_of job_id db) = DecideClaim event payload lease won /\
        insertable db [event] /\ db' = swapped job_id event payload (Some lease) db
    | Ok OutcomeAbandoned => exists event payload,
        decide (read_of job_id db) = DecideAbandon event payload /\
        insertable db [event] /\ db' = swapped job_id event payload None db
    | Ok OutcomeContended => db' = db /\ decide (read_of job_id db) <> DecideSkip /\
        (b = false -> forall event payload lease won,
           decide (read_of job_id db) = DecideClaim event payload lease won \/
           decide (read_of job_id db) = DecideAbandon event payload -> ~ insertable db [event])
    | Ok OutcomeSkip => db' = db /\ decide (read_of job_id db) = DecideSkip
    | Err _ => db' = db /\ (b = false -> decide (read_of job_id db) <> DecideSkip /\
        forall event payload lease won,
           decide (read_of job_id db) = DecideClaim event payload lease won \/
           decide (read_of job_id db) = DecideAbandon event payload -> ~ insertable db [event])
    end).
Proof.
  unfold claim_job. apply wp_immediate_transaction; [by intros ->|].
  wp_step. unfold claim_job_in_transaction. wp_step. unfold read_job_projection_for_claim.
  wp_step. wp_step; [by intros -> e|]. simpl. fold (read_of job_id db).
  destruct (decide (read_of job_id db)) as [event payload lease won|event payload|] eqn:Hd; simpl.
  - wp_step. eapply wp_mono; [apply wp_append_job_event|]. intros [[v|]|e] db'; simpl.
    + intros (-> & Hi & ->). unfold write_job_projection. repeat wp_step; [by intros ->|].
      simpl. repeat wp_step. eauto 10.
    + intros Hn. repeat wp_step. naive_solver.
    + naive_solver.
  - wp_step. eapply wp_mono; [apply wp_append_job_event|]. intros [[v|]|e] db'; simpl.
    + intros (-> & Hi & ->). unfold write_job_projection. repeat wp_step; [by intros ->|].
      simpl. repeat wp_step. eauto 10.
    + intros Hn. repeat wp_step. naive_solver.
    + naive_solver.
  - repeat wp_step. done.
Qed.

(** The enqueue transaction appends and seeds, or leaves everything alone; a
    stream that already exists is reported as a duplicate. *)
Lemma wp_enqueue_job b event payload db :
  wp b (enqueue_job event payload) db (fun r db' =>
    match r with
    | Ok _ => insertable db [event] /\ db' = swapped (ev_aggregate_id event) event payload None db
    | Err e => db' = db /\ (b = false -> ~ insertable db [event])
    end).
Proof.
  intros fs Hfs. unfold enqueue_job.
  assert (wp b (lift_err JobSql begin_tx) db
    (fun r db' => db' = db /\ match r with Ok s => s = db | Err e => b = true end))
    as Hbegin by (apply wp_lift_err, wp_statement; naive_solver).
  specialize (Hbegin fs Hfs).
  destruct (lift_err JobSql begin_tx _) as [[saved|e] [db0 fs0]]; simpl in *;
    [|destruct Hbegin as (? & -> & ->); naive_solver].
  destruct Hbegin as (Hfs0 & -> & ->).
  pose proof (wp_append_job_event b event db fs0 Hfs0) as Ha.
  destruct (append_job_event event _) as [[[v|]|e] [db1 fs1]]; simpl in *; [..|naive_solver].
  - destruct Ha as (Hfs1 & -> & Hi & ->). unfold write_job_projection.
    assert (wp b (lift_err JobSql (execute (set_view JOB_QUEUE (ev_aggregate_id event)
        (mkViewRow (ev_sequence event) payload None)))) (append_events [event] db)
      (fun r db' => match r with
         | Ok _ => db' = swapped (ev_aggregate_id event) event payload None db
         | Err _ => b = true end)) as Hw by (apply wp_lift_err, wp_execute; naive_solver).
    specialize (Hw fs1 Hfs1). destruct (lift_err JobSql _ _) as [[?|?] [db2 fs2]]; simpl in *.
    + destruct Hw as [Hfs2 ->].
      assert (wp b (lift_err JobSql commit_tx) (swapped (ev_aggregate_id event) event payload None db)
        (fun r db' => match r with
           | Ok _ => db' = swapped (ev_aggregate_id event) event payload None db
           | Err _ => b = true end)) as Hc by (apply wp_lift_err, wp_execute; naive_solver).
      specialize (Hc fs2 Hfs2). destruct (lift_err JobSql commit_tx _) as [[?|?] [? ?]]; simpl in *; naive_solver.
    + destruct Hw as [Hfs2 ->].
      assert (wp true (lift_err JobSql (rollback_tx db)) db2 (fun _ db' => db' = db)) as Hr
        by (apply wp_lift_err, wp_rollback; naive_solver).
      specialize (Hr fs2 ltac:(done)). destruct (lift_err JobSql _ _) as [[?|?] [? ?]]; simpl in *; naive_solver.
  - destruct Ha as [Hfs1 Hn].
    assert (wp b (lift_err JobSql (rollback_tx db)) db1 (fun _ db' => db' = db)) as Hr
      by (apply wp_lift_err, wp_rollback; naive_solver).
    specialize (Hr fs1 Hfs1). destruct (lift_err JobSql _ _) as [[?|?] [? ?]]; simpl in *; naive_solver.
Qed.
End contracts.
#[export] Hint Resolve well_formed_swapped : sorcery.

(** ** Stored states

    The text of a row can be read back when the payload leaves room for the three
    containers around it. *)

Definition payload_storable (payload : Json) : Prop :=
  integral payload = true /\ depth payload + 3 < recursion_limit.

Definition event_storable `{Chrono} (e : JobEvent) : Prop :=
  event_ok e /\ match e with Enqueued _ payload _ => payload_storable payload | _ => True end.

Definition state_storable `{Chrono} (s : JobState) : Prop :=
  state_ok s /\
  match s with
  | Pending _ payload _ _ _ | Claimed _ payload _ _ _ _ _ => payload_storable payload
  | _ => True
  end.

Lemma in_u32_integral z : in_u32 z = true -> ((i64_min <=? z) && (z <=? u64_max))%Z = true.
Proof. range. Qed.
Lemma in_i64_integral z : in_i64 z = true -> ((i64_min <=? z) && (z <=? u64_max))%Z = true.
Proof. range. Qed.

Section stored.
Context `{SerdeJsonLaws, ChronoLaws, Ulid}.

Lemma state_storable_portable s :
  state_storable s -> portable (ser (Live s : JobLifecycle)) = true.
Proof.
  intros [Hok Hp]. unfold portable. apply andb_true_iff.
  destruct s as [k p r a c|k p w cid r a c| |[]]; try done;
    destruct Hok as (_ & Hr & Ha & Hc); destruct Hp as [Hi Hd];
    apply representable_i64, in_i64_integral in Hr; apply in_u32_integral in Ha, Hc.
  all: split; [cbn [ser lifecycle_serde lifecycle_to_json job_state_serde job_state_to_json tagged
    integral forallb snd]; by rewrite Hi, Hr, Ha, Hc|].
  all: apply Nat.ltb_lt; unfold recursion_limit in *.
  all: cbn [ser lifecycle_serde lifecycle_to_json job_state_serde job_state_to_json tagged
    depth map max_list fold_right snd]; lia.
Qed.

Lemma state_text_round_trip s :
  state_storable s -> lifecycle_from_text (lifecycle_text (Live s)) = Some (Live s).
Proof.
  intros Hs. apply lifecycle_text_round_trip; [apply Hs|]. by apply state_storable_portable.
Qed.

Lemma evolve_storable s e s' :
  state_storable s -> event_storable e -> job_evolve s e = Ok (Some s') -> state_storable s'.
Proof.
  assert (forall c, in_u32 (u32_add c 1) = true) as Hu.
  { intros c. unfold u32_add. pose proof (Z.mod_pos_bound (c + 1) (u32_max + 1)). range. }
  unfold state_storable, event_storable.
  destruct s, e; try done; simpl; intros Hs He [= <-]; simpl; try done; naive_solver.
Qed.

Lemma replay_storable_from s es s' :
  state_storable s -> Forall event_storable es -> replay (Live s) es = Live s' -> state_storable s'.
Proof.
  intros Hs He. revert s Hs. induction He as [|e es He Hes IH]; intros s Hs Hr.
  - by injection Hr as <-.
  - simpl in Hr. destruct (job_evolve s e) as [[s1|]|] eqn:Hev.
    + eapply IH; [|exact Hr]. by eapply evolve_storable.
    + apply (f_equal failed) in Hr. by rewrite replay_failed in Hr.
    + apply (f_equal failed) in Hr. by rewrite replay_failed in Hr.
Qed.

Lemma replay_storable es s :
  Forall event_storable es -> replay Uninitialized es = Live s -> state_storable s.
Proof.
  intros He Hr. apply job_replay_head in Hr as (k & p & r & es' & -> & Hr).
  apply Forall_cons in He as [[[Hv Hrep] Hp] He]. eapply replay_storable_from; [|exact He|exact Hr].
  by split_and!.
Qed.

(** A claimed job's last event is its claim. *)
Lemma replay_claimed_last es k p w cid r a c :
  replay Uninitialized es = Live (Claimed k p w cid r a c) ->
  exists es' lease, es = es' ++ [ClaimedEv w cid lease].
Proof.
  destruct es as [|e es _] using rev_ind; [done|]. rewrite replay_app. simpl. intros Hr.
  destruct (replay Uninitialized es) as [|s|]; [by destruct e| |done].
  simpl in Hr. destruct s, e; simplify_eq/=; eauto.
Qed.
End stored.

(** ** The stream and its row *)

Section invariant.
Context `{SerdeJsonLaws, ChronoLaws, Ulid, SqliteJson}.

(** The serialized stream of a job, numbered from [n + 1]. *)
Fixpoint job_events (job_id : string) (n : Z) (es : list JobEvent) : list SerializedEvent :=
  match es with
  | [] => []
  | e :: es => serialized e job_id (n + 1) :: job_events job_id (n + 1) es
  end.

(** The row projects the first [n] events, and no claim lies beyond them. *)
Definition projects (row : ViewRow) (es : list JobEvent) : Prop :=
  exists n s, view_version row = Z.of_nat n /\ n <= length es /\
    replay Uninitialized (take n es) = Live s /\ view_payload row = lifecycle_text (Live s) /\
    Forall (fun e => is_claim e = false) (drop n es).

Record job_inv (job_id : string) (es : list JobEvent) (db : Db) : Prop := {
  ji_log : stream_rows JOB_AGGREGATE_TYPE job_id db = event_row <$> job_events job_id 0 es;
  ji_row : match view_table JOB_QUEUE db !! job_id with
           | None => es = []
           | Some row => projects row es
           end;
  ji_live : failed (replay Uninitialized es) = false;
  ji_storable : Forall event_storable es;
}.

Lemma job_events_app job_id n es e :
  job_events job_id n (es ++ [e]) =
    job_events job_id n es ++ [serialized e job_id (n + Z.of_nat (length es) + 1)].
Proof.
  revert n. induction es as [|e' es IH]; intros n; cbn [app job_events length].
  - by replace (n + Z.of_nat 0 + 1)%Z with (n + 1)%Z by lia.
  - rewrite IH. do 3 f_equal. f_equal. lia.
Qed.

Lemma job_events_sequence job_id n es k :
  (n < k <= n + Z.of_nat (length es))%Z ->
  exists e, e ∈ job_events job_id n es /\ event_key e = (JOB_AGGREGATE_TYPE, job_id, k).
Proof.
  revert n. induction es as [|e es IH]; intros n Hk; cbn [length job_events] in *; [lia|].
  destruct (decide (k = n + 1)%Z) as [->|Hne].
  - exists (serialized e job_id (n + 1)). split; [constructor|done].
  - destruct (IH (n + 1)%Z) as (e' & He' & Hkey); [lia|].
    exists e'. split; [by constructor|done].
Qed.

(** Every sequence up to the head is taken, so an append succeeds only there:
    the compare-and-swap. *)
Lemma append_at_head job_id es db e n :
  job_inv job_id es db -> n <= length es ->
  insertable db [serialized e job_id (Z.of_nat n + 1)] -> n = length es.
Proof.
  intros Hinv Hn (_ & _ & Hfree). apply Forall_cons in Hfree as [Hfree _].
  destruct (decide (n = length es)) as [|Hne]; [done|]. exfalso. apply Hfree.
  destruct (job_events_sequence job_id 0 es (Z.of_nat n + 1)) as (e' & He' & Hkey); [lia|].
  change (event_key (serialized e job_id (Z.of_nat n + 1)))
    with (JOB_AGGREGATE_TYPE, job_id, (Z.of_nat n + 1)%Z).
  rewrite <-Hkey, <-row_key_event_row. apply list_elem_of_fmap_2.
  assert (event_row e' ∈ stream_rows JOB_AGGREGATE_TYPE job_id db) as Hin.
  { rewrite (ji_log _ _ _ Hinv). by apply list_elem_of_fmap_2. }
  by apply list_elem_of_filter in Hin as [_ ?].
Qed.

Lemma stream_rows_append_job job_id es e db :
  job_inv job_id es db ->
  stream_rows JOB_AGGREGATE_TYPE job_id
    (append_events [serialized e job_id (Z.of_nat (length es) + 1)] db) =
  event_row <$> job_events job_id 0 (es ++ [e]).
Proof.
  intros Hinv. rewrite stream_rows_append_same by (by repeat constructor).
  rewrite (ji_log _ _ _ Hinv), job_events_app, fmap_app. done.
Qed.

Lemma replay_snoc es e s s' :
  replay Uninitialized es = Live s -> job_evolve s e = Ok (Some s') ->
  replay Uninitialized (es ++ [e]) = Live s'.
Proof. intros Hr He. rewrite replay_app, Hr. simpl. by rewrite He. Qed.

(** Writing the folded state together with its event. *)
Lemma job_inv_swap job_id es db e s s' lease :
  job_inv job_id es db -> event_storable e ->
  replay Uninitialized es = Live s -> job_evolve s e = Ok (Some s') ->
  job_inv job_id (es ++ [e])
    (swapped job_id (serialized e job_id (Z.of_nat (length es) + 1)) (lifecycle_text (Live s')) lease db).
Proof.
  intros Hinv He Hr Hev. pose proof (replay_snoc _ _ _ _ Hr Hev) as Hr'. split.
  - apply (stream_rows_append_job job_id es e db Hinv).
  - unfold swapped, view_table. cbn. rewrite !lookup_insert_eq. simpl. rewrite lookup_insert_eq.
    exists (length (es ++ [e])), s'. split_and!; [rewrite length_app; simpl; lia|lia| |done|].
    + by rewrite take_ge.
    + by rewrite drop_ge.
  - by rewrite Hr'.
  - apply Forall_app. split; [apply Hinv|by constructor].
Qed.

(** Reading the row: it is the fold of its prefix, and the whole stream's fold
    when it is at the head. *)
Lemma read_row job_id es db row :
  job_inv job_id es db -> view_table JOB_QUEUE db !! job_id = Some row ->
  exists n s, view_version row = Z.of_nat n /\ n <= length es /\
    replay Uninitialized (take n es) = Live s /\ state_storable s /\
    view_payload row = lifecycle_text (Live s) /\
    lifecycle_from_text (view_payload row) = Some (Live s) /\
    Forall (fun e => is_claim e = false) (drop n es).
Proof.
  intros Hinv Hrow. pose proof (ji_row _ _ _ Hinv) as Hp. rewrite Hrow in Hp.
  destruct Hp as (n & s & Hv & Hn & Hr & Hp & Hc).
  assert (state_storable s) as Hs.
  { eapply replay_storable; [|exact Hr]. apply Forall_take, Hinv. }
  exists n, s. split_and!; try done. rewrite Hp. by apply state_text_round_trip.
Qed.

Lemma version_in_i64 job_id es db n :
  well_formed db -> job_inv job_id es db -> n <= length es -> in_i64 (Z.of_nat n) = true.
Proof.
  intros Hwf Hinv Hn. destruct (decide (n = 0)) as [->|Hne]; [done|].
  destruct (job_events_sequence job_id 0 es (Z.of_nat n)) as (e & He & Hkey); [lia|].
  assert (event_row e ∈ db_events db) as Hin.
  { assert (event_row e ∈ stream_rows JOB_AGGREGATE_TYPE job_id db) as Hin.
    { rewrite (ji_log _ _ _ Hinv). by apply list_elem_of_fmap_2. }
    by apply list_elem_of_filter in Hin as [_ ?]. }
  pose proof (wf_sequences _ Hwf) as Hs. rewrite Forall_forall in Hs. specialize (Hs _ Hin).
  cbn in Hs.
  apply (f_equal snd) in Hkey. cbn in Hkey. by rewrite <-Hkey.
Qed.

(** ** Claims *)

Lemma plan_claim_row job_id es db worker now_ms lease_ms max_claims fresh :
  well_formed db -> job_inv job_id es db -> in_u32 max_claims = true ->
  match plan_claim job_id (read_of job_id db) worker now_ms lease_ms max_claims fresh with
  | DecideClaim event payload lease_until_ms won =>
      insertable db [event] -> exists s s' row,
        replay Uninitialized es = Live s /\ view_table JOB_QUEUE db !! job_id = Some row /\
        runnable s (view_lease_until row) now_ms = true /\ (claim_count s < max_claims)%Z /\
        won_claim_seq won = (Z.of_nat (length es) + 1)%Z /\ won_claim_id won = fresh /\
        won_attempt won = attempt_count s /\
        lease_until_ms = (now_ms + lease_ms)%Z /\
        event_storable (ClaimedEv worker fresh (now_ms + lease_ms)) /\
        event = serialized (ClaimedEv worker fresh (now_ms + lease_ms)) job_id
                  (Z.of_nat (length es) + 1) /\
        job_evolve s (ClaimedEv worker fresh (now_ms + lease_ms)) = Ok (Some s') /\
        payload = lifecycle_text (Live s')
  | DecideAbandon event payload =>
      insertable db [event] -> exists s row,
        replay Uninitialized es = Live s /\ view_table JOB_QUEUE db !! job_id = Some row /\
        runnable s (view_lease_until row) now_ms = true /\ (max_claims <= claim_count s)%Z /\
        event = serialized (DeadEv Abandoned "claim budget exhausted") job_id
                  (Z.of_nat (length es) + 1) /\
        job_evolve s (DeadEv Abandoned "claim budget exhausted") = Ok (Some (Dead Abandoned)) /\
        payload = lifecycle_text (Live (Dead Abandoned))
  | DecideSkip => True
  end.
Proof.
  intros Hwf Hinv Hm. unfold read_of. destruct (view_table JOB_QUEUE db !! job_id) as [row|] eqn:Hrow; [|done].
  destruct (read_row _ _ _ _ Hinv Hrow) as (n & s & Hv & Hn & Hr & Hs & Hp & Ht & Hc). simpl.
  pose proof (version_in_i64 _ _ _ _ Hwf Hinv Hn) as Hi. rewrite <-Hv in Hi.
  pose proof (plan_claim_folds job_id (mkClaimRead (view_version row) (view_payload row) (view_lease_until row))
    worker now_ms lease_ms max_claims fresh s Ht Hi (proj1 Hs) Hm) as Hplan.
  destruct (plan_claim _ _ _ _ _ _ _) as [event payload lease won|event payload|]; simpl in Hplan; [..|done].
  - destruct Hplan as (Hrun & -> & Hrep & Hcs & Hci & Hat & Hlt & -> & s' & Hev & -> & _).
    intros Hins. rewrite Hv in Hins. apply (append_at_head _ es) in Hins; [|done..]. subst n.
    rewrite take_ge in Hr by done. rewrite Hv in *. exists s, s', row.
    split_and!; try done; by split.
  - destruct Hplan as (Hrun & Hle & -> & Hev & ->).
    intros Hins. rewrite Hv in Hins. apply (append_at_head _ es) in Hins; [|done..]. subst n.
    rewrite take_ge in Hr by done. rewrite Hv in *. exists s, row. by split_and!.
Qed.

Lemma claim_spec job_id es w worker now_ms lease_ms max_claims fresh :
  well_formed (w_db w) -> job_inv job_id es (w_db w) -> in_u32 max_claims = true ->
  let '(r, w') := claim_job job_id
    (fun read => plan_claim job_id read worker now_ms lease_ms max_claims fresh) w in
  match r with
  | Ok (OutcomeWon won) => exists s row row',
      replay Uninitialized es = Live s /\ view_table JOB_QUEUE (w_db w) !! job_id = Some row /\
      runnable s (view_lease_until row) now_ms = true /\ (claim_count s < max_claims)%Z /\
      won_claim_seq won = (Z.of_nat (length es) + 1)%Z /\ won_claim_id won = fresh /\
      won_attempt won = attempt_count s /\
      job_inv job_id (es ++ [ClaimedEv worker fresh (now_ms + lease_ms)]) (w_db w') /\
      view_table JOB_QUEUE (w_db w') !! job_id = Some row' /\
      view_lease_until row' = Some (now_ms + lease_ms)%Z /\ well_formed (w_db w')
  | Ok OutcomeAbandoned => exists s,
      replay Uninitialized es = Live s /\ (max_claims <= claim_count s)%Z /\
      job_inv job_id (es ++ [DeadEv Abandoned "claim budget exhausted"]) (w_db w') /\ well_formed (w_db w')
  | _ => w_db w' = w_db w
  end.
Proof.
  intros Hwf Hinv Hm. destruct w as [db fs]. simpl in *.
  pose proof (plan_claim_row job_id es db worker now_ms lease_ms max_claims fresh Hwf Hinv Hm) as Hplan.
  pose proof (wp_claim_job true job_id
    (fun read => plan_claim job_id read worker now_ms lease_ms max_claims fresh) db fs ltac:(done)) as Hc.
  destruct (claim_job _ _ _) as [[[won| | |]|e] w']; simpl in *; destruct Hc as [_ Hc]; try tauto.
  - destruct Hc as (event & payload & lease & Hd & Hi & ->). rewrite Hd in Hplan.
    destruct (Hplan Hi) as (s & s' & row & Hr & Hrow & Hrun & Hlt & Hcs & Hci & Hat & -> & Hst & -> & Hev & ->).
    exists s, row, (mkViewRow (Z.of_nat (length es) + 1) (lifecycle_text (Live s')) (Some (now_ms + lease_ms)%Z)).
    split_and!; try done; [by eapply job_inv_swap| |auto with sorcery].
    unfold swapped, view_table. cbn. rewrite lookup_insert_eq. cbn. apply lookup_insert_eq.
  - destruct Hc as (event & payload & Hd & Hi & ->). rewrite Hd in Hplan.
    destruct (Hplan Hi) as (s & row & Hr & Hrow & Hrun & Hle & -> & Hev & ->).
    exists s. split_and!; try done; [by eapply job_inv_swap|auto with sorcery].
Qed.

(** C5: claiming is an atomic compare-and-swap on the head of the job's stream.
    Under any fault schedule, a claim is won only if the whole stream folds to a
    runnable state within the claim budget; it then appends exactly one [Claimed]
    event at the next sequence, leaves the row equal to the fold of the extended
    stream with the new lease, and hands out the sequence, claim id and attempt
    that were written.  A spent budget appends the terminal [Dead] event instead.
    Contention, skips and errors change nothing. *)
Theorem claim_compare_and_swap job_id es w worker now_ms lease_ms max_claims fresh :
  well_formed (w_db w) -> job_inv job_id es (w_db w) -> in_u32 max_claims = true ->
  let '(r, w') := claim_job job_id
    (fun read => plan_claim job_id read worker now_ms lease_ms max_claims fresh) w in
  match r with
  | Ok (OutcomeWon won) => exists s row row',
      replay Uninitialized es = Live s /\ view_table JOB_QUEUE (w_db w) !! job_id = Some row /\
      runnable s (view_lease_until row) now_ms = true /\ (claim_count s < max_claims)%Z /\
      won_claim_seq won = (Z.of_nat (length es) + 1)%Z /\ won_claim_id won = fresh /\
      won_attempt won = attempt_count s /\
      job_inv job_id (es ++ [ClaimedEv worker fresh (now_ms + lease_ms)]) (w_db w') /\
      view_table JOB_QUEUE (w_db w') !! job_id = Some row' /\
      view_lease_until row' = Some (now_ms + lease_ms)%Z
  | Ok OutcomeAbandoned => exists s,
      replay Uninitialized es = Live s /\ (max_claims <= claim_count s)%Z /\
      job_inv job_id (es ++ [DeadEv Abandoned "claim budget exhausted"]) (w_db w')
  | _ => w_db w' = w_db w
  end.
Proof.
  intros Hwf Hinv Hm. pose proof (claim_spec job_id es w worker now_ms lease_ms max_claims fresh Hwf Hinv Hm) as Hc.
  destruct (claim_job _ _ _) as [[[won| | |]|e] w']; naive_solver.
Qed.

(** A stream that ends in a claim is projected up to that claim. *)
Lemma row_at_claim job_id es db k p holder cid r a c :
  job_inv job_id es db -> replay Uninitialized es = Live (Claimed k p holder cid r a c) ->
  exists row, view_table JOB_QUEUE db !! job_id = Some row /\ view_version row = Z.of_nat (length es) /\
    view_payload row = lifecycle_text (Live (Claimed k p holder cid r a c)) /\
    lifecycle_from_text (view_payload row) = Some (Live (Claimed k p holder cid r a c)).
Proof.
  intros Hinv Hr. destruct (replay_claimed_last _ _ _ _ _ _ _ _ Hr) as (es' & le & Hes).
  pose proof (ji_row _ _ _ Hinv) as Hp. destruct (view_table JOB_QUEUE db !! job_id) as [row|] eqn:Hrow; [|rewrite Hp in Hes; by destruct es'].
  destruct (read_row _ _ _ _ Hinv Hrow) as (n & s & Hv & Hn & Hrn & Hs & Hpay & Ht & Hc).
  assert (n = length es) as ->.
  { destruct (decide (n = length es)) as [|Hne]; [done|]. exfalso. subst es.
    rewrite length_app in *. simpl in *. rewrite drop_app_le in Hc by lia.
    apply Forall_app in Hc as [_ Hc]. by apply Forall_cons in Hc as [? _]. }
  rewrite take_ge in Hrn by done. rewrite Hr in Hrn. injection Hrn as <-. by exists row.
Qed.

(** The planner skips a claimed job whose lease has not passed. *)
Lemma plan_skips_leased job_id es db k p holder cid r a c row lease worker now_ms lease_ms max_claims fresh :
  job_inv job_id es db -> replay Uninitialized es = Live (Claimed k p holder cid r a c) ->
  view_table JOB_QUEUE db !! job_id = Some row -> view_lease_until row = Some lease -> (now_ms <= lease)%Z ->
  plan_claim job_id (read_of job_id db) worker now_ms lease_ms max_claims fresh = DecideSkip.
Proof.
  intros Hinv Hr Hrow Hl Hnow. destruct (row_at_claim _ _ _ _ _ _ _ _ _ _ Hinv Hr) as (row' & Hrow' & _ & _ & Ht).
  rewrite Hrow in Hrow'. injection Hrow' as <-. unfold read_of, plan_claim. rewrite Hrow. simpl. rewrite Ht, Hl. unfold runnable.
  by replace (lease <? now_ms)%Z with false by (symmetry; lia).
Qed.

(** C12: a lease excludes every other claim until it expires.  While the stream
    folds to a claimed state and the row's lease has not passed, no claim attempt,
    by whichever worker and with whatever budget, wins or changes anything; unless
    the driver fails it is skipped. *)
Theorem lease_excludes_claims job_id es db k p holder cid r a c row lease worker now_ms lease_ms max_claims fresh :
  well_formed db -> job_inv job_id es db ->
  replay Uninitialized es = Live (Claimed k p holder cid r a c) ->
  view_table JOB_QUEUE db !! job_id = Some row -> view_lease_until row = Some lease ->
  (now_ms <= lease)%Z ->
  let claim := claim_job job_id
    (fun read => plan_claim job_id read worker now_ms lease_ms max_claims fresh) in
  (forall w, w_db w = db -> w_db (claim w).2 = db /\
     forall won, (claim w).1 <> Ok (OutcomeWon won)) /\
  run claim db = (Ok OutcomeSkip, db).
Proof.
  intros Hwf Hinv Hr Hrow Hl Hnow claim.
  pose proof (plan_skips_leased _ _ _ _ _ _ _ _ _ _ _ _ worker now_ms lease_ms max_claims fresh Hinv Hr Hrow Hl Hnow) as Hskip.
  split.
  - intros w <-. pose proof (wp_world _ _ _ (wp_claim_job true job_id
      (fun read => plan_claim job_id read worker now_ms lease_ms max_claims fresh) (w_db w))) as Hc.
    fold claim in Hc. cbv beta in Hc. rewrite Hskip in Hc. destruct ((claim w).1) as [[]|]; naive_solver.
  - apply wp_run_eq. eapply wp_mono; [apply wp_claim_job|]. cbv beta. rewrite Hskip.
    intros [[]|] db'; naive_solver.
Qed.

(** ** Leases *)

Context `{!SqliteJsonLaws}.

(** The generated columns of a stored state. *)
Definition status_of (s : JobState) : string :=
  match s with
  | Pending _ _ _ _ _ => "pending"
  | Claimed _ _ _ _ _ _ _ => "claimed"
  | Done => "done"
  | Dead _ => "dead"
  end.
Definition kind_of (s : JobState) : option string :=
  match s with Pending k _ _ _ _ | Claimed k _ _ _ _ _ _ => Some k | _ => None end.
Definition run_at_of (s : JobState) : option Z :=
  match s with Pending _ _ r _ _ | Claimed _ _ _ _ r _ _ => Some r | _ => None end.

Lemma job_columns_of s :
  state_storable s ->
  let text := lifecycle_text (Live s) in
  job_status text = Some (VText (status_of s)) /\
  job_kind text = VText <$> kind_of s /\ job_run_at text = VInt <$> run_at_of s.
Proof.
  intros Hs text. unfold job_status, job_kind, job_run_at, json_has, json_extract, text, lifecycle_text.
  rewrite json_read_to_string by (by apply state_storable_portable).
  by destruct s as [| | |[]].
Qed.

Lemma wp_renew_job b job_id claim_seq new_lease db :
  wp b (renew_job job_id claim_seq new_lease) db (fun r db' =>
    (r <> Ok LeaseHeld /\ db' = db) \/
    (r = Ok LeaseHeld /\ exists row, view_table JOB_QUEUE db !! job_id = Some row /\
       view_version row = claim_seq /\ job_status (view_payload row) = Some (VText "claimed") /\
       db' = set_view JOB_QUEUE job_id
               (mkViewRow (view_version row) (view_payload row) (Some new_lease)) db)).
Proof.
  unfold renew_job. wp_step. wp_step. apply wp_statement; [by left|]. simpl. unfold update_lease.
  destruct (view_table JOB_QUEUE db !! job_id) as [row|] eqn:Hrow; [|wp_step; by left].
  destruct (Z.eqb_spec (view_version row) claim_seq); simpl; [|wp_step; by left].
  case_bool_decide; wp_step; [right|by left]. eauto 10.
Qed.

Lemma view_table_set_view t k r db : view_table t (set_view t k r db) !! k = Some r.
Proof. unfold set_view, view_table at 1. simpl. rewrite lookup_insert_eq. simpl. apply lookup_insert_eq. Qed.

(** The lease column is not part of the projection. *)
Lemma job_inv_lease job_id es db row lease :
  job_inv job_id es db -> view_table JOB_QUEUE db !! job_id = Some row ->
  job_inv job_id es
    (set_view JOB_QUEUE job_id (mkViewRow (view_version row) (view_payload row) lease) db).
Proof.
  intros [Hlog Hrow Hlive Hsto] Hr. rewrite Hr in Hrow. split; [done| |done|done].
  rewrite view_table_set_view. exact Hrow.
Qed.

(** A renewal extends only the claim it names.  Whatever the faults, a renewal
    touches nothing but the lease column of the job's own row; it reports [Held]
    only when the row still stands at the sequence of that claim, in which case
    the event at that sequence is a claim and no later claim exists in the stream;
    once another claim was won, it reports [Lost] (or an error) and writes
    nothing. *)
Theorem renewal_fenced job_id es w claim_seq new_lease :
  job_inv job_id es (w_db w) ->
  let '(r, w') := renew_job job_id claim_seq new_lease w in
  job_inv job_id es (w_db w') /\ db_events (w_db w') = db_events (w_db w) /\
  (r <> Ok LeaseHeld -> w_db w' = w_db w) /\
  (r = Ok LeaseHeld -> exists n row row',
     claim_seq = Z.of_nat n /\ (exists worker cid lease, last (take n es) = Some (ClaimedEv worker cid lease)) /\
     Forall (fun e => is_claim e = false) (drop n es) /\
     view_table JOB_QUEUE (w_db w) !! job_id = Some row /\
     view_table JOB_QUEUE (w_db w') !! job_id = Some row' /\
     row' = mkViewRow (view_version row) (view_payload row) (Some new_lease)).
Proof.
  intros Hinv. pose proof (wp_world _ w _ (wp_renew_job true job_id claim_seq new_lease (w_db w))) as Hw.
  destruct (renew_job _ _ _ _) as [r w']. simpl in *.
  destruct Hw as [[Hne ->]|(-> & row & Hrow & Hv & Hst & ->)]; [done|].
  destruct (read_row _ _ _ _ Hinv Hrow) as (n & s & Hvn & Hn & Hr & Hs & Hp & Ht & Hc).
  split_and!; try done; [by apply job_inv_lease|].
  intros _. exists n, row. eexists. split_and!; try done; [lia| |apply view_table_set_view].
  rewrite Hp in Hst. rewrite (proj1 (job_columns_of s Hs)) in Hst. destruct s; try done.
  apply replay_claimed_last in Hr as (es' & lease & ->). rewrite last_snoc. eauto.
Qed.

(** ** The poll *)

(** The job the row of [job_id] describes may be claimed at [now_ms]. *)
Definition claimable (db : Db) (kind : string) (now_ms : Z) (job_id : string) : Prop :=
  exists row s, view_table JOB_QUEUE db !! job_id = Some row /\
    lifecycle_from_text (view_payload row) = Some (Live s) /\
    kind_of s = Some kind /\ runnable s (view_lease_until row) now_ms = true.

Definition run_at_in (db : Db) (job_id : string) : option Z :=
  row ← view_table JOB_QUEUE db !! job_id;
  match lifecycle_from_text (view_payload row) with Some (Live s) => run_at_of s | _ => None end.

(** Every row is the text of a state that can be stored: what [job_inv] gives. *)
Definition rows_storable (db : Db) : Prop :=
  map_Forall (fun _ row => exists s, state_storable s /\ view_payload row = lifecycle_text (Live s))
    (view_table JOB_QUEUE db).

Lemma text_eq_spec x y : (match String.compare x y with Eq => true | _ => false end) = bool_decide (x = y).
Proof.
  destruct (String.compare x y) eqn:Hc; symmetry.
  - apply bool_decide_eq_true. by apply String.compare_eq_iff.
  - apply bool_decide_eq_false. intros ->. pose proof (String.compare_antisym y y) as Ha. by rewrite Hc in Ha.
  - apply bool_decide_eq_false. intros ->. pose proof (String.compare_antisym y y) as Ha. by rewrite Hc in Ha.
Qed.

Lemma int_le_spec x y : (match (x ?= y)%Z with Gt => false | _ => true end) = (x <=? y)%Z.
Proof. by unfold Z.leb. Qed.
Lemma int_lt_spec x y : (match (x ?= y)%Z with Lt => true | _ => false end) = (x <? y)%Z.
Proof. by unfold Z.ltb. Qed.

(** The poll's predicate, evaluated on the generated columns of a stored state,
    is the planner's own test. *)
Lemma eval_poll job_id row s kind now_ms :
  state_storable s -> view_payload row = lifecycle_text (Live s) ->
  eval_predicate job_id row (poll_predicate kind now_ms) =
    bool_decide (kind_of s = Some kind) && runnable s (view_lease_until row) now_ms.
Proof.
  intros Hs Hp. destruct (job_columns_of s Hs) as (Hst & Hk & Hra).
  unfold eval_predicate, eval_conjunction. cbn [any_of poll_predicate existsb forallb term_column term_cmp term_value].
  change (job_column job_id row "kind") with (job_kind (view_payload row)).
  change (job_column job_id row "status") with (job_status (view_payload row)).
  change (job_column job_id row "run_at") with (job_run_at (view_payload row)).
  change (job_column job_id row "lease_until") with (VInt <$> view_lease_until row).
  rewrite Hp, Hst, Hk, Hra.
  assert (forall k, bool_decide (Some k = Some kind) = bool_decide (k = kind)) as Hb
    by (intros k; apply bool_decide_ext; naive_solver).
  destruct s as [k p r a c|k p h cid r a c| |]; cbn [kind_of run_at_of status_of runnable fmap option_fmap option_map];
    try done; rewrite Hb; cbn [eval_term value_compare]; rewrite ?text_eq_spec, ?int_le_spec.
  - destruct (bool_decide (k = kind)), (r <=? now_ms)%Z; done.
  - destruct (view_lease_until row) as [l|]; cbn; rewrite ?int_lt_spec;
      destruct (bool_decide (k = kind)); try done; by destruct (l <? now_ms)%Z.
Qed.

Context `{TableScan, !TableScanLaws}.

Lemma column_le_total asc a b : column_le asc a b = true \/ column_le asc b a = true.
Proof.
  assert (forall x y, (match value_compare x y with Gt => false | _ => true end) = true \/
                      (match value_compare y x with Gt => false | _ => true end) = true) as Hv.
  { intros [x|x] [y|y]; simpl; auto.
    - rewrite !int_le_spec, !Z.leb_le. lia.
    - rewrite (String.compare_antisym x y). destruct (String.compare y x); simpl; auto. }
  destruct asc, a, b; simpl; auto.
Qed.

(** Sorting by [ORDER BY] gives a locally ordered list of the same rows. *)
Lemma order_sorted order l : Sorted (order_le order) (merge_sort (order_le order) l).
Proof. apply Sorted_merge_sort. intros x y. apply column_le_total. Qed.

Lemma run_at_order db x y :
  rows_storable db -> view_table JOB_QUEUE db !! x.1 = Some x.2 -> view_table JOB_QUEUE db !! y.1 = Some y.2 ->
  order_le poll_order x y ->
  forall rx ry, run_at_in db x.1 = Some rx -> run_at_in db y.1 = Some ry -> (rx <= ry)%Z.
Proof.
  intros Hrows Hx Hy Hle rx ry. unfold run_at_in. rewrite Hx, Hy. simpl.
  destruct (Hrows _ _ Hx) as (sx & Hsx & Hpx), (Hrows _ _ Hy) as (sy & Hsy & Hpy).
  rewrite Hpx, Hpy, !state_text_round_trip by done. intros Hrx Hry.
  unfold order_le, poll_order in Hle. cbn [order_column order_ascending] in Hle.
  change (job_column x.1 x.2 "run_at") with (job_run_at (view_payload x.2)) in Hle.
  change (job_column y.1 y.2 "run_at") with (job_run_at (view_payload y.2)) in Hle.
  rewrite Hpx, Hpy in Hle. destruct (job_columns_of sx Hsx) as (_ & _ & Hcx), (job_columns_of sy Hsy) as (_ & _ & Hcy).
  rewrite Hcx, Hcy, Hrx, Hry in Hle. cbn in Hle. rewrite int_le_spec in Hle. lia.
Qed.

Lemma poll_jobs_spec db kind now_ms limit :
  rows_storable db ->
  exists ids,
    run (poll_jobs kind now_ms limit) db = (Ok (sql_limit limit ids), db) /\
    NoDup ids /\ (forall id, id ∈ ids <-> claimable db kind now_ms id) /\
    (forall i a b, ids !! i = Some a -> ids !! S i = Some b ->
       forall ra rb, run_at_in db a = Some ra -> run_at_in db b = Some rb -> (ra <= rb)%Z).
Proof.
  intros Hrows. set (m := view_table JOB_QUEUE db).
  set (sel := filter (fun kr => eval_predicate kr.1 kr.2 (poll_predicate kind now_ms) = true) (scan m)).
  set (rows := merge_sort (order_le poll_order) sel).
  assert (rows ≡ₚ sel) as Hperm by apply merge_sort_Permutation.
  assert (forall kr, kr ∈ rows -> m !! kr.1 = Some kr.2) as Hlook.
  { intros [k r] Hin. rewrite Hperm in Hin. apply list_elem_of_filter in Hin as [_ Hin].
    rewrite scan_perm in Hin. by apply elem_of_map_to_list in Hin. }
  exists rows.*1. split_and!.
  - done.
  - rewrite Hperm. apply (sublist_NoDup _ (scan m).*1); [|apply fmap_sublist, sublist_filter].
    rewrite scan_perm. apply NoDup_fst_map_to_list.
  - intros id. rewrite Hperm. rewrite list_elem_of_fmap. split.
    + intros ([k r] & -> & Hin). apply list_elem_of_filter in Hin as [Hev Hin]. simpl in *.
      rewrite scan_perm in Hin. apply elem_of_map_to_list in Hin.
      destruct (Hrows _ _ Hin) as (s & Hs & Hp). rewrite (eval_poll _ _ s) in Hev by done.
      apply andb_true_iff in Hev as [Hk Hr]. apply bool_decide_eq_true in Hk.
      exists r, s. split_and!; try done. rewrite Hp. by apply state_text_round_trip.
    + intros (r & s & Hin & Ht & Hk & Hr). exists (id, r). split; [done|].
      apply list_elem_of_filter. simpl. split; [|rewrite scan_perm; by apply elem_of_map_to_list].
      destruct (Hrows _ _ Hin) as (s' & Hs & Hp). rewrite Hp, state_text_round_trip in Ht by done.
      injection Ht as ->. rewrite (eval_poll _ _ s) by done. by rewrite bool_decide_eq_true_2, Hr.
  - intros i a b Ha Hb. rewrite list_lookup_fmap in Ha, Hb.
    destruct (rows !! i) as [x|] eqn:Hx; [|done]. destruct (rows !! S i) as [y|] eqn:Hy; [|done].
    injection Ha as <-. injection Hb as <-. apply run_at_order; [done|by apply Hlook; eapply list_elem_of_lookup_2..|].
    eapply Sorted_lookup_S; [apply (order_sorted poll_order sel)|done..].
Qed.

(** C26: the poll and the planner agree.  On rows the queue maintains, polling a
    kind returns, without duplicates and with earlier [run_at] first, exactly the
    ids whose stored state the claim planner would consider runnable at that
    instant (due pending jobs, and claimed jobs whose lease expired or was lost in
    a rebuild), cut to the limit. *)
Theorem poll_exact db kind now_ms limit :
  rows_storable db ->
  exists ids,
    run (poll_jobs kind now_ms limit) db = (Ok (sql_limit limit ids), db) /\
    NoDup ids /\ (forall id, id ∈ ids <-> claimable db kind now_ms id) /\
    (forall i a b, ids !! i = Some a -> ids !! S i = Some b ->
       forall ra rb, run_at_in db a = Some ra -> run_at_in db b = Some rb -> (ra <= rb)%Z).
Proof. apply poll_jobs_spec. Qed.
End invariant.
