(* ===== verification/Repository.v ===== *)
(** * The native event repository and the command path

    Models src/crates/event-sorcery/src/sqlite_event_repository.rs (the
    [PersistedEventRepository] the framework loads from and persists through), the
    error conversions of src/crates/event-sorcery/src/engine.rs, and the command
    path of [Store::send] in src/crates/event-sorcery/src/lib.rs.

    [cqrs-es] is not part of the repository.  What the crate relies on of it: a
    command is handled against an aggregate state and a sequence it loaded, the
    resulting events are numbered from that sequence and persisted in one call
    ([execute_from]), together with a snapshot of its choice, and an empty batch is
    not persisted.  The loaded state and the snapshot are arguments. *)

From S2P Require Import Prelude Json Sqlite EventTable Lifecycle Job Engine EngineProps.
From S2P Require Import ViewRepository.

Definition persistence_of_engine_error (error : EngineError) : PersistenceError :=
  match error with
  | OptimisticLock => OptimisticLockError
  | EngSql source => ConnectionError source
  | EngJson source => DeserializationError source
  | _ => UnknownError
  end.

Section repository.
Context `{SerdeJson, Chrono, Ulid}.

Definition get_events (aggregate_type aggregate_id : string) : M PersistenceError (list SerializedEvent) :=
  lift_err persistence_of_engine_error (load_events (mkStream aggregate_type aggregate_id) None).

Definition get_last_events (aggregate_type aggregate_id : string) (last_sequence : Z) :
    M PersistenceError (list SerializedEvent) :=
  lift_err persistence_of_engine_error
    (load_events (mkStream aggregate_type aggregate_id) (Some last_sequence)).

(** [decodes] says whether [A::deserialize] accepts the snapshot. *)
Definition get_snapshot (policy : CompactionPolicy) (decodes : Json -> bool)
    (aggregate_type aggregate_id : string) : M PersistenceError (option SerializedSnapshot) :=
  snapshot ← lift_err persistence_of_engine_error
               (load_snapshot (mkStream aggregate_type aggregate_id));
  match snapshot with
  | None => mret None
  | Some snapshot =>
      match policy with
      | Retain => mret (Some snapshot)
      | CompactAfterSnapshot =>
          if decodes (ss_aggregate snapshot) then mret (Some snapshot)
          else fail (persistence_of_engine_error (EngJson Malformed))
      end
  end.

Definition SnapshotOf : Type := (string * Json * Z)%type.

Definition persist_stream (aggregate_type : string) (events : list SerializedEvent)
    (snapshot_update : option SnapshotOf) : StreamIdentity :=
  mkStream aggregate_type
    (match snapshot_update with
     | None => default "" (ev_aggregate_id <$> head events)
     | Some (id, _, _) => id
     end).

(** Runs with the command's pending-job buffer and returns what is left of it;
    [None] is the panic of a delay outside the calendar. *)
Definition persist (max_delay : Z) (clock : nat -> Z) (aggregate_type : string)
    (events : list SerializedEvent) (snapshot_update : option SnapshotOf) (pending : Scope) :
    option (M PersistenceError Scope) :=
  let stream := persist_stream aggregate_type events snapshot_update in
  prepared ← prepare_pending max_delay clock pending;
  Some
    (prepared ← lift (map_err (fun e => persistence_of_engine_error (JobFlush e)) prepared);
     let request := with_jobs (new_commit stream events) (prepared_requests prepared) in
     request ← lift (map_err persistence_of_engine_error
                       (match snapshot_update with
                        | None => Ok request
                        | Some (_, aggregate, version) =>
                            with_snapshot request (mkSnapshotUpdate aggregate version)
                        end));
     _ ← lift_err persistence_of_engine_error (commit request);
     mret (mark_committed prepared pending)).

(** ** Commands *)

Context {Entity Event Command Error : Type} `{EventSourced Entity Event Command Error}.

(** The serialized form of an event at a sequence. *)
Context (wrap : Event -> Z -> SerializedEvent).

Fixpoint number (sequence : Z) (events : list Event) : list SerializedEvent :=
  match events with
  | [] => []
  | e :: events => wrap e (sequence + 1) :: number (sequence + 1) events
  end.

(** [cqrs.execute] under [with_pending_scope], from the loaded [state] at
    [sequence] on: handle the command, number its events, persist them with the
    buffered jobs. *)
Definition execute_from (max_delay : Z) (clock : nat -> Z) (aggregate_type : string)
    (state : Lifecycle Entity Event Error) (sequence : Z) (command : Command)
    (snapshot_update : option SnapshotOf) :
    option (M (AggregateError (LifecycleError Entity Event Error)) ()) :=
  match handle state command (Some []) with
  | (Err e, _) => Some (fail (UserError e))
  | (Ok [], _) => Some (mret ())
  | (Ok events, pending) =>
      m ← persist max_delay clock aggregate_type (number sequence events) snapshot_update pending;
      Some (_ ← lift_err aggregate_error_of_persistence m; mret ())
  end.
End repository.

(** ** What a persist does *)

Section persist_props.
Context `{SerdeJson, Chrono, Ulid}.

Definition persist_request (aggregate_type : string) (events : list SerializedEvent)
    (snapshot_update : option SnapshotOf) (requests : list EnqueueRequest) : CommitRequest :=
  mkCommit (persist_stream aggregate_type events snapshot_update) None events
    ((fun u => mkSnapshotUpdate u.1.2 u.2) <$> snapshot_update) requests.

(** The buffer of a command whose pushes were all committed. *)
Definition drained (pending : Scope) : Scope :=
  match pending with None => None | Some _ => Some [] end.

Lemma prepare_pending_drains max_delay clock pending prepared :
  prepare_pending max_delay clock pending = Some (Ok prepared) ->
  mark_committed prepared pending = drained pending.
Proof.
  unfold prepare_pending, mark_committed. destruct pending as [pushes|]; [|by intros [= <-]].
  destruct (prepare_requests _ _ _ _) as [[requests|]|]; [|done..]. intros [= <-]. simpl.
  by rewrite drop_all.
Qed.

Definition persisted (max_delay : Z) (clock : nat -> Z) (t : string) (events : list SerializedEvent)
    (snapshot_update : option SnapshotOf) (pending : Scope) (db : Db)
    (r : result PersistenceError Scope) (db' : Db) : Prop :=
  match r with
  | Ok pending' => exists prepared,
      prepare_pending max_delay clock pending = Some (Ok prepared) /\
      pending' = drained pending /\
      let request := persist_request t events snapshot_update (prepared_requests prepared) in
      accepted request db /\ db' = committed request db
  | Err _ => db' = db
  end.

Lemma wp_persist b max_delay clock t events snapshot_update pending m db :
  persist max_delay clock t events snapshot_update pending = Some m ->
  wp b m db (persisted max_delay clock t events snapshot_update pending db).
Proof.
  unfold persist. intros Hm. apply bind_Some in Hm as (prepared & Hp & [= <-]).
  wp_step. wp_step. destruct prepared as [prepared|e]; [|done]. cbn [map_err].
  pose proof (prepare_pending_drains _ _ _ _ Hp) as Hd. wp_step. wp_step.
  set (request := persist_request t events snapshot_update (prepared_requests prepared)).
  assert (wp b (_ ← lift_err persistence_of_engine_error (commit request);
                mret (mark_committed prepared pending)) db
    (persisted max_delay clock t events snapshot_update pending db)) as Hw.
  { wp_step. wp_step. eapply wp_mono; [apply wp_commit|].
    intros [[]|e] db' [Hg He]; cbn [map_err] in *; [|by apply He].
    wp_step. destruct Hg as [[_ Ha] ->]. exists prepared. by rewrite Hd. }
  destruct snapshot_update as [[[id aggregate] version]|]; [|exact Hw].
  unfold with_snapshot. cbn [cr_events with_jobs new_commit].
  destruct events as [|e events]; [done|exact Hw].
Qed.

(** C15: a command's events and the jobs it dispatched commit together.  Under any
    fault schedule, persisting either fails and leaves both the database and the
    buffered pushes as they were, or commits the events, the snapshot and one job
    per buffered push in one step and empties the buffer: a dispatched job is
    never recorded without its event, nor lost with it. *)
Theorem persist_atomic max_delay clock t events snapshot_update pushes m w :
  persist max_delay clock t events snapshot_update (Some pushes) = Some m ->
  match m w with
  | (Err _, w') => w_db w' = w_db w
  | (Ok pending', w') => exists requests,
      prepare_requests max_delay clock 0 pushes = Some (Ok requests) /\
      (req_job_id <$> requests) = (push_job_id <$> pushes) /\ pending' = Some [] /\
      let request := persist_request t events snapshot_update requests in
      accepted request (w_db w) /\ w_db w' = committed request (w_db w)
  end.
Proof.
  intros Hm. pose proof (wp_world m w _ (wp_persist true _ _ _ _ _ _ m (w_db w) Hm)) as Hw.
  destruct (m w) as [[pending'|e] w']; simpl in *; [|done].
  destruct Hw as (prepared & Hp & -> & Ha & ->).
  destruct (prepare_requests max_delay clock 0 pushes) as [[requests|e]|] eqn:Hr; [|done..].
  injection Hp as <-. simpl in *. exists requests. split_and!; try done.
  clear -Hr. revert Hr. generalize 0 as i. revert requests.
  induction pushes as [|push pushes IH]; intros requests i Hr; simpl in Hr; [by injection Hr as <-|].
  destruct (push_encode push); [|done]. destruct (resolve_run_at_ms _ _ _) as [[?|?]|]; [|done..].
  destruct (prepare_requests max_delay clock (S i) pushes) as [[rs|?]|] eqn:Hrs; [|done..].
  injection Hr as <-. by rewrite !fmap_cons, (IH rs (S i) Hrs).
Qed.
End persist_props.
