(* ===== verification/SqliteEs.v ===== *)
(** * The event repository of sqlite-es and the replay streams

    Models src/crates/sqlite-es/src/event_repository.rs
    ([PersistedEventRepository for SqliteEventRepository]: loading, the guarded
    snapshot upsert of sql_query.rs, [persist] in one transaction, replay streams)
    and [Engine::stream_events] of src/crates/event-sorcery/src/engine.rs.  The
    schema registry commits through this repository.

    A replay stream is what its feed pushes, in order: the consumer reads at most
    [capacity] items before it drops the stream, and a push after that fails.  The
    engine reads its rows one by one, so the driver can fail between two of them.
    SQL orders [all_events] by sequence only; [EventScan] is any order of the rows
    of a type that respects it. *)

From S2P Require Import Prelude Json Sqlite EventTable Lifecycle Schema Job Engine EngineProps.
From S2P Require Import Repository.

(** ** Reading *)

Section repository.
Context `{SerdeJson}.

Definition row_to_serialized_event (row : StoredEventRow) :
    result SqliteAggregateError SerializedEvent :=
  sequence ← map_err AggTryFromInt (usize_try_from (row_sequence row));
  payload ← map_err AggDeserialization (value_from_str (row_payload row));
  metadata ← map_err AggDeserialization (value_from_str (row_metadata row));
  mret (mkSerializedEvent (row_aggregate_type row) (row_aggregate_id row) sequence
          (row_event_type row) (row_event_version row) payload metadata).

Definition row_to_serialized_snapshot (aggregate_id : string) (row : StoredSnapshotRow) :
    result SqliteAggregateError SerializedSnapshot :=
  current_sequence ← map_err AggTryFromInt (usize_try_from (snap_last_sequence row));
  current_snapshot ← map_err AggTryFromInt (usize_try_from (snap_snapshot_version row));
  aggregate ← map_err AggDeserialization (value_from_str (snap_payload row));
  mret (mkSerializedSnapshot aggregate_id aggregate current_sequence current_snapshot).

Definition es_load_events (aggregate_type aggregate_id : string) :
    M SqliteAggregateError (list SerializedEvent) :=
  rows ← lift_err AggConnection (query (select_events aggregate_type aggregate_id None));
  lift (collect row_to_serialized_event rows).

Definition es_load_events_since (aggregate_type aggregate_id : string) (last_sequence : Z) :
    M SqliteAggregateError (list SerializedEvent) :=
  last_sequence ← lift (map_err AggTryFromInt (i64_try_from last_sequence));
  rows ← lift_err AggConnection
           (query (select_events aggregate_type aggregate_id (Some last_sequence)));
  lift (collect row_to_serialized_event rows).

Definition es_load_snapshot (aggregate_type aggregate_id : string) :
    M SqliteAggregateError (option SerializedSnapshot) :=
  row ← lift_err AggConnection (query (fun db => db_snapshots db !! (aggregate_type, aggregate_id)));
  lift (match row with
        | None => Ok None
        | Some row => Some <$> row_to_serialized_snapshot aggregate_id row
        end).

(** ** Writing *)

(** [INSERT ... ON CONFLICT DO UPDATE ... WHERE excluded.last_sequence > last_sequence]:
    the number of rows affected and the table. *)
Definition upsert_snapshot (k : string * string) (row : StoredSnapshotRow) (db : Db) : nat * Db :=
  match db_snapshots db !! k with
  | Some existing =>
      if (snap_last_sequence existing <? snap_last_sequence row)%Z
      then (1, set_snapshot k row db) else (0, db)
  | None => (1, set_snapshot k row db)
  end.

Definition update_snapshot_within (aggregate_type aggregate_id : string)
    (last_sequence snapshot_version : Z) (aggregate : Json) : M SqliteAggregateError () :=
  last_sequence ← lift (map_err AggTryFromInt (i64_try_from last_sequence));
  snapshot_version ← lift (map_err AggTryFromInt (i64_try_from snapshot_version));
  rows_affected ← lift_err AggConnection
    (statement (fun db => Ok (upsert_snapshot (aggregate_type, aggregate_id)
                                (mkStoredSnapshotRow last_sequence snapshot_version
                                   (to_string aggregate)) db)));
  if (rows_affected =? 0)%nat then fail AggOptimisticLock else mret ().

Definition es_persist (aggregate_type : string) (events : list SerializedEvent)
    (snapshot_update : option SnapshotOf) : M PersistenceError () :=
  lift_err persistence_of_aggregate_error
    (transaction AggConnection
       (_ ← insert_serialized_events_batch events;
        match snapshot_update with
        | None => mret ()
        | Some (aggregate_id, aggregate, snapshot_version) =>
            last_sequence ← lift (ok_or AggEmptySnapshotUpdate (ev_sequence <$> last events));
            update_snapshot_within aggregate_type aggregate_id last_sequence snapshot_version aggregate
        end)).

Definition es_get_events (aggregate_type aggregate_id : string) :
    M PersistenceError (list SerializedEvent) :=
  lift_err persistence_of_aggregate_error (es_load_events aggregate_type aggregate_id).

Definition es_get_last_events (aggregate_type aggregate_id : string) (last_sequence : Z) :
    M PersistenceError (list SerializedEvent) :=
  lift_err persistence_of_aggregate_error
    (es_load_events_since aggregate_type aggregate_id last_sequence).

Definition es_get_snapshot (aggregate_type aggregate_id : string) :
    M PersistenceError (option SerializedSnapshot) :=
  lift_err persistence_of_aggregate_error (es_load_snapshot aggregate_type aggregate_id).
End repository.

(** ** Replay streams *)

(** [WHERE aggregate_type = ?], in no order yet. *)
Definition type_rows (t : string) (db : Db) : list StoredEventRow :=
  filter (fun r => row_aggregate_type r = t) (db_events db).

(** [... ORDER BY sequence], ties in any order. *)
Class EventScan := { event_scan : list StoredEventRow -> list StoredEventRow }.
Class EventScanLaws `{EventScan} := {
  event_scan_perm : forall rows, event_scan rows ≡ₚ rows;
  event_scan_sorted : forall rows, Sorted row_le (event_scan rows);
}.

Section streams.
Context `{SerdeJson, EventScan}.

(** The rows a replay selects: one aggregate's or a whole type's. *)
Definition replay_rows (aggregate_type : string) (aggregate_id : option string) (db : Db) :
    list StoredEventRow :=
  match aggregate_id with
  | Some id => select_events aggregate_type id None db
  | None => event_scan (type_rows aggregate_type db)
  end.

(** The loop of both feeds: push each event, stop at the first row that does not
    convert or at the first push the consumer no longer accepts.  A failed push of
    an error is ignored. *)
Fixpoint push_rows {E} (convert : StoredEventRow -> result E SerializedEvent)
    (conversion_error : E -> PersistenceError) (finish : option PersistenceError) (capacity : nat)
    (rows : list StoredEventRow) : list (result PersistenceError SerializedEvent) :=
  match capacity with
  | 0 => []
  | S capacity =>
      match rows with
      | [] => match finish with Some e => [Err e] | None => [] end
      | row :: rows =>
          match convert row with
          | Err e => [Err (conversion_error e)]
          | Ok event =>
              Ok event :: push_rows convert conversion_error finish capacity rows
          end
      end
  end.

(** [SqliteEventRepository::stream_events_impl]: all rows are fetched at once, and
    every conversion failure is reported as a deserialization error. *)
Definition es_stream_events (aggregate_type : string) (aggregate_id : option string)
    (capacity : nat) (w : World) : list (result PersistenceError SerializedEvent) * World :=
  match query (replay_rows aggregate_type aggregate_id) w with
  | (Err e, w) => (take capacity [Err (ConnectionError e)], w)
  | (Ok rows, w) =>
      (push_rows row_to_serialized_event (fun _ => DeserializationError Malformed) None capacity rows, w)
  end.

(** [Engine::stream_events]: rows are fetched one by one; [failure] says after how
    many rows the cursor fails, if it does. *)
Definition stream_events (aggregate_type : string) (aggregate_id : option string)
    (capacity : nat) (failure : option (nat * SqlxError)) (db : Db) :
    list (result PersistenceError SerializedEvent) :=
  let rows := replay_rows aggregate_type aggregate_id db in
  let convert row := map_err engine_error_of_row (serialized_event row) in
  match failure with
  | None => push_rows convert persistence_of_engine_error None capacity rows
  | Some (n, e) =>
      push_rows convert persistence_of_engine_error
        (if (n <=? length rows)%nat then Some (persistence_of_engine_error (EngSql e)) else None)
        capacity (take n rows)
  end.
End streams.

(** ** Properties *)

Section repository_props.
Context `{SerdeJson, Chrono, Ulid}.

Lemma row_conversions_agree row :
  map_err persistence_of_aggregate_error (row_to_serialized_event row) =
    map_err persistence_of_engine_error (map_err engine_error_of_row (serialized_event row)).
Proof.
  unfold row_to_serialized_event, serialized_event.
  destruct (usize_try_from _) as [s|[]]; [simpl|done].
  destruct (value_from_str (row_payload row)); [simpl|done].
  by destruct (value_from_str (row_metadata row)).
Qed.

Lemma collect_map_err {E E' F A B} (f : A -> result E B) (f' : A -> result E' B) (g : E -> F)
    (g' : E' -> F) l :
  (forall x, map_err g (f x) = map_err g' (f' x)) ->
  map_err g (collect f l) = map_err g' (collect f' l).
Proof.
  intros Hf. induction l as [|x l IH]; [done|]. simpl. specialize (Hf x).
  destruct (f x), (f' x); simplify_eq/=; [|by f_equal].
  destruct (collect f l), (collect f' l); simplify_eq/=; by f_equal.
Qed.

(** The engine's repository and the one of sqlite-es read the same events, errors
    included, on every database. *)
Theorem repositories_agree t i last_sequence db :
  run (es_get_events t i) db = run (get_events t i) db /\
  run (es_get_last_events t i last_sequence) db = run (get_last_events t i last_sequence) db.
Proof.
  assert (forall rows, map_err persistence_of_aggregate_error (collect row_to_serialized_event rows) =
            map_err persistence_of_engine_error (serialized_events rows)) as Hc.
  { intros rows. apply collect_map_err, row_conversions_agree. }
  split.
  - unfold run, es_get_events, es_load_events, get_events, load_events, load_events_on, mbind, M_bind,
      lift_err, lift. simpl. by rewrite Hc.
  - unfold run, es_get_last_events, es_load_events_since, get_last_events, load_events,
      load_events_on, checkpoint, mbind, M_bind, lift_err, lift, i64_try_from. simpl.
    destruct (in_i64 last_sequence); simpl; [|done]. by rewrite <-Hc.
Qed.

(** What [es_persist] commits. *)
Definition snapshot_guard (t : string) (events : list SerializedEvent)
    (snapshot_update : option SnapshotOf) (db : Db) : Prop :=
  match snapshot_update with
  | None => True
  | Some (id, _, version) => exists last_event, last events = Some last_event /\
      in_i64 (ev_sequence last_event) = true /\ in_i64 version = true /\
      (forall row, db_snapshots db !! (t, id) = Some row ->
         (snap_last_sequence row < ev_sequence last_event)%Z)
  end.

Definition es_persisted (t : string) (events : list SerializedEvent)
    (snapshot_update : option SnapshotOf) (db : Db) : Db :=
  match snapshot_update, last events with
  | Some (id, aggregate, version), Some last_event =>
      set_snapshot (t, id) (mkStoredSnapshotRow (ev_sequence last_event) version (to_string aggregate))
        (append_events events db)
  | _, _ => append_events events db
  end.

Lemma wp_update_snapshot b t id last_sequence version aggregate db :
  wp b (update_snapshot_within t id last_sequence version aggregate) db
    (guarded b (in_i64 last_sequence = true /\ in_i64 version = true /\
                (forall row, db_snapshots db !! (t, id) = Some row ->
                   (snap_last_sequence row < last_sequence)%Z))
       (set_snapshot (t, id) (mkStoredSnapshotRow last_sequence version (to_string aggregate)) db)).
Proof.
  unfold update_snapshot_within, i64_try_from. wp_step. wp_step.
  destruct (in_i64 last_sequence) eqn:Hl; simpl; [|naive_solver].
  wp_step. wp_step. destruct (in_i64 version) eqn:Hv; simpl; [|naive_solver].
  wp_step. wp_step. apply wp_statement; [intros ->; simpl; naive_solver|]. unfold upsert_snapshot.
  destruct (db_snapshots db !! (t, id)) as [row|] eqn:Hrow; simpl.
  - destruct (snap_last_sequence row <? last_sequence)%Z eqn:Hlt; simpl.
    + wp_step. simpl. split; [|done]. split_and!; [done..|]. intros row' [= <-]. lia.
    + wp_step. simpl. intros _ (_ & _ & Hg). specialize (Hg row eq_refl). lia.
  - wp_step. simpl. split; [|done]. by split_and!.
Qed.

Lemma db_snapshots_append events db : db_snapshots (append_events events db) = db_snapshots db.
Proof. done. Qed.

(** Under any fault schedule [es_persist] commits the events and the snapshot
    together or nothing, it accepts a snapshot only for a sequence above the stored
    one, and without faults it refuses nothing else. *)
Theorem es_persist_spec b t events snapshot_update db :
  wp b (es_persist t events snapshot_update) db
    (fun r db' =>
       guarded b (insertable db events /\ snapshot_guard t events snapshot_update db)
         (es_persisted t events snapshot_update db) r db' /\
       (is_ok r = false -> db' = db)).
Proof.
  unfold es_persist. wp_step. wp_step; [naive_solver|]. wp_step.
  eapply wp_mono; [apply insert_batch_spec|]. intros [[]|e] db'; simpl; [|naive_solver].
  intros [Hi ->]. unfold snapshot_guard, es_persisted.
  destruct snapshot_update as [[[id aggregate] version]|]; [|by wp_step].
  wp_step. wp_step. destruct (last events) as [last_event|]; cbn; [|naive_solver].
  eapply wp_mono; [apply wp_update_snapshot|]. intros [[]|e] db'; simpl; rewrite ?db_snapshots_append;
    naive_solver.
Qed.
End repository_props.

Section stream_props.
Context `{SerdeJson, Chrono, Ulid} `{EventScanLaws}.

Lemma push_rows_prefix {E} (convert : StoredEventRow -> result E SerializedEvent) conversion_error finish
    capacity rows :
  push_rows convert conversion_error finish capacity rows =
    take capacity (push_rows convert conversion_error finish (S (length rows)) rows).
Proof.
  revert capacity. induction rows as [|row rows IH]; intros [|capacity]; simpl; [done| |done|].
  - by destruct finish; rewrite ?take_nil; destruct capacity.
  - destruct (convert row); [|by destruct capacity]. simpl. by rewrite IH.
Qed.

(** A feed without failures pushes the converted rows. *)
Lemma push_rows_Ok {E} (convert : StoredEventRow -> result E SerializedEvent) conversion_error capacity rows
    events :
  collect convert rows = Ok events -> length rows < capacity ->
  push_rows convert conversion_error None capacity rows = Ok <$> events.
Proof.
  revert capacity events. induction rows as [|row rows IH]; intros [|capacity] events Hc Hl;
    simpl in *; try lia; [by injection Hc as <-|].
  destruct (convert row); [|done]. destruct (collect convert rows) as [l|] eqn:Hl'; [|done].
  injection Hc as <-. rewrite (IH capacity l) by (done || lia). done.
Qed.

(** The rows of one aggregate within a replay of its whole type are its stream, in
    order. *)
Lemma replay_rows_of_type t i db :
  keys_unique db ->
  filter (fun r => row_aggregate_id r = i) (replay_rows t None db) = select_events t i None db.
Proof.
  intros Hk. simpl.
  assert (filter (fun r => row_aggregate_id r = i) (event_scan (type_rows t db)) ≡ₚ
            visible t i None db) as Hp.
  { rewrite event_scan_perm. unfold type_rows, visible, stream_rows.
    rewrite list_filter_filter, (list_filter_all (fun r => after None r = true)) by done.
    erewrite list_filter_ext_in; [reflexivity|]. intros r _. cbn. rewrite in_stream_true. naive_solver. }
  symmetry. apply select_events_char; [done| |done]. apply sorted_strict.
  - apply StronglySorted_filter, Sorted_StronglySorted; [apply _|apply event_scan_sorted].
  - rewrite Hp. by apply visible_sequences_NoDup.
Qed.

Lemma collect_filter {E A B} (f : A -> result E B) (P : A -> Prop) (Q : B -> Prop)
    `{forall x, Decision (P x), forall y, Decision (Q y)} l ys :
  (forall x y, f x = Ok y -> P x <-> Q y) ->
  collect f l = Ok ys -> collect f (filter P l) = Ok (filter Q ys).
Proof.
  intros Hpq. rewrite !collect_Ok. induction 1 as [|x y l ys Hx _ IH]; [constructor|].
  rewrite !filter_cons. specialize (Hpq x y Hx). repeat case_decide; [by constructor|tauto..|done].
Qed.

(** A replay stream is faithful: whatever the consumer's appetite it is a prefix of
    one list of events in which the events of each aggregate are exactly its
    stream in order; and the stream of one aggregate is that list. *)
Theorem replay_stream_faithful t db events capacity :
  keys_unique db ->
  serialized_events (replay_rows t None db) = Ok events ->
  stream_events t None capacity None db = take capacity (Ok <$> events) /\
  forall i, exists mine,
    mine = filter (fun e => ev_aggregate_id e = i) events /\
    run (get_events t i) db = (Ok mine, db) /\
    stream_events t (Some i) capacity None db = take capacity (Ok <$> mine).
Proof.
  intros Hk He. unfold stream_events.
  assert (forall rows es, serialized_events rows = Ok es ->
    push_rows (fun row => map_err engine_error_of_row (serialized_event row))
      persistence_of_engine_error None capacity rows = take capacity (Ok <$> es)) as Hpush.
  { intros rows es Hes. rewrite push_rows_prefix. by rewrite (push_rows_Ok _ _ _ _ es) by (done || lia). }
  split; [by apply Hpush|]. intros i. eexists. split; [reflexivity|].
  assert (serialized_events (select_events t i None db) =
            Ok (filter (fun e => ev_aggregate_id e = i) events)) as Hmine.
  { rewrite <-replay_rows_of_type by done. eapply collect_filter; [|exact He].
    intros row e Hrow. apply map_err_Ok in Hrow. unfold serialized_event in Hrow.
    apply bind_Ok in Hrow as (? & _ & Hrow). apply bind_Ok in Hrow as (? & _ & Hrow).
    apply bind_Ok in Hrow as (? & _ & [= <-]). done. }
  split; [|by apply Hpush].
  unfold run, get_events, load_events, load_events_on, select_stream, mbind, M_bind, lift_err, lift.
  simpl. by rewrite Hmine.
Qed.

(** Whatever fails, a stream never reorders or invents events: what it pushes before
    an error is a prefix of the events the rows convert to, and an error ends it. *)
Theorem stream_stops_at_error t i capacity failure db :
  exists n (e : option PersistenceError),
    stream_events t i capacity failure db = (Ok <$> n) ++ option_list (Err <$> e) /\
    exists k, serialized_events (take k (replay_rows t i db)) = Ok n.
Proof.
  unfold stream_events.
  assert (forall finish rows, exists n (e : option PersistenceError),
    push_rows (fun row => map_err engine_error_of_row (serialized_event row))
      persistence_of_engine_error finish capacity rows = (Ok <$> n) ++ option_list (Err <$> e) /\
    exists k, serialized_events (take k rows) = Ok n) as Hpush.
  { induction capacity as [|capacity IH]; intros finish rows.
    - exists [], None. split; [done|]. by exists 0.
    - destruct rows as [|row rows]; simpl.
      + exists [], finish. split; [by destruct finish|]. by exists 0.
      + destruct (serialized_event row) as [ev|err] eqn:Hrow; simpl.
        * destruct (IH finish rows) as (n & e & -> & k & Hk). exists (ev :: n), e. split; [done|].
          exists (S k). unfold serialized_events in *. simpl. rewrite Hrow. simpl. by rewrite Hk.
        * exists [], (Some (persistence_of_engine_error (engine_error_of_row err))).
          split; [done|]. by exists 0. }
  destruct failure as [[m err]|]; [|apply Hpush].
  destruct (Hpush (if (m <=? length (replay_rows t i db))%nat
                   then Some (persistence_of_engine_error (EngSql err)) else None)
              (take m (replay_rows t i db))) as (n & e & -> & k & Hk).
  exists n, e. split; [done|]. exists (min k m). by rewrite <-take_take.
Qed.
End stream_props.
