(* ===== verification/SchemaRecovery.v ===== *)
(** * Reconciling schema versions

    Models the [Reconciler] of src/crates/event-sorcery/src/schema_registry.rs and
    [Engine::reconcile_schema], [Engine::record_schema] of engine.rs: loading the
    registry from its event log, clearing the snapshots of a type whose version
    changed, and recording a version through the command path of sqlite-es.

    [CqrsLoad] is what the reconciler uses of [cqrs-es]: the state and sequence a
    command is handled against, computed from the events of the aggregate. *)

From S2P Require Import Prelude Json Sqlite EventTable Lifecycle Schema Job Engine EngineProps.
From S2P Require Import Repository SqliteEs.

(** [PersistedEventStore::load_aggregate] on an event store without snapshots. *)
Class CqrsLoad := {
  load_context : list SerializedEvent -> result JsonError (RegistryLifecycle * Z);
}.
(** The documented behaviour: the payloads are deserialized and applied in order,
    and the context stands at the sequence of the last event. *)
Class CqrsLoadLaws `{CqrsLoad} := {
  load_context_replay : forall events decoded,
    mapM (fun e => de (ev_payload e)) events = Some decoded ->
    load_context events = Ok (replay Uninitialized decoded, default 0%Z (ev_sequence <$> last events));
}.

(** The serialized form [cqrs-es] gives an event of the registry: its type, version
    and payload, with empty metadata. *)
Definition registry_wrap (event : SchemaRegistryEvent) (sequence : Z) : SerializedEvent :=
  mkSerializedEvent REGISTRY_TYPE REGISTRY_ID sequence (registry_event_type event)
    (registry_event_version event) (canon (ser event)) (JObject []).

(** [DELETE FROM snapshots WHERE aggregate_type = ?1]. *)
Definition clear_snapshots (t : string) (db : Db) : Db :=
  mkDb (db_events db) (filter (fun kv => kv.1.1 <> t) (db_snapshots db)) (db_views db).

Section reconciler.
Context `{SerdeJson, CqrsLoad}.

(** The loop of [load_registry]. *)
Fixpoint fold_registry (state : option SchemaRegistry) (payloads : list string) :
    result ReconcileError (option SchemaRegistry) :=
  match payloads with
  | [] => Ok state
  | payload :: payloads =>
      match from_str payload ≫= de with
      | None => Err (ReJson Malformed)
      | Some event =>
          match state with
          | None => fold_registry (registry_originate event) payloads
          | Some current =>
              match registry_evolve current event with
              | Ok evolved => fold_registry (Some (default current evolved)) payloads
              | Err never => match never with end
              end
          end
      end
  end.

Definition load_registry : M ReconcileError (option SchemaRegistry) :=
  rows ← lift_err ReSqlx (query (select_events REGISTRY_TYPE REGISTRY_ID None));
  lift (fold_registry None (row_payload <$> rows)).

Definition reconcile_target (target : SchemaTarget) : M ReconcileError SchemaReconciliation :=
  registry ← load_registry;
  let stored_version := registry ≫= fun r => version_of r (target_aggregate_type target) in
  if bool_decide (stored_version = Some (target_version target)) then mret Unchanged
  else if bool_decide (is_Some stored_version) &&
          bool_decide (target_compaction target = CompactAfterSnapshot)
  then fail (CompactedSnapshotClear (target_aggregate_type target) stored_version (target_version target))
  else
    _ ← lift_err ReSqlx (execute (clear_snapshots (target_aggregate_type target)));
    mret Changed.

(** [cqrs.execute(REGISTRY_ID, Register { .. })]. *)
Definition record_target (target : SchemaTarget) : M ReconcileError () :=
  lift_err ReAggregate
    (events ← lift_err aggregate_error_of_persistence (es_get_events REGISTRY_TYPE REGISTRY_ID);
     '(state, sequence) ← lift (map_err AggregateDeserializationError (load_context events));
     match handle state (Register (target_aggregate_type target) (target_version target)) None with
     | (Err e, _) => fail (UserError e)
     | (Ok [], _) => mret ()
     | (Ok events, _) =>
         lift_err aggregate_error_of_persistence
           (es_persist REGISTRY_TYPE (number registry_wrap sequence events) None)
     end).

Definition reconcile_schema (target : SchemaTarget) : M EngineError SchemaReconciliation :=
  lift_err EngSchema (reconcile_target target).

Definition record_schema (target : SchemaTarget) : M EngineError () :=
  lift_err EngSchema (record_target target).
End reconciler.

(** ** Properties *)

Section reconciler_props.
Context `{SerdeJsonLaws, CqrsLoadLaws}.

(** The registry's stream holds the events [es] at sequences 1, 2, ... *)
Definition registry_inv (es : list SchemaRegistryEvent) (db : Db) : Prop :=
  Forall registry_event_ok es /\ (Z.of_nat (length es) < i64_max)%Z /\ keys_unique db /\
  select_events REGISTRY_TYPE REGISTRY_ID None db = event_row <$> number registry_wrap 0 es.

Lemma number_app {A} (w : A -> Z -> SerializedEvent) n l k :
  number w n (l ++ k) = number w n l ++ number w (n + Z.of_nat (length l)) k.
Proof.
  revert n. induction l as [|x l IH]; intros n; simpl; [f_equal; lia|]. rewrite IH. do 3 f_equal. lia.
Qed.

Lemma number_sequences {A} (w : A -> Z -> SerializedEvent) n l e :
  (forall x k, ev_sequence (w x k) = k) -> e ∈ number w n l ->
  (n < ev_sequence e <= n + Z.of_nat (length l))%Z.
Proof.
  intros Hw. revert n. induction l as [|x l IH]; intros n He; simpl in *; [by apply not_elem_of_nil in He|].
  apply elem_of_cons in He as [->|He]; [rewrite Hw; lia|]. specialize (IH _ He). lia.
Qed.

Lemma last_number {A} (w : A -> Z -> SerializedEvent) n l :
  (forall x k, ev_sequence (w x k) = k) ->
  default n (ev_sequence <$> last (number w n l)) = (n + Z.of_nat (length l))%Z.
Proof.
  intros Hw. destruct l as [|x l] using rev_ind; [simpl; lia|].
  rewrite number_app. simpl. rewrite last_snoc. simpl. rewrite Hw, length_app. simpl. lia.
Qed.

Lemma registry_value_ok e : registry_event_ok e ->
  canon (ser e) = ser e /\ portable (ser e) = true /\ is_value (ser e) = true.
Proof.
  destruct e as [name version]. cbn [registry_event_ok]. intros Hv.
  assert (canon (ser (VersionUpdated name version)) = ser (VersionUpdated name version)) as Hc by done.
  split_and!; [done| |by apply bool_decide_eq_true].
  unfold portable. apply andb_true_iff. split; [|done]. cbn [ser registry_event_serde registry_event_to_json].
  cbn [integral forallb snd]. rewrite !andb_true_r. range.
Qed.

(** What the readers make of the registry's rows. *)
Lemma registry_row_reads e k : registry_event_ok e -> in_i64 k = true -> (0 <= k)%Z ->
  (from_str (row_payload (event_row (registry_wrap e k))) ≫= de) = Some e /\
  row_to_serialized_event (event_row (registry_wrap e k)) = Ok (registry_wrap e k).
Proof.
  intros He Hk H0'. destruct (registry_value_ok e He) as (Hc & Hp & Hv). split.
  - cbn [row_payload event_row registry_wrap ev_payload]. rewrite Hc, from_str_to_string by done.
    exact (de_ser (P := registry_event_ok) e He).
  - unfold row_to_serialized_event, event_row, registry_wrap. cbn -[ser]. rewrite Hc.
    assert (usize_try_from k = Ok k) as -> by (apply usize_try_from_Ok; split; [done|range]). cbn -[ser].
    rewrite !value_from_str_to_string by done. done.
Qed.

Lemma fold_registry_Some registry events n :
  Forall registry_event_ok events -> (0 <= n)%Z -> (n + Z.of_nat (length events) < i64_max)%Z ->
  exists registry', replay (Live registry) events = Live registry' /\
    fold_registry (Some registry) (row_payload <$> (event_row <$> number registry_wrap n events)) =
      Ok (Some registry').
Proof.
  revert registry n. induction events as [|e events IH]; intros registry n Hok Hn Hl; [by eexists|].
  apply Forall_cons in Hok as [He Hok]. cbn [length] in Hl.
  destruct (registry_row_reads e (n + 1) He) as [Hr _]; [range|lia|].
  cbn [number fmap list_fmap fold_registry]. rewrite Hr. destruct e as [name version]. cbn.
  apply IH; [done|lia|lia].
Qed.

Lemma load_registry_state events :
  Forall registry_event_ok events -> (Z.of_nat (length events) < i64_max)%Z ->
  exists state, fold_registry None (row_payload <$> (event_row <$> number registry_wrap 0 events)) = Ok state /\
    forall name, (state ≫= fun r => version_of r name) = last_version name events.
Proof.
  intros Hok Hl. destruct events as [|e events]; [by exists None|].
  apply Forall_cons in Hok as [He Hok]. cbn [length] in Hl.
  destruct (registry_row_reads e (0 + 1) He) as [Hr _]; [range|lia|].
  cbn [number fmap list_fmap fold_registry]. rewrite Hr. destruct e as [name version].
  destruct (fold_registry_Some (mkSchemaRegistry (<[name := version]> ∅)) events (0 + 1) Hok) as (registry & Hreplay & Hf);
    [lia|lia|].
  exists (Some registry). split; [exact Hf|]. intros n. rewrite <-recorded_replay.
  change (replay Uninitialized (VersionUpdated name version :: events))
    with (replay (Live (mkSchemaRegistry (<[name := version]> ∅))) events : RegistryLifecycle).
  by rewrite Hreplay.
Qed.

(** ** Reconciling *)

(** What [reconcile_target] answers for a log. *)
Definition reconciled (target : SchemaTarget) (es : list SchemaRegistryEvent) (db : Db) :
    result ReconcileError SchemaReconciliation * Db :=
  let stored := last_version (target_aggregate_type target) es in
  if bool_decide (stored = Some (target_version target)) then (Ok Unchanged, db)
  else if bool_decide (is_Some stored) && bool_decide (target_compaction target = CompactAfterSnapshot)
  then (Err (CompactedSnapshotClear (target_aggregate_type target) stored (target_version target)), db)
  else (Ok Changed, clear_snapshots (target_aggregate_type target) db).

Lemma wp_reconcile b target es db :
  registry_inv es db ->
  wp b (reconcile_target target) db (fun r db' =>
    (r, db') = reconciled target es db \/ b = true /\ db' = db /\ exists e, r = Err (ReSqlx e)).
Proof.
  intros (Hok & Hl & _ & Hrows). destruct (load_registry_state es Hok Hl) as (state & Hs & Hv).
  unfold reconcile_target, load_registry. wp_step. wp_step. wp_step.
  wp_step; [intros ->; right; naive_solver|]. cbn [map_err]. wp_step. rewrite Hrows, Hs, Hv.
  unfold reconciled. case_bool_decide; [wp_step; by left|].
  destruct (bool_decide _ && bool_decide _); [wp_step; by left|].
  wp_step. wp_step. wp_step; [intros ->; right; naive_solver|]. cbn [map_err]. wp_step. by left.
Qed.
(** ** Recording *)

Lemma registry_rows_bound es db r :
  registry_inv es db -> r ∈ stream_rows REGISTRY_TYPE REGISTRY_ID db ->
  (row_sequence r <= Z.of_nat (length es))%Z.
Proof.
  intros (_ & _ & _ & Hrows) Hr.
  assert (r ∈ select_events REGISTRY_TYPE REGISTRY_ID None db) as Hin.
  { rewrite select_events_perm. unfold visible. by apply list_elem_of_filter. }
  rewrite Hrows in Hin. apply list_elem_of_fmap in Hin as (e & -> & He).
  apply number_sequences in He; [|done]. simpl. lia.
Qed.

(** The next version of a type can be appended, and extends the log. *)
Lemma registry_inv_append es db name version :
  registry_inv es db -> in_u64 version = true -> (Z.of_nat (length es) + 1 < i64_max)%Z ->
  let event := registry_wrap (VersionUpdated name version) (Z.of_nat (length es) + 1) in
  insertable db [event] /\
  registry_inv (es ++ [VersionUpdated name version]) (append_events [event] db).
Proof.
  intros Hinv Hv Hl event. pose proof Hinv as (Hok & Hlen & Hk & Hrows).
  assert (insertable db [event]) as Hins.
  { unfold insertable. split_and!; [apply Forall_singleton; simpl; range|apply NoDup_singleton|].
    apply Forall_singleton. intros (r & Hr & Hin)%list_elem_of_fmap. unfold event_key, row_key in Hr. cbn in Hr.
    injection Hr as Ht Hid Hs.
    assert (row_sequence r <= Z.of_nat (length es))%Z; [|lia].
    eapply registry_rows_bound; [exact Hinv|]. unfold stream_rows. apply list_elem_of_filter.
    by rewrite in_stream_true. }
  split; [done|]. split_and!.
  - apply Forall_app. split; [done|]. by apply Forall_singleton.
  - rewrite length_app. simpl. lia.
  - by apply keys_unique_append.
  - rewrite select_events_append; [|done|done| | | |done].
    + rewrite Hrows, number_app, fmap_app. done.
    + by apply Forall_singleton.
    + repeat constructor.
    + apply Forall_singleton. cbn [ev_sequence event registry_wrap].
      apply Z.lt_succ_r, max_sequence_bound; [lia|]. apply Forall_forall. intros r Hr.
      by eapply registry_rows_bound.
Qed.

(** The log after recording a version: extended unless it already says so. *)
Definition registered (target : SchemaTarget) (es : list SchemaRegistryEvent) : list SchemaRegistryEvent :=
  if bool_decide (last_version (target_aggregate_type target) es = Some (target_version target)) then es
  else es ++ [VersionUpdated (target_aggregate_type target) (target_version target)].

(** The rows it adds to the log. *)
Definition registered_rows (target : SchemaTarget) (es : list SchemaRegistryEvent) (db : Db) : Db :=
  if bool_decide (last_version (target_aggregate_type target) es = Some (target_version target)) then db
  else append_events [registry_wrap (VersionUpdated (target_aggregate_type target) (target_version target))
                        (Z.of_nat (length es) + 1)] db.

Lemma registered_version target es name :
  last_version name (registered target es) =
    if String.eqb (target_aggregate_type target) name then Some (target_version target)
    else last_version name es.
Proof.
  unfold registered. case_bool_decide as Hv; [|apply last_version_app].
  by destruct (String.eqb_spec (target_aggregate_type target) name) as [<-|?].
Qed.

Lemma registry_events_read_from es n :
  Forall registry_event_ok es -> (0 <= n)%Z -> (n + Z.of_nat (length es) < i64_max)%Z ->
  collect row_to_serialized_event (event_row <$> number registry_wrap n es) =
    Ok (number registry_wrap n es) /\
  mapM (fun e => de (ev_payload e)) (number registry_wrap n es) = Some es.
Proof.
  revert n. induction es as [|e es IH]; intros n Hok Hn Hl; [done|].
  apply Forall_cons in Hok as [He Hok]. cbn [length] in Hl.
  destruct (registry_row_reads e (n + 1) He) as [_ Hr]; [range|lia|].
  destruct (IH (n + 1)%Z Hok) as [Hc Hm]; [lia|lia|]. split.
  - cbn [number fmap list_fmap collect]. by rewrite Hr, Hc.
  - cbn [number mapM]. destruct (registry_value_ok e He) as (Hce & _). cbn [registry_wrap ev_payload].
    rewrite Hce, (de_ser (P := registry_event_ok)) by done. cbn [mbind option_bind]. by rewrite Hm.
Qed.

Lemma registry_events_read es db :
  registry_inv es db ->
  collect row_to_serialized_event (select_events REGISTRY_TYPE REGISTRY_ID None db) =
    Ok (number registry_wrap 0 es) /\
  mapM (fun e => de (ev_payload e)) (number registry_wrap 0 es) = Some es.
Proof. intros (Hok & Hlen & _ & ->). by apply registry_events_read_from. Qed.

Lemma wp_record b target es db :
  registry_inv es db -> in_u64 (target_version target) = true ->
  (Z.of_nat (length es) + 1 < i64_max)%Z ->
  registry_inv (registered target es) (registered_rows target es db) /\
  wp b (record_target target) db (fun r db' =>
    r = Ok () /\ db' = registered_rows target es db \/ b = true /\ db' = db /\ exists e, r = Err e).
Proof.
  intros Hinv Hv Hl. destruct (registry_events_read es db Hinv) as [Hread Hde].
  pose proof (registry_inv_append es db (target_aggregate_type target) (target_version target) Hinv Hv Hl)
    as [Hins Hinv']. split.
  { unfold registered, registered_rows. by case_bool_decide. }
  unfold record_target, es_get_events, es_load_events. wp_step. wp_step. wp_step. wp_step. wp_step. wp_step.
  wp_step; [intros ->; right; by eauto|]. cbn [map_err]. wp_step. rewrite Hread. cbn [map_err].
  wp_step. wp_step. rewrite (load_context_replay _ _ Hde), last_number by done. cbn [map_err].
  rewrite handle_register by (by apply (recorded_replay_from Uninitialized es "")). rewrite recorded_replay.
  unfold registered_rows. case_bool_decide; [wp_step; by left|]. wp_step.
  eapply wp_mono; [apply es_persist_spec|]. intros [[]|e] db'; cbn.
  - intros [[_ ->] _]. by left.
  - intros [Hg Hd]. specialize (Hd eq_refl). right. destruct b; [naive_solver|].
    exfalso. by apply (Hg eq_refl).
Qed.
Lemma run_reconcile target es db :
  registry_inv es db -> run (reconcile_target target) db = reconciled target es db.
Proof.
  intros Hinv. pose proof (wp_run _ _ _ (wp_reconcile false target es db Hinv)) as [Hr|[[=] _]].
  by rewrite <-Hr, <-surjective_pairing.
Qed.

Lemma run_record target es db :
  registry_inv es db -> in_u64 (target_version target) = true -> (Z.of_nat (length es) + 1 < i64_max)%Z ->
  run (record_target target) db = (Ok (), registered_rows target es db).
Proof.
  intros Hinv Hv Hl. destruct (wp_record false target es db Hinv Hv Hl) as [_ Hw].
  apply wp_run in Hw as [[Hr Hd]|[[=] _]]. by destruct (run _ db); simpl in *; subst.
Qed.

Lemma lookup_cleared t k db :
  db_snapshots (clear_snapshots t db) !! k = if decide (k.1 = t) then None else db_snapshots db !! k.
Proof.
  simpl. rewrite map_lookup_filter. destruct (db_snapshots db !! k) as [row|]; simpl; [|by case_decide].
  case_decide as Hk; simpl; [by rewrite option_guard_False by naive_solver|by rewrite option_guard_True].
Qed.

Lemma committed_version_cleared t stream db :
  (forall id row, db_snapshots db !! (t, id) = Some row ->
     (snap_last_sequence row <= max_sequence (stream_rows t id db))%Z) ->
  committed_version stream (clear_snapshots t db) = committed_version stream db.
Proof.
  intros Hcov. unfold committed_version. rewrite lookup_cleared. simpl.
  change (stream_rows ?a ?i (clear_snapshots t db)) with (stream_rows a i db).
  case_decide as Ht; [subst t|done].
  pose proof (max_sequence_nonneg (stream_rows (stream_type stream) (stream_id stream) db)).
  destruct (db_snapshots db !! _) as [row|] eqn:Hrow; [|done]. simpl. specialize (Hcov _ _ Hrow). lia.
Qed.

(** C35: recording a schema version settles it.  On any registry, recording a type's
    version succeeds, after which reconciling that type finds it unchanged and does
    nothing, while every other type is reconciled as before; snapshots, views and
    the events of other streams are untouched.  Reconciling a type against its target
    answers [Unchanged], touching nothing, exactly when the target's version is the one
    last recorded; otherwise, for a compacting target over a recorded version, it answers
    the error [CompactedSnapshotClear] with both versions, touching nothing; and otherwise
    [Changed], having deleted the snapshots of the type and nothing else, which moves no
    stream's version as long as the events a snapshot covers are kept. *)
Theorem schema_version_settles target es db :
  registry_inv es db -> in_u64 (target_version target) = true -> (Z.of_nat (length es) + 1 < i64_max)%Z ->
  (exists db', run (record_target target) db = (Ok (), db') /\
     run (reconcile_target target) db' = (Ok Unchanged, db') /\
     db_snapshots db' = db_snapshots db /\ db_views db' = db_views db /\
     (forall t id, (t, id) <> (REGISTRY_TYPE, REGISTRY_ID) -> stream_rows t id db' = stream_rows t id db) /\
     (forall other, target_aggregate_type other <> target_aggregate_type target ->
        (run (reconcile_target other) db').1 = (run (reconcile_target other) db).1)) /\
  (let stored := last_version (target_aggregate_type target) es in
   let '(r, db') := run (reconcile_target target) db in
   (stored = Some (target_version target) /\ r = Ok Unchanged /\ db' = db \/
    stored <> Some (target_version target) /\ is_Some stored /\ target_compaction target = CompactAfterSnapshot /\
      r = Err (CompactedSnapshotClear (target_aggregate_type target) stored (target_version target)) /\ db' = db \/
    stored <> Some (target_version target) /\ (stored = None \/ target_compaction target = Retain) /\
      r = Ok Changed /\ db_events db' = db_events db /\ db_views db' = db_views db /\
      forall k, db_snapshots db' !! k = if decide (k.1 = target_aggregate_type target) then None else db_snapshots db !! k) /\
   ((forall id row, db_snapshots db !! (target_aggregate_type target, id) = Some row ->
       (snap_last_sequence row <= max_sequence (stream_rows (target_aggregate_type target) id db))%Z) ->
    forall stream, committed_version stream db' = committed_version stream db)).
Proof.
  intros Hinv Hv Hl. split.
  - destruct (wp_record false target es db Hinv Hv Hl) as [Hinv' _].
    exists (registered_rows target es db). split_and!; [by apply run_record| | | | |].
    + rewrite (run_reconcile _ _ _ Hinv'). unfold reconciled. rewrite registered_version, String.eqb_refl.
      by rewrite bool_decide_eq_true_2.
    + unfold registered_rows. by case_bool_decide.
    + unfold registered_rows. by case_bool_decide.
    + intros t id Hne. unfold registered_rows. case_bool_decide; [done|].
      apply stream_rows_append_other. repeat constructor. unfold in_stream_event. simpl. naive_solver.
    + intros other Hne. rewrite (run_reconcile _ _ _ Hinv'), (run_reconcile _ _ _ Hinv). unfold reconciled.
      rewrite registered_version. rewrite (proj2 (String.eqb_neq _ _)) by done.
      case_bool_decide; [done|]. by destruct (_ && _).
  - rewrite (run_reconcile _ _ _ Hinv). unfold reconciled. cbv zeta.
    case_bool_decide; [by split; [left|]|]. destruct (_ && _) eqn:Hc.
    + apply andb_true_iff in Hc as [Hs%bool_decide_eq_true Hp%bool_decide_eq_true].
      split; [right; left; by split_and!|done].
    + apply andb_false_iff in Hc. split; [|intros Hcov stream; by apply committed_version_cleared].
      right; right. split; [done|]. split.
      { destruct Hc as [Hs%bool_decide_eq_false|Hp%bool_decide_eq_false].
        - left. destruct (last_version _ es); [exfalso; by apply Hs|done].
        - right. by destruct (target_compaction target). }
      split_and!; [done..|]. intros k. apply lookup_cleared.
Qed.
End reconciler_props.
