(* ===== verification/JobHistory.v ===== *)
(** * Histories of a job

    Every way in which the life of one durable job can interleave: enqueue, claims
    by any worker, renewals, settlements handled against a possibly stale state
    (src/crates/event-sorcery/src/lib.rs [Store::send]), the projection of
    settlements into the queue row (src/crates/event-sorcery/src/projection.rs), and
    unrelated activity, each under any fault schedule.

    [job_step] is the step relation on the job's durable log and the database;
    [job_history] is the invariant of JobQueueProps.v along every history, and
    [settlement_settles_its_claim] the fencing guarantee. *)

From S2P Require Import Prelude Json Sqlite EventTable Lifecycle Job Engine EngineProps.
From S2P Require Import ViewRepository JobQueue JobQueueProps Repository.

(** The values the command types can hold. *)
Definition command_ok `{Chrono} (c : JobCommand) : Prop :=
  match c with
  | Succeed _ | Kill _ _ _ => True
  | RetrySchedule _ run_at attempt _ => representable run_at = true /\ in_u32 attempt = true
  | Reschedule _ run_at => representable run_at = true
  end.

Section history.
Context `{SerdeJsonLaws, ChronoLaws, Ulid, SqliteJson}.

(** ** Settlement *)

(** A settlement command run from a loaded state. *)
Definition settle (job_id : string) (state : JobLifecycle) (sequence : Z) (command : JobCommand)
    (snapshot_update : option SnapshotOf) :
    option (M (AggregateError (LifecycleError JobState JobEvent JobError)) ()) :=
  execute_from (fun e seq => serialized e job_id seq) 0 (fun _ => 0%Z) JOB_AGGREGATE_TYPE
    state sequence command snapshot_update.

Lemma transition_event s command e :
  job_transition s command = Ok (Events [e]) -> command_ok command ->
  event_storable e /\ is_claim e = false.
Proof.
  destruct s; try done. simpl. destruct (String.eqb _ _); [|done].
  intros [= <-]. unfold event_storable. destruct command; simpl; naive_solver.
Qed.

(** What a job's handler decides: nothing for a job that does not exist, one
    outcome event for the holder of the claim. *)
Lemma handle_job state command events pending' :
  handle state command (Some []) = (Ok events, pending') ->
  pending' = Some [] /\
  ((state = Uninitialized /\ events = []) \/
   exists s e s', state = Live s /\ events = [e] /\ held_claim s = Some (command_claim_id command) /\
     job_transition s command = Ok (Events [e]) /\ job_evolve s e = Ok (Some s')).
Proof.
  unfold handle. destruct state as [|s|err l]; simpl; [|intros Hh|done].
  { intros [= <- <-]. auto. }
  destruct (job_transition s command) as [[evs|d]|] eqn:Ht; simpl in Hh; [| |done].
  - destruct (job_transition_holder _ _ _ Ht) as (Hheld & e & s' & [= ->] & Hev & _).
    simpl in Hh. rewrite Hev in Hh. injection Hh as <- <-. split; [done|]. right. eauto 10.
  - destruct (job_transition_holder _ _ _ Ht) as (_ & e & s' & [=] & _).
Qed.

(** A snapshot of the job the framework may write alongside. *)
Definition snapshot_for (job_id : string) (snapshot_update : option SnapshotOf) : Prop :=
  match snapshot_update with None => True | Some (id, _, _) => id = job_id end.

(** Appending the outcome keeps the invariant; the row lags by one event. *)
Lemma job_inv_settled job_id es db e s s' snapshot_update :
  job_inv job_id es db -> snapshot_for job_id snapshot_update ->
  replay Uninitialized es = Live s -> job_evolve s e = Ok (Some s') ->
  event_storable e -> is_claim e = false -> es <> [] ->
  job_inv job_id (es ++ [e])
    (committed (persist_request JOB_AGGREGATE_TYPE
       [serialized e job_id (Z.of_nat (length es) + 1)] snapshot_update []) db).
Proof.
  intros Hinv Hsnap Hr Hev Hst Hc Hne. unfold committed, persist_request. cbn [cr_jobs cr_stream cr_events cr_snapshot].
  cbn [jobs_flushed fold_left]. set (ev := serialized e job_id _).
  assert (forall x db0, db_views (snapshot_written x [ev] ((fun u => mkSnapshotUpdate u.1.2 u.2) <$> snapshot_update) db0) = db_views db0) as Hviews.
  { intros x db0. unfold snapshot_written. by destruct snapshot_update. }
  split.
  - unfold stream_rows. rewrite snapshot_written_events.
    apply (stream_rows_append_job job_id es e db Hinv).
  - unfold view_table. rewrite Hviews. change (default ∅ (db_views (append_events [ev] db) !! JOB_QUEUE)) with (view_table JOB_QUEUE db).
    pose proof (ji_row _ _ _ Hinv) as Hrow. destruct (view_table JOB_QUEUE db !! job_id); [|done].
    destruct Hrow as (n & s0 & Hv & Hn & Hrn & Hp & Hdrop). exists n, s0.
    rewrite length_app, take_app_le, drop_app_le by done. split_and!; try done; [lia|].
    apply Forall_app. split; [done|]. by constructor.
  - by rewrite (replay_snoc _ _ _ _ Hr Hev).
  - apply Forall_app. split; [apply Hinv|by constructor].
Qed.

Lemma wp_settle b job_id es db n command snapshot_update m :
  job_inv job_id es db -> command_ok command -> snapshot_for job_id snapshot_update ->
  n <= length es ->
  settle job_id (replay Uninitialized (take n es)) (Z.of_nat n) command snapshot_update = Some m ->
  wp b m db (fun r db' =>
    match r with
    | Err _ => db' = db
    | Ok _ =>
        (take n es = [] /\ db' = db) \/
        exists s e request, n = length es /\ replay Uninitialized es = Live s /\
          held_claim s = Some (command_claim_id command) /\ job_transition s command = Ok (Events [e]) /\
          job_inv job_id (es ++ [e]) db' /\ accepted request db /\ db' = committed request db
    end).
Proof.
  intros Hinv Hcmd Hsnap Hn Hm. unfold settle, execute_from in Hm.
  destruct (handle _ command (Some [])) as [[events|err] pending'] eqn:Hh; [|injection Hm as <-; by wp_step].
  destruct (handle_job _ _ _ _ Hh) as [-> [[Hu ->]|(s & e & s' & Hs & -> & Hheld & Ht & Hev)]].
  - injection Hm as <-. wp_step. left. split; [|done].
    destruct (take n es) as [|e0 l]; [done|]. simpl in Hu. destruct e0; simpl in Hu;
      try (apply (f_equal failed) in Hu; by rewrite replay_failed in Hu).
    exfalso. clear -Hu. revert Hu. generalize (Pending kind payload run_at 0 0). intros s.
    revert s. induction l as [|e l IH]; intros s Hu; [done|]. simpl in Hu.
    destruct (job_evolve s e) as [[s'|]|]; [by eapply IH|..];
      apply (f_equal failed) in Hu; by rewrite replay_failed in Hu.
  - apply bind_Some in Hm as (p & Hp & [= <-]). cbn [number] in Hp.
    wp_step. wp_step. eapply wp_mono; [eapply wp_persist; exact Hp|].
    intros [pending|err] db'; cbn; [|done].
    intros (prepared & [= <-] & -> & Ha & ->). wp_step. right.
    assert (n = length es) as ->.
    { pose proof Ha as (_ & _ & Hi & _). exact (append_at_head _ _ _ _ _ Hinv Hn Hi). }
    rewrite take_ge in Hs by done. destruct (transition_event _ _ _ Ht Hcmd) as [Hst Hc].
    exists s, e. eexists. split_and!; try done.
    eapply job_inv_settled; try done. intros ->. done.
Qed.

(** ** Projection *)

(** A live stream's nonempty prefixes are live. *)
Lemma replay_prefix_live es n :
  failed (replay Uninitialized es) = false -> 0 < n -> n <= length es ->
  exists s, replay Uninitialized (take n es) = Live s.
Proof.
  intros Hf Hn Hl. rewrite <-(take_drop n es), replay_app in Hf.
  destruct (replay Uninitialized (take n es)) as [|s|err l] eqn:Hr.
  - exfalso. destruct es as [|e es]; [simpl in *; lia|]. destruct n as [|n]; [lia|].
    cbn [take] in Hr. destruct e; simpl in Hr;
      try (apply (f_equal failed) in Hr; by rewrite replay_failed in Hr).
    revert Hr. generalize (Pending kind payload run_at 0 0). clear. intros s.
    revert s. induction (take n es) as [|e l IH]; intros s Hu; [done|]. simpl in Hu.
    destruct (job_evolve s e) as [[s'|]|]; [by eapply IH|..];
      apply (f_equal failed) in Hu; by rewrite replay_failed in Hu.
  - by exists s.
  - by rewrite replay_failed in Hf.
Qed.

(** Advancing the row by the next event of the stream. *)
Lemma job_inv_project job_id es db n e old :
  well_formed db -> job_inv job_id es db -> es !! n = Some e ->
  view_table JOB_QUEUE db !! job_id = Some old -> view_version old = Z.of_nat n ->
  job_inv job_id es
    (set_view JOB_QUEUE job_id
       (mkViewRow (i64_add (Z.of_nat n) 1)
          (lifecycle_text (apply (replay Uninitialized (take n es)) e)) (view_lease_until old)) db).
Proof.
  intros Hwf Hinv He Hold Hv. destruct (read_row _ _ _ _ Hinv Hold) as (n' & s & Hv' & Hn & Hr & _ & _ & _ & Hc).
  assert (n' = n) as -> by lia. pose proof (lookup_lt_Some _ _ _ He) as Hlt.
  assert (take (S n) es = take n es ++ [e]) as Htake by (by apply take_S_r).
  destruct (replay_prefix_live es (S n)) as [s' Hs']; [apply Hinv|lia|lia|].
  assert (apply (replay Uninitialized (take n es)) e = Live s') as Happ
    by (by rewrite Htake, replay_app in Hs').
  destruct Hinv as [Hlog Hrow Hlive Hsto]. split; try done.
  unfold set_view, view_table at 1. simpl. rewrite lookup_insert_eq. simpl. rewrite lookup_insert_eq.
  exists (S n), s'. rewrite Happ. split_and!; try done.
  - cbn [view_version]. rewrite i64_add_small; [lia|].
    replace (Z.of_nat n + 1)%Z with (Z.of_nat (S n)) by lia.
    eapply version_in_i64; [exact Hwf| |exact Hlt]. by split.
  - rewrite (drop_S _ _ _ He) in Hc. by apply Forall_cons in Hc as [_ ?].
Qed.

(** ** Steps *)

Definition log_after_claim (es : list JobEvent) (worker fresh : string) (lease_until : Z)
    (r : result SqliteJobError (ClaimOutcome WonClaim)) : list JobEvent :=
  match r with
  | Ok (OutcomeWon _) => es ++ [ClaimedEv worker fresh lease_until]
  | Ok OutcomeAbandoned => es ++ [DeadEv Abandoned "claim budget exhausted"]
  | _ => es
  end.

(** What happens to the job or around it. *)
Inductive JobAction : Type :=
| ActEnqueue
| ActClaim (now_ms : Z)
| ActRenew (claim_seq : Z)
| ActSettle (command : JobCommand)
| ActProject
| ActOther.

(** A reaction applies the event it was handed, the [k]-th, to whatever row it loaded,
    which folds [n] events.  It is in turn if the event is the next one of the row: so
    it is unless a claim or another reaction overtook it, or an earlier one was lost
    ([overtaking_reaction_not_caught_up] of ViewWitnesses.v shows what happens then). *)
Definition in_turn (n k : nat) : Prop := k = n.

(** [step_settle] and [step_project] are the two halves of [Store::send]: the commit,
    against any state the job ever had, and the reaction to it, later. *)
Inductive job_act (job_id : string) : JobAction -> list JobEvent * Db -> list JobEvent * Db -> Prop :=
| step_enqueue es request w r w' :
    ulid_to_string (req_job_id request) = job_id ->
    event_storable (Enqueued (req_kind request) (req_payload request) (req_run_at_ms request)) ->
    enqueue_job (job_event_of request) (view_payload (job_row_of request)) w = (r, w') ->
    job_act job_id ActEnqueue (es, w_db w)
      (match r with
       | Ok _ => es ++ [Enqueued (req_kind request) (req_payload request) (req_run_at_ms request)]
       | Err _ => es
       end, w_db w')
| step_claim es worker now_ms lease_ms max_claims fresh w r w' :
    in_u32 max_claims = true ->
    claim_job job_id (fun read => plan_claim job_id read worker now_ms lease_ms max_claims fresh) w = (r, w') ->
    job_act job_id (ActClaim now_ms) (es, w_db w) (log_after_claim es worker fresh (now_ms + lease_ms) r, w_db w')
| step_renew es claim_seq new_lease w r w' :
    renew_job job_id claim_seq new_lease w = (r, w') ->
    job_act job_id (ActRenew claim_seq) (es, w_db w) (es, w_db w')
| step_settle es n command snapshot_update m w r w' events pending :
    command_ok command -> snapshot_for job_id snapshot_update -> n <= length es ->
    settle job_id (replay Uninitialized (take n es)) (Z.of_nat n) command snapshot_update = Some m ->
    handle (replay Uninitialized (take n es)) command (Some []) = (events, pending) ->
    m w = (r, w') ->
    job_act job_id (ActSettle command) (es, w_db w)
      (match r, events with Ok _, Ok events => es ++ events | _, _ => es end, w_db w')
| step_project es n k e w r w' :
    es !! k = Some e -> in_turn n k ->
    update_view JOB_QUEUE (apply (replay Uninitialized (take n es)) e : JobLifecycle)
      (mkViewContext job_id (Z.of_nat n)) w = (r, w') ->
    job_act job_id ActProject (es, w_db w) (es, w_db w')
| step_other es db db' :
    well_formed db' ->
    stream_rows JOB_AGGREGATE_TYPE job_id db' = stream_rows JOB_AGGREGATE_TYPE job_id db ->
    view_table JOB_QUEUE db' !! job_id = view_table JOB_QUEUE db !! job_id ->
    job_act job_id ActOther (es, db) (es, db').

Definition job_step (job_id : string) (c c' : list JobEvent * Db) : Prop :=
  exists action, job_act job_id action c c'.

Definition history_inv (job_id : string) (c : list JobEvent * Db) : Prop :=
  well_formed c.2 /\ job_inv job_id c.1 c.2.

(** A job is enqueued once: with any event in its stream the append conflicts. *)
Lemma enqueue_step job_id es request db :
  ulid_to_string (req_job_id request) = job_id ->
  event_storable (Enqueued (req_kind request) (req_payload request) (req_run_at_ms request)) ->
  history_inv job_id (es, db) -> insertable db [job_event_of request] ->
  es = [] /\ history_inv job_id
    ([Enqueued (req_kind request) (req_payload request) (req_run_at_ms request)],
     swapped job_id (job_event_of request) (view_payload (job_row_of request)) None db).
Proof.
  intros Hid Hst [Hwf Hinv] Hi. unfold job_event_of in *. rewrite Hid in *. simpl in *.
  assert (0 = length es) as Hlen by (by eapply (append_at_head _ _ _ _ 0 Hinv); [lia|]).
  destruct es; [|done]. split; [done|]. split; [simpl; auto with sorcery|]. split.
  - pose proof (stream_rows_append_job job_id [] (Enqueued (req_kind request) (req_payload request)
      (req_run_at_ms request)) db Hinv) as Hrows. exact Hrows.
  - unfold swapped, view_table. cbn. rewrite lookup_insert_eq. cbn. rewrite lookup_insert_eq.
    exists 1. eexists. split_and!; [done|simpl; lia|done|done|constructor].
  - done.
  - by constructor.
Qed.

(** A settlement handled against the state after [n] events extends the log by what
    its handler returned, if anything was persisted at all. *)
Lemma settle_step job_id es n command su m w r w' events pending :
  history_inv job_id (es, w_db w) -> command_ok command -> snapshot_for job_id su -> n <= length es ->
  settle job_id (replay Uninitialized (take n es)) (Z.of_nat n) command su = Some m ->
  handle (replay Uninitialized (take n es)) command (Some []) = (events, pending) -> m w = (r, w') ->
  let log := match r, events with Ok _, Ok events => es ++ events | _, _ => es end in
  history_inv job_id (log, w_db w') /\ es `prefix_of` log.
Proof.
  intros [Hwf Hinv] Hcmd Hsu Hn Hm Hh Hop. cbn [fst snd] in *.
  pose proof (wp_world _ w _ (wp_settle true _ _ _ _ _ _ _ Hinv Hcmd Hsu Hn Hm)) as Hw.
  rewrite Hop in Hw. simpl in Hw. destruct r as [[]|e]; [|rewrite Hw; by split].
  destruct Hw as [[Hnil Hdb]|(s & e & request & -> & Hr & Hheld & Ht & Hinv' & Ha & Hdb)].
  + rewrite Hnil in Hh. injection Hh as <- <-. rewrite app_nil_r, Hdb. by split.
  + rewrite take_ge in Hh by done. destruct events as [events|err].
    * destruct (handle_job _ _ _ _ Hh) as [_ [[Hu _]|(s1 & e1 & s1' & Hs1 & -> & _ & Ht1 & _)]];
        [by rewrite Hr in Hu|]. rewrite Hr in Hs1. injection Hs1 as <-. rewrite Ht in Ht1.
      injection Ht1 as <-. split; [|by apply prefix_app_r]. split; [|done]. simpl.
      rewrite Hdb. by apply well_formed_committed.
    * exfalso. unfold handle in Hh. rewrite Hr in Hh. simpl in Hh. rewrite Ht in Hh. simpl in Hh.
      destruct (job_transition_holder _ _ _ Ht) as (_ & e1 & s1 & [= <-] & Hev & _).
      by rewrite Hev in Hh.
Qed.

Lemma history_step job_id c c' :
  job_step job_id c c' -> history_inv job_id c -> history_inv job_id c' /\ c.1 `prefix_of` c'.1.
Proof.
  intros [action Hs] [Hwf Hinv]. destruct Hs as
    [es request w r w' Hid Hst Hop|es worker now lease mx fresh w r w' Hm Hop|es seq nl w r w' Hop
    |es n command su m w r w' events pending Hcmd Hsu Hn Hm Hh Hop|es n k e w r w' He -> Hop|es db db' Hwf' Hs Hv];
    cbn [fst snd] in *.
  - pose proof (wp_world _ w _ (wp_enqueue_job true (job_event_of request)
      (view_payload (job_row_of request)) (w_db w))) as Hw. rewrite Hop in Hw. simpl in Hw.
    destruct r as [[]|e]; [|destruct Hw as [-> _]; by split]. destruct Hw as [Hi Hdb].
    destruct (enqueue_step job_id es request (w_db w)) as [-> Hinv']; [done|done|by split|done|].
    rewrite <-Hid in Hinv' at 2. change (ulid_to_string (req_job_id request))
      with (ev_aggregate_id (job_event_of request)) in Hinv'. rewrite Hdb.
    split; [exact Hinv'|apply prefix_nil].
  - pose proof (claim_spec job_id es w worker now lease mx fresh Hwf Hinv Hm) as Hc. rewrite Hop in Hc.
    unfold log_after_claim. destruct r as [[won| | |]|e]; simpl in *.
    3-5: rewrite Hc; by split.
    + destruct Hc as (s & row & row' & Hc). split; [|by apply prefix_app_r]. split; simpl; tauto.
    + destruct Hc as (s & Hc). split; [|by apply prefix_app_r]. split; simpl; tauto.
  - pose proof (wp_world _ w _ (wp_renew_job true job_id seq nl (w_db w))) as Hw.
    rewrite Hop in Hw. simpl in Hw. split; [|done].
    destruct Hw as [[_ ->]|(_ & row & Hrow & _ & _ & ->)]; [by split|].
    split; [simpl; auto with sorcery|by apply job_inv_lease].
  - exact (settle_step job_id es n command su m w r w' events pending (conj Hwf Hinv) Hcmd Hsu Hn Hm Hh Hop).
  - pose proof (wp_world _ w _ (wp_update_view true JOB_QUEUE (apply (replay Uninitialized (take n es)) e : JobLifecycle)
      (mkViewContext job_id (Z.of_nat n)) (w_db w))) as Hw. rewrite Hop in Hw. simpl in Hw.
    split; [|done]. destruct r as [[]|err]; [|rewrite Hw; by split].
    destruct Hw as [(_ & Hnone & _)|(old & Hold & Hv & ->)].
    + pose proof (ji_row _ _ _ Hinv) as Hrow. rewrite Hnone in Hrow. by subst.
    + split; [simpl; auto with sorcery|]. by apply job_inv_project.
  - split; [|done]. split; [done|]. destruct Hinv as [Hlog Hrow Hlive Hsto].
    split; simpl; [by rewrite Hs|by rewrite Hv|done|done].
Qed.

(** C11: in every history, whatever the interleaving of workers, settlements handled
    against stale states, reactions in turn (each to the next event of the row it
    loaded, written or refused later) and driver failures, the database keeps its
    schema invariant, the job's stored stream is exactly its log, which only ever
    grows and always folds to a state that has not failed, and the queue row is
    the fold of a prefix of that log reaching at least its last claim. *)
Theorem job_history job_id c c' :
  rtc (job_step job_id) c c' -> history_inv job_id c ->
  history_inv job_id c' /\ c.1 `prefix_of` c'.1.
Proof.
  induction 1 as [c|c1 c2 c3 Hs _ IH]; intros Hinv; [done|].
  destruct (history_step _ _ _ Hs Hinv) as [Hinv2 Hp]. destruct (IH Hinv2) as [Hinv3 Hp'].
  split; [done|]. by etransitivity.
Qed.

(** C6: a settlement settles the claim it was made under, and nothing else.  A
    command carrying a claim id, handled against any state the aggregate ever had
    (however stale) and persisted under any fault schedule, takes effect only if
    the durable stream still ends in the very claim with that id and the state was
    not stale; it then appends exactly one outcome event.  In every other case (a
    re-claim, an earlier settlement, a dead letter, a conflict) nothing is
    written. *)
Theorem settlement_settles_its_claim job_id es n command snapshot_update m w :
  history_inv job_id (es, w_db w) -> command_ok command ->
  snapshot_for job_id snapshot_update -> 1 <= n <= length es ->
  settle job_id (replay Uninitialized (take n es)) (Z.of_nat n) command snapshot_update = Some m ->
  match m w with
  | (Err _, w') => w_db w' = w_db w
  | (Ok _, w') => n = length es /\
      exists worker lease e,
        last es = Some (ClaimedEv worker (command_claim_id command) lease) /\ is_claim e = false /\
        history_inv job_id (es ++ [e], w_db w')
  end.
Proof.
  intros [Hwf Hinv] Hcmd Hsu [Hn1 Hn] Hm. cbn [fst snd] in *.
  pose proof (wp_world _ w _ (wp_settle true _ _ _ _ _ _ _ Hinv Hcmd Hsu Hn Hm)) as Hw.
  destruct (m w) as [[[]|e] w']; cbn [fst snd] in *; [|done].
  destruct Hw as [[Hnil _]|(s & e & request & -> & Hr & Hheld & Ht & Hinv' & Ha & Hdb)].
  { destruct es; [simpl in *; lia|]. by destruct n; [lia|]. }
  split; [done|]. destruct s; try done. injection Hheld as Hheld.
  destruct (replay_claimed_last _ _ _ _ _ _ _ _ Hr) as (es' & lease & Hes).
  destruct (transition_event _ _ _ Ht Hcmd) as [_ Hc].
  exists worker, lease, e. split_and!; [by rewrite Hes, last_snoc, Hheld|done|].
  split; [|done]. simpl. rewrite Hdb. by apply well_formed_committed.
Qed.

(** Outcomes that end a claim. *)
Definition is_outcome (e : JobEvent) : bool :=
  match e with Succeeded | RetryScheduled _ _ _ | Rescheduled _ => true | _ => false end.

(** One outcome per claim.  In the stream of any job, every success, retry or
    reschedule is recorded directly after a claim; so between two claims there is
    at most one of them, and none without a claim. *)
Theorem outcomes_follow_claims job_id es db i e :
  job_inv job_id es db -> es !! i = Some e -> is_outcome e = true ->
  exists j worker cid lease, i = S j /\ es !! j = Some (ClaimedEv worker cid lease).
Proof.
  intros Hinv He Ho. pose proof (lookup_lt_Some _ _ _ He) as Hlt. destruct i as [|i].
  { destruct (replay_prefix_live es 1) as [s Hs]; [apply Hinv|lia|lia|].
    rewrite (take_S_r _ _ _ He) in Hs. by destruct e. }
  destruct (replay_prefix_live es (S i)) as [s Hs]; [apply Hinv|lia|lia|].
  destruct (replay_prefix_live es (S (S i))) as [s' Hs']; [apply Hinv|lia|lia|].
  rewrite (take_S_r _ _ _ He), replay_app, Hs in Hs'. simpl in Hs'.
  destruct s; destruct e; try done. all: apply replay_claimed_last in Hs as (es' & lease & Hes).
  all: exists i, worker, claim_id, lease; split; [done|].
  all: destruct (es !! i) as [x|] eqn:Hx; [|apply lookup_ge_None in Hx; lia].
  all: rewrite (take_S_r _ _ _ Hx) in Hes; by apply app_inj_tail in Hes as [_ ->].
Qed.
End history.
