(* ===== verification/History.v ===== *)
(** * Histories of the storage engine

    [engine_step] is any one write of the database, under any fault schedule: versioned
    commits, opaque commits, unversioned commits, snapshot writes and discards,
    compaction, the repository of sqlite-es, the job primitives, and whatever touches
    neither events nor snapshots (projections, leases).  Along every history the schema
    invariant holds and stream versions never decrease ([engine_history]), hence a
    version can be committed at most once ([version_committed_once]).

    Two of them are restricted, because they can lower a version: an unversioned commit
    (the native repository's persist) must not put back a snapshot that stands further,
    and a snapshot may be discarded only where the events still reach it.  Without
    this a stale writer is accepted after compaction
    ([stale_persist_accepted_after_compaction] in Witnesses.v). *)

From S2P Require Import Prelude Json Sqlite EventTable Lifecycle Job Engine EngineProps.
From S2P Require Import EnginePaging ViewRepository JobQueue JobQueueProps Repository SqliteEs.

Section history.
Context `{SerdeJsonLaws, Chrono, Ulid, SqliteJson}.

(** The snapshot a commit writes stands no earlier than the one it replaces. *)
Definition keeps_snapshot (request : CommitRequest) (db : Db) : Prop :=
  match cr_snapshot request, last (cr_events request) with
  | Some _, Some e =>
      from_option (fun row => snap_last_sequence row <= ev_sequence e)%Z True
        (db_snapshots db !! (stream_type (cr_stream request), stream_id (cr_stream request)))
  | _, _ => True
  end.

(** The events of the stream reach its snapshot. *)
Definition events_reach (stream : StreamIdentity) (db : Db) : Prop :=
  from_option (fun row => snap_last_sequence row <=
      max_sequence (stream_rows (stream_type stream) (stream_id stream) db))%Z True
    (db_snapshots db !! (stream_type stream, stream_id stream)).

Inductive engine_step : Db -> Db -> Prop :=
| step_commit request expected w r w' :
    cr_expected_version request = Some expected ->
    commit request w = (r, w') -> engine_step (w_db w) (w_db w')
| step_commit_opaque request w r w' :
    commit_opaque request w = (r, w') -> engine_step (w_db w) (w_db w')
| step_commit_unversioned request w r w' :
    cr_expected_version request = None -> keeps_snapshot request (w_db w) ->
    commit request w = (r, w') -> engine_step (w_db w) (w_db w')
| step_es_persist t events update w r w' :
    es_persist t events update w = (r, w') -> engine_step (w_db w) (w_db w')
| step_discard_snapshot stream w r w' :
    events_reach stream (w_db w) -> discard_snapshot stream w = (r, w') -> engine_step (w_db w) (w_db w')
| step_views db db' :
    db_events db' = db_events db -> db_snapshots db' = db_snapshots db -> engine_step db db'
| step_store_snapshot stream snapshot w r w' :
    (0 <= sw_last_sequence snapshot)%Z ->
    store_snapshot stream snapshot w = (r, w') -> engine_step (w_db w) (w_db w')
| step_compact t policy w r w' :
    compact_events t policy w = (r, w') -> engine_step (w_db w) (w_db w')
| step_enqueue_job event payload w r w' :
    enqueue_job event payload w = (r, w') -> engine_step (w_db w) (w_db w')
| step_claim_job {Won} job_id (decide : option ClaimRead -> ClaimDecision Won) w r w' :
    claim_job job_id decide w = (r, w') -> engine_step (w_db w) (w_db w')
| step_renew_job job_id claim_seq new_lease w r w' :
    renew_job job_id claim_seq new_lease w = (r, w') -> engine_step (w_db w) (w_db w').

Definition good (db db' : Db) : Prop := well_formed db' /\ version_le db db'.

Lemma good_refl db : well_formed db -> good db db.
Proof. by split. Qed.

Lemma good_swapped job_id event payload lease db :
  well_formed db -> insertable db [event] -> good db (swapped job_id event payload lease db).
Proof.
  intros Hwf Hi. split; [auto with sorcery|].
  apply (version_le_append [event] db).
Qed.

Lemma good_committed request v db :
  well_formed db -> accepted request db -> cr_expected_version request = Some v ->
  good db (committed request db).
Proof. intros. split; [by apply well_formed_committed|by eapply version_le_committed]. Qed.

(** An unversioned commit that does not put a snapshot back. *)
Lemma good_unversioned request db :
  well_formed db -> accepted request db -> keeps_snapshot request db -> good db (committed request db).
Proof.
  intros Hwf Ha Hk. split; [by apply well_formed_committed|]. unfold committed.
  etransitivity; [|apply version_le_jobs_flushed]. unfold snapshot_written, keeps_snapshot in *.
  etransitivity; [apply (version_le_append (cr_events request))|].
  destruct (cr_snapshot request) as [s|]; [|reflexivity].
  destruct (last (cr_events request)) as [e|] eqn:Hl; [|reflexivity].
  by apply version_le_set_snapshot.
Qed.

(** The upsert of sqlite-es only moves a snapshot on. *)
Lemma good_es_persisted t events update db :
  well_formed db -> insertable db events -> snapshot_guard t events update db ->
  good db (es_persisted t events update db).
Proof.
  intros Hwf Hi Hg. pose proof (well_formed_append events db Hwf Hi) as Hwf'.
  pose proof (version_le_append events db) as Hle. unfold es_persisted, snapshot_guard in *.
  destruct update as [[[id aggregate] version]|]; [|by split].
  destruct Hg as (e & Hl & Hr & Hv & Hrow). rewrite Hl.
  split; [by apply well_formed_set_snapshot|]. etransitivity; [exact Hle|].
  apply version_le_set_snapshot. cbn [db_snapshots append_events set_events snap_last_sequence].
  destruct (db_snapshots db !! (t, id)) as [row|]; [|done]. specialize (Hrow row eq_refl). cbn. lia.
Qed.

Lemma good_discarded stream db :
  well_formed db -> events_reach stream db ->
  good db (delete_snapshot (stream_type stream, stream_id stream) db).
Proof.
  intros [Hk Hs Hn] Hr. split; [split; [done..|by apply map_Forall_delete]|].
  intros other. unfold committed_version, stream_rows, events_reach in *. cbn [db_snapshots db_events delete_snapshot].
  destruct (decide ((stream_type other, stream_id other) = (stream_type stream, stream_id stream))) as [[= -> ->]|Hne].
  - rewrite lookup_delete_eq. cbn. destruct (db_snapshots db !! _); cbn in *; [|lia].
    pose proof (max_sequence_nonneg (stream_rows (stream_type stream) (stream_id stream) db)).
    unfold stream_rows in *. lia.
  - rewrite lookup_delete_ne by congruence. lia.
Qed.

Lemma engine_step_good db db' : engine_step db db' -> well_formed db -> good db db'.
Proof.
  intros Hs Hwf. destruct Hs as
    [request v w r w' Hv Hop|request w r w' Hop|request w r w' Hv Hk Hop|t events update w r w' Hop
    |stream w r w' Hr Hop|db db' He Hsn|stream snapshot w r w' Hz Hop|t policy w r w' Hop
    |event payload w r w' Hop|Won job_id dec w r w' Hop|job_id seq lease w r w' Hop].
  - pose proof (wp_world _ w _ (wp_commit true request (w_db w))) as Hw. rewrite Hop in Hw. simpl in Hw.
    destruct r as [[]|e]; [|destruct Hw as [_ ->]; [by apply good_refl|done]].
    destruct Hw as [[[_ Ha] ->] _]. by eapply good_committed.
  - pose proof (wp_world _ w _ (wp_commit_opaque true request (w_db w))) as Hw. rewrite Hop in Hw. simpl in Hw.
    destruct r as [[]|e]; [|destruct Hw as [-> _]; [by apply good_refl|done]].
    destruct Hw as [_ Hw]. destruct (Hw eq_refl) as (serialized & _ & Ha & ->). by eapply good_committed.
  - pose proof (wp_world _ w _ (wp_commit true request (w_db w))) as Hw. rewrite Hop in Hw. simpl in Hw.
    destruct r as [[]|e]; [|destruct Hw as [_ ->]; [by apply good_refl|done]].
    destruct Hw as [[[_ Ha] ->] _]. by apply good_unversioned.
  - pose proof (wp_world _ w _ (es_persist_spec true t events update (w_db w))) as Hw. rewrite Hop in Hw. simpl in Hw.
    destruct r as [[]|e]; [|destruct Hw as [_ ->]; [by apply good_refl|done]].
    destruct Hw as [[[Hi Hg] ->] _]. by apply good_es_persisted.
  - assert (wp true (discard_snapshot stream) (w_db w) (fun _ db' => db' = w_db w \/
      db' = delete_snapshot (stream_type stream, stream_id stream) (w_db w))) as Hc.
    { unfold discard_snapshot. wp_step. apply wp_statement; simpl; auto. }
    apply wp_world in Hc. rewrite Hop in Hc. simpl in Hc.
    destruct Hc as [->| ->]; [by apply good_refl|by apply good_discarded].
  - destruct Hwf as [Hk Hs Hn]. split; [split; unfold keys_unique in *; by rewrite ?He, ?Hsn|].
    intros stream. unfold committed_version, stream_rows. by rewrite He, Hsn.
  - pose proof (wp_world _ w _ (wp_store_snapshot true stream snapshot (w_db w) Hwf Hz)) as Hw.
    rewrite Hop in Hw. simpl in Hw. destruct r as [v|e]; [|destruct Hw as [-> _]; by apply good_refl].
    destruct Hw as (Hst & _ & ->). split; [|by apply version_le_snapshot_stored].
    apply well_formed_set_snapshot; [done|]. destruct Hst as (_ & Hle & _ & Hin & _).
    pose proof (committed_version_range stream _ Hwf). split; [simpl; range|done].
  - destruct policy; simpl in Hop; [injection Hop as <- <-; by apply good_refl|].
    assert (wp true (compact_events t CompactAfterSnapshot) (w_db w)
      (fun _ db' => db' = w_db w \/ db' = delete_covered t (w_db w))) as Hc.
    { unfold compact_events. apply wp_statement; simpl; auto. }
    apply wp_world in Hc. cbn [compact_events] in Hc. rewrite Hop in Hc. simpl in Hc.
    destruct Hc as [->| ->]; [by apply good_refl|]. split; [by apply well_formed_delete_covered|].
    intros stream. by rewrite committed_version_delete_covered.
  - pose proof (wp_world _ w _ (wp_enqueue_job true event payload (w_db w))) as Hw. rewrite Hop in Hw. simpl in Hw.
    destruct r as [[]|e]; [|destruct Hw as [-> _]; by apply good_refl].
    destruct Hw as [Hi ->]. by apply good_swapped.
  - pose proof (wp_world _ w _ (wp_claim_job true job_id dec (w_db w))) as Hw. rewrite Hop in Hw. simpl in Hw.
    destruct r as [[won| | |]|e].
    + destruct Hw as (event & payload & l & _ & Hi & ->). by apply good_swapped.
    + destruct Hw as (event & payload & _ & Hi & ->). by apply good_swapped.
    + destruct Hw as (-> & _). by apply good_refl.
    + destruct Hw as (-> & _). by apply good_refl.
    + destruct Hw as (-> & _). by apply good_refl.
  - pose proof (wp_world _ w _ (wp_renew_job true job_id seq lease (w_db w))) as Hw. rewrite Hop in Hw. simpl in Hw.
    destruct Hw as [[_ ->]|(_ & row & _ & _ & _ & ->)]; [by apply good_refl|].
    split; [auto with sorcery|]. intros stream. done.
Qed.

Lemma engine_history_good db db' : rtc engine_step db db' -> well_formed db -> good db db'.
Proof.
  induction 1 as [db|db1 db2 db3 Hs _ IH]; intros Hwf; [by apply good_refl|].
  destruct (engine_step_good _ _ Hs Hwf) as [Hwf2 Hle]. destruct (IH Hwf2) as [Hwf3 Hle'].
  split; [done|]. by etransitivity.
Qed.

(** C14: versions only grow.  Along every history of versioned commits, opaque
    commits, snapshot writes, compactions, job operations, writes of views, unversioned
    commits and sqlite-es persists that put no snapshot back, and discards of snapshots
    the events still reach, with driver failures anywhere, the schema invariant is kept
    and no stream's version, the oracle of every optimistic-concurrency check, ever
    decreases; compaction erases events but not versions. *)
Theorem engine_history db db' stream :
  rtc engine_step db db' -> well_formed db ->
  well_formed db' /\ (committed_version stream db <= committed_version stream db')%Z.
Proof. intros Hs Hwf. destruct (engine_history_good _ _ Hs Hwf) as [Hwf' Hle]. split; [done|apply Hle]. Qed.

(** C4: a version is committed at most once.  After a commit at version [v] with at
    least one event succeeded, no later commit to the same stream at the same
    expected version succeeds, under any fault schedule and after any number of the
    steps of [engine_step] in between: commits of every kind, snapshot writes,
    compactions, job operations, writes of views.  Left out are only the steps that
    lower a version: an unversioned commit that puts a snapshot back, and the discard
    of a snapshot that stands for compacted events.  Without failures the late commit
    is refused as an optimistic-lock conflict and changes nothing. *)
Theorem version_committed_once first second v w w' w2 :
  well_formed (w_db w) -> cr_events first <> [] ->
  cr_stream second = cr_stream first -> stream_type (cr_stream first) <> JOB_AGGREGATE_TYPE ->
  cr_expected_version first = Some v -> cr_expected_version second = Some v ->
  commit first w = (Ok (), w') -> rtc engine_step (w_db w') (w_db w2) ->
  (forall w3, commit second w2 <> (Ok (), w3)) /\
  (w_faults w2 = [] -> unreserved second ->
   Forall (fun e => matches (cr_stream second) e = true) (cr_events second) ->
   exists w3, commit second w2 = (Err OptimisticLock, w3) /\ w_db w3 = w_db w2).
Proof.
  intros Hwf Hne Hstream Ht Hv Hv2 Hc Hsteps.
  assert (v < committed_version (cr_stream second) (w_db w2) <= i64_max)%Z as Hlt.
  { pose proof (wp_world _ w _ (wp_commit true first (w_db w))) as Hw. rewrite Hc in Hw. simpl in Hw.
    destruct Hw as [[[_ Ha] Hdb] _]. pose proof (well_formed_committed _ _ Hwf Ha) as Hwf'.
    rewrite <-Hdb in Hwf'. destruct (engine_history_good _ _ Hsteps Hwf') as [Hwf2 Hle].
    specialize (Hle (cr_stream first)). rewrite Hstream. split; [|by apply committed_version_range].
    eapply Z.lt_le_trans; [|exact Hle]. rewrite Hdb, (committed_version_committed _ _ v) by done.
    destruct (cr_events first); [done|]. simpl. lia. }
  split.
  - intros w3 Hc2. pose proof (wp_world _ w2 _ (wp_commit true second (w_db w2))) as Hw.
    rewrite Hc2 in Hw. simpl in Hw. destruct Hw as [[[_ (_ & Hver & _)] _] _].
    unfold version_accepted in Hver. rewrite Hv2 in Hver. lia.
  - intros Hf Hu Hm. destruct w2 as [db2 fs2]. simpl in *. subst fs2.
    assert (run (commit second) db2 = (Err OptimisticLock, db2)) as Hrun.
    { apply wp_run_eq. unfold commit.
      replace (existsb _ _) with false.
      2:{ symmetry. apply not_true_iff_false. intros (e & He & Hr)%existsb_exists.
          apply list_elem_of_In in He. unfold unreserved in Hu. rewrite Forall_forall in Hu. by rewrite Hu in Hr. }
      destruct second as [stream expected events snapshot jobs]; simpl in *. subst expected.
      wp_step. wp_step. rewrite (proj2 (validate_event_stream_Ok stream events) Hm). simpl.
      destruct (events_follow_version events v); simpl; [|by wp_step].
      wp_step; [done|]. wp_step. wp_step. apply wp_committed_stream_version; [done|].
      unfold usize_try_from. pose proof (committed_version_nonneg stream db2).
      replace (in_usize (committed_version stream db2)) with true by (symmetry; range). simpl.
      replace (committed_version stream db2 =? v)%Z with false by (symmetry; lia). by wp_step. }
    unfold run in Hrun. destruct (commit second _) as [r w3]. exists w3.
    injection Hrun as -> Hdb. done.
Qed.
End history.
