(* ===== verification/Reactor.v ===== *)
(** * Retrying on a busy database

    Models src/crates/event-sorcery/src/reactor.rs: the exponential backoff
    schedule, the retry loop [RetryOnBusy] runs a reactor in, and the
    classification of an error chain as a transient [SQLITE_BUSY] failure. *)

From Stdlib Require Import Ascii.
From S2P Require Import Prelude Json Sqlite.

(** ** The schedule *)

Definition RETRY_MAX_ATTEMPTS : Z := 10.
Definition RETRY_BASE_DELAY_MS : Z := 10.
Definition RETRY_MAX_DELAY_MS : Z := 1000.

Definition backoff_delay_ms (attempt base_delay_ms max_delay_ms : Z) : Z :=
  match u64_checked_pow 2 attempt ≫= u64_checked_mul base_delay_ms with
  | Some computed => Z.min computed max_delay_ms
  | None => max_delay_ms
  end.

(** ** The retry loop *)

Section retry.
Context {St Output Error : Type}.
Context (max_attempts base_delay_ms max_delay_ms : Z).
Context (make_attempt : St -> result Error Output * St).
Context (should_retry : Error -> bool).

(** [remaining] retries are left, i.e. [max_attempts - attempt]; the third
    component is the sequence of delays slept. *)
Fixpoint retry_loop (remaining : nat) (attempt : Z) (st : St) :
    result Error Output * St * list Z :=
  match make_attempt st with
  | (Ok output, st) => (Ok output, st, [])
  | (Err error, st) =>
      match remaining with
      | 0 => (Err error, st, [])
      | S remaining =>
          if should_retry error then
            let delay_ms := backoff_delay_ms attempt base_delay_ms max_delay_ms in
            let '(r, st, delays) := retry_loop remaining (attempt + 1) st in
            (r, st, delay_ms :: delays)
          else (Err error, st, [])
      end
  end.

Definition retry_with_backoff (st : St) : result Error Output * St * list Z :=
  retry_loop (Z.to_nat max_attempts) 0 st.

(** The state before and the outcome of the [n]-th attempt. *)
Fixpoint state_at (n : nat) (st : St) : St :=
  match n with 0 => st | S n => state_at n (make_attempt st).2 end.
Definition outcome_at (n : nat) (st : St) : result Error Output := (make_attempt (state_at n st)).1.

Definition retryable (r : result Error Output) : bool :=
  match r with Ok _ => false | Err e => should_retry e end.

Lemma retry_loop_spec remaining attempt st :
  exists n, n <= remaining /\
    retry_loop remaining attempt st =
      (outcome_at n st, state_at (S n) st,
       (fun k => backoff_delay_ms (attempt + Z.of_nat k) base_delay_ms max_delay_ms) <$> seq 0 n) /\
    (forall k, k < n -> retryable (outcome_at k st) = true) /\
    (n < remaining -> retryable (outcome_at n st) = false).
Proof.
  revert attempt st. induction remaining as [|remaining IH]; intros attempt st; cbn [retry_loop];
    destruct (make_attempt st) as [[output|error] st'] eqn:Hm.
  1-3: exists 0; unfold outcome_at; cbn [state_at seq fmap list_fmap]; rewrite Hm;
    (split_and!; [lia|done|intros; lia|intros; first [done|lia]]).
  destruct (should_retry error) eqn:Hr.
  - destruct (IH (attempt + 1)%Z st') as (n & Hn & Hl & Hk & Hlast). rewrite Hl. exists (S n).
    assert (forall k, outcome_at (S k) st = outcome_at k st') as Ho
      by (intros k; unfold outcome_at; cbn [state_at]; by rewrite Hm).
    split_and!; [lia| | |].
    + rewrite Ho. cbn [state_at]. rewrite Hm. cbn [seq fmap list_fmap]. f_equal. f_equal; [f_equal; lia|].
      rewrite <-seq_shift. rewrite map_map. apply map_ext. intros k. f_equal. lia.
    + intros [|k] Hlt; [|rewrite Ho; apply Hk; lia]. unfold outcome_at. cbn [state_at]. by rewrite Hm.
    + intros Hlt. rewrite Ho. apply Hlast. lia.
  - exists 0. unfold outcome_at. cbn [state_at seq fmap list_fmap]. rewrite Hm.
    (split_and!; [lia|done|intros; lia|done]).
Qed.
End retry.

(** ** Busy errors *)

(** [str::parse::<i32>]: an optional sign, then decimal digits. *)
Definition digit (c : ascii) : option Z :=
  let n := Z.of_N (N_of_ascii c) in
  if ((48 <=? n) && (n <=? 57))%Z then Some (n - 48)%Z else None.

Fixpoint digits (acc : Z) (s : string) : option Z :=
  match s with
  | EmptyString => Some acc
  | String c s => d ← digit c; digits (acc * 10 + d) s
  end.

Definition in_i32 (z : Z) : bool := ((-2147483648 <=? z) && (z <=? 2147483647))%Z.

Definition parse_i32 (s : string) : option Z :=
  z ← match s with
      | EmptyString => None
      | String c rest =>
          if Ascii.eqb c "-"%char then
            match rest with EmptyString => None | _ => Z.opp <$> digits 0 rest end
          else if Ascii.eqb c "+"%char then
            match rest with EmptyString => None | _ => digits 0 rest end
          else digits 0 s
      end;
  if in_i32 z then Some z else None.

Definition is_busy_extended_code (code : option string) : bool :=
  match code ≫= parse_i32 with
  | Some extended_code => (Z.land extended_code 255 =? 5)%Z
  | None => false
  end.

(** A node of an error chain, as [downcast_ref] sees it, with its [source()]. *)
Inductive ErrorNode : Type :=
| NodeSqlx (e : SqlxError) (source : option ErrorNode)
| NodeDatabase (code : option string) (source : option ErrorNode)
| NodePersistenceBoxed (inner : ErrorNode)
| NodePersistence (source : option ErrorNode)
| NodeOther (source : option ErrorNode).

Fixpoint is_retryable_sqlite_busy (this_error : ErrorNode) : bool :=
  let continue source :=
    match source with Some e => is_retryable_sqlite_busy e | None => false end in
  match this_error with
  | NodeSqlx (SqlxDatabase code _ _) source => is_busy_extended_code code || continue source
  | NodeSqlx (SqlxOther _) source => continue source
  | NodeDatabase code source => is_busy_extended_code code || continue source
  | NodePersistenceBoxed inner => is_retryable_sqlite_busy inner
  | NodePersistence source => continue source
  | NodeOther source => continue source
  end.

(** ** Properties *)

(** The chain reached from a node. *)
Fixpoint chain (e : ErrorNode) : list ErrorNode :=
  let rest source := match source with Some e => chain e | None => [] end in
  e :: match e with
       | NodeSqlx _ source | NodeDatabase _ source | NodePersistence source | NodeOther source => rest source
       | NodePersistenceBoxed inner => chain inner
       end.

Definition node_code (e : ErrorNode) : option string :=
  match e with
  | NodeSqlx (SqlxDatabase code _ _) _ => code
  | NodeDatabase code _ => code
  | _ => None
  end.

(** An error is retried exactly when some database error reachable in its chain
    carries a code of the [SQLITE_BUSY] family (low byte 5), however deeply wrapped,
    behind transparent wrappers and boxed persistence errors included. *)
Theorem retryable_iff_busy_in_chain e :
  is_retryable_sqlite_busy e = true <->
  exists n, n ∈ chain e /\ is_busy_extended_code (node_code n) = true.
Proof.
  assert (forall e rest b, (is_busy_extended_code (node_code e) || b = true) ->
    (b = true <-> exists n, n ∈ rest /\ is_busy_extended_code (node_code n) = true) ->
    exists n, n ∈ e :: rest /\ is_busy_extended_code (node_code n) = true) as Hfwd.
  { intros e0 rest b [H1|H2]%orb_true_iff Hb; [exists e0; split; [constructor|done]|].
    apply Hb in H2 as (n & Hn & Hc). exists n. split; [by constructor|done]. }
  assert (forall e rest b, (exists n, n ∈ e :: rest /\ is_busy_extended_code (node_code n) = true) ->
    (b = true <-> exists n, n ∈ rest /\ is_busy_extended_code (node_code n) = true) ->
    is_busy_extended_code (node_code e) || b = true) as Hbwd.
  { intros e0 rest b (n & [->|Hn]%elem_of_cons & Hc) Hb; apply orb_true_iff; [by left|].
    right. apply Hb. eauto. }
  assert (false = true <-> exists n : ErrorNode, n ∈ [] /\ is_busy_extended_code (node_code n) = true) as Hnil.
  { split; [done|]. intros (n & Hn & _). by apply not_elem_of_nil in Hn. }
  revert e. fix IH 1. intros [[code u msg|what] [src|]|code [src|]|inner|[src|]|[src|]]; simpl;
    (split; [intros Hr; eapply Hfwd; [exact Hr|] | intros Hx; apply (Hbwd _ _ _ Hx)]);
    first [apply IH | apply Hnil].
Qed.

Lemma u64_checked_pow_Some a b : in_u64 (a ^ b) = true -> u64_checked_pow a b = Some (a ^ b)%Z.
Proof. unfold u64_checked_pow. by intros ->. Qed.

(** The delay the doubling schedule means, without overflow. *)
Lemma backoff_delay_exact attempt base max :
  (0 <= attempt)%Z -> (0 < base)%Z -> (0 <= max <= u64_max)%Z ->
  backoff_delay_ms attempt base max = Z.min (base * 2 ^ attempt) max.
Proof.
  intros Ha Hb Hm. assert (0 < 2 ^ attempt)%Z by lia.
  unfold backoff_delay_ms, u64_checked_pow, u64_checked_mul.
  destruct (in_u64 (2 ^ attempt)) eqn:Hp; simpl.
  - destruct (in_u64 (base * 2 ^ attempt)) eqn:Hmul; [done|]. apply Z.min_case_strong; [|done].
    intros. unfold_ints. nia.
  - apply Z.min_case_strong; [|done]. intros. unfold_ints. nia.
Qed.

(** The backoff schedule never overflows and never exceeds its cap.  For every
    64-bit base and cap and every attempt number, the delay is the exact doubling
    [base * 2 ^ attempt] cut at the cap; hence it is at most the cap and never
    decreases from one attempt to the next. *)
Theorem backoff_saturates attempt base max :
  (0 <= attempt)%Z -> (0 < base)%Z -> (0 <= max <= u64_max)%Z ->
  backoff_delay_ms attempt base max = Z.min (base * 2 ^ attempt) max /\
  (0 <= backoff_delay_ms attempt base max <= max)%Z /\
  (backoff_delay_ms attempt base max <= backoff_delay_ms (attempt + 1) base max)%Z.
Proof.
  intros Ha Hb Hm. rewrite !backoff_delay_exact by lia. rewrite Z.pow_add_r, Z.pow_1_r, Z.mul_assoc by lia.
  assert (0 < base * 2 ^ attempt)%Z by (assert (0 < 2 ^ attempt)%Z by lia; nia).
  split_and!; [done|lia..].
Qed.

Definition sum_Z (l : list Z) : Z := fold_right Z.add 0%Z l.

(** The retry loop is bounded and returns the decisive outcome.  It makes at most
    [max_attempts] retries; every outcome before the last was a retryable error, the
    returned one is a success, an error that must not be retried, or the last the
    budget allows; the sleeps are the backoff schedule in order.  With the production
    constants all of them together last at most 4.27 seconds. *)
Theorem retry_bounded {St Output Error} (make_attempt : St -> result Error Output * St)
    (should_retry : Error -> bool) st :
  exists n, n <= Z.to_nat RETRY_MAX_ATTEMPTS /\
    (forall k, k < n -> retryable should_retry (outcome_at make_attempt k st) = true) /\
    (n < Z.to_nat RETRY_MAX_ATTEMPTS -> retryable should_retry (outcome_at make_attempt n st) = false) /\
    let '(r, st', delays) :=
      retry_with_backoff RETRY_MAX_ATTEMPTS RETRY_BASE_DELAY_MS RETRY_MAX_DELAY_MS
        make_attempt should_retry st in
    r = outcome_at make_attempt n st /\ st' = state_at make_attempt (S n) st /\
    delays = (fun k => backoff_delay_ms (Z.of_nat k) RETRY_BASE_DELAY_MS RETRY_MAX_DELAY_MS) <$> seq 0 n /\
    (sum_Z delays <= 4270)%Z.
Proof.
  destruct (retry_loop_spec RETRY_BASE_DELAY_MS RETRY_MAX_DELAY_MS make_attempt should_retry
    (Z.to_nat RETRY_MAX_ATTEMPTS) 0 st) as (n & Hn & Hl & Hk & Hlast).
  exists n. split_and!; [done..|]. unfold retry_with_backoff. rewrite Hl.
  split_and!; [done..|].
  change (Z.to_nat RETRY_MAX_ATTEMPTS) with 10 in Hn.
  assert (forall m, m ∈ seq 0 11 -> (sum_Z ((fun k => backoff_delay_ms (0 + Z.of_nat k)
    RETRY_BASE_DELAY_MS RETRY_MAX_DELAY_MS) <$> seq 0 m) <=? 4270)%Z = true) as Hall.
  { apply Forall_forall. apply (bool_decide_eq_true_1 _). vm_compute. reflexivity. }
  apply Z.leb_le, Hall. apply elem_of_seq. lia.
Qed.

(** ** Reactors

    The trait of an event consumer, the wrapper that retries it on a busy database,
    and the bridge from the framework's queries (lifecycle.rs). *)

Class Reactor (Id Event St Error : Type) := {
  reactor_react : Id -> Event -> St -> result Error () * St;
}.

Section reactors.
Context {Id Event St Error : Type} `{Reactor Id Event St Error}.

(** [RetryOnBusy::react]; [chain] is the error with its sources. *)
Definition retry_on_busy_react (chain : Error -> ErrorNode) (id : Id) (event : Event) (st : St) :
    result Error () * St :=
  (retry_with_backoff RETRY_MAX_ATTEMPTS RETRY_BASE_DELAY_MS RETRY_MAX_DELAY_MS
     (reactor_react id event) (fun e => is_retryable_sqlite_busy (chain e)) st).1.

(** [ReactorBridge::dispatch]: an id that does not parse drops the batch; a failing
    reaction is logged and the next event goes on. *)
Fixpoint dispatch_events (id : Id) (events : list Event) (st : St) : list Error * St :=
  match events with
  | [] => ([], st)
  | event :: events =>
      let '(r, st) := reactor_react id event st in
      let '(errors, st) := dispatch_events id events st in
      (match r with Ok _ => errors | Err e => e :: errors end, st)
  end.

Definition bridge_dispatch (parse : string -> option Id) (aggregate_id : string) (events : list Event) (st : St) :
    list Error * St :=
  match parse aggregate_id with
  | None => ([], st)
  | Some typed_id => dispatch_events typed_id events st
  end.

(** Every event is offered once, in order, whatever the earlier reactions did. *)
Lemma dispatch_events_in_order id events1 events2 st :
  dispatch_events id (events1 ++ events2) st =
    ((dispatch_events id events1 st).1 ++ (dispatch_events id events2 (dispatch_events id events1 st).2).1,
     (dispatch_events id events2 (dispatch_events id events1 st).2).2).
Proof.
  revert st. induction events1 as [|e events1 IH]; intros st; simpl; [by destruct (dispatch_events id events2 st)|].
  destruct (reactor_react id e st) as [r st1]. rewrite IH.
  destruct (dispatch_events id events1 st1) as [errors st2]. by destruct r.
Qed.
End reactors.

(** The wrapper is a reactor again. *)
Definition retry_on_busy {Id Event St Error} `{Reactor Id Event St Error} (chain : Error -> ErrorNode) :
    Reactor Id Event St Error := {| reactor_react := retry_on_busy_react chain |}.
