(* ===== verification/Dispatch.v ===== *)
(** * Dispatched jobs: the origin entity's side

    Models src/crates/event-sorcery/src/dispatch.rs: the embedded state machine
    [DispatchedJob] of a job an entity kicked off (guarded dispatch, settlement of a
    delivered verdict, the fold of its events), and the execution of such a job
    ([perform]): submit on the first execution, reconcile before any later submit,
    and delivery of the verdict to the origin before the job is acknowledged.

    The consumer's job ([submit], [reconcile]) and the delivery port are arguments;
    [perform] records the external calls it makes, in order. *)

From S2P Require Import Prelude Json Sqlite EventTable Lifecycle Job Repository.

Section dispatch.
Context {J Output Error : Type}.

(** ** Data *)

Inductive DispatchFailure : Type :=
| FailureRejected (e : Error)
| FailureDeadLettered (reason : DeadReason) (detail : string).

Record Settled : Type := mkSettled {
  settled_job_id : JobId;
  settled_output : Output;
  settled_attempts : Z;
}.
Record SettledFailure : Type := mkSettledFailure {
  failure_job_id : JobId;
  failure_of : DispatchFailure;
  failure_attempts : Z;
}.

Inductive DispatchedJob : Type :=
| Idle
| InFlight (job_id : JobId)
| DjConfirmed (s : Settled)
| DjFailed (f : SettledFailure).

Inductive DispatchEvent : Type :=
| Dispatched (job_id : JobId) (job : J)
| EvConfirmed (s : Settled)
| EvFailed (f : SettledFailure).

(** [DispatchOutcome], a sealed verdict. *)
Inductive Verdict : Type :=
| VerdictConfirmed (s : Settled)
| VerdictFailed (f : SettledFailure).

Definition confirmed (job_id : JobId) (output : Output) (attempts : Z) : Verdict :=
  VerdictConfirmed (mkSettled job_id output attempts).
Definition failed_outcome (job_id : JobId) (failure : DispatchFailure) (attempts : Z) : Verdict :=
  VerdictFailed (mkSettledFailure job_id failure attempts).

Inductive DispatchRefused : Type := RefusedInFlight | AlreadyConfirmed | OutcomeMismatch.
Inductive DispatchReplay : Type := Replay.

(** ** The state machine *)

(** [job_id] is the fresh id, [wrap] the entity's event enum, [encode]/[kind] the
    erased job. *)
Definition kick {Event} (wrap : DispatchEvent -> Event) (kind : string)
    (encode : J -> result JsonError Json) (job_id : JobId) (job : J) : JobDispatch Event :=
  mkJobDispatch (wrap (Dispatched job_id job)) (mkPendingPush job_id kind (encode job) None).

Definition dispatch {Event} (wrap : DispatchEvent -> Event) (kind : string)
    (encode : J -> result JsonError Json) (self : DispatchedJob) (job_id : JobId) (job : J) :
    result DispatchRefused (JobDispatch Event) :=
  match self with
  | Idle | DjFailed _ => Ok (kick wrap kind encode job_id job)
  | InFlight _ => Err RefusedInFlight
  | DjConfirmed _ => Err AlreadyConfirmed
  end.

Definition settle (self : DispatchedJob) (verdict : Verdict) :
    result DispatchRefused (list DispatchEvent) :=
  match self, verdict with
  | InFlight job_id, VerdictConfirmed settled =>
      if (job_id =? settled_job_id settled)%N then Ok [EvConfirmed settled] else Err OutcomeMismatch
  | InFlight job_id, VerdictFailed settled =>
      if (job_id =? failure_job_id settled)%N then Ok [EvFailed settled] else Err OutcomeMismatch
  | DjConfirmed existing, VerdictConfirmed settled =>
      if (settled_job_id existing =? settled_job_id settled)%N then Ok [] else Err OutcomeMismatch
  | DjFailed existing, VerdictFailed settled =>
      if (failure_job_id existing =? failure_job_id settled)%N then Ok [] else Err OutcomeMismatch
  | Idle, _ | DjConfirmed _, VerdictFailed _ | DjFailed _, VerdictConfirmed _ => Err OutcomeMismatch
  end.

Definition dispatch_evolve (self : DispatchedJob) (event : DispatchEvent) :
    result DispatchReplay DispatchedJob :=
  match self, event with
  | (Idle | DjFailed _), Dispatched job_id _ => Ok (InFlight job_id)
  | InFlight job_id, EvConfirmed settled =>
      if (job_id =? settled_job_id settled)%N then Ok (DjConfirmed settled) else Err Replay
  | InFlight job_id, EvFailed settled =>
      if (job_id =? failure_job_id settled)%N then Ok (DjFailed settled) else Err Replay
  | _, _ => Err Replay
  end.

Definition dispatch_originate (event : DispatchEvent) : result DispatchReplay DispatchedJob :=
  dispatch_evolve Idle event.

Fixpoint dispatch_fold (self : DispatchedJob) (events : list DispatchEvent) :
    result DispatchReplay DispatchedJob :=
  match events with
  | [] => Ok self
  | e :: events => match dispatch_evolve self e with Ok s => dispatch_fold s events | Err r => Err r end
  end.

(** ** Properties of the machine *)

Definition verdict_job_id (v : Verdict) : JobId :=
  match v with VerdictConfirmed s => settled_job_id s | VerdictFailed f => failure_job_id f end.
Definition verdict_state (v : Verdict) : DispatchedJob :=
  match v with VerdictConfirmed s => DjConfirmed s | VerdictFailed f => DjFailed f end.

Definition same_kind (v v' : Verdict) : bool :=
  match v, v' with
  | VerdictConfirmed _, VerdictConfirmed _ | VerdictFailed _, VerdictFailed _ => true
  | _, _ => false
  end.

(** Delivery at least once is applied exactly once.  Settling an in-flight
    dispatch with its own verdict yields one event, which the fold accepts and
    which leads to the state carrying that verdict.  From then on a delivery of a
    verdict of the same kind for the same job yields no event and no error, and
    every other one (the opposite verdict, or one for another job) is refused; a
    verdict for another job is refused while in flight too. *)
Theorem settle_exactly_once job_id v v' :
  verdict_job_id v = job_id ->
  (exists events, settle (InFlight job_id) v = Ok events /\ length events = 1 /\
    dispatch_fold (InFlight job_id) events = Ok (verdict_state v)) /\
  settle (verdict_state v) v' =
    (if same_kind v v' && (job_id =? verdict_job_id v')%N then Ok [] else Err OutcomeMismatch) /\
  (verdict_job_id v' <> job_id -> settle (InFlight job_id) v' = Err OutcomeMismatch).
Proof.
  intros <-. split_and!.
  - destruct v as [s|f]; simpl; rewrite N.eqb_refl.
    + exists [EvConfirmed s]. simpl. by rewrite N.eqb_refl.
    + exists [EvFailed f]. simpl. by rewrite N.eqb_refl.
  - by destruct v, v'.
  - intros Hne. destruct v'; simpl in *; by rewrite (proj2 (N.eqb_neq _ _) (not_eq_sym Hne)).
Qed.

(** Every event the guards let through can be replayed, and a confirmation is
    final.  The event of an allowed dispatch and the events of an allowed
    settlement fold from the state they were decided in; a dispatch is allowed
    only when nothing is in flight and nothing was confirmed; and no event at all
    can follow a confirmation. *)
Theorem dispatch_events_replay {Event} (wrap : DispatchEvent -> Event) kind encode self job_id job v :
  (match dispatch wrap kind encode self job_id job with
   | Ok d => dispatch_event d = wrap (Dispatched job_id job) /\
             push_job_id (dispatch_pending d) = job_id /\
             dispatch_fold self [Dispatched job_id job] = Ok (InFlight job_id)
   | Err RefusedInFlight => exists id, self = InFlight id
   | Err AlreadyConfirmed => exists s, self = DjConfirmed s
   | Err OutcomeMismatch => False
   end) /\
  (forall events, settle self v = Ok events -> is_ok (dispatch_fold self events) = true) /\
  (forall s e, dispatch_evolve (DjConfirmed s) e = Err Replay).
Proof.
  split_and!.
  - destruct self; simpl; eauto.
  - intros events. destruct self, v; simpl; try done; destruct (N.eqb _ _) eqn:He; try done;
      intros [= <-]; simpl; by rewrite ?He.
  - by intros s [].
Qed.

(** ** Execution *)

Inductive JobOutcome (A : Type) : Type := OutDone (a : A) | OutDefer (delay : Z).
Inductive JobFailure : Type := Transient (e : Error) | Terminal (e : Error).
Inductive Reconciliation : Type := RecSettled (o : Output) | RecIndeterminate (delay : Z) | RecNotSubmitted.
Inductive OriginDeliveryError : Type := Transport | DeliveryRefused.

Arguments OutDone {A}.
Arguments OutDefer {A}.

(** How a [Store]'s send error classifies. *)
Definition delivery_error {U} (e : AggregateError U) : OriginDeliveryError :=
  match e with
  | UserError _ => DeliveryRefused
  | AggregateConflict | DatabaseConnectionError _
  | AggregateDeserializationError _ | UnexpectedError => Transport
  end.

Definition delivery_deferral (ctx : JobContext) (e : OriginDeliveryError) : Z :=
  match e with
  | Transport => retry_delay (ctx_delivery ctx)
  | DeliveryRefused => refused_backoff (ctx_delivery ctx)
  end.

(** The external calls of one execution. *)
Inductive Call : Type := CallSubmit | CallReconcile | CallDeliver (v : Verdict).

Context (submit : JobContext -> result JobFailure (JobOutcome Output)).
Context (reconcile : JobContext -> result JobFailure Reconciliation).
Context (deliver : Verdict -> result OriginDeliveryError ()).
(** [error_chain]: the rendering of an error and its sources. *)
Context (error_chain : Error -> string).

Definition perform (ctx : JobContext) : result JobFailure (JobOutcome ()) * list Call :=
  let conclude (outcome : result JobFailure (JobOutcome Output)) (calls : list Call) :=
    let attempts := u32_add (ctx_attempt ctx) 1 in
    match outcome with
    | Ok (OutDone output) =>
        let confirm := confirmed (ctx_job_id ctx) output attempts in
        match deliver confirm with
        | Ok _ => (Ok (OutDone ()), calls ++ [CallDeliver confirm])
        | Err e => (Ok (OutDefer (delivery_deferral ctx e)), calls ++ [CallDeliver confirm])
        end
    | Ok (OutDefer delay) => (Ok (OutDefer delay), calls)
    | Err (Terminal domain_error) =>
        let fail := failed_outcome (ctx_job_id ctx) (FailureRejected domain_error) attempts in
        match deliver fail with
        | Ok _ => (Err (Terminal domain_error), calls ++ [CallDeliver fail])
        | Err e => (Ok (OutDefer (delivery_deferral ctx e)), calls ++ [CallDeliver fail])
        end
    | Err (Transient domain_error) =>
        if is_final_attempt ctx then
          let fail := failed_outcome (ctx_job_id ctx)
                        (FailureDeadLettered RetriesExhausted (error_chain domain_error)) attempts in
          (Err (Transient domain_error), calls ++ [CallDeliver fail])
        else (Err (Transient domain_error), calls)
    end in
  if is_first_execution ctx then conclude (submit ctx) [CallSubmit]
  else
    match reconcile ctx with
    | Ok (RecSettled output) => conclude (Ok (OutDone output)) [CallReconcile]
    | Ok (RecIndeterminate delay) => (Ok (OutDefer delay), [CallReconcile])
    | Ok RecNotSubmitted => conclude (submit ctx) [CallReconcile; CallSubmit]
    | Err failure => conclude (Err failure) [CallReconcile]
    end.

(** The run's settled result, if the external system gave one. *)
Definition external_output (ctx : JobContext) (output : Output) : Prop :=
  (is_first_execution ctx = true /\ submit ctx = Ok (OutDone output)) \/
  (is_first_execution ctx = false /\
   (reconcile ctx = Ok (RecSettled output) \/
    (reconcile ctx = Ok RecNotSubmitted /\ submit ctx = Ok (OutDone output)))).

Definition is_submit (c : Call) : bool := match c with CallSubmit => true | _ => false end.

(** An external action is submitted at most once per run, and on a run that may
    follow an earlier execution only after reconciliation said it never reached
    the external system. *)
Theorem submit_needs_reconciliation ctx r calls :
  perform ctx = (r, calls) -> CallSubmit ∈ calls ->
  length (filter (fun c => is_submit c = true) calls) = 1 /\
  (is_first_execution ctx = true \/
   (calls !! 0 = Some CallReconcile /\ reconcile ctx = Ok RecNotSubmitted)).
Proof.
  unfold perform. destruct (is_first_execution ctx) eqn:Hf.
  - intros Hp _. split; [|by left].
    destruct (submit ctx) as [[o|d]|[e|e]]; repeat case_match; simplify_eq/=; reflexivity.
  - destruct (reconcile ctx) as [[o|d|]|[e|e]] eqn:Hr; intros Hp Hin.
    3: split; [|right]; destruct (submit ctx) as [[o|d]|[e|e]]; repeat case_match; simplify_eq/=; by try split.
    all: exfalso; repeat case_match; simplify_eq/=; set_solver.
Qed.

(** A job is only acknowledged once its origin knows the verdict.  A run reports
    success exactly when the external system settled and the confirmation was
    delivered; a terminal failure only when the rejection was delivered; a verdict
    that could not be delivered turns into a deferral (which counts no attempt) by
    the policy of its failure class; and the final transient failure is announced
    to the origin before the worker dead-letters the job. *)
Theorem verdict_before_ack ctx :
  let attempts := u32_add (ctx_attempt ctx) 1 in
  let '(r, calls) := perform ctx in
  match r with
  | Ok (OutDone _) => exists output, external_output ctx output /\
      let v := confirmed (ctx_job_id ctx) output attempts in
      last calls = Some (CallDeliver v) /\ deliver v = Ok ()
  | Err (Terminal e) =>
      let v := failed_outcome (ctx_job_id ctx) (FailureRejected e) attempts in
      last calls = Some (CallDeliver v) /\ deliver v = Ok ()
  | Err (Transient e) => is_final_attempt ctx = true ->
      last calls = Some (CallDeliver (failed_outcome (ctx_job_id ctx)
        (FailureDeadLettered RetriesExhausted (error_chain e)) attempts))
  | Ok (OutDefer delay) =>
      (exists v e, last calls = Some (CallDeliver v) /\ deliver v = Err e /\
         delay = delivery_deferral ctx e) \/
      (forall v, CallDeliver v ∉ calls)
  end.
Proof.
  cbv zeta. unfold perform, external_output. destruct (is_first_execution ctx).
  - destruct (submit ctx) as [[o|d]|[e|e]] eqn:Hs; [..|].
    + destruct (deliver _) as [[]|e] eqn:Hd; [exists o; naive_solver|left; eauto].
    + right. set_solver.
    + destruct (is_final_attempt ctx); naive_solver.
    + destruct (deliver _) as [[]|e'] eqn:Hd; [naive_solver|left; eauto].
  - destruct (reconcile ctx) as [[o|d|]|[e|e]] eqn:Hr.
    + destruct (deliver _) as [[]|e] eqn:Hd; [exists o; naive_solver|left; eauto].
    + right. set_solver.
    + destruct (submit ctx) as [[o|d]|[e|e]] eqn:Hs.
      * destruct (deliver _) as [[]|e] eqn:Hd; [exists o; naive_solver|left; eauto].
      * right. set_solver.
      * destruct (is_final_attempt ctx); naive_solver.
      * destruct (deliver _) as [[]|e'] eqn:Hd; [naive_solver|left; eauto].
    + destruct (is_final_attempt ctx); naive_solver.
    + destruct (deliver _) as [[]|e'] eqn:Hd; [naive_solver|left; eauto].
Qed.
End dispatch.
Arguments OutDone {A}.
Arguments OutDefer {A}.
