(* ===== verification/Worker.v ===== *)
(** * The job runtime and the worker's acknowledgement

    Models src/crates/event-sorcery/src/job_backend.rs: the language-neutral
    [JobRuntime] operations (enqueue, claim, renew, settle) and the worker's decision
    of what to record for a finished attempt ([ack_plan], [ack_command]), with the
    classification of a settlement's result shared by both.

    Durations and the clock are nanoseconds.  [max_delta] is the longest duration
    [chrono::TimeDelta::from_std] accepts; the backoff delay, computed in floating
    point, is an argument.  [None] in [option] results is the panic of [DateTime]
    arithmetic outside [chrono]'s range. *)

From S2P Require Import Prelude Json Sqlite EventTable Lifecycle Job Engine EngineProps.
From S2P Require Import ViewRepository JobQueue JobQueueProps Repository JobHistory Dispatch.


(** ** Acknowledging an attempt *)

Record JobWorkerConfig : Type := mkJobWorkerConfig {
  poll_interval : Z;
  scan_limit : Z;
  max_concurrency : Z;
  lease_duration : Z;
  renew_interval : Z;
  execution_timeout : Z;
  max_attempts : Z;
  max_claims : Z;
  backoff_delay : Z -> Z;
  delivery : DeliveryPolicy;
}.

Definition lease_delta (max_delta duration : Z) : Z :=
  if (duration <=? max_delta)%Z then duration else 30000000000.

Definition lease_millis (duration : Z) : Z :=
  let ms := (duration / 1000000)%Z in if in_i64 ms then ms else 30000.

(** [clock.now() + delta] in milliseconds. *)
Definition instant_after `{Chrono} (now delta : Z) : option Z :=
  from_timestamp_millis ((now + delta) / 1000000).

Inductive AckPlan : Type :=
| AckSucceeded
| AckDeferred (delay : Z)
| AckFailed (error : string)
| AckRejected (error : string).

(** The type-erased error of an execution: a [JobFailure] that can be recovered by
    downcast, or any other (the execution timeout, middleware failures). *)
Inductive TaskError (E : Type) : Type :=
| TaskFailure (f : JobFailure (Error := E))
| TaskOther.
Arguments TaskFailure {E}.
Arguments TaskOther {E}.

Section ack.
Context `{Chrono} {E : Type} (error_chain : TaskError E -> string).

Definition ack_plan {A} (r : result (TaskError E) (JobOutcome A)) : AckPlan :=
  match r with
  | Ok (OutDone _) => AckSucceeded
  | Ok (OutDefer delay) => AckDeferred delay
  | Err error =>
      match error with
      | TaskFailure (Terminal _) => AckRejected (error_chain error)
      | TaskFailure (Transient _) | TaskOther => AckFailed (error_chain error)
      end
  end.
End ack.

Section ack_command.
Context `{Chrono} (max_delta : Z) (config : JobWorkerConfig) (now : Z) (ctx : JobContext).

Definition ack_command (plan : AckPlan) : option JobCommand :=
  match plan with
  | AckSucceeded => Some (Succeed (ctx_claim_id ctx))
  | AckDeferred delay =>
      run_at ← instant_after now (lease_delta max_delta delay);
      Some (Reschedule (ctx_claim_id ctx) run_at)
  | AckRejected error_text => Some (Kill (ctx_claim_id ctx) Rejected error_text)
  | AckFailed error_text =>
      let failed := u32_add (ctx_attempt ctx) 1 in
      if (max_attempts config <=? failed)%Z
      then Some (Kill (ctx_claim_id ctx) RetriesExhausted error_text)
      else
        run_at ← instant_after now (lease_delta max_delta (backoff_delay config (ctx_attempt ctx)));
        Some (RetrySchedule (ctx_claim_id ctx) run_at failed error_text)
  end.
End ack_command.

(** ** Settling *)

Abbreviation SendErr := (AggregateError (LifecycleError JobState JobEvent JobError)).

Inductive SettlementVerdict : Type :=
| SettleApplied
| SettleFenced
| SettleTransient (e : SqlxError)
| SettleRejected (e : SendErr).

Inductive SettledOutcome : Type := SettledSucceeded | SettledUnsuccessful.

Definition classify_settlement (r : result SendErr ()) : SettlementVerdict :=
  match r with
  | Ok _ => SettleApplied
  | Err (UserError (Apply Fenced)) | Err AggregateConflict => SettleFenced
  | Err (DatabaseConnectionError e) => SettleTransient e
  | Err error => SettleRejected error
  end.

Definition settled_outcome (command : JobCommand) : SettledOutcome :=
  match command with Succeed _ => SettledSucceeded | _ => SettledUnsuccessful end.

(** The worker's ack: the command is decided once and resent while the failure is
    transient.  [fuel] bounds the resends of an unboundedly failing database;
    [None] is the panic of an instant outside the calendar. *)
Fixpoint ack_loop (send : JobCommand -> M SendErr ()) (fuel : nat) (command : JobCommand) :
    World -> option SettlementVerdict * World :=
  fun w =>
    match fuel with
    | 0 => (None, w)
    | S fuel =>
        let '(r, w) := send command w in
        match classify_settlement r with
        | SettleTransient _ => ack_loop send fuel command w
        | verdict => (Some verdict, w)
        end
    end.

Definition ack `{Chrono} (max_delta : Z) (config : JobWorkerConfig) (now : Z) (ctx : JobContext)
    (send : JobCommand -> M SendErr ()) (fuel : nat) (plan : AckPlan) :
    option (World -> option SettlementVerdict * World) :=
  ack_loop send fuel <$> ack_command max_delta config now ctx plan.

(** ** The runtime *)

(** [Aggregate] boxes either a [JobStoreError] or a driver error, hence two
    constructors. *)
Inductive JobRuntimeError : Type :=
| RtBackend (e : SqliteJobError)
| RtProjection (e : PersistenceError)
| RtAggregateStore (e : JobStoreError)
| RtAggregate (e : SqlxError)
| RtSettlementRefused (job_id : JobId) (source : SendErr)
| RtInvalidInstant (ms : Z)
| AttemptExhausted
| InvalidClaimPolicy.

Record JobClaimHandle : Type := mkHandle {
  handle_job_id : JobId;
  handle_claim_seq : Z;
  handle_claim_id : string;
  handle_attempt : Z;
}.

Inductive JobClaimResult : Type :=
| ClaimedJob (handle : JobClaimHandle) (payload : Json)
| ClaimAbandoned
| ClaimContended
| ClaimSkipped.

Inductive JobLeaseResult : Type := Held | Lost.
Inductive JobSettlementResult : Type := SettlementApplied | SettlementFenced.

Definition handle_is_first_execution (h : JobClaimHandle) : bool := (handle_claim_seq h =? 2)%Z.

Definition runtime_job_error (error : JobStoreError) : JobRuntimeError :=
  match error with
  | InvalidInstant millis => RtInvalidInstant millis
  | other => RtAggregateStore other
  end.

Section runtime.
Context `{SerdeJson, Chrono, Ulid, SqliteJson, TableScan}.
(** [Store::send] on the job aggregate. *)
Context (send : JobId -> JobCommand -> M SendErr ()).

Definition enqueue_job_payload (job_id : JobId) (kind : string) (payload : Json) (run_at_ms : Z) :
    M JobRuntimeError () :=
  let request := mkEnqueueRequest job_id kind payload run_at_ms in
  event ← lift (map_err runtime_job_error (enqueued_event request));
  projection ← lift (map_err runtime_job_error (pending_seed_payload request));
  lift_err RtBackend (enqueue_job event projection).

Definition runtime_poll_jobs (kind : string) (now_ms limit : Z) : M JobRuntimeError (list string) :=
  lift_err RtProjection (poll_jobs kind now_ms limit).

Definition claim_job_as (job_id : JobId) (worker : string) (now_ms lease_ms max_claims : Z)
    (fresh : string) : M JobRuntimeError JobClaimResult :=
  let lease_is_representable :=
    match i64_checked_add now_ms lease_ms ≫= from_timestamp_millis with Some _ => true | None => false end in
  if (lease_ms <=? 0)%Z || (max_claims =? 0)%Z || negb lease_is_representable
  then fail InvalidClaimPolicy
  else
    let job_id_text := ulid_to_string job_id in
    outcome ← lift_err RtBackend
      (claim_job job_id_text
         (fun read => plan_claim job_id_text read worker now_ms lease_ms max_claims fresh));
    mret (match outcome with
          | OutcomeWon won =>
              ClaimedJob (mkHandle job_id (won_claim_seq won) (won_claim_id won) (won_attempt won))
                (won_args won)
          | OutcomeAbandoned => ClaimAbandoned
          | OutcomeContended => ClaimContended
          | OutcomeSkip => ClaimSkipped
          end).

Definition runtime_renew_job (claim : JobClaimHandle) (new_lease_until_ms : Z) :
    M JobRuntimeError JobLeaseResult :=
  r ← lift_err RtBackend
        (renew_job (ulid_to_string (handle_job_id claim)) (handle_claim_seq claim) new_lease_until_ms);
  mret (match r with LeaseHeld => Held | LeaseLost => Lost end).

Definition settle_job (job_id : JobId) (command : JobCommand) : M JobRuntimeError JobSettlementResult :=
  fun w =>
    let '(r, w) := send job_id command w in
    (match classify_settlement r with
     | SettleApplied => Ok SettlementApplied
     | SettleFenced => Ok SettlementFenced
     | SettleTransient error => Err (RtAggregate error)
     | SettleRejected error => Err (RtSettlementRefused job_id error)
     end, w).

Definition acknowledge_job (claim : JobClaimHandle) : M JobRuntimeError JobSettlementResult :=
  settle_job (handle_job_id claim) (Succeed (handle_claim_id claim)).

Definition retry_job (claim : JobClaimHandle) (run_at_ms : Z) (error : string) :
    M JobRuntimeError JobSettlementResult :=
  run_at ← lift (ok_or (RtInvalidInstant run_at_ms) (from_timestamp_millis run_at_ms));
  attempt ← lift (ok_or AttemptExhausted (u32_checked_add (handle_attempt claim) 1));
  settle_job (handle_job_id claim) (RetrySchedule (handle_claim_id claim) run_at attempt error).

Definition defer_job (claim : JobClaimHandle) (run_at_ms : Z) : M JobRuntimeError JobSettlementResult :=
  run_at ← lift (ok_or (RtInvalidInstant run_at_ms) (from_timestamp_millis run_at_ms));
  settle_job (handle_job_id claim) (Reschedule (handle_claim_id claim) run_at).

Definition dead_letter_job (claim : JobClaimHandle) (reason : DeadReason) (error : string) :
    M JobRuntimeError JobSettlementResult :=
  settle_job (handle_job_id claim) (Kill (handle_claim_id claim) reason error).
End runtime.

(** ** Polling for work *)

(** The context a claimed job runs in. *)
Definition task_context (config : JobWorkerConfig) (h : JobClaimHandle) : JobContext :=
  mkJobContext (handle_job_id h) (handle_claim_seq h) (handle_claim_id h) (handle_attempt h)
    (max_attempts config) (delivery config).

(** One iteration of the worker's stream: a task, or nothing (after which the worker
    sleeps). *)
Inductive PollResult (J : Type) : Type := PollTask (job : J) (ctx : JobContext) | PollIdle.
Arguments PollTask {J}.
Arguments PollIdle {J}.

Section poll.
Context `{SerdeJson, Chrono, Ulid, SqliteJson, TableScan}.
(** [serde_json::from_value] at the job's type. *)
Context {J : Type} (from_value : Json -> option J).
Context (kind : string) (worker_id : string) (config : JobWorkerConfig).

Definition build_task (handle : JobClaimHandle) (payload : Json) : option (J * JobContext) :=
  (fun job => (job, task_context config handle)) <$> from_value payload.

(** [fresh] is the id the claim mints. *)
Definition claim_one (job_id : JobId) (now_ms : Z) (fresh : string) : M JobRuntimeError JobClaimResult :=
  claim_job_as job_id worker_id now_ms (lease_millis (lease_duration config)) (max_claims config) fresh.

(** [fresh i] is the id minted for the [i]-th candidate from here on. *)
Fixpoint poll_candidates (now_ms : Z) (fresh : nat -> string) (candidates : list string) :
    World -> PollResult J * World :=
  fun w =>
    match candidates with
    | [] => (PollIdle, w)
    | view_id :: candidates =>
        let next := poll_candidates now_ms (fun i => fresh (S i)) candidates in
        match ulid_from_str view_id with
        | None => next w
        | Some job_id =>
            match claim_one job_id now_ms (fresh 0) w with
            | (Ok (ClaimedJob handle payload), w) =>
                match build_task handle payload with
                | Some (job, ctx) => (PollTask job ctx, w)
                | None => next w
                end
            | (Ok _, w) => next w
            | (Err _, w) => (PollIdle, w)
            end
        end
    end.

Definition poll (now_ms : Z) (fresh : nat -> string) : World -> PollResult J * World :=
  fun w =>
    match poll_jobs kind now_ms (scan_limit config) w with
    | (Ok candidates, w) => poll_candidates now_ms fresh candidates w
    | (Err _, w) => (PollIdle, w)
    end.
End poll.

(** ** Properties *)

Section budget.
Context `{Chrono} (max_delta : Z) (config : JobWorkerConfig).

(** The job and the worker agree on the last attempt.  With a positive retry
    budget, an execution considers itself final (and so announces the dead letter
    to its origin) exactly when a failure of it makes the worker kill the job as
    exhausted; and every acknowledgement carries the claim it was run under. *)
Theorem final_attempt_is_killed h now error :
  (0 < max_attempts config)%Z ->
  (is_final_attempt (task_context config h) = true <->
   ack_command max_delta config now (task_context config h) (AckFailed error) =
     Some (Kill (handle_claim_id h) RetriesExhausted error)) /\
  (forall plan command, ack_command max_delta config now (task_context config h) plan = Some command ->
     command_claim_id command = handle_claim_id h).
Proof.
  intros Hpos. split.
  - unfold is_final_attempt, ack_command, task_context. cbn [ctx_max_attempts ctx_attempt ctx_claim_id].
    rewrite andb_true_iff, Z.ltb_lt.
    destruct (max_attempts config <=? u32_add (handle_attempt h) 1)%Z; [by split|].
    split; [naive_solver|]. intros Hb. apply bind_Some in Hb as (? & _ & [=]).
  - intros [|d|e|e] command; unfold ack_command, task_context; cbn [ctx_attempt ctx_claim_id].
    + by intros [= <-].
    + intros Hb. by apply bind_Some in Hb as (? & _ & [= <-]).
    + case_match; [by intros [= <-]|]. intros Hb. by apply bind_Some in Hb as (? & _ & [= <-]).
    + by intros [= <-].
Qed.

(** One claimed execution that fails transiently: the claim, the acknowledgement
    and its fold. *)
Record FailingRun : Type := mkFailingRun {
  fr_worker : string; fr_claim_id : string; fr_lease : Z; fr_now : Z; fr_error : string }.

Definition failing_run (s : JobState) (run : FailingRun) : option JobState :=
  s1 ← ok (job_evolve s (ClaimedEv (fr_worker run) (fr_claim_id run) (fr_lease run))) ≫= id;
  let ctx := task_context config (mkHandle 0%N 0%Z (fr_claim_id run) (attempt_count s1)) in
  command ← ack_command max_delta config (fr_now run) ctx (AckFailed (fr_error run));
  effect ← ok (job_transition s1 command);
  match effect with
  | Events [e] => ok (job_evolve s1 e) ≫= id
  | _ => None
  end.

(** The clock stays where a retry can be scheduled. *)
Definition schedulable (run : FailingRun) : Prop :=
  forall a, representable ((fr_now run + lease_delta max_delta (backoff_delay config a)) / 1000000) = true.

Lemma failing_run_pending kind payload run_at attempt claims run :
  schedulable run -> (0 <= attempt)%Z -> (attempt + 1 < max_attempts config)%Z ->
  (max_attempts config <= u32_max)%Z ->
  exists run_at' claims', failing_run (Pending kind payload run_at attempt claims) run =
    Some (Pending kind payload run_at' (attempt + 1) claims').
Proof.
  intros Hs Ha Hlt Hm. unfold failing_run, ack_command. cbn.
  rewrite (u32_add_small attempt 1) by lia. destruct (Z.leb_spec (max_attempts config) (attempt + 1)); [lia|].
  unfold instant_after, from_timestamp_millis. rewrite Hs. cbn. rewrite String.eqb_refl. cbn. eauto.
Qed.

Lemma failing_run_dead kind payload run_at attempt claims run :
  (0 <= attempt <= u32_max - 1)%Z -> (max_attempts config <= attempt + 1)%Z ->
  failing_run (Pending kind payload run_at attempt claims) run = Some (Dead RetriesExhausted).
Proof.
  intros Ha Hm. unfold failing_run, ack_command. cbn.
  rewrite (u32_add_small attempt 1) by lia. destruct (Z.leb_spec (max_attempts config) (attempt + 1)); [|lia].
  cbn. by rewrite String.eqb_refl.
Qed.

Fixpoint failing_runs (s : JobState) (runs : list FailingRun) : option JobState :=
  match runs with
  | [] => Some s
  | run :: runs => s ← failing_run s run; failing_runs s runs
  end.

(** The retry budget is exact.  A job whose executions keep failing transiently
    is still pending, with one recorded failure per execution, as long as fewer
    than [max_attempts] executions failed, and is dead-lettered as exhausted by the
    [max_attempts]-th one, whatever workers, claims and times were involved. *)
Theorem retry_budget_exact kind payload run_at claims runs :
  (0 < max_attempts config <= u32_max)%Z -> Forall schedulable runs ->
  match failing_runs (Pending kind payload run_at 0 claims) runs with
  | Some (Pending _ _ _ attempt _) =>
      attempt = Z.of_nat (length runs) /\ (attempt < max_attempts config)%Z
  | Some (Dead reason) =>
      reason = RetriesExhausted /\ Z.of_nat (length runs) = max_attempts config
  | Some _ => False
  | None => (max_attempts config < Z.of_nat (length runs))%Z
  end.
Proof.
  intros Hm Hs.
  assert (forall attempt run_at claims, (0 <= attempt < max_attempts config)%Z ->
    match failing_runs (Pending kind payload run_at attempt claims) runs with
    | Some (Pending _ _ _ a _) => a = (attempt + Z.of_nat (length runs))%Z /\ (a < max_attempts config)%Z
    | Some (Dead reason) => reason = RetriesExhausted /\
        (attempt + Z.of_nat (length runs) = max_attempts config)%Z
    | Some _ => False
    | None => (max_attempts config < attempt + Z.of_nat (length runs))%Z
    end) as Hgen.
  { induction Hs as [|run runs Hrun Hruns IH]; intros attempt r c Ha; [simpl; lia|].
    cbn [failing_runs length].
    destruct (decide (attempt + 1 < max_attempts config)%Z) as [Hlt|Hge].
    - destruct (failing_run_pending kind payload r attempt c run) as (r' & c' & ->); [done|lia..|].
      cbn [mbind option_bind]. specialize (IH (attempt + 1)%Z r' c' ltac:(lia)).
      destruct (failing_runs _ runs) as [[]|]; try done; try lia.
      destruct IH. split; [done|lia].
    - rewrite failing_run_dead by lia. cbn [mbind option_bind].
      destruct runs as [|run' runs']; cbn [failing_runs length]; [split; [done|lia]|]. cbn. lia. }
  specialize (Hgen 0%Z run_at claims ltac:(lia)). rewrite !Z.add_0_l in Hgen. exact Hgen.
Qed.
End budget.

Section liveness.
Context `{SerdeJsonLaws, ChronoLaws, Ulid, SqliteJson}.

Lemma job_events_bound job_id n es e :
  e ∈ job_events job_id n es -> (n < ev_sequence e <= n + Z.of_nat (length es))%Z.
Proof.
  revert n. induction es as [|x es IH]; intros n; cbn [job_events length]; [by intros ?%not_elem_of_nil|].
  intros [->|He]%elem_of_cons; [simpl; lia|]. apply IH in He. lia.
Qed.

(** The sequence after the head is free. *)
Lemma head_insertable job_id es db e :
  job_inv job_id es db -> in_i64 (Z.of_nat (length es) + 1) = true ->
  insertable db [serialized e job_id (Z.of_nat (length es) + 1)].
Proof.
  intros Hinv Hi. split_and!; [by constructor|apply NoDup_singleton|]. constructor; [|constructor].
  intros Hin. apply list_elem_of_fmap in Hin as (r & Hkey & Hr). injection Hkey as Ht Hid Hseq.
  assert (r ∈ stream_rows JOB_AGGREGATE_TYPE job_id db) as Hs.
  { apply list_elem_of_filter. rewrite in_stream_true. by split. }
  rewrite (ji_log _ _ _ Hinv) in Hs. apply list_elem_of_fmap in Hs as (e' & -> & He').
  apply job_events_bound in He'. cbn in Hseq. lia.
Qed.

Definition job_args (s : JobState) : Json :=
  match s with Pending _ p _ _ _ | Claimed _ p _ _ _ _ _ => p | _ => JNull end.

(** The decision of a claim on an up-to-date row: its event fits the log. *)
Definition decides_at_head (es : list JobEvent) (s : JobState) (max_claims : Z) (fresh : string) (db : Db)
    (d : ClaimDecision WonClaim) : Prop :=
  match d with
  | DecideClaim event _ _ won => insertable db [event] /\ (claim_count s < max_claims)%Z /\
      won = mkWonClaim (Z.of_nat (length es) + 1) fresh (attempt_count s) (job_args s)
  | DecideAbandon event _ => insertable db [event] /\ (max_claims <= claim_count s)%Z
  | DecideSkip => False
  end.

Lemma plan_claim_at_head id es db row s worker now_ms lease_ms max_claims fresh :
  job_inv id es db -> replay Uninitialized es = Live s -> view_table JOB_QUEUE db !! id = Some row ->
  view_version row = Z.of_nat (length es) -> (Z.of_nat (length es) < i64_max)%Z ->
  runnable s (view_lease_until row) now_ms = true ->
  in_i64 (now_ms + lease_ms) = true -> representable (now_ms + lease_ms) = true ->
  decides_at_head es s max_claims fresh db
    (plan_claim id (read_of id db) worker now_ms lease_ms max_claims fresh).
Proof.
  intros Hinv Hr Hrow Hv Hmax Hrun Hi Hrep.
  assert (in_i64 (Z.of_nat (length es) + 1) = true) as Hi1 by range.
  destruct (read_row _ _ _ _ Hinv Hrow) as (n & s0 & Hv0 & Hn & Hr0 & Hs & Hp & Ht & Hc).
  assert (n = length es) as -> by lia. rewrite take_ge, Hr in Hr0 by done. injection Hr0 as <-.
  unfold read_of, plan_claim. rewrite Hrow.
  cbn [fmap option_fmap option_map read_payload read_lease_until_ms read_version].
  rewrite Ht, Hrun, Hv, i64_add_small by done. unfold usize_try_from.
  replace (in_usize (Z.of_nat (length es) + 1)) with true by (symmetry; range). cbn [negb].
  unfold i64_checked_add, instant_from_millis, from_timestamp_millis. rewrite Hi, Hrep.
  destruct s as [k p r a c|k p h cid r a c| |]; try done; cbn [claim_count attempt_count].
  all: destruct (Z.leb_spec max_claims c); cbn; [|split_and!; [|lia|done]];
    [unfold plan_abandon; split; [|lia]|]; by apply head_insertable.
Qed.

(** A decision that fits the log is enacted. *)
Lemma claim_job_at_head id es s max_claims fresh db (decide : option ClaimRead -> ClaimDecision WonClaim) :
  decides_at_head es s max_claims fresh db (decide (read_of id db)) ->
  (run (claim_job id decide) db).1 =
    Ok (if (claim_count s <? max_claims)%Z
        then OutcomeWon (mkWonClaim (Z.of_nat (length es) + 1) fresh (attempt_count s) (job_args s))
        else OutcomeAbandoned).
Proof.
  intros Hd.
  assert (~ forall event payload lease won,
    decide (read_of id db) = DecideClaim event payload lease won \/
    decide (read_of id db) = DecideAbandon event payload -> ~ insertable db [event]) as Hcas.
  { intros Hni. destruct (decide (read_of id db)) as [event payload lease won|event payload|]; simpl in Hd.
    - apply (Hni event payload lease won); [by left|tauto].
    - apply (Hni event payload 0%Z (mkWonClaim 0 "" 0 JNull)); [by right|tauto].
    - done. }
  pose proof (wp_run _ _ _ (wp_claim_job false id decide db)) as Hw.
  destruct (run (claim_job id decide) db) as [[[won| | |]|e] db']; cbn [fst snd] in Hw |- *.
  - destruct Hw as (event & payload & lease & Hdec & _). rewrite Hdec in Hd.
    destruct Hd as (_ & Hlt & ->). by rewrite (proj2 (Z.ltb_lt _ _) Hlt).
  - destruct Hw as (event & payload & Hdec & _). rewrite Hdec in Hd. destruct Hd as [_ Hge].
    by rewrite (proj2 (Z.ltb_ge _ _) Hge).
  - destruct Hw as (_ & _ & Hni). exfalso. by apply (Hcas (Hni eq_refl)).
  - destruct Hw as (_ & Hs'). by rewrite Hs' in Hd.
  - destruct Hw as (_ & Hni). exfalso. by apply (Hcas (proj2 (Hni eq_refl))).
Qed.

(** A runnable job can be claimed.  When the projection is up to date and the
    stored state is runnable at [now_ms], a claim with a valid policy and no driver
    failure is never skipped or contended: it is won, with the next sequence, the
    fresh claim id and the recorded attempt count, or, once the claim budget is
    spent, the job is dead-lettered. *)
Theorem runnable_job_is_claimed job_id es db row s worker now_ms lease_ms max_claims fresh :
  let id := ulid_to_string job_id in
  job_inv id es db ->
  replay Uninitialized es = Live s -> view_table JOB_QUEUE db !! id = Some row ->
  view_version row = Z.of_nat (length es) -> (Z.of_nat (length es) < i64_max)%Z ->
  runnable s (view_lease_until row) now_ms = true ->
  (0 < lease_ms)%Z -> (0 < max_claims)%Z -> representable (now_ms + lease_ms) = true ->
  exists db', run (claim_job_as job_id worker now_ms lease_ms max_claims fresh) db =
    (Ok (if (claim_count s <? max_claims)%Z
         then ClaimedJob (mkHandle job_id (Z.of_nat (length es) + 1) fresh (attempt_count s)) (job_args s)
         else ClaimAbandoned), db').
Proof.
  intros id Hinv Hr Hrow Hv Hmax Hrun Hl Hm Hrep.
  assert (in_i64 (now_ms + lease_ms) = true) as Hi by (by apply representable_i64).
  pose proof (claim_job_at_head id es s max_claims fresh db
    (fun read => plan_claim id read worker now_ms lease_ms max_claims fresh)
    (plan_claim_at_head id es db row s worker now_ms lease_ms max_claims fresh
       Hinv Hr Hrow Hv Hmax Hrun Hi Hrep)) as Hclaim.
  unfold claim_job_as. unfold i64_checked_add, from_timestamp_millis. rewrite Hi. cbn [mbind option_bind].
  rewrite Hrep. replace (lease_ms <=? 0)%Z with false by (symmetry; lia).
  replace (max_claims =? 0)%Z with false by (symmetry; lia). cbn [orb negb].
  fold id. unfold run in *. unfold mbind, M_bind, lift_err.
  destruct (claim_job id _ _) as [r w]. cbn in Hclaim. subst r. cbn.
  destruct (claim_count s <? max_claims)%Z; eauto.
Qed.
End liveness.
