(* ===== verification/Backend.v ===== *)
(** * The job backend interface and standalone jobs

    [EventBackend] of src/crates/event-sorcery/src/job_store.rs as an interface with the
    contract its documentation states, the SQLite adapter of job_sqlite.rs as its
    instance, and the standalone enqueue of job_backend.rs written against it
    ([JobRuntime::enqueue], [enqueue_with_delay], [enqueue_resolved]).

    [enqueued_job_delivered] follows a standalone job to the worker: what was enqueued
    is polled from its instant on and not before, and its first claim hands the worker
    the job that was enqueued. *)

From S2P Require Import Prelude Json Sqlite EventTable Lifecycle Job Engine EngineProps.
From S2P Require Import ViewRepository JobQueue JobQueueProps Repository JobHistory Dispatch Worker.

(** ** The backend *)

(** The primitives of a backend over the modelled database; [event_repo] and [migrate]
    are wiring (Store.v, [sqlite_event_repo]). *)
Class EventBackend := {
  BackendError : Type;
  backend_claim {Won} : string -> (option ClaimRead -> ClaimDecision Won) -> M BackendError (ClaimOutcome Won);
  backend_renew : string -> Z -> Z -> M BackendError LeaseRenewal;
  backend_enqueue : SerializedEvent -> string -> M BackendError ();
}.

#[global] Instance SqliteBackend `{SerdeJson, Chrono, Ulid, SqliteJson} : EventBackend := {|
  BackendError := SqliteJobError;
  backend_claim Won := @claim_job _ Won;
  backend_renew := renew_job;
  backend_enqueue := enqueue_job;
|}.

(** A claim decides on the row it reads in its own transaction and is enacted whole or
    not at all; an enqueue appends the event and seeds the row, or changes nothing. *)
Class EventBackendLaws `{SerdeJson, EventBackend} := {
  backend_claim_atomic : forall b Won job_id (decide : option ClaimRead -> ClaimDecision Won) db,
    wp b (backend_claim job_id decide) db (fun r db' =>
      match r with
      | Ok (OutcomeWon won) => exists event payload lease,
          decide (read_of job_id db) = DecideClaim event payload lease won /\
          insertable db [event] /\ db' = swapped job_id event payload (Some lease) db
      | Ok OutcomeAbandoned => exists event payload,
          decide (read_of job_id db) = DecideAbandon event payload /\
          insertable db [event] /\ db' = swapped job_id event payload None db
      | Ok OutcomeContended => db' = db /\ decide (read_of job_id db) <> DecideSkip
      | Ok OutcomeSkip => db' = db /\ decide (read_of job_id db) = DecideSkip
      | Err _ => db' = db /\ (b = false -> decide (read_of job_id db) <> DecideSkip)
      end);
  backend_enqueue_atomic : forall b event payload db,
    wp b (backend_enqueue event payload) db (fun r db' =>
      match r with
      | Ok _ => insertable db [event] /\ db' = swapped (ev_aggregate_id event) event payload None db
      | Err _ => db' = db /\ (b = false -> ~ insertable db [event])
      end);
}.

#[global] Instance SqliteBackend_laws `{SerdeJson, Chrono, Ulid, SqliteJson} : EventBackendLaws.
Proof.
  split.
  - intros b Won job_id decide db. eapply wp_mono; [apply wp_claim_job|]. intros [[]|] db'; naive_solver.
  - intros. apply wp_enqueue_job.
Qed.

(** ** Standalone jobs *)

Class StandaloneJob (J : Type) := {
  WORKER_NAME : string;
  KIND : string;
  (** [serde_json::to_value] and [from_value] at the job's type. *)
  to_value : J -> result JsonError Json;
  from_value : Json -> option J;
}.

Class StandaloneJobLaws (J : Type) `{StandaloneJob J} := {
  to_value_storable : forall job payload, to_value job = Ok payload ->
    is_value payload = true /\ payload_storable payload;
  from_to_value : forall job payload, to_value job = Ok payload -> from_value payload = Some job;
}.

(** [WorkerId::new]: the name and a fresh id. *)
Definition worker_id_new `{Ulid} (name : string) (fresh : JobId) : string :=
  (name +:+ ":" +:+ ulid_to_string fresh)%string.

(** An error and the causes it reports, outermost first. *)
Inductive StdError : Type :=
| RootCause (display : string)
| CausedBy (display : string) (source : StdError).

Fixpoint error_chain (error : StdError) : string :=
  match error with
  | RootCause display => display
  | CausedBy display cause => (display +:+ ": " +:+ error_chain cause)%string
  end.

(** [JobSeed::new] of engine.rs. *)
Definition job_seed_new (job_id : JobId) (kind : string) (payload : Json) (run_at_ms : Z) : EnqueueRequest :=
  mkEnqueueRequest job_id kind payload run_at_ms.

Inductive JobEnqueueError (E : Type) : Type := BuildFailed (e : JobStoreError) | BackendFailed (e : E).
Arguments BuildFailed {E}.
Arguments BackendFailed {E}.

Section enqueue.
Context `{SerdeJson, Chrono, Ulid, EventBackend} {J : Type} `{StandaloneJob J}.
Context (max_delay now : Z).

(** [fresh] is the [JobId::new()] this call mints; [None] is the panic of an instant
    outside the calendar. *)
Definition enqueue_request (job : J) (fresh : JobId) (delay : option Z) : option (result JobStoreError EnqueueRequest) :=
  match to_value job with
  | Err e => Some (Err (Encode e))
  | Ok payload =>
      match resolve_run_at_ms max_delay now delay with
      | None => None
      | Some (Err e) => Some (Err e)
      | Some (Ok run_at_ms) => Some (Ok (mkEnqueueRequest fresh KIND payload run_at_ms))
      end
  end.

Definition enqueue_resolved (job : J) (fresh : JobId) (delay : option Z) :
    option (M (JobEnqueueError BackendError) JobId) :=
  request ← enqueue_request job fresh delay;
  Some (
    request ← lift (map_err BuildFailed request);
    event ← lift (map_err BuildFailed (enqueued_event request));
    payload ← lift (map_err BuildFailed (pending_seed_payload request));
    _ ← lift_err BackendFailed (backend_enqueue event payload);
    mret (req_job_id request)).

Definition enqueue (job : J) (fresh : JobId) := enqueue_resolved job fresh None.
Definition enqueue_with_delay (job : J) (fresh : JobId) (delay : Z) := enqueue_resolved job fresh (Some delay).

Lemma enqueued_event_spec request :
  enqueued_event request =
    if representable (req_run_at_ms request) then Ok (job_event_of request)
    else Err (InvalidInstant (req_run_at_ms request)).
Proof. unfold enqueued_event, instant_from_millis, from_timestamp_millis. by case_match. Qed.

Lemma pending_seed_payload_spec request :
  pending_seed_payload request =
    if representable (req_run_at_ms request) then Ok (view_payload (job_row_of request))
    else Err (InvalidInstant (req_run_at_ms request)).
Proof. unfold pending_seed_payload, instant_from_millis, from_timestamp_millis. by case_match. Qed.

(** What any backend that keeps the contract makes of a standalone enqueue. *)
Lemma wp_enqueue_resolved `{!EventBackendLaws} b job fresh delay m db :
  enqueue_resolved job fresh delay = Some m ->
  wp b m db (fun r db' =>
    match r with
    | Ok job_id => exists request, enqueue_request job fresh delay = Some (Ok request) /\
        job_id = req_job_id request /\ representable (req_run_at_ms request) = true /\
        insertable db [job_event_of request] /\
        db' = swapped (ulid_to_string job_id) (job_event_of request) (view_payload (job_row_of request)) None db
    | Err (BuildFailed _) => db' = db
    | Err (BackendFailed _) => db' = db /\ exists request, enqueue_request job fresh delay = Some (Ok request) /\
        (b = false -> ~ insertable db [job_event_of request])
    end).
Proof.
  unfold enqueue_resolved. intros Hm. apply bind_Some in Hm as (request & Hreq & [= <-]).
  destruct request as [request|e]; [|by repeat (wp_step; cbn beta iota delta [map_err])].
  do 2 wp_step. cbn [map_err]. rewrite enqueued_event_spec, pending_seed_payload_spec.
  destruct (representable (req_run_at_ms request)) eqn:Hrep; [|by repeat wp_step].
  repeat (wp_step; cbn [map_err]). eapply wp_mono; [apply backend_enqueue_atomic|].
  intros [[]|e] db'; cbn.
  - intros [Hi ->]. wp_step. eauto 10.
  - intros [-> Hn]. eauto.
Qed.
End enqueue.

(** ** From enqueue to worker *)

Section delivered.
Context `{SerdeJsonLaws, ChronoLaws, Ulid, SqliteJson, !SqliteJsonLaws, TableScan, !TableScanLaws}.

Section request.
Context (request : EnqueueRequest).
Abbreviation id := (ulid_to_string (req_job_id request)).
Abbreviation log := [Enqueued (req_kind request) (req_payload request) (req_run_at_ms request)].
Abbreviation seeded := (Pending (req_kind request) (req_payload request) (req_run_at_ms request) 0 0).

Definition enqueued (db : Db) : Db :=
  swapped id (job_event_of request) (view_payload (job_row_of request)) None db.

Lemma enqueued_row db : view_table JOB_QUEUE (enqueued db) !! id = Some (job_row_of request).
Proof. apply view_table_set_view. Qed.

Context (Hst : event_storable (Enqueued (req_kind request) (req_payload request) (req_run_at_ms request))).

Lemma seeded_storable : state_storable seeded.
Proof. apply (replay_storable log); [by constructor|done]. Qed.

Lemma enqueued_rows_storable db : rows_storable db -> rows_storable (enqueued db).
Proof.
  intros Hrows k row. unfold enqueued, swapped, set_view, view_table at 1. cbn. rewrite lookup_insert_eq. cbn.
  intros [[<- <-]|[_ Hk]]%lookup_insert_Some; [|by apply (Hrows k)].
  exists seeded. split; [apply seeded_storable|done].
Qed.

Lemma enqueued_claimable db now_ms :
  claimable (enqueued db) (req_kind request) now_ms id <-> (req_run_at_ms request <= now_ms)%Z.
Proof.
  unfold claimable. rewrite enqueued_row.
  pose proof (state_text_round_trip seeded seeded_storable) as Ht. split.
  - intros (row & s & [= <-] & Hs & _ & Hrun). cbn in Hs. rewrite Ht in Hs. injection Hs as <-.
    by apply Z.leb_le.
  - intros Hle. exists (job_row_of request), seeded. split_and!; [done|done|done|by apply Z.leb_le].
Qed.

Lemma enqueued_claim db worker now_ms lease_ms max_claims fresh :
  job_inv id log (enqueued db) ->
  (0 < lease_ms)%Z -> (0 < max_claims)%Z -> representable (now_ms + lease_ms) = true ->
  let claim := claim_job_as (req_job_id request) worker now_ms lease_ms max_claims fresh in
  if (req_run_at_ms request <=? now_ms)%Z
  then exists db', run claim (enqueued db) =
         (Ok (ClaimedJob (mkHandle (req_job_id request) 2 fresh 0) (req_payload request)), db')
  else run claim (enqueued db) = (Ok ClaimSkipped, enqueued db).
Proof.
  intros Hinv Hl Hm Hrep claim. destruct (Z.leb_spec (req_run_at_ms request) now_ms) as [Hdue|Hearly].
  - destruct (runnable_job_is_claimed (req_job_id request) log (enqueued db) (job_row_of request) seeded
      worker now_ms lease_ms max_claims fresh Hinv eq_refl (enqueued_row db) eq_refl ltac:(done)
      ltac:(by apply Z.leb_le) Hl Hm Hrep) as [db' Hclaim].
    cbn [claim_count attempt_count job_args length] in Hclaim.
    rewrite (proj2 (Z.ltb_lt 0 max_claims) Hm) in Hclaim. eauto.
  - assert (in_i64 (now_ms + lease_ms) = true) as Hi by (by apply representable_i64).
    subst claim. unfold claim_job_as, i64_checked_add, from_timestamp_millis. rewrite Hi. cbn [mbind option_bind].
    rewrite Hrep. replace (lease_ms <=? 0)%Z with false by (symmetry; lia).
    replace (max_claims =? 0)%Z with false by (symmetry; lia). cbn [orb negb].
    apply wp_run_eq. wp_step. wp_step. eapply wp_mono; [apply wp_claim_job|].
    assert (plan_claim id (read_of id (enqueued db)) worker now_ms lease_ms max_claims fresh = DecideSkip) as Hskip.
    { unfold read_of, plan_claim. rewrite enqueued_row. cbn [fmap option_fmap option_map read_payload].
      change (view_payload (job_row_of request)) with (lifecycle_text (Live seeded)).
      rewrite (state_text_round_trip seeded seeded_storable). cbn [runnable].
      by rewrite (proj2 (Z.leb_gt _ _) Hearly). }
    cbv beta. rewrite Hskip. intros [[]|] db'; cbn; try naive_solver.
    intros [-> _]. by wp_step.
Qed.
End request.

Context {J : Type} `{StandaloneJob J} `{!StandaloneJobLaws J}.

(** C32: A standalone job reaches its worker.  Enqueuing on an unused id either fails and
    changes nothing, for a database that does not fail only because the job or its
    instant cannot be built; or it stores one event and one row, and then: polling its
    kind lists the job from its instant on and never before; a claim before that
    instant is skipped without effect; and the first claim after it is won at sequence
    2, a first execution with no failed attempt, whose payload decodes to the very job
    that was enqueued. *)
Theorem enqueued_job_delivered max_delay now (job : J) job_id delay b m db :
  let id := ulid_to_string job_id in
  history_inv id ([], db) -> rows_storable db ->
  enqueue_resolved max_delay now job job_id delay = Some m ->
  wp b m db (fun r db' =>
    match r with
    | Err e => db' = db /\ (b = false -> exists e', e = BuildFailed e')
    | Ok j => j = job_id /\ exists payload run_at,
        to_value job = Ok payload /\ resolve_run_at_ms max_delay now delay = Some (Ok run_at) /\
        history_inv id ([Enqueued KIND payload run_at], db') /\ rows_storable db' /\
        (forall now_ms limit, exists ids, run (poll_jobs KIND now_ms limit) db' = (Ok (sql_limit limit ids), db') /\
           (id ∈ ids <-> (run_at <= now_ms)%Z)) /\
        (forall config worker now_ms lease_ms max_claims fresh,
           (0 < lease_ms)%Z -> (0 < max_claims)%Z -> representable (now_ms + lease_ms) = true ->
           let claim := claim_job_as job_id worker now_ms lease_ms max_claims fresh in
           if (run_at <=? now_ms)%Z
           then exists handle db'', run claim db' = (Ok (ClaimedJob handle payload), db'') /\
                  handle = mkHandle job_id 2 fresh 0 /\
                  build_task from_value config handle payload = Some (job, task_context config handle) /\
                  is_first_execution (task_context config handle) = true
           else run claim db' = (Ok ClaimSkipped, db'))
    end).
Proof.
  intros id Hinv Hrows Hm. eapply wp_mono; [exact (wp_enqueue_resolved max_delay now b job job_id delay m db Hm)|].
  intros [j|[e|e]] db'; cbn.
  - intros (request & Hreq & -> & Hrep & Hi & ->). unfold enqueue_request in Hreq.
    destruct (to_value job) as [payload|] eqn:Hpay; [|done].
    destruct (resolve_run_at_ms max_delay now delay) as [[run_at|]|] eqn:Hrun; [|done..].
    injection Hreq as <-. split; [done|]. cbn in Hrep.
    destruct (to_value_storable job payload Hpay) as [Hv Hs].
    assert (event_storable (Enqueued KIND payload run_at)) as Hst by (by split_and!).
    pose proof (enqueue_step id [] (mkEnqueueRequest job_id KIND payload run_at) db eq_refl Hst Hinv Hi) as [_ Hinv'].
    pose proof (enqueued_rows_storable (mkEnqueueRequest job_id KIND payload run_at) Hst db Hrows) as Hrows'.
    exists payload, run_at. split_and!; [done|done|exact Hinv'|exact Hrows'| |].
    + intros now_ms limit. destruct (poll_jobs_spec _ KIND now_ms limit Hrows') as (ids & Hp & _ & Hids & _).
      exists ids. split; [exact Hp|]. rewrite Hids. apply (enqueued_claimable (mkEnqueueRequest job_id KIND payload run_at) Hst).
    + intros config worker now_ms lease_ms max_claims fresh Hl Hmc Hrl.
      pose proof (enqueued_claim (mkEnqueueRequest job_id KIND payload run_at) Hst db worker now_ms lease_ms max_claims fresh
        (proj2 Hinv') Hl Hmc Hrl) as Hc. cbn [req_run_at_ms req_job_id req_payload] in Hc.
      destruct (run_at <=? now_ms)%Z; [|exact Hc]. destruct Hc as [db'' Hc].
      exists (mkHandle job_id 2 fresh 0), db''. split_and!; [exact Hc|done| |done].
      unfold build_task. by rewrite (from_to_value job payload Hpay).
  - intros ->. eauto.
  - intros (-> & request & Hreq & Hn). split; [done|]. intros Hb. exfalso. apply (Hn Hb).
    unfold enqueue_request in Hreq. repeat case_match; try done. injection Hreq as <-.
    by apply (head_insertable id []); [apply Hinv|].
Qed.
End delivered.
