(* ===== verification/Execution.v ===== *)
(** * Executing a claimed job

    Models [AckService::call] and [renew_loop] of
    src/crates/event-sorcery/src/job_backend.rs: a claimed job runs under a timeout
    while a second task renews its lease at every tick; when it has finished, the
    outcome is acknowledged unless the renewals found the lease lost.

    The ticks before the job finishes are a list: what the rest of the system did to
    the world since the previous tick, and the clock at the tick.  Ticks that fall
    into the acknowledgement are part of [send].

    [kept_claim] is the exclusion guarantee of a running job: while every claim attempt
    comes within the lease, nothing the rest of the system does ends its claim. *)

From S2P Require Import Prelude Json Sqlite EventTable Lifecycle Job Engine EngineProps.
From S2P Require Import ViewRepository JobQueue JobQueueProps Repository JobHistory Dispatch Worker.

(** ** The call *)

Record RenewTick : Type := mkTick {
  tick_env : World -> World;
  tick_now : Z;
}.

(** How the service's call ends: the lease was lost, the command could not be built
    (the panic of an instant outside the calendar), or the outcome was sent. *)
Inductive CallResult : Type :=
| CallLeaseLost
| CallPanicked
| CallAcked (verdict : option SettlementVerdict).

Section call.
Context `{SerdeJson, Chrono, Ulid, SqliteJson}.
Context (max_delta : Z) (config : JobWorkerConfig) (ctx : JobContext).

(** The rest of the world goes on after the renewal task has ended. *)
Definition run_ticks (ticks : list RenewTick) (w : World) : World :=
  fold_left (fun w tick => tick_env tick w) ticks w.

(** Whether the lease was found lost, and the world when the job finishes.  A panic of
    the clock arithmetic ends the renewal task only. *)
Fixpoint renew_loop (ticks : list RenewTick) (w : World) : bool * World :=
  match ticks with
  | [] => (false, w)
  | tick :: ticks =>
      let w := tick_env tick w in
      match instant_after (tick_now tick) (lease_delta max_delta (lease_duration config)) with
      | None => (false, run_ticks ticks w)
      | Some new_lease =>
          match renew_job (ulid_to_string (ctx_job_id ctx)) (ctx_claim_seq ctx) new_lease w with
          | (Ok LeaseLost, w) => (true, run_ticks ticks w)
          | (Ok LeaseHeld, w) | (Err _, w) => renew_loop ticks w
          end
      end
  end.

(** The result of [timeout(execution_timeout, run)]: [None] when it elapsed. *)
Definition execution_result {E A} (finished : option (result (TaskError E) (JobOutcome A))) :
    result (TaskError E) (JobOutcome A) :=
  match finished with
  | Some r => r
  | None => Err TaskOther
  end.

(** [now] is the clock when the outcome is acknowledged; [fuel] bounds the resends. *)
Definition call {E A} (error_chain : TaskError E -> string) (send : JobCommand -> M SendErr ()) (fuel : nat)
    (ticks : list RenewTick) (finished : option (result (TaskError E) (JobOutcome A))) (now : Z) (w : World) :
    result (TaskError E) (JobOutcome A) * CallResult * World :=
  let '(lost, w) := renew_loop ticks w in
  let result := execution_result finished in
  let plan := ack_plan error_chain result in
  if lost then (result, CallLeaseLost, w)
  else
    match ack max_delta config now ctx send fuel plan with
    | None => (result, CallPanicked, w)
    | Some send_loop => let '(verdict, w) := send_loop w in (result, CallAcked verdict, w)
    end.
End call.

(** ** Keeping a claim *)

Section kept.
Context `{SerdeJsonLaws, ChronoLaws, Ulid, SqliteJson, !SqliteJsonLaws}.
Context (job_id : string).

(** The job is claimed under [claim_id], by the last event of its log. *)
Definition claimed_under (claim_id : string) (es : list JobEvent) : Prop :=
  exists k p holder r a c, replay Uninitialized es = Live (Claimed k p holder claim_id r a c).

(** The lease stored for the job covers the instant. *)
Definition leased_at (db : Db) (now_ms : Z) : Prop :=
  exists row lease, view_table JOB_QUEUE db !! job_id = Some row /\ view_lease_until row = Some lease /\
    (now_ms <= lease)%Z.

(** What others may do around a running job: anything, as long as claims are attempted
    within the lease and nobody else settles with the claim's own id. *)
Definition permitted (claim_id : string) (action : JobAction) (db : Db) : Prop :=
  match action with
  | ActClaim now_ms => leased_at db now_ms
  | ActSettle command => command_claim_id command <> claim_id
  | _ => True
  end.

Definition permitted_step (claim_id : string) (c c' : list JobEvent * Db) : Prop :=
  exists action, permitted claim_id action c.2 /\ job_act job_id action c c'.

(** One permitted step neither extends the log nor moves the row off the claim. *)
Lemma permitted_keeps claim_id c c' :
  history_inv job_id c -> claimed_under claim_id c.1 -> permitted_step claim_id c c' ->
  c'.1 = c.1 /\ history_inv job_id c'.
Proof.
  intros Hinv Hcl (action & Hperm & Hact).
  destruct (history_step job_id c c' (ex_intro _ action Hact) Hinv) as [Hinv' _]. split; [|done].
  destruct Hinv as [Hwf Hinv]. destruct Hcl as (k & p & holder & r0 & a & cl & Hr).
  destruct Hact as
    [es request w r w' Hid Hst Hop|es worker now lease mx fresh w r w' Hm Hop|es seq nl w r w' Hop
    |es n command su m w r w' events pending Hcmd Hsu Hn Hm Hh Hop|es n e w r w' He Hop|es db db' Hwf' Hs Hv];
    cbn [fst snd] in *; try done.
  - destruct r as [[]|e]; [|done]. exfalso.
    pose proof (wp_world _ w _ (wp_enqueue_job true (job_event_of request)
      (view_payload (job_row_of request)) (w_db w))) as Hw. rewrite Hop in Hw. destruct Hw as [Hi _].
    destruct (enqueue_step job_id es request (w_db w)) as [-> _]; done.
  - destruct Hperm as (row & le & Hrow & Hle & Hnow).
    pose proof (plan_skips_leased _ _ _ _ _ _ _ _ _ _ _ _ worker now lease mx fresh Hinv Hr Hrow Hle Hnow) as Hskip.
    pose proof (wp_world _ w _ (wp_claim_job true job_id
      (fun read => plan_claim job_id read worker now lease mx fresh) (w_db w))) as Hw.
    rewrite Hop in Hw. cbn [fst] in Hw. rewrite Hskip in Hw.
    destruct r as [[won| | |]|e]; cbn [log_after_claim]; naive_solver.
  - pose proof (wp_world _ w _ (wp_settle true _ _ _ _ _ _ _ Hinv Hcmd Hsu Hn Hm)) as Hw. rewrite Hop in Hw. simpl in Hw.
    destruct r as [[]|e]; [|done]. destruct Hw as [[Hnil _]|(s & e & request & -> & Hrs & Hheld & _)].
    + rewrite Hnil in Hh. injection Hh as <- <-. by rewrite app_nil_r.
    + rewrite Hr in Hrs. injection Hrs as <-. injection Hheld as Hheld. by rewrite Hheld in Hperm.
Qed.

Lemma permitted_history claim_id c c' :
  rtc (permitted_step claim_id) c c' -> history_inv job_id c -> claimed_under claim_id c.1 ->
  c'.1 = c.1 /\ history_inv job_id c'.
Proof.
  induction 1 as [c|c1 c2 c3 Hs _ IH]; intros Hinv Hcl; [done|].
  destruct (permitted_keeps _ _ _ Hinv Hcl Hs) as [Heq Hinv2]. rewrite <-Heq in Hcl.
  destruct (IH Hinv2 Hcl) as [-> ?]. by split.
Qed.

(** A renewal of the job's own claim is never told that the lease is lost. *)
Lemma renewal_not_lost claim_id es w new_lease :
  history_inv job_id (es, w_db w) -> claimed_under claim_id es ->
  let '(r, w') := renew_job job_id (Z.of_nat (length es)) new_lease w in
  r <> Ok LeaseLost /\ history_inv job_id (es, w_db w').
Proof.
  intros Hinv (k & p & holder & r0 & a & cl & Hr).
  destruct (renew_job job_id (Z.of_nat (length es)) new_lease w) as [r w'] eqn:Hop.
  destruct (history_step job_id (es, w_db w) (es, w_db w')) as [Hinv' _];
    [by eexists; eapply step_renew|done|]. split; [|done]. intros ->.
  destruct Hinv as [_ Hinv]. cbn [fst snd] in *.
  destruct (row_at_claim _ _ _ _ _ _ _ _ _ _ Hinv Hr) as (row & Hrow & Hver & Hpay & _).
  assert (state_storable (Claimed k p holder claim_id r0 a cl)) as Hs by (eapply replay_storable; [apply Hinv|exact Hr]).
  assert (update_lease new_lease job_id (Z.of_nat (length es)) (w_db w) =
    (1, set_view JOB_QUEUE job_id (mkViewRow (view_version row) (view_payload row) (Some new_lease)) (w_db w))) as Hu.
  { unfold update_lease. rewrite Hrow, Hver, Z.eqb_refl. cbn [andb].
    rewrite bool_decide_eq_true_2; [done|]. rewrite Hpay. exact (proj1 (job_columns_of _ Hs)). }
  revert Hop. unfold renew_job, mbind, M_bind, lift_err, statement. rewrite Hu.
  by destruct (w_faults w) as [|[e|] fs].
Qed.

(** The rest of the system does only permitted things up to every tick, in the worlds
    the renewal loop leaves; [renewing] while the renewal task is alive. *)
Fixpoint permitted_ticks (max_delta : Z) (config : JobWorkerConfig) (ctx : JobContext) (claim_id : string)
    (es : list JobEvent) (renewing : bool) (ticks : list RenewTick) (w : World) : Prop :=
  match ticks with
  | [] => True
  | tick :: ticks =>
      let after := tick_env tick w in
      (exists es', rtc (permitted_step claim_id) (es, w_db w) (es', w_db after)) /\
      match instant_after (tick_now tick) (lease_delta max_delta (lease_duration config)), renewing with
      | Some new_lease, true =>
          permitted_ticks max_delta config ctx claim_id es true ticks
            (renew_job (ulid_to_string (ctx_job_id ctx)) (ctx_claim_seq ctx) new_lease after).2
      | _, _ => permitted_ticks max_delta config ctx claim_id es false ticks after
      end
  end.

Lemma run_ticks_keeps max_delta config ctx claim_id es ticks w :
  permitted_ticks max_delta config ctx claim_id es false ticks w ->
  history_inv job_id (es, w_db w) -> claimed_under claim_id es -> history_inv job_id (es, w_db (run_ticks ticks w)).
Proof.
  intros Ht Hinv Hcl. revert w Ht Hinv. induction ticks as [|tick ticks IH]; intros w Ht Hinv; [done|]. simpl in *.
  destruct Ht as [[es' Hsteps] Ht]. apply permitted_history in Hsteps as [Heq Hinv1]; [|done..].
  cbn [fst] in Heq. subst es'. apply IH; [by destruct (instant_after _ _)|done].
Qed.

(** The renewal loop leaves the claim in place. *)
Lemma renew_loop_keeps max_delta config ctx claim_id es ticks w :
  ulid_to_string (ctx_job_id ctx) = job_id -> ctx_claim_seq ctx = Z.of_nat (length es) ->
  permitted_ticks max_delta config ctx claim_id es true ticks w ->
  history_inv job_id (es, w_db w) -> claimed_under claim_id es ->
  let '(lost, w') := renew_loop max_delta config ctx ticks w in lost = false /\ history_inv job_id (es, w_db w').
Proof.
  intros Hid Hseq Ht Hinv Hcl. revert w Ht Hinv. induction ticks as [|tick ticks IH]; intros w Ht Hinv; [done|].
  simpl in *. destruct Ht as [[es' Hsteps] Ht]. apply permitted_history in Hsteps as [Heq Hinv1]; [|done..].
  cbn [fst] in Heq. subst es'. destruct (instant_after _ _) as [new_lease|].
  - rewrite Hid, Hseq in *. pose proof (renewal_not_lost claim_id es (tick_env tick w) new_lease Hinv1 Hcl) as Hren.
    destruct (renew_job _ _ _ _) as [[[]|e] w']; cbn [snd] in Ht; [by apply IH, Hren|by destruct Hren|by apply IH, Hren].
  - split; [done|]. by eapply run_ticks_keeps.
Qed.

(** C25: a job that renews in time is executed by its claimant alone.  Let the rest of
    the system do anything between the ticks of the renewal loop (enqueues, polls,
    claims by any worker within the stored lease, renewals and settlements under other
    claims, projections, unrelated writes, driver failures anywhere): the renewal loop
    never finds the lease lost, the job's log when it finishes is the one it started
    with, ending in its own claim, and [AckService::call] sends the acknowledgement. *)
Theorem kept_claim max_delta config ctx claim_id es ticks w {E A} error_chain send fuel
    (finished : option (result (TaskError E) (JobOutcome A))) now :
  ulid_to_string (ctx_job_id ctx) = job_id -> ctx_claim_seq ctx = Z.of_nat (length es) ->
  history_inv job_id (es, w_db w) -> claimed_under claim_id es ->
  permitted_ticks max_delta config ctx claim_id es true ticks w ->
  let '(lost, w') := renew_loop max_delta config ctx ticks w in
  lost = false /\ history_inv job_id (es, w_db w') /\
  (call max_delta config ctx error_chain send fuel ticks finished now w).1.2 =
    match ack max_delta config now ctx send fuel (ack_plan error_chain (execution_result finished)) with
    | None => CallPanicked
    | Some send_loop => CallAcked (send_loop w').1
    end.
Proof.
  intros Hid Hseq Hinv Hcl Hticks.
  pose proof (renew_loop_keeps max_delta config ctx claim_id es ticks w Hid Hseq Hticks Hinv Hcl) as Hloop.
  unfold call. destruct (renew_loop _ _ _ _ _) as [lost w']. destruct Hloop as [-> Hinv']. split_and!; try done.
  destruct (ack _ _ _ _ _ _ _) as [send_loop|]; [|done]. by destruct (send_loop w').
Qed.
End kept.
