(* ===== verification/Poll.v ===== *)
(** * The worker's poll loop over all jobs

    Worker.v models one iteration of the worker's stream ([poll]).  Here it is run on
    a database that holds any number of jobs, each with its own log: the iteration
    keeps the invariant of every one of them, and the task it hands out runs under
    the last claim of its job's log. *)

From S2P Require Import Prelude Json Sqlite EventTable Lifecycle Job Engine EngineProps.
From S2P Require Import ViewRepository JobQueue JobQueueProps Repository Dispatch Worker.

Section jobs.
Context `{SerdeJsonLaws, ChronoLaws, Ulid, SqliteJson}.

(** [logs id] is the log of the job [id], empty when there is no such job. *)
Record jobs_inv (logs : string -> list JobEvent) (db : Db) : Prop := {
  js_well_formed : well_formed db;
  js_jobs : forall id, job_inv id (logs id) db;
}.

Definition extend (id : string) (e : JobEvent) (logs : string -> list JobEvent) : string -> list JobEvent :=
  fun id' => if decide (id' = id) then logs id ++ [e] else logs id'.

Lemma extend_prefix id e logs id' : logs id' `prefix_of` extend id e logs id'.
Proof. unfold extend. case_decide; [subst; by apply prefix_app_r|done]. Qed.

(** A swap of one job leaves the others alone. *)
Lemma job_inv_swapped_other id id' es event payload lease db :
  id' <> id -> ev_aggregate_type event = JOB_AGGREGATE_TYPE -> ev_aggregate_id event = id ->
  job_inv id' es db -> job_inv id' es (swapped id event payload lease db).
Proof.
  intros Hne Ht Hid [Hlog Hrow Hlive Hst]. split; [|unfold swapped| |]; try done.
  - rewrite <-Hlog. apply (stream_rows_append_other JOB_AGGREGATE_TYPE id' [event] db).
    repeat constructor. unfold in_stream_event. rewrite Ht, Hid. naive_solver.
  - unfold view_table. simpl. rewrite lookup_insert_eq. simpl. by rewrite lookup_insert_ne.
Qed.

Lemma plan_claim_stream id read worker now_ms lease_ms max_claims fresh :
  match plan_claim id read worker now_ms lease_ms max_claims fresh with
  | DecideClaim event _ _ _ | DecideAbandon event _ =>
      ev_aggregate_type event = JOB_AGGREGATE_TYPE /\ ev_aggregate_id event = id
  | DecideSkip => True
  end.
Proof. unfold plan_claim, plan_abandon. repeat case_match; simplify_eq/=; done. Qed.

(** A claim on one job, seen by all of them. *)
Lemma claim_jobs id logs w worker now_ms lease_ms max_claims fresh :
  jobs_inv logs (w_db w) -> in_u32 max_claims = true ->
  let '(r, w') := claim_job id
    (fun read => plan_claim id read worker now_ms lease_ms max_claims fresh) w in
  match r with
  | Ok (OutcomeWon won) => exists s,
      replay Uninitialized (logs id) = Live s /\ terminal s = false /\
      won_claim_seq won = (Z.of_nat (length (logs id)) + 1)%Z /\ won_claim_id won = fresh /\
      won_attempt won = attempt_count s /\
      jobs_inv (extend id (ClaimedEv worker fresh (now_ms + lease_ms)) logs) (w_db w')
  | Ok OutcomeAbandoned =>
      jobs_inv (extend id (DeadEv Abandoned "claim budget exhausted") logs) (w_db w')
  | _ => w_db w' = w_db w
  end.
Proof.
  intros [Hwf Hjobs] Hm.
  pose proof (claim_spec id (logs id) w worker now_ms lease_ms max_claims fresh Hwf (Hjobs id) Hm) as Hc.
  set (dec := fun read => plan_claim id read worker now_ms lease_ms max_claims fresh) in *.
  pose proof (wp_world _ w _ (wp_claim_job true id dec (w_db w))) as Hw.
  pose proof (plan_claim_stream id (read_of id (w_db w)) worker now_ms lease_ms max_claims fresh) as Hp.
  fold (dec (read_of id (w_db w))) in Hp.
  destruct (claim_job id dec w) as [[[won| | |]|e] w']; cbn [fst snd] in Hw; try done.
  - destruct Hw as (event & payload & lease & Hd & _ & Hdb). rewrite Hd in Hp. destruct Hp as [Ht Hid].
    destruct Hc as (s & row & row' & Hr & _ & Hrun & _ & Hcs & Hci & Hat & Hinv & _ & _ & Hwf').
    exists s. split_and!; try done; [by destruct s|]. split; [done|]. intros id'. unfold extend.
    case_decide; [by subst|]. rewrite Hdb. by apply job_inv_swapped_other.
  - destruct Hw as (event & payload & Hd & _ & Hdb). rewrite Hd in Hp. destruct Hp as [Ht Hid].
    destruct Hc as (s & _ & _ & Hinv & Hwf'). split; [done|]. intros id'. unfold extend.
    case_decide; [by subst|]. rewrite Hdb. by apply job_inv_swapped_other.
Qed.
End jobs.

Section poll.
Context `{SerdeJsonLaws, ChronoLaws, Ulid, SqliteJson, TableScan}.
Context {J : Type} (from_value : Json -> option J).
Context (kind worker_id : string) (config : JobWorkerConfig).

(** The task's context is the last claim of its job's log. *)
Definition holds_claim (logs : string -> list JobEvent) (now_ms : Z) (ctx : JobContext) : Prop :=
  exists es s, logs (ulid_to_string (ctx_job_id ctx)) =
      es ++ [ClaimedEv worker_id (ctx_claim_id ctx) (now_ms + lease_millis (lease_duration config))] /\
    replay Uninitialized es = Live s /\ ctx_attempt ctx = attempt_count s /\
    ctx_claim_seq ctx = (Z.of_nat (length es) + 1)%Z /\ ctx_max_attempts ctx = max_attempts config /\
    (is_first_execution ctx = true <-> Forall (fun e => is_claim e = false) es).

Definition polled (logs : string -> list JobEvent) (now_ms : Z) (r : PollResult J) (w' : World) : Prop :=
  exists logs', jobs_inv logs' (w_db w') /\ (forall id, logs id `prefix_of` logs' id) /\
    match r with PollTask _ ctx => holds_claim logs' now_ms ctx | PollIdle => True end.

Lemma polled_trans logs logs' now_ms r w' :
  (forall id, logs id `prefix_of` logs' id) -> polled logs' now_ms r w' -> polled logs now_ms r w'.
Proof.
  intros Hp (logs'' & Hinv & Hp' & Hr). exists logs''. split_and!; [done| |done].
  intros id. exact (transitivity (Hp id) (Hp' id)).
Qed.

Lemma wp_poll_jobs_db now_ms limit db :
  wp true (poll_jobs kind now_ms limit) db (fun _ db' => db' = db).
Proof.
  unfold poll_jobs, find. cbn [any_of poll_predicate]. wp_step. apply wp_statement; [done|].
  by destruct (query_parses _ _).
Qed.

(** One candidate. *)
Lemma claim_one_jobs logs job_id now_ms fresh w :
  jobs_inv logs (w_db w) -> in_u32 (max_claims config) = true ->
  let '(r, w') := claim_one worker_id config job_id now_ms fresh w in
  exists logs', jobs_inv logs' (w_db w') /\ (forall id, logs id `prefix_of` logs' id) /\
    match r with
    | Ok (ClaimedJob handle _) => holds_claim logs' now_ms (task_context config handle)
    | _ => True
    end.
Proof.
  intros Hinv Hm. unfold claim_one, claim_job_as.
  match goal with |- context [if ?c then _ else _] => destruct c end; [by exists logs|].
  unfold mbind, M_bind, lift_err.
  pose proof (claim_jobs (ulid_to_string job_id) logs w worker_id now_ms (lease_millis (lease_duration config))
    (max_claims config) fresh Hinv Hm) as Hc.
  destruct (claim_job _ _ w) as [[[won| | |]|e] w']; cbn; try by (exists logs; rewrite Hc).
  - destruct Hc as (s & Hr & Ht & Hcs & Hci & Hat & Hinv'). eexists. split_and!; [exact Hinv'| |].
    + intros id. apply extend_prefix.
    + exists (logs (ulid_to_string job_id)), s. cbn. unfold extend. rewrite decide_True, Hci by done.
      split_and!; try done. unfold is_first_execution. cbn. rewrite Hcs, Z.eqb_eq.
      by apply (first_claim_iff_unclaimed _ s).
  - eexists. split_and!; [exact Hc| |done]. intros id. apply extend_prefix.
Qed.

Lemma poll_candidates_jobs now_ms candidates : forall fresh logs w,
  jobs_inv logs (w_db w) -> in_u32 (max_claims config) = true ->
  let '(r, w') := poll_candidates from_value worker_id config now_ms fresh candidates w in
  polled logs now_ms r w'.
Proof.
  induction candidates as [|view_id candidates IH]; intros fresh logs w Hinv Hm; cbn [poll_candidates].
  { by exists logs. }
  destruct (ulid_from_str view_id) as [job_id|]; [|by apply IH].
  pose proof (claim_one_jobs logs job_id now_ms (fresh 0) w Hinv Hm) as Hc.
  destruct (claim_one _ _ _ _ _ w) as [r w1]. destruct Hc as (logs' & Hinv' & Hp & Hr).
  specialize (IH (fun i => fresh (S i)) logs' w1 Hinv' Hm).
  destruct (poll_candidates _ _ _ _ _ candidates w1) as [r' w2].
  destruct r as [[handle payload| | |]|e]; try by eapply polled_trans.
  - unfold build_task. destruct (from_value payload); cbn; [|by eapply polled_trans]. by exists logs'.
  - by exists logs'.
Qed.

(** C27: a worker only runs what it durably claimed.  One iteration of the poll loop,
    over a queue of any number of jobs, with driver failures, malformed ids and
    undecodable payloads anywhere, keeps the invariant of every job and only
    extends their logs; a task it hands out runs under the last event of its job's
    log, a claim by this worker with the task's claim id and sequence, carries the
    attempts recorded before it, and is routed to a first submission exactly when
    no earlier claim of that job exists. *)
Theorem poll_task_holds_claim logs now_ms fresh w :
  jobs_inv logs (w_db w) -> in_u32 (max_claims config) = true ->
  let '(r, w') := poll from_value kind worker_id config now_ms fresh w in
  exists logs', jobs_inv logs' (w_db w') /\ (forall id, logs id `prefix_of` logs' id) /\
    match r with PollTask _ ctx => holds_claim logs' now_ms ctx | PollIdle => True end.
Proof.
  intros Hinv Hm. unfold poll. pose proof (wp_world _ w _ (wp_poll_jobs_db now_ms (scan_limit config) (w_db w))) as Hdb.
  destruct (poll_jobs _ _ _ w) as [[candidates|e] w1]; cbn [fst snd] in Hdb; rewrite <-Hdb in Hinv.
  - exact (poll_candidates_jobs now_ms candidates fresh logs w1 Hinv Hm).
  - by exists logs.
Qed.
End poll.
