(* ===== verification/Projection.v ===== *)
(** * Projections: views folded from event streams

    Models src/crates/event-sorcery/src/projection.rs: the reactor that folds each
    committed event into its view row ([react], with its retry loop), the startup
    replay of missed events ([catch_up], [replay_missed_events]) and the rebuild of
    views from history ([rebuild], [rebuild_all]).

    A view is the [Lifecycle] of the entity, stored as JSON text with the sequence it
    was folded to. *)

From S2P Require Import Prelude Json Sqlite EventTable Lifecycle Job Engine EngineProps.
From S2P Require Import ViewRepository Reactor.

(** The variants every operation of a projection may raise; those of queries only
    are in [Queries]. *)
Inductive ProjectionError : Type :=
| NotSqliteBacked
| PrPersistence (e : PersistenceError)
| PrSql (e : SqlxError)
| PrSerde (aggregate_id : string) (e : JsonError).

(** The error chain of a [PersistenceError]. *)
Definition persistence_node (e : PersistenceError) : ErrorNode :=
  match e with
  | ConnectionError e => NodePersistenceBoxed (NodeSqlx e None)
  | UnknownError => NodePersistenceBoxed (NodeOther None)
  | DeserializationError _ | OptimisticLockError => NodePersistence None
  end.

(** What a reaction ended in; the code reports all but the first in its log only. *)
Inductive ReactOutcome : Type := Reacted | LoadLost | LoadFailed | UpdateLost | SaveFailed.

Section projection.
Context `{SerdeJson}.
Context {Entity Event Command Error : Type} `{EventSourced Entity Event Command Error}.
Context `{Serde Entity, Serde Event, Serde Error}.

Abbreviation View := (Lifecycle Entity Event Error).

(** ** Reacting to one event *)

(** [remaining] is [max_retries - attempt]; the sleeps between attempts touch
    nothing. *)
Fixpoint react_loop (remaining : nat) (table view_id : string) (event : Event) :
    World -> ReactOutcome * World :=
  fun w =>
    let again w :=
      match remaining with
      | 0 => None
      | S remaining => Some (react_loop remaining table view_id event w)
      end in
    match (load_with_context table view_id : M PersistenceError (option (View * ViewContext))) w with
    | (Err error, w) =>
        if is_retryable_sqlite_busy (persistence_node error)
        then match again w with Some r => r | None => (LoadLost, w) end
        else (LoadFailed, w)
    | (Ok loaded, w) =>
        let '(lifecycle, context) := default (Uninitialized, mkViewContext view_id 0) loaded in
        match update_view table (apply lifecycle event) context w with
        | (Ok _, w) => (Reacted, w)
        | (Err OptimisticLockError, w) =>
            match again w with Some r => r | None => (UpdateLost, w) end
        | (Err error, w) =>
            if is_retryable_sqlite_busy (persistence_node error)
            then match again w with Some r => r | None => (UpdateLost, w) end
            else (SaveFailed, w)
        end
    end.

Definition react (table view_id : string) (event : Event) : World -> ReactOutcome * World :=
  react_loop (Z.to_nat RETRY_MAX_ATTEMPTS) table view_id event.

(** ** Catching up *)

(** [SELECT aggregate_id, MAX(sequence) ... GROUP BY aggregate_id] left-joined with
    the views, the rows that are missing or behind. *)
Definition aggregate_ids (t : string) (db : Db) : list string :=
  remove_dups (row_aggregate_id <$> filter (fun r => row_aggregate_type r = t) (db_events db)).

Definition max_seq (t id : string) (db : Db) : Z := max_sequence (stream_rows t id db).

Definition behind (version : option Z) (max_seq : Z) : bool :=
  match version with None => true | Some v => (v <? max_seq)%Z end.

Definition stale_aggregates (t table : string) (db : Db) : list (string * option Z * Z) :=
  filter (fun x => behind x.1.2 x.2 = true)
    ((fun id => (id, view_version <$> (view_table table db !! id), max_seq t id db))
       <$> aggregate_ids t db).

(** [serde_json::from_str::<Entity::Event>]. *)
Definition event_from_str (s : string) : option Event := from_str s ≫= de.

Fixpoint apply_payloads (view_id : string) (lifecycle : View) (payloads : list string) :
    result ProjectionError View :=
  match payloads with
  | [] => Ok lifecycle
  | payload :: payloads =>
      match event_from_str payload with
      | None => Err (PrSerde view_id Malformed)
      | Some event => apply_payloads view_id (apply lifecycle event) payloads
      end
  end.

(** [INSERT ... ON CONFLICT(view_id) DO UPDATE SET version, payload]. *)
Definition upsert_view (table view_id : string) (version : Z) (payload : string) (db : Db) : Db :=
  set_view table view_id
    (mkViewRow version payload (view_table table db !! view_id ≫= view_lease_until)) db.

(** The view to continue from, and the sequence it stands at. *)
Definition replay_base (view_version : Z) (loaded : result PersistenceError (option (View * ViewContext))) :
    result ProjectionError (View * Z) :=
  match loaded with
  | Ok (Some (lifecycle, _)) => Ok (lifecycle, view_version)
  | Ok None => Ok (Uninitialized, 0%Z)
  | Err (DeserializationError _) => Ok (Uninitialized, 0%Z)
  | Err error => Err (PrPersistence error)
  end.

Definition replay_missed_events (table t view_id : string) (view_version max_seq : Z) :
    M ProjectionError () :=
  fun w =>
    let '(loaded, w) := load_with_context table view_id w in
    ('(lifecycle, replay_from) ← lift (replay_base view_version loaded);
     missed ← lift_err PrSql (query (select_events t view_id (Some replay_from)));
     lifecycle ← lift (apply_payloads view_id lifecycle (row_payload <$> missed));
     lift_err PrSql (execute (upsert_view table view_id max_seq (to_string (ser lifecycle))))) w.

Fixpoint replay_stale (table t : string) (stale : list (string * option Z * Z)) : M ProjectionError () :=
  match stale with
  | [] => mret ()
  | (id, version, max_seq) :: stale =>
      _ ← replay_missed_events table t id (default 0%Z version) max_seq;
      replay_stale table t stale
  end.

Definition catch_up (table t : string) : M ProjectionError () :=
  stale ← lift_err PrSql (query (stale_aggregates t table));
  replay_stale table t stale.

Definition delete_view (table view_id : string) (db : Db) : Db :=
  set_view_table table (delete view_id (view_table table db)) db.

Definition rebuild (table t view_id : string) : M ProjectionError () :=
  _ ← lift_err PrSql (execute (delete_view table view_id));
  catch_up table t.

Definition rebuild_all (table t : string) : M ProjectionError () :=
  _ ← lift_err PrSql (execute (set_view_table table ∅));
  catch_up table t.
End projection.

(** ** Correctness of reacting *)

Section react.
Context `{SerdeJson}.
Context {Entity Event Command Error : Type} `{EventSourced Entity Event Command Error}.
Context `{Serde Entity, Serde Event, Serde Error}.

Abbreviation View := (Lifecycle Entity Event Error).

(** What the row of a view holds: its state and version. *)
Definition view_at (table view_id : string) (db : Db) : option (View * Z) :=
  match view_table table db !! view_id with
  | None => Some (Uninitialized, 0%Z)
  | Some row => (fun l => (l, view_version row)) <$> ok (view_from_str (view_payload row))
  end.

Lemma react_loop_spec n table view_id event w :
  let '(o, w') := react_loop (Entity := Entity) (Error := Error) n table view_id event w in
  match o with
  | Reacted => exists l v lease, view_at table view_id (w_db w) = Some (l, v) /\
      w_db w' = set_view table view_id
        (mkViewRow (i64_add v 1) (to_string (ser (apply l event))) lease) (w_db w)
  | _ => w_db w' = w_db w
  end.
Proof.
  revert w. induction n as [|n IH]; intros w; cbn [react_loop].
  all: pose proof (wp_world _ w _ (wp_load_with_context (V := View) true table view_id (w_db w))) as Hl.
  all: destruct (load_with_context table view_id w) as [[loaded|e] w1]; cbn [fst snd] in Hl; destruct Hl as [Hdb Hl].
  2,4: destruct (is_retryable_sqlite_busy _); try done; specialize (IH w1);
    destruct (react_loop n _ _ _ w1) as [[] w2]; by rewrite ?Hdb in IH.
  all: specialize (Hl (or_intror eq_refl)).
  all: destruct (default (Uninitialized, mkViewContext view_id 0) loaded) as [l context] eqn:Hdef.
  all: assert (view_at table view_id (w_db w) = Some (l, ctx_version context) /\ view_instance_id context = view_id) as [Hat Hid]
    by (unfold view_at; destruct (view_table table (w_db w) !! view_id) as [row|];
        [destruct (view_from_str (view_payload row)) as [view|]; simplify_eq/=; done|by simplify_eq/=]).
  all: pose proof (wp_world _ w1 _ (wp_update_view true table (apply l event) context (w_db w1))) as Hu.
  all: destruct (update_view table (apply l event) context w1) as [[[]|e] w2]; cbn [fst snd] in Hu.
  1,3: rewrite Hdb, Hid in Hu; destruct Hu as [(_ & _ & ->)|(old & _ & _ & ->)]; eauto 10.
  - rewrite Hdb in Hu. destruct e; try done; by destruct (is_retryable_sqlite_busy _).
  - rewrite Hdb in Hu. specialize (IH w2). rewrite Hu in IH.
    destruct (react_loop n _ _ _ w2) as [o w3].
    destruct e; try exact IH; destruct (is_retryable_sqlite_busy _); try exact IH; done.
Qed.

(** A reaction applies its event exactly once or not at all.  However many
    attempts the busy and conflict retries take and wherever the driver fails, a
    reaction that reports success advanced the row by exactly one version and
    applied the event once to the state it held; in every other case the row is
    what it was. *)
Theorem react_applies_once table view_id event w :
  let '(o, w') := react (Entity := Entity) (Error := Error) table view_id event w in
  match o with
  | Reacted => exists l v lease, view_at table view_id (w_db w) = Some (l, v) /\
      w_db w' = set_view table view_id
        (mkViewRow (i64_add v 1) (to_string (ser (apply l event))) lease) (w_db w)
  | _ => w_db w' = w_db w
  end.
Proof. apply react_loop_spec. Qed.
End react.

(** ** Correctness of catching up *)

Section catch_up.
Context `{SerdeJson}.
Context {Entity Event Command Error : Type} `{EventSourced Entity Event Command Error}.
Context `{Serde Entity, Serde Event, Serde Error}.

Abbreviation View := (Lifecycle Entity Event Error).

Definition decode_rows (rows : list StoredEventRow) : option (list Event) :=
  mapM event_from_str (row_payload <$> rows).

(** The stored stream of an aggregate decodes to [es]. *)
Definition decoded (t id : string) (db : Db) (es : list Event) : Prop :=
  decode_rows (select_events t id None db) = Some es.

Definition up_to (v : Z) (r : StoredEventRow) : bool := (row_sequence r <=? v)%Z.

(** A view row that can be read holds the fold of the events up to its version. *)
Definition view_sound (table t id : string) (db : Db) : Prop :=
  match view_table table db !! id with
  | None => True
  | Some row =>
      forall l : View, view_from_str (view_payload row) = Ok l ->
        exists pre, decode_rows (filter (fun r => up_to (view_version row) r = true)
                                   (select_events t id None db)) = Some pre /\
                    l = replay Uninitialized pre
  end.

Lemma apply_payloads_replay view_id (l : View) payloads es :
  mapM event_from_str payloads = Some es -> apply_payloads view_id l payloads = Ok (replay l es).
Proof.
  revert l es. induction payloads as [|p payloads IH]; intros l es Hm; [by injection Hm as <-|].
  cbn [mapM] in Hm. apply bind_Some in Hm as (e & He & Hm). apply bind_Some in Hm as (es' & Hes & [= <-]).
  cbn [apply_payloads]. rewrite He. exact (IH (apply l e) es' Hes).
Qed.

Lemma sorted_split l v :
  StronglySorted row_lt l ->
  filter (fun r => up_to v r = true) l ++ filter (fun r => after (Some v) r = true) l = l.
Proof.
  induction 1 as [|r l Hs IH Hr]; [done|]. rewrite !filter_cons. unfold up_to, after in *.
  destruct (Z.leb_spec (row_sequence r) v) as [Hle|Hgt].
  - rewrite decide_True by done. rewrite decide_False by (rewrite Z.ltb_lt; lia). simpl. by f_equal.
  - rewrite decide_False by done. rewrite decide_True by (apply Z.ltb_lt; lia).
    rewrite Forall_forall in Hr. rewrite (list_filter_none _ l).
    + simpl. f_equal. apply list_filter_all. intros x Hx. specialize (Hr x Hx).
      unfold row_lt in Hr. apply Z.ltb_lt. lia.
    + intros x Hx. specialize (Hr x Hx). unfold row_lt in Hr. rewrite Z.leb_le. lia.
Qed.

Lemma decode_rows_app l k es :
  decode_rows (l ++ k) = Some es <->
  exists a b, decode_rows l = Some a /\ decode_rows k = Some b /\ es = a ++ b.
Proof.
  unfold decode_rows. rewrite fmap_app. split.
  - rewrite mapM_Some. intros (a & b & Ha & Hb & ->)%Forall2_app_inv_l. exists a, b.
    by rewrite !mapM_Some.
  - intros (a & b & Ha & Hb & ->). rewrite mapM_Some in *. by apply Forall2_app.
Qed.

(** What is left to apply completes the fold. *)
Lemma decode_after t id db v es pre :
  keys_unique db -> decoded t id db es ->
  decode_rows (filter (fun r => up_to v r = true) (select_events t id None db)) = Some pre ->
  exists post, decode_rows (select_events t id (Some v) db) = Some post /\ es = pre ++ post.
Proof.
  intros Hk Hd Hp. unfold decoded in Hd.
  rewrite <-(sorted_split _ v (select_events_sorted t id None db Hk)) in Hd.
  apply decode_rows_app in Hd as (a & b & Ha & Hb & ->). rewrite Hp in Ha. injection Ha as <-.
  exists b. split; [|done]. change (Some v) with (min_bound None (Some v)).
  by rewrite select_events_after.
Qed.

Definition positive_sequences (t : string) (db : Db) : Prop :=
  Forall (fun r => row_aggregate_type r = t -> (0 < row_sequence r)%Z) (db_events db).

Lemma decode_after_zero t id db es :
  keys_unique db -> positive_sequences t db -> decoded t id db es ->
  decode_rows (select_events t id (Some 0%Z) db) = Some es.
Proof.
  intros Hk Hp Hd. destruct (decode_after t id db 0 es [] Hk Hd) as (post & Hpost & ->); [|done].
  rewrite list_filter_none; [done|]. intros r Hr. rewrite elem_of_select, elem_of_visible in Hr.
  destruct Hr as (Hin & Ht & _). unfold positive_sequences in Hp. rewrite Forall_forall in Hp.
  specialize (Hp r Hin Ht). unfold up_to. rewrite Z.leb_le. lia.
Qed.

Lemma wp_load_view b table id db :
  wp b (load_with_context table id : M _ (option (View * ViewContext))) db (fun r db' =>
    db' = db /\
    (r = match view_table table db !! id with
         | None => Ok None
         | Some row => (fun view : View => Some (view, mkViewContext id (view_version row))) <$>
             map_err DeserializationError (view_from_str (view_payload row))
         end \/ b = true /\ exists e, r = Err (ConnectionError e))).
Proof.
  unfold load_with_context. repeat wp_step; [intros ->; simpl; naive_solver|]. simpl. wp_step. by split; [|left].
Qed.

(** The view a replay of a row continues from, and the sequence it takes it to stand at:
    the row's, or nothing if there is none or it cannot be read. *)
Definition replay_from (table id : string) (db : Db) : View * Z :=
  match view_table table db !! id with
  | None => (Uninitialized, 0%Z)
  | Some row =>
      match view_from_str (view_payload row) with
      | Ok view => (view, view_version row)
      | Err _ => (Uninitialized, 0%Z)
      end
  end.

(** What catching up makes of the row: the events after that sequence, applied in order;
    [None] if one does not decode. *)
Definition restored (table t id : string) (db : Db) : option View :=
  let '(base, from) := replay_from table id db in
  missed ← decode_rows (select_events t id (Some from) db);
  Some (replay base missed).

(** Of a sound row, the fold of the whole stream. *)
Lemma restored_sound table t id db (es : list Event) :
  keys_unique db -> positive_sequences t db -> decoded t id db es -> view_sound table t id db ->
  restored table t id db = Some (replay Uninitialized es).
Proof.
  intros Hk Hp Hd Hs. pose proof (decode_after_zero t id db es Hk Hp Hd) as H0'. unfold view_sound, restored, replay_from in *.
  destruct (view_table table db !! id) as [row|]; [|by rewrite H0'].
  destruct (view_from_str (view_payload row)) as [l|e]; [|by rewrite H0'].
  destruct (Hs l eq_refl) as (pre & Hpre & ->).
  destruct (decode_after _ _ _ _ _ _ Hk Hd Hpre) as (post & Hpost & ->).
  rewrite Hpost. cbn. by rewrite replay_app.
Qed.

(** Replaying one stale view writes that, or nothing. *)
Lemma replay_missed_spec b table t id db (s : View) max_seq :
  restored table t id db = Some s ->
  wp b (replay_missed_events table t id (default 0%Z (view_version <$> (view_table table db !! id))) max_seq) db
    (fun r db' =>
       match r with
       | Ok _ => db' = upsert_view table id max_seq (to_string (ser s)) db
       | Err _ => b = true /\ db' = db
       end).
Proof.
  intros Hr. unfold replay_missed_events, restored, replay_from in *.
  apply wp_attempt. eapply wp_mono; [apply wp_load_view|].
  intros r db' [-> [->|[-> [e ->]]]]; [|by repeat wp_step].
  assert (forall base from (post : list Event), decode_rows (select_events t id (Some from) db) = Some post ->
    replay base post = s ->
    wp b ('(lifecycle, replay_from) ← lift (Ok (base, from));
          missed ← lift_err PrSql (query (select_events t id (Some replay_from)));
          lifecycle ← lift (apply_payloads id lifecycle (row_payload <$> missed));
          lift_err PrSql (execute (upsert_view table id max_seq (to_string (ser lifecycle))))) db
      (fun r db' => match r with
       | Ok _ => db' = upsert_view table id max_seq (to_string (ser s)) db
       | Err _ => b = true /\ db' = db
       end)) as Hgo.
  { intros base from post Hpost <-. repeat wp_step; [naive_solver|]. cbn. repeat wp_step.
    rewrite (apply_payloads_replay _ _ _ _ Hpost). repeat wp_step; [naive_solver|done]. }
  destruct (view_table table db !! id) as [row|]; cbn in *.
  - destruct (view_from_str (view_payload row)) as [l|e]; cbn in *;
      apply bind_Some in Hr as (post & Hpost & [= Hs]); by eapply Hgo.
  - apply bind_Some in Hr as (post & Hpost & [= Hs]). by eapply Hgo.
Qed.

(** The row an aggregate is brought to. *)
Definition caught_up (table t id : string) (s : View) (db : Db) : ViewRow :=
  mkViewRow (max_seq t id db) (to_string (ser s)) (view_table table db !! id ≫= view_lease_until).

Lemma view_table_upsert table id v p db id' :
  view_table table (upsert_view table id v p db) !! id' =
    if decide (id = id') then Some (mkViewRow v p (view_table table db !! id ≫= view_lease_until))
    else view_table table db !! id'.
Proof.
  unfold upsert_view, set_view. unfold view_table at 1. simpl. rewrite lookup_insert_eq. simpl.
  case_decide; [subst; by rewrite lookup_insert_eq|by rewrite lookup_insert_ne].
Qed.

(** Nothing but the view table is touched. *)
Definition only_table (table : string) (db db' : Db) : Prop :=
  db_events db' = db_events db /\ db_snapshots db' = db_snapshots db /\
  forall other, other <> table -> view_table other db' = view_table other db.

Lemma only_table_refl table db : only_table table db db.
Proof. by split_and!. Qed.

Lemma only_table_trans table db1 db2 db3 : only_table table db1 db2 -> only_table table db2 db3 -> only_table table db1 db3.
Proof.
  intros (He & Hs & Hv) (He' & Hs' & Hv'). split_and!; [congruence..|]. intros other Ho. by rewrite Hv', Hv.
Qed.

Lemma only_table_upsert table id v p db : only_table table db (upsert_view table id v p db).
Proof.
  split_and!; [done..|]. intros other Ho. unfold upsert_view, set_view, view_table. cbn. by rewrite lookup_insert_ne.
Qed.

Definition stale_of (table t : string) (db : Db) (id : string) : string * option Z * Z :=
  (id, view_version <$> (view_table table db !! id), max_seq t id db).

Lemma replay_stale_spec b table t (S : string -> View) ids db0 db :
  NoDup ids -> db_events db = db_events db0 ->
  Forall (fun id => restored table t id db = Some (S id) /\
                    view_table table db !! id = view_table table db0 !! id) ids ->
  wp b (replay_stale (Entity := Entity) (Error := Error) table t (stale_of table t db0 <$> ids)) db
    (fun r db' => only_table table db db' /\
       (forall id, view_table table db' !! id = view_table table db !! id \/
          id ∈ ids /\ view_table table db' !! id = Some (caught_up table t id (S id) db0)) /\
       match r with
       | Ok _ => forall id, view_table table db' !! id =
           if decide (id ∈ ids) then Some (caught_up table t id (S id) db0) else view_table table db !! id
       | Err _ => b = true
       end).
Proof.
  intros Hn. revert db. induction Hn as [|id ids Hid Hn IH]; intros db He Hall.
  - cbn [fmap list_fmap replay_stale]. wp_step. split_and!; [apply only_table_refl|by left|]. intros id.
    destruct (decide (id ∈ [])) as [Hin|]; [by apply not_elem_of_nil in Hin|done].
  - apply Forall_cons in Hall as [(Hs & Hv) Hall]. cbn [fmap list_fmap replay_stale stale_of].
    wp_step. rewrite <-Hv. eapply wp_mono; [by apply replay_missed_spec|].
    intros [[]|e] db'; [intros ->|by intros [-> ->]; split_and!; auto using only_table_refl].
    set (db' := upsert_view _ _ _ _ db).
    assert (forall id', view_table table db' !! id' = if decide (id = id')
      then Some (caught_up table t id (S id) db0) else view_table table db !! id') as Hdb'.
    { intros id'. unfold db'. rewrite view_table_upsert. unfold caught_up. by rewrite Hv. }
    eapply wp_mono; [apply (IH db')|]; [done|..].
    + rewrite Forall_forall in Hall |- *. intros id' Hid'. destruct (Hall id' Hid') as (Hs' & Hv').
      assert (id <> id') as Hne by (by intros ->).
      assert (view_table table db' !! id' = view_table table db !! id') as Hsame by (by rewrite Hdb', decide_False).
      unfold restored, replay_from in *. rewrite Hsame. by split.
    + intros r db'' (Honly & Hsome & Hrows). split_and!.
      * eapply only_table_trans; [apply only_table_upsert|exact Honly].
      * intros id'. specialize (Hsome id'). rewrite elem_of_cons. rewrite Hdb' in Hsome.
        destruct (decide (id = id')) as [->|]; naive_solver.
      * destruct r as [[]|]; [|done]. intros id'. rewrite Hrows, Hdb'. clear Hrows Hsome.
        repeat case_decide; set_solver.
Qed.

(** An aggregate whose row is missing or behind. *)
Definition lagging (table t id : string) (db : Db) : Prop :=
  id ∈ aggregate_ids t db /\ behind (view_version <$> (view_table table db !! id)) (max_seq t id db) = true.

#[export] Instance lagging_dec table t id db : Decision (lagging table t id db).
Proof. unfold lagging. apply _. Defined.

(** The outcome of [catch_up]: missing and lagging rows are restored at the last
    sequence of their streams, the others stay. *)
Definition caught_up_table (table t : string) (S : string -> View) (db db' : Db) : Prop :=
  forall id, view_table table db' !! id =
    if decide (lagging table t id db) then Some (caught_up table t id (S id) db) else view_table table db !! id.

Lemma stale_ids table t db :
  stale_aggregates t table db =
    stale_of table t db <$> filter (fun id => behind (view_version <$> (view_table table db !! id))
                                                (max_seq t id db) = true) (aggregate_ids t db).
Proof.
  unfold stale_aggregates, stale_of. induction (aggregate_ids t db) as [|id l IH]; [done|].
  rewrite fmap_cons, !filter_cons. cbn [fst snd]. case_decide; [rewrite fmap_cons; by f_equal|done].
Qed.

Lemma wp_catch_up b table t (S : string -> View) db :
  (forall id, lagging table t id db -> restored table t id db = Some (S id)) ->
  wp b (catch_up (Entity := Entity) (Error := Error) table t) db (fun r db' =>
    only_table table db db' /\
    (forall id, view_table table db' !! id = view_table table db !! id \/
       lagging table t id db /\ view_table table db' !! id = Some (caught_up table t id (S id) db)) /\
    match r with Ok _ => caught_up_table table t S db db' | Err _ => b = true end).
Proof.
  intros Hall. unfold catch_up. repeat wp_step; [by naive_solver (auto using only_table_refl)|]. cbn [map_err]. rewrite stale_ids.
  set (ids := filter _ _).
  assert (forall id, id ∈ ids <-> lagging table t id db) as Hids.
  { intros id. unfold ids, lagging. rewrite list_elem_of_filter. tauto. }
  eapply wp_mono; [apply (replay_stale_spec b table t S ids db db); [|done|]|].
  - apply NoDup_filter, NoDup_remove_dups.
  - rewrite Forall_forall. intros id Hid%Hids. split; [by apply Hall|done].
  - intros r db' (Honly & Hsome & Hrows). split_and!; [done| |].
    + intros id. destruct (Hsome id) as [|[Hin%Hids ?]]; auto.
    + destruct r as [[]|]; [|done]. intros id. rewrite Hrows. apply decide_ext, Hids.
Qed.

(** C34: what catching up does.  Let the missed events of every aggregate whose row is
    missing or behind decode.  Then [catch_up] succeeds; each of these rows holds, at
    the last sequence of its stream, the state its row held with the events after the
    row's version applied in order (the fold from the first event, if there was no row
    or it could not be read); and nothing else changes: no other row or view table, no
    event, no snapshot.  Where the row was sound, the fold of the events up to its
    version, it is thereby the fold of the whole stream. *)
Theorem catch_up_restores table t (S : string -> View) db :
  well_formed db -> positive_sequences t db ->
  (forall id, lagging table t id db -> restored table t id db = Some (S id)) ->
  exists db', run (catch_up (Entity := Entity) (Error := Error) table t) db = (Ok (), db') /\
    only_table table db db' /\ caught_up_table table t S db db' /\
    forall id es, lagging table t id db -> decoded t id db es -> view_sound table t id db -> S id = replay Uninitialized es.
Proof.
  intros [Hk _ _] Hp Hall.
  pose proof (wp_run _ _ _ (wp_catch_up false table t S db Hall)) as (Honly & _ & Ht).
  destruct (run _ db) as [[[]|] db']; [|done]. exists db'. split_and!; [done..|].
  intros id es Hl Hd Hs. specialize (Hall id Hl). rewrite (restored_sound _ _ _ _ es) in Hall by done. by injection Hall.
Qed.

(** The table a rebuild leaves. *)
Definition rebuilt (table t : string) (E : string -> list Event) (db db' : Db) : Prop :=
  forall id, view_table table db' !! id =
    if decide (id ∈ aggregate_ids t db)
    then Some (mkViewRow (max_seq t id db) (to_string (ser (replay Uninitialized (E id) : View))) None)
    else None.

Lemma wp_rebuild_all b table t (E : string -> list Event) db :
  keys_unique db -> positive_sequences t db ->
  Forall (fun id => decoded t id db (E id)) (aggregate_ids t db) ->
  wp b (rebuild_all (Entity := Entity) (Error := Error) table t) db (fun r db' =>
    db_events db' = db_events db /\ db_snapshots db' = db_snapshots db /\
    (forall id row, view_table table db' !! id = Some row -> view_table table db !! id = Some row \/
       view_version row = max_seq t id db /\ view_payload row = to_string (ser (replay Uninitialized (E id) : View))) /\
    match r with Ok _ => rebuilt table t E db db' | Err _ => b = true end).
Proof.
  intros Hk Hp Hall. set (db1 := set_view_table table ∅ db).
  assert (forall id, view_table table db1 !! id = None) as Hnone.
  { intros id. unfold view_table, db1. simpl. by rewrite lookup_insert_eq. }
  unfold rebuild_all. repeat wp_step; [naive_solver|]. cbn [map_err]. fold db1.
  eapply wp_mono; [apply (wp_catch_up b table t (fun id => replay Uninitialized (E id)) db1)|].
  - intros id [Hid _]. rewrite Forall_forall in Hall. apply restored_sound; [done..|by apply Hall|].
    unfold view_sound. by rewrite Hnone.
  - intros r db' ((He & Hsn & _) & Hsome & Ht). split_and!; [done..| |].
    + intros id row Hrow. destruct (Hsome id) as [Hn|[_ Hc]]; [by rewrite Hn, Hnone in Hrow|].
      rewrite Hc in Hrow. injection Hrow as <-. by right.
    + destruct r as [[]|]; [|done]. intros id. rewrite Ht, Hnone. unfold caught_up. rewrite Hnone. cbn.
      apply decide_ext. unfold lagging. change (aggregate_ids t db1) with (aggregate_ids t db). rewrite Hnone. cbn. tauto.
Qed.

(** A rebuild depends on the event log alone.  Whatever the view table held
    (nothing, stale rows, rows that no longer decode), after [rebuild_all] it holds
    exactly one row per aggregate with events: the fold of its whole stream, at its
    last sequence. *)
Theorem rebuild_all_is_fold table t (E : string -> list Event) db :
  well_formed db -> positive_sequences t db ->
  Forall (fun id => decoded t id db (E id)) (aggregate_ids t db) ->
  exists db', run (rebuild_all (Entity := Entity) (Error := Error) table t) db = (Ok (), db') /\
    db_events db' = db_events db /\
    forall id, view_table table db' !! id =
      if decide (id ∈ aggregate_ids t db)
      then Some (mkViewRow (max_seq t id db) (to_string (ser (replay Uninitialized (E id) : View))) None)
      else None.
Proof.
  intros [Hk _ _] Hp Hall.
  pose proof (wp_run _ _ _ (wp_rebuild_all false table t E db Hk Hp Hall)) as (He & _ & _ & Ht).
  destruct (run _ db) as [[[]|] db']; [by exists db'|done].
Qed.
End catch_up.
