(* ===== verification/Startup.v ===== *)
(** * Wiring a store at startup

    Models [StoreBuilder::build] of src/crates/event-sorcery/src/wire.rs for entities
    with and without a projection, and [Reconciler::reconcile],
    [Reconciler::record_version] of schema_registry.rs: compare the stored schema
    version with the code's, clear stale snapshots, rebuild or catch up the views,
    and record the version last.

    A startup runs alone ("before registering the projection as a reactor so no
    concurrent writes can interfere").  A crash is a fault schedule that fails every
    statement from some point on. *)

From S2P Require Import Prelude Json Sqlite EventTable Lifecycle Schema Job Engine EngineProps.
From S2P Require Import ViewRepository Repository SqliteEs SchemaRecovery Reactor Projection.

(** The constants of an [EventSourced] implementation and its projection's table. *)
Record EntityConfig : Type := mkEntityConfig {
  AGGREGATE_TYPE : string;
  SCHEMA_VERSION : Z;
  COMPACTION_POLICY : CompactionPolicy;
  SNAPSHOT_SIZE : Z;
}.

Definition schema_target (config : EntityConfig) : SchemaTarget :=
  mkSchemaTarget (AGGREGATE_TYPE config) (SCHEMA_VERSION config) (COMPACTION_POLICY config).

Definition reconcile_error_of_projection (error : ProjectionError) : ReconcileError :=
  match error with
  | PrSql sqlx_error => ReSqlx sqlx_error
  | PrPersistence persistence_error => RePersistence persistence_error
  | _ => RePersistence UnknownError
  end.

Section build.
Context `{SerdeJson, CqrsLoad}.
Context {Entity Event Command Error : Type} `{EventSourced Entity Event Command Error}.
Context `{Serde Entity, Serde Event, Serde Error}.
Context (config : EntityConfig).

Definition reconcile : M ReconcileError SchemaReconciliation := reconcile_target (schema_target config).
Definition record_version : M ReconcileError () := record_target (schema_target config).

(** Projected entities; [COMPACTION_POLICY] is [Retain] by a compile-time assertion. *)
Definition build_projected (table : string) : M ReconcileError () :=
  reconciliation ← reconcile;
  _ ← lift_err reconcile_error_of_projection
        (match reconciliation with
         | Changed => rebuild_all (Entity := Entity) (Error := Error) table (AGGREGATE_TYPE config)
         | Unchanged => catch_up (Entity := Entity) (Error := Error) table (AGGREGATE_TYPE config)
         end);
  record_version.

(** Entities without a projection. *)
Definition build_unprojected : M ReconcileError () :=
  _ ← reconcile;
  record_version.

(** Startups under the given fault schedules, one after the other. *)
Definition startups (build : M ReconcileError ()) (schedules : list (list (option SqlxError))) (db : Db) : Db :=
  fold_left (fun db faults => w_db (build (mkWorld db faults)).2) schedules db.
End build.

(** ** Recovery *)

Section recovery.
Context `{SerdeJsonLaws, CqrsLoadLaws}.
Context {Entity Event Command Error : Type} `{EventSourced Entity Event Command Error}.
Context `{Serde Entity, Serde Event, Serde Error}.
Context (config : EntityConfig) (table : string) (E : string -> list Event).
Abbreviation t := (AGGREGATE_TYPE config).
Abbreviation View := (Lifecycle Entity Event Error).

(** Every readable row is the fold of the events up to its version. *)
Definition views_sound (db : Db) : Prop :=
  forall id, id ∈ aggregate_ids t db -> view_sound (Entity := Entity) (Error := Error) table t id db.

(** The row recovery writes: the text of the fold of the whole stream, at its last
    sequence. *)
Definition exact_row (db : Db) (id : string) (row : ViewRow) : Prop :=
  view_version row = max_seq t id db /\ view_payload row = to_string (ser (replay Uninitialized (E id) : View)).

Definition views_exact (db : Db) : Prop :=
  forall id, id ∈ aggregate_ids t db -> exists row, view_table table db !! id = Some row /\ exact_row db id row.

(** Recovery writes no other row: what a row holds is what recovery wrote, or what it held
    in [db0]. *)
Definition views_kept (db0 db : Db) : Prop :=
  forall id row, id ∈ aggregate_ids t db -> view_table table db !! id = Some row ->
    exact_row db id row \/ view_table table db0 !! id = Some row.

(** Every aggregate has a row: the one recovery writes, or its row in [db0], which was at
    the last sequence already and reads as the fold of the whole stream, if it can be
    read. *)
Definition views_complete (db0 db : Db) : Prop :=
  forall id, id ∈ aggregate_ids t db -> exists row, view_table table db !! id = Some row /\
    (exact_row db id row \/
     view_table table db0 !! id = Some row /\ (max_seq t id db <= view_version row)%Z /\
     forall l : View, view_from_str (view_payload row) = Ok l -> l = replay Uninitialized (E id)).

(** No snapshot of the type is left. *)
Definition snapshots_cleared (db : Db) : Prop :=
  forall id, db_snapshots db !! (t, id) = None.

Definition log_decodes (db : Db) : Prop :=
  keys_unique db /\ positive_sequences t db /\
  Forall (fun id => decoded t id db (E id)) (aggregate_ids t db).

(** A registry that claims the current version stands for a finished recovery. *)
Definition recovered (es0 es : list SchemaRegistryEvent) (db : Db) : Prop :=
  last_version t es = Some (SCHEMA_VERSION config) ->
  views_sound db /\
  (last_version t es0 <> Some (SCHEMA_VERSION config) -> snapshots_cleared db /\ views_exact db).

(** What every crash point keeps: the log of the entity, rows recovery did not spoil, and
    a registry whose claims are true. *)
Record startup_inv (es0 : list SchemaRegistryEvent) (db0 db : Db) : Prop := {
  inv_log : log_decodes db;
  inv_stream : forall id, select_events t id None db = select_events t id None db0;
  inv_views : views_kept db0 db;
  inv_registry : exists es, registry_inv es db /\
    (es = es0 \/ es = registered (schema_target config) es0) /\ recovered es0 es db;
}.

Context (Hregistry : t <> REGISTRY_TYPE) (Hversion : in_u64 (SCHEMA_VERSION config) = true).
(** The views of the entity read back. *)
Context (Hreadable : forall id,
  view_from_str (V := View) (to_string (ser (replay Uninitialized (E id) : View))) =
    Ok (replay Uninitialized (E id) : View)).

Lemma type_filter_registered es db :
  filter (fun r => row_aggregate_type r = t) (db_events (registered_rows (schema_target config) es db)) =
    filter (fun r => row_aggregate_type r = t) (db_events db).
Proof.
  unfold registered_rows. case_bool_decide; [done|]. simpl. rewrite filter_app.
  rewrite (list_filter_none _ [_]); [apply app_nil_r|]. intros r Hr%list_elem_of_singleton. subst. intros Heq. by apply Hregistry.
Qed.

(** Two databases with the same events of the type agree on its streams. *)
Definition same_type_events (db db' : Db) : Prop :=
  filter (fun r => row_aggregate_type r = t) (db_events db') =
    filter (fun r => row_aggregate_type r = t) (db_events db).

Lemma same_stream_rows db db' id :
  same_type_events db db' -> stream_rows t id db' = stream_rows t id db.
Proof.
  intros Hs. unfold stream_rows.
  assert (forall d, filter (fun r => in_stream t id r = true) (db_events d) =
    filter (fun r => row_aggregate_id r = id) (filter (fun r => row_aggregate_type r = t) (db_events d))) as Hd.
  { intros d. rewrite list_filter_filter. apply list_filter_ext_in. intros r _. rewrite in_stream_true. tauto. }
  by rewrite !Hd, Hs.
Qed.

Lemma same_select db db' id bound :
  same_type_events db db' -> select_events t id bound db' = select_events t id bound db.
Proof. intros Hs. unfold select_events. by rewrite (same_stream_rows db). Qed.

Lemma same_ids db db' : same_type_events db db' -> aggregate_ids t db' = aggregate_ids t db.
Proof. intros Hs. unfold aggregate_ids. by rewrite Hs. Qed.

Lemma same_log db db' :
  same_type_events db db' -> keys_unique db' -> log_decodes db -> log_decodes db'.
Proof.
  intros Hs Hk (_ & Hp & Hd). split_and!; [done| |].
  - unfold positive_sequences in *. rewrite Forall_forall in *. intros r Hr Ht.
    apply Hp; [|done]. assert (r ∈ filter (fun r => row_aggregate_type r = t) (db_events db)) as Hin.
    { rewrite <-Hs. by apply list_elem_of_filter. }
    by apply list_elem_of_filter in Hin as [_ ?].
  - rewrite (same_ids db) by done. rewrite Forall_forall in *. intros id Hid.
    unfold decoded. rewrite (same_select db) by done. by apply Hd.
Qed.

Lemma view_sound_same db db' id :
  same_type_events db db' -> view_table table db' !! id = view_table table db !! id ->
  view_sound (Entity := Entity) (Error := Error) table t id db -> view_sound (Entity := Entity) (Error := Error) table t id db'.
Proof. intros Hs Hv. unfold view_sound. by rewrite Hv, (same_select db db' id None Hs). Qed.

Lemma exact_row_same db db' id row : same_type_events db db' -> exact_row db id row -> exact_row db' id row.
Proof. intros Hs [Hv Hp]. split; [|done]. unfold max_seq in *. by rewrite (same_stream_rows db). Qed.

(** All that is said of the views depends on the events of the type and the table. *)
Lemma views_same db0 db db' :
  same_type_events db db' -> view_table table db' = view_table table db ->
  (views_exact db -> views_exact db') /\ (views_kept db0 db -> views_kept db0 db') /\
  (views_complete db0 db -> views_complete db0 db').
Proof.
  intros Hs Hv. unfold views_exact, views_kept, views_complete. rewrite Hv, (same_ids db db' Hs).
  split_and!.
  - intros Hc id Hid. destruct (Hc id Hid) as (row & ? & ?). exists row. eauto using exact_row_same.
  - intros Hc id row Hid Hrow. destruct (Hc id row Hid Hrow); eauto using exact_row_same.
  - intros Hc id Hid. destruct (Hc id Hid) as (row & Hrow & Hor). exists row. split; [done|].
    unfold max_seq in *. rewrite (same_stream_rows db) by done. destruct Hor; eauto using exact_row_same.
Qed.

(** All rows of a stream lie at or below its maximum. *)
Lemma up_to_max db id v :
  (max_seq t id db <= v)%Z ->
  filter (fun r => up_to v r = true) (select_events t id None db) = select_events t id None db.
Proof.
  intros Hv. apply list_filter_all. intros r Hr. rewrite select_events_perm in Hr.
  apply list_elem_of_filter in Hr as [_ Hr]. unfold up_to. apply Z.leb_le.
  pose proof (max_sequence_elem _ _ Hr). unfold max_seq in Hv. lia.
Qed.

(** A row recovery wrote reads as the fold. *)
Lemma exact_reads db id row (l : View) :
  exact_row db id row -> view_from_str (view_payload row) = Ok l -> l = replay Uninitialized (E id).
Proof. intros [_ ->]. rewrite Hreadable. by intros [= <-]. Qed.

(** A current row that reads as the fold is sound. *)
Lemma current_sound db id row :
  log_decodes db -> id ∈ aggregate_ids t db -> view_table table db !! id = Some row ->
  (max_seq t id db <= view_version row)%Z ->
  (forall l : View, view_from_str (view_payload row) = Ok l -> l = replay Uninitialized (E id)) ->
  view_sound (Entity := Entity) (Error := Error) table t id db.
Proof.
  intros (_ & _ & Hd) Hid Hrow Hv Hl. unfold view_sound. rewrite Hrow.
  intros l Hread. exists (E id). split; [|by apply Hl]. rewrite up_to_max by done.
  rewrite Forall_forall in Hd. by apply Hd.
Qed.

(** A complete view is sound. *)
Lemma complete_sound db0 db : log_decodes db -> views_complete db0 db -> views_sound db.
Proof.
  intros Hlog Hc id Hid. destruct (Hc id Hid) as (row & Hrow & [Hex|(_ & Hv & Hl)]).
  - eapply current_sound; [done..| |intros l; by apply (exact_reads db id)]. destruct Hex as [-> _]. lia.
  - by eapply current_sound.
Qed.

Lemma exact_complete db0 db : views_exact db -> views_complete db0 db.
Proof. intros Hex id Hid. destruct (Hex id Hid) as (row & ? & ?). exists row. auto. Qed.

(** A sound row that is not behind is complete. *)
Lemma sound_complete db id row :
  log_decodes db -> id ∈ aggregate_ids t db -> view_sound (Entity := Entity) (Error := Error) table t id db ->
  view_table table db !! id = Some row -> (max_seq t id db <= view_version row)%Z ->
  forall l : View, view_from_str (view_payload row) = Ok l -> l = replay Uninitialized (E id).
Proof.
  intros (_ & _ & Hd) Hid Hs Hrow Hv l Hread. unfold view_sound in Hs. rewrite Hrow in Hs.
  destruct (Hs l Hread) as (pre & Hpre & ->). rewrite up_to_max in Hpre by done.
  rewrite Forall_forall in Hd. specialize (Hd id Hid). unfold decoded in Hd. by simplify_eq.
Qed.

(** *** One startup *)

(** Catching up keeps sound views sound and the others kept at every crash point, and
    completes them. *)
Lemma wp_catch_up_views b db0 db :
  log_decodes db -> views_sound db -> views_kept db0 db ->
  wp b (catch_up (Entity := Entity) (Error := Error) table t) db (fun r db' =>
    db_events db' = db_events db /\ db_snapshots db' = db_snapshots db /\ views_sound db' /\ views_kept db0 db' /\
    (views_exact db -> views_exact db') /\
    match r with Ok _ => views_complete db0 db' | Err _ => b = true end).
Proof.
  intros Hlog Hs Hkept. pose proof Hlog as (Hk & Hp & Hd).
  eapply wp_mono; [apply (wp_catch_up b table t (fun id => replay Uninitialized (E id)))|].
  { intros id [Hid _]. rewrite Forall_forall in Hd. apply restored_sound; [done..|by apply Hd|by apply Hs]. }
  intros r db' ((He & Hsn & _) & Hsome & Hr).
  assert (same_type_events db db') as Hsame by (unfold same_type_events; by rewrite He).
  assert (forall id, exact_row db' id (caught_up (Error := Error) table t id (replay Uninitialized (E id)) db)) as Hnew
    by (intros id; by apply (exact_row_same db)).
  assert (log_decodes db') as Hlog' by (eapply same_log; [exact Hsame|unfold keys_unique; by rewrite He|exact Hlog]).
  split_and!; [done..| | | |].
  - intros id Hid. pose proof Hid as Hid'. rewrite (same_ids db) in Hid by done. destruct (Hsome id) as [Hold|[_ Hrow]].
    + eapply view_sound_same; [done|done|by apply Hs].
    + eapply current_sound; [done|done|exact Hrow| |intros l; by eapply exact_reads].
      rewrite (proj1 (Hnew id)). lia.
  - intros id row Hid Hrow. rewrite (same_ids db) in Hid by done. destruct (Hsome id) as [Hold|[_ Hc]].
    + rewrite Hold in Hrow. destruct (Hkept id row Hid Hrow); eauto using exact_row_same.
    + left. rewrite Hc in Hrow. by injection Hrow as <-.
  - intros Hex id Hid. rewrite (same_ids db) in Hid by done. destruct (Hsome id) as [->|[_ ->]]; [|by eauto].
    destruct (Hex id Hid) as (row & ? & ?). eauto using exact_row_same.
  - destruct r as [[]|]; [|done]. intros id Hid. rewrite (same_ids db) in Hid by done. rewrite (Hr id).
    case_decide as Hb; [by eauto|].
    destruct (view_table table db !! id) as [row|] eqn:Hrow; [|exfalso; apply Hb; split; [done|by rewrite Hrow]].
    exists row. split; [done|].
    assert (max_seq t id db <= view_version row)%Z as Hv.
    { destruct (Z.le_gt_cases (max_seq t id db) (view_version row)); [done|]. exfalso. apply Hb.
      split; [done|]. rewrite Hrow. simpl. apply Z.ltb_lt. lia. }
    destruct (Hkept id row Hid Hrow) as [Hex|H0row]; [left; by apply (exact_row_same db)|right].
    split; [done|]. unfold max_seq in *. rewrite (same_stream_rows db) by done. split; [done|].
    exact (sound_complete db id row Hlog Hid (Hs id Hid) Hrow Hv).
Qed.

Lemma rebuilt_exact db db' :
  db_events db' = db_events db -> rebuilt (Entity := Entity) (Error := Error) table t E db db' -> views_exact db'.
Proof.
  intros He Hr id Hid. unfold aggregate_ids in Hid. rewrite He in Hid. rewrite Hr.
  rewrite decide_True by done. eexists. split; [done|]. split; [|done].
  unfold max_seq, stream_rows. by rewrite He.
Qed.

Lemma snapshots_clear db : snapshots_cleared (clear_snapshots t db).
Proof. intros id. rewrite lookup_cleared. by rewrite decide_True. Qed.

Lemma registry_inv_events es db db' :
  db_events db' = db_events db -> registry_inv es db -> registry_inv es db'.
Proof.
  intros He. unfold registry_inv, keys_unique, select_events, stream_rows. by rewrite He.
Qed.

Lemma log_decodes_events db db' : db_events db' = db_events db -> log_decodes db -> log_decodes db'.
Proof.
  intros He Hl. eapply same_log; [unfold same_type_events; by rewrite He| |exact Hl].
  unfold keys_unique. rewrite He. apply Hl.
Qed.

(** The recovery of one startup, before it records the version: the event log is
    untouched and the registry's claim stays true at every crash point; on success
    the views are complete, and rebuilt if the schema had changed, with stale snapshots
    gone. *)
Lemma wp_recovery b es0 db0 db es :
  COMPACTION_POLICY config = Retain -> log_decodes db -> views_kept db0 db -> registry_inv es db -> recovered es0 es db ->
  (last_version t es0 = Some (SCHEMA_VERSION config) -> last_version t es = Some (SCHEMA_VERSION config)) ->
  wp b (reconciliation ← reconcile config;
        lift_err reconcile_error_of_projection
          (match reconciliation with
           | Changed => rebuild_all (Entity := Entity) (Error := Error) table t
           | Unchanged => catch_up (Entity := Entity) (Error := Error) table t
           end)) db
    (fun r db' => db_events db' = db_events db /\ recovered es0 es db' /\ views_kept db0 db' /\
       match r with
       | Ok _ => views_complete db0 db' /\
                 (last_version t es0 <> Some (SCHEMA_VERSION config) -> snapshots_cleared db' /\ views_exact db')
       | Err _ => b = true
       end).
Proof.
  intros Hpol Hlog Hkept Hreg Hrec Hmono. wp_step. eapply wp_mono; [by apply wp_reconcile|].
  intros r db' [Heq|(-> & -> & e & ->)]; [|naive_solver].
  unfold reconciled in Heq. simpl in Heq. rewrite Hpol in Heq. case_bool_decide as Hv; simplify_eq/=.
  - destruct (Hrec Hv) as [Hc Hs]. wp_step. eapply wp_mono; [by apply (wp_catch_up_views b db0)|].
    intros r db' (He & Hsn & Hsound & Hkept' & Hex & Hr).
    assert (last_version t es0 <> Some (SCHEMA_VERSION config) -> snapshots_cleared db' /\ views_exact db') as Hcl.
    { intros Hne. destruct (Hs Hne) as [Hcl Hx]. split; [|by apply Hex]. intros id. by rewrite Hsn. }
    destruct r as [[]|]; by split_and!.
  - rewrite andb_false_r in Heq. simplify_eq/=. wp_step.
    apply (log_decodes_events _ (clear_snapshots t db)) in Hlog as (Hk & Hp & Hd); [|done].
    eapply wp_mono; [by apply (wp_rebuild_all b table t E)|]. intros r db' (He & Hsn & Hrows & Hr).
    assert (snapshots_cleared db') by (intros id; rewrite Hsn; apply snapshots_clear).
    assert (same_type_events db db') as Hsame by (unfold same_type_events; by rewrite He).
    split_and!; [done|by intros ?| |].
    + intros id row Hid Hrow. rewrite (same_ids db) in Hid by done.
      destruct (Hrows id row Hrow) as [Hold|Hex]; [|left; by apply (exact_row_same db)].
      destruct (Hkept id row Hid Hold); eauto using exact_row_same.
    + destruct r as [[]|]; [|done].
      assert (views_exact db') by (by eapply rebuilt_exact). split; [by apply exact_complete|done].
Qed.

Lemma registered_idem es :
  registered (schema_target config) (registered (schema_target config) es) = registered (schema_target config) es.
Proof.
  unfold registered at 1. rewrite registered_version. simpl. rewrite String.eqb_refl.
  by rewrite bool_decide_eq_true_2.
Qed.

Lemma registered_length es : length (registered (schema_target config) es) <= S (length es).
Proof. unfold registered. case_bool_decide; [lia|]. rewrite length_app. simpl. lia. Qed.

Lemma registered_current es : last_version t (registered (schema_target config) es) = Some (SCHEMA_VERSION config).
Proof. rewrite registered_version. simpl. by rewrite String.eqb_refl. Qed.

Lemma wp_build_projected b es0 db0 db :
  COMPACTION_POLICY config = Retain -> (Z.of_nat (length es0) + 2 < i64_max)%Z ->
  startup_inv es0 db0 db ->
  wp b (build_projected (Entity := Entity) (Error := Error) config table) db (fun r db' =>
    startup_inv es0 db0 db' /\
    match r with
    | Ok _ => (exists es, registry_inv es db' /\ last_version t es = Some (SCHEMA_VERSION config)) /\
              views_complete db0 db' /\
              (last_version t es0 <> Some (SCHEMA_VERSION config) -> snapshots_cleared db' /\ views_exact db')
    | Err _ => b = true
    end).
Proof.
  intros Hpol Hlen [Hlog Hstream Hkept (es & Hreg & Hes & Hrec)].
  assert (Z.of_nat (length es) + 1 < i64_max)%Z as Hl.
  { destruct Hes as [->| ->]; [lia|]. pose proof (registered_length es0). lia. }
  assert (last_version t es0 = Some (SCHEMA_VERSION config) -> last_version t es = Some (SCHEMA_VERSION config))
    as Hmono by (destruct Hes as [->| ->]; [done|]; intros _; apply registered_current).
  assert (forall db', db_events db' = db_events db -> recovered es0 es db' -> views_kept db0 db' ->
    startup_inv es0 db0 db') as Hkeep.
  { intros db' He Hr Hkept'. split; [| |exact Hkept'|].
    - by eapply log_decodes_events.
    - intros id. unfold select_events, stream_rows. rewrite He. apply Hstream.
    - exists es. split_and!; [by eapply registry_inv_events|done|done]. }
  unfold build_projected, record_version. apply wp_assoc, wp_bind.
  eapply wp_mono; [by apply (wp_recovery b es0 db0 db es)|]. intros [[]|e] db' (He & Hrec' & Hkept' & Hr); [|by auto].
  pose proof (registry_inv_events _ db db' He Hreg) as Hreg1.
  destruct (wp_record b (schema_target config) es db' Hreg1 Hversion Hl) as [Hreg' Hrecord].
  eapply wp_mono; [exact Hrecord|]. intros r db'' [[-> ->]|(-> & -> & e & ->)]; [|by auto].
  destruct Hr as [Hc Hs]. set (db'' := registered_rows _ _ _).
  assert (same_type_events db' db'') as Hsame' by apply type_filter_registered.
  assert (same_type_events db db'') as Hsame by (unfold same_type_events; by rewrite Hsame', He).
  assert (log_decodes db'') as Hlog'' by (eapply same_log; [exact Hsame|apply Hreg'|done]).
  assert (db_views db'' = db_views db' /\ db_snapshots db'' = db_snapshots db') as [Hviews Hsnaps]
    by (unfold db'', registered_rows; by case_bool_decide).
  destruct (views_same db0 db' db'' Hsame') as (Hexact & Hkept'' & Hc''); [unfold view_table; by rewrite Hviews|].
  apply Hkept'' in Hkept'. apply Hc'' in Hc.
  assert (last_version t es0 <> Some (SCHEMA_VERSION config) -> snapshots_cleared db'' /\ views_exact db'') as Hs''.
  { intros Hne. destruct (Hs Hne) as [Hcl Hx]. split; [intros id; by rewrite Hsnaps|by apply Hexact]. }
  split; [split; [| |exact Hkept'|]|].
  - done.
  - intros id. by rewrite (same_select _ _ id None Hsame).
  - exists (registered (schema_target config) es). split_and!; [done| |].
    + right. destruct Hes as [->| ->]; [done|apply registered_idem].
    + intros _. split; [by eapply complete_sound|done].
  - split_and!; [|done|done]. eexists. split; [exact Hreg'|apply registered_current].
Qed.

(** C20: startup recovery is crash-safe.  Start from a log that decodes and a registry
    whose claim is true: if it records the current version, every readable row is the
    fold of the events up to its version.  However many startups are interrupted at
    whatever statement, the entity's events are never touched, no row holds anything but
    what it held or the text of the fold of its stream at its last sequence, and a
    registry that records the current version is never ahead of the recovery.  The next
    startup that runs through succeeds and records the version.  If the version had
    changed, every aggregate then has exactly the row of the fold, and no snapshot of the
    old schema is left; if it had not, every aggregate has that row or kept the one it
    had, which was current already. *)
Theorem startup_crash_safe es0 db0 schedules :
  COMPACTION_POLICY config = Retain -> (Z.of_nat (length es0) + 2 < i64_max)%Z ->
  log_decodes db0 -> registry_inv es0 db0 ->
  (last_version t es0 = Some (SCHEMA_VERSION config) -> views_sound db0) ->
  let build := build_projected (Entity := Entity) (Error := Error) config table in
  let db := startups build schedules db0 in
  startup_inv es0 db0 db /\
  exists db', run build db = (Ok (), db') /\ startup_inv es0 db0 db' /\
    (exists es, registry_inv es db' /\ last_version t es = Some (SCHEMA_VERSION config)) /\
    views_complete db0 db' /\
    (last_version t es0 <> Some (SCHEMA_VERSION config) -> snapshots_cleared db' /\ views_exact db').
Proof.
  intros Hpol Hlen Hlog Hreg Hsound build db.
  assert (startup_inv es0 db0 db) as Hinv.
  { unfold db, startups. assert (startup_inv es0 db0 db0) as Hstart.
    { split; [done|done|intros id row _ Hrow; by right|]. exists es0. split_and!; [done|by left|]. intros Hv. split; [by apply Hsound|done]. }
    revert Hstart. generalize db0 at 2 4. induction schedules as [|fs schedules IH]; intros d Hd; [done|].
    simpl. apply IH. pose proof (wp_world _ (mkWorld d fs) _ (wp_build_projected true es0 db0 d Hpol Hlen Hd)) as Hw.
    apply Hw. }
  split; [done|]. pose proof (wp_run _ _ _ (wp_build_projected false es0 db0 db Hpol Hlen Hinv)) as [Hi Hr].
  fold build in Hi, Hr. destruct (run build db) as [[[]|e] db']; [|done]. by exists db'.
Qed.
End recovery.
