(* ===== verification/Store.v ===== *)
(** * The store facade

    Models [Store] of src/crates/event-sorcery/src/lib.rs with its standalone
    counterparts ([Store::send], [Store::load], [load_entity], [send_command]): how an
    application changes and reads one entity.  Loading, snapshots and compaction of
    the other files meet here.

    [cqrs-es] is an interface, [CqrsEs]: what it loads through the repository it was
    given, and the snapshot it writes beside a batch.  [CqrsEsLaws] states the
    behaviour the crate documents and relies on.  [store_inv] says which log of events
    a database holds for an aggregate, wherever its snapshot stands and however much
    of its stream was compacted away; StoreProps.v proves the facade against it. *)

From S2P Require Import Prelude Json Sqlite EventTable Lifecycle Schema Job Engine EngineProps.
From S2P Require Import ViewRepository Repository SqliteEs Reactor Projection Startup.

(** [VACUUM] and [PRAGMA incremental_vacuum] give file space back; what the tables
    hold is untouched. *)
Definition vacuum : M SqlxError () := execute (fun db => db).
Definition incremental_vacuum (pages : Z) : M SqlxError () := execute (fun db => db).

(** ** The interfaces *)

(** [PersistedEventRepository] at one aggregate type: what [cqrs-es] reads through. *)
Record EventRepo : Type := mkEventRepo {
  repo_get_events : string -> M PersistenceError (list SerializedEvent);
  repo_get_last_events : string -> Z -> M PersistenceError (list SerializedEvent);
  repo_get_snapshot : string -> M PersistenceError (option SerializedSnapshot);
}.

(** The context a command is handled in: the aggregate, the sequence it stands at and
    the version of the snapshot it started from. *)
Record AggregateContext (Agg : Type) : Type := mkAggregateContext {
  ctx_aggregate : Agg;
  ctx_sequence : Z;
  ctx_snapshot : option Z;
}.
Arguments mkAggregateContext {Agg}.
Arguments ctx_aggregate {Agg}.
Arguments ctx_sequence {Agg}.
Arguments ctx_snapshot {Agg}.

(** A snapshot-backed [PersistedEventStore]. *)
Class CqrsEs (Entity Event Error : Type) := {
  load_aggregate : EventRepo -> string ->
    M (AggregateError (LifecycleError Entity Event Error))
      (AggregateContext (Lifecycle Entity Event Error));
  (** The aggregate and the version of the snapshot that an event store of this snapshot
      size stores with a batch, if any. *)
  snapshot_with : Z -> AggregateContext (Lifecycle Entity Event Error) -> list Event -> option (Json * Z);
}.

(** A batch no snapshot boundary can divide (docs/cqrs.md: "keep [SNAPSHOT_SIZE = 1] or
    emit single-event commands for snapshotted aggregates"). *)
Definition undivided {Event} (snapshot_size : Z) (events : list Event) : Prop :=
  snapshot_size = 1%Z \/ length events <= 1.

(** An operation that reads [x] and can only fail with the driver. *)
Definition reads {E A} (b : bool) (m : M E A) (db : Db) (x : A) : Prop :=
  wp b m db (fun r db' => db' = db /\ match r with Ok y => y = x | Err _ => b = true end).

(** An operation that always fails, reading only. *)
Definition refuses {E A} (b : bool) (m : M E A) (db : Db) : Prop :=
  wp b m db (fun r db' => db' = db /\ is_ok r = false).

Section store.
Context `{SerdeJson, Chrono, Ulid}.
Context {Entity Event Command Error : Type} `{EventSourced Entity Event Command Error}.
Context `{Serde Entity, Serde Event, Serde Error}.

Abbreviation Agg := (Lifecycle Entity Event Error).
Abbreviation SendError := (AggregateError (LifecycleError Entity Event Error)).

(** ** What cqrs-es promises *)

(** Where a load starts: at the decoded snapshot, or from nothing when there is none
    or it cannot be decoded. *)
Definition starts (snapshot : option SerializedSnapshot) (state : Agg) (sequence : Z) : Prop :=
  match snapshot with
  | None => state = Uninitialized /\ sequence = 0%Z
  | Some s =>
      match de (ss_aggregate s) with
      | Some decoded => state = decoded /\ sequence = ss_current_sequence s
      | None => state = Uninitialized /\ sequence = 0%Z
      end
  end.

Class CqrsEsLaws `{CqrsEs Entity Event Error} := {
  (** A load applies, on top of where it starts, the events after it in order. *)
  load_aggregate_replays : forall b repo id db snapshot state sequence events decoded,
    reads b (repo_get_snapshot repo id) db snapshot ->
    starts snapshot state sequence ->
    reads b (repo_get_last_events repo id sequence) db events ->
    (sequence = 0%Z -> reads b (repo_get_events repo id) db events) ->
    mapM (fun e => de (ev_payload e)) events = Some decoded ->
    wp b (load_aggregate repo id) db (fun r db' => db' = db /\
      match r with
      | Ok context =>
          ctx_aggregate context = replay state decoded /\
          ctx_sequence context = default sequence (ev_sequence <$> last events) /\
          from_option (fun v => Some v = ss_current_snapshot <$> snapshot) True (ctx_snapshot context)
      | Err _ => b = true
      end);
  (** An error of the repository is not papered over. *)
  load_aggregate_surfaces : forall b repo id db,
    refuses b (repo_get_snapshot repo id) db -> refuses b (load_aggregate repo id) db;
  (** A snapshot is of the aggregate after the events of the batch up to its boundary,
      which is the whole batch if none divides it, under the next version. *)
  snapshot_with_folds : forall size context events aggregate version,
    snapshot_with size context events = Some (aggregate, version) ->
    version = (default 0 (ctx_snapshot context) + 1)%Z /\
    exists n, n <= length events /\
      aggregate = canon (ser (replay (ctx_aggregate context) (take n events))) /\
      (undivided size events -> n = length events);
}.

(** ** The entity's streams *)

Context (config : EntityConfig) (event_type event_version : Event -> string).
Context (max_delay : Z) (clock : nat -> Z).
Context `{CqrsEs Entity Event Error}.

(** The serialized form [cqrs-es] gives an event. *)
Definition wrap (id : string) (event : Event) (sequence : Z) : SerializedEvent :=
  mkSerializedEvent (AGGREGATE_TYPE config) id sequence (event_type event) (event_version event)
    (canon (ser event)) (JObject []).

(** [A::deserialize(&snapshot.aggregate)]. *)
Definition decodes (aggregate : Json) : bool := bool_decide (is_Some (de aggregate : option Agg)).

(** [SqliteEventRepository::new(pool, Entity::COMPACTION_POLICY)]. *)
Definition sqlite_event_repo : EventRepo := {|
  repo_get_events := get_events (AGGREGATE_TYPE config);
  repo_get_last_events := get_last_events (AGGREGATE_TYPE config);
  repo_get_snapshot := get_snapshot (COMPACTION_POLICY config) decodes (AGGREGATE_TYPE config);
|}.

(** ** Operations *)

(** [From<LifecycleError> for SendError]. *)
Definition send_error_of_lifecycle (error : LifecycleError Entity Event Error) : SendError :=
  UserError error.

Definition load_entity (id : string) : M SendError (option Entity) :=
  context ← load_aggregate sqlite_event_repo id;
  lift (map_err send_error_of_lifecycle (into_result (ctx_aggregate context))).

Definition load_from_pool (id : string) : M SendError (option Entity) := load_entity id.

(** [Store::load] and [Store::load_from_pool] read through a repository of the same
    pool and policy. *)
Definition store_load (id : string) : M SendError (option Entity) := load_entity id.

(** The snapshot stored beside the events a command decides on. *)
Definition update_for (id : string) (context : AggregateContext Agg) (command : Command) :
    option SnapshotOf :=
  match handle (ctx_aggregate context) command (Some []) with
  | (Ok events, _) => '(aggregate, version) ← snapshot_with (SNAPSHOT_SIZE config) context events; Some (id, aggregate, version)
  | (Err _, _) => None
  end.

(** The command run from a loaded context, in a pending-job scope. *)
Definition execute_in (id : string) (context : AggregateContext Agg) (command : Command) :
    option (M SendError ()) :=
  execute_from (wrap id) max_delay clock (AGGREGATE_TYPE config) (ctx_aggregate context)
    (ctx_sequence context) command (update_for id context command).

(** [None] is the panic of a delay outside the calendar. *)
Definition send_command (id : string) (command : Command) : M SendError (option ()) :=
  context ← load_aggregate sqlite_event_repo id;
  match execute_in id context command with
  | None => mret None
  | Some m => _ ← m; mret (Some ())
  end.

(** A query of the framework is told of the committed events and cannot fail. *)
Definition Query : Type := string -> list Event -> World -> World.

Fixpoint run_queries (queries : list Query) (id : string) (events : list Event) (w : World) : World :=
  match queries with
  | [] => w
  | query :: queries => run_queries queries id events (query id events w)
  end.

(** The queries see the events the command committed, if any. *)
Definition notify (queries : list Query) (id : string) (state : Agg) (command : Command) :
    M SendError (option ()) :=
  fun w =>
    (Ok (Some ()),
     match handle state command (Some []) with
     | (Ok (e :: events), _) => run_queries queries id (e :: events) w
     | _ => w
     end).

(** [Store::send]: [send_command] followed by the queries of the store. *)
Definition store_send (queries : list Query) (id : string) (command : Command) :
    M SendError (option ()) :=
  context ← load_aggregate sqlite_event_repo id;
  match execute_in id context command with
  | None => mret None
  | Some m => _ ← m; notify queries id (ctx_aggregate context) command
  end.

(** The bridge of [StoreBuilder::build] to the entity's own projection, whose reaction
    reports nothing. *)
Section projected.
Context {Id : Type} (parse : string -> option Id) (id_to_string : Id -> string) (table : string).

Definition projection_reactor : Reactor Id Event World Empty_set := {|
  reactor_react id event w := (Ok (), (react (Entity := Entity) (Error := Error) table (id_to_string id) event w).2) |}.

Definition projection_query : Query :=
  fun aggregate_id events w => (bridge_dispatch (H := projection_reactor) parse aggregate_id events w).2.

(** [StoreBuilder]: the queries registered so far, in order, the projection of a
    [Table] entity last. *)
Definition with_backend : list Query := [].
Definition with_reactor (queries : list Query) (reactor : Query) : list Query := queries ++ [reactor].
Definition with_projection (queries : list Query) : list Query := with_reactor queries projection_query.
End projected.

(** *** Replay streams of the repository *)

(** The channel of 1000 events only paces the feed; [capacity] is what the consumer
    takes of it. *)
Definition stream_events_impl `{EventScan} (aggregate_id : option string) :
    nat -> option (nat * SqlxError) -> Db -> list (result PersistenceError SerializedEvent) :=
  SqliteEs.stream_events (AGGREGATE_TYPE config) aggregate_id.

Definition repo_stream_events `{EventScan} (aggregate_id : string) := stream_events_impl (Some aggregate_id).
Definition repo_stream_all_events `{EventScan} := stream_events_impl None.

(** ** The log a database holds *)

(** Values whose document survives the text format. *)
Definition event_ok (e : Event) : Prop :=
  portable (canon (ser e)) = true /\ is_value (canon (ser e)) = true /\ de (canon (ser e)) = Some e.
Definition state_ok (s : Agg) : Prop :=
  portable (canon (ser s)) = true /\ is_value (canon (ser s)) = true /\ de (canon (ser s)) = Some s.

(** The state after the first [n] events. *)
Definition state_after (log : list Event) (n : nat) : Agg := replay Uninitialized (take n log).

(** A log whose events can all be stored, and which folds to a state that has not
    failed. *)
Record log_ok (log : list Event) : Prop := {
  lo_events : Forall event_ok log;
  lo_live : failed (replay Uninitialized log) = false;
}.

(** A snapshot of the state after some event at or above [floor]. *)
Definition covers (log : list Event) (floor : nat) (row : StoredSnapshotRow) : Prop :=
  exists n, floor <= n <= length log /\ snap_last_sequence row = Z.of_nat n /\
    state_ok (state_after log n) /\ snap_payload row = to_string (canon (ser (state_after log n))) /\
    (0 <= snap_snapshot_version row)%Z.

(** A snapshot this version of the entity cannot decode, over a retained history. *)
Definition outdated (floor : nat) (row : StoredSnapshotRow) : Prop :=
  COMPACTION_POLICY config = Retain /\ floor = 0 /\
  (0 <= snap_last_sequence row)%Z /\ (0 <= snap_snapshot_version row)%Z /\
  exists j, value_from_str (snap_payload row) = Ok j /\ decodes j = false.

(** The stream holds the events of [log] after the first [floor], which a snapshot
    covers. *)
Record store_inv (id : string) (log : list Event) (floor : nat) (db : Db) : Prop := {
  si_wf : well_formed db;
  si_log : log_ok log;
  si_rows : stream_rows (AGGREGATE_TYPE config) id db =
              event_row <$> number (wrap id) (Z.of_nat floor) (drop floor log);
  si_floor : floor <= length log;
  si_snapshot : match db_snapshots db !! (AGGREGATE_TYPE config, id) with
                | None => floor = 0
                | Some row => covers log floor row \/ outdated floor row
                end;
}.
End store.
