(* ===== verification/StoreProps.v ===== *)
(** * The store facade refines a log of events

    Proves the operations of Store.v against the log a database holds.  A load answers
    its snapshot's state with the events after the snapshot's sequence folded on top
    ([store_load_exact]); where [store_inv] holds, that is the fold of the whole log,
    wherever the snapshot stands and whatever was compacted away.  A command is decided
    against that fold, and what it decides becomes the end of the log, in one commit with
    its jobs, or nothing changes.  A batch that a snapshot boundary divides is the
    exception ([undivided]): the framework may snapshot it short, and then [store_inv] is
    lost. *)

From S2P Require Import Prelude Json Sqlite EventTable Lifecycle Schema Job Engine EngineProps.
From S2P Require Import ViewRepository Repository SchemaRecovery Projection Startup Store.

(** ** Numbered events *)

Section numbered.
Context {A : Type} (w : A -> Z -> SerializedEvent).
Hypothesis w_sequence : forall x k, ev_sequence (w x k) = k.

Lemma elem_of_number n l e :
  e ∈ number w n l -> exists x k, x ∈ l /\ e = w x k /\ (n < k <= n + Z.of_nat (length l))%Z.
Proof using w_sequence.
  revert n. induction l as [|x l IH]; intros n; cbn [number length]; [by intros ?%elem_of_nil|].
  rewrite elem_of_cons. intros [->|He].
  - exists x, (n + 1)%Z. split_and!; [by left|done|lia..].
  - apply IH in He as (y & k & Hy & -> & Hk). exists y, k. split_and!; [by right|done|lia..].
Qed.

Lemma number_lookup_key n l k :
  (n < k <= n + Z.of_nat (length l))%Z -> exists x, w x k ∈ number w n l.
Proof using w_sequence.
  revert n. induction l as [|x l IH]; intros n; cbn [number length]; [lia|]. intros Hk.
  destruct (decide (k = n + 1)%Z) as [->|Hne]; [exists x; by left|].
  destruct (IH (n + 1)%Z) as [y Hy]; [lia|]. exists y. by right.
Qed.

Lemma number_sorted `{SerdeJson} n l : StronglySorted row_lt (event_row <$> number w n l).
Proof using w_sequence.
  revert n. induction l as [|x l IH]; intros n; [constructor|]. cbn [number fmap list_fmap].
  constructor; [apply IH|]. apply Forall_forall. intros r (e & -> & He)%list_elem_of_fmap.
  apply elem_of_number in He as (y & k & _ & -> & Hk). unfold row_lt. cbn. rewrite !w_sequence. lia.
Qed.

(** The rows after the first [n] events of a log. *)
Lemma number_after `{SerdeJson} floor n l :
  floor <= n <= length l ->
  filter (fun r => after (Some (Z.of_nat n)) r = true)
    (event_row <$> number w (Z.of_nat floor) (drop floor l)) =
  event_row <$> number w (Z.of_nat n) (drop n l).
Proof using w_sequence.
  intros Hn. assert (drop floor l = take (n - floor) (drop floor l) ++ drop n l) as ->.
  { rewrite <-(take_drop (n - floor) (drop floor l)) at 1. rewrite drop_drop. by do 2 f_equal; lia. }
  rewrite number_app, fmap_app, filter_app.
  assert (Z.of_nat floor + Z.of_nat (length (take (n - floor) (drop floor l))) = Z.of_nat n)%Z as ->
    by (rewrite length_take, length_drop; lia).
  rewrite list_filter_none, list_filter_all; [done|..];
    intros r (e & -> & (x & k & _ & -> & Hk)%elem_of_number)%list_elem_of_fmap; cbn;
    rewrite w_sequence, Z.ltb_lt; [lia|]. rewrite length_take, length_drop in Hk. lia.
Qed.
End numbered.

Section store_props.
Context `{SerdeJsonLaws, Chrono, Ulid}.
Context {Entity Event Command Error : Type} `{EventSourced Entity Event Command Error}.
Context `{Serde Entity, Serde Event, Serde Error}.
Context (config : EntityConfig) (event_type event_version : Event -> string).
Context (max_delay : Z) (clock : nat -> Z).

Abbreviation Agg := (Lifecycle Entity Event Error).
Abbreviation T := (AGGREGATE_TYPE config).
Abbreviation wrap_ := (wrap config event_type event_version).
Abbreviation inv := (store_inv config event_type event_version).

(** ** Reading the log back *)

Lemma wrap_sequence id e k : ev_sequence (wrap_ id e k) = k.
Proof. done. Qed.

Lemma inv_row_bound id log floor db n :
  inv id log floor db -> n < length log -> floor <= n -> (Z.of_nat n + 1 <= i64_max)%Z.
Proof.
  intros Hinv Hn Hf. destruct (number_lookup_key (wrap_ id) (wrap_sequence id) (Z.of_nat floor) (drop floor log)
    (Z.of_nat n + 1)) as [e He]; [rewrite length_drop; lia|].
  assert (event_row (wrap_ id e (Z.of_nat n + 1)) ∈ stream_rows T id db) as Hin.
  { rewrite (si_rows _ _ _ _ _ _ _ Hinv). by apply list_elem_of_fmap_2. }
  apply list_elem_of_filter in Hin as [_ Hin]. pose proof (wf_sequences _ (si_wf _ _ _ _ _ _ _ Hinv)) as Hs.
  rewrite Forall_forall in Hs. apply Hs in Hin. cbn in Hin. range.
Qed.

(** The length of the log fits the column, through its last row or its snapshot. *)
Lemma inv_length id log floor db :
  inv id log floor db -> (Z.of_nat (length log) <= i64_max)%Z.
Proof.
  intros Hinv. pose proof (si_floor _ _ _ _ _ _ _ Hinv) as Hf.
  destruct (decide (floor < length log)) as [Hlt|Hge].
  { pose proof (inv_row_bound id log floor db (length log - 1) Hinv). lia. }
  pose proof (si_snapshot _ _ _ _ _ _ _ Hinv) as Hs.
  destruct (db_snapshots db !! _) as [row|] eqn:Hrow; [|unfold i64_max; lia].
  destruct Hs as [(n & Hn & Hseq & _)|(_ & -> & _)]; [|cbn in Hge; unfold i64_max; lia].
  pose proof (wf_snapshots _ (si_wf _ _ _ _ _ _ _ Hinv)) as Hws.
  apply Hws in Hrow as [Hr _]. rewrite Hseq in Hr. assert (n = length log) as -> by lia. range.
Qed.

Lemma event_ok_readable id e k : event_ok e -> (0 <= k)%Z -> readable (wrap_ id e k).
Proof. intros (Hp & Hv & _) Hk. split_and!; [done..| |]; by vm_compute. Qed.

Lemma decode_number id n l :
  Forall event_ok l -> mapM (fun e => de (ev_payload e)) (number (wrap_ id) n l) = Some l.
Proof.
  intros Hok. revert n. induction Hok as [|e l (_ & _ & He) _ IH]; intros n; [done|].
  cbn [number mapM]. cbn [wrap ev_payload]. rewrite He. cbn. by rewrite IH.
Qed.

Lemma wp_load_events_on b stream db bound :
  in_i64 (default 0%Z bound) = true ->
  wp b (load_events stream bound) db (fun r db' => db' = db /\
    (r = serialized_events (select_stream stream bound db) \/ b = true /\ exists e, r = Err (EngSql e))).
Proof.
  intros Hb. unfold load_events, load_events_on. repeat wp_step; [intros ->; simpl; naive_solver|]. cbn [map_err].
  repeat wp_step. assert (checkpoint bound = Ok bound) as ->.
  { destruct bound as [z|]; [|done]. unfold checkpoint, i64_try_from. simpl in Hb. by rewrite Hb. }
  repeat wp_step; [intros ->; simpl; naive_solver|]. cbn [map_err]. wp_step. by split; [|left].
Qed.

(** The stream holds the events of [log] after the first [floor], whatever snapshot
    stands beside them. *)
Record stream_held (id : string) (log : list Event) (floor : nat) (db : Db) : Prop := {
  sh_wf : well_formed db;
  sh_events : Forall event_ok (drop floor log);
  sh_rows : stream_rows T id db = event_row <$> number (wrap_ id) (Z.of_nat floor) (drop floor log);
  sh_floor : floor <= length log;
  sh_length : (Z.of_nat (length log) <= i64_max)%Z;
}.

Lemma inv_held id log floor db : inv id log floor db -> stream_held id log floor db.
Proof.
  intros Hinv. split; [apply Hinv| |apply Hinv|apply Hinv|by eapply inv_length]. apply Forall_drop. apply (si_log _ _ _ _ _ _ _ Hinv).
Qed.

Lemma held_select id log floor db n :
  stream_held id log floor db -> floor <= n <= length log ->
  select_events T id (Some (Z.of_nat n)) db = event_row <$> number (wrap_ id) (Z.of_nat n) (drop n log).
Proof.
  intros [Hwf _ Hrows _ _] Hn. apply select_events_char; [apply Hwf|by apply number_sorted|].
  unfold visible. rewrite Hrows. by rewrite number_after.
Qed.

Lemma held_select_all id log floor db :
  stream_held id log floor db ->
  select_events T id None db = event_row <$> number (wrap_ id) (Z.of_nat floor) (drop floor log).
Proof.
  intros [Hwf _ Hrows _ _]. apply select_events_char; [apply Hwf|by apply number_sorted|].
  unfold visible. rewrite Hrows. by rewrite list_filter_all.
Qed.

Lemma held_ok id log floor db n :
  stream_held id log floor db -> floor <= n -> Forall event_ok (drop n log).
Proof. intros [_ Hok _ _ _] Hn. apply (Forall_drop _ (n - floor)) in Hok. rewrite drop_drop in Hok. by replace n with (floor + (n - floor)) by lia. Qed.

Lemma held_serialized id log floor db n :
  stream_held id log floor db -> floor <= n <= length log ->
  serialized_events (event_row <$> number (wrap_ id) (Z.of_nat n) (drop n log)) =
    Ok (number (wrap_ id) (Z.of_nat n) (drop n log)).
Proof.
  intros Hh Hn. pose proof (sh_length _ _ _ _ Hh) as Hlen.
  pose proof (held_ok _ _ _ _ n Hh ltac:(lia)) as Hok. rewrite Forall_forall in Hok.
  apply serialized_events_rows; apply Forall_forall; intros e He;
    apply (elem_of_number _ (wrap_sequence id)) in He as (x & k & Hx & -> & Hk); rewrite length_drop in Hk.
  - apply event_ok_readable; [by apply Hok|lia].
  - cbn. range.
Qed.

Lemma reads_last_events b id log floor db n :
  stream_held id log floor db -> floor <= n <= length log ->
  reads b (get_last_events T id (Z.of_nat n)) db (number (wrap_ id) (Z.of_nat n) (drop n log)).
Proof.
  intros Hh Hn. pose proof (sh_length _ _ _ _ Hh). unfold reads, get_last_events. wp_step.
  eapply wp_mono; [apply wp_load_events_on; cbn; range|]. intros r db' [-> [->|[-> [e ->]]]]; [|done].
  split; [done|]. unfold select_stream. cbn [stream_type stream_id].
  rewrite (held_select _ _ _ _ _ Hh Hn), (held_serialized _ _ _ _ _ Hh Hn). done.
Qed.

Lemma reads_events b id log db :
  stream_held id log 0 db -> reads b (get_events T id) db (number (wrap_ id) 0 log).
Proof.
  intros Hh. unfold reads, get_events. wp_step.
  eapply wp_mono; [apply wp_load_events_on; cbn; done|]. intros r db' [-> [->|[-> [e ->]]]]; [|done].
  split; [done|]. unfold select_stream. cbn [stream_type stream_id].
  rewrite (held_select_all _ _ _ _ Hh). rewrite (held_serialized _ _ _ _ _ Hh) by lia. done.
Qed.

(** ** Loading *)

Context `{!CqrsEs Entity Event Error} `{!CqrsEsLaws}.

Abbreviation st := (state_after (Entity := Entity) (Command := Command) (Error := Error)).
Abbreviation cov := (covers (Entity := Entity) (Command := Command) (Error := Error)).
Abbreviation dec_ := (decodes (Entity := Entity) (Event := Event) (Error := Error)).
Abbreviation repo := (sqlite_event_repo (Entity := Entity) (Event := Event) (Error := Error) config).

(** Where a load of the stream starts: at the state its snapshot holds and the sequence
    it names, or before everything when there is none, or when that of a retained stream
    cannot be decoded. *)
Definition rehydrates_from (snapshot : option StoredSnapshotRow) (log : list Event) (floor : nat)
    (state : Agg) (n : nat) : Prop :=
  floor <= n <= length log /\
  match snapshot with
  | None => n = 0 /\ state = Uninitialized
  | Some row => (0 <= snap_snapshot_version row)%Z /\ exists j, value_from_str (snap_payload row) = Ok j /\
      match de j with
      | Some decoded => state = decoded /\ snap_last_sequence row = Z.of_nat n
      | None => COMPACTION_POLICY config = Retain /\ n = 0 /\ state = Uninitialized /\
          (0 <= snap_last_sequence row)%Z
      end
  end.

(** That of a log is the state after some of its events. *)
Lemma inv_rehydrates id log floor db :
  inv id log floor db -> exists n, rehydrates_from (db_snapshots db !! (T, id)) log floor (st log n) n.
Proof.
  intros Hinv. pose proof (si_snapshot _ _ _ _ _ _ _ Hinv) as Hs. pose proof (si_floor _ _ _ _ _ _ _ Hinv) as Hf.
  unfold rehydrates_from. destruct (db_snapshots db !! (T, id)) as [row|]; [|exists 0; split; [lia|done]].
  destruct Hs as [(n & Hn & Hseq & (Hport & Hval & Hde) & Hp & Hv)|(Hret & -> & Hseq & Hv & j & Hj & Hde)].
  - exists n. split; [lia|]. split; [done|]. exists (canon (ser (st log n))).
    rewrite Hp, value_from_str_to_string by done. split; [done|]. by rewrite Hde.
  - exists 0. split; [lia|]. split; [done|]. exists j. split; [done|]. apply bool_decide_eq_false in Hde.
    destruct (de j) as [x|] eqn:Hx; [exfalso; apply Hde; by eexists|done].
Qed.

(** A load reads just that. *)
Lemma reads_rehydrated id log floor db state n :
  well_formed db -> rehydrates_from (db_snapshots db !! (T, id)) log floor state n ->
  exists snapshot, starts snapshot state (Z.of_nat n) /\
    from_option (fun s => (0 <= ss_current_snapshot s)%Z) True snapshot /\
    ss_current_snapshot <$> snapshot = snap_snapshot_version <$> (db_snapshots db !! (T, id)) /\
    forall b, reads b (repo_get_snapshot repo id) db snapshot.
Proof.
  intros Hwf [Hn Hs]. cbn [repo_get_snapshot sqlite_event_repo].
  assert (forall b snapshot,
    match db_snapshots db !! (T, id) with
    | None => Ok None
    | Some row => Some <$> serialized_snapshot id row
    end = Ok snapshot ->
    from_option (fun s => COMPACTION_POLICY config = CompactAfterSnapshot -> dec_ (ss_aggregate s) = true) True snapshot ->
    reads b (get_snapshot (COMPACTION_POLICY config) dec_ T id) db snapshot) as Hreads.
  { intros b snapshot Hr Hd. unfold reads, get_snapshot, load_snapshot, load_snapshot_on.
    repeat wp_step; [by intros ->|]. cbn [map_err]. repeat wp_step; [by intros ->|]. cbn [map_err].
    repeat wp_step. cbn [stream_type stream_id]. rewrite Hr. cbn [map_err]. destruct snapshot as [s|]; [|by wp_step].
    destruct (COMPACTION_POLICY config); [by wp_step|]. cbn in Hd. rewrite Hd by done. by wp_step. }
  destruct (db_snapshots db !! (T, id)) as [row|] eqn:Hrow.
  2:{ destruct Hs as [-> ->]. exists None. do 3 (split; [done|]). intros b. by apply Hreads. }
  destruct Hs as (Hv & j & Hj & Hde). pose proof (wf_snapshots _ Hwf _ _ Hrow) as [Hr1 Hr2].
  exists (Some (mkSerializedSnapshot id j (snap_last_sequence row) (snap_snapshot_version row))).
  assert (0 <= snap_last_sequence row)%Z as Hseq by (destruct (de j) as [d|]; [destruct Hde as [_ ->]; lia|apply Hde]).
  split; [|split; [exact Hv|split; [done|]]].
  - unfold starts. cbn [ss_aggregate ss_current_sequence].
    destruct (de j) as [d|]; [by destruct Hde as [-> ->]|]. by destruct Hde as (_ & -> & -> & _).
  - intros b. apply Hreads.
    + unfold serialized_snapshot. rewrite Hj. cbn. unfold usize_try_from.
      replace (in_usize (snap_last_sequence row)) with true by (symmetry; range). cbn.
      by replace (in_usize (snap_snapshot_version row)) with true by (symmetry; range).
    + intros Hpol. apply bool_decide_eq_true. cbn [ss_aggregate].
      destruct (de j) as [d|]; [by eexists|]. destruct Hde as [Hret _]. by rewrite Hret in Hpol.
Qed.

Lemma reads_snapshot id log floor db :
  inv id log floor db ->
  exists n snapshot, floor <= n <= length log /\
    starts snapshot (st log n) (Z.of_nat n) /\
    from_option (fun s => (0 <= ss_current_snapshot s)%Z) True snapshot /\
    ss_current_snapshot <$> snapshot = snap_snapshot_version <$> (db_snapshots db !! (T, id)) /\
    forall b, reads b (repo_get_snapshot repo id) db snapshot.
Proof.
  intros Hinv. destruct (inv_rehydrates _ _ _ _ Hinv) as [n Hr]. exists n.
  destruct (reads_rehydrated _ _ _ _ _ _ (si_wf _ _ _ _ _ _ _ Hinv) Hr) as [snapshot Hs]. exists snapshot.
  split; [apply Hr|exact Hs].
Qed.

(** A context that stands at the [n]-th event of the log. *)
Definition stands_at (log : list Event) (n : nat) (context : AggregateContext Agg) : Prop :=
  ctx_aggregate context = st log n /\ ctx_sequence context = Z.of_nat n /\
  (0 <= default 0 (ctx_snapshot context))%Z.

Lemma replay_state_after (log : list Event) n :
  replay (st log n) (drop n log) = replay (Uninitialized : Agg) log.
Proof. unfold state_after. by rewrite <-replay_app, take_drop. Qed.

Lemma state_after_all (log : list Event) n : length log <= n -> st log n = replay (Uninitialized : Agg) log.
Proof. intros Hn. unfold state_after. by rewrite take_ge. Qed.

Lemma wp_load_rehydrated b id log floor state n db :
  stream_held id log floor db -> rehydrates_from (db_snapshots db !! (T, id)) log floor state n ->
  wp b (load_aggregate repo id) db (fun r db' => db' = db /\
    match r with
    | Ok context => ctx_aggregate context = replay state (drop n log) /\
        ctx_sequence context = Z.of_nat (length log) /\
        (0 <= default 0 (ctx_snapshot context) <=
           default 0 (snap_snapshot_version <$> (db_snapshots db !! (T, id))))%Z
    | Err _ => b = true
    end).
Proof.
  intros Hh Hfrom. pose proof Hfrom as [Hn _].
  destruct (reads_rehydrated _ _ _ _ _ _ (sh_wf _ _ _ _ Hh) Hfrom) as (snapshot & Hst & Hv & Hver & Hr).
  eapply wp_mono.
  - eapply (load_aggregate_replays b repo id db snapshot _ _ (number (wrap_ id) (Z.of_nat n) (drop n log)) (drop n log));
      [apply Hr|exact Hst|by eapply reads_last_events| |].
    + intros Hz. assert (n = 0) as -> by lia. rewrite drop_0. apply reads_events.
      by replace 0 with floor by lia.
    + apply decode_number. eapply held_ok; [exact Hh|lia].
  - intros [context|e] db'; [|done]. cbn beta iota. intros (-> & Ha & Hs & Hsn). split; [done|].
    assert (0 <= default 0 (snap_snapshot_version <$> (db_snapshots db !! (T, id))))%Z as Hrow.
    { rewrite <-Hver. by destruct snapshot. }
    split_and!; [exact Ha|by rewrite Hs, last_number by done; rewrite length_drop; lia|..].
    all: destruct (ctx_snapshot context) as [v|]; [|cbn; lia]; cbn in Hsn; rewrite <-Hver in *;
      (destruct snapshot as [s|]; [|done]); injection Hsn as ->; cbn in *; lia.
Qed.

Lemma wp_load_aggregate b id log floor db :
  inv id log floor db ->
  wp b (load_aggregate repo id) db (fun r db' => db' = db /\
    match r with
    | Ok context => stands_at log (length log) context /\
        (default 0 (ctx_snapshot context) <= default 0 (snap_snapshot_version <$> (db_snapshots db !! (T, id))))%Z
    | Err _ => b = true
    end).
Proof.
  intros Hinv. destruct (inv_rehydrates _ _ _ _ Hinv) as [n Hfrom].
  eapply wp_mono; [eapply wp_load_rehydrated; [by apply inv_held|exact Hfrom]|].
  intros [context|e] db'; [|done]. intros (-> & Ha & Hs & Hlo & Hhi). split; [done|]. split; [|done].
  split_and!; [|done|done]. by rewrite Ha, replay_state_after, state_after_all.
Qed.

(** ** Extending the log *)

Definition storable (state : Agg) (events : list Event) : Prop :=
  Forall event_ok events /\ state_ok (replay state events).

(** Numbered from anywhere but the end of the log, a batch meets a stored row. *)
Lemma append_at_end id log floor db n events :
  inv id log floor db -> floor <= n <= length log -> events <> [] ->
  insertable db (number (wrap_ id) (Z.of_nat n) events) -> n = length log.
Proof.
  intros Hinv Hn Hne (_ & _ & Hfree). destruct (decide (n = length log)) as [|Hlt]; [done|]. exfalso.
  destruct events as [|e events]; [done|]. cbn [number] in Hfree. apply Forall_cons in Hfree as [Hfree _].
  destruct (number_lookup_key (wrap_ id) (wrap_sequence id) (Z.of_nat floor) (drop floor log)
    (Z.of_nat n + 1)) as [x Hx]; [rewrite length_drop; lia|].
  assert (event_row (wrap_ id x (Z.of_nat n + 1)) ∈ stream_rows T id db) as Hin.
  { rewrite (si_rows _ _ _ _ _ _ _ Hinv). by apply list_elem_of_fmap_2. }
  apply list_elem_of_filter in Hin as [_ Hin]. apply Hfree.
  change (event_key (wrap_ id e (Z.of_nat n + 1))) with (row_key (event_row (wrap_ id x (Z.of_nat n + 1)))).
  by apply list_elem_of_fmap_2.
Qed.

Lemma cov_app log floor events row : cov log floor row -> cov (log ++ events) floor row.
Proof.
  intros (n & Hn & Hseq & Hok & Hp & Hv). exists n. unfold state_after in *. rewrite length_app.
  rewrite take_app_le by lia. split; [lia|]. by split_and?.
Qed.

Lemma last_numbered id n events e :
  last (number (wrap_ id) n events) = Some e -> ev_sequence e = (n + Z.of_nat (length events))%Z.
Proof.
  intros Hl. pose proof (last_number (wrap_ id) n events (wrap_sequence id)) as Hs. by rewrite Hl in Hs.
Qed.

(** The update the framework writes beside [events], decided on after the whole log: the
    state after the events up to the snapshot boundary. *)
Definition update_ok (id : string) (log events : list Event) (update : option SnapshotOf) : Prop :=
  match update with
  | None => True
  | Some (i, aggregate, version) =>
      i = id /\ (0 <= version)%Z /\
      exists n, n <= length events /\
        aggregate = canon (ser (replay (Uninitialized : Agg) (log ++ take n events))) /\
        (undivided (SNAPSHOT_SIZE config) events -> n = length events)
  end.

Lemma persist_stream_of id log events update n :
  events <> [] -> update_ok id log events update ->
  persist_stream T (number (wrap_ id) n events) update = mkStream T id.
Proof. intros Hne Hu. destruct update as [[[i a] v]|]; [by destruct Hu as [-> _]|]. by destruct events. Qed.

Lemma number_in_stream id n events : Forall (in_stream_event T id) (number (wrap_ id) n events).
Proof. revert n. induction events as [|e events IH]; intros n; constructor; [by split|apply IH]. Qed.

Lemma drop_rows id (log events : list Event) floor :
  floor <= length log ->
  number (wrap_ id) (Z.of_nat floor) (drop floor (log ++ events)) =
  number (wrap_ id) (Z.of_nat floor) (drop floor log) ++ number (wrap_ id) (Z.of_nat (length log)) events.
Proof.
  intros Hf. rewrite drop_app_le by done. rewrite number_app. f_equal. f_equal. rewrite length_drop. lia.
Qed.

(** An accepted batch becomes the end of the log. *)
Lemma inv_committed id log floor db events update requests :
  T <> JOB_AGGREGATE_TYPE \/ requests = [] -> inv id log floor db -> events <> [] ->
  storable (replay Uninitialized log) events ->
  failed (replay (replay (Uninitialized : Agg) log) events) = false ->
  undivided (SNAPSHOT_SIZE config) events -> update_ok id log events update ->
  let request := persist_request T (number (wrap_ id) (Z.of_nat (length log)) events) update requests in
  accepted request db -> inv id (log ++ events) floor (committed request db).
Proof.
  intros HT Hinv Hne [Hok Hst] Hlive Hwhole Hu request Ha. pose proof Hinv as [Hwf [Hlok _] Hrows Hf Hs].
  assert (cr_stream request = mkStream T id) as Hstream by (by eapply persist_stream_of).
  split.
  - by apply well_formed_committed.
  - split; [by apply Forall_app|]. by rewrite replay_app.
  - assert (stream_rows T id (committed request db) =
      stream_rows T id db ++ (event_row <$> number (wrap_ id) (Z.of_nat (length log)) events)) as ->.
    { destruct HT as [HT|HT].
      - pose proof (committed_stream_rows request db Ha) as Hr. rewrite Hstream in Hr. by apply Hr.
      - unfold committed, request. subst requests. cbn [jobs_flushed fold_left cr_jobs persist_request].
        unfold stream_rows at 1. rewrite snapshot_written_events.
        apply stream_rows_append_same, number_in_stream. }
    rewrite Hrows. cbn [stream_type stream_id]. rewrite drop_rows, fmap_app by done. done.
  - rewrite length_app. lia.
  - unfold committed. rewrite jobs_flushed_snapshots. unfold snapshot_written. rewrite Hstream.
    cbn [cr_snapshot cr_events request persist_request stream_type stream_id].
    destruct update as [[[i a] v]|]; cbn [fmap option_fmap option_map].
    2:{ cbn [db_snapshots append_events set_events]. destruct (db_snapshots db !! _); [|done].
      destruct Hs as [Hs|Hs]; [left; by apply cov_app|by right]. }
    destruct (last _) as [e|] eqn:Hl.
    2:{ apply last_None in Hl. by destruct events. }
    cbn [db_snapshots set_snapshot]. rewrite lookup_insert_eq. destruct Hu as (_ & Hv & k & _ & -> & Hk). rewrite (Hk Hwhole), take_ge by done.
    left. exists (length (log ++ events)). rewrite (last_numbered _ _ _ _ Hl). cbn [snap_last_sequence snap_payload snap_snapshot_version upd_snapshot_version upd_aggregate].
    rewrite state_after_all, replay_app by done. rewrite length_app. split; [lia|]. split; [lia|]. by split.
Qed.

(** ** Commands *)

(** The events a command decides on and the jobs it dispatches, in one commit. *)
Definition extended (id : string) (n : nat) (context : AggregateContext Agg) (command : Command) (events : list Event)
    (pending : Scope) (db db' : Db) : Prop :=
  exists prepared, prepare_pending max_delay clock pending = Some (Ok prepared) /\
    let request := persist_request T (number (wrap_ id) (Z.of_nat n) events)
                     (update_for config id context command) (prepared_requests prepared) in
    accepted request db /\ db' = committed request db.

Lemma wp_execute_in b id log n context command m db :
  stands_at log n context ->
  execute_in config event_type event_version max_delay clock id context command = Some m ->
  wp b m db (fun r db' =>
    match r with
    | Err e => db' = db /\
        forall e', (handle (st log n) command (Some [])).1 = Err e' -> e = UserError e'
    | Ok _ => exists events pending, handle (st log n) command (Some []) = (Ok events, pending) /\
        match events with
        | [] => db' = db
        | _ => extended id n context command events pending db db'
        end
    end).
Proof.
  intros (Ha & Hs & Hv) Hm. unfold execute_in, execute_from in Hm. rewrite Ha, Hs in Hm.
  destruct (handle (st log n) command (Some [])) as [[events|err] pending] eqn:Hh.
  2:{ injection Hm as <-. wp_step. split; [done|]. by intros e' [= ->]. }
  destruct events as [|e events]; [injection Hm as <-; wp_step; by exists [], pending|].
  apply bind_Some in Hm as (p & Hp & [= <-]). wp_step. wp_step.
  eapply wp_mono; [eapply wp_persist; exact Hp|]. intros [pending'|err] db'; cbn [persisted map_err]; [|intros ->; by split].
  intros (prepared & Hprep & _ & Hacc & ->). wp_step. exists (e :: events), pending. split; [done|].
  by exists prepared.
Qed.

Lemma update_for_ok id log context command events pending :
  stands_at log (length log) context -> handle (replay Uninitialized log) command (Some []) = (Ok events, pending) ->
  update_ok id log events (update_for config id context command).
Proof.
  intros (Ha & _ & Hv) Hh. unfold update_for. rewrite Ha, state_after_all, Hh by done.
  destruct (snapshot_with _ context events) as [[aggregate version]|] eqn:Hsnap; [|done]. cbn.
  apply snapshot_with_folds in Hsnap as (-> & n & Hn & -> & Hw). split; [done|]. split; [lia|].
  exists n. rewrite Ha, state_after_all, replay_app by done. by split_and!.
Qed.

(** The jobs a command buffered, prepared at their instants, are new and storable. *)
Definition jobs_fit (pending : Scope) (db : Db) : Prop :=
  exists prepared, prepare_pending max_delay clock pending = Some (Ok prepared) /\
    jobs_accepted (prepared_requests prepared) db.

Lemma no_jobs_fit db : jobs_fit (Some []) db.
Proof. by eexists. Qed.

(** Jobs are judged by the streams and rows of jobs alone. *)
Lemma jobs_accepted_frame jobs db db' :
  (forall k, k.1.1 = JOB_AGGREGATE_TYPE -> k ∈ row_key <$> db_events db' -> k ∈ row_key <$> db_events db) ->
  view_table JOB_QUEUE db' = view_table JOB_QUEUE db -> jobs_accepted jobs db -> jobs_accepted jobs db'.
Proof.
  revert db db'. induction jobs as [|request jobs IH]; intros db db' Hk Hv; [done|]. cbn [jobs_accepted].
  intros [(Hrep & (Hs & Hn & Hfree) & Hrow) Hjobs]. split.
  - split; [done|]. split; [|by rewrite Hv]. split_and!; [done..|].
    apply Forall_cons in Hfree as [Hfree _]. constructor; [|done]. intros Hin. by apply Hfree, Hk.
  - eapply IH; [| |exact Hjobs].
    + intros k Ht. unfold job_flushed. cbn [db_events set_view set_view_table append_events set_events].
      rewrite !fmap_app, !elem_of_app. intros [Hin|Hin]; [left; by apply Hk|by right].
    + unfold job_flushed. unfold set_view, set_view_table, view_table. cbn. rewrite !lookup_insert_eq. cbn.
      unfold view_table in Hv. by rewrite Hv.
Qed.

Lemma jobs_accepted_after jobs id n events snapshot db :
  T <> JOB_AGGREGATE_TYPE -> jobs_accepted jobs db ->
  jobs_accepted jobs (snapshot_written (mkStream T id) (number (wrap_ id) n events) snapshot
                        (append_events (number (wrap_ id) n events) db)).
Proof.
  intros HT. apply jobs_accepted_frame.
  - intros k Ht. rewrite snapshot_written_events. cbn [append_events set_events db_events].
    rewrite fmap_app, elem_of_app. intros [Hin|Hin]; [done|]. exfalso. rewrite <-list_fmap_compose in Hin.
    apply list_elem_of_fmap in Hin as (e & -> & He).
    apply (elem_of_number _ (wrap_sequence id)) in He as (x & j & _ & -> & _). by apply HT.
  - unfold snapshot_written. by repeat case_match.
Qed.

(** Without faults, whatever the log leaves room for is committed. *)
Lemma wp_persist_accepts events update pending prepared m db :
  persist max_delay clock T events update pending = Some m ->
  prepare_pending max_delay clock pending = Some (Ok prepared) ->
  Forall (fun e => reserves_engine_payload (ev_metadata e) = false) events ->
  accepted (persist_request T events update (prepared_requests prepared)) db ->
  wp false m db (fun r _ => is_ok r = true).
Proof.
  intros Hm Hp Hu Ha. unfold persist in Hm. rewrite Hp in Hm. cbn [mbind option_bind] in Hm. injection Hm as <-.
  set (request := persist_request T events update (prepared_requests prepared)) in *.
  assert (wp false (_ ← lift_err persistence_of_engine_error (commit request);
                    mret (mark_committed prepared pending)) db
            (fun r _ => is_ok r = true)) as Hw.
  { wp_step. wp_step. eapply wp_mono; [apply wp_commit|].
    intros [[]|e] db' [Hg _]; cbn [map_err]; [by wp_step|]. exfalso. by apply (Hg eq_refl). }
  wp_step. wp_step. cbn [map_err mret result_ret]. wp_step. wp_step.
  destruct update as [[[id aggregate] version]|]; [|exact Hw].
  unfold with_snapshot. cbn [cr_events with_jobs new_commit].
  destruct events as [|e events]; [by destruct Ha as (_ & _ & _ & [? _] & _)|exact Hw].
Qed.

Lemma number_unreserved id n events :
  Forall (fun e => reserves_engine_payload (ev_metadata e) = false) (number (wrap_ id) n events).
Proof. revert n. induction events as [|e events IH]; intros n; constructor; [done|apply IH]. Qed.

Lemma number_keys_NoDup id n events : NoDup (event_key <$> number (wrap_ id) n events).
Proof.
  revert n. induction events as [|e events IH]; intros n; [constructor|]. cbn [number fmap list_fmap].
  constructor; [|apply IH]. intros (e' & Hk & He')%list_elem_of_fmap.
  apply (elem_of_number _ (wrap_sequence id)) in He' as (x & k & _ & -> & Hlt).
  injection Hk as Hk. lia.
Qed.

(** There is room at the end of the log. *)
Lemma number_insertable id log floor db events :
  inv id log floor db -> (Z.of_nat (length log + length events) <= i64_max)%Z ->
  insertable db (number (wrap_ id) (Z.of_nat (length log)) events).
Proof.
  intros Hinv Hl. split_and!; [|apply number_keys_NoDup|]; apply Forall_forall;
    intros e He; apply (elem_of_number _ (wrap_sequence id)) in He as (x & k & _ & -> & Hk).
  { cbn. range. }
  intros (r & Hr & Hin)%list_elem_of_fmap. unfold event_key, row_key in Hr. cbn in Hr. injection Hr as Ht Hi Hs.
  assert (r ∈ stream_rows T id db) as Hst by (apply list_elem_of_filter; by rewrite in_stream_true).
  rewrite (si_rows _ _ _ _ _ _ _ Hinv) in Hst. apply list_elem_of_fmap in Hst as (e & -> & He).
  apply (elem_of_number _ (wrap_sequence id)) in He as (y & k' & _ & -> & Hk').
  rewrite length_drop in Hk'. pose proof (si_floor _ _ _ _ _ _ _ Hinv). cbn in Hs. lia.
Qed.

Lemma number_accepted id log floor db events update jobs :
  jobs = [] \/ T <> JOB_AGGREGATE_TYPE -> jobs_accepted jobs db ->
  inv id log floor db -> (Z.of_nat (length log + length events) <= i64_max)%Z -> events <> [] ->
  update_ok id log events update -> from_option (fun u => u.2 <= i64_max)%Z True update ->
  accepted (persist_request T (number (wrap_ id) (Z.of_nat (length log)) events) update jobs) db.
Proof.
  intros Hjt Hjobs Hinv Hl Hne Hu Hv. unfold accepted. cbn [cr_stream cr_events cr_snapshot cr_jobs persist_request].
  rewrite (persist_stream_of id log) by done. split_and!; [|done|by eapply number_insertable| |].
  - apply Forall_forall. intros e He. apply (elem_of_number _ (wrap_sequence id)) in He as (x & k & _ & -> & _).
    unfold matches. cbn. by rewrite !String.eqb_refl.
  - destruct update as [[[i a] v]|]; [|done]. destruct Hu as (_ & Hv0 & _). cbn in *.
    split; [|range]. by destruct events.
  - destruct Hjt as [->|HT]; [done|by apply jobs_accepted_after].
Qed.

(** Only the events and the snapshots matter. *)
Lemma inv_reframed id log floor db db' :
  inv id log floor db -> db_events db' = db_events db -> db_snapshots db' = db_snapshots db -> inv id log floor db'.
Proof.
  intros [[Hk Hs Hn] Hlok Hrows Hf Hsn] He Hsnap. split; [split|done| |done|]; unfold keys_unique, stream_rows in *;
    by rewrite ?He, ?Hsnap.
Qed.

(** ** The contract of the facade *)

Abbreviation load_ := (store_load (Entity := Entity) (Event := Event) (Error := Error) config).
Abbreviation send_ := (send_command (Entity := Entity) (Event := Event) (Command := Command) (Error := Error)
  config event_type event_version max_delay clock).

(** A snapshot whose document this version of the entity cannot read. *)
Definition undecodable (row : StoredSnapshotRow) : Prop :=
  forall j, value_from_str (snap_payload row) = Ok j -> dec_ j = false.

Lemma wp_store_load b id log floor db :
  inv id log floor db -> wp b (load_ id) db (fun r db' => db' = db /\
    match r with
    | Ok entity => into_result (replay (Uninitialized : Agg) log) = Ok entity
    | Err _ => b = true
    end).
Proof.
  intros Hinv. unfold store_load, load_entity. wp_step. eapply wp_mono; [by eapply wp_load_aggregate|].
  intros [context|e] db' [-> Hc]; [|done]. destruct Hc as [(Ha & _) _]. wp_step. split; [done|].
  rewrite Ha, state_after_all by done.
  pose proof (lo_live _ (si_log _ _ _ _ _ _ _ Hinv)) as Hl. by destruct (replay _ log).
Qed.

(** C16: what a load answers.  Take any stream of readable events, however much of it was
    compacted away, and any snapshot of it in range, whoever wrote it: a load changes
    nothing and answers the state of the snapshot with the events after its sequence
    folded in order, starting from nothing if there is no snapshot or if a retained
    entity's no longer decodes; it answers otherwise only if the driver fails.  So
    where the snapshot holds the state of the log at its sequence, which is what a store
    whose batches no snapshot boundary divides writes, the answer is the fold of the
    whole log, wherever the snapshot stands. *)
Theorem store_load_exact id log floor state n w :
  stream_held id log floor (w_db w) -> rehydrates_from (db_snapshots (w_db w) !! (T, id)) log floor state n ->
  let '(r, w') := load_ id w in
  w_db w' = w_db w /\
  (w_faults w <> [] /\ is_ok r = false \/
   r = map_err send_error_of_lifecycle (into_result (replay state (drop n log))) /\
   (state = state_after log n ->
    r = map_err send_error_of_lifecycle (into_result (replay (Uninitialized : Agg) log)))).
Proof.
  intros Hh Hfrom.
  assert (forall b, wp b (load_ id) (w_db w) (fun r db' => db' = w_db w /\
    (b = true /\ is_ok r = false \/ r = map_err send_error_of_lifecycle (into_result (replay state (drop n log)))))) as Hw.
  { intros b. unfold store_load, load_entity. wp_step. eapply wp_mono; [by eapply wp_load_rehydrated|].
    intros [context|e] db' [-> Hc]; [|split; [done|by left]]. destruct Hc as (Ha & _). wp_step. split; [done|].
    right. by rewrite Ha. }
  apply (wp_worlds _ w) in Hw. destruct (load_ id w) as [r w']; cbn in *. destruct Hw as [-> Hr]. split; [done|].
  destruct Hr as [[Hf%bool_decide_eq_true Hr]|Hr]; [by left|right]. split; [done|]. intros ->.
  by rewrite Hr, replay_state_after.
Qed.

(** What a command may end in, against the log it found. *)
Definition send_outcome (id : string) (log : list Event) (floor : nat) (command : Command) (faulty : bool) (db : Db)
    (r : result (AggregateError (LifecycleError Entity Event Error)) (option ())) (db' : Db) : Prop :=
  let decision := handle (replay Uninitialized log) command (Some []) in
  match r with
  | Err e => db' = db /\ (faulty = false -> forall e', decision.1 = Err e' -> e = UserError e')
  | Ok None => db' = db /\ exists events pending, decision = (Ok events, pending) /\
      prepare_pending max_delay clock pending = None
  | Ok (Some _) => exists events pending, decision = (Ok events, pending) /\
      match events with
      | [] => db' = db
      | _ => exists prepared update,
          prepare_pending max_delay clock pending = Some (Ok prepared) /\ update_ok id log events update /\
          let request := persist_request T (number (wrap_ id) (Z.of_nat (length log)) events) update
                           (prepared_requests prepared) in
          accepted request db /\ db' = committed request db
      end
  end.

Lemma wp_send_command b id log floor command db :
  inv id log floor db -> wp b (send_ id command) db (send_outcome id log floor command b db).
Proof.
  intros Hinv. unfold send_command. wp_step. eapply wp_mono; [by eapply wp_load_aggregate|].
  intros [context|e] db' [-> Hc]; [|by split; [|intros ->]].
  destruct Hc as [Hst _]. pose proof (state_after_all log (length log) (Nat.le_refl _)) as Hall.
  destruct (execute_in config event_type event_version max_delay clock id context command) as [m|] eqn:Hm.
  - wp_step. eapply wp_mono; [eapply wp_execute_in; [exact Hst|exact Hm]|]. rewrite Hall.
    intros [[]|e] db'; unfold send_outcome; cbn; [|intros [-> He]; split; [done|intros _; exact He]].
    intros (events & pending & Hh & Hdb). wp_step. exists events, pending. split; [done|].
    destruct events as [|e events]; [done|]. destruct Hdb as (prepared & Hp & Hacc & ->).
    exists prepared, (update_for config id context command). split_and!; [done|by eapply update_for_ok|done..].
  - wp_step. unfold send_outcome. split; [done|]. destruct Hst as (Ha & Hs & _). unfold execute_in, execute_from in Hm.
    rewrite Ha, Hall in Hm. destruct (handle _ command (Some [])) as [[events|err] pending]; [|done].
    destruct events as [|e events]; [done|]. exists (e :: events), pending. split; [done|].
    unfold persist in Hm. by destruct (prepare_pending max_delay clock pending).
Qed.

(** Room for the batch and for the next snapshot's version. *)
Definition roomy (id : string) (log events : list Event) (db : Db) : Prop :=
  (Z.of_nat (length log + length events) <= i64_max)%Z /\
  (default 0 (snap_snapshot_version <$> (db_snapshots db !! (T, id))) < i64_max)%Z.

Lemma execute_accepts id log floor context command events pending db :
  inv id log floor db -> stands_at log (length log) context ->
  (default 0 (ctx_snapshot context) <= default 0 (snap_snapshot_version <$> (db_snapshots db !! (T, id))))%Z ->
  handle (replay Uninitialized log) command (Some []) = (Ok events, pending) ->
  pending = Some [] \/ T <> JOB_AGGREGATE_TYPE -> jobs_fit pending db -> roomy id log events db ->
  exists m, execute_in config event_type event_version max_delay clock id context command = Some m /\
    wp false m db (fun r _ => r = Ok ()).
Proof.
  intros Hinv Hst Hver Hh Hjt (prepared & Hp & Hjobs) [Hl Hv].
  pose proof (state_after_all log (length log) (Nat.le_refl _)) as Hall.
  pose proof (update_for_ok id log context command events pending Hst Hh) as Hu.
  assert (from_option (fun u => u.2 <= i64_max)%Z True (update_for config id context command)) as Hu2.
  { unfold update_for. destruct (handle (ctx_aggregate context) command (Some [])) as [[evs|] ?]; [|done].
    destruct (snapshot_with _ context evs) as [[a v]|] eqn:Hsn; [|done]. cbn.
    apply snapshot_with_folds in Hsn as [-> _]. lia. }
  unfold execute_in, execute_from. destruct Hst as (Ha & Hs & _). rewrite Ha, Hs, Hall, Hh.
  destruct events as [|e events]; [eexists; split; [done|by wp_step]|].
  destruct (persist max_delay clock T _ _ pending) as [m|] eqn:Hm; [|by unfold persist in Hm; rewrite Hp in Hm].
  cbn [mbind option_bind].
  eexists. split; [done|]. repeat wp_step. eapply wp_mono; [eapply wp_persist_accepts|].
  - exact Hm.
  - exact Hp.
  - apply number_unreserved.
  - eapply number_accepted; try done. destruct Hjt as [->|]; [|by right]. left. by injection Hp as <-.
  - intros [pending'|err] db'; [|done]. intros _. cbn [map_err]. by repeat wp_step.
Qed.

Lemma wp_send_accepts id log floor command events pending db :
  inv id log floor db -> handle (replay Uninitialized log) command (Some []) = (Ok events, pending) ->
  pending = Some [] \/ T <> JOB_AGGREGATE_TYPE -> jobs_fit pending db -> roomy id log events db ->
  wp false (send_ id command) db (fun r _ => r = Ok (Some ())).
Proof.
  intros Hinv Hh Hjt Hjobs Hroom. unfold send_command. wp_step. eapply wp_mono; [by eapply wp_load_aggregate|].
  intros [context|e] db' [-> Hc]; [|done]. destruct Hc as [Hst Hver].
  destruct (execute_accepts _ _ _ _ _ _ _ _ Hinv Hst Hver Hh Hjt Hjobs Hroom) as (m & -> & Hm).
  wp_step. eapply wp_mono; [exact Hm|]. intros r db' ->. by wp_step.
Qed.

Lemma send_spec id log floor command w :
  T <> JOB_AGGREGATE_TYPE -> inv id log floor (w_db w) ->
  let '(r, w') := send_ id command w in
  send_outcome id log floor command (bool_decide (w_faults w <> [])) (w_db w) r (w_db w') /\
  (r = Ok (Some ()) -> exists events pending,
     handle (replay Uninitialized log) command (Some []) = (Ok events, pending) /\
     (storable (replay Uninitialized log) events -> undivided (SNAPSHOT_SIZE config) events ->
      inv id (log ++ events) floor (w_db w'))) /\
  (w_faults w = [] -> forall events pending,
     handle (replay Uninitialized log) command (Some []) = (Ok events, pending) ->
     jobs_fit pending (w_db w) -> roomy id log events (w_db w) -> r = Ok (Some ())).
Proof.
  intros HT Hinv.
  pose proof (wp_worlds (send_ id command) w _ (fun b => wp_send_command b id log floor command _ Hinv)) as Hw.
  assert (w_faults w = [] -> forall events pending,
    handle (replay Uninitialized log) command (Some []) = (Ok events, pending) ->
    jobs_fit pending (w_db w) -> roomy id log events (w_db w) -> (send_ id command w).1 = Ok (Some ())) as Hacc.
  { intros Hf events pending Hh Hj Hr.
    pose proof (wp_run _ _ _ (wp_send_accepts _ _ _ _ _ _ _ Hinv Hh (or_intror HT) Hj Hr)) as Ho.
    unfold run in Ho. destruct w as [db fs]; cbn in Hf; subst fs. by destruct (send_ id command _). }
  destruct (send_ id command w) as [r w']; cbn [fst snd] in *. split_and!; [exact Hw| |exact Hacc].
  intros ->. destruct Hw as (events & pending & Hh & Hdb). exists events, pending. split; [done|]. intros Hst Hwhole.
  destruct events as [|e events]; [by rewrite app_nil_r, Hdb|].
  destruct Hdb as (prepared & update & _ & Hu & Ha & ->). eapply inv_committed; try done; [by left|].
  by apply handle_accepts in Hh.
Qed.

(** C3: a command is an atomic step of the log.  Let the database hold the log, whatever
    was compacted away and wherever a snapshot of a state of that log stands.  Whatever
    driver failure strikes, the command is decided against the fold of the log, and
    either nothing changes, or the events it decided on and the jobs it dispatched are
    committed at its end, in one step; if the events and the state after them are
    storable and no snapshot boundary divides the batch, the database then holds the
    extended log.  Without failures the entity's refusal is what the caller is told, and
    an accepted command with room for its batch and for the jobs it dispatches
    succeeds. *)
Theorem send_refines id log floor command w :
  T <> JOB_AGGREGATE_TYPE -> inv id log floor (w_db w) ->
  let '(r, w') := send_ id command w in
  send_outcome id log floor command (bool_decide (w_faults w <> [])) (w_db w) r (w_db w') /\
  (r = Ok (Some ()) -> exists events pending,
     handle (replay Uninitialized log) command (Some []) = (Ok events, pending) /\
     (storable (replay Uninitialized log) events -> undivided (SNAPSHOT_SIZE config) events ->
      inv id (log ++ events) floor (w_db w'))) /\
  (w_faults w = [] -> forall events pending,
     handle (replay Uninitialized log) command (Some []) = (Ok events, pending) ->
     jobs_fit pending (w_db w) -> roomy id log events (w_db w) -> r = Ok (Some ())).
Proof. apply send_spec. Qed.

(** C17: the last copy of a state is never replaced by a guess.  When the snapshot of a
    compacting entity cannot be decoded, neither a load nor a command works on what is
    left of its stream: both fail, under every fault schedule, and write nothing. *)
Theorem corrupt_snapshot_surfaced id command row w :
  COMPACTION_POLICY config = CompactAfterSnapshot ->
  db_snapshots (w_db w) !! (T, id) = Some row ->
  undecodable row ->
  (let '(r, w') := load_ id w in is_ok r = false /\ w_db w' = w_db w) /\
  (let '(r, w') := send_ id command w in is_ok r = false /\ w_db w' = w_db w).
Proof.
  intros Hpol Hrow Hbad. assert (refuses true (repo_get_snapshot repo id) (w_db w)) as Href.
  { unfold refuses. cbn [repo_get_snapshot sqlite_event_repo]. unfold get_snapshot, load_snapshot, load_snapshot_on.
    repeat wp_step; [by intros _|]. cbn [map_err]. repeat wp_step; [by intros _|]. cbn [map_err]. repeat wp_step.
    cbn [stream_type stream_id]. rewrite Hrow. unfold serialized_snapshot.
    destruct (value_from_str (snap_payload row)) as [j|e] eqn:Hj; cbn; [|done].
    destruct (usize_try_from (snap_last_sequence row)); cbn; [|done].
    destruct (usize_try_from _); cbn; [|done].
    rewrite Hpol, (Hbad j Hj). by wp_step. }
  apply load_aggregate_surfaces in Href. split.
  - assert (wp true (load_ id) (w_db w) (fun r db' => is_ok r = false /\ db' = w_db w)) as Hw%wp_world.
    { unfold store_load, load_entity. wp_step. eapply wp_mono; [exact Href|]. by intros [context|e] db' [-> ?]. }
    destruct (load_ id w). exact Hw.
  - assert (wp true (send_ id command) (w_db w) (fun r db' => is_ok r = false /\ db' = w_db w)) as Hw%wp_world.
    { unfold send_command. wp_step. eapply wp_mono; [exact Href|]. by intros [context|e] db' [-> ?]. }
    destruct (send_ id command w). exact Hw.
Qed.
End store_props.
