(* ===== verification/StoreHistory.v ===== *)
(** * Concurrent use of a store

    Any number of clients of one entity, interleaved: each reads the snapshot, reads
    the events after it, and later commits what its command decided on, or gives up;
    compaction and unrelated activity run in between, each under any fault schedule.

    [store_linearizable] is the guarantee: the log a database holds is what the accepted
    commands, run one after the other in the order of their commits, produce.  Two things
    are asked.  A compacting entity is not compacted past a command in flight
    ([compaction_step]; the run [torn_load_after_compaction] of StoreWitnesses.v shows what
    happens otherwise), and no snapshot boundary divides a batch ([step_commit]; see
    [boundary_snapshot_drops_tail] there). *)

From S2P Require Import Prelude Json Sqlite EventTable Lifecycle Schema Job Engine EngineProps.
From S2P Require Import ViewRepository Repository SchemaRecovery Projection Startup Store StoreProps.

Section store_history.
Context `{SerdeJsonLaws, Chrono, Ulid}.
Context {Entity Event Command Error : Type} `{EventSourced Entity Event Command Error}.
Context `{Serde Entity, Serde Event, Serde Error}.
Context `{!CqrsEs Entity Event Error} `{!CqrsEsLaws}.
Context (config : EntityConfig) (event_type event_version : Event -> string).
Context (max_delay : Z) (clock : nat -> Z).

Abbreviation Agg := (Lifecycle Entity Event Error).
Abbreviation T := (AGGREGATE_TYPE config).
Abbreviation wrap_ := (wrap config event_type event_version).
Abbreviation inv := (store_inv config event_type event_version).
Abbreviation st := (state_after (Entity := Entity) (Command := Command) (Error := Error)).
Abbreviation repo := (sqlite_event_repo (Entity := Entity) (Event := Event) (Error := Error) config).
Abbreviation execute_ := (execute_in config event_type event_version max_delay clock).

(** ** Running commands one after the other *)

(** [run_from log0 commands log]: from [log0], the commands lead to [log]. *)
Inductive run_from (log0 : list Event) : list Command -> list Event -> Prop :=
| run_nil : run_from log0 [] log0
| run_snoc commands log command events pending :
    run_from log0 commands log ->
    handle (replay Uninitialized log : Agg) command (Some []) = (Ok events, pending) ->
    run_from log0 (commands ++ [command]) (log ++ events).

(** ** Clients *)

(** A load in progress, or done: what it read so far. *)
Inductive Client : Type :=
| Started (state : Agg) (sequence : Z) (snapshot : option Z)
| Loaded (context : AggregateContext Agg).

Definition client_sequence (client : Client) : Z :=
  match client with Started _ sequence _ => sequence | Loaded context => ctx_sequence context end.

(** The log and the accepted commands are ghost state. *)
Record Config : Type := mkConfig {
  cf_db : Db;
  cf_log : list Event;
  cf_accepted : list Command;
  cf_clients : gmap nat Client;
}.

(** What an operation that answered [r] adds to the ghost state. *)
Definition log_after (r : result (AggregateError (LifecycleError Entity Event Error)) ())
    (context : AggregateContext Agg) (command : Command) (log : list Event) (accepted : list Command) :
    list Event * list Command :=
  match r, handle (ctx_aggregate context) command (Some []) with
  | Ok _, (Ok (e :: events), _) => (log ++ e :: events, accepted ++ [command])
  | _, _ => (log, accepted)
  end.

(** Compaction deletes nothing a client in flight has yet to read or to meet. *)
Definition not_overtaking (id : string) (db : Db) (clients : gmap nat Client) : Prop :=
  map_Forall (fun _ client =>
    (from_option snap_last_sequence 0 (db_snapshots db !! (T, id)) <= client_sequence client)%Z) clients.

(** A client reads the snapshot, then the events after it, or gives up. *)
Inductive read_step (id : string) : Config -> Config -> Prop :=
| read_snapshot log accepted clients c w w' snapshot state sequence :
    repo_get_snapshot repo id w = (Ok snapshot, w') -> starts snapshot state sequence ->
    read_step id (mkConfig (w_db w) log accepted clients)
      (mkConfig (w_db w') log accepted
         (<[c := Started state sequence (ss_current_snapshot <$> snapshot)]> clients))
| read_events log accepted clients c w w' state sequence version events decoded :
    clients !! c = Some (Started state sequence version) ->
    repo_get_last_events repo id sequence w = (Ok events, w') ->
    mapM (fun e => de (ev_payload e)) events = Some decoded ->
    read_step id (mkConfig (w_db w) log accepted clients)
      (mkConfig (w_db w') log accepted
         (<[c := Loaded (mkAggregateContext (replay state decoded)
                           (default sequence (ev_sequence <$> last events)) version)]> clients))
| read_abandon db log accepted clients c :
    read_step id (mkConfig db log accepted clients) (mkConfig db log accepted (delete c clients)).

(** The client [c] runs [command] on what it loaded, which answers [r]. *)
Inductive commit_by (id : string) (c : nat) (context : AggregateContext Agg) (command : Command) :
    result (AggregateError (LifecycleError Entity Event Error)) () -> Config -> Config -> Prop :=
| commit_with log accepted clients m w r w' :
    clients !! c = Some (Loaded context) -> execute_ id context command = Some m -> m w = (r, w') ->
    commit_by id c context command r (mkConfig (w_db w) log accepted clients)
      (let '(log', accepted') := log_after r context command log accepted in
       mkConfig (w_db w') log' accepted' (delete c clients)).

(** Compaction, at any time for an entity that retains its history. *)
Inductive compaction_step (id : string) : Config -> Config -> Prop :=
| compact_run log accepted clients w r w' :
    compact_events T (COMPACTION_POLICY config) w = (r, w') ->
    COMPACTION_POLICY config = Retain \/ not_overtaking id (w_db w) clients ->
    compaction_step id (mkConfig (w_db w) log accepted clients) (mkConfig (w_db w') log accepted clients).

(** A step of a client, of compaction, or of whatever else leaves this stream alone. *)
Inductive store_step (id : string) : Config -> Config -> Prop :=
| step_read cf cf' : read_step id cf cf' -> store_step id cf cf'
| step_commit c context command r cf cf' :
    commit_by id c context command r cf cf' ->
    (forall events pending, handle (ctx_aggregate context) command (Some []) = (Ok events, pending) ->
       storable (ctx_aggregate context) events /\ undivided (SNAPSHOT_SIZE config) events) ->
    store_step id cf cf'
| step_compact cf cf' : compaction_step id cf cf' -> store_step id cf cf'
| step_rest db db' log accepted clients :
    well_formed db' -> stream_rows T id db' = stream_rows T id db ->
    db_snapshots db' !! (T, id) = db_snapshots db !! (T, id) ->
    store_step id (mkConfig db log accepted clients) (mkConfig db' log accepted clients).

(** ** The invariant *)

(** What a client read is the state after some event the stream still reaches. *)
Definition client_ok (log : list Event) (floor : nat) (client : Client) : Prop :=
  exists n, floor <= n <= length log /\
    match client with
    | Started state sequence version =>
        state = st log n /\ sequence = Z.of_nat n /\ (0 <= default 0 version)%Z
    | Loaded context => stands_at log n context
    end.

Definition config_ok (id : string) (c : Config) : Prop :=
  exists floor, inv id (cf_log c) floor (cf_db c) /\
    map_Forall (fun _ => client_ok (cf_log c) floor) (cf_clients c).

Lemma st_app log events n : n <= length log -> st (log ++ events) n = st log n.
Proof. intros Hn. unfold state_after. by rewrite take_app_le. Qed.

Lemma client_ok_app log events floor client :
  client_ok log floor client -> client_ok (log ++ events) floor client.
Proof.
  intros (n & Hn & Hc). exists n. rewrite length_app. split; [lia|].
  destruct client as [state sequence version|context]; unfold stands_at in *; by rewrite st_app by lia.
Qed.

(** A frame: what does not touch the stream or its snapshot keeps the log. *)
Lemma inv_other id log floor db db' :
  inv id log floor db -> well_formed db' -> stream_rows T id db' = stream_rows T id db ->
  db_snapshots db' !! (T, id) = db_snapshots db !! (T, id) -> inv id log floor db'.
Proof. intros [_ Hlok Hrows Hf Hs] Hwf Hr Hsn. split; [done..|by rewrite Hr|done|by rewrite Hsn]. Qed.

(** Compaction raises the floor to the snapshot. *)
Lemma inv_compacted id log floor db :
  inv id log floor db -> COMPACTION_POLICY config = CompactAfterSnapshot ->
  exists n, floor <= n <= length log /\
    from_option snap_last_sequence 0%Z (db_snapshots db !! (T, id)) = Z.of_nat n /\
    inv id log n (delete_covered T db).
Proof.
  intros [Hwf Hlok Hrows Hf Hs] Hpol.
  assert (exists n, floor <= n <= length log /\
    from_option snap_last_sequence 0%Z (db_snapshots db !! (T, id)) = Z.of_nat n /\
    match db_snapshots db !! (T, id) with
    | None => n = 0
    | Some row => covers (Entity := Entity) (Command := Command) (Error := Error) log n row
    end) as (n & Hn & Hseq & Hcov).
  { destruct (db_snapshots db !! (T, id)) as [row|]; [|exists 0; split_and!; [lia..|done|done]].
    destruct Hs as [(n & Hn & Hseq & Hc)|(Hret & _)]; [|by rewrite Hpol in Hret].
    exists n. split_and!; [lia..|done|]. exists n. split; [lia|]. by split. }
  exists n. split; [done|]. split; [done|]. split; [by apply well_formed_delete_covered|done| |lia|].
  - rewrite stream_rows_delete_covered.
    rewrite <-(number_after (wrap_ id) (wrap_sequence _ _ _ id) floor n log Hn), <-Hrows.
    apply list_filter_ext_in. intros r Hr. apply list_elem_of_filter in Hr as [Hr _].
    apply in_stream_true in Hr as [Ht Hi]. unfold compactable, covered. rewrite Ht, Hi, Hseq. cbn.
    rewrite String.eqb_refl. cbn. rewrite Z.leb_gt, Z.ltb_lt. done.
  - change (db_snapshots (delete_covered T db)) with (db_snapshots db).
    destruct (db_snapshots db !! (T, id)); [by left|done].
Qed.

(** ** Steps *)

Lemma starts_det snapshot (s1 s2 : Agg) n1 n2 :
  starts snapshot s1 n1 -> starts snapshot s2 n2 -> s1 = s2 /\ n1 = n2.
Proof.
  unfold starts. destruct snapshot as [s|]; [|naive_solver].
  destruct (de (ss_aggregate s) : option Agg); naive_solver.
Qed.

Lemma reads_world {E A} (m : M E A) w x r w' :
  reads true m (w_db w) x -> m w = (Ok r, w') -> r = x /\ w_db w' = w_db w.
Proof. intros Hr Hm. apply wp_world in Hr. rewrite Hm in Hr. cbn in Hr. naive_solver. Qed.

Lemma snapshot_step id log floor w snapshot w' state sequence :
  inv id log floor (w_db w) -> repo_get_snapshot repo id w = (Ok snapshot, w') ->
  starts snapshot state sequence ->
  w_db w' = w_db w /\ client_ok log floor (Started state sequence (ss_current_snapshot <$> snapshot)).
Proof.
  intros Hinv Hop Hst. destruct (reads_snapshot _ _ _ _ _ _ _ Hinv) as (n & snapshot' & Hn & Hst' & Hv & _ & Hr).
  destruct (reads_world _ _ _ _ _ (Hr true) Hop) as [-> Hdb]. split; [done|].
  destruct (starts_det _ _ _ _ _ Hst Hst') as [-> ->]. exists n. split_and!; [lia..|done|done|].
  by destruct snapshot'; [|cbn; lia].
Qed.

Lemma events_step id log floor w events w' state sequence version decoded :
  inv id log floor (w_db w) -> client_ok log floor (Started state sequence version) ->
  repo_get_last_events repo id sequence w = (Ok events, w') ->
  mapM (fun e => de (ev_payload e)) events = Some decoded ->
  w_db w' = w_db w /\
  stands_at log (length log) (mkAggregateContext (replay state decoded)
    (default sequence (ev_sequence <$> last events)) version).
Proof.
  intros Hinv (n & Hn & -> & -> & Hv) Hop Hd.
  destruct (reads_world _ _ _ _ _ (reads_last_events config event_type event_version true id log floor _ n (inv_held _ _ _ _ _ _ _ Hinv) Hn) Hop)
    as [-> Hdb].
  split; [done|]. rewrite decode_number in Hd by (apply Forall_drop, (si_log _ _ _ _ _ _ _ Hinv)).
  injection Hd as <-. split_and!; cbn; [|rewrite last_number by done; rewrite length_drop; lia|done].
  by rewrite replay_state_after, state_after_all.
Qed.

(** Reading changes no database; a client that loads stands at the end of the log. *)
Lemma read_step_ok id floor cf cf' :
  read_step id cf cf' -> inv id (cf_log cf) floor (cf_db cf) -> map_Forall (fun _ => client_ok (cf_log cf) floor) (cf_clients cf) ->
  cf_db cf' = cf_db cf /\ cf_log cf' = cf_log cf /\ cf_accepted cf' = cf_accepted cf /\
  map_Forall (fun _ => client_ok (cf_log cf) floor) (cf_clients cf') /\
  forall c context, cf_clients cf' !! c = Some (Loaded context) ->
    cf_clients cf !! c = Some (Loaded context) \/ stands_at (cf_log cf) (length (cf_log cf)) context.
Proof.
  intros Hs Hinv Hcl. destruct Hs as
    [log accepted clients c w w' snapshot state sequence Hop Hst
    |log accepted clients c w w' state sequence version events decoded Hc Hop Hd|db log accepted clients c]; cbn in *.
  - destruct (snapshot_step _ _ _ _ _ _ _ _ Hinv Hop Hst) as [Hdb Hok]. split_and!; try done.
    + by apply map_Forall_insert_2.
    + intros c' context. destruct (decide (c' = c)) as [->|]; [by rewrite lookup_insert_eq|].
      rewrite lookup_insert_ne by done. by left.
  - destruct (events_step _ _ _ _ _ _ _ _ _ _ Hinv (Hcl _ _ Hc) Hop Hd) as [Hdb Hok]. split_and!; try done.
    + apply map_Forall_insert_2; [|done]. exists (length log). split; [pose proof (si_floor _ _ _ _ _ _ _ Hinv); lia|done].
    + intros c' context. destruct (decide (c' = c)) as [->|].
      * rewrite lookup_insert_eq. intros [= <-]. by right.
      * rewrite lookup_insert_ne by done. by left.
  - split_and!; try done; [by apply map_Forall_delete|].
    intros c' context [_ Hc]%lookup_delete_Some. by left.
Qed.

(** A commit lands only at the end of the log, where its command is what was decided
    there. *)
Lemma commit_outcome id log floor w n context command m r w' :
  T <> JOB_AGGREGATE_TYPE -> inv id log floor (w_db w) -> floor <= n <= length log -> stands_at log n context ->
  execute_ id context command = Some m -> m w = (r, w') ->
  match r with
  | Err _ => w_db w' = w_db w
  | Ok _ => exists events pending, handle (ctx_aggregate context) command (Some []) = (Ok events, pending) /\
      match events with
      | [] => w_db w' = w_db w
      | _ => n = length log /\ ctx_aggregate context = replay Uninitialized log /\
          (exists prepared, prepare_pending max_delay clock pending = Some (Ok prepared) /\
             let request := persist_request T (number (wrap_ id) (Z.of_nat n) events)
                              (update_for config id context command) (prepared_requests prepared) in
             accepted request (w_db w) /\ w_db w' = committed request (w_db w)) /\
          (storable (ctx_aggregate context) events -> undivided (SNAPSHOT_SIZE config) events ->
             inv id (log ++ events) floor (w_db w'))
      end
  end.
Proof.
  intros HT Hinv Hn Hst Hm Hop. pose proof Hst as (Ha & _).
  pose proof (wp_world _ w _ (wp_execute_in config event_type event_version max_delay clock true id log n context command m _ Hst Hm)) as Hw.
  rewrite Hop in Hw. destruct r as [[]|e]; cbn in Hw; [|by destruct Hw].
  destruct Hw as (events & pending & Hh & Hdb). exists events, pending. rewrite Ha. split; [done|].
  destruct events as [|e events]; [done|]. pose proof Hdb as (prepared & Hprep & Hacc & Hdb'). pose proof Hacc as (_ & _ & Hins & _).
  assert (n = length log) as -> by (by eapply append_at_end; [exact Hinv|exact Hn| |exact Hins]).
  rewrite state_after_all in * by done. split_and!; [done|done|by exists prepared|]. intros Hsto Hwhole.
  rewrite Hdb'. eapply inv_committed; try done; [by left|by apply handle_accepts in Hh|by eapply update_for_ok].
Qed.

Lemma commit_by_ok id log0 floor c context command r cf cf' :
  T <> JOB_AGGREGATE_TYPE -> commit_by id c context command r cf cf' ->
  inv id (cf_log cf) floor (cf_db cf) -> map_Forall (fun _ => client_ok (cf_log cf) floor) (cf_clients cf) ->
  (forall events pending, handle (ctx_aggregate context) command (Some []) = (Ok events, pending) ->
     storable (ctx_aggregate context) events /\ undivided (SNAPSHOT_SIZE config) events) ->
  run_from log0 (cf_accepted cf) (cf_log cf) ->
  inv id (cf_log cf') floor (cf_db cf') /\ map_Forall (fun _ => client_ok (cf_log cf') floor) (cf_clients cf') /\
  run_from log0 (cf_accepted cf') (cf_log cf') /\ cf_log cf `prefix_of` cf_log cf'.
Proof.
  intros HT Hs Hinv Hcl Hsto Hrun. destruct Hs as [log accepted clients m w r w' Hc Hm Hop]. cbn in *.
  destruct (Hcl _ _ Hc) as (n & Hn & Hst).
  pose proof (commit_outcome id log floor w n context command m r w' HT Hinv Hn Hst Hm Hop) as Hok.
  assert (map_Forall (fun _ => client_ok log floor) (delete c clients)) as Hdel by (by apply map_Forall_delete).
  unfold log_after. destruct r as [[]|e]; cbn; [|by rewrite Hok].
  destruct Hok as (events & pending & Hh & Hok). rewrite Hh. destruct events as [|e events]; cbn; [by rewrite Hok|].
  destruct Hok as (_ & Ha & _ & Hinv'). destruct (Hsto _ _ Hh). split_and!; [by apply Hinv'| |eapply run_snoc; [done|by rewrite <-Ha]|by apply prefix_app_r].
  eapply map_Forall_impl; [exact Hdel|]. intros i x. apply client_ok_app.
Qed.

Lemma compact_step id log floor w r w' :
  inv id log floor (w_db w) -> compact_events T (COMPACTION_POLICY config) w = (r, w') ->
  w_db w' = w_db w \/ COMPACTION_POLICY config = CompactAfterSnapshot /\ w_db w' = delete_covered T (w_db w) /\
  exists n, floor <= n <= length log /\
    from_option snap_last_sequence 0%Z (db_snapshots (w_db w) !! (T, id)) = Z.of_nat n /\ inv id log n (w_db w').
Proof.
  intros Hinv Hop. destruct (COMPACTION_POLICY config) eqn:Hpol; [by injection Hop as _ <-; left|].
  assert (wp true (compact_events T CompactAfterSnapshot) (w_db w) (fun r db' =>
    db' = w_db w \/ db' = delete_covered T (w_db w))) as Hw%wp_world.
  { unfold compact_events. apply wp_statement; simpl; auto. }
  rewrite Hop in Hw. cbn in Hw. destruct Hw as [->| ->]; [by left|right]. split; [done|]. split; [done|]. by apply inv_compacted.
Qed.

Lemma compaction_step_ok id floor cf cf' :
  compaction_step id cf cf' -> inv id (cf_log cf) floor (cf_db cf) -> map_Forall (fun _ => client_ok (cf_log cf) floor) (cf_clients cf) ->
  cf_log cf' = cf_log cf /\ cf_accepted cf' = cf_accepted cf /\ cf_clients cf' = cf_clients cf /\
  (cf_db cf' = cf_db cf \/ cf_db cf' = delete_covered T (cf_db cf)) /\
  exists floor', inv id (cf_log cf) floor' (cf_db cf') /\ map_Forall (fun _ => client_ok (cf_log cf) floor') (cf_clients cf).
Proof.
  intros [log accepted clients w r w' Hop Hguard] Hinv Hcl; cbn in *. split_and!; [done..| |].
  all: destruct (compact_step _ _ _ _ _ _ Hinv Hop) as [Hdb|(Hpol & Hdb & n & Hn & Hseq & Hinv')]; auto.
  - exists floor. by rewrite Hdb.
  - destruct Hguard as [Hret|Hguard]; [by rewrite Hpol in Hret|]. unfold not_overtaking in Hguard.
    exists n. split; [done|]. rewrite Hseq in Hguard. intros i client Hi.
    destruct (Hcl i client Hi) as (k & Hk & Hc). specialize (Hguard i client Hi). exists k.
    split; [|done]. cbn in Hguard. destruct client; cbn in Hguard; destruct Hc as (_ & Hsq & _); lia.
Qed.

Lemma store_step_ok id log0 c c' :
  T <> JOB_AGGREGATE_TYPE -> store_step id c c' -> config_ok id c -> run_from log0 (cf_accepted c) (cf_log c) ->
  config_ok id c' /\ run_from log0 (cf_accepted c') (cf_log c') /\ cf_log c `prefix_of` cf_log c'.
Proof.
  intros HT Hs (floor & Hinv & Hcl) Hrun.
  destruct Hs as [cf cf' Hs|c context command r cf cf' Hs Hsto|cf cf' Hs|db db' log accepted clients Hwf Hr Hsn]; cbn in *.
  - destruct (read_step_ok id floor _ _ Hs Hinv Hcl) as (Hdb & Hl & Ha & Hcl' & _).
    split; [exists floor; by rewrite Hdb, Hl|]. by rewrite Ha, Hl.
  - destruct (commit_by_ok id log0 floor c context command r cf cf' HT Hs Hinv Hcl Hsto Hrun) as (? & ? & ? & ?).
    split; [by exists floor|done].
  - destruct (compaction_step_ok id floor _ _ Hs Hinv Hcl) as (Hl & Ha & Hc & _ & floor' & Hinv' & Hcl').
    split; [exists floor'; by rewrite Hl, Hc|]. by rewrite Ha, Hl.
  - split; [|by split]. exists floor. split; [|done]. by eapply inv_other.
Qed.

Lemma store_steps_ok id log0 c c' :
  T <> JOB_AGGREGATE_TYPE -> rtc (store_step id) c c' -> config_ok id c ->
  run_from log0 (cf_accepted c) (cf_log c) ->
  config_ok id c' /\ run_from log0 (cf_accepted c') (cf_log c') /\ cf_log c `prefix_of` cf_log c'.
Proof.
  intros HT Hs. induction Hs as [c|c1 c2 c3 Hs _ IH]; intros Hok Hrun; [by split|].
  destruct (store_step_ok id log0 c1 c2 HT Hs Hok Hrun) as (Hok2 & Hrun2 & Hp).
  destruct (IH Hok2 Hrun2) as (? & ? & ?). split_and!; [done..|by etransitivity].
Qed.

(** C2: the store is linearizable.  Clients load in two reads, racing, and commit later,
    under any driver failures, the batches they commit storable and divided by no
    snapshot boundary; between their steps runs whatever leaves this stream alone, and
    compaction: at any time if the entity retains its history, and past no client in
    flight if it compacts.  Then the log only grows, it is exactly what the accepted
    commands produce when they run one after the other in the order of their commits,
    each against the state its predecessors left, the database keeps holding it, and
    what any client read is the state after a prefix of it. *)
Theorem store_linearizable id c c' :
  T <> JOB_AGGREGATE_TYPE -> rtc (store_step id) c c' -> config_ok id c -> cf_accepted c = [] ->
  config_ok id c' /\ run_from (cf_log c) (cf_accepted c') (cf_log c') /\ cf_log c `prefix_of` cf_log c'.
Proof.
  intros HT Hs Hok Hnil. apply (store_steps_ok id (cf_log c) c c' HT Hs Hok). rewrite Hnil. constructor.
Qed.
End store_history.
