(* ===== verification/Queries.v ===== *)
(** * Queries over stores and projections

    Models the read side of src/crates/event-sorcery/src/lib.rs ([load_all_ids],
    [load_ids_paginated], [count_aggregates]) and of
    src/crates/event-sorcery/src/projection.rs ([Projection::load], [load_all],
    [filter], [parse_rows], [validate_column]).

    SQLite compares text byte by byte, which is [String.le].  The rowids it gives the
    rows of a table, and the order in which it returns ids of the same [MAX(latest_rowid)],
    are its own ([RowIds]).  The generated columns of a view table belong to its migration: a
    column is a function of the row. *)

From S2P Require Import Prelude Json Sqlite EventTable Lifecycle Schema Job Engine EngineProps.
From S2P Require Import ViewRepository Repository SqliteEs SchemaRecovery Reactor Projection Startup.

(** ** Aggregate ids *)

Inductive LoadAllIdsError : Type :=
| IdsSql (e : SqlxError)
| InvalidIds (aggregate_type : string) (ids : list string)
| NumericConversion (e : TryFromIntError).

Definition event_ids (t : string) (db : Db) : list string :=
  row_aggregate_id <$> filter (fun r => row_aggregate_type r = t) (db_events db).
Definition snapshot_ids (t : string) (db : Db) : list string :=
  snd ∘ fst <$> filter (fun kv => kv.1.1 = t) (map_to_list (db_snapshots db)).

(** [... UNION ... ORDER BY aggregate_id ASC]. *)
Definition union_ids (t : string) (db : Db) : list string :=
  merge_sort String.le (remove_dups (event_ids t db ++ snapshot_ids t db)).

(** *** The paginated query *)

(** What SQLite keeps beside the rows: their rowids, and a rank that breaks ties. *)
Class RowIds := {
  event_rowid : Db -> StoredEventRow -> Z;
  snapshot_rowid : Db -> string * string -> Z;
  tie_rank : Db -> string -> Z;
}.

(** [MAX], of a group that has a row. *)
Definition maximum (l : list Z) : Z :=
  match l with [] => 0%Z | n :: l => fold_left Z.max l n end.

(** The rows of one group. *)
Definition group_of (rows : list (string * Z)) (id : string) : list Z :=
  snd <$> filter (fun x => x.1 = id) rows.

(** [SELECT aggregate_id, MAX(n) ... GROUP BY aggregate_id]. *)
Definition group_max (rows : list (string * Z)) : list (string * Z) :=
  (fun id => (id, maximum (group_of rows id))) <$> remove_dups (fst <$> rows).

Section rowids.
Context `{RowIds} (t : string) (db : Db).

(** [SELECT aggregate_id, rowid FROM events WHERE aggregate_type = ?1]. *)
Definition event_rowids : list (string * Z) :=
  (fun r => (row_aggregate_id r, event_rowid db r)) <$> filter (fun r => row_aggregate_type r = t) (db_events db).

(** [SELECT aggregate_id, rowid FROM snapshots WHERE aggregate_type = ?1]. *)
Definition snapshot_rowids : list (string * Z) :=
  (fun kv => (kv.1.2, snapshot_rowid db kv.1)) <$> filter (fun kv => kv.1.1 = t) (map_to_list (db_snapshots db)).

(** The groups of the [UNION ALL] of both tables' groups, by [MAX(latest_rowid)]. *)
Definition id_groups : list (string * Z) := group_max (group_max event_rowids ++ group_max snapshot_rowids).

(** [ORDER BY MAX(latest_rowid) DESC]. *)
Definition newer (x y : string * Z) : Prop :=
  (y.2 < x.2 \/ y.2 = x.2 /\ tie_rank db x.1 <= tie_rank db y.1)%Z.

#[export] Instance newer_dec x y : Decision (newer x y).
Proof. unfold newer. apply _. Defined.
#[export] Instance newer_trans : Transitive newer.
Proof. unfold newer. intros x y z. lia. Qed.
#[export] Instance newer_total : Total newer.
Proof. unfold newer. intros x y. lia. Qed.

Definition scan_ids : list string := fst <$> merge_sort newer id_groups.

(** The greatest rowid among the events and the snapshot of an aggregate. *)
Definition latest_rowid (id : string) : Z := maximum (group_of (event_rowids ++ snapshot_rowids) id).
End rowids.

Section ids.
Context {Id : Type} (parse : string -> option Id) (aggregate_type : string).

(** The fold that separates the ids that parse from those that do not. *)
Definition split_ids (rows : list string) : list Id * list string :=
  fold_left (fun '(ids, invalid) id_str =>
               match parse id_str with
               | Some id => (ids ++ [id], invalid)
               | None => (ids, invalid ++ [id_str])
               end) rows ([], []).

Definition parse_ids (rows : list string) : result LoadAllIdsError (list Id) :=
  let '(ids, invalid) := split_ids rows in
  if (length invalid =? 0)%nat then Ok ids else Err (InvalidIds aggregate_type invalid).

Definition load_all_ids : M LoadAllIdsError (list Id) :=
  rows ← lift_err IdsSql (query (union_ids aggregate_type));
  lift (parse_ids rows).

Definition load_ids_paginated `{RowIds} (limit offset : Z) : M LoadAllIdsError (list Id) :=
  limit ← lift (map_err NumericConversion (i64_try_from limit));
  offset ← lift (map_err NumericConversion (i64_try_from offset));
  rows ← lift_err IdsSql (query (fun db => take (Z.to_nat limit) (drop (Z.to_nat offset) (scan_ids aggregate_type db))));
  lift (parse_ids rows).

Definition count_aggregates : M LoadAllIdsError Z :=
  count ← lift_err IdsSql (query (fun db => Z.of_nat (length (union_ids aggregate_type db))));
  lift (map_err NumericConversion (usize_try_from count)).
End ids.

(** ** Projections *)

(** The variants of [ProjectionError] that only queries raise. *)
Inductive QueryError (Failure : Type) : Type :=
| QueryProjection (e : ProjectionError)
| QueryLifecycle (e : Failure)
| ColumnNotFound (column table : string)
| StaleColumn (column table : string) (row_count : Z).
Arguments QueryProjection {Failure}.
Arguments QueryLifecycle {Failure}.
Arguments ColumnNotFound {Failure}.
Arguments StaleColumn {Failure}.

Section projections.
Context `{SerdeJson}.
Context {Entity Event Command Error : Type} `{EventSourced Entity Event Command Error}.
Context `{Serde Entity, Serde Event, Serde Error}.
Context {Id : Type} (parse : string -> option Id) (id_to_string : Id -> string).
(** The columns of the view table. *)
Context {V : Type} `{EqDecision V} (table : string) (columns : gmap string (ViewRow -> option V)).
Abbreviation View := (Lifecycle Entity Event Error).
Abbreviation Failure := (QueryError (LifecycleError Entity Event Error)).

Definition projection_load (id : Id) : M Failure (option Entity) :=
  loaded ← lift_err (fun e => QueryProjection (PrPersistence e)) (load_view (V := View) table (id_to_string id));
  match loaded with
  | Some lifecycle => lift (map_err QueryLifecycle (into_result lifecycle))
  | None => mret None
  end.

(** [parse_rows]: rows that do not parse or are not live are left out. *)
Definition parse_row (row : string * string) : option (Id * Entity) :=
  let '(view_id, payload) := row in
  id ← parse view_id;
  match view_from_str (V := View) payload with
  | Ok (Live entity) => Some (id, entity)
  | _ => None
  end.
Definition parse_rows (rows : list (string * string)) : list (Id * Entity) := omap parse_row rows.

(** [SELECT view_id, payload ... WHERE keep ORDER BY view_id ASC]. *)
Definition view_rows (keep : ViewRow -> bool) (db : Db) : list (string * string) :=
  let ids := merge_sort String.le (map_to_list (view_table table db)).*1 in
  omap (fun id => row ← view_table table db !! id; if keep row then Some (id, view_payload row) else None) ids.

Definition projection_load_all : M Failure (list (Id * Entity)) :=
  rows ← lift_err (fun e => QueryProjection (PrSql e)) (query (view_rows (fun _ => true)));
  mret (parse_rows rows).

Definition validate_column (column : string) : M Failure (ViewRow -> option V) :=
  let sql {A} (m : M SqlxError A) : M Failure A := lift_err (fun e => QueryProjection (PrSql e)) m in
  found ← sql (query (fun _ => columns !! column));
  match found with
  | None => fail (ColumnNotFound column table)
  | Some value =>
      row_count ← sql (query (fun db => size (view_table table db)));
      if (0 <? row_count)%nat then
        non_null_count ← sql (query (fun db =>
          length (filter (fun kv => is_Some (value kv.2)) (map_to_list (view_table table db)))));
        if (non_null_count =? 0)%nat then fail (StaleColumn column table (Z.of_nat row_count)) else mret value
      else mret value
  end.

Definition projection_filter (column : string) (v : V) : M Failure (list (Id * Entity)) :=
  value ← validate_column column;
  rows ← lift_err (fun e => QueryProjection (PrSql e))
           (query (view_rows (fun row => bool_decide (value row = Some v))));
  mret (parse_rows rows).
End projections.

(** ** Enumerating aggregates *)

Lemma elem_of_event_ids t db id :
  id ∈ event_ids t db <-> exists r, r ∈ db_events db /\ row_aggregate_type r = t /\ row_aggregate_id r = id.
Proof.
  unfold event_ids. rewrite list_elem_of_fmap. split.
  - intros (r & -> & [Ht Hr]%list_elem_of_filter). eauto.
  - intros (r & Hr & Ht & <-). exists r. split; [done|]. by apply list_elem_of_filter.
Qed.

Lemma elem_of_snapshot_ids t db id : id ∈ snapshot_ids t db <-> is_Some (db_snapshots db !! (t, id)).
Proof.
  unfold snapshot_ids. rewrite list_elem_of_fmap. split.
  - intros ([[t' id'] s] & -> & [Ht Hm]%list_elem_of_filter). simpl in *. subst t'.
    exists s. by apply elem_of_map_to_list.
  - intros [s Hs]. exists ((t, id), s). split; [done|]. apply list_elem_of_filter. split; [done|]. by apply elem_of_map_to_list.
Qed.

Lemma union_ids_perm t db : union_ids t db ≡ₚ remove_dups (event_ids t db ++ snapshot_ids t db).
Proof. apply merge_sort_Permutation. Qed.

Lemma elem_of_union_ids t db id :
  id ∈ union_ids t db <->
  (exists r, r ∈ db_events db /\ row_aggregate_type r = t /\ row_aggregate_id r = id) \/ is_Some (db_snapshots db !! (t, id)).
Proof. by rewrite union_ids_perm, elem_of_remove_dups, elem_of_app, elem_of_event_ids, elem_of_snapshot_ids. Qed.

Lemma union_ids_nodup t db : NoDup (union_ids t db).
Proof. rewrite union_ids_perm. apply NoDup_remove_dups. Qed.

Lemma union_ids_sorted t db : StronglySorted String.le (union_ids t db).
Proof. apply (StronglySorted_merge_sort String.le). Qed.

(** Two databases that know the same ids enumerate the same list. *)
Lemma union_ids_ext t db db' :
  (forall id, id ∈ union_ids t db <-> id ∈ union_ids t db') -> union_ids t db = union_ids t db'.
Proof.
  intros Hid. apply (StronglySorted_unique String.le); [apply union_ids_sorted..|].
  apply NoDup_Permutation; [apply union_ids_nodup..|done].
Qed.

(** A compacted aggregate is still known by its snapshot. *)
Lemma union_ids_compacted t t' db :
  positive_sequences t db -> union_ids t (delete_covered t' db) = union_ids t db.
Proof.
  intros Hpos. apply union_ids_ext. intros id. rewrite !elem_of_union_ids.
  unfold delete_covered. cbn [db_events db_snapshots set_events]. split.
  - intros [(r & [_ Hr]%list_elem_of_filter & Hrow)|Hs]; [left; by exists r|by right].
  - intros [(r & Hr & Ht & Hi)|Hs]; [|by right].
    destruct (compactable t' db r) eqn:Hc; [|left; exists r; split_and!; [|done..]; by apply list_elem_of_filter].
    right. unfold compactable, covered in Hc. apply andb_true_iff in Hc as [_ Hc%Z.leb_le]. subst.
    destruct (db_snapshots db !! (row_aggregate_type r, row_aggregate_id r)) as [s|]; [done|]. simpl in Hc.
    unfold positive_sequences in Hpos. rewrite Forall_forall in Hpos. specialize (Hpos r Hr eq_refl). lia.
Qed.

(** *** Groups *)

Lemma maximum_spec l : l <> [] -> maximum l ∈ l /\ forall n, n ∈ l -> (n <= maximum l)%Z.
Proof.
  destruct l as [|n l]; [done|]. intros _. simpl. revert n. induction l as [|m l IH]; intros n; simpl.
  - split; [by left|]. intros k ->%list_elem_of_singleton. done.
  - destruct (IH (Z.max n m)) as [Hin Hmax]. split.
    + apply elem_of_cons in Hin as [Hin|Hin]; [|by do 2 right].
      rewrite Hin. destruct (Z.max_spec n m) as [[_ ->]|[_ ->]]; [right; left|left].
    + pose proof (Hmax (Z.max n m) ltac:(by left)) as Hnm.
      intros k [->|[->|Hk]%elem_of_cons]%elem_of_cons; [lia|lia|]. apply Hmax. by right.
Qed.

Lemma maximum_unique l n : n ∈ l -> (forall m, m ∈ l -> (m <= n)%Z) -> maximum l = n.
Proof.
  intros Hin Hn. destruct (maximum_spec l) as [Hm Hmax]; [by destruct l; [apply not_elem_of_nil in Hin|]|].
  specialize (Hn _ Hm). specialize (Hmax _ Hin). lia.
Qed.

Lemma elem_of_group rows id n : n ∈ group_of rows id <-> (id, n) ∈ rows.
Proof.
  unfold group_of. rewrite list_elem_of_fmap. split.
  - by intros ([id' n'] & -> & [<- Hx]%list_elem_of_filter).
  - intros Hx. exists (id, n). by rewrite list_elem_of_filter.
Qed.

Lemma group_max_ids rows : (group_max rows).*1 = remove_dups rows.*1.
Proof. unfold group_max. rewrite <-list_fmap_compose. apply list_fmap_id. Qed.

(** The maximum of a group is one of its rows, and none is greater. *)
Lemma elem_of_group_max rows id n :
  (id, n) ∈ group_max rows <-> (id, n) ∈ rows /\ forall m, (id, m) ∈ rows -> (m <= n)%Z.
Proof.
  unfold group_max. rewrite list_elem_of_fmap. split.
  - intros (id' & [= <- ->] & Hid). rewrite elem_of_remove_dups in Hid. apply list_elem_of_fmap in Hid as ([id' k] & -> & Hk).
    destruct (maximum_spec (group_of rows id')) as [Hm Hmax].
    { apply elem_of_group in Hk. by destruct (group_of rows id'); [apply not_elem_of_nil in Hk|]. }
    split; [by apply elem_of_group|]. intros m Hm'. apply Hmax. by apply elem_of_group.
  - intros [Hin Hn]. exists id. split.
    + f_equal. symmetry. apply maximum_unique; [by apply elem_of_group|]. intros m Hm%elem_of_group. by apply Hn.
    + apply elem_of_remove_dups, list_elem_of_fmap. by exists (id, n).
Qed.

Section scan.
Context `{RowIds} (t : string) (db : Db).

(** The maximum over both tables is the maximum of their maxima. *)
Lemma id_groups_latest id n : (id, n) ∈ id_groups t db -> n = latest_rowid t db id.
Proof.
  unfold id_groups. rewrite elem_of_group_max. intros [Hin Hmax]. symmetry. apply maximum_unique.
  - apply elem_of_group, elem_of_app. rewrite elem_of_app, !elem_of_group_max in Hin. tauto.
  - intros m Hm%elem_of_group.
    assert (exists k, (m <= k)%Z /\ (id, k) ∈ group_max (event_rowids t db) ++ group_max (snapshot_rowids t db))
      as (k & Hk & Hkin); [|specialize (Hmax k Hkin); lia].
    assert (forall rows, (id, m) ∈ rows -> exists k, (m <= k)%Z /\ (id, k) ∈ group_max rows) as Hgroup.
    { intros rows Hr. exists (maximum (group_of rows id)). apply elem_of_group in Hr.
      destruct (maximum_spec (group_of rows id)) as [Hi Hx]; [by destruct (group_of rows id); [apply not_elem_of_nil in Hr|]|].
      split; [by apply Hx|]. apply elem_of_group_max. split; [by apply elem_of_group|].
      intros j Hj. apply Hx. by apply elem_of_group. }
    apply elem_of_app in Hm as [Hm|Hm]; destruct (Hgroup _ Hm) as (k & ? & ?); exists k; (split; [done|]);
      apply elem_of_app; auto.
Qed.

Lemma scan_ids_perm : scan_ids t db ≡ₚ union_ids t db.
Proof.
  unfold scan_ids. rewrite merge_sort_Permutation. unfold id_groups. rewrite group_max_ids.
  apply NoDup_Permutation; [apply NoDup_remove_dups|apply union_ids_nodup|]. intros id.
  rewrite elem_of_remove_dups, fmap_app, !group_max_ids, elem_of_app, !elem_of_remove_dups.
  rewrite union_ids_perm, elem_of_remove_dups, elem_of_app. unfold event_rowids, snapshot_rowids, event_ids, snapshot_ids.
  by rewrite <-!list_fmap_compose.
Qed.

Lemma scan_ids_newest :
  StronglySorted (fun a b => (latest_rowid t db b <= latest_rowid t db a)%Z) (scan_ids t db).
Proof.
  unfold scan_ids.
  assert (Forall (fun x => x.2 = latest_rowid t db x.1) (merge_sort (newer db) (id_groups t db))) as Hl.
  { rewrite merge_sort_Permutation. apply Forall_forall. intros [id n]. apply id_groups_latest. }
  pose proof (StronglySorted_merge_sort (newer db) (id_groups t db)) as Hs.
  induction Hs as [|x l Hs IH Hx]; [constructor|]. apply Forall_cons in Hl as [Hx2 Hl]. cbn [fmap list_fmap].
  constructor; [by apply IH|]. apply Forall_forall. intros b (y & -> & Hy)%list_elem_of_fmap.
  rewrite Forall_forall in Hx, Hl. specialize (Hx y Hy). specialize (Hl y Hy). rewrite <-Hx2, <-Hl.
  unfold newer in Hx. lia.
Qed.
End scan.

Section ids_props.
Context {Id : Type} (parse : string -> option Id) (t : string).

Lemma split_ids_spec rows :
  split_ids parse rows = (omap parse rows, filter (fun s => parse s = None) rows).
Proof.
  unfold split_ids.
  assert (forall ids invalid, fold_left (fun '(ids, invalid) id_str =>
            match parse id_str with Some id => (ids ++ [id], invalid) | None => (ids, invalid ++ [id_str]) end)
            rows (ids, invalid) = (ids ++ omap parse rows, invalid ++ filter (fun s => parse s = None) rows)) as Hgen;
    [|by rewrite Hgen].
  induction rows as [|s rows IH]; intros ids invalid; cbn [fold_left omap list_omap].
  { by rewrite !app_nil_r. }
  rewrite filter_cons. destruct (parse s) as [id|]; rewrite IH, <-(assoc_L (++)); case_decide; done.
Qed.

Lemma parse_ids_spec rows :
  parse_ids parse t rows =
    match filter (fun s => parse s = None) rows with
    | [] => Ok (omap parse rows)
    | invalid => Err (InvalidIds t invalid)
    end.
Proof. unfold parse_ids. rewrite split_ids_spec. by destruct (filter _ rows). Qed.

Lemma parse_ids_Ok rows :
  Forall (fun s => is_Some (parse s)) rows -> parse_ids parse t rows = Ok (omap parse rows).
Proof.
  intros Hp. rewrite parse_ids_spec, list_filter_none; [done|]. intros s Hs. rewrite Forall_forall in Hp.
  destruct (Hp s Hs) as [id ->]. done.
Qed.

(** Reading page after page until an empty one. *)
Fixpoint all_pages `{RowIds} (fuel : nat) (limit offset : Z) : M LoadAllIdsError (list Id) :=
  match fuel with
  | 0 => mret []
  | S fuel =>
      page ← load_ids_paginated parse t limit offset;
      match page with
      | [] => mret []
      | _ => rest ← all_pages fuel limit (offset + limit); mret (page ++ rest)
      end
  end.

Lemma wp_load_ids_paginated `{RowIds} limit offset db :
  in_i64 limit = true -> in_i64 offset = true -> Forall (fun s => is_Some (parse s)) (scan_ids t db) ->
  wp false (load_ids_paginated parse t limit offset) db (fun r db' =>
    r = Ok (omap parse (take (Z.to_nat limit) (drop (Z.to_nat offset) (scan_ids t db)))) /\ db' = db).
Proof.
  intros Hl Ho Hp. unfold load_ids_paginated, i64_try_from. rewrite Hl, Ho. cbn [map_err].
  repeat first [wp_step; [done|]|wp_step]. cbn [map_err].
  rewrite parse_ids_Ok; [done|]. by apply Forall_take, Forall_drop.
Qed.

Lemma wp_all_pages `{RowIds} fuel limit offset db :
  (0 < limit)%Z -> (0 <= offset)%Z -> Forall (fun s => is_Some (parse s)) (scan_ids t db) ->
  (Z.of_nat (length (scan_ids t db)) + limit <= i64_max)%Z ->
  (offset <= Z.of_nat (length (scan_ids t db)) + limit)%Z ->
  length (scan_ids t db) < fuel + Z.to_nat offset ->
  wp false (all_pages fuel limit offset) db (fun r db' =>
    r = Ok (omap parse (drop (Z.to_nat offset) (scan_ids t db))) /\ db' = db).
Proof.
  intros Hl Ho Hp Hmax Hoff. revert offset Ho Hoff. induction fuel as [|fuel IH]; intros offset Ho Hoff Hf; cbn [all_pages].
  { wp_step. by rewrite drop_ge by lia. }
  wp_step. eapply wp_mono; [apply wp_load_ids_paginated; [range|range|done]|].
  intros r db' [-> ->]. set (rest := drop (Z.to_nat offset) (scan_ids t db)).
  assert (Forall (fun s => is_Some (parse s)) rest) as Hrest by by apply Forall_drop.
  destruct (decide (rest = [])) as [Hnil|Hne].
  { rewrite Hnil, take_nil. simpl. by wp_step. }
  assert (Z.to_nat offset < length (scan_ids t db)) as Hlt.
  { apply Nat.lt_nge. intros Hge. apply Hne. by apply drop_ge. }
  assert (exists id ids, omap parse (take (Z.to_nat limit) rest) = id :: ids) as (id & ids & Hpage).
  { destruct rest as [|s rest']; [done|]. destruct (Z.to_nat limit) as [|n] eqn:Hn; [lia|].
    apply Forall_cons in Hrest as [[id Hid] _]. cbn [take omap list_omap]. rewrite Hid. eauto. }
  rewrite Hpage. wp_step. eapply wp_mono; [apply IH; lia|]. intros r db' [-> ->]. wp_step. split; [|done].
  rewrite Z2Nat.inj_add by lia. rewrite <-drop_drop, <-Hpage. fold rest. by rewrite <-omap_app, take_drop.
Qed.

(** The pages of every size, read until one is empty, answer each of the ids exactly
    once, by the latest rowid of an aggregate, in decreasing order. *)
Definition pages_answer `{RowIds} (ids : list string) (fuel : nat) (limit : Z) (db : Db) : Prop :=
  exists order, order ≡ₚ ids /\
    StronglySorted (fun a b => (latest_rowid t db b <= latest_rowid t db a)%Z) order /\
    run (all_pages fuel limit 0) db = (Ok (omap parse order), db).

(** C36: enumerating the aggregates of a type is exact, paged or not, and survives
    compaction.  The ids are exactly those with an event or a snapshot, each once and
    in byte order.  On the database, and on what compacting any type leaves of it,
    [count_aggregates] answers their number; [load_all_ids] answers all of them, or an
    error that names exactly the ids that do not parse; and if they parse, the pages of
    [load_ids_paginated] of any size, read until one is empty, answer each id exactly
    once, in decreasing order of the greatest rowid its events and its snapshot have. *)
Theorem ids_exact `{RowIds} db db' t' limit fuel :
  positive_sequences t db -> (0 < limit)%Z ->
  (Z.of_nat (length (union_ids t db)) + limit <= i64_max)%Z -> length (union_ids t db) < fuel ->
  db' = db \/ db' = delete_covered t' db ->
  let ids := union_ids t db in
  NoDup ids /\ StronglySorted String.le ids /\
  (forall id, id ∈ ids <->
     (exists r, r ∈ db_events db /\ row_aggregate_type r = t /\ row_aggregate_id r = id) \/ is_Some (db_snapshots db !! (t, id))) /\
  run (count_aggregates t) db' = (Ok (Z.of_nat (length ids)), db') /\
  run (load_all_ids parse t) db' =
    (match filter (fun s => parse s = None) ids with
     | [] => Ok (omap parse ids)
     | invalid => Err (InvalidIds t invalid)
     end, db') /\
  (Forall (fun s => is_Some (parse s)) ids -> pages_answer ids fuel limit db').
Proof.
  intros Hpos Hlim Hmax Hfuel Hdb ids.
  assert (union_ids t db' = ids) as Hids by (destruct Hdb as [->| ->]; [done|by apply union_ids_compacted]).
  split; [apply union_ids_nodup|]. split; [apply union_ids_sorted|]. split; [intros id; apply elem_of_union_ids|].
  split_and!.
  - apply wp_run_eq. unfold count_aggregates. repeat first [wp_step; [done|]|wp_step]. cbn [map_err mbind].
    rewrite Hids. unfold ids, usize_try_from. by replace (in_usize _) with true by (symmetry; range).
  - rewrite <-parse_ids_spec, <-Hids. apply wp_run_eq. unfold load_all_ids. repeat first [wp_step; [done|]|wp_step]. done.
  - intros Hp. exists (scan_ids t db'). pose proof (scan_ids_perm t db') as Hperm. rewrite Hids in Hperm. unfold ids in *.
    split_and!; [done|apply scan_ids_newest|].
    apply wp_run_eq. eapply wp_mono; [apply wp_all_pages|by intros r d [-> ->]]; rewrite ?Hperm; try done; lia.
Qed.
End ids_props.

(** ** Reading projections *)

Section projection_props.
Context `{SerdeJson}.
Context {Entity Event Command Error : Type} `{EventSourced Entity Event Command Error}.
Context `{Serde Entity, Serde Event, Serde Error}.
Context {Id : Type} (parse : string -> option Id) (id_to_string : Id -> string).
Context {V : Type} `{EqDecision V} (table : string) (columns : gmap string (ViewRow -> option V)).
(** Ids print to the text they parse from. *)
Context (Hid : forall s id, parse s = Some id <-> s = id_to_string id).
Abbreviation View := (Lifecycle Entity Event Error).

Lemma elem_of_view_rows keep db id payload :
  (id, payload) ∈ view_rows table keep db <->
  exists row, view_table table db !! id = Some row /\ keep row = true /\ payload = view_payload row.
Proof.
  unfold view_rows. rewrite list_elem_of_omap. split.
  - intros (id' & _ & Hb). apply bind_Some in Hb as (row & Hrow & Hb). destruct (keep row) eqn:Hk; [|done].
    injection Hb as -> <-. eauto.
  - intros (row & Hrow & Hk & ->). exists id. split; [|by rewrite Hrow; simpl; rewrite Hk].
    rewrite merge_sort_Permutation. apply list_elem_of_fmap. exists (id, row). split; [done|]. by apply elem_of_map_to_list.
Qed.

Lemma elem_of_parse_rows keep db id (entity : Entity) :
  (id, entity) ∈ parse_rows (Event := Event) (Error := Error) parse (view_rows table keep db) <->
  exists row, view_table table db !! id_to_string id = Some row /\ keep row = true /\
    view_from_str (V := View) (view_payload row) = Ok (Live entity).
Proof.
  unfold parse_rows. rewrite list_elem_of_omap. split.
  - intros ([view_id payload] & Hrow & Hp). apply elem_of_view_rows in Hrow as (row & Hrow & Hk & ->).
    cbn [parse_row] in Hp. apply bind_Some in Hp as (id' & Hid' & Hp). apply Hid in Hid' as ->.
    destruct (view_from_str _) as [[| |]|] eqn:Hv; try done. injection Hp as -> ->. eauto.
  - intros (row & Hrow & Hk & Hv). exists (id_to_string id, view_payload row). split; [apply elem_of_view_rows; eauto|].
    cbn [parse_row]. rewrite (proj2 (Hid _ _) eq_refl). cbn [mbind option_bind]. by rewrite Hv.
Qed.

Lemma run_projection_load id db :
  run (projection_load (Entity := Entity) (Event := Event) (Error := Error) id_to_string table id) db =
    (match view_table table db !! id_to_string id with
     | None => Ok None
     | Some row => lifecycle ← map_err (fun e => QueryProjection (PrPersistence (DeserializationError e)))
                                 (view_from_str (V := View) (view_payload row));
                   map_err QueryLifecycle (into_result lifecycle)
     end, db).
Proof.
  apply wp_run_eq. unfold projection_load, load_view. repeat first [wp_step; [done|]|wp_step]. cbn [map_err].
  destruct (view_table table db !! id_to_string id) as [row|]; [|by wp_step].
  destruct (view_from_str (view_payload row)) as [l|e]; simpl; [by wp_step|done].
Qed.

(** No row has a value in the column. *)
Definition all_null (value : ViewRow -> option V) (db : Db) : bool :=
  (length (filter (fun kv => is_Some (value kv.2)) (map_to_list (view_table table db))) =? 0)%nat.

Lemma all_null_spec value db :
  all_null value db = true <-> forall id row, view_table table db !! id = Some row -> value row = None.
Proof.
  unfold all_null. rewrite Nat.eqb_eq, length_zero_iff_nil. split.
  - intros Hf id row Hrow. apply eq_None_not_Some. intros Hs.
    assert ((id, row) ∈ filter (fun kv => is_Some (value kv.2)) (map_to_list (view_table table db))) as Hin.
    { apply list_elem_of_filter. split; [done|]. by apply elem_of_map_to_list. }
    rewrite Hf in Hin. by apply not_elem_of_nil in Hin.
  - intros Hn. apply list_filter_none. intros [id row] Hin%elem_of_map_to_list. simpl. rewrite (Hn id row Hin). by intros [? ?].
Qed.

Lemma run_projection_filter db column v :
  run (projection_filter (Entity := Entity) (Event := Event) (Error := Error) parse table columns column v) db =
    (match columns !! column with
     | None => Err (ColumnNotFound column table)
     | Some value =>
         if (0 <? size (view_table table db))%nat && all_null value db
         then Err (StaleColumn column table (Z.of_nat (size (view_table table db))))
         else Ok (parse_rows (Event := Event) (Error := Error) parse (view_rows table (fun row => bool_decide (value row = Some v)) db))
     end, db).
Proof.
  apply wp_run_eq. unfold projection_filter, validate_column, all_null. cbv zeta. repeat first [wp_step; [done|]|wp_step].
  cbn [map_err]. destruct (columns !! column) as [value|]; [|by wp_step].
  repeat first [wp_step; [done|]|wp_step]. cbn [map_err].
  destruct (0 <? size (view_table table db))%nat; cbn [andb].
  - repeat first [wp_step; [done|]|wp_step]. cbn [map_err].
    destruct (_ =? 0)%nat; [by wp_step|]. repeat first [wp_step; [done|]|wp_step]. cbn [map_err]. by wp_step.
  - repeat first [wp_step; [done|]|wp_step]. cbn [map_err]. by wp_step.
Qed.

(** The ways of reading a projection agree.  [load_all] answers exactly the live
    entities, each as [load] answers it by id; [filter] answers exactly those of them
    whose row has the value in the column.  A column that the table lacks, or that is
    null in every row of a nonempty table, is refused instead. *)
Theorem projection_reads_agree db column v :
  exists all,
    run (projection_load_all (Entity := Entity) (Event := Event) (Error := Error) parse table) db = (Ok all, db) /\
    (forall id entity, (id, entity) ∈ all <->
       run (projection_load (Entity := Entity) (Event := Event) (Error := Error) id_to_string table id) db = (Ok (Some entity), db)) /\
    match run (projection_filter (Entity := Entity) (Event := Event) (Error := Error) parse table columns column v) db with
    | (Ok some, db') => db' = db /\ exists value, columns !! column = Some value /\
        forall id entity, (id, entity) ∈ some <-> (id, entity) ∈ all /\
          exists row, view_table table db !! id_to_string id = Some row /\ value row = Some v
    | (Err e, db') => db' = db /\
        (e = ColumnNotFound column table /\ columns !! column = None \/
         e = StaleColumn column table (Z.of_nat (size (view_table table db))) /\ view_table table db <> ∅ /\
         exists value, columns !! column = Some value /\
           forall id row, view_table table db !! id = Some row -> value row = None)
    end.
Proof.
  eexists. split; [apply wp_run_eq; unfold projection_load_all; repeat first [wp_step; [done|]|wp_step]; done|].
  split.
  { intros id entity. rewrite elem_of_parse_rows, run_projection_load. split.
    - intros (row & -> & _ & ->). done.
    - destruct (view_table table db !! id_to_string id) as [row|]; [|done]. intros Hl. exists row. split_and!; [done..|].
      destruct (view_from_str _) as [[| |]|]; try done. simpl in Hl. by injection Hl as ->. }
  rewrite run_projection_filter. destruct (columns !! column) as [value|]; [|split; [done|by left]].
  destruct (_ && _) eqn:Hnull.
  - apply andb_true_iff in Hnull as [Hsize%Nat.ltb_lt Hnull]. rewrite all_null_spec in Hnull.
    split; [done|]. right.
    split_and!; [done| |by exists value]. intros He. rewrite He, map_size_empty in Hsize. lia.
  - split; [done|]. exists value. split; [done|]. intros id entity. rewrite !elem_of_parse_rows. split.
    + intros (row & Hrow & Hk%bool_decide_eq_true & Hv). split; eauto.
    + intros [(row & Hrow & _ & Hv) (row' & Hrow' & Hk)]. rewrite Hrow in Hrow'. injection Hrow' as <-.
      exists row. by rewrite bool_decide_eq_true.
Qed.
End projection_props.
