(* ===== verification/StoreViews.v ===== *)
(** * A store with its projection

    A projected entity's store, as [StoreBuilder::build] wires it: each committed event is
    handed to the entity's own projection before [Store::send] returns
    (src/crates/event-sorcery/src/wire.rs, lifecycle.rs and projection.rs).
    [send_projects] composes the two: after a command the view holds the entity the
    store would load. *)

From S2P Require Import Prelude Json Sqlite EventTable Lifecycle Schema Job Engine EngineProps.
From S2P Require Import ViewRepository Repository SchemaRecovery Reactor Projection Startup.
From S2P Require Import Store StoreProps Queries.

(** A fault-free run leaves no faults. *)
Lemma wp_false_world {E A} (m : M E A) db Q :
  wp false m db Q -> exists r db', m (mkWorld db []) = (r, mkWorld db' []) /\ Q r db'.
Proof.
  intros Hw. specialize (Hw [] (fun _ => eq_refl)). destruct (m _) as [r [db' fs]]. destruct Hw as [Hf HQ].
  cbn in Hf. rewrite (Hf eq_refl). by exists r, db'.
Qed.

Section store_views.
Context `{SerdeJsonLaws, Chrono, Ulid}.
Context {Entity Event Command Error : Type} `{EventSourced Entity Event Command Error}.
Context `{Serde Entity, Serde Event, Serde Error}.
Context `{!CqrsEs Entity Event Error} `{!CqrsEsLaws}.
Context (config : EntityConfig) (event_type event_version : Event -> string).
Context (max_delay : Z) (clock : nat -> Z).
Context {Id : Type} (parse : string -> option Id) (id_to_string : Id -> string) (table : string).

Abbreviation Agg := (Lifecycle Entity Event Error).
Abbreviation T := (AGGREGATE_TYPE config).
Abbreviation inv := (store_inv config event_type event_version).
Abbreviation send_with := (store_send (Entity := Entity) (Event := Event) (Command := Command) (Error := Error)
  config event_type event_version max_delay clock).
Abbreviation query := (projection_query (Entity := Entity) (Event := Event) (Error := Error) parse id_to_string table).
Abbreviation react_ := (react (Entity := Entity) (Event := Event) (Error := Error) table).

(** The view row of a log folded to its end. *)
Definition view_row (log : list Event) (row : ViewRow) : Prop :=
  view_version row = Z.of_nat (length log) /\
  view_payload row = to_string (ser (replay (Uninitialized : Agg) log)).

Definition view_current (view_id : string) (log : list Event) (db : Db) : Prop :=
  match view_table table db !! view_id with
  | None => log = []
  | Some row => log <> [] /\ view_row log row
  end.

(** A state whose text reads back. *)
Definition view_ok (s : Agg) : Prop := portable (ser s) = true /\ de (ser s) = Some s.

Lemma view_text s : view_ok s -> view_from_str (to_string (ser s)) = Ok s.
Proof. intros [Hp Hd]. unfold view_from_str. rewrite from_str_to_string by done. cbn [mbind option_bind]. by rewrite Hd. Qed.

(** One reaction on a current view. *)
Lemma react_current view_id log e db :
  view_current view_id log db -> view_ok (replay Uninitialized log) ->
  (Z.of_nat (length log) + 1 <= i64_max)%Z ->
  exists db', (react_ view_id e (mkWorld db [])).2 = mkWorld db' [] /\ view_current view_id (log ++ [e]) db' /\
    db_events db' = db_events db /\ db_snapshots db' = db_snapshots db.
Proof.
  intros Hc Hok Hl. unfold react. generalize (Z.to_nat RETRY_MAX_ATTEMPTS) as remaining. intros remaining.
  set (l := replay (Uninitialized : Agg) log) in *.
  destruct (wp_false_world _ _ _ (wp_load_view (Entity := Entity) (Event := Event) (Error := Error) false table view_id db))
    as (r & db1 & Hload & -> & [Hr|[[=] _]]).
  assert (exists loaded, r = Ok loaded /\ default (Uninitialized, mkViewContext view_id 0) loaded =
    (l, mkViewContext view_id (Z.of_nat (length log)))) as (loaded & -> & Hd).
  { subst r. unfold view_current in Hc. destruct (view_table table db !! view_id) as [row|].
    - destruct Hc as [_ [-> ->]]. fold l. rewrite view_text by done. cbn. by eexists.
    - subst log. by eexists. }
  destruct (wp_false_world _ _ _ (wp_update_view false table (apply l e) (mkViewContext view_id (Z.of_nat (length log))) db))
    as (ru & db2 & Hup & Hpost).
  assert (ru = Ok ()) as ->.
  { unfold update_view in Hup. unfold view_current in Hc. cbn [ctx_version view_instance_id] in Hup.
    destruct (Z.eqb_spec (Z.of_nat (length log)) 0) as [Hz|Hz].
    - destruct (view_table table db !! view_id) as [row|] eqn:Hrow; [destruct log; [by destruct Hc as [? _]|cbn in Hz; lia]|].
      unfold lift_err, statement, insert_view in Hup. cbn in Hup. rewrite Hrow in Hup. cbn in Hup. by injection Hup as <- _.
    - destruct (view_table table db !! view_id) as [row|] eqn:Hrow; [|by subst log].
      destruct Hc as [_ [Hv _]]. unfold mbind, M_bind, lift_err, statement, update_view_row in Hup. cbn in Hup.
      rewrite Hrow, Hv, Z.eqb_refl in Hup. cbn in Hup. by injection Hup as <- _. }
  exists db2. split.
  { destruct remaining; cbn [react_loop]; rewrite Hload, Hd, Hup; done. }
  assert (exists lease, db2 = set_view table view_id
    (mkViewRow (i64_add (Z.of_nat (length log)) 1) (to_string (ser (apply l e))) lease) db) as [lease ->].
  { cbn in Hpost. destruct Hpost as [(_ & _ & ->)|(old & _ & _ & ->)]; by eexists. }
  split_and!; [|done..]. unfold view_current, set_view, view_table. cbn. rewrite lookup_insert_eq. cbn.
  rewrite lookup_insert_eq. split; [by destruct log|]. unfold view_row. cbn. rewrite i64_add_small by range.
  rewrite length_app, replay_app. split; [cbn; lia|done].
Qed.

(** The query applies the whole batch. *)
Lemma query_current id log events db :
  parse (id_to_string id) = Some id ->
  view_current (id_to_string id) log db ->
  (forall k, view_ok (replay Uninitialized (log ++ take k events))) ->
  (Z.of_nat (length log + length events) <= i64_max)%Z ->
  exists db', query (id_to_string id) events (mkWorld db []) = mkWorld db' [] /\
    view_current (id_to_string id) (log ++ events) db' /\
    db_events db' = db_events db /\ db_snapshots db' = db_snapshots db.
Proof.
  intros Hparse. unfold projection_query, bridge_dispatch. rewrite Hparse. revert log db.
  induction events as [|e events IH]; intros log db Hc Hok Hl; cbn [length] in Hl.
  { exists db. by rewrite app_nil_r. }
  pose proof (Hok 0) as Hok0. cbn [take] in Hok0. rewrite app_nil_r in Hok0.
  destruct (react_current (id_to_string id) log e db Hc Hok0) as (db1 & Hr & Hc1 & He1 & Hs1); [lia|].
  destruct (IH (log ++ [e]) db1 Hc1) as (db2 & Hq & Hc2 & He2 & Hs2).
  { intros k. specialize (Hok (S k)). cbn [take] in Hok. by rewrite <-(assoc_L (++)). }
  { rewrite length_app. cbn. lia. }
  exists db2. rewrite <-(assoc_L (++)) in Hc2. cbn [dispatch_events reactor_react projection_reactor fst snd].
  rewrite Hr. destruct (dispatch_events _ events (mkWorld db1 [])) as [errors w2] eqn:Hd. cbn [snd] in *.
  split_and!; [exact Hq|exact Hc2|by etransitivity..].
Qed.

(** A commit to a stream leaves the views alone, but for [job_queue]. *)
Lemma committed_views request db :
  table <> JOB_QUEUE -> view_table table (committed request db) = view_table table db.
Proof.
  intros Ht. unfold committed.
  assert (forall jobs d, view_table table (jobs_flushed jobs d) = view_table table d) as Hj.
  { induction jobs as [|j jobs IH]; intros d; [done|]. cbn [jobs_flushed fold_left].
    fold (jobs_flushed jobs (job_flushed j d)). rewrite IH. unfold job_flushed, set_view, set_view_table, view_table at 1.
    cbn. by rewrite lookup_insert_ne. }
  rewrite Hj. unfold snapshot_written. by repeat case_match.
Qed.

Lemma wp_send_with id log floor command events pending db :
  T <> JOB_AGGREGATE_TYPE -> table <> JOB_QUEUE -> parse (id_to_string id) = Some id ->
  inv (id_to_string id) log floor db -> view_current (id_to_string id) log db ->
  handle (replay Uninitialized log) command (Some []) = (Ok events, pending) ->
  jobs_fit max_delay clock pending db -> roomy config (id_to_string id) log events db ->
  storable (replay Uninitialized log) events -> undivided (SNAPSHOT_SIZE config) events ->
  (forall k, view_ok (replay Uninitialized (log ++ take k events))) ->
  wp false (send_with [query] (id_to_string id) command) db (fun r db' => r = Ok (Some ()) /\
    inv (id_to_string id) (log ++ events) floor db' /\ view_current (id_to_string id) (log ++ events) db').
Proof.
  intros HT Htab Hparse Hinv Hc Hh Hjobs Hroom Hsto Hwhole Hview. unfold store_send. wp_step.
  eapply wp_mono; [by eapply wp_load_aggregate|]. intros [context|e] db0 [-> Hctx]; [|done].
  destruct Hctx as [Hst Hver].
  destruct (execute_accepts config event_type event_version max_delay clock _ _ _ _ _ _ _ _ Hinv Hst Hver Hh (or_intror HT) Hjobs Hroom)
    as (m & Hm & Hok). rewrite Hm. wp_step.
  eapply wp_mono; [eapply wp_and; [exact Hok|eapply wp_execute_in; [exact Hst|exact Hm]]|].
  intros r db1 [-> (events' & pending' & Hh' & Hdb)]. pose proof Hst as (Ha & _).
  rewrite state_after_all in Hh' by done. rewrite Hh in Hh'. injection Hh' as <- <-.
  assert (inv (id_to_string id) (log ++ events) floor db1 /\ view_table table db1 = view_table table db) as [Hinv1 Hv1].
  { destruct events as [|e events]; [rewrite Hdb, app_nil_r; by split|].
    destruct Hdb as (prepared & _ & Hacc & ->). split; [|by apply committed_views].
    eapply inv_committed; try done; [by left|by apply handle_accepts in Hh|].
    by eapply update_for_ok. }
  assert (view_current (id_to_string id) log db1) as Hc1 by (unfold view_current in *; by rewrite Hv1).
  unfold notify. rewrite Ha, state_after_all, Hh by done. intros fs Hfs. rewrite (Hfs eq_refl).
  destruct events as [|e events]; [rewrite !app_nil_r in *; by split_and!|]. cbn [run_queries w_faults w_db].
  destruct Hroom as [Hl _].
  destruct (query_current id log (e :: events) db1 Hparse Hc1 Hview) as (db2 & -> & Hc2 & He2 & Hs2); [lia|].
  split; [done|]. split; [done|]. split; [|exact Hc2]. cbn [w_db].
  eapply inv_reframed; [exact Hinv1|exact He2|exact Hs2].
Qed.

Lemma projection_load_current id log db :
  view_current (id_to_string id) log db -> view_ok (replay Uninitialized log) ->
  (run (projection_load (Entity := Entity) (Event := Event) (Error := Error) id_to_string table id) db).1 =
    map_err QueryLifecycle (into_result (replay (Uninitialized : Agg) log)).
Proof.
  intros Hc Hok. unfold view_current in Hc.
  apply (wp_run _ _ (fun r _ => r = map_err QueryLifecycle (into_result (replay (Uninitialized : Agg) log)))).
  unfold projection_load, load_view. repeat wp_step; [done|]. cbn [map_err].
  destruct (view_table table db !! id_to_string id) as [row|].
  - destruct Hc as [_ [_ ->]]. wp_step. rewrite view_text by done. cbn. by repeat wp_step.
  - subst log. by repeat wp_step.
Qed.

(** C18: a projected entity reads its own writes.  Take a store whose database holds the
    log and whose view is current, and a command the entity accepts.  With no driver
    failure, and if there is room for the batch and the jobs it dispatches, its values
    are storable and no snapshot boundary divides it, the command succeeds, its batch
    becomes the end of the log, and the view is current again: [Projection::load] then
    answers what [Store::load] does, the fold of the extended log. *)
Theorem send_projects id log floor command events pending db :
  T <> JOB_AGGREGATE_TYPE -> table <> JOB_QUEUE -> parse (id_to_string id) = Some id ->
  inv (id_to_string id) log floor db -> view_current (id_to_string id) log db ->
  handle (replay Uninitialized log) command (Some []) = (Ok events, pending) ->
  jobs_fit max_delay clock pending db -> roomy config (id_to_string id) log events db ->
  storable (replay Uninitialized log) events -> undivided (SNAPSHOT_SIZE config) events ->
  (forall k, view_ok (replay Uninitialized (log ++ take k events))) ->
  exists db', run (send_with [query] (id_to_string id) command) db = (Ok (Some ()), db') /\
    inv (id_to_string id) (log ++ events) floor db' /\ view_current (id_to_string id) (log ++ events) db' /\
    let entity := into_result (replay (Uninitialized : Agg) (log ++ events)) in
    (run (projection_load (Entity := Entity) (Event := Event) (Error := Error) id_to_string table id) db').1 =
      map_err QueryLifecycle entity /\
    (run (store_load (Entity := Entity) (Event := Event) (Error := Error) config (id_to_string id)) db').1 = map_err send_error_of_lifecycle entity.
Proof.
  intros HT Htab Hparse Hinv Hc Hh Hjobs Hroom Hsto Hwhole Hview.
  destruct (wp_run _ _ _ (wp_send_with id log floor command events pending db HT Htab Hparse Hinv Hc Hh Hjobs Hroom Hsto Hwhole Hview))
    as (Hr & Hinv' & Hc').
  exists (run (send_with [query] (id_to_string id) command) db).2.
  split; [rewrite <-Hr; by destruct (run _ db)|]. split; [done|]. split; [done|]. cbv zeta. split.
  - specialize (Hview (length events)). rewrite take_ge in Hview by done.
    by apply projection_load_current.
  - pose proof (wp_run _ _ _ (wp_store_load config event_type event_version false _ _ _ _ Hinv')) as [_ Hl].
    destruct (run (store_load config _) _) as [[entity|e] ?]; cbn in *; [by rewrite Hl|done].
Qed.
End store_views.
