(* ===== verification/ViewBackend.v ===== *)
(** * View backends and projections over them

    Models src/crates/event-sorcery/src/view_backend.rs and the parts of
    src/crates/event-sorcery/src/projection.rs that run over any backend: the
    projection as a value ([Projection], [projection_sqlite], [projection_new],
    [sqlite_backing]) with its operations as methods, and [react] as the steps
    another reaction may interleave with.

    A backend chooses the repository of a projection's views: [ViewRepo] has its
    operations, [ViewRepoLaws] what a reaction relies on, and the SQLite repository of
    [ViewRepository] keeps them.  The crate's in-memory test double does not: its update
    takes no lock ([in_memory_repo]).

    One call of a repository is one step; the sleeps between attempts touch
    nothing. *)

From S2P Require Import Prelude Json Sqlite EventTable Lifecycle Job Engine EngineProps.
From S2P Require Import ViewRepository Reactor Projection Queries StoreViews.

(** ** The interface *)

(** A handle [R] to a repository of views [V] kept in [S]. *)
Class ViewRepo (R V S : Type) := {
  repo_load : R -> string -> S -> result PersistenceError (option V) * S;
  repo_load_with_context : R -> string -> S ->
    result PersistenceError (option (V * ViewContext)) * S;
  repo_update_view : R -> V -> ViewContext -> S -> result PersistenceError () * S;
  repo_find : R -> Predicate -> option Order -> Z -> S ->
    result PersistenceError (list string) * S;
}.

(** [repo_stored] is what a repository holds of a view and its version, [None] where it
    cannot be read; [repo_storable] is a view whose stored form reads back. *)
Class ViewRepoLaws (R V S : Type) `{ViewRepo R V S} := {
  repo_storable : V -> Prop;
  repo_stored : R -> string -> S -> option (option (V * Z));
  repo_load_reads r id s loaded s' :
    repo_load_with_context r id s = (Ok loaded, s') ->
    repo_stored r id s = Some ((fun p => (p.1, ctx_version p.2)) <$> loaded) /\
    (forall p, loaded = Some p -> view_instance_id p.2 = id);
  repo_load_keeps r id s id' :
    repo_stored r id' (repo_load_with_context r id s).2 = repo_stored r id' s;
  repo_update_fails r v c s e s' id :
    repo_update_view r v c s = (Err e, s') -> repo_stored r id s' = repo_stored r id s;
  repo_update_stores r v c s s' :
    repo_storable v -> repo_update_view r v c s = (Ok (), s') ->
    repo_stored r (view_instance_id c) s' = Some (Some (v, i64_add (ctx_version c) 1));
  repo_update_frame r v c s s' id :
    repo_update_view r v c s = (Ok (), s') -> id <> view_instance_id c ->
    repo_stored r id s' = repo_stored r id s;
  repo_update_locks r v c s s' held :
    repo_update_view r v c s = (Ok (), s') ->
    repo_stored r (view_instance_id c) s = Some held -> ctx_version c = from_option snd 0%Z held;
}.

(** ** Projections *)

(** The pool is the database of the world. *)
Inductive SqlitePool : Type := the_pool.

(** [Table] and [Column] are names; both print as they are. *)
Inductive Table : Type := mkTable (name : string).
Inductive Column : Type := mkColumn (name : string).
Definition table_fmt (t : Table) : string := let '(mkTable name) := t in name.
Definition column_fmt (c : Column) : string := let '(mkColumn name) := c in name.

(** [SqliteViewRepository]: the pool and the name of the view's table. *)
Record SqliteViewRepository : Type := mkSqliteViewRepository {
  repo_pool : SqlitePool;
  repo_table : string;
}.

Record Projection (R : Type) : Type := mkProjection {
  repo : R;
  pool : option SqlitePool;
  table_name : option string;
}.
Arguments mkProjection {R}.
Arguments repo {R}.
Arguments pool {R}.
Arguments table_name {R}.

Definition projection_sqlite (pool : SqlitePool) (PROJECTION : Table) : Projection SqliteViewRepository :=
  let '(mkTable table) := PROJECTION in
  mkProjection (mkSqliteViewRepository pool table) (Some pool) (Some table).

Definition projection_new {R} (repo : R) : Projection R := mkProjection repo None None.

Definition projection_clone {R} (self : Projection R) : Projection R :=
  mkProjection (repo self) (pool self) (table_name self).

Definition sqlite_backing {R} (self : Projection R) : result ProjectionError (SqlitePool * string) :=
  pool ← ok_or NotSqliteBacked (pool self);
  table ← ok_or NotSqliteBacked (table_name self);
  Ok (pool, table).

(** The projections of SQLite repositories that the crate constructs. *)
Definition constructed (self : Projection SqliteViewRepository) : Prop :=
  (exists pool table, self = projection_sqlite pool table) \/
  (exists repo, self = projection_new repo).

Section backend.
Context `{SerdeJson}.
Context {Entity Event Command Error : Type} `{EventSourced Entity Event Command Error}.
Context `{Serde Entity, Serde Event, Serde Error}.
Context {Id : Type} (parse : string -> option Id) (id_to_string : Id -> string).
Abbreviation View := (Lifecycle Entity Event Error).
Abbreviation Failure := (QueryError (LifecycleError Entity Event Error)).

(** *** Over SQLite *)

Section sqlite.
Context {V : Type} `{EqDecision V} (columns : gmap string (ViewRow -> option V)).
Context (aggregate_type : string).

Definition self_load_all (self : Projection SqliteViewRepository) : M Failure (list (Id * Entity)) :=
  '(_, table) ← lift (map_err QueryProjection (sqlite_backing self));
  projection_load_all (Event := Event) (Error := Error) parse table.

Definition self_filter (self : Projection SqliteViewRepository) (column : Column) (value : V) :
    M Failure (list (Id * Entity)) :=
  '(_, table) ← lift (map_err QueryProjection (sqlite_backing self));
  projection_filter (Event := Event) (Error := Error) parse table columns (column_fmt column) value.

(** The replay reads through [self.repo], of the same table in a projection that has
    one ([sqlite_backing_repo]). *)
Definition self_catch_up (self : Projection SqliteViewRepository) : M ProjectionError () :=
  '(_, table) ← lift (sqlite_backing self);
  catch_up (Entity := Entity) (Event := Event) (Error := Error) table aggregate_type.

Definition self_rebuild (self : Projection SqliteViewRepository) (id : Id) : M ProjectionError () :=
  '(_, table) ← lift (sqlite_backing self);
  rebuild (Entity := Entity) (Event := Event) (Error := Error) table aggregate_type (id_to_string id).

Definition self_rebuild_all (self : Projection SqliteViewRepository) : M ProjectionError () :=
  '(_, table) ← lift (sqlite_backing self);
  rebuild_all (Entity := Entity) (Event := Event) (Error := Error) table aggregate_type.
End sqlite.

(** *** Over any backend *)

Section any.
Context {R S : Type} `{ViewRepo R View S}.

Definition self_load (self : Projection R) (id : Id) (s : S) : result Failure (option Entity) * S :=
  let '(loaded, s) := repo_load (repo self) (id_to_string id) s in
  (match loaded with
   | Ok (Some lifecycle) => map_err QueryLifecycle (into_result lifecycle)
   | Ok None => Ok None
   | Err error => Err (QueryProjection (PrPersistence error))
   end, s).

Definition self_find (self : Projection R) (predicate : Predicate) (order : option Order) (limit : Z)
    (s : S) : result Failure (list string) * S :=
  let '(found, s) := repo_find (repo self) predicate order limit s in
  (map_err (fun e => QueryProjection (PrPersistence e)) found, s).

(** Where a reaction stands: about to load with so many retries left, about to save the
    view it computed, or done. *)
Inductive ReactState : Type :=
| Loading (remaining : nat)
| Saving (remaining : nat) (lifecycle : View) (context : ViewContext)
| Finished (outcome : ReactOutcome).

(** [if attempt < max_retries]: another attempt, or the loss it ends in. *)
Definition retry_or (remaining : nat) (lost : ReactOutcome) : ReactState :=
  match remaining with 0 => Finished lost | Datatypes.S remaining => Loading remaining end.

Definition react_load (r : R) (view_id : string) (event : Event) (remaining : nat) (s : S) :
    ReactState * S :=
  let '(loaded, s) := repo_load_with_context r view_id s in
  (match loaded with
   | Ok loaded =>
       let '(lifecycle, context) := default (Uninitialized, mkViewContext view_id 0) loaded in
       Saving remaining (apply lifecycle event) context
   | Err error =>
       if is_retryable_sqlite_busy (persistence_node error) then retry_or remaining LoadLost
       else Finished LoadFailed
   end, s).

Definition react_save (r : R) (remaining : nat) (lifecycle : View) (context : ViewContext) (s : S) :
    ReactState * S :=
  let '(saved, s) := repo_update_view r lifecycle context s in
  (match saved with
   | Ok _ => Finished Reacted
   | Err OptimisticLockError => retry_or remaining UpdateLost
   | Err error =>
       if is_retryable_sqlite_busy (persistence_node error) then retry_or remaining UpdateLost
       else Finished SaveFailed
   end, s).

Definition react_step (r : R) (view_id : string) (event : Event) (at_ : ReactState) (s : S) :
    ReactState * S :=
  match at_ with
  | Loading remaining => react_load r view_id event remaining s
  | Saving remaining lifecycle context => react_save r remaining lifecycle context s
  | Finished _ => (at_, s)
  end.

(** So many steps without interference. *)
Fixpoint react_steps (n : nat) (r : R) (view_id : string) (event : Event) (at_ : ReactState) (s : S) :
    ReactState * S :=
  match n with
  | 0 => (at_, s)
  | Datatypes.S n =>
      let '(at_, s) := react_step r view_id event at_ s in react_steps n r view_id event at_ s
  end.

Definition react_start : ReactState := Loading (Z.to_nat RETRY_MAX_ATTEMPTS).

(** *** Reactions side by side *)

Record Reaction : Type := mkReaction {
  reaction_view : string;
  reaction_event : Event;
  reaction_at : ReactState;
}.

Definition begin_reaction (event : string * Event) : Reaction :=
  mkReaction event.1 event.2 react_start.

(** Reaction [i] takes its next step. *)
Definition interleave (r : R) (i : nat) (sys : list Reaction * S) : list Reaction * S :=
  let '(reactions, s) := sys in
  match reactions !! i with
  | None => sys
  | Some reaction =>
      let '(at_, s) :=
        react_step r (reaction_view reaction) (reaction_event reaction) (reaction_at reaction) s in
      (<[i := mkReaction (reaction_view reaction) (reaction_event reaction) at_]> reactions, s)
  end.

Definition interleaved (r : R) (schedule : list nat) (sys : list Reaction * S) : list Reaction * S :=
  fold_left (fun sys i => interleave r i sys) schedule sys.
End any.
End backend.

(** ** The SQLite backend *)

Section sqlite_repo.
Context `{SerdeJsonLaws, SqliteJson, TableScan} {V : Type} `{Serde V}.

(** [SqliteViewBackend]: the scan is that of the columns [ViewRepository] models. *)
#[export] Instance sqlite_repo : ViewRepo SqliteViewRepository V World := {|
  repo_load r := load_view (repo_table r);
  repo_load_with_context r := load_with_context (repo_table r);
  repo_update_view r := update_view (repo_table r);
  repo_find r := find (repo_table r);
|}.

Definition sqlite_stored (r : SqliteViewRepository) (id : string) (w : World) : option (option (V * Z)) :=
  match view_table (repo_table r) (w_db w) !! id with
  | None => Some None
  | Some row => (fun v => Some (v, view_version row)) <$> ok (view_from_str (view_payload row))
  end.

Definition reads_back (v : V) : Prop := portable (ser v) = true /\ de (ser v) = Some v.

Lemma reads_back_text v : reads_back v -> view_from_str (to_string (ser v)) = Ok v.
Proof. intros [Hp Hd]. unfold view_from_str. rewrite from_str_to_string by done. cbn. by rewrite Hd. Qed.

Lemma sqlite_stored_set r id id' row w w' :
  w_db w' = set_view (repo_table r) id row (w_db w) ->
  sqlite_stored r id' w' =
    if decide (id' = id) then (fun v => Some (v, view_version row)) <$> ok (view_from_str (view_payload row))
    else sqlite_stored r id' w.
Proof.
  unfold sqlite_stored. intros ->. unfold set_view. unfold view_table at 1. simpl.
  rewrite lookup_insert_eq. simpl. case_decide; [subst; by rewrite lookup_insert_eq|by rewrite lookup_insert_ne].
Qed.

#[export] Program Instance sqlite_repo_laws : ViewRepoLaws SqliteViewRepository V World := {|
  repo_storable := reads_back;
  repo_stored := sqlite_stored;
|}.
Next Obligation.
  intros r id w loaded w' Hl. pose proof (wp_world _ w _ (wp_load_with_context (V := V) true (repo_table r) id (w_db w))) as Hw.
  cbn in Hl. rewrite Hl in Hw. destruct Hw as [_ Hw]. specialize (Hw (or_intror eq_refl)).
  unfold sqlite_stored. destruct (view_table _ _ !! id) as [row|]; [|by simplify_eq/=].
  destruct (view_from_str _) as [v|]; simplify_eq/=. split; [done|]. by intros p [= <-].
Qed.
Next Obligation.
  intros r id w id'. pose proof (wp_world _ w _ (wp_load_with_context (V := V) true (repo_table r) id (w_db w))) as Hw.
  cbn. destruct (load_with_context _ id w) as [o w']. destruct Hw as [Hdb _]. cbn in *. unfold sqlite_stored. by rewrite Hdb.
Qed.
Next Obligation.
  intros r v c w e w' id Hu. pose proof (wp_world _ w _ (wp_update_view true (repo_table r) v c (w_db w))) as Hw.
  cbn in Hu. rewrite Hu in Hw. unfold sqlite_stored. cbn in Hw. by rewrite Hw.
Qed.
Next Obligation.
  intros r v c w w' Hv Hu. pose proof (wp_world _ w _ (wp_update_view true (repo_table r) v c (w_db w))) as Hw.
  cbn in Hu. rewrite Hu in Hw. cbn in Hw. destruct Hw as [(_ & _ & Hdb)|(old & _ & _ & Hdb)];
    rewrite (sqlite_stored_set _ _ _ _ _ _ Hdb), decide_True by done; cbn; by rewrite reads_back_text.
Qed.
Next Obligation.
  intros r v c w w' id Hu Hne. pose proof (wp_world _ w _ (wp_update_view true (repo_table r) v c (w_db w))) as Hw.
  cbn in Hu. rewrite Hu in Hw. cbn in Hw. destruct Hw as [(_ & _ & Hdb)|(old & _ & _ & Hdb)];
    by rewrite (sqlite_stored_set _ _ _ _ _ _ Hdb), decide_False.
Qed.
Next Obligation.
  intros r v c w w' held Hu Hs. pose proof (wp_world _ w _ (wp_update_view true (repo_table r) v c (w_db w))) as Hw.
  cbn in Hu. rewrite Hu in Hw. cbn in Hw. unfold sqlite_stored in Hs.
  destruct Hw as [(-> & Hn & _)|(old & Ho & Hver & _)]; [rewrite Hn in Hs; by simplify_eq/=|].
  rewrite Ho in Hs. destruct (view_from_str _); by simplify_eq/=.
Qed.
End sqlite_repo.

Section sqlite_projection.
Context `{SerdeJson, SqliteJson, TableScan}.
Context {Entity Event Command Error : Type} `{EventSourced Entity Event Command Error}.
Context `{Serde Entity, Serde Event, Serde Error}.
Context {Id : Type} (parse : string -> option Id) (id_to_string : Id -> string).
Context {V : Type} `{EqDecision V} (columns : gmap string (ViewRow -> option V)).

(** A projection with a table reads its views through that table. *)
Lemma sqlite_backing_repo self pool table :
  constructed self -> sqlite_backing self = Ok (pool, table) -> repo self = mkSqliteViewRepository pool table.
Proof. intros [(p & [t] & ->)|[r ->]]; [by intros [= <- <-]|done]. Qed.

(** Without one, the operations that need SQLite are refused and touch nothing. *)
Lemma projection_new_refuses (r : SqliteViewRepository) aggregate_type column (value : V) (id : Id) w :
  self_load_all (Entity := Entity) (Event := Event) (Error := Error) parse (projection_new r) w =
    (Err (QueryProjection NotSqliteBacked), w) /\
  self_filter (Entity := Entity) (Event := Event) (Error := Error) parse columns (projection_new r) column value w =
    (Err (QueryProjection NotSqliteBacked), w) /\
  self_catch_up (Entity := Entity) (Event := Event) (Error := Error) aggregate_type (projection_new r) w =
    (Err NotSqliteBacked, w) /\
  self_rebuild (Entity := Entity) (Event := Event) (Error := Error) id_to_string aggregate_type (projection_new r) id w =
    (Err NotSqliteBacked, w) /\
  self_rebuild_all (Entity := Entity) (Event := Event) (Error := Error) aggregate_type (projection_new r) w =
    (Err NotSqliteBacked, w).
Proof. done. Qed.

(** Loading through the interface is [projection_load]. *)
Lemma self_load_sqlite pool table id w :
  self_load (Entity := Entity) (Event := Event) (Error := Error) id_to_string
    (projection_sqlite pool (mkTable table)) id w =
  projection_load (Entity := Entity) (Event := Event) (Error := Error) id_to_string table id w.
Proof.
  unfold self_load, projection_load. cbn. unfold mbind, M_bind, lift_err.
  by destruct (load_view table (id_to_string id) w) as [[[l|]|e] w'].
Qed.

Lemma react_steps_done r view_id event k o w :
  react_steps k r view_id event (Finished (Entity := Entity) (Event := Event) (Error := Error) o) w =
  (Finished o, w).
Proof. induction k as [|k IH]; [done|exact IH]. Qed.

(** The steps of a reaction that nothing interferes with are the loop of [react]. *)
Lemma react_steps_loop r view_id event n k w :
  2 * Datatypes.S n <= k ->
  react_steps k r view_id event (Loading n) w =
  let '(o, w) := react_loop (Entity := Entity) (Error := Error) n (repo_table r) view_id event w in
  (Finished o, w).
Proof.
  revert k w. induction n as [|n IH]; intros k w Hk; (destruct k as [|[|k]]; [lia..|]).
  all: cbn [react_steps react_step react_loop]; unfold react_load at 1; cbn [repo_load_with_context sqlite_repo].
  all: destruct (load_with_context (repo_table r) view_id w) as [[loaded|e] w1].
  2,4: destruct (is_retryable_sqlite_busy _); cbn [retry_or]; [|exact (react_steps_done r view_id event (S k) _ w1)].
  2: exact (react_steps_done r view_id event (S k) _ w1).
  2: exact (IH (S k) w1 ltac:(lia)).
  all: destruct (default _ loaded) as [l c]; cbn [react_step]; unfold react_save at 1; cbn [repo_update_view sqlite_repo].
  all: destruct (update_view (repo_table r) (apply l event) c w1) as [[[]|e] w2]; [apply react_steps_done|].
  all: destruct e; cbn [retry_or]; try destruct (is_retryable_sqlite_busy _); cbn [retry_or];
    try apply react_steps_done; apply IH; lia.
Qed.

(** [react] is a reaction run to its end. *)
Lemma react_alone r view_id event w :
  react_steps (2 * Datatypes.S (Z.to_nat RETRY_MAX_ATTEMPTS)) r view_id event react_start w =
  let '(o, w) := react (Entity := Entity) (Error := Error) (repo_table r) view_id event w in (Finished o, w).
Proof. by apply react_steps_loop. Qed.
End sqlite_projection.

(** ** Reactions side by side lose no update *)

Section concurrent.
Context {Entity Event Command Error : Type} `{EventSourced Entity Event Command Error}.
Abbreviation View := (Lifecycle Entity Event Error).
Abbreviation Rx := (Reaction (Entity := Entity) (Event := Event) (Error := Error)).
Context {R S : Type} `{ViewRepoLaws R View S}.
Context (r : R) (events : list (string * Event)) (view_id : string).

(** The view and version the repository stands at; a view without a row has seen
    nothing. *)
Definition standing (s : S) : option (View * Z) := default (Uninitialized, 0%Z) <$> repo_stored r view_id s.

(** [order] lists the reactions to [view_id] that reported success, each once. *)
Definition succeeded (reactions : list Rx) (order : list nat) : Prop :=
  NoDup order /\
  forall i, i ∈ order <-> exists x : Rx, reactions !! i = Some x /\
    reaction_view x = view_id /\ reaction_at x = Finished Reacted.

Definition events_in (order : list nat) : list Event := omap (fun i => snd <$> events !! i) order.

(** A reaction about to save holds its event applied to the view at the version it
    loaded, which is never ahead of the repository. *)
Definition in_step (l : View) (v : Z) (x : Rx) : Prop :=
  match reaction_at x with
  | Saving _ lifecycle context =>
      view_instance_id context = reaction_view x /\
      (reaction_view x = view_id -> (ctx_version context <= v)%Z /\
         (ctx_version context = v -> lifecycle = apply l (reaction_event x)))
  | _ => True
  end.

Record together (l0 : View) (v0 : Z) (reactions : list Rx) (s : S) (order : list nat) : Prop := {
  together_events : length reactions = length events /\
    forall i x, reactions !! i = Some x -> events !! i = Some (reaction_view x, reaction_event x);
  together_succeeded : succeeded reactions order;
  together_standing :
    standing s = Some (replay l0 (events_in order), (v0 + Z.of_nat (length order))%Z);
  together_in_step : forall i x, reactions !! i = Some x ->
    in_step (replay l0 (events_in order)) (v0 + Z.of_nat (length order)) x;
}.

Lemma events_in_snoc order i x :
  events !! i = Some x -> events_in (order ++ [i]) = events_in order ++ [x.2].
Proof. intros Hi. unfold events_in. rewrite omap_app. cbn. by rewrite Hi. Qed.

Lemma succeeded_bound reactions order :
  succeeded reactions order -> length order <= length reactions.
Proof.
  intros [Hn Hin]. rewrite <-(length_seq (length reactions) 0). apply submseteq_length, NoDup_submseteq; [done|].
  intros i (x & Hx & _)%Hin. apply elem_of_seq. apply lookup_lt_Some in Hx. lia.
Qed.

(** Replacing the state of a reaction that has not succeeded by another such. *)
Lemma succeeded_other reactions order i x at_ :
  reactions !! i = Some x -> reaction_at x <> Finished Reacted ->
  (reaction_view x = view_id -> at_ <> Finished Reacted) ->
  succeeded reactions order ->
  succeeded (<[i := mkReaction (reaction_view x) (reaction_event x) at_]> reactions) order.
Proof.
  intros Hx Hold Hnew [Hn Hin]. split; [done|]. intros j. rewrite Hin.
  destruct (decide (i = j)) as [<-|Hne]; [|by rewrite list_lookup_insert_ne].
  rewrite list_lookup_insert_eq by (by eapply lookup_lt_Some).
  split; intros (y & Hy & Hv & Hat); [congruence|]. injection Hy as <-. by destruct (Hnew Hv).
Qed.

(** A success joins at the end. *)
Lemma succeeded_snoc reactions order i x :
  reactions !! i = Some x -> reaction_at x <> Finished Reacted -> reaction_view x = view_id ->
  succeeded reactions order ->
  succeeded (<[i := mkReaction (reaction_view x) (reaction_event x) (Finished Reacted)]> reactions) (order ++ [i]).
Proof.
  intros Hx Hold Hv [Hn Hin]. split.
  - apply NoDup_app. split_and!; [done| |apply NoDup_singleton].
    intros j Hj ->%list_elem_of_singleton. apply Hin in Hj as (y & Hy & _ & Hat). by simplify_eq.
  - intros j. rewrite elem_of_app, list_elem_of_singleton, Hin.
    destruct (decide (i = j)) as [<-|Hne].
    + rewrite list_lookup_insert_eq by (by eapply lookup_lt_Some). naive_solver.
    + rewrite list_lookup_insert_ne by done. naive_solver.
Qed.

(** Nothing has happened yet. *)
Lemma together_start l0 v0 s :
  standing s = Some (l0, v0) -> together l0 v0 (begin_reaction <$> events) s [].
Proof.
  intros Hs. split; rewrite ?length_fmap.
  - split; [done|]. intros i x Hx. rewrite list_lookup_fmap in Hx. apply fmap_Some in Hx as ([? ?] & Hi & ->). exact Hi.
  - split; [constructor|]. intros i. split; [by intros ?%not_elem_of_nil|]. intros (x & Hx & _ & Hat).
    rewrite list_lookup_fmap in Hx. apply fmap_Some in Hx as (? & _ & ->). discriminate Hat.
  - cbn. by rewrite Z.add_0_r.
  - intros i x Hx. rewrite list_lookup_fmap in Hx. apply fmap_Some in Hx as (? & _ & ->). done.
Qed.

(** A step that leaves the repository and the successes as they are. *)
Lemma together_quiet l0 v0 reactions s s' order i x at_ :
  together l0 v0 reactions s order -> reactions !! i = Some x ->
  reaction_at x <> Finished Reacted -> (reaction_view x = view_id -> at_ <> Finished Reacted) ->
  standing s' = standing s ->
  in_step (replay l0 (events_in order)) (v0 + Z.of_nat (length order))
    (mkReaction (reaction_view x) (reaction_event x) at_) ->
  together l0 v0 (<[i := mkReaction (reaction_view x) (reaction_event x) at_]> reactions) s' order.
Proof.
  intros [[Hlen Hev] Hsucc Hst Hin] Hx Hold Hnew Hs Hat. split.
  - split; [by rewrite length_insert|]. intros j y Hy.
    apply list_lookup_insert_Some in Hy as [(<- & <- & _)|[_ Hy]]; cbn; eauto.
  - by apply succeeded_other.
  - by rewrite Hs.
  - intros j y Hy. apply list_lookup_insert_Some in Hy as [(_ & <- & _)|[_ Hy]]; [done|by eapply Hin].
Qed.

Lemma standing_keeps s s' :
  repo_stored r view_id s' = repo_stored r view_id s -> standing s' = standing s.
Proof. unfold standing. by intros ->. Qed.

(** What a load reads is where the repository stands. *)
Lemma standing_load id s loaded s' :
  repo_load_with_context r id s = (Ok loaded, s') ->
  let '(l, c) := default (Uninitialized, mkViewContext id 0) loaded in
  view_instance_id c = id /\ (id = view_id -> standing s = Some (l, ctx_version c)).
Proof.
  intros Hl. apply repo_load_reads in Hl as [Hs Hid].
  destruct loaded as [[l c]|]; cbn in *; (split; [|intros ->; unfold standing; by rewrite Hs]); [|done].
  by apply (Hid (l, c)).
Qed.

Lemma retry_or_outcome n o : o <> Reacted ->
  retry_or (Entity := Entity) (Event := Event) (Error := Error) n o <> Finished Reacted.
Proof. destruct n; cbn; congruence. Qed.

Lemma retry_or_in_step l v view event n o :
  in_step l v (mkReaction view event (retry_or n o)).
Proof. by destruct n. Qed.

Lemma together_load l0 v0 reactions s order i x n :
  together l0 v0 reactions s order -> reactions !! i = Some x -> reaction_at x = Loading n ->
  let '(at_, s') := react_load r (reaction_view x) (reaction_event x) n s in
  together l0 v0 (<[i := mkReaction (reaction_view x) (reaction_event x) at_]> reactions) s' order.
Proof.
  intros Ht Hx Hat. unfold react_load.
  pose proof (repo_load_keeps r (reaction_view x) s view_id) as Hk.
  destruct (repo_load_with_context r (reaction_view x) s) as [[loaded|e] s'] eqn:Hl; cbn in Hk; apply standing_keeps in Hk.
  - apply standing_load in Hl. destruct (default _ loaded) as [l c]. destruct Hl as [Hid Hs].
    eapply together_quiet; eauto; [by rewrite Hat|]. split; [done|]. intros Hv. cbn in Hv. specialize (Hs Hv).
    rewrite (together_standing _ _ _ _ _ Ht) in Hs. injection Hs as -> ->. cbn. split; [lia|done].
  - eapply together_quiet; eauto; [by rewrite Hat|..].
    + intros _. destruct (is_retryable_sqlite_busy _); [by apply retry_or_outcome|done].
    + destruct (is_retryable_sqlite_busy _); [apply retry_or_in_step|done].
Qed.

(** The views the reactions may come to store read back. *)
Definition all_storable (l0 : View) : Prop :=
  forall es, length es <= length events -> Forall (fun e => e ∈ events.*2) es -> repo_storable (replay l0 es).

Lemma events_in_length order : length (events_in order) <= length order.
Proof. unfold events_in. induction order as [|i order IH]; [done|]. cbn. destruct (snd <$> _); cbn; lia. Qed.

Lemma events_in_known order : Forall (fun e => e ∈ events.*2) (events_in order).
Proof.
  apply Forall_forall. intros e (i & _ & He)%list_elem_of_omap.
  apply fmap_Some in He as (x & Hx & ->). apply list_elem_of_fmap. eauto using list_elem_of_lookup_2.
Qed.

Lemma together_stored l0 v0 reactions s order i x n lifecycle context s' :
  all_storable l0 -> (0 <= v0)%Z -> (v0 + Z.of_nat (length events) <= i64_max)%Z ->
  together l0 v0 reactions s order -> reactions !! i = Some x -> reaction_at x = Saving n lifecycle context ->
  reaction_view x = view_id -> repo_update_view r lifecycle context s = (Ok (), s') ->
  together l0 v0 (<[i := mkReaction (reaction_view x) (reaction_event x) (Finished Reacted)]> reactions) s' (order ++ [i]).
Proof.
  intros Hok Hv0 Hmax [[Hlen Hev] Hsucc Hst Hin] Hx Hat Hv Hu.
  pose proof (Hin _ _ Hx) as Hme. unfold in_step in Hme. rewrite Hat, Hv in Hme. destruct Hme as [Hid Hme].
  destruct (Hme eq_refl) as [_ Hl]. clear Hme. unfold standing in Hst.
  destruct (repo_stored r view_id s) as [held|] eqn:Hheld; [|done]. injection Hst as Hst.
  pose proof (repo_update_locks r _ _ _ _ held Hu) as Hlock. rewrite Hid in Hlock. specialize (Hlock Hheld).
  assert (ctx_version context = (v0 + Z.of_nat (length order))%Z) as Hver.
  { rewrite Hlock. destruct held as [[l v]|]; cbn in *; congruence. }
  specialize (Hl Hver). pose proof (Hev _ _ Hx) as He.
  assert (succeeded (<[i := mkReaction (reaction_view x) (reaction_event x) (Finished Reacted)]> reactions) (order ++ [i])) as Hsucc'
    by (apply succeeded_snoc; [done|by rewrite Hat|done|done]).
  pose proof (succeeded_bound _ _ Hsucc') as Hb. rewrite length_insert, length_app in Hb. cbn in Hb.
  assert (lifecycle = replay l0 (events_in (order ++ [i]))) as Hl'.
  { rewrite (events_in_snoc _ _ _ He), replay_app. exact Hl. }
  assert (repo_storable lifecycle) as Hstore.
  { rewrite Hl'. apply Hok; [|apply events_in_known]. etrans; [apply events_in_length|]. rewrite length_app; cbn; lia. }
  split.
  - split; [by rewrite length_insert|]. intros j y Hy.
    apply list_lookup_insert_Some in Hy as [(<- & <- & _)|[_ Hy]]; cbn; eauto.
  - done.
  - pose proof (repo_update_stores r _ _ _ _ Hstore Hu) as Hnew. rewrite Hid in Hnew.
    unfold standing. rewrite Hnew. cbn.
    rewrite <-Hl', Hver, length_app. cbn. do 2 f_equal. rewrite i64_add_small; [lia|]. range.
  - intros j y Hy. apply list_lookup_insert_Some in Hy as [(_ & <- & _)|[_ Hy]]; [done|].
    specialize (Hin _ _ Hy). unfold in_step in *. destruct (reaction_at y) as [|m lc c|]; [done| |done].
    destruct Hin as [Hid' Hin]. split; [done|]. intros Hv'. destruct (Hin Hv') as [Hle _].
    rewrite length_app. cbn. split; [lia|]. intros Heq. lia.
Qed.

Lemma together_save l0 v0 reactions s order i x n lifecycle context :
  all_storable l0 -> (0 <= v0)%Z -> (v0 + Z.of_nat (length events) <= i64_max)%Z ->
  together l0 v0 reactions s order -> reactions !! i = Some x -> reaction_at x = Saving n lifecycle context ->
  let '(at_, s') := react_save r n lifecycle context s in
  exists order', together l0 v0 (<[i := mkReaction (reaction_view x) (reaction_event x) at_]> reactions) s' order'.
Proof.
  intros Hok Hv0 Hmax Ht Hx Hat. unfold react_save.
  pose proof (together_in_step _ _ _ _ _ Ht _ _ Hx) as Hme. unfold in_step in Hme. rewrite Hat in Hme. destruct Hme as [Hid _].
  destruct (repo_update_view r lifecycle context s) as [[[]|e] s'] eqn:Hu.
  - destruct (decide (reaction_view x = view_id)) as [Hv|Hv]; [by eexists; eapply together_stored|].
    exists order. eapply together_quiet; eauto; [by rewrite Hat| |done]. apply standing_keeps.
    apply (repo_update_frame _ _ _ _ _ _ Hu). by rewrite Hid.
  - exists order. apply (repo_update_fails _ _ _ _ _ _ view_id), standing_keeps in Hu.
    destruct e; try destruct (is_retryable_sqlite_busy _);
      (eapply together_quiet; [done..|by rewrite Hat|try done; by intros _; apply retry_or_outcome|done|try done; apply retry_or_in_step]).
Qed.

Lemma together_interleave l0 v0 i reactions s order :
  all_storable l0 -> (0 <= v0)%Z -> (v0 + Z.of_nat (length events) <= i64_max)%Z ->
  together l0 v0 reactions s order ->
  let '(reactions', s') := interleave r i (reactions, s) in exists order', together l0 v0 reactions' s' order'.
Proof.
  intros Hok Hv0 Hmax Ht. unfold interleave. destruct (reactions !! i) as [x|] eqn:Hx; [|by exists order].
  destruct (reaction_at x) as [n|n l c|o] eqn:Hat; cbn [react_step].
  - pose proof (together_load _ _ _ _ _ _ _ _ Ht Hx Hat) as Hs.
    destruct (react_load _ _ _ n s) as [at_ s']. by exists order.
  - pose proof (together_save _ _ _ _ _ _ _ _ _ _ Hok Hv0 Hmax Ht Hx Hat) as Hs.
    by destruct (react_save _ n l c s) as [at_ s'].
  - exists order. rewrite list_insert_id; [done|]. rewrite Hx, <-Hat. by destruct x.
Qed.

Lemma together_interleaved l0 v0 schedule reactions s order :
  all_storable l0 -> (0 <= v0)%Z -> (v0 + Z.of_nat (length events) <= i64_max)%Z ->
  together l0 v0 reactions s order ->
  let '(reactions', s') := interleaved r schedule (reactions, s) in exists order', together l0 v0 reactions' s' order'.
Proof.
  intros Hok Hv0 Hmax. revert reactions s order. induction schedule as [|i schedule IH]; intros reactions s order Ht; [by exists order|].
  pose proof (together_interleave _ _ i _ _ _ Hok Hv0 Hmax Ht) as Hs. cbn [interleaved fold_left].
  destruct (interleave r i (reactions, s)) as [reactions' s']. destruct Hs as [order' Ht']. exact (IH _ _ _ Ht').
Qed.

(** C33: Reactions side by side lose no update.  Whatever reactions a projection runs at
    once, to one view or many, however the loads and saves of their attempts interleave
    and wherever the backend fails, the view ends as the fold, over the view it started
    from, of exactly the events whose reactions reported success, each once and in one
    common order, and its version counts them.  A reaction still in
    flight, or one that gave up, left nothing behind. *)
Theorem reactions_lose_no_update schedule l0 v0 s :
  standing s = Some (l0, v0) -> all_storable l0 ->
  (0 <= v0)%Z -> (v0 + Z.of_nat (length events) <= i64_max)%Z ->
  let '(reactions, s') := interleaved r schedule (begin_reaction <$> events, s) in
  exists order : list nat, succeeded reactions order /\
    standing s' = Some (replay l0 (events_in order), (v0 + Z.of_nat (length order))%Z).
Proof.
  intros Hs Hok Hv0 Hmax. apply together_start in Hs.
  apply (together_interleaved _ _ schedule) in Hs; [|done..].
  destruct (interleaved r schedule _) as [reactions s']. destruct Hs as [order [_ Hsucc Hst _]]. by exists order.
Qed.
End concurrent.

(** ** A backend without a lock

    [InMemoryRepo], the double of the projection's own tests: every load reports version
    0 and every update overwrites, so it has no [ViewRepoLaws]. *)
Section in_memory.
Context {V : Type}.

Inductive InMemoryRepo : Type := in_memory.

#[export] Instance in_memory_repo : ViewRepo InMemoryRepo V (gmap string V) := {|
  repo_load _ id views := (Ok (views !! id), views);
  repo_load_with_context _ id views :=
    (Ok ((fun view => (view, mkViewContext id 0)) <$> (views !! id)), views);
  repo_update_view _ view context views := (Ok (), <[view_instance_id context := view]> views);
  repo_find _ _ _ _ views := (Ok [], views);
|}.
End in_memory.
