(* ===== verification/Delivery.v ===== *)
(** * Delivering verdicts

    Models how the verdict of a dispatched job reaches the entity that kicked it off
    (src/crates/event-sorcery/src/dispatch.rs): [OriginPort for Store], which sends it as
    a command through the origin's store, and the execution of the job as
    [StandaloneJob::perform] runs it against that port, on the database and under driver
    failures.  [perform_in_perform] relates it to [perform] of Dispatch.v.

    [Origin] is what the library asks of an entity that dispatches a job: the verdict is
    a command, the job's events are events of the entity, and a [DispatchedJob] held by
    the entity decides and folds them.  [delivery_step] lets executions of one job race
    each other and the origin's other clients, as StoreHistory.v does for commands, and
    [verdict_applied_once] is the guarantee: at-least-once execution, exactly-once
    effect. *)

From S2P Require Import Prelude Json Sqlite EventTable Lifecycle Schema Job Engine EngineProps.
From S2P Require Import ViewRepository Repository SchemaRecovery Reactor Dispatch Projection Startup Store StoreProps StoreHistory.

(** ** Executing a job *)

Section perform.
Context {Output JobError : Type}.
Abbreviation Failure := (JobFailure (Error := JobError)).
Abbreviation Verdict_ := (Verdict (Output := Output) (Error := JobError)).

(** [OriginPort::deliver]. *)
Context (deliver : Verdict_ -> M OriginDeliveryError ()).
Context (error_chain : JobError -> string).

(** The part of [perform] after the external system answered. *)
Definition conclude (ctx : JobContext) (outcome : result Failure (JobOutcome Output)) : M Failure (JobOutcome ()) :=
  fun w =>
    let attempts := u32_add (ctx_attempt ctx) 1 in
    match outcome with
    | Ok (OutDone output) =>
        match deliver (confirmed (ctx_job_id ctx) output attempts) w with
        | (Ok _, w) => (Ok (OutDone ()), w)
        | (Err e, w) => (Ok (OutDefer (delivery_deferral ctx e)), w)
        end
    | Ok (OutDefer delay) => (Ok (OutDefer delay), w)
    | Err (Terminal domain_error) =>
        match deliver (failed_outcome (ctx_job_id ctx) (FailureRejected domain_error) attempts) w with
        | (Ok _, w) => (Err (Terminal domain_error), w)
        | (Err e, w) => (Ok (OutDefer (delivery_deferral ctx e)), w)
        end
    | Err (Transient domain_error) =>
        if is_final_attempt ctx then
          (Err (Transient domain_error),
           (deliver (failed_outcome (ctx_job_id ctx)
              (FailureDeadLettered RetriesExhausted (error_chain domain_error)) attempts) w).2)
        else (Err (Transient domain_error), w)
    end.

Section external.
Context (submit : JobContext -> result Failure (JobOutcome Output)).
Context (reconcile : JobContext -> result Failure (Reconciliation (Output := Output))).

(** What the external system says of the job, [None] while it is indeterminate. *)
Definition outcome_of (ctx : JobContext) : result Failure (JobOutcome Output) :=
  if is_first_execution ctx then submit ctx
  else
    match reconcile ctx with
    | Ok (RecSettled output) => Ok (OutDone output)
    | Ok (RecIndeterminate delay) => Ok (OutDefer delay)
    | Ok RecNotSubmitted => submit ctx
    | Err failure => Err failure
    end.

Definition perform_in (ctx : JobContext) : M Failure (JobOutcome ()) :=
  if is_first_execution ctx then conclude ctx (submit ctx)
  else
    match reconcile ctx with
    | Ok (RecSettled output) => conclude ctx (Ok (OutDone output))
    | Ok (RecIndeterminate delay) => fun w => (Ok (OutDefer delay), w)
    | Ok RecNotSubmitted => conclude ctx (submit ctx)
    | Err failure => conclude ctx (Err failure)
    end.

Lemma perform_in_concludes ctx w : perform_in ctx w = conclude ctx (outcome_of ctx) w.
Proof.
  unfold perform_in, outcome_of. destruct (is_first_execution ctx); [done|].
  by destruct (reconcile ctx) as [[]|].
Qed.

(** The execution is the one Dispatch.v describes, with the delivery's answer in this
    world as its port. *)
Lemma perform_in_perform ctx w :
  (perform_in ctx w).1 = (perform submit reconcile (fun v => (deliver v w).1) error_chain ctx).1.
Proof.
  unfold perform_in, perform, conclude. destruct (is_first_execution ctx).
  - destruct (submit ctx) as [[o|d]|[e|e]]; cbn; try done; [|by destruct (is_final_attempt ctx)|];
      by destruct (deliver _ w) as [[[]|] ?].
  - destruct (reconcile ctx) as [[o|d|]|[e|e]]; cbn; try done.
    + by destruct (deliver _ w) as [[[]|] ?].
    + destruct (submit ctx) as [[o|d]|[e|e]]; cbn; try done; [|by destruct (is_final_attempt ctx)|];
        by destruct (deliver _ w) as [[[]|] ?].
    + by destruct (is_final_attempt ctx).
    + by destruct (deliver _ w) as [[[]|] ?].
Qed.

(** The verdict an execution delivers, if any. *)
Definition verdict_of (ctx : JobContext) : option Verdict_ :=
  let attempts := u32_add (ctx_attempt ctx) 1 in
  match outcome_of ctx with
  | Ok (OutDone output) => Some (confirmed (ctx_job_id ctx) output attempts)
  | Ok (OutDefer _) => None
  | Err (Terminal e) => Some (failed_outcome (ctx_job_id ctx) (FailureRejected e) attempts)
  | Err (Transient e) =>
      if is_final_attempt ctx
      then Some (failed_outcome (ctx_job_id ctx) (FailureDeadLettered RetriesExhausted (error_chain e)) attempts)
      else None
  end.

(** The effect of an execution is that of delivering its verdict once; it reports the
    job done or rejected only when the delivery was accepted. *)
Lemma perform_in_delivers ctx w :
  let '(r, w') := perform_in ctx w in
  match verdict_of ctx with
  | None => w' = w /\ match r with Ok (OutDone _) | Err (Terminal _) => False | _ => True end
  | Some v => w' = (deliver v w).2 /\
      match r with
      | Ok (OutDone _) => (deliver v w).1 = Ok () /\ exists s, v = VerdictConfirmed s
      | Err (Terminal _) => (deliver v w).1 = Ok () /\ exists f, v = VerdictFailed f
      | _ => True
      end
  end.
Proof.
  rewrite perform_in_concludes. unfold conclude, verdict_of.
  destruct (outcome_of ctx) as [[o|d]|[e|e]]; [|done| |].
  - destruct (deliver _ w) as [[[]|] w']; [|done]. cbn. split_and!; [done..|]. by eexists.
  - by destruct (is_final_attempt ctx).
  - destruct (deliver _ w) as [[[]|] w']; [|done]. cbn. split_and!; [done..|]. by eexists.
Qed.
End external.
End perform.

(** ** Queries *)

Section queries.
Context {Entity Event Command Error : Type} `{EventSourced Entity Event Command Error}.
Context `{Serde Entity, Serde Event, Serde Error} `{SerdeJson}.

(** Queries that write views only. *)
Definition queries_keep (queries : list (Query (Event := Event))) : Prop := forall id events w,
  let w' := run_queries queries id events w in
  db_events (w_db w') = db_events (w_db w) /\ db_snapshots (w_db w') = db_snapshots (w_db w).

(** Queries that leave a view table alone. *)
Definition queries_off (queries : list (Query (Event := Event))) (table : string) : Prop := forall id events w,
  view_table table (w_db (run_queries queries id events w)) = view_table table (w_db w).

(** The entity's projection is one. *)
Lemma projection_keeps {Id : Type} (parse : string -> option Id) id_to_string table :
  queries_keep (with_projection (Entity := Entity) (Error := Error) parse id_to_string table with_backend).
Proof.
  intros id events w. cbn [with_projection with_reactor with_backend app run_queries].
  unfold projection_query, bridge_dispatch. destruct (parse id) as [typed|]; [|done]. revert w.
  induction events as [|e events IH]; intros w; [done|].
  cbn [dispatch_events reactor_react projection_reactor fst snd].
  pose proof (react_loop_spec (Entity := Entity) (Error := Error) (Z.to_nat RETRY_MAX_ATTEMPTS) table (id_to_string typed) e w) as Hr.
  fold (react (Entity := Entity) (Error := Error) table (id_to_string typed) e) in Hr.
  destruct (react table (id_to_string typed) e w) as [o w1]. cbn [snd] in *. specialize (IH w1).
  destruct (dispatch_events _ events w1) as [errors w2]. cbn [snd] in *. destruct IH as [-> ->].
  destruct o; [destruct Hr as (? & ? & ? & _ & ->)|by rewrite Hr..]; by split.
Qed.
End queries.

(** ** Origins *)

Section dispatch_events.
Context {J Output JobError : Type}.

Definition verdict_event (v : Verdict (Output := Output) (Error := JobError)) :
    DispatchEvent (J := J) (Output := Output) (Error := JobError) :=
  match v with VerdictConfirmed s => EvConfirmed s | VerdictFailed f => EvFailed f end.

(** A verdict in flight is one event, which the fold takes to the verdict; one already
    settled, of the same kind, is none. *)
Lemma settle_shape self (v : Verdict (Output := Output) (Error := JobError)) events :
  settle (J := J) self v = Ok events ->
  events = [verdict_event v] /\ self = InFlight (verdict_job_id v) /\
    dispatch_evolve self (verdict_event v) = Ok (verdict_state v) \/
  events = [] /\ exists v', self = verdict_state v' /\ same_kind v v' = true.
Proof.
  destruct self as [|job|s|f], v as [s'|f']; cbn; try done; case_match eqn:He; try done; intros [= <-].
  - left. by apply N.eqb_eq in He as ->.
  - left. by apply N.eqb_eq in He as ->.
  - right. split; [done|]. by exists (VerdictConfirmed s).
  - right. split; [done|]. by exists (VerdictFailed f).
Qed.

Lemma settle_in_flight job (v : Verdict (Output := Output) (Error := JobError)) :
  verdict_job_id v = job ->
  settle (J := J) (InFlight job) v = Ok [verdict_event v] /\
  dispatch_evolve (J := J) (InFlight job) (verdict_event v) = Ok (verdict_state v).
Proof. intros <-. destruct v; cbn; by rewrite N.eqb_refl. Qed.
End dispatch_events.

(** An entity whose command enum absorbs the verdict of the job [J] and whose event enum
    absorbs the job's events. *)
Class Origin (J Output JobError Entity Event Command Error : Type) := {
  settle_command : Verdict (Output := Output) (Error := JobError) -> Command;
  origin_event : DispatchEvent (J := J) (Output := Output) (Error := JobError) -> Event;
  origin_refused : DispatchRefused -> Error;
  dispatch_state : Entity -> DispatchedJob (Output := Output) (Error := JobError);
}.

(** The entity hands both to its [DispatchedJob]. *)
Class OriginLaws (J Output JobError Entity Event Command Error : Type)
    `{EventSourced Entity Event Command Error} `{Origin J Output JobError Entity Event Command Error} := {
  transition_settles : forall entity v,
    transition entity (settle_command v) =
      match settle (dispatch_state entity) v with
      | Ok events => Ok (Events (origin_event <$> events))
      | Err e => Err (origin_refused e)
      end;
  evolve_dispatch : forall entity event state, dispatch_evolve (dispatch_state entity) event = Ok state ->
    exists entity', evolve entity (origin_event event) = Ok (Some entity') /\ dispatch_state entity' = state;
}.

Section origin.
Context `{SerdeJsonLaws, Chrono, Ulid}.
Context {Entity Event Command Error : Type} `{EventSourced Entity Event Command Error}.
Context `{Serde Entity, Serde Event, Serde Error}.
Context `{!CqrsEs Entity Event Error} `{!CqrsEsLaws}.
Context (config : EntityConfig) (event_type event_version : Event -> string).
Context (max_delay : Z) (clock : nat -> Z) (queries : list (Query (Event := Event))).
Context {J Output JobError : Type} `{!Origin J Output JobError Entity Event Command Error}.

Abbreviation Verdict_ := (Verdict (Output := Output) (Error := JobError)).
Abbreviation T := (AGGREGATE_TYPE config).
Abbreviation inv := (Store.store_inv (Entity := Entity) (Command := Command) (Error := Error) config event_type event_version).
Abbreviation send_ := (send_command (Entity := Entity) (Event := Event) (Command := Command) (Error := Error)
  config event_type event_version max_delay clock).
Abbreviation store_send_ := (store_send (Entity := Entity) (Event := Event) (Command := Command) (Error := Error)
  config event_type event_version max_delay clock queries).
Abbreviation settle_cmd := (settle_command (J := J) (Entity := Entity) (Event := Event) (Error := Error)).
Abbreviation event_of v := (origin_event (Entity := Entity) (Command := Command) (Error := Error) (verdict_event (J := J) v)).

(** [deliver] of [OriginPort for Store].  The panic of a delay outside the calendar is
    unreachable: a settlement dispatches nothing. *)
Definition origin_deliver (id : string) (outcome : Verdict_) : M OriginDeliveryError () :=
  fun w =>
    match store_send_ id (settle_cmd outcome) w with
    | (Ok (Some _), w) => (Ok (), w)
    | (Ok None, w) => (Err Transport, w)
    | (Err send_error, w) => (Err (delivery_error send_error), w)
    end.

(** ** One delivery *)

Context `{!OriginLaws J Output JobError Entity Event Command Error}.

(** The origin's handler on a verdict. *)
Lemma handle_settle entity (v : Verdict_) :
  match settle (J := J) (dispatch_state (J := J) (Event := Event) (Command := Command) (Error := Error) entity) v with
  | Ok events => handle (Live entity) (settle_cmd v) (Some []) = (Ok (origin_event <$> events), Some [])
  | Err e => exists e', handle (Live entity) (settle_cmd v) (Some []) = (Err e', Some [])
  end.
Proof.
  unfold handle. rewrite transition_settles.
  destruct (settle (J := J) _ v) as [events|e] eqn:Hs; [|by eexists].
  destruct (settle_shape _ _ _ Hs) as [(-> & _ & Hev)|[-> _]]; [|done].
  destruct (evolve_dispatch _ _ _ Hev) as (entity' & He & _). cbn. by rewrite He.
Qed.

Context (Hqueries : queries_keep queries).

(** [Store::send] is the command, then the queries. *)
Lemma store_send_queries id command w :
  let '(r, w1) := send_ id command w in
  exists w', store_send_ id command w = (r, w') /\
    match r with
    | Ok (Some _) => db_events (w_db w') = db_events (w_db w1) /\ db_snapshots (w_db w') = db_snapshots (w_db w1) /\
        forall table, queries_off queries table -> view_table table (w_db w') = view_table table (w_db w1)
    | _ => w' = w1
    end.
Proof.
  unfold send_command, store_send, mbind, M_bind.
  destruct (load_aggregate _ id w) as [[context|e] w1]; [|by eexists].
  destruct (execute_in _ _ _ _ _ id context command) as [m|]; [|by eexists].
  destruct (m w1) as [[[]|e] w2]; [|by eexists]. cbn.
  unfold notify. eexists. split; [done|].
  destruct (handle (ctx_aggregate context) command (Some [])) as [[[|e events]|] ?]; [done| |done].
  destruct (Hqueries id (e :: events) w2) as [-> ->]. split_and!; [done..|]. intros table Ht. apply Ht.
Qed.

Lemma deliver_spec id log floor (v : Verdict_) entity w :
  T <> JOB_AGGREGATE_TYPE -> inv id log floor (w_db w) -> replay Uninitialized log = Live entity ->
  (forall e events, settle (J := J) (dispatch_state entity) v = Ok (e :: events) ->
     storable (Live entity : Lifecycle Entity Event Error) (origin_event <$> e :: events)) ->
  let '(r, w') := origin_deliver id v w in
  match r with
  | Err _ => w_db w' = w_db w
  | Ok _ => exists events, settle (J := J) (dispatch_state entity) v = Ok events /\
      inv id (log ++ (origin_event <$> events)) floor (w_db w')
  end.
Proof.
  intros HT Hinv Hlive Hsto. unfold origin_deliver.
  pose proof (send_spec config event_type event_version max_delay clock id log floor (settle_cmd v) w HT Hinv) as Hs.
  pose proof (store_send_queries id (settle_cmd v) w) as Hq.
  destruct (send_ id (settle_cmd v) w) as [r w1]. destruct Hq as (w' & -> & Hq). destruct Hs as (Hout & Hok & _).
  pose proof (handle_settle entity v) as Hh. rewrite <-Hlive in Hh.
  destruct r as [[[]|]|e]; [|subst w'; apply Hout..].
  destruct (Hok eq_refl) as (events & pending & Hd & Hi).
  destruct (settle (J := J) (dispatch_state entity) v) as [es|e] eqn:Hset; [|destruct Hh as [e' Hh]; by rewrite Hd in Hh].
  rewrite Hd in Hh. injection Hh as -> ->. exists es. split; [done|].
  destruct Hq as (He & Hsn & _). eapply inv_reframed; [|exact He|exact Hsn]. destruct es as [|e es].
  - destruct Hout as (events & pending & Hd' & Hdb). rewrite Hd in Hd'. injection Hd' as <- <-.
    cbn in Hdb. by rewrite Hdb, app_nil_r.
  - apply Hi; [rewrite Hlive; by apply Hsto|]. right.
    by destruct (settle_shape _ _ _ Hset) as [([= -> ->] & _)|[[=] _]].
Qed.

(** An origin in flight takes the verdict or is left alone; a settled one is left alone,
    and only a verdict of the same kind is acknowledged. *)
Lemma deliver_in_flight id log floor (v : Verdict_) entity w :
  T <> JOB_AGGREGATE_TYPE -> inv id log floor (w_db w) -> replay Uninitialized log = Live entity ->
  dispatch_state entity = InFlight (verdict_job_id v) ->
  storable (Live entity : Lifecycle Entity Event Error) [event_of v] ->
  let '(r, w') := origin_deliver id v w in
  match r with
  | Err _ => w_db w' = w_db w
  | Ok _ => inv id (log ++ [event_of v]) floor (w_db w')
  end.
Proof.
  intros HT Hinv Hlive Hfly Hsto. destruct (settle_in_flight (J := J) _ v eq_refl) as [Hset _].
  pose proof (deliver_spec id log floor v entity w HT Hinv Hlive) as Hs. rewrite Hfly, Hset in Hs.
  destruct (origin_deliver id v w) as [[[]|e] w'].
  - destruct Hs as (events & [= <-] & Hi); [by intros e events [= <- <-]|exact Hi].
  - by apply Hs; intros e' events [= <- <-].
Qed.

Lemma deliver_settled id log floor (v v0 : Verdict_) entity w :
  T <> JOB_AGGREGATE_TYPE -> inv id log floor (w_db w) -> replay Uninitialized log = Live entity ->
  dispatch_state entity = verdict_state v0 ->
  let '(r, w') := origin_deliver id v w in inv id log floor (w_db w') /\ (r = Ok () -> same_kind v v0 = true).
Proof.
  intros HT Hinv Hlive Hd.
  assert (forall events, settle (J := J) (dispatch_state entity) v = Ok events -> events = [] /\ same_kind v v0 = true) as Hnil.
  { intros events Hev. rewrite Hd in Hev. destruct (settle_shape _ _ _ Hev) as [(_ & Hf & _)|(-> & v1 & Hv1 & Hk)].
    - by destruct v0.
    - split; [done|]. by destruct v0, v1. }
  pose proof (deliver_spec id log floor v entity w HT Hinv Hlive) as Hs.
  destruct (origin_deliver id v w) as [[[]|e] w'].
  - destruct Hs as (events & Hev & Hi); [by intros e events [[=] _]%Hnil|].
    destruct (Hnil events Hev) as [-> Hk]. by rewrite app_nil_r in Hi.
  - rewrite Hs; [done|]. by intros e' events [[=] _]%Hnil.
Qed.

(** Without failures and with room, the store takes an in-flight verdict. *)
Lemma deliver_accepted id log floor (v : Verdict_) entity db :
  T <> JOB_AGGREGATE_TYPE -> inv id log floor db -> replay Uninitialized log = Live entity ->
  dispatch_state entity = InFlight (verdict_job_id v) -> roomy config id log [event_of v] db ->
  (origin_deliver id v (mkWorld db [])).1 = Ok ().
Proof.
  intros HT Hinv Hlive Hfly Hroom. unfold origin_deliver.
  pose proof (send_spec config event_type event_version max_delay clock id log floor (settle_cmd v) (mkWorld db []) HT Hinv) as Hs.
  pose proof (store_send_queries id (settle_cmd v) (mkWorld db [])) as Hq.
  destruct (send_ id (settle_cmd v) (mkWorld db [])) as [r w1]. destruct Hq as (w' & -> & _).
  destruct Hs as (_ & _ & Hacc). pose proof (handle_settle entity v) as Hh. rewrite <-Hlive, Hfly in Hh.
  rewrite (proj1 (settle_in_flight (J := J) _ v eq_refl)) in Hh. by rewrite (Hacc eq_refl _ _ Hh (no_jobs_fit _ _ _) Hroom).
Qed.

(** ** Executions, one at a time *)

Context (error_chain : JobError -> string).
Abbreviation Failure := (JobFailure (Error := JobError)).

(** One execution: its context, what the external system would answer, and the failures
    of the driver during it. *)
Record Execution : Type := mkExecution {
  ex_ctx : JobContext;
  ex_submit : JobContext -> result Failure (JobOutcome Output);
  ex_reconcile : JobContext -> result Failure (Reconciliation (Output := Output));
  ex_faults : list (option SqlxError);
}.

Definition execute (id : string) (x : Execution) (db : Db) : result Failure (JobOutcome ()) * Db :=
  let '(r, w) := perform_in (origin_deliver id) error_chain (ex_submit x) (ex_reconcile x) (ex_ctx x) (mkWorld db (ex_faults x)) in
  (r, w_db w).

Definition execution_verdict (x : Execution) : option Verdict_ :=
  verdict_of error_chain (ex_submit x) (ex_reconcile x) (ex_ctx x).

(** A verdict as the type has it: of the job, with a 32-bit attempt count. *)
Definition verdict_for (job : JobId) (v : Verdict_) : Prop :=
  verdict_job_id v = job /\
  in_u32 (match v with VerdictConfirmed s => settled_attempts s | VerdictFailed f => failure_attempts f end) = true.

Lemma execution_verdict_for x v : execution_verdict x = Some v -> verdict_for (ctx_job_id (ex_ctx x)) v.
Proof.
  intros Hv. unfold execution_verdict, verdict_of in Hv.
  repeat case_match; try done; injection Hv as <-; split; (done || apply in_u32_add).
Qed.

(** The origin has the job in flight and can store any verdict of it, or is settled by
    the verdict [v].  Its other events are its own business. *)
Definition verdict_stands (job : JobId) (v : option Verdict_) (entity : Entity) : Prop :=
  match v with
  | None => dispatch_state entity = InFlight job /\
      forall u : Verdict_, verdict_for job u -> storable (Live entity : Lifecycle Entity Event Error) [event_of u]
  | Some u => verdict_for job u /\ dispatch_state entity = verdict_state u
  end.

(** [P v db]: the origin stands where [v], if any, settled its dispatch.  A delivery
    settles it once. *)
Definition settles_once (id : string) (job : JobId) (P : option Verdict_ -> Db -> Prop) : Prop := forall v u w,
  verdict_for job u -> P v (w_db w) ->
  let '(r, w') := origin_deliver id u w in
  exists v', P v' (w_db w') /\ (v' = v \/ v = None /\ v' = Some u) /\
    (r = Ok () -> exists u', v' = Some u' /\ same_kind u u' = true).

(** So does an execution, wherever the origin stands; it reports done only over a
    confirmed origin and rejected only over a failed one. *)
Lemma execute_settles id job P v x db :
  settles_once id job P -> ctx_job_id (ex_ctx x) = job -> P v db ->
  let '(r, db') := execute id x db in
  exists v', P v' db' /\ (v' = v \/ v = None /\ v' = execution_verdict x) /\
    match r with
    | Ok (OutDone _) => exists s, v' = Some (VerdictConfirmed s)
    | Err (Terminal _) => exists f, v' = Some (VerdictFailed f)
    | _ => True
    end.
Proof.
  intros Honce Hx HP. unfold execute.
  pose proof (perform_in_delivers (origin_deliver id) error_chain (ex_submit x) (ex_reconcile x) (ex_ctx x) (mkWorld db (ex_faults x))) as Hp.
  destruct (perform_in _ _ _ _ _ _) as [r w]. fold (execution_verdict x) in Hp.
  destruct (execution_verdict x) as [u|] eqn:Hu.
  - assert (verdict_for job u) as Huj by (rewrite <-Hx; by apply execution_verdict_for).
    pose proof (Honce v u (mkWorld db (ex_faults x)) Huj HP) as Hs.
    destruct Hp as [-> Hr]. destruct (origin_deliver id u (mkWorld db (ex_faults x))) as [rd w']. cbn [fst snd] in *.
    destruct Hs as (v' & HP' & Hv' & Hk). exists v'. split_and!; [done|done|].
    destruct r as [[[]|d]|[e|e]]; try done; destruct Hr as [Hrd [s ->]];
      destruct (Hk Hrd) as ([s'|f'] & -> & ?); (done || by eexists).
  - destruct Hp as [-> Hr]. exists v. split_and!; [done|by left|]. by destruct r as [[]|[]].
Qed.

(** An execution whose verdict nobody settled yet, run without driver failures, is
    acknowledged. *)
Lemma execution_accepted id log job entity floor x s db :
  T <> JOB_AGGREGATE_TYPE -> replay Uninitialized log = Live entity -> dispatch_state entity = InFlight job ->
  inv id log floor db -> ctx_job_id (ex_ctx x) = job -> ex_faults x = [] ->
  execution_verdict x = Some (VerdictConfirmed s) -> roomy config id log [event_of (VerdictConfirmed s)] db ->
  (execute id x db).1 = Ok (OutDone ()).
Proof.
  intros HT Hlive Hfly Hinv Hx Hf Hv Hroom. destruct (execution_verdict_for x _ Hv) as [Hjob _]. rewrite Hx in Hjob.
  pose proof (deliver_accepted id log floor (VerdictConfirmed s) entity db HT Hinv Hlive) as Ha.
  rewrite Hjob in Ha. specialize (Ha Hfly Hroom). unfold execute. rewrite Hf, perform_in_concludes.
  unfold execution_verdict, verdict_of in Hv. unfold conclude.
  destruct (outcome_of _ _ _) as [[o|d]|[e|e]]; try done; [|by case_match].
  injection Hv as <-. unfold confirmed in *. by destruct (origin_deliver id _ _) as [[] ?].
Qed.
(** ** Racing executions *)

(** What [perform] reports when the origin answers [answer] to its delivery. *)
Definition reported (x : Execution) (answer : result OriginDeliveryError ()) : result Failure (JobOutcome ()) :=
  (perform (ex_submit x) (ex_reconcile x) (fun _ => answer) error_chain (ex_ctx x)).1.

Definition delivery_answer (r : result (AggregateError (LifecycleError Entity Event Error)) ()) : result OriginDeliveryError () :=
  match r with Ok _ => Ok () | Err send_error => Err (delivery_error send_error) end.

Lemma reported_spec x answer :
  match reported x answer with
  | Ok (OutDone _) => answer = Ok () /\ exists s, execution_verdict x = Some (VerdictConfirmed s)
  | Err (Terminal _) => answer = Ok () /\ exists f, execution_verdict x = Some (VerdictFailed f)
  | _ => True
  end.
Proof.
  pose proof (perform_in_perform (fun _ w => (answer, w)) error_chain (ex_submit x) (ex_reconcile x) (ex_ctx x) (mkWorld empty_db [])) as Hp.
  pose proof (perform_in_delivers (fun _ w => (answer, w)) error_chain (ex_submit x) (ex_reconcile x) (ex_ctx x) (mkWorld empty_db [])) as Hd.
  destruct (perform_in _ _ _ _ _ _) as [r w]. cbn [fst snd] in Hp. fold (reported x answer) in Hp. subst r.
  fold (execution_verdict x) in Hd. destruct (execution_verdict x) as [v|]; destruct Hd as [_ Hd];
    destruct (reported x answer) as [[[]|d]|[e|e]]; try done; destruct Hd as [? [? ->]]; (split; [done|by eexists]).
Qed.

Abbreviation Config_ := (Config (Entity := Entity) (Event := Event) (Command := Command) (Error := Error)).
Abbreviation Ran := (list (Execution * result Failure (JobOutcome ()))).

(** The origin's store with its clients, the deliveries among these, the events that
    other commands committed (ghost), and the executions that ended, with what they
    reported. *)
Record Races : Type := mkRaces {
  rc_store : Config_;
  rc_delivering : gmap nat Execution;
  rc_own : list Event;
  rc_ran : Ran;
}.

(** Another command of the origin: it leaves the dispatch as it is when it is accepted. *)
Definition keeps_dispatch (job : JobId) (command : Command) : Prop := forall v entity events pending,
  verdict_stands job v entity -> handle (Live entity) command (Some []) = (Ok events, pending) ->
  exists entity', replay (Live entity : Lifecycle Entity Event Error) events = Live entity' /\ verdict_stands job v entity'.

(** Executions of [job] race each other and the other clients of the origin.  An
    execution that has a verdict delivers it as a client: it reads the snapshot, then the
    events, then commits, each under any driver failures; it may fail before it commits
    (any error) or be lost.  In between: other commands, compaction past no client in
    flight, and whatever leaves the origin's stream and snapshot alone, the queries of
    the store among it.  [aside] is what that activity and the other commands are
    assumed to keep of the rest of the database. *)
Inductive delivery_step (aside : Db -> Db -> Prop) (id : string) (job : JobId) : Races -> Races -> Prop :=
| race_begin cf ds own ran c x v :
    ctx_job_id (ex_ctx x) = job -> execution_verdict x = Some v -> ds !! c = None ->
    delivery_step aside id job (mkRaces cf ds own ran) (mkRaces cf (<[c := x]> ds) own ran)
| race_read cf cf' ds own ran :
    read_step config id cf cf' -> delivery_step aside id job (mkRaces cf ds own ran) (mkRaces cf' ds own ran)
| race_deliver cf cf' ds own ran c x v context r :
    ds !! c = Some x -> execution_verdict x = Some v ->
    commit_by config event_type event_version max_delay clock id c context (settle_cmd v) r cf cf' ->
    delivery_step aside id job (mkRaces cf ds own ran)
      (mkRaces cf' (delete c ds) own (ran ++ [(x, reported x (delivery_answer r))]))
| race_fail cf ds own ran c x e :
    ds !! c = Some x ->
    delivery_step aside id job (mkRaces cf ds own ran) (mkRaces cf (delete c ds) own (ran ++ [(x, reported x (Err e))]))
| race_lost cf ds own ran c :
    delivery_step aside id job (mkRaces cf ds own ran) (mkRaces cf (delete c ds) own ran)
| race_quiet cf ds own ran x answer :
    ctx_job_id (ex_ctx x) = job -> execution_verdict x = None ->
    delivery_step aside id job (mkRaces cf ds own ran) (mkRaces cf ds own (ran ++ [(x, reported x answer)]))
| race_command cf cf' ds own ran c context command r :
    ds !! c = None -> keeps_dispatch job command ->
    commit_by config event_type event_version max_delay clock id c context command r cf cf' ->
    (forall events pending, handle (ctx_aggregate context) command (Some []) = (Ok events, pending) ->
       storable (ctx_aggregate context) events /\ undivided (SNAPSHOT_SIZE config) events) ->
    aside (cf_db cf) (cf_db cf') ->
    delivery_step aside id job (mkRaces cf ds own ran)
      (mkRaces cf' ds (own ++ drop (length (cf_log cf)) (cf_log cf')) ran)
| race_compact cf cf' ds own ran :
    compaction_step config id cf cf' -> delivery_step aside id job (mkRaces cf ds own ran) (mkRaces cf' ds own ran)
| race_other db db' log accepted clients ds own ran :
    well_formed db' -> stream_rows T id db' = stream_rows T id db ->
    db_snapshots db' !! (T, id) = db_snapshots db !! (T, id) -> aside db db' ->
    delivery_step aside id job (mkRaces (mkConfig db log accepted clients) ds own ran)
      (mkRaces (mkConfig db' log accepted clients) ds own ran).

(** An execution reports done only of a confirmed origin, rejected only of a failed one. *)
Definition backs (v : option Verdict_) (r : result Failure (JobOutcome ())) : Prop :=
  match r with
  | Ok (OutDone _) => exists s, v = Some (VerdictConfirmed s)
  | Err (Terminal _) => exists f, v = Some (VerdictFailed f)
  | _ => True
  end.
Definition ended (job : JobId) (v : option Verdict_) (entry : Execution * result Failure (JobOutcome ())) : Prop :=
  ctx_job_id (ex_ctx entry.1) = job /\ backs v entry.2.

(** Where the origin stands: [v] is the verdict that settled its dispatch, if one did,
    [log] what it was when the job was in flight. *)
Record delivered (id : string) (log : list Event) (job : JobId) (v : option Verdict_) (c : Races) : Prop := {
  dl_store : exists floor, inv id (cf_log (rc_store c)) floor (cf_db (rc_store c)) /\
    map_Forall (fun _ => client_ok (cf_log (rc_store c)) floor) (cf_clients (rc_store c));
  dl_origin : exists entity, replay Uninitialized (cf_log (rc_store c)) = Live entity /\ verdict_stands job v entity;
  dl_log : match v with
    | None => cf_log (rc_store c) = log ++ rc_own c
    | Some u => exists own own', rc_own c = own ++ own' /\ cf_log (rc_store c) = log ++ own ++ event_of u :: own'
    end;
  dl_executed : forall u, v = Some u -> exists x r, (x, r) ∈ rc_ran c /\ execution_verdict x = Some u;
  dl_ran : Forall (ended job v) (rc_ran c);
  dl_delivering : forall k x, rc_delivering c !! k = Some x -> ctx_job_id (ex_ctx x) = job;
  dl_loaded : forall k context, cf_clients (rc_store c) !! k = Some (Loaded context) -> exists v' entity,
    ctx_aggregate context = Live entity /\ verdict_stands job v' entity /\ (v' = v \/ v' = None);
}.

(** What the origin answers to a verdict, by where it stands. *)
Lemma settle_standing job v entity (u : Verdict_) :
  verdict_stands job v entity -> verdict_for job u ->
  match v with
  | None => handle (Live entity) (settle_cmd u) (Some []) = (Ok [event_of u], Some []) /\
      storable (Live entity : Lifecycle Entity Event Error) [event_of u] /\
      exists entity', evolve entity (event_of u) = Ok (Some entity') /\ verdict_stands job (Some u) entity'
  | Some u0 => forall events pending, handle (Live entity) (settle_cmd u) (Some []) = (Ok events, pending) ->
      events = [] /\ same_kind u u0 = true
  end.
Proof.
  intros Hv Hu. pose proof (handle_settle entity u) as Hh. destruct v as [u0|]; destruct Hv as [Hd Hst].
  - intros events pending He. rewrite Hst in Hh. destruct (settle (J := J) _ u) as [es|e] eqn:Hs; [|destruct Hh as [e' Hh]; congruence].
    rewrite Hh in He. injection He as <- <-. destruct (settle_shape _ _ _ Hs) as [(_ & Hf & _)|(-> & v1 & Hv1 & Hk)].
    + by destruct u0.
    + split; [done|]. by destruct u0, v1.
  - rewrite <-(proj1 Hu) in Hd. destruct (settle_in_flight (J := J) _ u eq_refl) as [Hset Hev]. rewrite <-Hd in Hev.
    rewrite Hd, Hset in Hh. split; [done|]. split; [by apply Hst|].
    destruct (evolve_dispatch _ _ _ Hev) as (entity' & He & Hd'). by exists entity'.
Qed.

Lemma stands_in_flight job v entity : verdict_stands job None entity -> verdict_stands job v entity -> v = None.
Proof. intros [Hd _]. destruct v as [u|]; [|done]. intros [_ Hu]. rewrite Hd in Hu. by destruct u. Qed.

(** Once settled, the origin backs what it backed in flight. *)
Lemma backs_mono v v' r : v' = v \/ v = None -> backs v r -> backs v' r.
Proof. intros [->| ->]; [done|]. destruct r as [[]|[]]; try done; by intros [? [=]]. Qed.

Lemma ended_snoc job v v' ran x r :
  v' = v \/ v = None -> Forall (ended job v) ran -> ctx_job_id (ex_ctx x) = job -> backs v' r ->
  Forall (ended job v') (ran ++ [(x, r)]).
Proof.
  intros Hv Hran Hx Hr. apply Forall_app. split; [|constructor; [by split|done]].
  eapply Forall_impl; [exact Hran|]. intros y [Hy Hb]. split; [done|]. by eapply backs_mono.
Qed.

Lemma executed_mono u (ran : Ran) entry :
  (exists x r, (x, r) ∈ ran /\ execution_verdict x = Some u) -> exists x r, (x, r) ∈ ran ++ [entry] /\ execution_verdict x = Some u.
Proof. intros (x & r & Hin & Hx). exists x, r. split; [apply elem_of_app; by left|done]. Qed.

(** Without an acknowledged verdict nothing is reported that needs backing. *)
Lemma reported_unanswered v x answer : (answer <> Ok () \/ execution_verdict x = None) -> backs v (reported x answer).
Proof.
  intros Hn. pose proof (reported_spec x answer) as Hr. unfold backs.
  destruct (reported x answer) as [[]|[]]; try done; destruct Hr as [-> [? Hr]]; rewrite Hr in Hn; by destruct Hn.
Qed.

Lemma reported_answered v x u answer u0 :
  execution_verdict x = Some u -> v = Some u0 -> same_kind u u0 = true -> backs v (reported x answer).
Proof.
  intros Hx -> Hk. pose proof (reported_spec x answer) as Hr. unfold backs.
  destruct (reported x answer) as [[]|[]]; try done; destruct Hr as [_ [? Hr]]; rewrite Hx in Hr; injection Hr as ->;
    destruct u0; try done; by eexists.
Qed.

(** ** Steps *)

Section steps.
Context (aside : Db -> Db -> Prop) (id : string) (log : list Event) (job : JobId).
Context (HT : T <> JOB_AGGREGATE_TYPE).

Abbreviation delivered_ := (delivered id log job).

(** What follows a step that leaves the origin's log and the verdict as they were. *)
Lemma delivered_same v cf ds own ran cf' ds' ran' :
  delivered_ v (mkRaces cf ds own ran) -> cf_log cf' = cf_log cf ->
  (exists floor, inv id (cf_log cf) floor (cf_db cf') /\ map_Forall (fun _ => client_ok (cf_log cf) floor) (cf_clients cf')) ->
  (forall k context, cf_clients cf' !! k = Some (Loaded context) ->
     cf_clients cf !! k = Some (Loaded context) \/ stands_at (cf_log cf) (length (cf_log cf)) context) ->
  (forall k x, ds' !! k = Some x -> ctx_job_id (ex_ctx x) = job) ->
  (ran' = ran \/ exists x r, ran' = ran ++ [(x, r)] /\ ctx_job_id (ex_ctx x) = job /\ backs v r) ->
  delivered_ v (mkRaces cf' ds' own ran').
Proof.
  intros [Hs Ho Hl He Hr Hd Hld] Hlog Hs' Hld' Hd' Hr'. cbn in *. split; cbn; rewrite ?Hlog; try done.
  - intros u Hu. destruct Hr' as [->|(x & r & -> & _)]; [by apply He|]. by apply executed_mono, He.
  - destruct Hr' as [->|(x & r & -> & Hx & Hb)]; [done|]. by eapply ended_snoc; [left|..].
  - intros k context Hk. destruct (Hld' _ _ Hk) as [Hc|(Ha & _)]; [by eapply Hld|].
    destruct Ho as (entity & Hlive & Hst). exists v, entity.
    rewrite Ha, state_after_all by done. split; [done|]. split; [done|by left].
Qed.

(** A commit that lands extends the log by what its command decides on now. *)
Lemma commit_lands v cf ds own ran c context command r cf' :
  delivered_ v (mkRaces cf ds own ran) ->
  commit_by config event_type event_version max_delay clock id c context command r cf cf' ->
  (forall k ctx', cf_clients cf' !! k = Some (Loaded ctx') -> cf_clients cf !! k = Some (Loaded ctx')) /\
  (exists v' entity, ctx_aggregate context = Live entity /\ verdict_stands job v' entity /\ (v' = v \/ v' = None)) /\
  ((cf_log cf' = cf_log cf /\ (exists floor, inv id (cf_log cf) floor (cf_db cf') /\
      map_Forall (fun _ => client_ok (cf_log cf) floor) (cf_clients cf')) /\
      cf_db cf' = cf_db cf /\
      match r with Ok _ => (handle (ctx_aggregate context) command (Some [])).1 = Ok [] | Err _ => True end) \/
   exists events pending prepared, handle (ctx_aggregate context) command (Some []) = (Ok events, pending) /\ events <> [] /\
     r = Ok () /\ ctx_aggregate context = replay Uninitialized (cf_log cf) /\ cf_log cf' = cf_log cf ++ events /\
     prepare_pending max_delay clock pending = Some (Ok prepared) /\
     (let request := persist_request T (number (wrap config event_type event_version id) (Z.of_nat (length (cf_log cf))) events)
                       (update_for config id context command) (prepared_requests prepared) in
      accepted request (cf_db cf) /\ cf_db cf' = committed request (cf_db cf)) /\
     stands_at (cf_log cf) (length (cf_log cf)) context /\
     (storable (ctx_aggregate context) events -> undivided (SNAPSHOT_SIZE config) events ->
      exists floor, inv id (cf_log cf') floor (cf_db cf') /\ map_Forall (fun _ => client_ok (cf_log cf') floor) (cf_clients cf'))).
Proof.
  intros [(floor & Hinv & Hcl) _ _ _ _ _ Hld] Hs. destruct Hs as [log0 acc clients m w r w' Hc Hm Hop]. cbn in *.
  split; [|split; [by eapply Hld|]].
  { destruct (log_after _ _ _ _ _). cbn. by intros k ctx' [_ ?]%lookup_delete_Some. }
  destruct (Hcl _ _ Hc) as (n & Hn & Hst).
  pose proof (commit_outcome config event_type event_version max_delay clock id log0 floor w n context command m r w' HT Hinv Hn Hst Hm Hop) as Hok.
  assert (map_Forall (fun _ => client_ok log0 floor) (delete c clients)) as Hdel by (by apply map_Forall_delete).
  unfold log_after. destruct r as [[]|e]; cbn.
  2: { left. split; [done|]. rewrite Hok. split_and!; try done. by exists floor. }
  destruct Hok as (events & pending & Hh & Hok). rewrite Hh. destruct events as [|e events]; cbn.
  { left. rewrite Hok. split_and!; try done. by exists floor. }
  right. destruct Hok as (Hend & Ha & (prepared & Hp & Hacc & Hdb) & Hinv'). subst n. exists (e :: events), pending, prepared.
  split_and!; try done. intros Hsto Hwhole. exists floor. split; [by apply Hinv'|].
  eapply map_Forall_impl; [exact Hdel|]. intros i x. apply client_ok_app.
Qed.

(** A delivery lands on an origin in flight, once; a settled origin gains nothing. *)
Lemma verdict_commit_ok v cf ds own ran c x u context r cf' :
  delivered_ v (mkRaces cf ds own ran) -> ds !! c = Some x -> execution_verdict x = Some u ->
  commit_by config event_type event_version max_delay clock id c context (settle_cmd u) r cf cf' ->
  exists v', delivered_ v' (mkRaces cf' (delete c ds) own (ran ++ [(x, reported x (delivery_answer r))])) /\ (v' = v \/ v = None).
Proof.
  intros Hd Hc Hu Hs. pose proof (dl_delivering _ _ _ _ _ Hd c x Hc) as Hx.
  assert (verdict_for job u) as Huj by (rewrite <-Hx; by apply execution_verdict_for).
  assert (forall k y, delete c ds !! k = Some y -> ctx_job_id (ex_ctx y) = job) as Hds'.
  { intros k y [_ Hk]%lookup_delete_Some. by eapply (dl_delivering _ _ _ _ _ Hd). }
  destruct (commit_lands _ _ _ _ _ _ _ _ _ _ Hd Hs) as (Hold & (v0 & entity0 & Ha & Hst0 & Hv0) & Hcase).
  pose proof (settle_standing job v0 entity0 u Hst0 Huj) as Hset.
  destruct Hcase as [(Hl & Hs' & _ & Hr)|(events & pending & prepared & Hh & Hne & -> & Hcur & Hl & _ & _ & _ & Hs')].
  - exists v. split; [|by left]. eapply delivered_same; [exact Hd|exact Hl|exact Hs'|by intros; left; apply Hold|exact Hds'|].
    right. exists x, (reported x (delivery_answer r)). split; [done|]. split; [done|].
    destruct r as [[]|e]; [|apply reported_unanswered; by left]. rewrite Ha in Hr. destruct v0 as [u0|].
    + destruct (handle _ _ _) as [[es|?] pend] eqn:Hh; [|done]. destruct (Hset _ _ eq_refl) as [_ Hk].
      destruct Hv0 as [Hv0|[=]]. by eapply reported_answered.
    + destruct Hset as [Hh _]. by rewrite Hh in Hr.
  - destruct v0 as [u0|]; [rewrite Ha in Hh; by destruct (Hset _ _ Hh)|].
    destruct Hset as (Hh' & Hsto & entity' & Hev & Hst'). rewrite Ha, Hh' in Hh. injection Hh as <- <-.
    pose proof (dl_origin _ _ _ _ _ Hd) as (entity & Hlive & Hst). cbn in Hlive. rewrite <-Hcur, Ha in Hlive. injection Hlive as <-.
    assert (v = None) as -> by (by eapply stands_in_flight). exists (Some u).
    destruct Hd as [_ _ Hlog _ Hran _ Hld]. cbn in *. split; [|by right]. split; cbn.
    + apply Hs'; [by rewrite Ha|by right].
    + exists entity'. rewrite Hl, replay_app, <-Hcur, Ha. cbn. by rewrite Hev.
    + exists own, []. split; [by rewrite app_nil_r|]. by rewrite Hl, Hlog, <-app_assoc.
    + intros u' [= <-]. exists x, (reported x (Ok ())). split; [apply elem_of_app; right; by constructor|done].
    + eapply ended_snoc; [by right|done|done|]. by eapply reported_answered; [|done|destruct u].
    + done.
    + intros k context' Hk. destruct (Hld _ _ (Hold _ _ Hk)) as (v1 & e1 & ? & ? & [->| ->]); exists None, e1; auto.
Qed.

(** Another command leaves the dispatch where it stands. *)
Lemma other_command_ok v cf ds own ran c context command r cf' :
  delivered_ v (mkRaces cf ds own ran) -> keeps_dispatch job command ->
  commit_by config event_type event_version max_delay clock id c context command r cf cf' ->
  (forall events pending, handle (ctx_aggregate context) command (Some []) = (Ok events, pending) ->
     storable (ctx_aggregate context) events /\ undivided (SNAPSHOT_SIZE config) events) ->
  delivered_ v (mkRaces cf' ds (own ++ drop (length (cf_log cf)) (cf_log cf')) ran).
Proof.
  intros Hd Hkeep Hs Hsto. destruct (commit_lands _ _ _ _ _ _ _ _ _ _ Hd Hs) as (Hold & _ & Hcase).
  destruct Hcase as [(Hl & Hs' & _)|(events & pending & prepared & Hh & _ & _ & Hcur & Hl & _ & _ & _ & Hs')].
  - rewrite Hl, drop_all, app_nil_r. eapply delivered_same; [exact Hd|exact Hl|exact Hs'|by intros; left; apply Hold| |by left].
    apply Hd.
  - rewrite Hl, drop_app_length. destruct Hd as [_ (entity & Hlive & Hst) Hlog He Hran Hds Hld]. cbn in *.
    destruct (Hsto _ _ Hh) as [Hsto1 Hsto2]. rewrite Hcur, Hlive in Hh.
    destruct (Hkeep v entity events pending Hst Hh) as (entity' & Hr' & Hst').
    split; cbn; [by apply Hs'| | |done|done|done|].
    + exists entity'. by rewrite Hl, replay_app, Hlive, Hr'.
    + rewrite Hl. destruct v as [u|]; [|by rewrite Hlog, <-app_assoc].
      destruct Hlog as (own1 & own2 & -> & ->). exists own1, (own2 ++ events). by rewrite <-!app_assoc, <-app_comm_cons.
    + intros k context' Hk. by apply (Hld k), Hold.
Qed.

Lemma delivery_step_ok v c c' :
  delivery_step aside id job c c' -> delivered_ v c -> exists v', delivered_ v' c' /\ (v' = v \/ v = None).
Proof.
  intros Hs Hd. pose proof Hd as [(floor & Hinv & Hcl) (entity & Hlive & Hst) Hlog He Hr Hds Hld].
  destruct Hs as
    [cf ds own ran c x u Hx Hu Hn|cf cf' ds own ran Hs|cf cf' ds own ran c x u context r Hc Hu Hs|cf ds own ran c x e Hc
    |cf ds own ran c|cf ds own ran x answer Hx Hu|cf cf' ds own ran c context command r Hn Hkeep Hs Hsto _
    |cf cf' ds own ran Hs|db db' log' accepted clients ds own ran Hwf Hrows Hsn _]; cbn in *.
  - exists v. split; [|by left]. eapply delivered_same; [exact Hd|done|by exists floor|by left| |by left].
    intros k y. destruct (decide (k = c)) as [->|]; [rewrite lookup_insert_eq; congruence|rewrite lookup_insert_ne by done; apply Hds].
  - exists v. split; [|by left]. destruct (read_step_ok config event_type event_version id floor cf cf' Hs Hinv Hcl) as (Hdb & Hl & _ & Hcl' & Hnew).
    eapply delivered_same; [exact Hd|done|exists floor; by rewrite Hdb|exact Hnew|done|by left].
  - by eapply verdict_commit_ok.
  - exists v. split; [|by left]. eapply delivered_same; [exact Hd|done|by exists floor|by left| |].
    + intros k y [_ Hk]%lookup_delete_Some. by eapply Hds.
    + right. exists x, (reported x (Err e)). split; [done|]. split; [by eapply Hds|]. apply reported_unanswered. by left.
  - exists v. split; [|by left]. eapply delivered_same; [exact Hd|done|by exists floor|by left| |by left].
    intros k y [_ Hk]%lookup_delete_Some. by eapply Hds.
  - exists v. split; [|by left]. eapply delivered_same; [exact Hd|done|by exists floor|by left|done|].
    right. exists x, (reported x answer). split; [done|]. split; [done|]. apply reported_unanswered. by right.
  - exists v. split; [by eapply other_command_ok|by left].
  - exists v. split; [|by left].
    destruct (compaction_step_ok config event_type event_version id floor cf cf' Hs Hinv Hcl) as (Hl & _ & Hc & _ & floor' & Hinv' & Hcl').
    eapply delivered_same; [exact Hd|done|exists floor'; by rewrite Hc|by rewrite Hc; left|done|by left].
  - exists v. split; [|by left]. eapply delivered_same; [exact Hd|done| |by left|done|by left].
    exists floor. split; [|done]. by eapply inv_other.
Qed.
End steps.

Lemma delivery_steps_ok aside id log job v c c' :
  T <> JOB_AGGREGATE_TYPE -> rtc (delivery_step aside id job) c c' -> delivered id log job v c ->
  exists v', delivered id log job v' c' /\ (v' = v \/ v = None).
Proof.
  intros HT Hs. revert v. induction Hs as [c|c1 c2 c3 Hs _ IH]; intros v Hd; [exists v; by split; [|left]|].
  destruct (delivery_step_ok aside id log job HT v c1 c2 Hs Hd) as (v2 & Hd2 & Hv2).
  destruct (IH v2 Hd2) as (v3 & Hd3 & Hv3). exists v3. split; [done|]. naive_solver.
Qed.

(** Nobody at work yet, on a database that holds [log]. *)
Definition quiescent (db : Db) (log : list Event) : Races := mkRaces (mkConfig db log [] ∅) ∅ [] [].

Lemma quiescent_delivered id log job entity floor db :
  inv id log floor db -> replay Uninitialized log = Live entity -> verdict_stands job None entity ->
  delivered id log job None (quiescent db log).
Proof.
  intros Hinv Hlive Hst. split; cbn; try done; [exists floor; split; [done|apply map_Forall_empty]|by exists entity|by rewrite app_nil_r].
Qed.

(** C7: At-least-once execution, exactly-once effect.  Let an entity's log end with a
    dispatch in flight, all verdicts of which can be stored.  Whatever number of
    executions of its job run, first ones, retries, redeliveries, and however they race:
    each loads the origin in two reads and commits later, under any driver failures, may
    fail or be lost on the way, and what the external system answers is arbitrary.  In
    between run other commands of the origin that do not touch the dispatch, whatever
    leaves the origin's stream and snapshot alone, and compaction, past none of them in
    flight if the origin compacts.  Then besides the events of the other commands the
    origin's log gains at most one, which carries the verdict of an execution that ended;
    once settled, the origin stays so.  An execution that reports the job done, and so
    may be acknowledged, finds the origin durably confirmed; one that reports it
    rejected, durably failed.  As long as no verdict arrived, an execution that settles
    with the external system, meets no driver failure and has room delivers it. *)
Theorem verdict_applied_once id log job entity floor db c c' :
  T <> JOB_AGGREGATE_TYPE -> inv id log floor db ->
  replay Uninitialized log = Live entity -> verdict_stands job None entity ->
  rtc (delivery_step (fun _ _ => True) id job) (quiescent db log) c -> rtc (delivery_step (fun _ _ => True) id job) c c' ->
  exists v v', delivered id log job v c /\ delivered id log job v' c' /\ (v' = v \/ v = None) /\
    (v' = None -> forall x s, ctx_job_id (ex_ctx x) = job -> ex_faults x = [] ->
       execution_verdict x = Some (VerdictConfirmed s) ->
       roomy config id (cf_log (rc_store c')) [event_of (VerdictConfirmed s)] (cf_db (rc_store c')) ->
       (execute id x (cf_db (rc_store c'))).1 = Ok (OutDone ())).
Proof.
  intros HT Hinv Hlive Hst Hrun Hrun'.
  destruct (delivery_steps_ok _ id log job None _ c HT Hrun) as (v & Hd & _); [by eapply quiescent_delivered|].
  destruct (delivery_steps_ok _ id log job v c c' HT Hrun' Hd) as (v' & Hd' & Hv). exists v, v'. split_and!; [done..|].
  intros -> x s Hx Hf Hu Hroom. destruct Hd' as [(floor' & Hinv' & _) (entity' & Hlive' & Hst' & _) _ _ _ _ _].
  by eapply execution_accepted.
Qed.
End origin.
