(* ===== verification/DispatchJson.v ===== *)
(** * The stored form of dispatches

    The derived [Serialize]/[Deserialize] of the dispatch types of
    src/crates/event-sorcery/src/dispatch.rs ([DispatchedJob], [DispatchEvent], [Settled],
    [SettledFailure], [DispatchFailure], [DispatchRefused]), over those of the job, its
    output and its error, with their round trips: what an entity stores of a dispatch is
    what it folds later. *)

From S2P Require Import Prelude Json Sqlite EventTable Lifecycle Schema Job Repository Dispatch.

#[global] Instance unit_serde : Serde () := {|
  ser _ := JNull;
  de j := match j with JNull => Some () | _ => None end |}.
#[global] Instance unit_serde_laws : SerdeLaws () (fun _ => True).
Proof. by intros []. Qed.

(** An empty enum has no value to write and none to read. *)
#[global] Instance never_serde : Serde Never := {| ser (e : Never) := match e return Json with end; de _ := None |}.
#[global] Instance never_serde_laws : SerdeLaws Never (fun _ => True).
Proof. by intros []. Qed.

Definition dispatch_refused_to_json (e : DispatchRefused) : Json :=
  JString match e with
          | RefusedInFlight => "InFlight"
          | AlreadyConfirmed => "AlreadyConfirmed"
          | OutcomeMismatch => "OutcomeMismatch"
          end.

Definition dispatch_refused_of_json (j : Json) : option DispatchRefused :=
  '(v, content) ← enum_of j;
  guard (unit_variant content = true);;
  if String.eqb v "InFlight" then Some RefusedInFlight
  else if String.eqb v "AlreadyConfirmed" then Some AlreadyConfirmed
  else if String.eqb v "OutcomeMismatch" then Some OutcomeMismatch
  else None.

#[global] Instance dispatch_refused_serde : Serde DispatchRefused := {|
  ser := dispatch_refused_to_json; de := dispatch_refused_of_json |}.
#[global] Instance dispatch_refused_serde_laws : SerdeLaws DispatchRefused (fun _ => True).
Proof. by intros []. Qed.

Section stored.
Context `{Ulid} {J Output JobError : Type} `{Serde J, Serde Output, Serde JobError}.

Abbreviation Failure := (DispatchFailure (Error := JobError)).
Abbreviation Settled_ := (Settled (Output := Output)).
Abbreviation SettledFailure_ := (SettledFailure (Error := JobError)).
Abbreviation State := (DispatchedJob (Output := Output) (Error := JobError)).
Abbreviation Event := (DispatchEvent (J := J) (Output := Output) (Error := JobError)).

Definition job_id_to_json (job_id : JobId) : Json := JString (ulid_to_string job_id).
Definition job_id_of_json (j : Json) : option JobId := as_string j ≫= ulid_from_str.

Definition dispatch_failure_to_json (failure : Failure) : Json :=
  match failure with
  | FailureRejected e => JObject [("Rejected", ser e)]
  | FailureDeadLettered reason detail =>
      tagged "DeadLettered" [("reason", dead_reason_to_json reason); ("detail", JString detail)]
  end.

Definition dispatch_failure_of_json (j : Json) : option Failure :=
  '(v, content) ← enum_of j;
  if String.eqb v "Rejected" then FailureRejected <$> (content ≫= de)
  else if String.eqb v "DeadLettered" then
    fs ← content ≫= struct_of ["reason"; "detail"];
    match fs with
    | [reason; detail] =>
        reason ← dead_reason_of_json reason; detail ← as_string detail;
        Some (FailureDeadLettered reason detail)
    | _ => None
    end
  else None.

Definition settled_to_json (s : Settled_) : Json :=
  JObject [("job_id", job_id_to_json (settled_job_id s)); ("output", ser (settled_output s));
           ("attempts", JInt (settled_attempts s))].

Definition settled_of_json (j : Json) : option Settled_ :=
  fs ← struct_of ["job_id"; "output"; "attempts"] j;
  match fs with
  | [job_id; output; attempts] =>
      job_id ← job_id_of_json job_id; output ← de output; attempts ← as_int in_u32 attempts;
      Some (mkSettled job_id output attempts)
  | _ => None
  end.

Definition settled_failure_to_json (f : SettledFailure_) : Json :=
  JObject [("job_id", job_id_to_json (failure_job_id f)); ("failure", dispatch_failure_to_json (failure_of f));
           ("attempts", JInt (failure_attempts f))].

Definition settled_failure_of_json (j : Json) : option SettledFailure_ :=
  fs ← struct_of ["job_id"; "failure"; "attempts"] j;
  match fs with
  | [job_id; failure; attempts] =>
      job_id ← job_id_of_json job_id; failure ← dispatch_failure_of_json failure;
      attempts ← as_int in_u32 attempts;
      Some (mkSettledFailure job_id failure attempts)
  | _ => None
  end.

Definition dispatched_job_to_json (self : State) : Json :=
  match self with
  | Idle => JString "Idle"
  | InFlight job_id => tagged "InFlight" [("job_id", job_id_to_json job_id)]
  | DjConfirmed s => JObject [("Confirmed", settled_to_json s)]
  | DjFailed f => JObject [("Failed", settled_failure_to_json f)]
  end.

Definition dispatched_job_of_json (j : Json) : option State :=
  '(v, content) ← enum_of j;
  if String.eqb v "Idle" then if unit_variant content then Some Idle else None
  else if String.eqb v "InFlight" then
    fs ← content ≫= struct_of ["job_id"];
    match fs with [job_id] => InFlight <$> job_id_of_json job_id | _ => None end
  else if String.eqb v "Confirmed" then DjConfirmed <$> (content ≫= settled_of_json)
  else if String.eqb v "Failed" then DjFailed <$> (content ≫= settled_failure_of_json)
  else None.

Definition dispatch_event_to_json (event : Event) : Json :=
  match event with
  | Dispatched job_id job => tagged "Dispatched" [("job_id", job_id_to_json job_id); ("job", ser job)]
  | EvConfirmed s => JObject [("Confirmed", settled_to_json s)]
  | EvFailed f => JObject [("Failed", settled_failure_to_json f)]
  end.

Definition dispatch_event_of_json (j : Json) : option Event :=
  '(v, content) ← enum_of j;
  if String.eqb v "Dispatched" then
    fs ← content ≫= struct_of ["job_id"; "job"];
    match fs with
    | [job_id; job] => job_id ← job_id_of_json job_id; job ← de job; Some (Dispatched job_id job)
    | _ => None
    end
  else if String.eqb v "Confirmed" then EvConfirmed <$> (content ≫= settled_of_json)
  else if String.eqb v "Failed" then EvFailed <$> (content ≫= settled_failure_of_json)
  else None.

#[global] Instance dispatched_job_serde : Serde State := {|
  ser := dispatched_job_to_json; de := dispatched_job_of_json |}.
#[global] Instance dispatch_event_serde : Serde Event := {|
  ser := dispatch_event_to_json; de := dispatch_event_of_json |}.

(** ** Round trips *)

Context `{!UlidLaws} (Pj : J -> Prop) (Po : Output -> Prop) (Pe : JobError -> Prop).
Context `{!SerdeLaws J Pj, !SerdeLaws Output Po, !SerdeLaws JobError Pe}.

Definition settled_ok (s : Settled_) : Prop := Po (settled_output s) /\ in_u32 (settled_attempts s) = true.
Definition settled_failure_ok (f : SettledFailure_) : Prop :=
  match failure_of f with FailureRejected e => Pe e | FailureDeadLettered _ _ => True end /\
  in_u32 (failure_attempts f) = true.

Local Ltac decode := lazy -[job_id_of_json job_id_to_json dispatch_failure_of_json dispatch_failure_to_json
  settled_of_json settled_to_json settled_failure_of_json settled_failure_to_json in_u32 ser de].

Lemma job_id_round_trip job_id : job_id_of_json (job_id_to_json job_id) = Some job_id.
Proof. apply ulid_from_str_to_string. Qed.

Lemma dispatch_failure_round_trip failure :
  match failure with FailureRejected e => Pe e | FailureDeadLettered _ _ => True end ->
  dispatch_failure_of_json (dispatch_failure_to_json failure) = Some failure.
Proof.
  destruct failure as [e|[] detail]; intros Hok; [|done..].
  unfold dispatch_failure_of_json, dispatch_failure_to_json. decode. by rewrite (de_ser e Hok).
Qed.

Lemma settled_round_trip s : settled_ok s -> settled_of_json (settled_to_json s) = Some s.
Proof.
  destruct s as [job_id output attempts]. intros [Ho Ha]. cbn in Ho, Ha. unfold settled_of_json, settled_to_json.
  decode. by rewrite job_id_round_trip, (de_ser output Ho), Ha.
Qed.

Lemma settled_failure_round_trip f :
  settled_failure_ok f -> settled_failure_of_json (settled_failure_to_json f) = Some f.
Proof.
  destruct f as [job_id failure attempts]. intros [Hf Ha]. cbn in Hf, Ha.
  unfold settled_failure_of_json, settled_failure_to_json. decode.
  by rewrite job_id_round_trip, dispatch_failure_round_trip, Ha.
Qed.

Definition dispatched_job_ok (self : State) : Prop :=
  match self with
  | Idle | InFlight _ => True
  | DjConfirmed s => settled_ok s
  | DjFailed f => settled_failure_ok f
  end.
Definition dispatch_event_ok (event : Event) : Prop :=
  match event with
  | Dispatched _ job => Pj job
  | EvConfirmed s => settled_ok s
  | EvFailed f => settled_failure_ok f
  end.

#[global] Instance dispatched_job_serde_laws : SerdeLaws State dispatched_job_ok.
Proof.
  intros [|job_id|s|f] Hok; [done| | |]; cbn [dispatched_job_ok ser de dispatched_job_serde] in *;
    unfold dispatched_job_of_json, dispatched_job_to_json; decode.
  - by rewrite job_id_round_trip.
  - by rewrite settled_round_trip.
  - by rewrite settled_failure_round_trip.
Qed.

#[global] Instance dispatch_event_serde_laws : SerdeLaws Event dispatch_event_ok.
Proof.
  intros [job_id job|s|f] Hok; cbn [dispatch_event_ok ser de dispatch_event_serde] in *;
    unfold dispatch_event_of_json, dispatch_event_to_json; decode.
  - by rewrite job_id_round_trip, (de_ser job Hok).
  - by rewrite settled_round_trip.
  - by rewrite settled_failure_round_trip.
Qed.

(** What an entity stores of a dispatch is what it folds: writing the events and reading
    them back changes nothing of the state they lead to. *)
Lemma stored_dispatch_folds self events :
  Forall dispatch_event_ok events ->
  dispatch_fold (J := J) self <$> mapM (fun e => de (ser e)) events = Some (dispatch_fold self events).
Proof.
  intros Hok. replace (mapM (fun e => de (ser e)) events) with (Some events); [done|].
  symmetry. apply mapM_Some, Forall_Forall2_diag. eapply Forall_impl; [exact Hok|].
  intros e He. by apply (de_ser (P := dispatch_event_ok)).
Qed.
End stored.
