(* ===== verification/Effects.v ===== *)
(** * Handler effects, multi-entity events and the test harness

    Models three small parts of src/crates/event-sorcery/src:
    - the [fx] conversions of dispatch.rs, which turn what a command handler returns
      (an event, events, a settlement, a kick-off, a guarded dispatch or an error) into
      its effect;
    - dependency.rs: the union [OneOf] of the events of several entities, and the
      [.on(..).on(..).exhaustive()] chain that consumes it.  A handler's future is its
      value here, whatever the type;
    - testing.rs: [replay], [TestHarness::when], [ReactorHarness::receive] and
      [SpyReactor]. *)

From S2P Require Import Prelude Json Sqlite EventTable Lifecycle Schema Job Repository Dispatch Reactor.

(** ** [fx] *)

(** A value a command handler can return as its whole outcome. *)
Class Fx (Event Error Value : Type) := produce : Value -> result Error (Effect Event).

Definition fx {Event Error Value} `{Fx Event Error Value} (value : Value) : result Error (Effect Event) :=
  produce value.

Definition uneventful {Event Error} : result Error (Effect Event) := Ok (Events []).

#[export] Instance fx_event {Event Error} : Fx Event Error Event := fun event => Ok (Events [event]).
#[export] Instance fx_events {Event Error} : Fx Event Error (list Event) := fun events => Ok (Events events).
#[export] Instance fx_failure {Event Error} : Fx Event Error Error := fun error => Err error.
#[export] Instance fx_guarded {Event Error} : Fx Event Error (JobDispatch Event) := fun dispatch => Ok (Dispatch dispatch).

(** How a job is wired into its origin: the origin's event enum absorbs the job's
    dispatch events, and the job has a kind and an encoding. *)
Class Wired (J Output JobError Event : Type) := {
  absorb : DispatchEvent (J := J) (Output := Output) (Error := JobError) -> Event;
  job_KIND : string;
  job_encode : J -> result JsonError Json;
}.

Section wired.
Context {J Output JobError Event Error : Type} `{Wired J Output JobError Event}.

#[export] Instance fx_settlement : Fx Event Error (list (DispatchEvent (J := J) (Output := Output) (Error := JobError))) :=
  fun events => Ok (Events (absorb <$> events)).

(** [Effect::kickoff]; [job_id] is the fresh id [kick] mints. *)
Definition kickoff (job_id : JobId) (job : J) : Effect Event :=
  Dispatch (kick absorb (job_KIND (J := J) (Output := Output) (JobError := JobError) (Event := Event)) job_encode job_id job).

Definition fx_kickoff (job_id : JobId) (job : J) : result Error (Effect Event) := Ok (kickoff job_id job).

(** [self.field.dispatch(job)] with the wiring of the job. *)
Definition dispatch_job (self : DispatchedJob (Output := Output) (Error := JobError)) (job_id : JobId) (job : J) :
    result DispatchRefused (JobDispatch Event) :=
  dispatch absorb (job_KIND (J := J) (Output := Output) (JobError := JobError) (Event := Event)) job_encode self job_id job.
End wired.

(** ** Events of several entities *)

Inductive OneOf (Head Tail : Type) : Type :=
| Here (head : Head)
| There (tail : Tail).
Arguments Here {Head Tail}.
Arguments There {Head Tail}.

(** An entity list is the list of its [(Id, Event)] types. *)
Fixpoint EntityEvent (entities : list Type) : Type :=
  match entities with
  | [] => Never
  | head :: tail => OneOf head (EntityEvent tail)
  end.

Inductive Fold (T Remaining : Type) : Type :=
| Done (result : T)
| Remaining_ (remaining : Remaining).
Arguments Done {T Remaining}.
Arguments Remaining_ {T Remaining}.

Definition one_of_on {A T Tail} (self : OneOf A Tail) (handler : A -> T) : Fold T Tail :=
  match self with
  | Here head => Done (handler head)
  | There tail => Remaining_ tail
  end.

Definition fold_on {A T Tail} (self : Fold T (OneOf A Tail)) (handler : A -> T) : Fold T Tail :=
  match self with
  | Done result => Done result
  | Remaining_ one_of => one_of_on one_of handler
  end.

(** The handler of [on_with_fallback]: on an error the fallback reprocesses the event. *)
Definition with_fallback {A E O St} (handler : A -> St -> result E O * St)
    (fallback : E -> A -> St -> result E O * St) (event : A) (st : St) : result E O * St :=
  match handler event st with
  | (Ok ok, st) => (Ok ok, st)
  | (Err error, st) => fallback error event st
  end.

Definition exhaustive {T} (self : Fold T Never) : T :=
  match self with
  | Done result => result
  | Remaining_ never => match never with end
  end.

Definition into_inner {A} (self : OneOf A Never) : A :=
  match self with
  | Here inner => inner
  | There never => match never with end
  end.

(** [HasEntity<Entity>] for a list, by position, and its [inject]: [There] once for every
    entity before the current one. *)
Inductive HasEntity (A : Type) : list Type -> Type :=
| EntityHere tail : HasEntity A (A :: tail)
| EntityThere B tail : HasEntity A tail -> HasEntity A (B :: tail).
Arguments EntityHere {A} tail.
Arguments EntityThere {A} B {tail}.

Fixpoint inject {A entities} (has : HasEntity A entities) : A -> EntityEvent entities :=
  match has with
  | EntityHere _ => fun event => Here event
  | EntityThere _ has => fun event => There (inject has event)
  end.

(** One handler per entity of the list, and the chain that applies them in order. *)
Fixpoint Handlers (T : Type) (entities : list Type) : Type :=
  match entities with
  | [] => unit
  | head :: tail => (head -> T) * Handlers T tail
  end.

Fixpoint chain {T} (entities : list Type) : Fold T (EntityEvent entities) -> Handlers T entities -> T :=
  match entities with
  | [] => fun folded _ => exhaustive folded
  | head :: tail => fun folded handlers => chain tail (fold_on folded handlers.1) handlers.2
  end.

Fixpoint handler_of {A entities} (has : HasEntity A entities) : forall T, Handlers T entities -> A -> T :=
  match has with
  | EntityHere _ => fun T handlers => handlers.1
  | EntityThere _ has => fun T handlers => handler_of has T handlers.2
  end.

Lemma chain_done {T} entities (result : T) handlers : chain entities (Done result) handlers = result.
Proof. induction entities as [|A tail IH]; [done|]. apply IH. Qed.

(** An event of one entity reaches that entity's handler and no other, wherever the
    entity stands in the list. *)
Theorem chain_routes {T A entities} (has : HasEntity A entities) (handlers : Handlers T entities) event :
  chain entities (Remaining_ (inject has event)) handlers = handler_of has T handlers event.
Proof.
  induction has as [tail|B tail has IH]; simpl; [apply chain_done|]. apply IH.
Qed.

(** ** Test support *)

Section testing.
Context {Entity Event Command Error : Type} `{EventSourced Entity Event Command Error}.

(** [testing::replay]. *)
Definition replay_entity (events : list Event) : result (LifecycleError Entity Event Error) (option Entity) :=
  into_result (replay Uninitialized events).

(** [TestHarness::given(given).when(command)]: the jobs the handler buffered are
    discarded with the scope. *)
Definition when (given : list Event) (command : Command) : result (LifecycleError Entity Event Error) (list Event) :=
  (handle (replay Uninitialized given) command (Some [])).1.

(** What the harness accepts replays: a test that expects events expects a history the
    store can load. *)
Lemma when_extends given command events :
  when given command = Ok events -> exists state, replay_entity (given ++ events) = Ok state.
Proof.
  unfold when, replay_entity. destruct (handle _ _ _) as [r pending] eqn:Hh. intros [= ->].
  apply handle_accepts in Hh. rewrite <-replay_app in Hh. destruct (replay _ _); [by eexists..|done].
Qed.
End testing.

(** [SpyReactor]: the log of what was dispatched. *)
#[export] Instance spy_reactor {Id Event : Type} : Reactor Id Event (list (Id * Event)) Never := {|
  reactor_react id event log := (Ok (), log ++ [(id, event)]) |}.

(** [ReactorHarness::receive]. *)
Definition receive {A entities St E} (has : HasEntity A entities)
    (react : EntityEvent entities -> St -> result E () * St) (event : A) : St -> result E () * St :=
  react (inject has event).

(** A spy captures every dispatched event once, in order. *)
Lemma spy_captures {Id Event} (id : Id) (events : list Event) log :
  dispatch_events id events log = ([], log ++ ((fun e => (id, e)) <$> events)).
Proof.
  revert log. induction events as [|e events IH]; intros log; simpl; [by rewrite app_nil_r|].
  rewrite IH. simpl. by rewrite <-(assoc_L (++)).
Qed.
