(* ===== verification/TestDouble.v ===== *)
(** * The in-memory store

    Models [TestStore] of src/crates/event-sorcery/src/testing.rs with the assertions of
    [TestResult]: the double of [Store] that unit tests run against.  The in-memory event
    store it wraps belongs to [cqrs-es] and is an interface, [MemStore].

    [test_store_agrees] compares the double with the store it stands for: on a command
    that dispatches no job both do the same to the log; a command that dispatches one is
    refused by the double, which opens no pending-job scope. *)

From S2P Require Import Prelude Json Sqlite EventTable Lifecycle Schema Job Engine EngineProps.
From S2P Require Import ViewRepository Repository SchemaRecovery Projection Startup Store StoreProps Effects.

(** [mem_store::MemStore]: a stream of events per aggregate. *)
Class MemStore (Event : Type) := {
  Mem : Type;
  mem_default : Mem;
  mem_events : Mem -> string -> list Event;
  mem_commit : Mem -> string -> list Event -> Mem;
}.

Class MemStoreLaws (Event : Type) `{MemStore Event} := {
  mem_events_default : forall id, mem_events mem_default id = [];
  mem_events_commit : forall m id events id', mem_events (mem_commit m id events) id' =
    if decide (id' = id) then mem_events m id ++ events else mem_events m id';
}.

Section test_store.
Context {Entity Event Command Error : Type} `{EventSourced Entity Event Command Error} `{MemStore Event}.

Abbreviation Agg := (Lifecycle Entity Event Error).
Abbreviation LcError := (LifecycleError Entity Event Error).

(** ** Harness *)

(** [TestHarness]: the history a command is tried against. *)
Definition harness_new : list Event := [].
Definition given (events : list Event) (self : list Event) : list Event := events.
Definition given_no_previous_events (self : list Event) : list Event := self.

(** The assertions of [TestResult]; [None] is their panic. *)
Definition then_expect_events `{EqDecision Event} (expected : list Event) (r : result LcError (list Event)) : option () :=
  match r with Ok events => if decide (events = expected) then Some () else None | Err _ => None end.
Definition then_expect_no_events (r : result LcError (list Event)) : option () :=
  match r with Ok [] => Some () | _ => None end.
Definition then_expect_error (r : result LcError (list Event)) : option LcError :=
  match r with Err e => Some e | Ok _ => None end.
Definition result_events (r : result LcError (list Event)) : option (list Event) :=
  match r with Ok events => Some events | Err _ => None end.

(** ** The store *)

Definition test_new : Mem := mem_default.

(** [TestStore::send]: the framework runs the command outside any pending-job scope. *)
Definition test_send (id : string) (command : Command) (m : Mem) : result (AggregateError LcError) () * Mem :=
  match (handle (replay Uninitialized (mem_events m id)) command None).1 with
  | Err e => (Err (UserError e), m)
  | Ok [] => (Ok (), m)
  | Ok events => (Ok (), mem_commit m id events)
  end.

Definition test_load (id : string) (m : Mem) : result LcError (option Entity) :=
  into_result (replay (Uninitialized : Agg) (mem_events m id)).

(** What a handler does outside a scope, from what it does inside an empty one. *)
Lemma handle_unscoped (state : Agg) command :
  exists r pushes, handle state command (Some []) = (r, Some pushes) /\
    (handle state command None).1 =
      match pushes with [] => r | _ => Err (LcDispatchNotBuffered NotBuffered) end.
Proof.
  unfold handle. destruct (match state with Uninitialized => _ | Live _ => _ | Failed _ _ => _ end) as [[events|d]|e];
    [|cbn; repeat case_match; by eauto|by eauto].
  destruct events as [|e events]; [by eauto|]. destruct (write_all state (e :: events)); by eauto.
Qed.
End test_store.

(** ** The double against the store *)

Section agrees.
Context `{SerdeJsonLaws, Chrono, Ulid}.
Context {Entity Event Command Error : Type} `{EventSourced Entity Event Command Error}.
Context `{Serde Entity, Serde Event, Serde Error}.
Context `{!CqrsEs Entity Event Error} `{!CqrsEsLaws}.
Context `{MemStore Event, !MemStoreLaws Event}.
Context (config : EntityConfig) (event_type event_version : Event -> string).
Context (max_delay : Z) (clock : nat -> Z).

Abbreviation inv := (Store.store_inv (Entity := Entity) (Command := Command) (Error := Error) config event_type event_version).
Abbreviation send_ := (send_command (Entity := Entity) (Event := Event) (Error := Error) config event_type event_version max_delay clock).
Abbreviation load_ := (store_load (Entity := Entity) (Event := Event) (Error := Error) config).
Abbreviation test_send_ := (test_send (Entity := Entity) (Error := Error)).

(** [test_store]: the SQLite store itself, with no queries. *)
Definition test_store_send := send_.

(** C40: The in-memory store stands for the SQLite one.  From an entity with the same log in
    both, and no driver failure, loading agrees.  A command whose handler dispatches no
    job has the same result in both, a refusal with its error included, and leaves both
    with the same log and the other streams of the double alone; for an accepted one, if
    the database has room for its events, they are storable, and no snapshot boundary
    divides the batch.  A
    command that does dispatch a job is refused by the in-memory store, which changes
    nothing. *)
Theorem test_store_agrees id floor command m db :
  AGGREGATE_TYPE config <> JOB_AGGREGATE_TYPE -> inv id (mem_events m id) floor db ->
  (run (load_ id) db).1 = map_err UserError (test_load id m) /\
  exists decision pushes, handle (replay Uninitialized (mem_events m id)) command (Some []) = (decision, Some pushes) /\
  let '(tested, m') := test_send_ id command m in
  match pushes with
  | _ :: _ => tested = Err (UserError (LcDispatchNotBuffered NotBuffered)) /\ m' = m
  | [] =>
      (forall events, decision = Ok events ->
         roomy config id (mem_events m id) events db /\ storable (replay Uninitialized (mem_events m id)) events /\
         undivided (SNAPSHOT_SIZE config) events) ->
      let '(sent, db') := run (test_store_send id command) db in
      sent = (Some <$> tested) /\ inv id (mem_events m' id) floor db' /\
      (forall id', id' <> id -> mem_events m' id' = mem_events m id')
  end.
Proof.
  intros HT Hinv. split.
  { pose proof (wp_run _ _ _ (wp_store_load config event_type event_version false id _ floor db Hinv)) as Hl.
    cbv beta in Hl. destruct (run (load_ id) db) as [r db']; cbn [fst snd] in *. destruct Hl as [_ Hl].
    unfold test_load. destruct r as [entity|e]; [by rewrite Hl|done]. }
  destruct (handle_unscoped (replay Uninitialized (mem_events m id)) command) as (decision & pushes & Hh & Hn).
  exists decision, pushes. split; [exact Hh|]. unfold test_send. rewrite Hn.
  destruct pushes as [|push pushes]; [|done].
  pose proof (send_spec config event_type event_version max_delay clock id _ floor command (mkWorld db []) HT Hinv) as Hs.
  unfold run, test_store_send. destruct (send_ id command (mkWorld db [])) as [sent w']. cbn [w_db w_faults] in Hs.
  destruct Hs as (Hout & Hlog & Hacc). destruct decision as [events|e].
  - destruct events as [|e events]; intros Hroom; destruct (Hroom _ eq_refl) as (Hr & Hst & Hwhole).
    + rewrite (Hacc eq_refl _ _ Hh (no_jobs_fit _ _ _) Hr) in *. destruct (Hlog eq_refl) as (es & p & Hh' & Hi).
      rewrite Hh in Hh'. injection Hh' as <- <-. specialize (Hi Hst Hwhole). rewrite app_nil_r in Hi. by split_and!.
    + rewrite (Hacc eq_refl _ _ Hh (no_jobs_fit _ _ _) Hr) in *. destruct (Hlog eq_refl) as (es & p & Hh' & Hi).
      rewrite Hh in Hh'. injection Hh' as <- <-. specialize (Hi Hst Hwhole). split_and!; [done| |].
      * by rewrite mem_events_commit, decide_True.
      * intros id' Hid. by rewrite mem_events_commit, decide_False.
  - intros _. unfold send_outcome in Hout. rewrite Hh in Hout. destruct sent as [[[]|]|e'].
    + destruct Hout as (? & ? & [=] & _).
    + destruct Hout as (_ & ? & ? & [=] & _).
    + destruct Hout as [-> He]. by rewrite (He eq_refl e eq_refl).
Qed.
End agrees.
