(* ===== verification/Decimal.v ===== *)
(** * Decimal text of 64-bit identifiers

    What the example applications use of the standard library to print and read their
    identifiers: [write!(f, "{:04}", n)] on a [u64] and [str::parse::<u64>], as
    [Display] and [FromStr] of [OrderId] (src/examples/complex/src/order.rs) and
    [TicketId] (src/examples/simple/src/support_ticket.rs) call them. *)

From Stdlib Require Import Ascii.
From S2P Require Import Prelude.

Inductive ParseIntError : Type := EmptyText | InvalidDigit | PosOverflow.

(** ** Digits *)

Definition digit_of_ascii (c : ascii) : option Z :=
  let n := Z.of_nat (nat_of_ascii c) in
  if ((48 <=? n) && (n <=? 57))%Z then Some (n - 48)%Z else None.
Definition ascii_of_digit (d : Z) : ascii := ascii_of_nat (Z.to_nat (d + 48)).

(** The digits of a number, least significant first; 20 digits hold any [u64]. *)
Fixpoint digits_rev (fuel : nat) (n : Z) : list Z :=
  match fuel with
  | 0 => []
  | S fuel => if (n <? 10)%Z then [n] else (n mod 10)%Z :: digits_rev fuel (n / 10)%Z
  end.
Definition digits (n : Z) : list Z := rev (digits_rev 20 n).

(** [{:0width}]: zeros up to the width. *)
Definition pad (width : nat) (l : list Z) : list Z := replicate (width - length l) 0%Z ++ l.
Definition text_of_digits (l : list Z) : string := String.string_of_list_ascii (ascii_of_digit <$> l).

(** [u64::from_str_radix(_, 10)] on the characters after the sign. *)
Definition push_digit (acc : result ParseIntError Z) (c : ascii) : result ParseIntError Z :=
  match acc with
  | Err e => Err e
  | Ok n =>
      match digit_of_ascii c with
      | None => Err InvalidDigit
      | Some d => if in_u64 (n * 10) && in_u64 (n * 10 + d) then Ok (n * 10 + d)%Z else Err PosOverflow
      end
  end.

(** A lone sign is an invalid digit; a leading plus is accepted. *)
Definition parse_u64 (s : string) : result ParseIntError Z :=
  match String.list_ascii_of_string s with
  | [] => Err EmptyText
  | ["+"%char] => Err InvalidDigit
  | "+"%char :: rest => fold_left push_digit rest (Ok 0%Z)
  | chars => fold_left push_digit chars (Ok 0%Z)
  end.

(** ** Prefixed identifiers *)

Inductive ParseIdError : Type :=
| MissingPrefix
| NotNumeric (e : ParseIntError).

(** [str::strip_prefix]. *)
Fixpoint strip_prefix (prefix s : string) : option string :=
  match prefix, s with
  | EmptyString, _ => Some s
  | String a prefix, String b s => if Ascii.eqb a b then strip_prefix prefix s else None
  | String _ _, EmptyString => None
  end.

Definition display_id (prefix : string) (n : Z) : string := (prefix ++ text_of_digits (pad 4 (digits n)))%string.

Definition id_from_str (prefix value : string) : result ParseIdError Z :=
  suffix ← ok_or MissingPrefix (strip_prefix prefix value);
  map_err NotNumeric (parse_u64 suffix).

(** ** Round trip *)

Lemma strip_prefix_app prefix s : strip_prefix prefix (prefix ++ s)%string = Some s.
Proof. induction prefix as [|c prefix IH]; [done|]. simpl. by rewrite Ascii.eqb_refl. Qed.

Lemma digits_of_ascii d : (0 <= d <= 9)%Z -> digit_of_ascii (ascii_of_digit d) = Some d.
Proof.
  intros Hd. unfold digit_of_ascii, ascii_of_digit. rewrite nat_ascii_embedding by lia.
  rewrite Z2Nat.id by lia. replace ((48 <=? d + 48) && (d + 48 <=? 57))%Z with true by lia. f_equal. lia.
Qed.

Lemma digits_rev_range fuel n : (0 <= n)%Z -> Forall (fun d => 0 <= d <= 9)%Z (digits_rev fuel n).
Proof.
  revert n. induction fuel as [|fuel IH]; intros n Hn; simpl; [constructor|].
  destruct (Z.ltb_spec n 10); [repeat constructor; lia|]. constructor; [|apply IH, Z.div_pos; lia].
  pose proof (Z.mod_pos_bound n 10). lia.
Qed.

Lemma push_digits_zero k l : fold_left push_digit (ascii_of_digit <$> replicate k 0%Z ++ l) (Ok 0%Z) =
  fold_left push_digit (ascii_of_digit <$> l) (Ok 0%Z).
Proof. induction k as [|k IH]; [done|]. exact IH. Qed.

Lemma push_digits fuel n :
  (0 <= n < 10 ^ Z.of_nat fuel)%Z -> in_u64 n = true ->
  fold_left push_digit (ascii_of_digit <$> rev (digits_rev fuel n)) (Ok 0%Z) = Ok n.
Proof.
  revert n. induction fuel as [|fuel IH]; intros n Hn Hu.
  { simpl in *. f_equal. lia. }
  cbn [digits_rev]. destruct (Z.ltb_spec n 10) as [Hlt|Hge].
  { cbn [rev app fmap list_fmap fold_left push_digit]. rewrite digits_of_ascii by lia.
    replace (in_u64 (0 * 10) && in_u64 (0 * 10 + n)) with true by (symmetry; range). done. }
  pose proof (Z.div_mod n 10 ltac:(lia)) as Hdm. pose proof (Z.mod_pos_bound n 10 ltac:(lia)) as Hmod.
  cbn [rev]. rewrite fmap_app, fold_left_app, IH; [..|range].
  2:{ split; [apply Z.div_pos; lia|]. apply Z.div_lt_upper_bound; [lia|].
      rewrite Nat2Z.inj_succ, Z.pow_succ_r in Hn by lia. lia. }
  cbn [fmap list_fmap fold_left push_digit]. rewrite digits_of_ascii by lia.
  replace (in_u64 (n / 10 * 10) && in_u64 (n / 10 * 10 + n mod 10)) with true by (symmetry; range). f_equal. lia.
Qed.

Lemma digits_rev_nonempty fuel n : digits_rev (S fuel) n <> [].
Proof. simpl. by destruct (n <? 10)%Z. Qed.

Lemma ascii_of_digit_not_plus d : (0 <= d <= 9)%Z -> ascii_of_digit d <> "+"%char.
Proof.
  intros Hd Heq. apply (f_equal digit_of_ascii) in Heq. rewrite digits_of_ascii in Heq by done. discriminate.
Qed.

(** Text that starts with a digit is read digit by digit. *)
Lemma parse_digits l :
  l <> [] -> Forall (fun d => 0 <= d <= 9)%Z l ->
  parse_u64 (text_of_digits l) = fold_left push_digit (ascii_of_digit <$> l) (Ok 0%Z).
Proof.
  intros Hne Hl. unfold parse_u64, text_of_digits. rewrite String.list_ascii_of_string_of_list_ascii.
  destruct l as [|d l]; [done|]. apply Forall_cons in Hl as [Hd _]. cbn [fmap list_fmap].
  pose proof (ascii_of_digit_not_plus d Hd) as Hp. destruct (ascii_of_digit d) as [b0 b1 b2 b3 b4 b5 b6 b7].
  destruct b0, b1, b2, b3, b4, b5, b6, b7; (done || by destruct (ascii_of_digit <$> l)).
Qed.

(** Every identifier reads back what it prints, for every prefix and every [u64]. *)
Theorem id_round_trip prefix n : in_u64 n = true -> id_from_str prefix (display_id prefix n) = Ok n.
Proof.
  intros Hn. unfold id_from_str, display_id. rewrite strip_prefix_app. cbn [ok_or mbind result_bind].
  assert (Forall (fun d => 0 <= d <= 9)%Z (digits n)) as Hr.
  { unfold digits. apply Forall_rev, digits_rev_range. range. }
  rewrite parse_digits.
  - unfold pad. rewrite push_digits_zero. unfold digits. rewrite push_digits; [done| |done].
    unfold in_u64, u64_max in Hn. split; [lia|]. assert (18446744073709551615 < 10 ^ Z.of_nat 20)%Z by done. lia.
  - unfold pad. intros He. apply app_eq_nil in He as [_ He]. unfold digits in He.
    apply (f_equal (@rev Z)) in He. rewrite rev_involutive in He. by apply digits_rev_nonempty in He.
  - unfold pad. apply Forall_app. split; [|done]. apply Forall_replicate. lia.
Qed.
