(* ===== verification/Shop.v ===== *)
(** * An application: orders, inventory and their reactors

    Models src/examples/complex/src: the entities [Order] (order.rs) and [Inventory]
    (inventory.rs), the job [SendOrderConfirmation] an order kicks off, and the reactors
    [StockAlert] (stock_alert.rs) and [AuditLog] (audit_log.rs), as clients of the
    entity, dispatch and reactor interfaces of the library.

    A handler that dispatches mints a job id; it is an argument ([fresh]) of the
    handlers. *)

From S2P Require Import Prelude Json Sqlite EventTable Lifecycle Schema Job Repository Dispatch Reactor Effects Decimal.

(** ** Inventory *)

Abbreviation Sku := string (only parsing).

Record Inventory : Type := mkInventory {
  inv_item : Sku;
  on_hand : Z;
}.
Inductive InventoryEvent : Type :=
| Initialized (item : Sku) (on_hand : Z)
| Restocked (added : Z)
| Consumed (taken : Z).
Inductive InventoryCommand : Type :=
| Initialize (item : Sku) (on_hand : Z)
| Restock (added : Z)
| Consume (taken : Z).
Inductive InventoryError : Type :=
| AlreadyInitialized
| NotInitialized
| Overflow
| Underflow (on_hand taken : Z).

Definition inventory_event_type (e : InventoryEvent) : string :=
  match e with
  | Initialized _ _ => "InventoryEvent::Initialized"
  | Restocked _ => "InventoryEvent::Restocked"
  | Consumed _ => "InventoryEvent::Consumed"
  end.

(** [u32::checked_sub]. *)
Definition u32_checked_sub (a b : Z) : option Z := if in_u32 (a - b) then Some (a - b)%Z else None.

Definition inventory_originate (event : InventoryEvent) : option Inventory :=
  match event with
  | Initialized item on_hand => Some (mkInventory item on_hand)
  | Restocked _ | Consumed _ => None
  end.

Definition inventory_evolve (entity : Inventory) (event : InventoryEvent) : result InventoryError (option Inventory) :=
  match event with
  | Initialized _ _ => Ok None
  | Restocked added =>
      ok_or Overflow
        ((fun on_hand => Some (mkInventory (inv_item entity) on_hand)) <$> u32_checked_add (on_hand entity) added)
  | Consumed taken =>
      ok_or (Underflow (on_hand entity) taken)
        ((fun on_hand => Some (mkInventory (inv_item entity) on_hand)) <$> u32_checked_sub (on_hand entity) taken)
  end.

Definition inventory_initialize (command : InventoryCommand) : result InventoryError (Effect InventoryEvent) :=
  match command with
  | Initialize item on_hand => fx (Initialized item on_hand)
  | Restock _ | Consume _ => fx NotInitialized
  end.

Definition inventory_transition (self : Inventory) (command : InventoryCommand) :
    result InventoryError (Effect InventoryEvent) :=
  match command with
  | Initialize _ _ => fx AlreadyInitialized
  | Restock added => _ ← ok_or Overflow (u32_checked_add (on_hand self) added); fx (Restocked added)
  | Consume taken =>
      if (on_hand self <? taken)%Z then fx (Underflow (on_hand self) taken) else fx (Consumed taken)
  end.

#[export] Instance inventory_event_sourced : EventSourced Inventory InventoryEvent InventoryCommand InventoryError := {|
  originate := inventory_originate;
  evolve := inventory_evolve;
  initialize := inventory_initialize;
  transition := inventory_transition |}.

(** ** Orders *)

Abbreviation OrderId := Z (only parsing).

Definition order_id_to_string (id : OrderId) : string := display_id "O-" id.
Definition order_id_from_str (value : string) : result ParseIdError OrderId := id_from_str "O-" value.

Record SendOrderConfirmation : Type := mkConfirmation {
  confirm_order : OrderId;
  confirm_item : Sku;
  confirm_quantity : Z;
}.

Abbreviation ConfirmationState := (DispatchedJob (Output := unit) (Error := Never)).
Abbreviation ConfirmationEvent := (DispatchEvent (J := SendOrderConfirmation) (Output := unit) (Error := Never)).
Abbreviation ConfirmationVerdict := (Verdict (Output := unit) (Error := Never)).

Inductive OrderStatus : Type := PendingConfirmation | Placed | Filled | Cancelled.

Record Order : Type := mkOrder {
  order_item : Sku;
  order_quantity : Z;
  order_status : OrderStatus;
  confirmation : ConfirmationState;
}.
Inductive OrderEvent : Type :=
| OrderDispatch (event : ConfirmationEvent)
| OrderFilled
| OrderCancelled.
Inductive OrderCommand : Type :=
| Place (order : OrderId) (item : Sku) (quantity : Z)
| Fill
| Cancel
| Settle (outcome : ConfirmationVerdict).
Inductive OrderError : Type :=
| AlreadyPlaced
| NotPlaced
| NotConfirmed
| NotOpen
| Refused (e : DispatchRefused).

Definition order_event_type (e : OrderEvent) : string :=
  match e with
  | OrderDispatch (Dispatched _ _) => "OrderEvent::Placed"
  | OrderDispatch (EvConfirmed _) => "OrderEvent::ConfirmationSent"
  | OrderDispatch (EvFailed _) => "OrderEvent::ConfirmationFailed"
  | OrderFilled => "OrderEvent::Filled"
  | OrderCancelled => "OrderEvent::Cancelled"
  end.

(** [serde_json::to_value] of the job, an object in key order. *)
Definition confirmation_encode (job : SendOrderConfirmation) : result JsonError Json :=
  Ok (JObject [("item", JString (confirm_item job)); ("order", JInt (confirm_order job));
               ("quantity", JInt (confirm_quantity job))]).

#[export] Instance confirmation_wired : Wired SendOrderConfirmation unit Never OrderEvent := {|
  absorb := OrderDispatch;
  job_KIND := "send-order-confirmation";
  job_encode := confirmation_encode |}.

(** The worker's side: sending is done at once, and a confirmation of unknown fate is
    taken for sent. *)
Definition confirmation_submit (ctx : JobContext) : result (JobFailure (Error := Never)) (JobOutcome unit) := Ok (OutDone ()).
Definition confirmation_reconcile (ctx : JobContext) :
    result (JobFailure (Error := Never)) (Reconciliation (Output := unit)) := Ok (RecSettled ()).

Definition order_originate (event : OrderEvent) : option Order :=
  match event with
  | OrderDispatch (Dispatched job_id job as dispatch_event) =>
      confirmation ← ok (dispatch_originate dispatch_event);
      Some (mkOrder (confirm_item job) (confirm_quantity job) PendingConfirmation confirmation)
  | OrderDispatch (EvConfirmed _ | EvFailed _) | OrderFilled | OrderCancelled => None
  end.

Definition with_status (entity : Order) (status : OrderStatus) : Order :=
  mkOrder (order_item entity) (order_quantity entity) status (confirmation entity).

Definition order_evolve (entity : Order) (event : OrderEvent) : result OrderError (option Order) :=
  match event with
  | OrderDispatch dispatch_event =>
      match dispatch_evolve (confirmation entity) dispatch_event with
      | Err _ => Ok None
      | Ok confirmation =>
          let status :=
            match dispatch_event with
            | EvConfirmed _ => Placed
            | Dispatched _ _ | EvFailed _ => PendingConfirmation
            end in
          Ok (Some (mkOrder (order_item entity) (order_quantity entity) status confirmation))
      end
  | OrderFilled => Ok (Some (with_status entity Filled))
  | OrderCancelled => Ok (Some (with_status entity Cancelled))
  end.

Section handlers.
Context (fresh : JobId).

Definition order_initialize (command : OrderCommand) : result OrderError (Effect OrderEvent) :=
  match command with
  | Place order item quantity => fx_kickoff fresh (mkConfirmation order item quantity)
  | Fill | Cancel | Settle _ => fx NotPlaced
  end.

Definition order_transition (self : Order) (command : OrderCommand) : result OrderError (Effect OrderEvent) :=
  match command with
  | Place _ _ _ => fx AlreadyPlaced
  | Fill =>
      match order_status self with
      | PendingConfirmation => fx NotConfirmed
      | Placed => fx OrderFilled
      | Filled | Cancelled => fx NotOpen
      end
  | Cancel =>
      match order_status self with
      | PendingConfirmation => fx NotConfirmed
      | Placed => fx OrderCancelled
      | Filled | Cancelled => fx NotOpen
      end
  | Settle outcome => events ← map_err Refused (settle (J := SendOrderConfirmation) (confirmation self) outcome); fx events
  end.

#[export] Instance order_event_sourced : EventSourced Order OrderEvent OrderCommand OrderError := {|
  originate := order_originate;
  evolve := order_evolve;
  initialize := order_initialize;
  transition := order_transition |}.
End handlers.

(** ** Reactors *)

(** The state of [StockAlert]: the counters (which wrap) and what its notifier was
    asked to send. *)
Record StockAlert : Type := mkStockAlert {
  low_water : Z;
  alerts : list string;
  fills : Z;
  low_stock_alerts : Z;
}.

(** [AtomicUsize::fetch_add] wraps. *)
Definition usize_add (a b : Z) : Z := ((a + b) mod (usize_max + 1))%Z.

Definition count_fill (message : string) (self : StockAlert) : StockAlert :=
  mkStockAlert (low_water self) (alerts self ++ [message]) (usize_add (fills self) 1) (low_stock_alerts self).
Definition count_low_stock (message : string) (self : StockAlert) : StockAlert :=
  mkStockAlert (low_water self) (alerts self ++ [message]) (fills self) (usize_add (low_stock_alerts self) 1).

Definition on_order (event : OrderId * OrderEvent) (self : StockAlert) : StockAlert :=
  match event.2 with
  | OrderFilled => count_fill ("order " ++ order_id_to_string event.1 ++ " filled") self
  | _ => self
  end.

Definition on_inventory (event : Sku * InventoryEvent) (self : StockAlert) : StockAlert :=
  match event.2 with
  | Initialized _ new_on_hand =>
      if (new_on_hand <=? low_water self)%Z
      then count_low_stock ("inventory " ++ event.1 ++ " low: " ++ text_of_digits (digits new_on_hand) ++ " on hand") self
      else self
  | Restocked _ | Consumed _ => self
  end.

(** [deps!(StockAlert, [Order, Inventory])]. *)
Definition stock_alert_deps : list Type := @cons Type (OrderId * OrderEvent)%type (@cons Type (Sku * InventoryEvent)%type nil).

Definition stock_alert_react (event : EntityEvent stock_alert_deps) (self : StockAlert) : result Never () * StockAlert :=
  (Ok (), exhaustive (fold_on (one_of_on event on_order) on_inventory) self).

(** [AuditLog]: one line per order event. *)
Definition audit_react (event : EntityEvent (@cons Type (OrderId * OrderEvent)%type nil)) (entries : list string) :
    result Never () * list string :=
  let '(id, event) := into_inner event in
  (Ok (), entries ++ [(order_id_to_string id ++ ": " ++ order_event_type event)%string]).

#[export] Instance audit_log : Reactor OrderId OrderEvent (list string) Never := {|
  reactor_react id event := audit_react (inject (EntityHere _) (id, event)) |}.

(** ** The inventory's ledger *)

Definition moved (e : InventoryEvent) : Z :=
  match e with Restocked added => added | Consumed taken => - taken | Initialized _ _ => 0 end.
Definition is_move (e : InventoryEvent) : bool := match e with Initialized _ _ => false | _ => true end.
Definition ledger (moves : list InventoryEvent) : Z := foldr (fun e n => moved e + n)%Z 0%Z moves.

Lemma ledger_app l k : ledger (l ++ k) = (ledger l + ledger k)%Z.
Proof. induction l as [|e l IH]; simpl; lia. Qed.

(** The amounts the commands carry are [u32]. *)
Definition amount_ok (command : InventoryCommand) : Prop :=
  match command with Initialize _ n | Restock n | Consume n => in_u32 n = true end.

Definition inventory_sends (log log' : list InventoryEvent) : Prop :=
  exists command events pending, amount_ok command /\
    handle (replay Uninitialized log) command (Some []) = (Ok events, pending) /\ log' = log ++ events.

(** The log opens the account once and then moves it; the stock is the sum, in range. *)
Definition inventory_inv (log : list InventoryEvent) : Prop :=
  log = [] \/
  exists item initial moves, log = Initialized item initial :: moves /\
    Forall (fun e => is_move e = true) moves /\ in_u32 (initial + ledger moves) = true /\
    replay Uninitialized log = Live (mkInventory item (initial + ledger moves)).

(** A command on an open account succeeds exactly when the stock stays in range, and
    then records one move of its amount. *)
Lemma inventory_handle item stock command pending :
  in_u32 stock = true -> amount_ok command ->
  handle (Live (mkInventory item stock)) command (Some pending) =
    (match command with
     | Initialize _ _ => Err (Apply AlreadyInitialized)
     | Restock added => if in_u32 (stock + added) then Ok [Restocked added] else Err (Apply Overflow)
     | Consume taken => if in_u32 (stock - taken) then Ok [Consumed taken] else Err (Apply (Underflow stock taken))
     end, Some pending).
Proof.
  intros Hs Ha. destruct command as [i n|n|n]; [done|..]; unfold handle; simpl in *; unfold u32_checked_add.
  - destruct (in_u32 (stock + n)) eqn:Hn; [|done]. simpl. unfold u32_checked_add. by rewrite Hn.
  - destruct (in_u32 (stock - n)) eqn:Hn.
    + rewrite (proj2 (Z.ltb_ge _ _)) by range. simpl. unfold u32_checked_sub. by rewrite Hn.
    + by rewrite (proj2 (Z.ltb_lt _ _)) by range.
Qed.

Lemma inventory_step log log' : inventory_inv log -> inventory_sends log log' -> inventory_inv log'.
Proof.
  intros [->|(item & initial & moves & -> & Hm & Hu & Hr)] (command & events & pending & Ha & Hh & ->).
  - destruct command as [item n|n|n]; [|done..]. injection Hh as <- _. right. exists item, n, []. simpl in *.
    rewrite Z.add_0_r. by split_and!.
  - rewrite Hr, inventory_handle in Hh by done.
    assert (exists e, events = [e] /\ is_move e = true /\ in_u32 (initial + ledger moves + moved e) = true) as
      (e & -> & Hem & Hin).
    { destruct command as [i n|n|n]; [done|..]; injection Hh as Hh _; case_match eqn:Hn; simplify_eq;
        eexists; (split; [done|]); simpl; rewrite ?Z.add_opp_r; auto. }
    right. exists item, initial, (moves ++ [e]). rewrite ledger_app.
    cbn [ledger foldr]. rewrite Z.add_0_r, Z.add_assoc.
    split_and!; [done|by apply Forall_app; split; [|repeat constructor]|done|].
    rewrite replay_app, Hr. destruct e as [i n|n|n]; simpl in *; [done|..].
    + unfold u32_checked_add. by rewrite Hin.
    + unfold u32_checked_sub. rewrite Z.add_opp_r in *. by rewrite Hin.
Qed.

(** The stock of an item is the sum of its movements and never leaves its width.
    Whatever commands were handled, in whatever order, the log opens the account once
    and then only moves it, and the entity it folds to holds the opening stock plus
    what was added minus what was taken, a 32-bit count.  From there a restock or a
    consumption is accepted exactly when the stock stays in range, and is otherwise
    refused as an overflow, or as an underflow naming the stock and the amount. *)
Theorem inventory_ledger log :
  rtc inventory_sends [] log ->
  log = [] \/
  exists item initial moves, let stock := (initial + ledger moves)%Z in
    log = Initialized item initial :: moves /\ Forall (fun e => is_move e = true) moves /\
    in_u32 stock = true /\ replay Uninitialized log = Live (mkInventory item stock) /\
    forall command pending, amount_ok command ->
      (handle (replay Uninitialized log) command (Some pending)).1 =
        match command with
        | Initialize _ _ => Err (Apply AlreadyInitialized)
        | Restock added => if in_u32 (stock + added) then Ok [Restocked added] else Err (Apply Overflow)
        | Consume taken =>
            if (taken <=? stock)%Z then Ok [Consumed taken] else Err (Apply (Underflow stock taken))
        end.
Proof.
  intros Hr. assert (inventory_inv log) as [|(item & initial & moves & -> & Hm & Hu & Hrep)]; [|by left|].
  { revert Hr. apply (rtc_ind_r inventory_inv); [by left|]. intros x y _ Hs Hi. by eapply inventory_step. }
  right. exists item, initial, moves. split_and!; [done..|]. intros command pending Ha.
  rewrite Hrep, inventory_handle by done. destruct command as [i n|n|n]; [done..|]. cbn [fst].
  simpl in Ha. destruct (Z.leb_spec n (initial + ledger moves)).
  - by replace (in_u32 _) with true by (symmetry; range).
  - by replace (in_u32 _) with false by (symmetry; range).
Qed.

Lemma inventory_ledger_witness :
  exists log, rtc inventory_sends [] log /\
    replay Uninitialized log = Live (mkInventory "widgets" 3).
Proof.
  assert (rtc inventory_sends [] [Initialized "widgets" 1; Restocked 5; Consumed 3]) as Hr.
  { eapply rtc_l; [by exists (Initialize "widgets" 1), [Initialized "widgets" 1], (Some [])|].
    eapply rtc_l; [by exists (Restock 5), [Restocked 5], (Some [])|].
    apply rtc_once. by exists (Consume 3), [Consumed 3], (Some []). }
  eexists. split; [exact Hr|].
  destruct (inventory_ledger _ Hr) as [|(item & initial & moves & [= <- <- <-] & _ & _ & Hl & _)]; [discriminate|].
  exact Hl.
Defined.

(** ** The life of an order *)

(** The entity a log folds to does not depend on the ids its handlers would mint. *)
Definition order_state (log : list OrderEvent) : Lifecycle Order OrderEvent OrderError :=
  replay (H := order_event_sourced 0%N) Uninitialized log.

Definition order_handle (fresh : JobId) (log : list OrderEvent) (command : OrderCommand) :
    result (LifecycleError Order OrderEvent OrderError) (list OrderEvent) * Scope :=
  handle (H := order_event_sourced fresh) (order_state log) command (Some []).

(** One command handled and committed: its events and the jobs it enqueued. *)
Definition order_sends (c c' : list OrderEvent * list PendingPush) : Prop :=
  exists fresh command events pushes,
    order_handle fresh c.1 command = (Ok events, Some pushes) /\ c' = (c.1 ++ events, c.2 ++ pushes).

(** What may follow the event that placed an order, and the status and confirmation it
    leads to. *)
Inductive order_tail (id : JobId) : list OrderEvent -> OrderStatus -> ConfirmationState -> Prop :=
| TailPending : order_tail id [] PendingConfirmation (InFlight id)
| TailPlaced s : settled_job_id s = id ->
    order_tail id [OrderDispatch (EvConfirmed s)] Placed (DjConfirmed s)
| TailFilled s : settled_job_id s = id ->
    order_tail id [OrderDispatch (EvConfirmed s); OrderFilled] Filled (DjConfirmed s)
| TailCancelled s : settled_job_id s = id ->
    order_tail id [OrderDispatch (EvConfirmed s); OrderCancelled] Cancelled (DjConfirmed s)
| TailFailed f : failure_job_id f = id ->
    order_tail id [OrderDispatch (EvFailed f)] PendingConfirmation (DjFailed f).

Definition placed_by (id : JobId) (job : SendOrderConfirmation) : OrderEvent := OrderDispatch (Dispatched id job).

Definition order_inv (c : list OrderEvent * list PendingPush) : Prop :=
  c = ([], []) \/
  exists id job tail status state,
    c = (placed_by id job :: tail,
         [mkPendingPush id "send-order-confirmation" (confirmation_encode job) None]) /\
    order_tail id tail status state /\
    order_state c.1 = Live (mkOrder (confirm_item job) (confirm_quantity job) status state).

(** The commands an order in each stage accepts, and the stage they lead to. *)
Lemma order_tail_step fresh id job tail status state command events pushes :
  order_tail id tail status state ->
  handle (H := order_event_sourced fresh) (Live (mkOrder (confirm_item job) (confirm_quantity job) status state))
    command (Some []) = (Ok events, Some pushes) ->
  pushes = [] /\ exists status' state', order_tail id (tail ++ events) status' state' /\
    replay (H := order_event_sourced 0%N) (Live (mkOrder (confirm_item job) (confirm_quantity job) status state)) events =
      Live (mkOrder (confirm_item job) (confirm_quantity job) status' state').
Proof.
  intros Ht Hh. destruct Ht as [|s Hs|s Hs|s Hs|f Hf]; destruct command as [o i q| | |[v|v]]; try discriminate Hh.
  all: unfold handle in Hh; simpl in Hh.
  all: try (destruct (N.eqb_spec id (settled_job_id v)) as [->|]; [|discriminate Hh]).
  all: try (destruct (N.eqb_spec id (failure_job_id v)) as [->|]; [|discriminate Hh]).
  all: try (destruct (N.eqb_spec (settled_job_id s) (settled_job_id v)) as [Heq|]; [|discriminate Hh]).
  all: try (destruct (N.eqb_spec (failure_job_id f) (failure_job_id v)) as [Heq|]; [|discriminate Hh]).
  all: simpl in Hh; rewrite ?N.eqb_refl in Hh; simpl in Hh; injection Hh as <- <-; split; [done|].
  all: simpl; rewrite ?N.eqb_refl; do 2 eexists; (split; [by constructor|done]).
Qed.

Lemma order_step_inv c c' : order_inv c -> order_sends c c' -> order_inv c'.
Proof.
  intros [->|(id & job & tail & status & state & -> & Ht & Hs)] (fresh & command & events & pushes & Hh & ->).
  - destruct command as [o i q| | |v]; [|discriminate Hh..]. injection Hh as <- <-.
    right. exists fresh, (mkConfirmation o i q), [], PendingConfirmation, (InFlight fresh).
    split; [done|]. split; [constructor|done].
  - cbn [fst snd] in *. unfold order_handle in Hh. rewrite Hs in Hh.
    destruct (order_tail_step _ _ _ _ _ _ _ _ _ Ht Hh) as (-> & status' & state' & Ht' & Hr).
    right. exists id, job, (tail ++ events), status', state'. split; [done|]. split; [done|].
    unfold order_state in *. cbn [fst]. by rewrite replay_app, Hs, Hr.
Qed.

(** An order moves only on its confirmation, and its confirmation is enqueued exactly
    once.  Whatever commands are sent, with whatever verdicts, an order's log is empty,
    or it is the event that placed it, followed by at most one verdict of the very job
    that event names, and at most one fill or cancellation, which only ever follows a
    confirmation.  The one job ever enqueued is that job, carrying the order's id, item
    and quantity, which the order keeps for life.  While unconfirmed it can be neither
    filled nor cancelled, and a closed order accepts nothing further. *)
Theorem order_life log enqueued :
  rtc order_sends ([], []) (log, enqueued) ->
  log = [] /\ enqueued = [] \/
  exists id job tail status state,
    log = placed_by id job :: tail /\
    enqueued = [mkPendingPush id "send-order-confirmation" (confirmation_encode job) None] /\
    order_tail id tail status state /\
    order_state log = Live (mkOrder (confirm_item job) (confirm_quantity job) status state) /\
    forall fresh command, command = Fill \/ command = Cancel ->
      (order_handle fresh log command).1 =
        match status with
        | PendingConfirmation => Err (Apply NotConfirmed)
        | Placed => Ok [match command with Fill => OrderFilled | _ => OrderCancelled end]
        | Filled | Cancelled => Err (Apply NotOpen)
        end.
Proof.
  intros Hr. assert (order_inv (log, enqueued)) as [Hi|(id & job & tail & status & state & [= -> ->] & Ht & Hs)].
  { revert Hr. apply (rtc_ind_r order_inv); [by left|]. intros x y _ Hs Hi. by eapply order_step_inv. }
  - left. by injection Hi.
  - right. exists id, job, tail, status, state. split_and!; [done..|].
    intros fresh command Hc. unfold order_handle. cbn [fst] in Hs. rewrite Hs.
    by destruct Hc as [->| ->], status.
Qed.

Lemma order_life_witness :
  exists log enqueued, rtc order_sends ([], []) (log, enqueued) /\ length log = 3 /\ length enqueued = 1 /\
    (order_handle 9%N log Cancel).1 = Err (Apply NotOpen).
Proof.
  pose (s := mkSettled 7%N () 1%Z). pose (job := mkConfirmation 1 "widgets" 3).
  pose (push := mkPendingPush 7%N "send-order-confirmation" (confirmation_encode job) None).
  assert (rtc order_sends ([], [])
    ([placed_by 7%N job; OrderDispatch (EvConfirmed s); OrderFilled], [push])) as Hr.
  { eapply rtc_l; [by exists 7%N, (Place 1 "widgets" 3), [placed_by 7%N job], [push]|].
    eapply rtc_l; [by exists 8%N, (Settle (VerdictConfirmed s)), [OrderDispatch (EvConfirmed s)], []|].
    apply rtc_once. by exists 9%N, Fill, [OrderFilled], []. }
  do 2 eexists. split; [exact Hr|]. do 2 (split; [reflexivity|]).
  destruct (order_life _ _ Hr) as [[H _]|(id & job' & tail & status & state & [= <- <- <-] & _ & Ht & Hs & Hf)];
    [discriminate|].
  rewrite (Hf 9%N Cancel (or_intror eq_refl)). by inversion Ht.
Defined.

(** ** Confirming an order *)

(** [Store::deliver] on the order's store, when the store can be reached. *)
Definition order_deliver (log : list OrderEvent) (verdict : ConfirmationVerdict) : result OriginDeliveryError () :=
  match order_handle 0%N log (Settle verdict) with
  | (Ok _, _) => Ok ()
  | (Err error, _) => Err (delivery_error (UserError error))
  end.

Definition confirmation_run (deliver : ConfirmationVerdict -> result OriginDeliveryError ())
    (error_chain : Never -> string) (ctx : JobContext) :
    result (JobFailure (Error := Never)) (JobOutcome ()) * list (Call (Output := unit) (Error := Never)) :=
  perform confirmation_submit confirmation_reconcile deliver error_chain ctx.

Definition is_confirmation (v : ConfirmationVerdict) : bool :=
  match v with VerdictConfirmed _ => true | VerdictFailed _ => false end.

(** A run of the confirmation job delivers exactly one verdict, a confirmation. *)
Lemma confirmation_run_confirms deliver error_chain ctx :
  let verdict := confirmed (ctx_job_id ctx) () (u32_add (ctx_attempt ctx) 1) in
  exists first, confirmation_run deliver error_chain ctx =
    (Ok (match deliver verdict with Ok _ => OutDone () | Err e => OutDefer (delivery_deferral ctx e) end),
     [first; CallDeliver verdict]) /\ (first = CallSubmit \/ first = CallReconcile).
Proof.
  cbv zeta. unfold confirmation_run, perform. destruct (is_first_execution ctx); cbn [confirmation_submit confirmation_reconcile].
  - exists CallSubmit. split; [|by left]. by destruct (deliver _).
  - exists CallReconcile. split; [|by right]. by destruct (deliver _).
Qed.

(** The state an in-flight order is in after the events of a verdict. *)
Lemma settle_confirms fresh log item quantity id attempts :
  order_state log = Live (mkOrder item quantity PendingConfirmation (InFlight id)) ->
  let s := mkSettled id () attempts in
  order_handle fresh log (Settle (VerdictConfirmed s)) = (Ok [OrderDispatch (EvConfirmed s)], Some []) /\
  order_state (log ++ [OrderDispatch (EvConfirmed s)]) = Live (mkOrder item quantity Placed (DjConfirmed s)).
Proof.
  intros Hs. cbv zeta. split.
  - unfold order_handle. rewrite Hs. unfold handle. simpl. rewrite N.eqb_refl. simpl. by rewrite N.eqb_refl.
  - unfold order_state in *. rewrite replay_app, Hs. simpl. by rewrite N.eqb_refl.
Qed.

(** The confirmation job always confirms its order, however often it runs.  A run of
    the job, first or repeated, on whatever attempt and whatever the delivery does, never
    fails and delivers exactly one verdict, a confirmation: the failed branch of the
    order is never taken.  When the order's store takes the delivery, the run succeeds
    and the order goes from pending to placed by one event; every later run of the same
    job succeeds as well and adds no event. *)
Theorem order_confirmed error_chain log item quantity id ctx ctx' :
  order_state log = Live (mkOrder item quantity PendingConfirmation (InFlight id)) ->
  ctx_job_id ctx = id -> ctx_job_id ctx' = id ->
  (forall deliver, exists outcome calls, confirmation_run deliver error_chain ctx = (Ok outcome, calls) /\
     length (filter (fun c => is_submit c = true) calls) <= 1 /\
     forall v, CallDeliver v ∈ calls -> is_confirmation v = true) /\
  let s := mkSettled id () (u32_add (ctx_attempt ctx) 1) in
  let log' := log ++ [OrderDispatch (EvConfirmed s)] in
  (confirmation_run (order_deliver log) error_chain ctx).1 = Ok (OutDone ()) /\
  last (confirmation_run (order_deliver log) error_chain ctx).2 = Some (CallDeliver (VerdictConfirmed s)) /\
  order_handle 0%N log (Settle (VerdictConfirmed s)) = (Ok [OrderDispatch (EvConfirmed s)], Some []) /\
  order_state log' = Live (mkOrder item quantity Placed (DjConfirmed s)) /\
  (confirmation_run (order_deliver log') error_chain ctx').1 = Ok (OutDone ()) /\
  forall v, CallDeliver v ∈ (confirmation_run (order_deliver log') error_chain ctx').2 ->
    order_handle 0%N log' (Settle v) = (Ok [], Some []).
Proof.
  intros Hs Hid Hid'. split.
  { intros deliver. destruct (confirmation_run_confirms deliver error_chain ctx) as (first & -> & Hf).
    do 2 eexists. split; [done|]. split; [destruct Hf as [->| ->]; [apply le_n|apply Nat.le_0_l]|]. intros v Hv.
    apply elem_of_cons in Hv as [Hv|Hv%list_elem_of_singleton]; [by destruct Hf; subst|]. by injection Hv as ->. }
  cbv zeta. destruct (settle_confirms 0%N log item quantity id (u32_add (ctx_attempt ctx) 1) Hs) as [Hh Hplaced].
  assert (forall attempts, order_handle 0%N (log ++ [OrderDispatch (EvConfirmed (mkSettled id () (u32_add (ctx_attempt ctx) 1)))])
    (Settle (confirmed id () attempts)) = (Ok [], Some [])) as Hagain.
  { intros attempts. unfold order_handle. rewrite Hplaced. unfold handle. simpl. by rewrite N.eqb_refl. }
  destruct (confirmation_run_confirms (order_deliver log) error_chain ctx) as (first & Hrun & _).
  destruct (confirmation_run_confirms (order_deliver (log ++ [OrderDispatch (EvConfirmed
    (mkSettled id () (u32_add (ctx_attempt ctx) 1)))])) error_chain ctx') as (first' & Hrun' & Hf').
  assert (order_deliver log (confirmed id () (u32_add (ctx_attempt ctx) 1)) = Ok ()) as Hd
    by (unfold order_deliver, confirmed; by rewrite Hh).
  rewrite Hid, Hd in Hrun. unfold order_deliver in Hrun' at 2. rewrite Hid', Hagain in Hrun'. rewrite Hrun, Hrun'.
  split_and!; [done..|]. intros v Hv. cbn [snd] in Hv.
  apply elem_of_cons in Hv as [Hv|Hv%list_elem_of_singleton]; [by destruct Hf'; subst|]. by injection Hv as ->.
Qed.

Lemma order_confirmed_witness :
  (confirmation_run (order_deliver [placed_by 7%N (mkConfirmation 1 "widgets" 3)]) (fun never => match never with end)
     (mkJobContext 7%N 2 "claim-a" 0 3 (mkDeliveryPolicy 1000 60000))).1 = Ok (OutDone ()).
Proof.
  exact (proj1 (proj2 (order_confirmed (fun never => match never with end) [placed_by 7%N (mkConfirmation 1 "widgets" 3)]
    "widgets" 3 7%N (mkJobContext 7%N 2 "claim-a" 0 3 (mkDeliveryPolicy 1000 60000))
    (mkJobContext 7%N 4 "claim-b" 0 3 (mkDeliveryPolicy 1000 60000)) eq_refl eq_refl eq_refl))).
Defined.

(** ** What the reactors record *)

(** An event of either entity reaches its own handler. *)
Lemma stock_alert_routes event self :
  stock_alert_react (inject (EntityHere _) event) self = (Ok (), on_order event self) /\
  forall event', stock_alert_react (inject (EntityThere _ (EntityHere nil)) event') self = (Ok (), on_inventory event' self).
Proof. done. Qed.

(** The audit log has one line per committed order event, in order. *)
Theorem audit_log_complete id events entries :
  dispatch_events id events entries =
    ([], entries ++ ((fun e => (order_id_to_string id ++ ": " ++ order_event_type e)%string) <$> events)).
Proof.
  revert entries. induction events as [|e events IH]; intros entries; simpl; [by rewrite app_nil_r|].
  rewrite IH. by rewrite <-(assoc_L (++)).
Qed.

(** The committed lines of an order that was placed, confirmed and filled. *)
Example audit_lines :
  (dispatch_events 7%Z [placed_by 1%N (mkConfirmation 7 "widgets" 1); OrderDispatch (EvConfirmed (mkSettled 1%N () 1%Z));
     OrderFilled] []).2 =
  ["O-0007: OrderEvent::Placed"; "O-0007: OrderEvent::ConfirmationSent"; "O-0007: OrderEvent::Filled"].
Proof. reflexivity. Qed.

(** Stock that falls to the threshold by consumption raises no alert: only the opening
    stock is compared with it. *)
Example consumption_raises_no_alert :
  let alert := mkStockAlert 2 [] 0 0 in
  replay Uninitialized [Initialized "widgets" 6; Consumed 5] = Live (mkInventory "widgets" 1) /\
  dispatch_events (H := {| reactor_react id event := stock_alert_react (inject (EntityThere _ (EntityHere nil)) (id, event)) |})
    "widgets" [Initialized "widgets" 6; Consumed 5] alert = ([], alert).
Proof. split; reflexivity. Qed.
