(* ===== verification/OrderOrigin.v ===== *)
(** * Orders as origins

    The orders of src/examples/complex/src/order.rs keep the contract of Delivery.v, so
    the exactly-once delivery of verdicts holds of them; and the derived serialization of
    orders, their events and errors, with its round trips through the stored documents,
    discharges what the delivery asks of the store. *)

From S2P Require Import Prelude Json Sqlite EventTable Lifecycle Schema Job Engine EngineProps.
From S2P Require Import ViewRepository Repository SchemaRecovery Reactor Dispatch Projection Startup Store StoreProps.
From S2P Require Import Delivery DispatchJson Effects Shop.

(** ** Stored form *)

Definition order_status_to_json (s : OrderStatus) : Json :=
  JString match s with
          | PendingConfirmation => "PendingConfirmation"
          | Placed => "Placed"
          | Filled => "Filled"
          | Cancelled => "Cancelled"
          end.

Definition order_status_of_json (j : Json) : option OrderStatus :=
  '(v, content) ← enum_of j;
  guard (unit_variant content = true);;
  if String.eqb v "PendingConfirmation" then Some PendingConfirmation
  else if String.eqb v "Placed" then Some Placed
  else if String.eqb v "Filled" then Some Filled
  else if String.eqb v "Cancelled" then Some Cancelled
  else None.

Definition confirmation_to_json (job : SendOrderConfirmation) : Json :=
  JObject [("order", JInt (confirm_order job)); ("item", JString (confirm_item job));
           ("quantity", JInt (confirm_quantity job))].

Definition confirmation_of_json (j : Json) : option SendOrderConfirmation :=
  fs ← struct_of ["order"; "item"; "quantity"] j;
  match fs with
  | [order; item; quantity] =>
      order ← as_int in_u64 order; item ← as_string item; quantity ← as_int in_u32 quantity;
      Some (mkConfirmation order item quantity)
  | _ => None
  end.

#[export] Instance confirmation_serde : Serde SendOrderConfirmation := {|
  ser := confirmation_to_json; de := confirmation_of_json |}.

Section order.
Context `{Ulid}.

Definition order_to_json (self : Order) : Json :=
  JObject [("item", JString (order_item self)); ("quantity", JInt (order_quantity self));
           ("status", order_status_to_json (order_status self)); ("confirmation", ser (confirmation self))].

Definition order_of_json (j : Json) : option Order :=
  fs ← struct_of ["item"; "quantity"; "status"; "confirmation"] j;
  match fs with
  | [item; quantity; status; confirmation] =>
      item ← as_string item; quantity ← as_int in_u32 quantity;
      status ← order_status_of_json status; confirmation ← de confirmation;
      Some (mkOrder item quantity status confirmation)
  | _ => None
  end.

Definition order_event_to_json (e : OrderEvent) : Json :=
  match e with
  | OrderDispatch event => JObject [("Dispatch", ser event)]
  | OrderFilled => JString "Filled"
  | OrderCancelled => JString "Cancelled"
  end.

Definition order_event_of_json (j : Json) : option OrderEvent :=
  '(v, content) ← enum_of j;
  if String.eqb v "Dispatch" then OrderDispatch <$> (content ≫= de)
  else if String.eqb v "Filled" then if unit_variant content then Some OrderFilled else None
  else if String.eqb v "Cancelled" then if unit_variant content then Some OrderCancelled else None
  else None.

#[export] Instance order_serde : Serde Order := {| ser := order_to_json; de := order_of_json |}.
#[export] Instance order_event_serde : Serde OrderEvent := {| ser := order_event_to_json; de := order_event_of_json |}.
End order.

Definition order_error_to_json (e : OrderError) : Json :=
  match e with
  | AlreadyPlaced => JString "AlreadyPlaced"
  | NotPlaced => JString "NotPlaced"
  | NotConfirmed => JString "NotConfirmed"
  | NotOpen => JString "NotOpen"
  | Refused e => JObject [("Refused", ser e)]
  end.

Definition order_error_of_json (j : Json) : option OrderError :=
  '(v, content) ← enum_of j;
  if String.eqb v "Refused" then Refused <$> (content ≫= de)
  else
    guard (unit_variant content = true);;
    if String.eqb v "AlreadyPlaced" then Some AlreadyPlaced
    else if String.eqb v "NotPlaced" then Some NotPlaced
    else if String.eqb v "NotConfirmed" then Some NotConfirmed
    else if String.eqb v "NotOpen" then Some NotOpen
    else None.

#[export] Instance order_error_serde : Serde OrderError := {| ser := order_error_to_json; de := order_error_of_json |}.
#[export] Instance order_error_serde_laws : SerdeLaws OrderError (fun _ => True).
Proof. by intros [| | | |[]]. Qed.

(** *** What can be stored *)

Definition verdict_attempts_ok (state : ConfirmationState) : Prop :=
  match state with
  | Idle | InFlight _ => True
  | DjConfirmed s => in_u32 (settled_attempts s) = true
  | DjFailed f => in_u32 (failure_attempts f) = true
  end.

(** The values the Rust types can hold. *)
Definition order_ok (o : Order) : Prop :=
  in_u32 (order_quantity o) = true /\ verdict_attempts_ok (confirmation o).
Definition order_event_ok (e : OrderEvent) : Prop :=
  match e with
  | OrderDispatch (Dispatched _ job) => in_u64 (confirm_order job) = true /\ in_u32 (confirm_quantity job) = true
  | OrderDispatch (EvConfirmed s) => in_u32 (settled_attempts s) = true
  | OrderDispatch (EvFailed f) => in_u32 (failure_attempts f) = true
  | OrderFilled | OrderCancelled => True
  end.

Lemma u64_integral z : in_u64 z = true -> ((i64_min <=? z) && (z <=? u64_max))%Z = true.
Proof. intros. range. Qed.
Lemma u32_integral z : in_u32 z = true -> ((i64_min <=? z) && (z <=? u64_max))%Z = true.
Proof. intros. range. Qed.

Section stored.
Context `{UlidLaws}.

(** Documents with symbolic strings and bounded integers, evaluated. *)
Local Ltac document :=
  lazy -[Z.leb i64_min u64_max in_u32 in_u64 ulid_to_string ulid_from_str];
  repeat match goal with
  | H : in_u64 ?z = true |- _ => rewrite ?H, ?(proj1 (andb_prop _ _ (u64_integral _ H))), ?(proj2 (andb_prop _ _ (u64_integral _ H))); clear H
  | H : in_u32 ?z = true |- _ => rewrite ?H, ?(proj1 (andb_prop _ _ (u32_integral _ H))), ?(proj2 (andb_prop _ _ (u32_integral _ H))); clear H
  end;
  rewrite ?ulid_from_str_to_string; reflexivity.

(** A document of an event or a live order survives the store. *)
Lemma order_event_stored e : order_event_ok e -> Store.event_ok e.
Proof.
  intros Hok. unfold Store.event_ok, is_value.
  destruct e as [[job_id [order item quantity]|[job_id [] attempts]|[job_id [[]|[] detail] attempts]]| |]; cbn in Hok;
    try match type of Hok with _ /\ _ => destruct Hok end; (split_and!; [document|apply bool_decide_eq_true; reflexivity|document]).
Qed.

Lemma order_stored o :
  order_ok o -> Store.state_ok (Entity := Order) (Event := OrderEvent) (Error := OrderError) (Live o).
Proof.
  intros Hok. unfold Store.state_ok, is_value.
  destruct o as [item quantity [] [|job_id|[job_id [] attempts]|[job_id [[]|[] detail] attempts]]]; destruct Hok as [Hq Ha]; cbn in Hq, Ha;
    (split_and!; [document|apply bool_decide_eq_true; reflexivity|document]).
Qed.
End stored.

(** ** The contract *)

#[export] Instance order_origin : Origin SendOrderConfirmation unit Never Order OrderEvent OrderCommand OrderError := {|
  settle_command := Settle;
  origin_event := OrderDispatch;
  origin_refused := Refused;
  dispatch_state := confirmation |}.

#[export] Instance order_origin_laws fresh :
  OriginLaws (H := order_event_sourced fresh) SendOrderConfirmation unit Never Order OrderEvent OrderCommand OrderError.
Proof.
  split.
  - intros o v. cbn. by destruct (settle (confirmation o) v).
  - intros o event state He. cbn in He |- *. rewrite He. by eexists.
Qed.

Definition order_config : EntityConfig := mkEntityConfig "Order" 2 CompactAfterSnapshot 1.
Definition order_event_version (e : OrderEvent) : string := "1.0".

(** Whatever verdict its job comes to, an in-flight order can store it. *)
Section verdicts.
Context `{UlidLaws} (fresh : JobId).
#[local] Instance orders : EventSourced Order OrderEvent OrderCommand OrderError := order_event_sourced fresh.

Lemma order_verdict_storable o job (v : ConfirmationVerdict) :
  in_u32 (order_quantity o) = true -> confirmation o = InFlight job -> verdict_for job v ->
  storable (Live o : Lifecycle Order OrderEvent OrderError) [OrderDispatch (verdict_event v)].
Proof.
  intros Hq Hfly [<- Hv]. split.
  - constructor; [|constructor]. apply order_event_stored. by destruct v.
  - destruct (settle_in_flight (J := SendOrderConfirmation) _ v eq_refl) as [_ Hev]. cbn. rewrite Hfly, Hev. cbn.
    apply order_stored. split; [done|]. by destruct v.
Qed.
End verdicts.
