(* ===== verification/SupportTicket.v ===== *)
(** * An application: support tickets

    Models src/examples/simple/src/support_ticket.rs: the entity [SupportTicket], whose
    close request kicks off the durable job [NotifyClosed], and that job.  Instants are
    opaque; how they are written in a job's payload ([instant_text]) belongs to
    [chrono].  The id a dispatch mints is the argument [fresh]. *)

From S2P Require Import Prelude Json Sqlite EventTable Lifecycle Schema Job JobQueueProps Repository Dispatch Reactor.
From S2P Require Import Backend Effects Decimal.

(** ** Data *)

Abbreviation TicketId := Z (only parsing).
Abbreviation Instant := Z (only parsing).

Definition ticket_id_to_string (id : TicketId) : string := display_id "T-" id.
Definition ticket_id_from_str (value : string) : result ParseIdError TicketId := id_from_str "T-" value.

Inductive Status : Type := StatusOpen | StatusPending | StatusClosing | StatusClosed.

Record NotifyClosed : Type := mkNotifyClosed {
  notify_ticket : TicketId;
  notify_subject : string;
  closed_at : Instant;
}.

Abbreviation NotifyState := (DispatchedJob (Output := unit) (Error := Never)).
Abbreviation NotifyEvent := (DispatchEvent (J := NotifyClosed) (Output := unit) (Error := Never)).
Abbreviation NotifyVerdict := (Verdict (Output := unit) (Error := Never)).

Record SupportTicket : Type := mkTicket {
  ticket : TicketId;
  subject : string;
  status : Status;
  last_updated_at : Instant;
  notify : NotifyState;
}.
Inductive SupportTicketEvent : Type :=
| Opened (ticket : TicketId) (subject : string) (at_ : Instant)
| AwaitingCustomer (at_ : Instant)
| TicketDispatch (event : NotifyEvent).
Inductive SupportTicketCommand : Type :=
| OpenTicket (ticket : TicketId) (subject : string) (at_ : Instant)
| AwaitCustomer (at_ : Instant)
| CloseTicket (at_ : Instant)
| SettleTicket (outcome : NotifyVerdict).
Inductive SupportTicketError : Type :=
| AlreadyOpen
| TicketNotOpen
| AlreadyClosed
| TicketRefused (e : DispatchRefused).

Definition ticket_event_type (e : SupportTicketEvent) : string :=
  match e with
  | Opened _ _ _ => "SupportTicketEvent::Opened"
  | AwaitingCustomer _ => "SupportTicketEvent::AwaitingCustomer"
  | TicketDispatch (Dispatched _ _) => "SupportTicketEvent::CloseRequested"
  | TicketDispatch (EvConfirmed _) => "SupportTicketEvent::Closed"
  | TicketDispatch (EvFailed _) => "SupportTicketEvent::CloseFailed"
  end.

(** ** The entity *)

Definition ticket_originate (event : SupportTicketEvent) : option SupportTicket :=
  match event with
  | Opened ticket subject at_ => Some (mkTicket ticket subject StatusOpen at_ Idle)
  | AwaitingCustomer _ | TicketDispatch _ => None
  end.

Definition ticket_evolve (entity : SupportTicket) (event : SupportTicketEvent) :
    result SupportTicketError (option SupportTicket) :=
  match event with
  | Opened _ _ _ => Ok None
  | AwaitingCustomer at_ => Ok (Some (mkTicket (ticket entity) (subject entity) StatusPending at_ (notify entity)))
  | TicketDispatch dispatch_event =>
      match dispatch_evolve (notify entity) dispatch_event with
      | Err _ => Ok None
      | Ok notify =>
          let '(status, last_updated_at) :=
            match dispatch_event with
            | Dispatched _ job => (StatusClosing, closed_at job)
            | EvConfirmed _ => (StatusClosed, last_updated_at entity)
            | EvFailed _ => (StatusClosing, last_updated_at entity)
            end in
          Ok (Some (mkTicket (ticket entity) (subject entity) status last_updated_at notify))
      end
  end.

Section handlers.
Context (instant_text : Instant -> string) (fresh : JobId).

(** [serde_json::to_value] of the job, an object in key order. *)
Definition notify_encode (job : NotifyClosed) : result JsonError Json :=
  Ok (JObject [("closed_at", JString (instant_text (closed_at job))); ("subject", JString (notify_subject job));
               ("ticket", JInt (notify_ticket job))]).

#[local] Instance notify_wired : Wired NotifyClosed unit Never SupportTicketEvent := {|
  absorb := TicketDispatch;
  job_KIND := "notify-closed";
  job_encode := notify_encode |}.

Definition ticket_initialize (command : SupportTicketCommand) : result SupportTicketError (Effect SupportTicketEvent) :=
  match command with
  | OpenTicket ticket subject at_ => fx (Opened ticket subject at_)
  | AwaitCustomer _ | CloseTicket _ | SettleTicket _ => fx TicketNotOpen
  end.

Definition ticket_transition (self : SupportTicket) (command : SupportTicketCommand) :
    result SupportTicketError (Effect SupportTicketEvent) :=
  match command with
  | OpenTicket _ _ _ => fx AlreadyOpen
  | AwaitCustomer at_ =>
      match status self with
      | StatusClosing | StatusClosed => fx AlreadyClosed
      | StatusOpen | StatusPending => fx (AwaitingCustomer at_)
      end
  | CloseTicket at_ =>
      match status self with
      | StatusClosing | StatusClosed => fx AlreadyClosed
      | StatusOpen | StatusPending =>
          dispatched ← map_err TicketRefused (dispatch_job (notify self) fresh (mkNotifyClosed (ticket self) (subject self) at_));
          fx (dispatched : JobDispatch SupportTicketEvent)
      end
  | SettleTicket outcome =>
      events ← map_err TicketRefused (settle (J := NotifyClosed) (notify self) outcome);
      fx events
  end.

Definition ticket_event_sourced : EventSourced SupportTicket SupportTicketEvent SupportTicketCommand SupportTicketError := {|
  originate := ticket_originate;
  evolve := ticket_evolve;
  initialize := ticket_initialize;
  transition := ticket_transition |}.
End handlers.

(** The worker's side: notifying is done at once, and a notification of unknown fate is
    taken for sent. *)
Definition notify_submit (ctx : JobContext) : result (JobFailure (Error := Never)) (JobOutcome unit) := Ok (OutDone ()).
Definition notify_reconcile (ctx : JobContext) :
    result (JobFailure (Error := Never)) (Reconciliation (Output := unit)) := Ok (RecSettled ()).
(** [SweepStaleTickets], a job without an origin: a unit struct, written as [null]. *)
Inductive SweepStaleTickets : Type := sweep_stale_tickets.

#[export] Instance sweep_job : StandaloneJob SweepStaleTickets := {|
  WORKER_NAME := "sweep-stale-tickets";
  KIND := "sweep-stale-tickets";
  to_value _ := Ok JNull;
  from_value payload := match payload with JNull => Some sweep_stale_tickets | _ => None end;
|}.
#[export] Instance sweep_job_laws : StandaloneJobLaws SweepStaleTickets.
Proof.
  split; intros [] payload [= <-]; [|done]. split; [done|]. split; [done|].
  apply Nat.ltb_lt. by vm_compute.
Qed.

Definition sweep_perform (ctx : JobContext) : result (JobFailure (Error := Never)) (JobOutcome unit) := Ok (OutDone ()).

(** ** The life of a ticket *)

Section life.
Context (instant_text : Instant -> string).

(** What a log folds to does not depend on the ids its handlers would mint. *)
Definition ticket_state (log : list SupportTicketEvent) : Lifecycle SupportTicket SupportTicketEvent SupportTicketError :=
  replay (H := ticket_event_sourced instant_text 0%N) Uninitialized log.

Definition ticket_handle (fresh : JobId) (log : list SupportTicketEvent) (command : SupportTicketCommand) :
    result (LifecycleError SupportTicket SupportTicketEvent SupportTicketError) (list SupportTicketEvent) * Scope :=
  handle (H := ticket_event_sourced instant_text fresh) (ticket_state log) command (Some []).

Definition ticket_sends (c c' : list SupportTicketEvent * list PendingPush) : Prop :=
  exists fresh command events pushes,
    ticket_handle fresh c.1 command = (Ok events, Some pushes) /\ c' = (c.1 ++ events, c.2 ++ pushes).

Definition is_waiting (e : SupportTicketEvent) : bool := match e with AwaitingCustomer _ => true | _ => false end.
Definition is_open (s : Status) : bool := match s with StatusOpen | StatusPending => true | _ => false end.

(** The end of a ticket's log: nothing, a close request, or one with its verdict; with
    the jobs enqueued for it, and the status and notification it leads to. *)
Inductive closing_tail (t : TicketId) (subj : string) :
    list SupportTicketEvent -> list PendingPush -> Status -> NotifyState -> Prop :=
| TailOpen s : is_open s = true -> closing_tail t subj [] [] s Idle
| TailClosing id at_ :
    closing_tail t subj [TicketDispatch (Dispatched id (mkNotifyClosed t subj at_))]
      [mkPendingPush id "notify-closed" (notify_encode instant_text (mkNotifyClosed t subj at_)) None]
      StatusClosing (InFlight id)
| TailClosed id at_ s : settled_job_id s = id ->
    closing_tail t subj [TicketDispatch (Dispatched id (mkNotifyClosed t subj at_)); TicketDispatch (EvConfirmed s)]
      [mkPendingPush id "notify-closed" (notify_encode instant_text (mkNotifyClosed t subj at_)) None]
      StatusClosed (DjConfirmed s)
| TailFailed id at_ f : failure_job_id f = id ->
    closing_tail t subj [TicketDispatch (Dispatched id (mkNotifyClosed t subj at_)); TicketDispatch (EvFailed f)]
      [mkPendingPush id "notify-closed" (notify_encode instant_text (mkNotifyClosed t subj at_)) None]
      StatusClosing (DjFailed f).

Definition ticket_inv (c : list SupportTicketEvent * list PendingPush) : Prop :=
  c = ([], []) \/
  exists t subj at_ waits tail pushes st updated n,
    c = (Opened t subj at_ :: waits ++ tail, pushes) /\ Forall (fun e => is_waiting e = true) waits /\
    closing_tail t subj tail pushes st n /\ ticket_state c.1 = Live (mkTicket t subj st updated n).

Lemma ticket_tail_step fresh t subj waits tail pushes st updated n command events more :
  Forall (fun e => is_waiting e = true) waits -> closing_tail t subj tail pushes st n ->
  handle (H := ticket_event_sourced instant_text fresh) (Live (mkTicket t subj st updated n)) command (Some []) =
    (Ok events, Some more) ->
  exists waits' tail' st' updated' n',
    waits ++ tail ++ events = waits' ++ tail' /\ Forall (fun e => is_waiting e = true) waits' /\
    closing_tail t subj tail' (pushes ++ more) st' n' /\
    replay (H := ticket_event_sourced instant_text 0%N) (Live (mkTicket t subj st updated n)) events =
      Live (mkTicket t subj st' updated' n').
Proof.
  intros Hw Ht Hh. destruct Ht as [s Hs|id a|id a s Hs|id a f Hf].
  - destruct command as [t' s' a|a|a|[v|v]]; [done|..].
    + destruct s; try done; unfold handle in Hh; simpl in Hh; injection Hh as <- <-;
        exists (waits ++ [AwaitingCustomer a]), [], StatusPending, a, Idle; rewrite app_nil_r;
        (split; [by rewrite app_nil_l|]); (split; [by apply Forall_app; split; [|repeat constructor]|]);
        (split; [by constructor|done]).
    + destruct s; try done; unfold handle in Hh; simpl in Hh; injection Hh as <- <-;
        do 5 eexists; (split; [by rewrite app_nil_l|]); (split; [done|]); (split; [constructor|done]).
    + by destruct s.
    + by destruct s.
  - destruct command as [t' s' a'|a'|a'|[v|v]]; try done; unfold handle in Hh; simpl in Hh.
    + destruct (N.eqb_spec id (settled_job_id v)) as [->|]; [|done]. simpl in Hh. rewrite N.eqb_refl in Hh.
      injection Hh as <- <-. do 5 eexists. split; [done|]. split; [done|]. split; [by constructor|].
      simpl. by rewrite N.eqb_refl.
    + destruct (N.eqb_spec id (failure_job_id v)) as [->|]; [|done]. simpl in Hh. rewrite N.eqb_refl in Hh.
      injection Hh as <- <-. do 5 eexists. split; [done|]. split; [done|]. split; [by constructor|].
      simpl. by rewrite N.eqb_refl.
  - destruct command as [t' s' a'|a'|a'|[v|v]]; try done; unfold handle in Hh; simpl in Hh.
    destruct (N.eqb_spec (settled_job_id s) (settled_job_id v)); [|done]. injection Hh as <- <-.
    do 5 eexists. split; [done|]. split; [done|]. split; [by constructor|done].
  - destruct command as [t' s' a'|a'|a'|[v|v]]; try done; unfold handle in Hh; simpl in Hh.
    destruct (N.eqb_spec (failure_job_id f) (failure_job_id v)); [|done]. injection Hh as <- <-.
    do 5 eexists. split; [done|]. split; [done|]. split; [by constructor|done].
Qed.

Lemma ticket_step_inv c c' : ticket_inv c -> ticket_sends c c' -> ticket_inv c'.
Proof.
  intros [->|(t & subj & at_ & waits & tail & pushes & st & updated & n & -> & Hw & Ht & Hs)]
    (fresh & command & events & more & Hh & ->).
  - destruct command as [t subj a|a|a|v]; [|done..]. injection Hh as <- <-. right.
    exists t, subj, a, [], [], [], StatusOpen, a, Idle. split_and!; [done|constructor|by constructor|done].
  - cbn [fst snd] in *. unfold ticket_handle in Hh. rewrite Hs in Hh.
    destruct (ticket_tail_step _ _ _ _ _ _ _ _ _ _ _ _ Hw Ht Hh) as (waits' & tail' & st' & updated' & n' & He & Hw' & Ht' & Hr).
    right. exists t, subj, at_, waits', tail', (pushes ++ more), st', updated', n'. rewrite <-He.
    split_and!; [by rewrite <-app_comm_cons, <-app_assoc|done|done|].
    unfold ticket_state in *. cbn [fst]. by rewrite replay_app, Hs, Hr.
Qed.

(** A ticket is closed by the verdict on its notification and by nothing else.
    Whatever commands are sent, a ticket's log opens it, records waits, and ends with at
    most one close request and at most one verdict, of the job that request names; the
    ticket is closed exactly when that verdict is a confirmation.  The notification is
    enqueued exactly when the close is requested, once, for this ticket and subject,
    which never change.  Once a close was requested the ticket takes no wait and no
    second close. *)
Theorem ticket_life log enqueued :
  rtc ticket_sends ([], []) (log, enqueued) ->
  log = [] /\ enqueued = [] \/
  exists t subj at_ waits tail st updated n,
    log = Opened t subj at_ :: waits ++ tail /\ Forall (fun e => is_waiting e = true) waits /\
    closing_tail t subj tail enqueued st n /\ ticket_state log = Live (mkTicket t subj st updated n) /\
    (st = StatusClosed <-> exists s, TicketDispatch (EvConfirmed s) ∈ log) /\
    (tail <> [] -> forall fresh a,
       (ticket_handle fresh log (AwaitCustomer a)).1 = Err (Apply AlreadyClosed) /\
       (ticket_handle fresh log (CloseTicket a)).1 = Err (Apply AlreadyClosed)).
Proof.
  intros Hr. assert (ticket_inv (log, enqueued)) as
    [Hi|(t & subj & at_ & waits & tail & pushes & st & updated & n & [= -> ->] & Hw & Ht & Hs)].
  { revert Hr. apply (rtc_ind_r ticket_inv); [by left|]. intros x y _ Hs Hi. by eapply ticket_step_inv. }
  { left. by injection Hi. }
  right. exists t, subj, at_, waits, tail, st, updated, n. split_and!; [done..| |].
  - assert (forall s, TicketDispatch (EvConfirmed s) ∈ (Opened t subj at_ :: waits ++ tail) ->
      TicketDispatch (EvConfirmed s) ∈ tail) as Hin.
    { intros s. rewrite elem_of_cons, elem_of_app. intros [?|[Hi|?]]; [done| |done].
      rewrite Forall_forall in Hw. by specialize (Hw _ Hi). }
    split.
    + intros ->. inversion Ht; subst; [done|]. eexists. rewrite elem_of_cons, elem_of_app. right. right. by right; left.
    + intros [s Hi%Hin]. inversion Ht; subst; [by apply not_elem_of_nil in Hi|..]; try done;
        repeat (apply elem_of_cons in Hi as [Hi|Hi]; [discriminate Hi|]); by apply not_elem_of_nil in Hi.
  - intros Hne fresh a. unfold ticket_handle. cbn [fst] in Hs. rewrite Hs. by inversion Ht; subst.
Qed.
End life.

Lemma ticket_life_witness :
  exists log enqueued, rtc (ticket_sends (fun _ => "")) ([], []) (log, enqueued) /\ length log = 4 /\
    exists updated s, ticket_state (fun _ => "") log = Live (mkTicket 3 "billing" StatusClosed updated (DjConfirmed s)).
Proof.
  pose (s := mkSettled 7%N () 1%Z). pose (job := mkNotifyClosed 3 "billing" 20).
  pose (push := mkPendingPush 7%N "notify-closed" (notify_encode (fun _ => "") job) None).
  assert (rtc (ticket_sends (fun _ => "")) ([], [])
    ([Opened 3 "billing" 10; AwaitingCustomer 15; TicketDispatch (Dispatched 7%N job); TicketDispatch (EvConfirmed s)],
     [push])) as Hr.
  { eapply rtc_l; [by exists 1%N, (OpenTicket 3 "billing" 10), [Opened 3 "billing" 10], []|].
    eapply rtc_l; [by exists 1%N, (AwaitCustomer 15), [AwaitingCustomer 15], []|].
    eapply rtc_l; [by exists 7%N, (CloseTicket 20), [TicketDispatch (Dispatched 7%N job)], [push]|].
    apply rtc_once. by exists 8%N, (SettleTicket (VerdictConfirmed s)), [TicketDispatch (EvConfirmed s)], []. }
  do 2 eexists. split; [exact Hr|]. split; [reflexivity|].
  destruct (ticket_life _ _ _ Hr) as [[H _]|(t & subj & a & waits & tail & st & updated & n & Hl & _ & Ht & Hs & [_ Hc] & _)];
    [discriminate|].
  rewrite Hc in Hs by (exists s; by repeat constructor). exists 20%Z, s. reflexivity.
Defined.
