(* ===== verification/TicketOrigin.v ===== *)
(** * Support tickets as origins

    The tickets of src/examples/simple/src/support_ticket.rs keep the contract of
    Delivery.v too: [SupportTicket] settles its [NotifyClosed] as an order settles its
    confirmation.  The derived serialization of tickets, their events and errors round
    trips through the stored documents; the text of an instant belongs to [chrono],
    [TicketInstants] is its documented round trip. *)

From S2P Require Import Prelude Json Sqlite EventTable Lifecycle Schema Job Engine EngineProps.
From S2P Require Import ViewRepository Repository SchemaRecovery Reactor Dispatch Projection Startup Store StoreProps.
From S2P Require Import Delivery DispatchJson Effects OrderOrigin SupportTicket.

Class TicketInstants := {
  instant_text : Z -> string;
  instant_of_text : string -> option Z;
}.
Class TicketInstantsLaws `{TicketInstants} := {
  instant_round_trip : forall i, instant_of_text (instant_text i) = Some i;
}.

(** ** Stored form *)

Definition status_to_json (s : Status) : Json :=
  JString match s with
          | StatusOpen => "Open"
          | StatusPending => "Pending"
          | StatusClosing => "Closing"
          | StatusClosed => "Closed"
          end.

Definition status_of_json (j : Json) : option Status :=
  '(v, content) ← enum_of j;
  guard (unit_variant content = true);;
  if String.eqb v "Open" then Some StatusOpen
  else if String.eqb v "Pending" then Some StatusPending
  else if String.eqb v "Closing" then Some StatusClosing
  else if String.eqb v "Closed" then Some StatusClosed
  else None.

Section stored.
Context `{Ulid, TicketInstants}.

Definition instant_to_json (i : Z) : Json := JString (instant_text i).
Definition instant_of_json (j : Json) : option Z := as_string j ≫= instant_of_text.

Definition notify_to_json (job : NotifyClosed) : Json :=
  JObject [("ticket", JInt (notify_ticket job)); ("subject", JString (notify_subject job));
           ("closed_at", instant_to_json (closed_at job))].

Definition notify_of_json (j : Json) : option NotifyClosed :=
  fs ← struct_of ["ticket"; "subject"; "closed_at"] j;
  match fs with
  | [ticket; subject; closed_at] =>
      ticket ← as_int in_u64 ticket; subject ← as_string subject; closed_at ← instant_of_json closed_at;
      Some (mkNotifyClosed ticket subject closed_at)
  | _ => None
  end.

#[export] Instance notify_serde : Serde NotifyClosed := {| ser := notify_to_json; de := notify_of_json |}.

Definition ticket_to_json (self : SupportTicket) : Json :=
  JObject [("ticket", JInt (ticket self)); ("subject", JString (subject self));
           ("status", status_to_json (status self)); ("last_updated_at", instant_to_json (last_updated_at self));
           ("notify", ser (notify self))].

Definition ticket_of_json (j : Json) : option SupportTicket :=
  fs ← struct_of ["ticket"; "subject"; "status"; "last_updated_at"; "notify"] j;
  match fs with
  | [ticket; subject; status; last_updated_at; notify] =>
      ticket ← as_int in_u64 ticket; subject ← as_string subject; status ← status_of_json status;
      last_updated_at ← instant_of_json last_updated_at; notify ← de notify;
      Some (mkTicket ticket subject status last_updated_at notify)
  | _ => None
  end.

Definition ticket_event_to_json (e : SupportTicketEvent) : Json :=
  match e with
  | Opened ticket subject at_ =>
      tagged "Opened" [("ticket", JInt ticket); ("subject", JString subject); ("at", instant_to_json at_)]
  | AwaitingCustomer at_ => tagged "AwaitingCustomer" [("at", instant_to_json at_)]
  | TicketDispatch event => JObject [("Dispatch", ser event)]
  end.

Definition ticket_event_of_json (j : Json) : option SupportTicketEvent :=
  '(v, content) ← enum_of j;
  if String.eqb v "Opened" then
    fs ← content ≫= struct_of ["ticket"; "subject"; "at"];
    match fs with
    | [ticket; subject; at_] =>
        ticket ← as_int in_u64 ticket; subject ← as_string subject; at_ ← instant_of_json at_;
        Some (Opened ticket subject at_)
    | _ => None
    end
  else if String.eqb v "AwaitingCustomer" then
    fs ← content ≫= struct_of ["at"];
    match fs with [at_] => AwaitingCustomer <$> instant_of_json at_ | _ => None end
  else if String.eqb v "Dispatch" then TicketDispatch <$> (content ≫= de)
  else None.

#[export] Instance ticket_serde : Serde SupportTicket := {| ser := ticket_to_json; de := ticket_of_json |}.
#[export] Instance ticket_event_serde : Serde SupportTicketEvent := {|
  ser := ticket_event_to_json; de := ticket_event_of_json |}.
End stored.

Definition ticket_error_to_json (e : SupportTicketError) : Json :=
  match e with
  | AlreadyOpen => JString "AlreadyOpen"
  | TicketNotOpen => JString "NotOpen"
  | AlreadyClosed => JString "AlreadyClosed"
  | TicketRefused e => JObject [("Refused", ser e)]
  end.

Definition ticket_error_of_json (j : Json) : option SupportTicketError :=
  '(v, content) ← enum_of j;
  if String.eqb v "Refused" then TicketRefused <$> (content ≫= de)
  else
    guard (unit_variant content = true);;
    if String.eqb v "AlreadyOpen" then Some AlreadyOpen
    else if String.eqb v "NotOpen" then Some TicketNotOpen
    else if String.eqb v "AlreadyClosed" then Some AlreadyClosed
    else None.

#[export] Instance ticket_error_serde : Serde SupportTicketError := {|
  ser := ticket_error_to_json; de := ticket_error_of_json |}.
#[export] Instance ticket_error_serde_laws : SerdeLaws SupportTicketError (fun _ => True).
Proof. by intros [| | |[]]. Qed.

(** *** What can be stored *)

Definition ticket_ok (t : SupportTicket) : Prop :=
  in_u64 (ticket t) = true /\ verdict_attempts_ok (notify t).
Definition ticket_event_ok (e : SupportTicketEvent) : Prop :=
  match e with
  | Opened ticket _ _ => in_u64 ticket = true
  | AwaitingCustomer _ => True
  | TicketDispatch (Dispatched _ job) => in_u64 (notify_ticket job) = true
  | TicketDispatch (EvConfirmed s) => in_u32 (settled_attempts s) = true
  | TicketDispatch (EvFailed f) => in_u32 (failure_attempts f) = true
  end.

Section round_trips.
Context `{UlidLaws, TicketInstantsLaws}.

Local Ltac document :=
  lazy -[Z.leb i64_min u64_max in_u32 in_u64 ulid_to_string ulid_from_str instant_text instant_of_text];
  repeat match goal with
  | H : in_u64 ?z = true |- _ => rewrite ?H, ?(proj1 (andb_prop _ _ (u64_integral _ H))), ?(proj2 (andb_prop _ _ (u64_integral _ H))); clear H
  | H : in_u32 ?z = true |- _ => rewrite ?H, ?(proj1 (andb_prop _ _ (u32_integral _ H))), ?(proj2 (andb_prop _ _ (u32_integral _ H))); clear H
  end;
  rewrite ?ulid_from_str_to_string, ?instant_round_trip; reflexivity.

(** A document of an event or a live ticket survives the store. *)
Lemma ticket_event_stored e : ticket_event_ok e -> Store.event_ok e.
Proof.
  intros Hok. unfold Store.event_ok, is_value.
  destruct e as [t subj a|a|[job_id [t subj a]|[job_id [] attempts]|[job_id [[]|[] detail] attempts]]]; cbn in Hok;
    (split_and!; [document|apply bool_decide_eq_true; reflexivity|document]).
Qed.

Lemma ticket_stored t :
  ticket_ok t ->
  Store.state_ok (Entity := SupportTicket) (Event := SupportTicketEvent) (Error := SupportTicketError) (Live t).
Proof.
  intros Hok. unfold Store.state_ok, is_value.
  destruct t as [t subj [] a [|job_id|[job_id [] attempts]|[job_id [[]|[] detail] attempts]]]; destruct Hok as [Hq Ha]; cbn in Hq, Ha;
    (split_and!; [document|apply bool_decide_eq_true; reflexivity|document]).
Qed.
End round_trips.

(** The payload a close enqueues is the document of the job its event records. *)
Lemma notify_payload `{Ulid, TicketInstants} job : notify_encode instant_text job = Ok (canon (ser job)).
Proof. reflexivity. Qed.

(** ** The contract *)

#[export] Instance ticket_origin :
    Origin NotifyClosed unit Never SupportTicket SupportTicketEvent SupportTicketCommand SupportTicketError := {|
  settle_command := SettleTicket;
  origin_event := TicketDispatch;
  origin_refused := TicketRefused;
  dispatch_state := notify |}.

#[export] Instance ticket_origin_laws instant_text fresh :
  OriginLaws (H := ticket_event_sourced instant_text fresh)
    NotifyClosed unit Never SupportTicket SupportTicketEvent SupportTicketCommand SupportTicketError.
Proof.
  split.
  - intros t v. cbn. by destruct (settle (notify t) v).
  - intros t event state He. cbn in He |- *. rewrite He. by destruct event; eexists.
Qed.

Definition ticket_config : EntityConfig := mkEntityConfig "SupportTicket" 2 Retain 10.
Definition ticket_event_version (e : SupportTicketEvent) : string := "1.0".

(** Whatever verdict its job comes to, a closing ticket can store it. *)
Section verdicts.
Context `{UlidLaws, TicketInstantsLaws} (fresh : JobId).
#[local] Instance tickets : EventSourced SupportTicket SupportTicketEvent SupportTicketCommand SupportTicketError :=
  ticket_event_sourced instant_text fresh.

Lemma ticket_verdict_storable t job (v : NotifyVerdict) :
  in_u64 (ticket t) = true -> notify t = InFlight job -> verdict_for job v ->
  storable (Live t : Lifecycle SupportTicket SupportTicketEvent SupportTicketError) [TicketDispatch (verdict_event v)].
Proof.
  intros Hq Hfly [<- Hv]. split.
  - constructor; [|constructor]. apply ticket_event_stored. by destruct v.
  - destruct (settle_in_flight (J := NotifyClosed) _ v eq_refl) as [_ Hev]. cbn. rewrite Hfly, Hev. cbn.
    destruct v; cbn; (apply ticket_stored; split; [done|]; done).
Qed.
End verdicts.
