(* ===== verification/Abi.v ===== *)
(** * The C ABI: limits, wire types, errors and buffers

    Models the pure part of src/crates/event-sorcery-ffi/src/lib.rs: the limits, the
    error classes and the details they carry, the bounded decoding of request
    buffers and encoding of responses, and the validation of every request.  The
    claim registry is in ClaimRegistry.v, the store handles in StoreHandle.v and the
    entry points in Ffi.v.

    CBOR belongs to [ciborium].  [CborCodec T] is its use at one wire type: decoding
    with a recursion limit, and the pieces its encoder writes one after the other;
    [CborLaws] is its round trip.  The options of SQLite and URL-encoded forms belong
    to [sqlx] and [url]; they are arguments.  A byte is a [Z], a string the list of
    its bytes, and [EsBuf] a null pointer or the bytes it refers to. *)

From Stdlib Require Import Ascii.
From S2P Require Import Prelude Json Sqlite EventTable Lifecycle Schema Job Engine.
From S2P Require Import ViewRepository JobQueue Repository Dispatch Worker.

(** ** Limits and error classes *)

Definition ABI_MAJOR : Z := 0.
Definition ABI_MINOR : Z := 5.
Definition ES_OK : Z := 0.
Definition ES_ERR_DECODE : Z := 1.
Definition ES_ERR_CONFLICT : Z := 2.
Definition ES_ERR_JOB_REFUSAL : Z := 3.
Definition ES_ERR_STORAGE : Z := 4.
Definition ES_ERR_STATE : Z := 5.
Definition ES_ERR_RESOURCE_LIMIT : Z := 6.
Definition ES_ERR_PANIC : Z := 100.
Definition MAX_REQUEST_BYTES : Z := 16 * 1024 * 1024.
Definition MAX_RESPONSE_BYTES : Z := 64 * 1024 * 1024.
Definition MAX_STORED_EVENT_PAGE_BYTES : Z := 4 * MAX_RESPONSE_BYTES + MAX_REQUEST_BYTES.
Definition MAX_CBOR_DEPTH : nat := 32.
Definition MAX_PAYLOAD_BYTES : Z := 1024 * 1024.
Definition MAX_COMMIT_EVENTS : Z := 1024.
Definition MAX_LIST_ITEMS : Z := 4096.
Definition MAX_ACTIVE_CLAIMS : Z := MAX_LIST_ITEMS.
Definition MAX_ERROR_TEXT_BYTES : Z := 4 * 1024.
Definition MAX_IDENTIFIER_BYTES : Z := 4 * 1024.
Definition MAX_RUNTIME_THREADS : Z := 256.
Definition MAX_BUSY_TIMEOUT_MS : Z := 2147483647.

Definition es_abi_version : Z := Z.lor (Z.shiftl ABI_MAJOR 16) ABI_MINOR.

(** ** Errors *)

Inductive JobRefusal : Type :=
| RefusalAttemptExhausted
| RefusalInvalidClaimPolicy
| RefusalSettlementRefused
| PayloadNotOpaqueBytes
| PayloadByteOutOfRange
| PayloadAboveAbiLimit.
#[global] Instance JobRefusal_eq_dec : EqDecision JobRefusal.
Proof. solve_decision. Defined.

Definition refusal_text (r : JobRefusal) : string :=
  match r with
  | RefusalAttemptExhausted => "job attempt counter exhausted"
  | RefusalInvalidClaimPolicy => "invalid job claim policy"
  | RefusalSettlementRefused => "job aggregate refused the settlement"
  | PayloadNotOpaqueBytes => "claimed job payload is not opaque bytes"
  | PayloadByteOutOfRange => "claimed job payload contains an invalid byte"
  | PayloadAboveAbiLimit => "claimed job payload exceeds the ABI payload limit"
  end.

(** The errors of [ciborium] and of its writer, never inspected. *)
Inductive CborError : Type := CborFailure (what : string).
(** [std::io::Error]. *)
Inductive IoError : Type := IoOther (what : string).

(** [JobRuntime] boxes the runtime's error or, at opening, the one of its startup,
    hence two constructors. *)
Inductive AbiError : Type :=
| MalformedInput
| CborDecode (e : CborError)
| SqliteOptionsError (e : SqlxError)
| InputInteger (e : TryFromIntError)
| CanonicalCbor (e : CborError)
| AbiConflict (aggregate_type aggregate_id : string) (expected actual : Z)
| JobIdentifier
| AbiJobRefusal (job_id : JobId) (refusal : JobRefusal)
| AbiJobRuntime (e : JobRuntimeError)
| AbiJobStartup (e : ReconcileError)
| JobPayload (e : JsonError)
| AbiEngine (e : EngineError)
| AbiSql (e : SqlxError)
| AbiMigration (e : SqliteJobError)
| StorageInteger (e : TryFromIntError)
| CborEncode (e : CborError)
| ResponseIo (e : IoError)
| RuntimeError (e : IoError)
| AbiState (detail : string)
| ResourceLimit (resource : string) (observed limit : Z)
| Panic.

Definition abi_of_engine_error (error : EngineError) : AbiError :=
  match error with
  | EventPageTooLarge observed limit => ResourceLimit "stored_event_page" observed limit
  | JobFlush (InvalidInstant _) => MalformedInput
  | EngSchema (CompactedSnapshotClear _ _ _) => AbiState "compacted snapshot retention cannot be cleared"
  | other => AbiEngine other
  end.

Definition code (self : AbiError) : Z :=
  match self with
  | MalformedInput | CborDecode _ | SqliteOptionsError _ | InputInteger _ | CanonicalCbor _
  | JobIdentifier => ES_ERR_DECODE
  | AbiConflict _ _ _ _ => ES_ERR_CONFLICT
  | AbiJobRefusal _ _ => ES_ERR_JOB_REFUSAL
  | AbiEngine _ | AbiSql _ | AbiMigration _ | StorageInteger _ | AbiJobRuntime _
  | AbiJobStartup _ | JobPayload _ =>
      ES_ERR_STORAGE
  | CborEncode _ | ResponseIo _ | RuntimeError _ | AbiState _ => ES_ERR_STATE
  | ResourceLimit _ _ _ => ES_ERR_RESOURCE_LIMIT
  | Panic => ES_ERR_PANIC
  end.

Definition job_runtime_error (job_id : JobId) (error : JobRuntimeError) : AbiError :=
  match error with
  | RtInvalidInstant _ => MalformedInput
  | AttemptExhausted => AbiJobRefusal job_id RefusalAttemptExhausted
  | InvalidClaimPolicy => AbiJobRefusal job_id RefusalInvalidClaimPolicy
  | RtSettlementRefused refused _ => AbiJobRefusal refused RefusalSettlementRefused
  | RtBackend _ | RtProjection _ | RtAggregateStore _ | RtAggregate _ => AbiJobRuntime error
  end.

(** The part of [ciborium::Value] error details use. *)
Inductive CborValue : Type :=
| CborText (s : string)
| CborInteger (z : Z)
| CborArray (l : list CborValue)
| CborNull.

Definition error_detail `{Ulid} (error : AbiError) : CborValue :=
  match error with
  | MalformedInput | CborDecode _ | SqliteOptionsError _ | InputInteger _ | CanonicalCbor _
  | JobIdentifier => CborText "malformed input"
  | AbiJobRefusal job_id refusal =>
      CborArray [CborText (ulid_to_string job_id); CborText (refusal_text refusal)]
  | AbiConflict aggregate_type aggregate_id expected actual =>
      CborArray [CborText aggregate_type; CborText aggregate_id; CborInteger expected; CborInteger actual]
  | AbiEngine _ | AbiSql _ | AbiMigration _ | StorageInteger _ | AbiJobRuntime _
  | AbiJobStartup _ | JobPayload _ =>
      CborText "storage failure"
  | CborEncode _ | ResponseIo _ => CborText "response encoding failed"
  | RuntimeError _ => CborText "runtime initialization failed"
  | AbiState detail => CborText detail
  | ResourceLimit resource observed limit =>
      CborArray [CborText resource; CborInteger observed; CborInteger limit]
  | Panic => CborNull
  end.

(** ** CBOR *)

(** [chunks_of] is what the encoder hands to [write_all], in order. *)
Class CborCodec (T : Type) := {
  from_reader_with_recursion_limit : nat -> list Z -> result CborError T;
  chunks_of : T -> result CborError (list (list Z));
}.
Class CborLaws (T : Type) `{CborCodec T} (P : T -> Prop) := {
  from_reader_into_writer : forall x chunks, P x -> chunks_of x = Ok chunks ->
    from_reader_with_recursion_limit MAX_CBOR_DEPTH (concat chunks) = Ok x;
}.

(** [ciborium::into_writer(x, &mut Vec::new())]. *)
Definition into_writer {T} `{CborCodec T} (x : T) : result CborError (list Z) :=
  @concat Z <$> chunks_of x.

Inductive EsBuf : Type :=
| NullData (len : Z)
| Data (bytes : list Z).

Definition buf_len (b : EsBuf) : Z :=
  match b with NullData len => len | Data bytes => Z.of_nat (length bytes) end.

(** [buffer] is [None] for a null pointer. *)
Definition decode_validated {T} `{CborCodec T} (validate : T -> result AbiError ())
    (buffer : option EsBuf) : result AbiError T :=
  match buffer with
  | None | Some (NullData _) => Err MalformedInput
  | Some (Data bytes) =>
      let len := Z.of_nat (length bytes) in
      if (MAX_REQUEST_BYTES <? len)%Z
      then Err (ResourceLimit "encoded_request_buffer" len MAX_REQUEST_BYTES)
      else
        decoded ← map_err CborDecode (from_reader_with_recursion_limit MAX_CBOR_DEPTH bytes);
        _ ← validate decoded;
        canonical ← map_err CanonicalCbor (into_writer decoded);
        if bool_decide (canonical = bytes) then Ok decoded else Err MalformedInput
  end.

Definition decode_buffer {T} `{CborCodec T} (buffer : option EsBuf) : result AbiError T :=
  decode_validated (fun _ => Ok ()) buffer.

(** ** Responses *)

Record BoundedResponseWriter : Type := mkWriter {
  writer_bytes : list Z;
  overflow_observed : option Z;
}.

Definition new_writer : BoundedResponseWriter := mkWriter [] None.

Definition limit_error (self : BoundedResponseWriter) (otherwise : AbiError) : AbiError :=
  match overflow_observed self with
  | None => otherwise
  | Some observed => ResourceLimit "encoded_response_buffer" observed MAX_RESPONSE_BYTES
  end.
Definition io_error (self : BoundedResponseWriter) (source : IoError) : AbiError :=
  limit_error self (ResponseIo source).
Definition cbor_error (self : BoundedResponseWriter) (source : CborError) : AbiError :=
  limit_error self (CborEncode source).

(** [Write::write] takes the whole piece or fails, so [write_all] is one write. *)
Definition writer_write (buffer : list Z) (self : BoundedResponseWriter) :
    result IoError () * BoundedResponseWriter :=
  match usize_checked_add (Z.of_nat (length (writer_bytes self))) (Z.of_nat (length buffer)) with
  | None => (Err (IoOther "response size overflow"), self)
  | Some observed =>
      if (MAX_RESPONSE_BYTES <? observed)%Z
      then (Err (IoOther "response byte limit exceeded"), mkWriter (writer_bytes self) (Some observed))
      else (Ok (), mkWriter (writer_bytes self ++ buffer) (overflow_observed self))
  end.

Fixpoint write_chunks (chunks : list (list Z)) (self : BoundedResponseWriter) :
    result IoError () * BoundedResponseWriter :=
  match chunks with
  | [] => (Ok (), self)
  | chunk :: chunks =>
      match writer_write chunk self with
      | (Ok _, self) => write_chunks chunks self
      | (Err e, self) => (Err e, self)
      end
  end.

(** [ciborium::into_writer(value, &mut writer)] with the error turned into an
    [AbiError]. *)
Definition write_value {T} `{CborCodec T} (value : T) (self : BoundedResponseWriter) :
    result AbiError BoundedResponseWriter :=
  match chunks_of value with
  | Err source => Err (cbor_error self source)
  | Ok chunks =>
      match write_chunks chunks self with
      | (Ok _, self) => Ok self
      | (Err (IoOther what), self) => Err (cbor_error self (CborFailure what))
      end
  end.

Definition encode_response {T} `{CborCodec T} (value : T) : result AbiError (list Z) :=
  writer_bytes <$> write_value value new_writer.

Definition in_u16 (z : Z) : bool := ((0 <=? z) && (z <=? 65535))%Z.

Definition array_header (length : Z) : result AbiError (list Z) :=
  if (length <=? 23)%Z then Ok [Z.lor 0x80 length]
  else if (length <=? 255)%Z then Ok [0x98; length]%Z
  else if (length <=? 65535)%Z then Ok [0x99; Z.shiftr length 8; Z.land length 255]%Z
  else Err (AbiState "event page length exceeds ABI limit").

Definition write_bytes (bytes : list Z) (writer : BoundedResponseWriter) :
    result AbiError BoundedResponseWriter :=
  match writer_write bytes writer with
  | (Ok _, writer) => Ok writer
  | (Err source, writer) => Err (io_error writer source)
  end.

Definition write_array_header (writer : BoundedResponseWriter) (length : Z) :
    result AbiError BoundedResponseWriter :=
  encoded ← array_header length;
  write_bytes encoded writer.

(** ** Wire types

    One record per request and response product, in field order. *)

Definition ClaimToken : Type := list Z.

Record ProposedEventWire : Type := mkProposedWire {
  pw_event_type : string; pw_event_version : string; pw_payload : list Z }.
Record CommitEvents : Type := mkCommitEvents {
  ce_values : list ProposedEventWire; ce_observed : Z }.
Record CommitWire : Type := mkCommitWire {
  cw_version : Z; cw_aggregate_type : string; cw_aggregate_id : string; cw_expected : Z;
  cw_events : CommitEvents }.
Record JobSeedWire : Type := mkJobSeedWire {
  js_job_id : string; js_kind : string; js_payload : list Z; js_run_at_ms : Z }.
Record CommitWithJobWire : Type := mkCommitWithJobWire {
  cj_version : Z; cj_aggregate_type : string; cj_aggregate_id : string; cj_expected : Z;
  cj_events : CommitEvents; cj_job : JobSeedWire }.
Record StoredEventWire : Type := mkStoredEventWire {
  sw_sequence : Z; sw_event_type : string; sw_event_version : string; sw_payload : list Z }.
Record StoredSnapshotWire : Type := mkStoredSnapshotWire {
  ssw_version : Z; ssw_stored : option (Z * Z * list Z) }.
Record JobClaimWire : Type := mkJobClaimWire {
  jc_version : Z; jc_outcome : Z; jc_token : option (list Z); jc_attempt : option Z;
  jc_has_prior_execution : option Z; jc_payload : option (list Z) }.
Record JobsWire : Type := mkJobsWire { jobs_version : Z; jobs_ids : list string }.
Record ErrorWire : Type := mkErrorWire { ew_version : Z; ew_class : Z; ew_detail : CborValue }.
Record JobAckWire : Type := mkJobAckWire { ack_version : Z; ack_token : list Z }.
Record JobRetryWire : Type := mkJobRetryWire {
  retry_version : Z; retry_token : list Z; retry_run_at_ms : Z; retry_error : string }.
Record JobDeferWire : Type := mkJobDeferWire {
  defer_version : Z; defer_token : list Z; defer_run_at_ms : Z }.
Record JobDeadLetterWire : Type := mkJobDeadLetterWire {
  dl_version : Z; dl_token : list Z; dl_reason : Z; dl_error : string }.
Record LoadStreamWire : Type := mkLoadStreamWire {
  ls_version : Z; ls_aggregate_type : string; ls_aggregate_id : string; ls_after : option Z }.
Record StreamWire : Type := mkStreamWire {
  st_version : Z; st_aggregate_type : string; st_aggregate_id : string }.
Record SnapshotStoreWire : Type := mkSnapshotStoreWire {
  sn_version : Z; sn_aggregate_type : string; sn_aggregate_id : string; sn_sequence : Z;
  sn_payload : list Z }.
Record SchemaWire : Type := mkSchemaWire {
  sc_version : Z; sc_aggregate_type : string; sc_schema_version : Z; sc_compaction : Z }.
Record JobEnqueueWire : Type := mkJobEnqueueWire {
  je_version : Z; je_job_id : string; je_kind : string; je_payload : list Z; je_run_at_ms : Z }.
Record JobPollWire : Type := mkJobPollWire {
  jp_version : Z; jp_kind : string; jp_now_ms : Z; jp_limit : Z }.
Record JobClaimRequest : Type := mkJobClaimRequest {
  jr_version : Z; jr_job_id : string; jr_worker_name : string; jr_now_ms : Z; jr_lease_ms : Z;
  jr_max_claims : Z }.
Record JobRenewWire : Type := mkJobRenewWire {
  rn_version : Z; rn_token : list Z; rn_new_lease_until_ms : Z }.
Record OpenWire : Type := mkOpenWire {
  ow_version : Z; ow_path : string; ow_busy_timeout_ms : Z; ow_pool_size : Z; ow_runtime_threads : Z }.

(** *** The bounded sequence of a commit *)

(** One element of the sequence a [SeqAccess] offers: what [next_element] gives when
    it is asked for an event, and when it is asked to skip it. *)
Record SeqElement : Type := mkSeqElement {
  element_event : result CborError ProposedEventWire;
  element_ignored : result CborError ();
}.

(** [CommitEventsVisitor::visit_seq]: at most [room] events are kept, one more is
    only observed. *)
Fixpoint visit_events (room : nat) (values : list ProposedEventWire) (sequence : list SeqElement) :
    result CborError CommitEvents :=
  match room with
  | 0 =>
      match sequence with
      | [] => Ok (mkCommitEvents values (Z.of_nat (length values)))
      | element :: _ =>
          _ ← element_ignored element;
          observed ← ok_or (CborFailure "commit event count overflow")
                       (usize_checked_add (Z.of_nat (length values)) 1);
          mret (mkCommitEvents values observed)
      end
  | S room =>
      match sequence with
      | [] => Ok (mkCommitEvents values (Z.of_nat (length values)))
      | element :: sequence =>
          event ← element_event element;
          visit_events room (values ++ [event]) sequence
      end
  end.

Definition visit_seq : list SeqElement -> result CborError CommitEvents :=
  visit_events (Z.to_nat MAX_COMMIT_EVENTS) [].

(** Commits are decoded through the visitor above; the rest of the product is
    [ciborium]'s. *)
Class CommitCodec := {
  read_commit : (list SeqElement -> result CborError CommitEvents) -> nat -> list Z ->
    result CborError CommitWire;
  write_commit : CommitWire -> result CborError (list (list Z));
  read_commit_with_job : (list SeqElement -> result CborError CommitEvents) -> nat -> list Z ->
    result CborError CommitWithJobWire;
  write_commit_with_job : CommitWithJobWire -> result CborError (list (list Z));
}.

#[global] Instance commit_wire_codec `{CommitCodec} : CborCodec CommitWire := {|
  from_reader_with_recursion_limit := read_commit visit_seq;
  chunks_of := write_commit;
|}.
#[global] Instance commit_with_job_wire_codec `{CommitCodec} : CborCodec CommitWithJobWire := {|
  from_reader_with_recursion_limit := read_commit_with_job visit_seq;
  chunks_of := write_commit_with_job;
|}.

(** ** Validation *)

Definition require_version (version : Z) : result AbiError () :=
  if (version =? 1)%Z then Ok () else Err MalformedInput.

Definition require_limit (resource : string) (limit observed : Z) : result AbiError () :=
  if (observed <=? limit)%Z then Ok () else Err (ResourceLimit resource observed limit).

Definition require_payload_limit : Z -> result AbiError () :=
  require_limit "opaque_domain_payload" MAX_PAYLOAD_BYTES.
Definition require_error_text_limit : Z -> result AbiError () :=
  require_limit "error_detail_text" MAX_ERROR_TEXT_BYTES.
Definition require_commit_event_count : Z -> result AbiError () :=
  require_limit "commit_events" MAX_COMMIT_EVENTS.
Definition require_identifier_limit : Z -> result AbiError () :=
  require_limit "identifier_text" MAX_IDENTIFIER_BYTES.

Definition text_len (s : string) : Z := Z.of_nat (String.length s).
Definition bytes_len (b : list Z) : Z := Z.of_nat (length b).

Definition decode_claim_token (encoded : list Z) : result AbiError ClaimToken :=
  if (length encoded =? 16)%nat then Ok encoded else Err MalformedInput.

Definition settlement_tag (result : JobSettlementResult) : Z :=
  match result with SettlementApplied => 0 | SettlementFenced => 1 end.

Definition dead_reason (tag : Z) : result AbiError DeadReason :=
  if (tag =? 0)%Z then Ok RetriesExhausted
  else if (tag =? 1)%Z then Ok Rejected
  else if (tag =? 2)%Z then Ok Undecodable
  else if (tag =? 3)%Z then Ok Abandoned
  else Err MalformedInput.

Definition claimed_payload_bytes (payload : Json) : result JobRefusal (list Z) :=
  match payload with
  | JArray bytes =>
      bytes ← collect (fun byte =>
                match byte with
                | JInt z => if in_u64 z && in_u8 z then Ok z else Err PayloadByteOutOfRange
                | _ => Err PayloadByteOutOfRange
                end) bytes;
      if (MAX_PAYLOAD_BYTES <? bytes_len bytes)%Z then Err PayloadAboveAbiLimit else Ok bytes
  | _ => Err PayloadNotOpaqueBytes
  end.

Definition u64_try_from (z : Z) : result TryFromIntError Z :=
  if in_u64 z then Ok z else Err OutOfRange.

Definition event_to_wire (event : OpaqueStoredEvent) : result AbiError StoredEventWire :=
  let '(mkOpaqueStored sequence event_type event_version payload) := event in
  _ ← require_payload_limit (bytes_len payload);
  sequence ← map_err StorageInteger (u64_try_from sequence);
  mret (mkStoredEventWire sequence event_type event_version payload).

Definition snapshot_to_wire (snapshot : SerializedSnapshot) : result AbiError (Z * Z * list Z) :=
  payload ← map_err abi_of_engine_error (decode_opaque_payload (ss_aggregate snapshot));
  _ ← require_payload_limit (bytes_len payload);
  sequence ← map_err StorageInteger (u64_try_from (ss_current_sequence snapshot));
  version ← map_err StorageInteger (u64_try_from (ss_current_snapshot snapshot));
  mret (sequence, version, payload).

Section pages.
Context `{CborCodec StoredEventWire}.

Fixpoint write_events (events : list OpaqueStoredEvent) (writer : BoundedResponseWriter) :
    result AbiError BoundedResponseWriter :=
  match events with
  | [] => Ok writer
  | event :: events =>
      wire ← event_to_wire event;
      writer ← write_value wire writer;
      write_events events writer
  end.

Definition encode_event_page (events : list OpaqueStoredEvent) : result AbiError (list Z) :=
  writer ← write_bytes [0x82; 0x01]%Z new_writer;
  writer ← write_array_header writer (Z.of_nat (length events));
  writer_bytes <$> write_events events writer.
End pages.

Record CommitParts : Type := mkCommitParts {
  cp_aggregate_type : string;
  cp_aggregate_id : string;
  cp_expected_sequence : Z;
  cp_events : list OpaqueProposedEvent;
}.

Definition commit_parts (version : Z) (aggregate_type aggregate_id : string) (expected : Z)
    (events : CommitEvents) : result AbiError CommitParts :=
  _ ← require_version version;
  _ ← require_identifier_limit (text_len aggregate_type);
  _ ← require_identifier_limit (text_len aggregate_id);
  _ ← require_commit_event_count (ce_observed events);
  let events := ce_values events in
  if (length events =? 0)%nat then Err MalformedInput
  else
    expected_sequence ← map_err InputInteger (usize_try_from expected);
    _ ← ok_or MalformedInput (usize_checked_add expected_sequence (Z.of_nat (length events)));
    events ← collect (fun event =>
               _ ← require_payload_limit (bytes_len (pw_payload event));
               mret (mkProposed (pw_event_type event) (pw_event_version event) (pw_payload event))) events;
    mret (mkCommitParts aggregate_type aggregate_id expected_sequence events).

Definition decode_schema_target `{CborCodec SchemaWire} (buffer : option EsBuf) : result AbiError SchemaTarget :=
  wire ← decode_buffer buffer;
  let '(mkSchemaWire version aggregate_type schema_version compaction) := wire in
  _ ← require_version version;
  _ ← require_identifier_limit (text_len aggregate_type);
  compaction ← (if (compaction =? 0)%Z then Ok Retain
                else if (compaction =? 1)%Z then Ok CompactAfterSnapshot
                else Err MalformedInput);
  mret (mkSchemaTarget aggregate_type schema_version compaction).

(** ** Opening options *)

Inductive SqliteCacheMode : Type := CacheShared | CachePrivate.
#[global] Instance SqliteCacheMode_eq_dec : EqDecision SqliteCacheMode.
Proof. solve_decision. Defined.

(** [SqliteConnectOptions::from_str] and [form_urlencoded::parse]. *)
Class SqlxOptions := {
  ConnectOptions : Type;
  connect_options_from_str : string -> result SqlxError ConnectOptions;
  form_urlencoded_parse : string -> list (string * string);
}.

Fixpoint drop_string (n : nat) (s : string) : string :=
  match n, s with
  | 0, _ => s
  | S n, String _ s => drop_string n s
  | S _, EmptyString => EmptyString
  end.

(** [str::trim_start_matches] removes the prefix as often as it occurs; a string
    holds at most as many occurrences as characters. *)
Fixpoint trim_start_fuel (fuel : nat) (prefix s : string) : string :=
  match fuel with
  | 0 => s
  | S fuel =>
      if String.prefix prefix s then trim_start_fuel fuel prefix (drop_string (String.length prefix) s) else s
  end.
Definition trim_start_matches (prefix s : string) : string :=
  trim_start_fuel (String.length s) prefix s.

(** [s.splitn(2, '?')]: what precedes the first question mark, and the rest. *)
Fixpoint split_once (s : string) : string * string :=
  match s with
  | EmptyString => (EmptyString, EmptyString)
  | String c s =>
      if Ascii.eqb c "?"%char then (EmptyString, s)
      else let '(before, after) := split_once s in (String c before, after)
  end.

Section options.
Context `{SqlxOptions}.

Definition cache_parameter (acc : bool * SqliteCacheMode) (kv : string * string) : bool * SqliteCacheMode :=
  let '(in_memory, cache_mode) := acc in
  let '(key, value) := kv in
  if String.eqb key "mode" && String.eqb value "memory" then (true, CacheShared)
  else if String.eqb key "cache" && String.eqb value "private" then (in_memory, CachePrivate)
  else if String.eqb key "cache" && String.eqb value "shared" then (in_memory, CacheShared)
  else (in_memory, cache_mode).

Definition parse_sqlite_options (path : string) :
    result AbiError (ConnectOptions * option SqliteCacheMode) :=
  connect_options ← map_err SqliteOptionsError (connect_options_from_str path);
  let path := trim_start_matches "sqlite:" (trim_start_matches "sqlite://" path) in
  let '(database, parameters) := split_once path in
  let database_is_memory := String.eqb database ":memory:" in
  let initial_cache := if database_is_memory then CacheShared else CachePrivate in
  let '(in_memory, cache_mode) :=
    fold_left cache_parameter (form_urlencoded_parse parameters) (database_is_memory, initial_cache) in
  mret (connect_options, if in_memory then Some cache_mode else None).

Record OpenOptions : Type := mkOpenOptions {
  opt_connect_options : ConnectOptions;
  opt_busy_timeout_ms : Z;
  opt_pool_size : Z;
  opt_runtime_threads : Z;
}.

Definition decode_open_options `{CborCodec OpenWire} (buffer : option EsBuf) : result AbiError OpenOptions :=
  wire ← decode_buffer buffer;
  let '(mkOpenWire version path busy_timeout_ms pool_size runtime_threads) := wire in
  if negb (version =? 1)%Z || (pool_size =? 0)%Z || (runtime_threads =? 0)%Z then Err MalformedInput
  else
    _ ← require_identifier_limit (text_len path);
    if (MAX_BUSY_TIMEOUT_MS <? busy_timeout_ms)%Z then
      observed ← map_err InputInteger (usize_try_from busy_timeout_ms);
      limit ← map_err InputInteger (usize_try_from MAX_BUSY_TIMEOUT_MS);
      Err (ResourceLimit "busy_timeout_ms" observed limit)
    else
      '(connect_options, memory_cache) ← parse_sqlite_options path;
      if bool_decide (memory_cache = Some CachePrivate) then Err MalformedInput
      else
        runtime_threads ← map_err InputInteger (usize_try_from runtime_threads);
        runtime_thread_limit ← map_err InputInteger (usize_try_from MAX_RUNTIME_THREADS);
        if (runtime_thread_limit <? runtime_threads)%Z
        then Err (ResourceLimit "runtime_threads" runtime_threads runtime_thread_limit)
        else mret (mkOpenOptions connect_options busy_timeout_ms pool_size runtime_threads).
End options.

(** ** Properties of the codec *)

Section codec_props.
Context {T : Type} `{CborCodec T} (P : T -> Prop) `{!CborLaws T P}.

(** Whatever the decoder accepts, a request is accepted only in the one form the
    encoder gives it. *)
Lemma decode_validated_Ok validate buffer x :
  decode_validated validate buffer = Ok x <->
  exists bytes, buffer = Some (Data bytes) /\ (Z.of_nat (length bytes) <= MAX_REQUEST_BYTES)%Z /\
    from_reader_with_recursion_limit MAX_CBOR_DEPTH bytes = Ok x /\ validate x = Ok () /\
    into_writer x = Ok bytes.
Proof.
  unfold decode_validated. destruct buffer as [[len|bytes]|]; [naive_solver| |naive_solver].
  destruct (Z.ltb_spec MAX_REQUEST_BYTES (Z.of_nat (length bytes))) as [Hlt|Hle].
  { split; [done|]. intros (? & [= <-] & ? & _). lia. }
  split.
  - intros Hb. apply bind_Ok in Hb as (y & Hy & Hb). rewrite map_err_Ok in Hy.
    apply bind_Ok in Hb as ([] & Hv & Hb). apply bind_Ok in Hb as (canonical & Hc & Hb).
    rewrite map_err_Ok in Hc. case_bool_decide; [|done]. simplify_eq. eauto 10.
  - intros (? & [= <-] & _ & Hr & Hv & Hw). rewrite Hr. cbn. rewrite Hv. cbn. rewrite Hw. cbn.
    by rewrite bool_decide_eq_true_2.
Qed.

(** Two different buffers never decode to the same request. *)
Lemma decode_injective validate b1 b2 x :
  decode_validated validate b1 = Ok x -> decode_validated validate b2 = Ok x -> b1 = b2.
Proof.
  rewrite !decode_validated_Ok. intros (y1 & -> & _ & _ & _ & H1) (y2 & -> & _ & _ & _ & H2).
  rewrite H1 in H2. by injection H2 as ->.
Qed.

(** The writer never holds more than the limit, and is all or nothing. *)
Lemma write_chunks_spec chunks w :
  (Z.of_nat (length (writer_bytes w)) <= MAX_RESPONSE_BYTES)%Z -> overflow_observed w = None ->
  match write_chunks chunks w with
  | (Ok _, w') => writer_bytes w' = writer_bytes w ++ concat chunks /\ overflow_observed w' = None /\
      (Z.of_nat (length (writer_bytes w')) <= MAX_RESPONSE_BYTES)%Z
  | (Err _, w') => (MAX_RESPONSE_BYTES < Z.of_nat (length (writer_bytes w) + length (concat chunks)))%Z /\
      (is_Some (overflow_observed w') \/ (usize_max < Z.of_nat (length (writer_bytes w) + length (concat chunks)))%Z)
  end.
Proof.
  revert w. induction chunks as [|chunk chunks IH]; intros w Hw Ho; simpl; [by rewrite app_nil_r|].
  unfold writer_write. destruct (usize_checked_add _ _) as [observed|] eqn:Hadd.
  - apply usize_checked_add_Some in Hadd as [-> Hr].
    destruct (Z.ltb_spec MAX_RESPONSE_BYTES (Z.of_nat (length (writer_bytes w)) + Z.of_nat (length chunk))).
    + rewrite length_app. simpl. split; [lia|]. left. by eexists.
    + specialize (IH (mkWriter (writer_bytes w ++ chunk) (overflow_observed w))).
      simpl in IH. rewrite length_app in IH. specialize (IH ltac:(lia) Ho).
      destruct (write_chunks chunks _) as [[]  w']; rewrite ?length_app.
      * destruct IH as (-> & ? & ?). by rewrite (assoc_L (++)).
      * destruct IH as [? [?|?]]; (split; [lia|]); [by left|right; lia].
  - unfold usize_checked_add in Hadd. destruct (in_usize _) eqn:Hr; [done|]. rewrite length_app.
    unfold in_usize in Hr. unfold MAX_RESPONSE_BYTES, usize_max in *. split; [lia|right; lia].
Qed.
End codec_props.

(** ** The bounded commit *)

Lemma visit_events_spec room values sequence all :
  Forall2 (fun element e => element_event element = Ok e) sequence all ->
  Forall (fun element => element_ignored element = Ok ()) sequence ->
  (Z.of_nat (length values + room) < usize_max)%Z ->
  visit_events room values sequence =
    Ok (mkCommitEvents (values ++ take room all) (Z.of_nat (length values + min (length all) (S room)))).
Proof.
  intros Hall. revert room values. induction Hall as [|element e sequence all He _ IH]; intros room values Hig Hu.
  - destruct room; simpl; rewrite ?take_nil, app_nil_r, Nat.add_0_r; done.
  - apply Forall_cons in Hig as [Hi Hig]. destruct room as [|room]; simpl.
    + rewrite Hi. cbn [mbind result_bind]. unfold usize_checked_add.
      replace (in_usize _) with true by (symmetry; range). cbn [ok_or mbind result_bind mret result_ret].
      rewrite app_nil_r. do 2 f_equal. destruct (length all); lia.
    + rewrite He. cbn [mbind result_bind]. rewrite IH by (rewrite ?length_app; simpl; done || lia).
      rewrite <-(assoc_L (++)), length_app. simpl. do 2 f_equal. lia.
Qed.

Lemma visit_events_bounded room values sequence events :
  visit_events room values sequence = Ok events ->
  length (ce_values events) <= length values + room /\
  (ce_observed events = Z.of_nat (length (ce_values events)) \/
   length (ce_values events) = length values + room /\ ce_observed events = Z.of_nat (length values + room + 1)).
Proof.
  revert values sequence. induction room as [|room IH]; intros values sequence; simpl.
  - destruct sequence as [|element sequence]; [intros [= <-]; simpl; lia|].
    intros Hb. apply bind_Ok in Hb as ([] & _ & Hb). apply bind_Ok in Hb as (n & Hn & [= <-]).
    rewrite ok_or_Ok in Hn. apply usize_checked_add_Some in Hn as [-> _]. simpl. lia.
  - destruct sequence as [|element sequence]; [intros [= <-]; simpl; lia|].
    intros Hb. apply bind_Ok in Hb as (e & _ & Hb). apply IH in Hb. rewrite length_app in Hb. simpl in Hb. lia.
Qed.

(** A commit batch is bounded while it is read.  Whatever sequence a request
    carries, the visitor keeps at most 1,024 events and counts at most one more, so
    the count it reports decides the limit: a sequence of readable events is passed on
    whole and in order when it has at most 1,024 events, and is refused as a resource
    limit naming 1,025 observed events otherwise. *)
Theorem commit_batch_bounded sequence :
  (forall events, visit_seq sequence = Ok events ->
     (Z.of_nat (length (ce_values events)) <= MAX_COMMIT_EVENTS)%Z /\ (ce_observed events <= MAX_COMMIT_EVENTS + 1)%Z) /\
  (forall all, Forall2 (fun element e => element_event element = Ok e) sequence all ->
     Forall (fun element => element_ignored element = Ok ()) sequence ->
     exists events, visit_seq sequence = Ok events /\
       require_commit_event_count (ce_observed events) =
         (if decide (Z.of_nat (length all) <= MAX_COMMIT_EVENTS)%Z then Ok ()
          else Err (ResourceLimit "commit_events" (MAX_COMMIT_EVENTS + 1) MAX_COMMIT_EVENTS)) /\
       ((Z.of_nat (length all) <= MAX_COMMIT_EVENTS)%Z ->
          events = mkCommitEvents all (Z.of_nat (length all)))).
Proof.
  split.
  - intros events He%visit_events_bounded. simpl in He. unfold MAX_COMMIT_EVENTS in *. lia.
  - intros all Hall Hig. unfold visit_seq. rewrite (visit_events_spec _ _ _ all) by (done || (simpl; unfold MAX_COMMIT_EVENTS, usize_max; lia)).
    eexists. split; [done|]. cbn [ce_observed length]. rewrite Nat.add_0_l.
    unfold require_commit_event_count, require_limit. case_decide as Hl.
    + rewrite (proj2 (Z.leb_le _ _)) by (unfold MAX_COMMIT_EVENTS in *; lia). split; [done|]. intros _.
      f_equal; [apply take_ge|]; unfold MAX_COMMIT_EVENTS in *; lia.
    + rewrite (proj2 (Z.leb_gt _ _)) by (unfold MAX_COMMIT_EVENTS in *; lia). split; [|done].
      do 2 f_equal. unfold MAX_COMMIT_EVENTS in *. lia.
Qed.
