(* ===== verification/ClaimRegistry.v ===== *)
(** * The claim registry of a store

    Models the claim tokens of src/crates/event-sorcery-ffi/src/lib.rs
    ([StoreInner::prepare_claim] to [ClaimSettlement]): which tokens a store retains,
    which of them an operation has taken out of circulation, and the slots reserved
    for claims in flight.

    Each operation holds the registry's mutex once, so it is a function on the
    registry.  The calls of different threads interleave between these functions:
    [registry_step] is one such step, with the operations in flight as part of the
    state.  A guard that is dropped before its terminal step runs its destructor
    ([ClaimReservation], [ClaimRenewal], [ClaimSettlement]).

    A hash map is iterated in an arbitrary order ([HashOrder]).  Tokens come from the
    operating system's random generator: a step never issues one twice. *)

From S2P Require Import Prelude Json Sqlite EventTable Lifecycle Job Engine.
From S2P Require Import ViewRepository JobQueue Repository Dispatch Worker Abi.

(** ** State *)

Inductive ClaimState : Type := Available | Renewing | Settling.
#[global] Instance ClaimState_eq_dec : EqDecision ClaimState.
Proof. solve_decision. Defined.

Record RetainedClaim : Type := mkRetained {
  rc_handle : JobClaimHandle;
  rc_lease_until_ms : Z;
  rc_state : ClaimState;
}.

Definition is_expired (self : RetainedClaim) (now_ms : Z) : bool :=
  bool_decide (rc_state self = Available) && (rc_lease_until_ms self <? now_ms)%Z.

Record ClaimRegistry : Type := mkRegistry {
  retained : gmap ClaimToken RetainedClaim;
  reservations : Z;
}.

Definition empty_registry : ClaimRegistry := mkRegistry ∅ 0.

(** [HashMap::iter]. *)
Class HashOrder := {
  hash_iter : gmap ClaimToken RetainedClaim -> list (ClaimToken * RetainedClaim);
}.
Class HashOrderLaws `{HashOrder} := {
  hash_iter_perm : forall m, hash_iter m ≡ₚ map_to_list m;
}.

(** [Iterator::min_by_key]: the first of the least elements. *)
Fixpoint min_by_key {A} (key : A -> Z) (best : A) (l : list A) : A :=
  match l with
  | [] => best
  | x :: l => min_by_key key (if (key x <? key best)%Z then x else best) l
  end.

Section registry.
Context `{HashOrder}.

Definition evict_oldest_expired (now_ms : Z) (self : ClaimRegistry) :
    option ClaimToken * ClaimRegistry :=
  match filter (fun kv => is_expired kv.2 now_ms = true) (hash_iter (retained self)) with
  | [] => (None, self)
  | first :: others =>
      let token := (min_by_key (fun kv => rc_lease_until_ms kv.2) first others).1 in
      ((fun _ => token) <$> retained self !! token, mkRegistry (delete token (retained self)) (reservations self))
  end.

(** [saturating_sub]. *)
Definition release_reservation (self : ClaimRegistry) : ClaimRegistry :=
  mkRegistry (retained self) (Z.max 0 (reservations self - 1)).

Definition prepare_claim (now_ms : Z) (self : ClaimRegistry) : result AbiError () * ClaimRegistry :=
  match usize_checked_add (Z.of_nat (size (retained self))) (reservations self) ≫=
        fun used => usize_checked_add used 1 with
  | None => (Err (AbiState "active claim capacity overflowed"), self)
  | Some observed =>
      let reserve self :=
        match usize_checked_add (reservations self) 1 with
        | None => (Err (AbiState "active claim capacity overflowed"), self)
        | Some n => (Ok (), mkRegistry (retained self) n)
        end in
      if (MAX_ACTIVE_CLAIMS <? observed)%Z then
        match evict_oldest_expired now_ms self with
        | (None, self) => (Err (ResourceLimit "active_claims" observed MAX_ACTIVE_CLAIMS), self)
        | (Some _, self) => reserve self
        end
      else reserve self
  end.

(** [get_mut(&token).filter(|claim| claim.state == Available)], moved to [state]. *)
Definition begin_operation (state : ClaimState) (token : ClaimToken) (self : ClaimRegistry) :
    result AbiError JobClaimHandle * ClaimRegistry :=
  match retained self !! token with
  | Some (mkRetained handle lease Available) =>
      (Ok handle, mkRegistry (<[token := mkRetained handle lease state]> (retained self)) (reservations self))
  | _ => (Err (AbiState "claim handle is invalid"), self)
  end.

Definition begin_renewal : ClaimToken -> ClaimRegistry -> result AbiError JobClaimHandle * ClaimRegistry :=
  begin_operation Renewing.
Definition begin_settlement : ClaimToken -> ClaimRegistry -> result AbiError JobClaimHandle * ClaimRegistry :=
  begin_operation Settling.

Definition retire_expired_claims (job_id : JobId) (now_ms : Z) (self : ClaimRegistry) : ClaimRegistry :=
  mkRegistry
    (filter (fun kv => handle_job_id (rc_handle kv.2) <> job_id \/ is_expired kv.2 now_ms = false)
       (retained self))
    (reservations self).

Definition retire_claim (token : ClaimToken) (self : ClaimRegistry) : ClaimRegistry :=
  mkRegistry (delete token (retained self)) (reservations self).

(** [ClaimReservation::issue]. *)
Definition issue (token : ClaimToken) (handle : JobClaimHandle) (lease_until_ms : Z) (self : ClaimRegistry) :
    ClaimRegistry :=
  let kept := filter (fun kv => rc_state kv.2 <> Available \/
                                handle_job_id (rc_handle kv.2) <> handle_job_id handle) (retained self) in
  release_reservation
    (mkRegistry (<[token := mkRetained handle lease_until_ms Available]> kept) (reservations self)).

(** [Drop for ClaimReservation], pending. *)
Definition drop_reservation : ClaimRegistry -> ClaimRegistry := release_reservation.

(** [ClaimRenewal::complete]. *)
Definition complete_renewal (token : ClaimToken) (lease_until_ms : Z) (self : ClaimRegistry) :
    result AbiError () * ClaimRegistry :=
  match retained self !! token with
  | Some (mkRetained handle _ Renewing) =>
      (Ok (), mkRegistry (<[token := mkRetained handle lease_until_ms Available]> (retained self))
                (reservations self))
  | _ => (Err (AbiState "renewing claim is no longer retained"), self)
  end.

Definition retire_renewal : ClaimToken -> ClaimRegistry -> ClaimRegistry := retire_claim.

(** [Drop for ClaimRenewal] and [Drop for ClaimSettlement], pending: the token
    returns to circulation if it is still in the operation's state. *)
Definition drop_operation (state : ClaimState) (token : ClaimToken) (self : ClaimRegistry) : ClaimRegistry :=
  match retained self !! token with
  | Some (mkRetained handle lease state') =>
      if bool_decide (state' = state)
      then mkRegistry (<[token := mkRetained handle lease Available]> (retained self)) (reservations self)
      else self
  | None => self
  end.

Definition drop_renewal : ClaimToken -> ClaimRegistry -> ClaimRegistry := drop_operation Renewing.
Definition complete_settlement : ClaimToken -> ClaimRegistry -> ClaimRegistry := retire_claim.
Definition drop_settlement : ClaimToken -> ClaimRegistry -> ClaimRegistry := drop_operation Settling.
End registry.

(** ** Interleavings *)

(** An operation in flight: a claim that holds a reservation, or a renewal or
    settlement that holds a token and the handle it read. *)
Inductive Operation : Type :=
| InReservation
| InRenewal (token : ClaimToken) (handle : JobClaimHandle)
| InSettlement (token : ClaimToken) (handle : JobClaimHandle).

#[global] Instance JobClaimHandle_eq_dec : EqDecision JobClaimHandle.
Proof. solve_decision. Defined.
#[global] Instance Operation_eq_dec : EqDecision Operation.
Proof. solve_decision. Defined.

(** [calls] are the operations in flight by thread; [issued] and [settled] are the
    history: the claim each token was issued for, and the tokens whose settlement
    landed. *)
Record Claims : Type := mkClaims {
  claims_registry : ClaimRegistry;
  calls : gmap nat Operation;
  issued : gmap ClaimToken JobClaimHandle;
  settled : list ClaimToken;
}.

Definition no_claims : Claims := mkClaims empty_registry ∅ ∅ [].

Inductive registry_step `{HashOrder} : Claims -> Claims -> Prop :=
| StepPrepare now_ms tid r r' calls issued settled :
    calls !! tid = None -> prepare_claim now_ms r = (Ok (), r') ->
    registry_step (mkClaims r calls issued settled)
      (mkClaims r' (<[tid := InReservation]> calls) issued settled)
| StepPrepareRefused now_ms r r' e calls issued settled :
    prepare_claim now_ms r = (Err e, r') ->
    registry_step (mkClaims r calls issued settled) (mkClaims r' calls issued settled)
| StepIssue tid token handle lease_until_ms r calls issued settled :
    calls !! tid = Some InReservation -> issued !! token = None ->
    registry_step (mkClaims r calls issued settled)
      (mkClaims (issue token handle lease_until_ms r) (delete tid calls) (<[token := handle]> issued) settled)
| StepDropReservation tid r calls issued settled :
    calls !! tid = Some InReservation ->
    registry_step (mkClaims r calls issued settled) (mkClaims (drop_reservation r) (delete tid calls) issued settled)
| StepRetireExpired job_id now_ms r calls issued settled :
    registry_step (mkClaims r calls issued settled)
      (mkClaims (retire_expired_claims job_id now_ms r) calls issued settled)
| StepBeginRenewal tid token handle r r' calls issued settled :
    calls !! tid = None -> begin_renewal token r = (Ok handle, r') ->
    registry_step (mkClaims r calls issued settled)
      (mkClaims r' (<[tid := InRenewal token handle]> calls) issued settled)
| StepCompleteRenewal tid token handle lease_until_ms res r r' calls issued settled :
    calls !! tid = Some (InRenewal token handle) -> complete_renewal token lease_until_ms r = (res, r') ->
    registry_step (mkClaims r calls issued settled) (mkClaims r' (delete tid calls) issued settled)
| StepRetireRenewal tid token handle r calls issued settled :
    calls !! tid = Some (InRenewal token handle) ->
    registry_step (mkClaims r calls issued settled)
      (mkClaims (retire_renewal token r) (delete tid calls) issued settled)
| StepDropRenewal tid token handle r calls issued settled :
    calls !! tid = Some (InRenewal token handle) ->
    registry_step (mkClaims r calls issued settled)
      (mkClaims (drop_renewal token r) (delete tid calls) issued settled)
| StepBeginSettlement tid token handle r r' calls issued settled :
    calls !! tid = None -> begin_settlement token r = (Ok handle, r') ->
    registry_step (mkClaims r calls issued settled)
      (mkClaims r' (<[tid := InSettlement token handle]> calls) issued settled)
| StepCompleteSettlement tid token handle r calls issued settled :
    calls !! tid = Some (InSettlement token handle) ->
    registry_step (mkClaims r calls issued settled)
      (mkClaims (complete_settlement token r) (delete tid calls) issued (token :: settled))
| StepDropSettlement tid token handle r calls issued settled :
    calls !! tid = Some (InSettlement token handle) ->
    registry_step (mkClaims r calls issued settled)
      (mkClaims (drop_settlement token r) (delete tid calls) issued settled).

(** ** The invariant *)

(** The token an operation holds, for which claim and in which state. *)
Definition holds (op : Operation) : option (ClaimToken * JobClaimHandle * ClaimState) :=
  match op with
  | InReservation => None
  | InRenewal token handle => Some (token, handle, Renewing)
  | InSettlement token handle => Some (token, handle, Settling)
  end.

(** How many calls in flight hold a reservation. *)
Definition reserved (calls : gmap nat Operation) : nat :=
  size (filter (fun kv => kv.2 = InReservation) calls).

Record claims_inv (c : Claims) : Prop := {
  inv_reservations : reservations (claims_registry c) = Z.of_nat (reserved (calls c));
  inv_capacity : (Z.of_nat (size (retained (claims_registry c))) + reservations (claims_registry c)
                    <= MAX_ACTIVE_CLAIMS)%Z;
  inv_held : forall tid op token handle state,
    calls c !! tid = Some op -> holds op = Some (token, handle, state) ->
    exists lease, retained (claims_registry c) !! token = Some (mkRetained handle lease state);
  inv_busy : forall token rc,
    retained (claims_registry c) !! token = Some rc -> rc_state rc <> Available ->
    exists tid op, calls c !! tid = Some op /\ holds op = Some (token, rc_handle rc, rc_state rc);
  inv_exclusive : forall tid1 tid2 op1 op2 token h1 h2 s1 s2,
    calls c !! tid1 = Some op1 -> calls c !! tid2 = Some op2 ->
    holds op1 = Some (token, h1, s1) -> holds op2 = Some (token, h2, s2) -> tid1 = tid2;
  inv_issued : forall token rc,
    retained (claims_registry c) !! token = Some rc -> issued c !! token = Some (rc_handle rc);
  inv_settled : NoDup (settled c) /\ forall token, token ∈ settled c ->
    is_Some (issued c !! token) /\ retained (claims_registry c) !! token = None;
}.

Lemma reserved_insert calls tid op :
  calls !! tid = None ->
  reserved (<[tid := op]> calls) = (if decide (op = InReservation) then S (reserved calls) else reserved calls).
Proof.
  intros Hn. unfold reserved. case_decide as Hop.
  - rewrite map_filter_insert_True by done. rewrite map_size_insert_None; [done|].
    apply map_lookup_filter_None. by left.
  - rewrite map_filter_insert_False by done. rewrite delete_id by done. done.
Qed.

Lemma reserved_delete calls tid op :
  calls !! tid = Some op ->
  reserved calls = (if decide (op = InReservation) then S (reserved (delete tid calls))
                    else reserved (delete tid calls)).
Proof.
  intros Hs. rewrite <-(reserved_insert (delete tid calls) tid op) by apply lookup_delete_eq.
  by rewrite insert_delete_id.
Qed.

(** Dropping tokens that are in circulation. *)
Definition retires (m m' : gmap ClaimToken RetainedClaim) : Prop :=
  forall token, m' !! token = m !! token \/
    m' !! token = None /\ exists rc, m !! token = Some rc /\ rc_state rc = Available.

Lemma retires_subseteq m m' : retires m m' -> m' ⊆ m.
Proof. intros Hr. apply map_subseteq_spec. intros token rc Hrc. destruct (Hr token) as [<-|[? _]]; congruence. Qed.

Lemma retires_delete m token rc :
  m !! token = Some rc -> rc_state rc = Available -> retires m (delete token m).
Proof.
  intros Hm Ha t. destruct (decide (token = t)) as [<-|]; [right|left; by rewrite lookup_delete_ne].
  rewrite lookup_delete_eq. eauto.
Qed.

Lemma retires_filter (P : ClaimToken * RetainedClaim -> Prop) `{forall x, Decision (P x)} m :
  (forall token rc, m !! token = Some rc -> ~ P (token, rc) -> rc_state rc = Available) -> retires m (filter P m).
Proof.
  intros HP token. rewrite map_lookup_filter. destruct (m !! token) as [rc|] eqn:Hm; [|by left]. simpl.
  destruct (decide (P (token, rc))) as [Hp|Hp].
  - left. by rewrite option_guard_True.
  - right. rewrite option_guard_False by done. eauto.
Qed.

(** Retiring tokens in circulation keeps the invariant, with room to spare. *)
Lemma inv_retires c m' :
  claims_inv c -> retires (retained (claims_registry c)) m' ->
  claims_inv (mkClaims (mkRegistry m' (reservations (claims_registry c))) (calls c) (issued c) (settled c)).
Proof.
  intros [Hres Hcap Hheld Hbusy Hexcl Hiss [Hnd Hset]] Hr. pose proof (retires_subseteq _ _ Hr) as Hsub.
  split; simpl in *; try done.
  - pose proof (map_subseteq_size _ _ Hsub). lia.
  - intros tid op token handle state Hc Hh. destruct (Hheld _ _ _ _ _ Hc Hh) as [lease Hl].
    exists lease. destruct (Hr token) as [->|(_ & rc & Hrc & Ha)]; [done|]. rewrite Hl in Hrc. injection Hrc as <-.
    simpl in Ha. subst. by destruct op.
  - intros token rc Hrc. apply (Hbusy token rc). by eapply lookup_weaken.
  - intros token rc Hrc. apply Hiss. by eapply lookup_weaken.
  - split; [done|]. intros token Ht. destruct (Hset token Ht) as [? Hn]. split; [done|].
    eapply lookup_weaken_None; [exact Hn|done].
Qed.

(** Taking a token out of circulation. *)
Lemma inv_begin c tid op token handle lease state :
  claims_inv c -> calls c !! tid = None -> holds op = Some (token, handle, state) ->
  retained (claims_registry c) !! token = Some (mkRetained handle lease Available) ->
  claims_inv (mkClaims (mkRegistry (<[token := mkRetained handle lease state]> (retained (claims_registry c)))
                          (reservations (claims_registry c)))
                (<[tid := op]> (calls c)) (issued c) (settled c)).
Proof.
  intros [Hres Hcap Hheld Hbusy Hexcl Hiss [Hnd Hset]] Htid Hop Htok.
  assert (forall tid' op' h s, calls c !! tid' = Some op' -> holds op' = Some (token, h, s) -> False) as Hfree.
  { intros tid' op' h s Hc Hh. destruct (Hheld _ _ _ _ _ Hc Hh) as [l Hl]. rewrite Htok in Hl.
    injection Hl as <- <- <-. by destruct op'. }
  assert (op <> InReservation) as Hnr by (by intros ->).
  split; simpl in *; try done.
  - rewrite reserved_insert by done. by rewrite decide_False.
  - by rewrite map_size_insert_Some.
  - intros tid' op' token' handle' state' Hc Hh. apply lookup_insert_Some in Hc as [[<- <-]|[Hne Hc]].
    + rewrite Hop in Hh. injection Hh as <- <- <-. exists lease. apply lookup_insert_eq.
    + destruct (decide (token = token')) as [<-|]; [by edestruct Hfree|]. rewrite lookup_insert_ne by done. eauto.
  - intros token' rc Hrc Hs. apply lookup_insert_Some in Hrc as [[<- <-]|[Hne Hrc]].
    + exists tid, op. by rewrite lookup_insert_eq.
    + destruct (Hbusy _ _ Hrc Hs) as (tid' & op' & Hc & Hh). exists tid', op'. split; [|done].
      rewrite lookup_insert_ne; [done|]. intros ->. congruence.
  - intros tid1 tid2 op1 op2 token' h1 h2 s1 s2 H1 H2 Hh1 Hh2.
    apply lookup_insert_Some in H1 as [[<- <-]|[Hne1 H1]]; apply lookup_insert_Some in H2 as [[<- <-]|[Hne2 H2]]; try done.
    + rewrite Hop in Hh1. injection Hh1 as <- <- <-. by edestruct Hfree.
    + rewrite Hop in Hh2. injection Hh2 as <- <- <-. by edestruct Hfree.
    + by eapply Hexcl.
  - intros token' rc Hrc. apply lookup_insert_Some in Hrc as [[<- <-]|[Hne Hrc]]; [|by apply Hiss].
    apply (Hiss _ _ Htok).
  - split; [done|]. intros token' Ht. destruct (Hset token' Ht) as [? Hn]. split; [done|].
    rewrite lookup_insert_ne; [done|]. intros ->. congruence.
Qed.

(** Ending an operation: the token returns to circulation, or is retired. *)
Lemma inv_end c tid op token handle state (rc' : option RetainedClaim) settled' :
  claims_inv c -> calls c !! tid = Some op -> holds op = Some (token, handle, state) ->
  match rc' with
  | Some rc => rc_handle rc = handle /\ rc_state rc = Available /\ settled' = settled c
  | None => settled' = settled c \/ settled' = token :: settled c
  end ->
  claims_inv (mkClaims (mkRegistry (partial_alter (fun _ => rc') token (retained (claims_registry c)))
                          (reservations (claims_registry c)))
                (delete tid (calls c)) (issued c) settled').
Proof.
  intros [Hres Hcap Hheld Hbusy Hexcl Hiss [Hnd Hset]] Htid Hop Hrc'.
  destruct (Hheld _ _ _ _ _ Htid Hop) as [lease Htok].
  assert (op <> InReservation) as Hnr by (by intros ->).
  assert (forall t, token <> t -> partial_alter (fun _ => rc') token (retained (claims_registry c)) !! t =
            retained (claims_registry c) !! t) as Hother by (intros; by rewrite lookup_partial_alter_ne).
  assert (partial_alter (fun _ => rc') token (retained (claims_registry c)) !! token = rc') as Hself
    by (by rewrite lookup_partial_alter_eq).
  split; simpl in *.
  - rewrite (reserved_delete _ _ _ Htid) in Hres. by rewrite decide_False in Hres.
  - assert (size (partial_alter (fun _ => rc') token (retained (claims_registry c))) <=
              size (retained (claims_registry c))); [|lia].
    destruct rc' as [rc|].
    + change (partial_alter (fun _ => Some rc) token (retained (claims_registry c)))
        with (<[token := rc]> (retained (claims_registry c))). by rewrite map_size_insert_Some.
    + change (partial_alter (fun _ => None) token (retained (claims_registry c)))
        with (delete token (retained (claims_registry c))). apply map_subseteq_size, delete_subseteq.
  - intros tid' op' token' handle' state' Hc Hh. apply lookup_delete_Some in Hc as [Hne Hc].
    rewrite Hother; [eauto|]. intros <-. apply Hne. by eapply Hexcl.
  - intros token' rc Hrc Hs. destruct (decide (token = token')) as [<-|Hne].
    + rewrite Hself in Hrc. subst rc'. by destruct Hrc' as (_ & ? & _).
    + rewrite Hother in Hrc by done. destruct (Hbusy _ _ Hrc Hs) as (tid' & op' & Hc & Hh). exists tid', op'.
      split; [|done]. apply lookup_delete_Some. split; [|done]. intros <-. rewrite Htid in Hc. injection Hc as <-.
      rewrite Hop in Hh. injection Hh as Heq _ _. by apply Hne.
  - intros tid1 tid2 op1 op2 token' h1 h2 s1 s2 H1 H2. apply lookup_delete_Some in H1 as [_ H1], H2 as [_ H2].
    by eapply Hexcl.
  - intros token' rc Hrc. destruct (decide (token = token')) as [<-|Hne].
    + rewrite Hself in Hrc. subst rc'. destruct Hrc' as (Hh & _). rewrite Hh. apply (Hiss _ _ Htok).
    + rewrite Hother in Hrc by done. by apply Hiss.
  - assert (token ∉ settled c) as Hfresh by (intros Hin; destruct (Hset _ Hin); congruence).
    assert (settled' = settled c \/ rc' = None /\ settled' = token :: settled c) as [->|[-> ->]]
      by (destruct rc'; naive_solver).
    + split; [done|]. intros token' Ht. destruct (Hset _ Ht). split; [done|]. rewrite Hother; [done|]. by intros <-.
    + split; [by constructor|]. intros token' [->|Ht]%elem_of_cons.
      * split; [|done]. eexists. exact (Hiss _ _ Htok).
      * destruct (Hset _ Ht). split; [done|]. rewrite Hother; [done|]. by intros <-.
Qed.

(** ** Eviction and capacity *)

Lemma min_by_key_elem {A} (key : A -> Z) best l : min_by_key key best l ∈ best :: l.
Proof.
  revert best. induction l as [|x l IH]; intros best; simpl; [by left|].
  specialize (IH (if (key x <? key best)%Z then x else best)). destruct (key x <? key best)%Z; set_solver.
Qed.

Lemma min_by_key_least {A} (key : A -> Z) best l x :
  x ∈ best :: l -> (key (min_by_key key best l) <= key x)%Z.
Proof.
  revert best x. induction l as [|y l IH]; intros best x Hx; simpl.
  - apply list_elem_of_singleton in Hx as ->. lia.
  - set (b := if (key y <? key best)%Z then y else best).
    assert (key b <= key best /\ key b <= key y)%Z as [Hb Hy].
    { unfold b. destruct (Z.ltb_spec (key y) (key best)); lia. }
    pose proof (IH b b ltac:(left)) as Hmin. apply elem_of_cons in Hx as [->|[->|Hx]%elem_of_cons]; [lia|lia|].
    apply IH. by right.
Qed.

Section capacity.
Context `{HashOrderLaws}.

(** Eviction takes an expired token in circulation with the earliest lease, if there
    is one. *)
Lemma evict_spec now_ms r :
  match evict_oldest_expired now_ms r with
  | (Some token, r') => exists rc, retained r !! token = Some rc /\ is_expired rc now_ms = true /\
      r' = mkRegistry (delete token (retained r)) (reservations r) /\
      forall token' rc', retained r !! token' = Some rc' -> is_expired rc' now_ms = true ->
        (rc_lease_until_ms rc <= rc_lease_until_ms rc')%Z
  | (None, r') => r' = r /\ forall token rc, retained r !! token = Some rc -> is_expired rc now_ms = false
  end.
Proof.
  unfold evict_oldest_expired.
  assert (forall token rc, retained r !! token = Some rc -> is_expired rc now_ms = true ->
    (token, rc) ∈ filter (fun kv => is_expired kv.2 now_ms = true) (hash_iter (retained r))) as Hin.
  { intros token rc Hrc He. apply list_elem_of_filter. split; [done|]. rewrite hash_iter_perm.
    by apply elem_of_map_to_list. }
  destruct (filter _ _) as [|first others] eqn:Hf.
  - split; [done|]. intros token rc Hrc. apply not_true_is_false. intros He.
    specialize (Hin _ _ Hrc He). by apply not_elem_of_nil in Hin.
  - pose proof (min_by_key_elem (fun kv => rc_lease_until_ms kv.2) first others) as Hmin.
    pose proof (fun x => min_by_key_least (fun kv => rc_lease_until_ms kv.2) first others x) as Hleast.
    destruct (min_by_key _ first others) as [token rc]. rewrite <-Hf in Hmin.
    apply list_elem_of_filter in Hmin as [He Hmin]. rewrite hash_iter_perm in Hmin.
    apply elem_of_map_to_list in Hmin. simpl in *. rewrite Hmin. simpl. exists rc. split_and!; [done..|].
    intros token' rc' Hrc' He'. apply (Hleast (token', rc')). by apply Hin.
Qed.

Lemma is_expired_available rc now_ms : is_expired rc now_ms = true -> rc_state rc = Available.
Proof. unfold is_expired. rewrite andb_true_iff, bool_decide_eq_true. tauto. Qed.

(** A reservation is granted while there is room, or by evicting one expired token;
    it is refused only when every slot is taken by a live or busy claim. *)
Lemma prepare_spec now_ms r :
  (0 <= reservations r)%Z -> (Z.of_nat (size (retained r)) + reservations r <= MAX_ACTIVE_CLAIMS)%Z ->
  match prepare_claim now_ms r with
  | (Ok _, r') => reservations r' = (reservations r + 1)%Z /\ retires (retained r) (retained r') /\
      (Z.of_nat (size (retained r')) + reservations r' <= MAX_ACTIVE_CLAIMS)%Z
  | (Err e, r') => r' = r /\
      e = ResourceLimit "active_claims" (MAX_ACTIVE_CLAIMS + 1) MAX_ACTIVE_CLAIMS /\
      (Z.of_nat (size (retained r)) + reservations r = MAX_ACTIVE_CLAIMS)%Z /\
      forall token rc, retained r !! token = Some rc -> is_expired rc now_ms = false
  end.
Proof.
  intros H0' Hcap. unfold prepare_claim, MAX_ACTIVE_CLAIMS, MAX_LIST_ITEMS in *.
  assert (forall a b, (0 <= a)%Z -> (0 <= b)%Z -> (a + b <= 5000)%Z -> usize_checked_add a b = Some (a + b)%Z) as Hadd.
  { intros a b ? ? ?. apply usize_checked_add_Some. split; [done|range]. }
  rewrite Hadd by lia. simpl. rewrite Hadd by lia.
  destruct (Z.ltb_spec 4096 (Z.of_nat (size (retained r)) + reservations r + 1)) as [Hlt|Hge].
  - pose proof (evict_spec now_ms r) as He. destruct (evict_oldest_expired now_ms r) as [[token|] r'].
    + destruct He as (rc & Hrc & Hexp & -> & _). simpl. rewrite Hadd by lia. simpl. split_and!; [done| |].
      * eapply retires_delete; [done|]. by eapply is_expired_available.
      * pose proof (map_size_delete_Some token (retained r) (mk_is_Some _ _ Hrc)). assert (size (retained r) <> 0); [|lia].
        intros Hz. apply map_size_empty_inv in Hz. rewrite Hz in Hrc. by rewrite lookup_empty in Hrc.
    + destruct He as [-> He]. split_and!; [done| |lia|done]. f_equal. lia.
  - rewrite Hadd by lia. simpl. split_and!; [done|by left|lia].
Qed.
End capacity.

(** ** Every history *)

Section history.
Context `{HashOrderLaws}.

Lemma claims_inv_initial : claims_inv no_claims.
Proof.
  split; simpl; try done; try lia.
  split; [constructor|]. intros token Ht. by apply not_elem_of_nil in Ht.
Qed.

Lemma inv_reserve c tid now_ms r' :
  claims_inv c -> calls c !! tid = None -> prepare_claim now_ms (claims_registry c) = (Ok (), r') ->
  claims_inv (mkClaims r' (<[tid := InReservation]> (calls c)) (issued c) (settled c)).
Proof.
  intros Hinv Htid Hp. pose proof Hinv as [Hres Hcap _ _ _ _ _].
  pose proof (prepare_spec now_ms (claims_registry c) ltac:(rewrite Hres; lia) Hcap) as Hs. rewrite Hp in Hs.
  destruct Hs as (Hn & Hret & Hcap'). apply (inv_retires _ (retained r')) in Hinv; [|done].
  destruct Hinv as [Hres' _ Hheld Hbusy Hexcl Hiss Hset]. simpl in *.
  split; simpl; [|done|..|done|done].
  - rewrite reserved_insert by done. rewrite decide_True by done. lia.
  - intros tid' op token handle state Hc Hh. apply lookup_insert_Some in Hc as [[<- <-]|[_ Hc]]; [done|eauto].
  - intros token rc Hrc Hs. destruct (Hbusy _ _ Hrc Hs) as (tid' & op & Hc & Hh). exists tid', op.
    split; [|done]. rewrite lookup_insert_ne; [done|]. intros ->. congruence.
  - intros tid1 tid2 op1 op2 token h1 h2 s1 s2 H1 H2 Hh1 Hh2.
    apply lookup_insert_Some in H1 as [[<- <-]|[_ H1]]; [done|].
    apply lookup_insert_Some in H2 as [[<- <-]|[_ H2]]; [done|]. by eapply Hexcl.
Qed.

(** Giving a reservation up; [issue] then uses the slot. *)
Lemma inv_unreserve c tid :
  claims_inv c -> calls c !! tid = Some InReservation ->
  claims_inv (mkClaims (release_reservation (claims_registry c)) (delete tid (calls c)) (issued c) (settled c)) /\
  (Z.of_nat (size (retained (claims_registry c))) + reservations (release_reservation (claims_registry c))
     < MAX_ACTIVE_CLAIMS)%Z.
Proof.
  intros [Hres Hcap Hheld Hbusy Hexcl Hiss Hset] Htid. rewrite (reserved_delete _ _ _ Htid) in Hres.
  rewrite decide_True in Hres by done. split; [split|]; simpl in *; [lia|lia|..|done|done|lia].
  - intros tid' op token handle state Hc. apply lookup_delete_Some in Hc as [_ Hc]. by eapply Hheld.
  - intros token rc Hrc Hs. destruct (Hbusy _ _ Hrc Hs) as (tid' & op & Hc & Hh). exists tid', op. split; [|done].
    apply lookup_delete_Some. split; [|done]. intros <-. rewrite Htid in Hc. by injection Hc as <-.
  - intros tid1 tid2 op1 op2 token h1 h2 s1 s2 H1 H2. apply lookup_delete_Some in H1 as [_ H1], H2 as [_ H2].
    by eapply Hexcl.
Qed.

(** Retaining a fresh token. *)
Lemma inv_insert c token handle lease :
  claims_inv c -> issued c !! token = None ->
  (Z.of_nat (size (retained (claims_registry c))) + reservations (claims_registry c) < MAX_ACTIVE_CLAIMS)%Z ->
  claims_inv (mkClaims (mkRegistry (<[token := mkRetained handle lease Available]> (retained (claims_registry c)))
                          (reservations (claims_registry c)))
                (calls c) (<[token := handle]> (issued c)) (settled c)).
Proof.
  intros [Hres Hcap Hheld Hbusy Hexcl Hiss [Hnd Hset]] Hfresh Hroom.
  assert (retained (claims_registry c) !! token = None) as Hn.
  { destruct (retained (claims_registry c) !! token) as [rc|] eqn:Hrc; [|done]. apply Hiss in Hrc. congruence. }
  split; simpl in *; try done.
  - rewrite map_size_insert_None by done. lia.
  - intros tid op token' handle' state Hc Hh. destruct (Hheld _ _ _ _ _ Hc Hh) as [l Hl]. exists l.
    rewrite lookup_insert_ne; [done|]. intros <-. congruence.
  - intros token' rc Hrc Hs. apply lookup_insert_Some in Hrc as [[<- <-]|[_ Hrc]]; [done|eauto].
  - intros token' rc Hrc. apply lookup_insert_Some in Hrc as [[<- <-]|[Hne Hrc]]; [by rewrite lookup_insert_eq|].
    rewrite lookup_insert_ne by done. by apply Hiss.
  - split; [done|]. intros token' Ht. destruct (Hset _ Ht) as [[h Hh] ?].
    assert (token <> token') by (intros <-; congruence). by rewrite !lookup_insert_ne.
Qed.

Lemma begin_operation_Ok state token r handle r' :
  begin_operation state token r = (Ok handle, r') ->
  exists lease, retained r !! token = Some (mkRetained handle lease Available) /\
    r' = mkRegistry (<[token := mkRetained handle lease state]> (retained r)) (reservations r).
Proof.
  unfold begin_operation. destruct (retained r !! token) as [[h lease []]|]; intros Hb; simplify_eq. by exists lease.
Qed.

(** Everything but the operations' shape is in the lemmas above. *)
Lemma claims_step_inv c c' : claims_inv c -> registry_step c c' -> claims_inv c'.
Proof.
  intros Hinv Hstep.
  destruct Hstep as [now_ms tid r r' cs iss ss Htid Hp|now_ms r r' e cs iss ss Hp
    |tid token handle lease r cs iss ss Htid Hfresh|tid r cs iss ss Htid|job_id now_ms r cs iss ss
    |tid token handle r r' cs iss ss Htid Hb|tid token handle lease res r r' cs iss ss Htid Hc
    |tid token handle r cs iss ss Htid|tid token handle r cs iss ss Htid
    |tid token handle r r' cs iss ss Htid Hb|tid token handle r cs iss ss Htid|tid token handle r cs iss ss Htid].
  - by eapply (inv_reserve (mkClaims r cs iss ss)).
  - pose proof Hinv as [Hres Hcap _ _ _ _ _]. simpl in *.
    pose proof (prepare_spec now_ms r ltac:(rewrite Hres; lia) Hcap) as Hs. rewrite Hp in Hs.
    by destruct Hs as [-> _].
  - destruct (inv_unreserve _ _ Hinv Htid) as [Hi Hroom]. simpl in *.
    assert (retires (retained r) (filter (fun kv => rc_state kv.2 <> Available \/
      handle_job_id (rc_handle kv.2) <> handle_job_id handle) (retained r))) as Hr.
    { apply retires_filter. intros t rc _ Hn. simpl in Hn. destruct (decide (rc_state rc = Available)); tauto. }
    pose proof (map_subseteq_size _ _ (retires_subseteq _ _ Hr)).
    pose proof (inv_retires _ _ Hi Hr) as Hi'.
    apply (inv_insert _ token handle lease Hi' Hfresh). simpl. lia.
  - apply (inv_unreserve _ _ Hinv Htid).
  - apply (inv_retires (mkClaims r cs iss ss)); [done|]. apply retires_filter. simpl. intros t rc _ Hn.
    apply (is_expired_available rc now_ms). destruct (is_expired rc now_ms); tauto.
  - apply begin_operation_Ok in Hb as (lease & Hl & ->).
    by apply (inv_begin (mkClaims r cs iss ss) tid (InRenewal token handle) token handle lease Renewing).
  - destruct (inv_held _ Hinv tid _ token handle Renewing Htid eq_refl) as [l Hl]. simpl in Hl.
    unfold complete_renewal in Hc. rewrite Hl in Hc. injection Hc as _ <-.
    by apply (inv_end (mkClaims r cs iss ss) tid (InRenewal token handle) token handle Renewing (Some (mkRetained handle lease Available)) ss).
  - apply (inv_end (mkClaims r cs iss ss) tid (InRenewal token handle) token handle Renewing None ss); by auto.
  - destruct (inv_held _ Hinv tid _ token handle Renewing Htid eq_refl) as [l Hl]. simpl in Hl.
    unfold drop_renewal, drop_operation. rewrite Hl. rewrite bool_decide_eq_true_2 by done.
    by apply (inv_end (mkClaims r cs iss ss) tid (InRenewal token handle) token handle Renewing (Some (mkRetained handle l Available)) ss).
  - apply begin_operation_Ok in Hb as (lease & Hl & ->).
    by apply (inv_begin (mkClaims r cs iss ss) tid (InSettlement token handle) token handle lease Settling).
  - apply (inv_end (mkClaims r cs iss ss) tid (InSettlement token handle) token handle Settling None (token :: ss)); by auto.
  - destruct (inv_held _ Hinv tid _ token handle Settling Htid eq_refl) as [l Hl]. simpl in Hl.
    unfold drop_settlement, drop_operation. rewrite Hl. rewrite bool_decide_eq_true_2 by done.
    by apply (inv_end (mkClaims r cs iss ss) tid (InSettlement token handle) token handle Settling (Some (mkRetained handle l Available)) ss).
Qed.

Lemma claims_history c : rtc registry_step no_claims c -> claims_inv c.
Proof.
  apply (rtc_ind_r (fun c => claims_inv c)); [apply claims_inv_initial|]. intros x y _ Hs Hi. by eapply claims_step_inv.
Qed.

(** C38: the claim registry is bounded and its accounting exact, in every interleaving
    of the calls of any number of threads: the tokens retained and the slots
    reserved never exceed the limit, the reservation counter is the number of claims
    in flight (so no release saturates and no addition overflows), and a claim is
    refused only when every slot is held by a claim that is live or being operated
    on. *)
Theorem registry_bounded c :
  rtc registry_step no_claims c ->
  let r := claims_registry c in
  (Z.of_nat (size (retained r)) + reservations r <= MAX_ACTIVE_CLAIMS)%Z /\
  reservations r = Z.of_nat (reserved (calls c)) /\
  forall now_ms e r', prepare_claim now_ms r = (Err e, r') ->
    r' = r /\ e = ResourceLimit "active_claims" (MAX_ACTIVE_CLAIMS + 1) MAX_ACTIVE_CLAIMS /\
    (Z.of_nat (size (retained r)) + reservations r = MAX_ACTIVE_CLAIMS)%Z /\
    forall token rc, retained r !! token = Some rc ->
      rc_state rc <> Available \/ (now_ms <= rc_lease_until_ms rc)%Z.
Proof.
  intros Hc. apply claims_history in Hc as [Hres Hcap _ _ _ _ _]. simpl. split_and!; [done..|].
  intros now_ms e r' Hp. pose proof (prepare_spec now_ms (claims_registry c) ltac:(rewrite Hres; lia) Hcap) as Hs.
  rewrite Hp in Hs. destruct Hs as (-> & -> & Hfull & Hlive). split_and!; [done..|].
  intros token rc Hrc. specialize (Hlive _ _ Hrc). unfold is_expired in Hlive.
  destruct (decide (rc_state rc = Available)) as [Ha|]; [|by left]. rewrite bool_decide_eq_true_2 in Hlive by done.
  right. simpl in Hlive. by apply Z.ltb_ge.
Qed.

(** C29: a token stands for one claim and is settled at most once, in every
    interleaving.  A renewal or settlement in flight holds its token alone, with the
    handle the token was issued for, and no other call, eviction or re-claim takes
    it away; completing a renewal never fails; a settled token is gone for good. *)
Theorem token_exclusive c :
  rtc registry_step no_claims c ->
  let r := claims_registry c in
  NoDup (settled c) /\
  (forall token, token ∈ settled c -> retained r !! token = None /\
     (begin_settlement token r).1 = Err (AbiState "claim handle is invalid") /\
     (begin_renewal token r).1 = Err (AbiState "claim handle is invalid")) /\
  (forall tid op token handle state, calls c !! tid = Some op -> holds op = Some (token, handle, state) ->
     issued c !! token = Some handle /\
     (exists lease, retained r !! token = Some (mkRetained handle lease state)) /\
     (begin_settlement token r).1 = Err (AbiState "claim handle is invalid") /\
     (forall lease, state = Renewing -> (complete_renewal token lease r).1 = Ok ()) /\
     (forall tid' op' handle' state', calls c !! tid' = Some op' ->
        holds op' = Some (token, handle', state') -> tid' = tid)) /\
  (forall token handle, (begin_settlement token r).1 = Ok handle -> issued c !! token = Some handle).
Proof.
  intros Hc. apply claims_history in Hc as [_ _ Hheld _ Hexcl Hiss [Hnd Hset]]. simpl. split_and!; [done|..].
  - intros token Ht. destruct (Hset _ Ht) as [_ Hn].
    unfold begin_settlement, begin_renewal, begin_operation. by rewrite Hn.
  - intros tid op token handle state Htid Hop. destruct (Hheld _ _ _ _ _ Htid Hop) as [lease Hl].
    unfold begin_settlement, begin_operation, complete_renewal. rewrite Hl. split_and!.
    + exact (Hiss _ _ Hl).
    + by exists lease.
    + destruct op; simpl in Hop; simplify_eq; done.
    + by intros lease' ->.
    + intros tid' op' handle' state' Hc Hh. by eapply Hexcl.
  - intros token handle Hb. destruct (begin_settlement token (claims_registry c)) as [[h|] r'] eqn:Hbs; [|done].
    injection Hb as ->. apply begin_operation_Ok in Hbs as (lease & Hl & _). exact (Hiss _ _ Hl).
Qed.
End history.
