(* ===== verification/StoreHandle.v ===== *)
(** * Store handles: acquiring, closing and retiring a store

    Models the handle lifecycle of src/crates/event-sorcery-ffi/src/lib.rs:
    [publish_store], [EsStore::acquire], [linearize_close], [EsStore::close],
    [retire_store] and the destructor of [StoreLease].

    The process-wide registry maps the address of an owner cell to the store it
    published; the cell holds the store's raw pointer or null (0).  Each function
    runs under the locks it takes, so it is one atomic function on [Handles].  A closer
    waits on the condition variable [state_changed] as the code does: under the lock it
    tests its condition and, while it must wait, falls asleep; it tests again when a
    [notify_all] or a spurious wakeup has woken it, and a thread that sleeps does not
    move.  The destructor of a lease and a finished close change the state first and
    notify in a step of their own; [linearize_close] notifies under the registry lock,
    in one step with its change.  [thread_step] is what the threads inside the library
    do, [handle_step] adds those that come in, panics and spurious wakeups; both
    interleave any number of threads.

    A store is identified with its address.  [Inner] is what a store protects (the
    engine, the runtime and the claims of Ffi.v); it is destroyed when nothing holds
    it any more: neither the store's cell, nor a call, nor the closer that took it. *)

From S2P Require Import Prelude Json Sqlite EventTable Lifecycle Job Engine.
From S2P Require Import ViewRepository JobQueue Repository Dispatch Worker Abi.

(** ** State *)

Inductive CloseRole : Type := Destroy | Join.
Inductive CloseOutcome : Type := CloseOk | ClosePanic.
Inductive StoreState : Type :=
| Open (active_calls : Z)
| Closing (active_calls : Z)
| ClosedWith (outcome : CloseOutcome).

#[global] Instance CloseOutcome_eq_dec : EqDecision CloseOutcome.
Proof. solve_decision. Defined.
#[global] Instance StoreState_eq_dec : EqDecision StoreState.
Proof. solve_decision. Defined.

Record EsStore (Inner : Type) : Type := mkEsStore {
  store_state : StoreState;
  store_inner : option Inner;
  store_poisoned : bool;
}.
Arguments mkEsStore {Inner}.
Arguments store_state {Inner}.
Arguments store_inner {Inner}.
Arguments store_poisoned {Inner}.

(** [cells] are the owner cells; [registry] gives the raw pointer published for an
    owner; [stores] are the stores by address. *)
Record Handles (Inner : Type) : Type := mkHandles {
  cells : gmap Z Z;
  registry : gmap Z Z;
  stores : gmap Z (EsStore Inner);
}.
Arguments mkHandles {Inner}.
Arguments cells {Inner}.
Arguments registry {Inner}.
Arguments stores {Inner}.

Section handles.
Context {Inner : Type}.

Definition set_state (state : StoreState) (s : EsStore Inner) : EsStore Inner :=
  mkEsStore state (store_inner s) (store_poisoned s).
Definition poison (s : EsStore Inner) : EsStore Inner :=
  mkEsStore (store_state s) (store_inner s) true.
Definition write_cell (owner value : Z) (h : Handles Inner) : Handles Inner :=
  mkHandles (<[owner := value]> (cells h)) (registry h) (stores h).
Definition set_store (raw : Z) (s : EsStore Inner) (h : Handles Inner) : Handles Inner :=
  mkHandles (cells h) (registry h) (<[raw := s]> (stores h)).

(** A cell that was never written reads as null. *)
Definition read_cell (owner : Z) (h : Handles Inner) : Z := default 0%Z (cells h !! owner).

Definition new_store (inner : Inner) : EsStore Inner := mkEsStore (Open 0) (Some inner) false.

(** [raw] is the address [Arc::into_raw] gives the new store. *)
Definition publish_store (owner raw : Z) (inner : Inner) (h : Handles Inner) :
    result AbiError () * Handles Inner :=
  match registry h !! owner with
  | Some _ => (Err (AbiState "store owner is already open"), h)
  | None =>
      (Ok (), write_cell owner raw
                (mkHandles (cells h) (<[owner := raw]> (registry h)) (<[raw := new_store inner]> (stores h))))
  end.

Definition linearize_close (owner : Z) (h : Handles Inner) :
    result AbiError (option (Z * CloseRole)) * Handles Inner :=
  match registry h !! owner with
  | None => (Ok None, write_cell owner 0 h)
  | Some raw =>
      if negb (read_cell owner h =? 0)%Z && negb (read_cell owner h =? raw)%Z
      then (Err (AbiState "store owner does not match its handle"), h)
      else
        match stores h !! raw with
        | None => (Ok None, h)
        | Some s =>
            match store_state s with
            | Open active_calls =>
                (Ok (Some (raw, Destroy)),
                 write_cell owner 0 (set_store raw (set_state (Closing active_calls) s) h))
            | Closing _ | ClosedWith _ => (Ok (Some (raw, Join)), write_cell owner 0 h)
            end
        end
  end.

(** [Arc::ptr_eq] on the entry. *)
Definition retire_store (owner raw : Z) (h : Handles Inner) : Handles Inner :=
  if bool_decide (registry h !! owner = Some raw)
  then mkHandles (cells h) (delete owner (registry h)) (stores h) else h.

Definition acquire_store (owner : Z) (h : Handles Inner) : result AbiError (Z * Inner) * Handles Inner :=
  if (owner =? 0)%Z then (Err (AbiState "store owner is null"), h)
  else
    match registry h !! owner with
    | None => (Err (AbiState "store is closed"), h)
    | Some raw =>
        if (read_cell owner h =? 0)%Z || negb (read_cell owner h =? raw)%Z
        then (Err (AbiState "store is closed"), h)
        else
          match stores h !! raw with
          | None => (Err (AbiState "store is closed"), h)
          | Some s =>
              match store_state s with
              | Open active_calls =>
                  match store_inner s with
                  | None => (Err (AbiState "store is closed"), h)
                  | Some inner =>
                      match usize_checked_add active_calls 1 with
                      | None => (Err (AbiState "active call count overflow"), h)
                      | Some n => (Ok (raw, inner), set_store raw (set_state (Open n) s) h)
                      end
                  end
              | _ => (Err (AbiState "store is closing"), h)
              end
          end
    end.

(** [Drop for StoreLease], up to the drop of its fields. *)
Definition drop_lease (s : EsStore Inner) : EsStore Inner :=
  match store_state s with
  | Open n => if (0 <=? n - 1)%Z then set_state (Open (n - 1)) s else poison s
  | Closing n => if (0 <=? n - 1)%Z then set_state (Closing (n - 1)) s else poison s
  | ClosedWith _ => poison s
  end.

(** [EsStore::close]: when the joiner stops waiting, and with what. *)
Definition join_result (s : EsStore Inner) : option CloseOutcome :=
  match store_state s with ClosedWith outcome => Some outcome | _ => None end.

(** The condition under which the destroyer keeps waiting. *)
Definition draining (s : EsStore Inner) : bool :=
  match store_state s with Closing n => negb (n =? 0)%Z | _ => false end.

(** [inner.lock().take()]. *)
Definition take_inner (s : EsStore Inner) : option Inner * EsStore Inner :=
  (store_inner s, mkEsStore (store_state s) None (store_poisoned s)).

Definition close_result (outcome : CloseOutcome) : result AbiError () :=
  match outcome with CloseOk => Ok () | ClosePanic => Err Panic end.

(** The destructor notifies the closers. *)
Definition lease_drained (s : EsStore Inner) : bool :=
  match store_state s with
  | Open n | Closing n => if (0 <=? n - 1)%Z then (n - 1 =? 0)%Z else true
  | ClosedWith _ => true
  end.

(** ** Interleavings *)

(** A thread inside the library: a data call that holds a lease, has released it and
    is about to notify, or only has its reference to the inner store left to drop; a
    closer with its role, testing the condition it waits for, asleep in
    [state_changed.wait], or past it and about to notify. *)
Inductive Thread : Type :=
| InCall (raw : Z)
| LeaseNotifying (raw : Z)
| LeaseReleased (raw : Z)
| Destroying (owner raw : Z)
| DrainWaiting (owner raw : Z)
| Drained (owner raw : Z)
| Taken (owner raw : Z) (inner : option Inner)
| CloseNotifying (owner raw : Z) (outcome : CloseOutcome)
| Joining (owner raw : Z)
| JoinWaiting (owner raw : Z)
| CloseDone (owner raw : Z) (outcome : CloseOutcome).

Definition thread_store (t : Thread) : Z :=
  match t with
  | InCall raw | LeaseNotifying raw | LeaseReleased raw | Destroying _ raw | DrainWaiting _ raw | Drained _ raw
  | Taken _ raw _ | CloseNotifying _ raw _ | Joining _ raw | JoinWaiting _ raw | CloseDone _ raw _ => raw
  end.

(** A sleeping closer tests its condition again. *)
Definition awake (t : Thread) : Thread :=
  match t with
  | DrainWaiting owner raw => Destroying owner raw
  | JoinWaiting owner raw => Joining owner raw
  | _ => t
  end.

(** [store.state_changed.notify_all()]. *)
Definition notify_all (raw : Z) (ts : gmap nat Thread) : gmap nat Thread :=
  (fun t => if (thread_store t =? raw)%Z then awake t else t) <$> ts.

(** [panicked] are the stores a data call panicked on; [reports] the outcomes
    [es_close] returned. *)
Record System : Type := mkSystem {
  sys_handles : Handles Inner;
  threads : gmap nat Thread;
  panicked : gset Z;
  reports : list (Z * CloseOutcome);
}.

Definition initial_system : System := mkSystem (mkHandles ∅ ∅ ∅) ∅ ∅ [].

(** A thread inside the library goes on.  The state lock is released before a
    notification, so the change and the notification are two steps; a thread that
    sleeps does not move. *)
Inductive thread_step : System -> System -> Prop :=
| StepReleaseLease tid raw s h ts ps rs :
    ts !! tid = Some (InCall raw) -> stores h !! raw = Some s ->
    thread_step (mkSystem h ts ps rs)
      (mkSystem (set_store raw (drop_lease s) h)
         (<[tid := if lease_drained s then LeaseNotifying raw else LeaseReleased raw]> ts) ps rs)
| StepLeaseNotifies tid raw h ts ps rs :
    ts !! tid = Some (LeaseNotifying raw) ->
    thread_step (mkSystem h ts ps rs) (mkSystem h (<[tid := LeaseReleased raw]> (notify_all raw ts)) ps rs)
| StepDropInner tid raw h ts ps rs :
    ts !! tid = Some (LeaseReleased raw) ->
    thread_step (mkSystem h ts ps rs) (mkSystem h (delete tid ts) ps rs)
| StepDrainWaits tid owner raw s h ts ps rs :
    ts !! tid = Some (Destroying owner raw) -> stores h !! raw = Some s -> draining s = true ->
    thread_step (mkSystem h ts ps rs) (mkSystem h (<[tid := DrainWaiting owner raw]> ts) ps rs)
| StepDrained tid owner raw s h ts ps rs :
    ts !! tid = Some (Destroying owner raw) -> stores h !! raw = Some s -> draining s = false ->
    thread_step (mkSystem h ts ps rs) (mkSystem h (<[tid := Drained owner raw]> ts) ps rs)
| StepTake tid owner raw s h ts ps rs :
    ts !! tid = Some (Drained owner raw) -> stores h !! raw = Some s ->
    thread_step (mkSystem h ts ps rs)
      (mkSystem (set_store raw (take_inner s).2 h) (<[tid := Taken owner raw (take_inner s).1]> ts) ps rs)
| StepDestroyed tid owner raw inner outcome s h ts ps rs :
    ts !! tid = Some (Taken owner raw inner) -> stores h !! raw = Some s ->
    thread_step (mkSystem h ts ps rs)
      (mkSystem (set_store raw (set_state (ClosedWith outcome) s) h) (<[tid := CloseNotifying owner raw outcome]> ts) ps rs)
| StepCloseNotifies tid owner raw outcome h ts ps rs :
    ts !! tid = Some (CloseNotifying owner raw outcome) ->
    thread_step (mkSystem h ts ps rs) (mkSystem h (<[tid := CloseDone owner raw outcome]> (notify_all raw ts)) ps rs)
| StepJoinWaits tid owner raw s h ts ps rs :
    ts !! tid = Some (Joining owner raw) -> stores h !! raw = Some s -> join_result s = None ->
    thread_step (mkSystem h ts ps rs) (mkSystem h (<[tid := JoinWaiting owner raw]> ts) ps rs)
| StepJoined tid owner raw s outcome h ts ps rs :
    ts !! tid = Some (Joining owner raw) -> stores h !! raw = Some s -> join_result s = Some outcome ->
    thread_step (mkSystem h ts ps rs) (mkSystem h (<[tid := CloseDone owner raw outcome]> ts) ps rs)
| StepRetire tid owner raw outcome h ts ps rs :
    ts !! tid = Some (CloseDone owner raw outcome) ->
    thread_step (mkSystem h ts ps rs)
      (mkSystem (retire_store owner raw h) (delete tid ts) ps ((raw, outcome) :: rs)).

(** Threads come in, go on, panic in their call, or wake up without a notification. *)
Inductive handle_step : System -> System -> Prop :=
| StepOpen owner raw inner res h h' ts ps rs :
    (0 < raw)%Z -> stores h !! raw = None -> publish_store owner raw inner (write_cell owner 0 h) = (res, h') ->
    handle_step (mkSystem h ts ps rs) (mkSystem h' ts ps rs)
| StepAcquire tid owner raw inner h h' ts ps rs :
    ts !! tid = None -> acquire_store owner h = (Ok (raw, inner), h') ->
    handle_step (mkSystem h ts ps rs) (mkSystem h' (<[tid := InCall raw]> ts) ps rs)
| StepCallPanics tid raw s h ts ps rs :
    ts !! tid = Some (InCall raw) -> stores h !! raw = Some s ->
    handle_step (mkSystem h ts ps rs) (mkSystem (set_store raw (poison s) h) ts ({[raw]} ∪ ps) rs)
| StepClose tid owner raw role h h' ts ps rs :
    ts !! tid = None -> owner <> 0%Z -> linearize_close owner h = (Ok (Some (raw, role)), h') ->
    handle_step (mkSystem h ts ps rs)
      (mkSystem h' (<[tid := match role with Destroy => Destroying owner raw | Join => Joining owner raw end]> (notify_all raw ts)) ps rs)
| StepCloseAbsorbed owner h h' ts ps rs :
    owner <> 0%Z -> linearize_close owner h = (Ok None, h') ->
    handle_step (mkSystem h ts ps rs) (mkSystem h' ts ps rs)
| StepSpuriousWakeup tid t h ts ps rs :
    ts !! tid = Some t -> handle_step (mkSystem h ts ps rs) (mkSystem h (<[tid := awake t]> ts) ps rs)
| StepThread sys sys' : thread_step sys sys' -> handle_step sys sys'.
End handles.
Arguments Thread : clear implicits.
Arguments System : clear implicits.

(** ** The invariant *)

Section invariant.
Context {Inner : Type}.
Implicit Types (s : EsStore Inner) (t : Thread Inner) (ts : gmap nat (Thread Inner)).

Definition is_call t : bool := match t with InCall _ => true | _ => false end.
Definition is_destroyer t : bool :=
  match t with Destroying _ _ | DrainWaiting _ _ | Drained _ _ | Taken _ _ _ => true | _ => false end.
Definition is_drained t : bool := match t with Drained _ _ | Taken _ _ _ => true | _ => false end.
Definition is_taken t : bool := match t with Taken _ _ _ => true | _ => false end.
Definition drain_waiting t : bool := match t with DrainWaiting _ _ => true | _ => false end.
Definition join_waiting t : bool := match t with JoinWaiting _ _ => true | _ => false end.
Definition lease_notifying t : bool := match t with LeaseNotifying _ => true | _ => false end.
Definition close_notifying t : bool := match t with CloseNotifying _ _ _ => true | _ => false end.

(** How many threads of a kind are inside a store. *)
Definition counted (P : Thread Inner -> bool) (raw : Z) t : bool := P t && (thread_store t =? raw)%Z.
Definition count (P : Thread Inner -> bool) (raw : Z) ts : nat :=
  size (filter (fun kv => counted P raw kv.2 = true) ts).

Definition one (P : Thread Inner -> bool) (raw : Z) (t : option (Thread Inner)) : nat :=
  match t with Some t => if counted P raw t then 1 else 0 | None => 0 end.

Lemma count_insert P raw ts tid t :
  ts !! tid = None -> count P raw (<[tid := t]> ts) = count P raw ts + one P raw (Some t).
Proof.
  intros Hn. unfold count, one. destruct (counted P raw t) eqn:Hc.
  - rewrite map_filter_insert_True by done. rewrite map_size_insert_None; [lia|].
    apply map_lookup_filter_None. by left.
  - rewrite map_filter_insert_False by (by cbn [snd]; rewrite Hc). rewrite delete_id by done. lia.
Qed.

(** Replacing, adding or removing one thread. *)
Lemma count_alter P raw ts tid (t' : option (Thread Inner)) :
  count P raw (partial_alter (fun _ => t') tid ts) + one P raw (ts !! tid) = count P raw ts + one P raw t'.
Proof.
  assert (count P raw ts = count P raw (delete tid ts) + one P raw (ts !! tid)) as Hd.
  { destruct (ts !! tid) as [t|] eqn:Ht.
    - rewrite <-(count_insert P raw (delete tid ts) tid t) by apply lookup_delete_eq. by rewrite insert_delete_id.
    - rewrite delete_id by done. simpl. lia. }
  assert (count P raw (partial_alter (fun _ => t') tid ts) = count P raw (delete tid ts) + one P raw t') as Ha.
  { destruct t' as [t|].
    - change (partial_alter (fun _ => Some t) tid ts) with (<[tid := t]> ts).
      rewrite <-(insert_delete_eq ts tid). apply count_insert, lookup_delete_eq.
    - change (partial_alter (fun _ => None) tid ts) with (delete tid ts). simpl. lia. }
  lia.
Qed.

Lemma count_pos P raw ts tid t : ts !! tid = Some t -> counted P raw t = true -> 0 < count P raw ts.
Proof.
  intros Ht Hc. pose proof (count_alter P raw ts tid None) as Ha. rewrite Ht in Ha. unfold one in Ha.
  rewrite Hc in Ha. lia.
Qed.

Lemma one_other P raw (t : option (Thread Inner)) :
  (forall x, t = Some x -> thread_store x <> raw) -> one P raw t = 0.
Proof.
  intros Ht. unfold one. destruct t as [t|]; [|done]. unfold counted.
  rewrite (proj2 (Z.eqb_neq _ _)) by (by apply Ht). by rewrite andb_false_r.
Qed.

(** What a thread that waits for a close, or is done with one, knows of the state. *)
Definition fits (state : StoreState) t : Prop :=
  match t with
  | CloseNotifying _ _ outcome | CloseDone _ _ outcome => state = ClosedWith outcome
  | Joining _ _ | JoinWaiting _ _ => match state with Open _ => False | _ => True end
  | _ => True
  end.

(** What holds of one store.  A closer that sleeps over a condition that no longer holds
    is about to be notified. *)
Record store_inv (raw : Z) s ts (ps : gset Z) : Prop := {
  inv_state :
    match store_state s with
    | Open n => n = Z.of_nat (count is_call raw ts) /\ is_Some (store_inner s) /\ count is_destroyer raw ts = 0
    | Closing n => n = Z.of_nat (count is_call raw ts) /\ count is_destroyer raw ts = 1 /\
        (count is_drained raw ts = 0 \/ n = 0%Z) /\
        (count is_taken raw ts = 0 /\ is_Some (store_inner s) \/ count is_taken raw ts = 1 /\ store_inner s = None) /\
        (n = 0%Z -> count drain_waiting raw ts = 0 \/ 0 < count lease_notifying raw ts)
    | ClosedWith _ => count is_call raw ts = 0 /\ count is_destroyer raw ts = 0 /\ store_inner s = None /\
        (count join_waiting raw ts = 0 \/ 0 < count close_notifying raw ts)
    end;
  inv_done : forall tid t, ts !! tid = Some t -> thread_store t = raw -> fits (store_state s) t;
  inv_poison : store_poisoned s = true -> raw ∈ ps;
}.

Record sys_inv (sys : System Inner) : Prop := {
  inv_stores : forall raw s, stores (sys_handles sys) !! raw = Some s -> store_inv raw s (threads sys) (panicked sys);
  inv_threads : forall tid t, threads sys !! tid = Some t -> is_Some (stores (sys_handles sys) !! thread_store t);
  inv_registry : forall owner raw, registry (sys_handles sys) !! owner = Some raw ->
    is_Some (stores (sys_handles sys) !! raw);
  inv_reports : forall raw outcome, (raw, outcome) ∈ reports sys ->
    exists s, stores (sys_handles sys) !! raw = Some s /\ store_state s = ClosedWith outcome;
}.

(** One thread and the store it is in change. *)
Lemma sys_inv_update h ts ps rs tid (t' : option (Thread Inner)) raw s s' h' ps' rs' :
  sys_inv (mkSystem h ts ps rs) -> stores h !! raw = Some s ->
  (forall x, ts !! tid = Some x -> thread_store x = raw) -> (forall x, t' = Some x -> thread_store x = raw) ->
  stores h' = <[raw := s']> (stores h) -> (forall owner r, registry h' !! owner = Some r -> registry h !! owner = Some r) ->
  ps ⊆ ps' -> (forall outcome, store_state s = ClosedWith outcome -> store_state s' = ClosedWith outcome) ->
  (forall r o, (r, o) ∈ rs' -> (r, o) ∈ rs \/ r = raw /\ store_state s' = ClosedWith o) ->
  store_inv raw s' (partial_alter (fun _ => t') tid ts) ps' ->
  sys_inv (mkSystem h' (partial_alter (fun _ => t') tid ts) ps' rs').
Proof.
  intros [Hst Hth Hreg Hrep] Hs Hold Hnew Hst' Hreg' Hps Hmono Hrs Hinv. split; simpl in *.
  - intros raw' s'' Hs''. rewrite Hst' in Hs''. apply lookup_insert_Some in Hs'' as [[<- <-]|[Hne Hs'']]; [done|].
    assert (forall P, count P raw' (partial_alter (fun _ => t') tid ts) = count P raw' ts) as Hcount.
    { intros P. pose proof (count_alter P raw' ts tid t') as Ha.
      rewrite !one_other in Ha; [lia| |].
      - intros x Hx. rewrite (Hnew x Hx). done.
      - intros x Hx. rewrite (Hold x Hx). done. }
    destruct (Hst _ _ Hs'') as [Hstate Hdone Hpois]. split.
    + by rewrite !Hcount.
    + intros tid' t Ht Hraw. destruct (decide (tid = tid')) as [<-|Hne'].
      * rewrite lookup_partial_alter_eq in Ht. pose proof (Hnew _ Ht). congruence.
      * rewrite lookup_partial_alter_ne in Ht by done. by eapply Hdone.
    + intros Hp. by apply Hps, Hpois.
  - intros tid' t Ht. rewrite Hst'. apply lookup_insert_is_Some'.
    destruct (decide (tid = tid')) as [<-|Hne'].
    + rewrite lookup_partial_alter_eq in Ht. left. by rewrite (Hnew _ Ht).
    + rewrite lookup_partial_alter_ne in Ht by done. right. by eapply Hth.
  - intros owner r Hr. rewrite Hst'. apply lookup_insert_is_Some'. right. by eapply Hreg, Hreg'.
  - intros r o Hr. rewrite Hst'. destruct (Hrs _ _ Hr) as [Hin|[-> Hc]].
    + destruct (Hrep _ _ Hin) as (s0 & Hs0 & Hc). destruct (decide (raw = r)) as [<-|].
      * exists s'. rewrite lookup_insert_eq. split; [done|]. rewrite Hs in Hs0. injection Hs0 as <-. by apply Hmono.
      * exists s0. by rewrite lookup_insert_ne.
    + exists s'. by rewrite lookup_insert_eq.
Qed.

(** The counts of a store after its thread [tid] becomes [t']. *)
Local Ltac counts raw ts tid t' Htid :=
  pose proof (count_alter is_call raw ts tid t') as Hcall;
  pose proof (count_alter is_destroyer raw ts tid t') as Hdestroyer;
  pose proof (count_alter is_drained raw ts tid t') as Hdrained;
  pose proof (count_alter is_taken raw ts tid t') as Htaken;
  pose proof (count_alter drain_waiting raw ts tid t') as Hdw;
  pose proof (count_alter join_waiting raw ts tid t') as Hjw;
  pose proof (count_alter lease_notifying raw ts tid t') as Hln;
  pose proof (count_alter close_notifying raw ts tid t') as Hcn;
  rewrite Htid in Hcall, Hdestroyer, Hdrained, Htaken, Hdw, Hjw, Hln, Hcn;
  unfold one, counted in Hcall, Hdestroyer, Hdrained, Htaken, Hdw, Hjw, Hln, Hcn;
  cbn [is_call is_destroyer is_drained is_taken drain_waiting join_waiting lease_notifying close_notifying thread_store andb]
    in Hcall, Hdestroyer, Hdrained, Htaken, Hdw, Hjw, Hln, Hcn;
  rewrite ?Z.eqb_refl in *.

Lemma inv_done_alter raw s ts ps tid (t' : option (Thread Inner)) state :
  store_inv raw s ts ps -> (forall t, fits (store_state s) t -> fits state t) ->
  (forall t, t' = Some t -> fits state t) ->
  forall tid' t, partial_alter (fun _ => t') tid ts !! tid' = Some t -> thread_store t = raw -> fits state t.
Proof.
  intros [_ Hdone _] Hmono Hnew tid' t Ht Hraw. destruct (decide (tid = tid')) as [<-|Hne].
  - rewrite lookup_partial_alter_eq in Ht. by eapply Hnew.
  - rewrite lookup_partial_alter_ne in Ht by done. by eapply Hmono, Hdone.
Qed.

Lemma count_none P raw ts :
  (forall tid t, ts !! tid = Some t -> thread_store t <> raw) -> count P raw ts = 0.
Proof.
  intros Hn. unfold count. apply map_size_empty_iff, map_empty. intros tid. apply map_lookup_filter_None. right.
  intros t Ht. cbn [snd]. unfold counted.
  rewrite (proj2 (Z.eqb_neq _ _)) by (by eapply Hn). by rewrite andb_false_r.
Qed.

Lemma sys_inv_open h ts ps rs owner raw inner res h' :
  sys_inv (mkSystem h ts ps rs) -> stores h !! raw = None ->
  publish_store owner raw inner (write_cell owner 0 h) = (res, h') -> sys_inv (mkSystem h' ts ps rs).
Proof.
  intros [Hst Hth Hreg Hrep] Hfresh Hp. unfold publish_store in Hp. simpl in *.
  destruct (registry h !! owner); simplify_eq/=; [by split|].
  assert (forall tid t, ts !! tid = Some t -> thread_store t <> raw) as Hno.
  { intros tid t Ht Heq. apply Hth in Ht. rewrite Heq, Hfresh in Ht. by destruct Ht. }
  split; simpl.
  - intros raw' s' Hs'. apply lookup_insert_Some in Hs' as [[<- <-]|[Hne Hs']]; [|by apply Hst].
    split; simpl; [|intros tid t Ht Hraw; by destruct (Hno _ _ Ht)|done].
    rewrite !count_none by done. by split_and!.
  - intros tid t Ht. apply lookup_insert_is_Some'. right. by eapply Hth.
  - intros o r Hr. apply lookup_insert_is_Some'. apply lookup_insert_Some in Hr as [[_ ->]|[_ Hr]]; [by left|].
    right. by eapply Hreg.
  - intros r o Hr. destruct (Hrep _ _ Hr) as (s & Hs & Hc). exists s. split; [|done].
    rewrite lookup_insert_ne; [done|]. intros <-. congruence.
Qed.

(** Only the cell and the registry change. *)
Lemma sys_inv_cells h ts ps rs c' r' :
  sys_inv (mkSystem h ts ps rs) -> (forall owner raw, r' !! owner = Some raw -> registry h !! owner = Some raw) ->
  sys_inv (mkSystem (mkHandles c' r' (stores h)) ts ps rs).
Proof. intros [Hst Hth Hreg Hrep] Hr. split; simpl in *; try done. eauto. Qed.

Lemma acquire_Ok owner h raw inner h' :
  acquire_store owner h = (Ok (raw, inner), h') ->
  exists s n, stores h !! raw = Some s /\ store_state s = Open n /\ store_inner s = Some inner /\
    registry h !! owner = Some raw /\ read_cell owner h = raw /\ raw <> 0%Z /\
    h' = set_store raw (set_state (Open (n + 1)) s) h.
Proof.
  unfold acquire_store. destruct (owner =? 0)%Z; [done|]. destruct (registry h !! owner) as [r|]; [|done].
  destruct ((read_cell owner h =? 0)%Z || negb (read_cell owner h =? r)%Z) eqn:Hc; [done|].
  apply orb_false_iff in Hc as [Hc0 Hcr]. apply Z.eqb_neq in Hc0. apply negb_false_iff, Z.eqb_eq in Hcr.
  destruct (stores h !! r) as [s|] eqn:Hs; [|done]. destruct (store_state s) as [n|n|o] eqn:Hst; [|done..].
  destruct (store_inner s) as [i|] eqn:Hi; [|done]. destruct (usize_checked_add n 1) as [m|] eqn:Hm; [|done].
  apply usize_checked_add_Some in Hm as [-> _]. intros Ha. simplify_eq. exists s, n. by split_and!.
Qed.

Lemma linearize_close_Ok owner h raw role h' :
  linearize_close owner h = (Ok (Some (raw, role)), h') ->
  exists s, stores h !! raw = Some s /\ registry h !! owner = Some raw /\
    registry h' = registry h /\ read_cell owner h' = 0%Z /\
    match store_state s with
    | Open n => role = Destroy /\ stores h' = <[raw := set_state (Closing n) s]> (stores h)
    | _ => role = Join /\ stores h' = stores h
    end.
Proof.
  unfold linearize_close. destruct (registry h !! owner) as [r|] eqn:Hr; [|done].
  destruct (negb _ && negb _); [done|]. destruct (stores h !! r) as [s|] eqn:Hs; [|done].
  intros Hl. destruct (store_state s) eqn:Hst; simplify_eq; exists s; unfold read_cell; simpl;
    rewrite lookup_insert_eq, Hst; by split_and!.
Qed.

(** One thread of a store moves and the store becomes [s']; its own invariant is
    what is left to show. *)
Lemma inv_move h ts ps rs tid (t t' : option (Thread Inner)) raw s s' :
  sys_inv (mkSystem h ts ps rs) -> stores h !! raw = Some s -> ts !! tid = t ->
  (forall x, t = Some x -> thread_store x = raw) -> (forall x, t' = Some x -> thread_store x = raw) ->
  (forall outcome, store_state s = ClosedWith outcome -> store_state s' = ClosedWith outcome) ->
  store_inv raw s' (partial_alter (fun _ => t') tid ts) ps ->
  sys_inv (mkSystem (set_store raw s' h) (partial_alter (fun _ => t') tid ts) ps rs).
Proof.
  intros Hinv Hs <- Hold Hnew Hmono Hst.
  eapply (sys_inv_update h ts ps rs tid t' raw s s'); try done. by left.
Qed.

Lemma step_release h ts ps rs tid raw s :
  sys_inv (mkSystem h ts ps rs) -> ts !! tid = Some (InCall raw) -> stores h !! raw = Some s ->
  sys_inv (mkSystem (set_store raw (drop_lease s) h)
    (<[tid := if lease_drained s then LeaseNotifying raw else LeaseReleased raw]> ts) ps rs) /\
  store_poisoned (drop_lease s) = store_poisoned s.
Proof.
  intros Hinv Htid Hs. pose proof (inv_stores _ Hinv raw s Hs) as Hsi. pose proof Hsi as [Hstate Hdone Hp]. simpl in *.
  assert (0 < count is_call raw ts) as Hpos by (eapply count_pos; [exact Htid|]; unfold counted; simpl; by rewrite Z.eqb_refl).
  destruct (store_state s) as [n|n|o] eqn:Hst; [| |lia].
  all: assert (drop_lease s = set_state (match store_state s with Open n => Open (n - 1) | Closing n => Closing (n - 1)
    | x => x end) s) as Hd by (unfold drop_lease; rewrite Hst; by rewrite (proj2 (Z.leb_le _ _)) by lia).
  all: assert (lease_drained s = (n - 1 =? 0)%Z) as Hl by (unfold lease_drained; rewrite Hst; by rewrite (proj2 (Z.leb_le _ _)) by lia).
  all: rewrite Hd, Hst, Hl; split; [|done].
  all: set (t' := (if (n - 1 =? 0)%Z then LeaseNotifying raw else LeaseReleased raw) : Thread Inner).
  all: assert (thread_store t' = raw) as Hraw by (unfold t'; destruct (n - 1 =? 0)%Z; reflexivity).
  all: apply (inv_move h ts ps rs tid (Some (InCall raw)) (Some t') raw s); try done;
    [by intros ? [= <-]|by intros ? [= <-]|by rewrite Hst|].
  all: split; simpl; [|eapply inv_done_alter; [done|rewrite Hst; by intros []|intros ? [= <-]; unfold t'; by destruct (n - 1 =? 0)%Z]|done].
  all: unfold t'; clear t' Hraw; destruct (Z.eqb_spec (n - 1) 0) as [Hz|Hz];
    match goal with |- context [Some ?t'] => counts raw ts tid (Some t') Htid end.
  1,2: destruct Hstate as (Hn & Hi & Hde); split_and!; [lia|done|lia].
  all: destruct Hstate as (Hn & Hde & Hdr & Hta & Hw); split_and!; [lia|lia|destruct Hdr; [left; lia|right; lia]| |].
  1,3: destruct Hta as [[? ?]|[? ?]]; [left|right]; (split; [lia|done]).
  - intros _. right. lia.
  - lia.
Qed.

(** A thread that is not a data call nor a destroyer leaves. *)
Lemma step_leave h ts ps rs rs' tid t raw s :
  sys_inv (mkSystem h ts ps rs) -> ts !! tid = Some t -> thread_store t = raw -> stores h !! raw = Some s ->
  is_call t = false -> is_destroyer t = false -> lease_notifying t = false -> close_notifying t = false ->
  join_waiting t = false ->
  (forall r o, (r, o) ∈ rs' -> (r, o) ∈ rs \/ r = raw /\ store_state s = ClosedWith o) ->
  sys_inv (mkSystem h (delete tid ts) ps rs').
Proof.
  intros Hinv Htid Hraw Hs Hc Hd Hln Hcn Hjw Hrs. pose proof (inv_stores _ Hinv raw s Hs) as Hsi.
  pose proof Hsi as [Hstate _ Hpo]. simpl in *.
  assert (forall P, P t = false -> count P raw (partial_alter (fun _ => None) tid ts) = count P raw ts) as Hcount.
  { intros P HP. pose proof (count_alter P raw ts tid None) as Ha. rewrite Htid in Ha. unfold one, counted in Ha.
    rewrite HP in Ha. simpl in Ha. lia. }
  change (delete tid ts) with (partial_alter (fun _ => None) tid ts).
  eapply (sys_inv_update h ts ps rs tid None raw s s); try done;
    [intros x Hx; rewrite Htid in Hx; by injection Hx as <-|by rewrite insert_id|].
  split; [|eapply inv_done_alter; [done|done|by intros ? [= <-]]|done].
  rewrite !Hcount by (by destruct t). done.
Qed.

(** A second closer joins. *)
Lemma step_join h h' ts ps rs tid owner raw s :
  sys_inv (mkSystem h ts ps rs) -> ts !! tid = None -> stores h !! raw = Some s -> stores h' = stores h ->
  (forall o r, registry h' !! o = Some r -> registry h !! o = Some r) -> fits (store_state s) (Joining owner raw) ->
  sys_inv (mkSystem h' (<[tid := Joining owner raw]> ts) ps rs).
Proof.
  intros Hinv Htid Hs Hst Hreg Hfits. pose proof (inv_stores _ Hinv raw s Hs) as Hsi. pose proof Hsi as [Hstate _ Hpo]. simpl in *.
  assert (forall P, P (Joining owner raw) = false ->
    count P raw (partial_alter (fun _ => Some (Joining owner raw)) tid ts) = count P raw ts) as Hcount.
  { intros P HP. pose proof (count_alter P raw ts tid (Some (Joining owner raw))) as Ha. rewrite Htid in Ha.
    unfold one, counted in Ha. rewrite HP in Ha. simpl in Ha. lia. }
  eapply (sys_inv_update h ts ps rs tid (Some (Joining owner raw)) raw s s); try done;
    [by rewrite Htid|by intros ? [= <-]|by rewrite Hst, insert_id|by left|].
  split; [|eapply inv_done_alter; [done|done|by intros ? [= <-]]|done]. by rewrite !Hcount.
Qed.

Lemma count_mono (P Q : Thread Inner -> bool) raw ts :
  (forall t, P t = true -> Q t = true) -> count P raw ts <= count Q raw ts.
Proof.
  intros HPQ. unfold count. apply map_subseteq_size, map_filter_subseteq_ext. intros tid t _. cbn. unfold counted.
  rewrite !andb_true_iff. intros [? ?]. auto.
Qed.
Lemma drained_destroyer raw ts : count is_drained raw ts <= count is_destroyer raw ts.
Proof. apply count_mono. by intros []. Qed.
Lemma taken_drained raw ts : count is_taken raw ts <= count is_drained raw ts.
Proof. apply count_mono. by intros []. Qed.

Lemma waiting_destroyer raw ts : count drain_waiting raw ts <= count is_destroyer raw ts.
Proof. apply count_mono. by intros []. Qed.

Lemma destroyer_counts raw ts tid t :
  ts !! tid = Some t ->
  match t with
  | Destroying _ r | DrainWaiting _ r => r = raw -> 0 < count is_destroyer raw ts
  | Drained _ r => r = raw -> 0 < count is_destroyer raw ts /\ 0 < count is_drained raw ts
  | Taken _ r _ => r = raw -> 0 < count is_destroyer raw ts /\ 0 < count is_drained raw ts /\ 0 < count is_taken raw ts
  | _ => True
  end.
Proof.
  intros Ht. destruct t; try done; intros <-; split_and?; eapply count_pos; try exact Ht; unfold counted; simpl; by rewrite Z.eqb_refl.
Qed.

(** A call comes in. *)
Lemma step_acquire h h' ts ps rs tid owner raw inner :
  sys_inv (mkSystem h ts ps rs) -> ts !! tid = None -> acquire_store owner h = (Ok (raw, inner), h') ->
  sys_inv (mkSystem h' (<[tid := InCall raw]> ts) ps rs).
Proof.
  intros Hinv Htid Ha.
  apply acquire_Ok in Ha as (s & n & Hs & Hst & Hi & _ & _ & _ & ->).
  pose proof (inv_stores _ Hinv raw s Hs) as Hsi. pose proof Hsi as [Hstate _ Hpo]. simpl in *. rewrite Hst in Hstate.
  counts raw ts tid (Some (InCall raw : Thread Inner)) Htid.
  apply (inv_move h ts ps rs tid None (Some (InCall raw)) raw s); try done; [by intros ? [= <-]|by rewrite Hst|].
  split; simpl; [|eapply inv_done_alter; [done|rewrite Hst; by intros []|by intros ? [= <-]]|done].
  destruct Hstate as (Hn & Hin & Hde). split_and!; [lia|done|lia].
Qed.

(** A call panics. *)
Lemma step_panic h ts ps rs tid raw s :
  sys_inv (mkSystem h ts ps rs) -> ts !! tid = Some (InCall raw) -> stores h !! raw = Some s ->
  sys_inv (mkSystem (set_store raw (poison s) h) ts ({[raw]} ∪ ps) rs).
Proof.
  intros Hinv Htid Hs.
  pose proof (inv_stores _ Hinv raw s Hs) as [Hstate Hdone _]. simpl in *.
  assert (partial_alter (fun _ => Some (InCall raw)) tid ts = ts) as Hsame by (exact (insert_id ts tid _ Htid)).
  rewrite <-Hsame.
  eapply (sys_inv_update h ts ps rs tid (Some (InCall raw)) raw s (poison s)); try done;
    [intros x Hx; rewrite Htid in Hx; by injection Hx as <-|by intros ? [= <-]|set_solver|by left|].
  rewrite Hsame. split; [done|done|]. intros _. set_solver.
Qed.

(** A notification of the store [raw], and what it leaves of each count. *)
Lemma notify_lookup raw ts tid :
  notify_all raw ts !! tid = (fun t => if (thread_store t =? raw)%Z then awake t else t) <$> ts !! tid.
Proof. unfold notify_all. by rewrite lookup_fmap. Qed.

Lemma awake_store t : thread_store (awake t) = thread_store t.
Proof. by destruct t. Qed.

Lemma notify_count (P : Thread Inner -> bool) raw ts raw' :
  (forall t, P (awake t) = P t) -> count P raw' (notify_all raw ts) = count P raw' ts.
Proof.
  intros HP. unfold count, notify_all. rewrite map_filter_fmap, map_size_fmap. f_equal. apply map_filter_ext.
  intros tid t _. cbn. unfold counted. by case_match; rewrite ?HP, ?awake_store.
Qed.

Lemma notify_asleep (P : Thread Inner -> bool) raw ts raw' :
  (forall t, P (awake t) = false) ->
  count P raw' (notify_all raw ts) = if decide (raw' = raw) then 0 else count P raw' ts.
Proof.
  intros HP. unfold count, notify_all. rewrite map_filter_fmap, map_size_fmap. case_decide as Hr.
  - subst. apply map_size_empty_iff, map_empty. intros tid. apply map_lookup_filter_None. right. intros t _. cbn. unfold counted.
    destruct (Z.eqb_spec (thread_store t) raw) as [Ht|Ht]; [by rewrite HP|]. by rewrite (proj2 (Z.eqb_neq _ _) Ht), andb_false_r.
  - f_equal. apply map_filter_ext. intros tid t _. cbn. unfold counted.
    destruct (Z.eqb_spec (thread_store t) raw) as [Ht|Ht]; [|done]. rewrite awake_store, Ht, (proj2 (Z.eqb_neq _ _)) by congruence.
    by rewrite !andb_false_r.
Qed.

Lemma fits_awake state t : fits state (awake t) <-> fits state t.
Proof. by destruct t. Qed.

(** Waking threads up is always sound. *)
Lemma sys_inv_notify h ts ps rs raw : sys_inv (mkSystem h ts ps rs) -> sys_inv (mkSystem h (notify_all raw ts) ps rs).
Proof.
  intros [Hst Hth Hreg Hrep]. split; simpl in *; try done.
  - intros raw' s Hs. destruct (Hst _ _ Hs) as [Hstate Hdone Hp]. split; [|intros tid t Ht Hraw|done].
    + rewrite (notify_count is_call), (notify_count is_destroyer), (notify_count is_drained), (notify_count is_taken),
        (notify_count lease_notifying), (notify_count close_notifying), (notify_asleep drain_waiting), (notify_asleep join_waiting)
        by (by intros []).
      destruct (store_state s); [done| |]; case_decide; [|done| |done].
      * destruct Hstate as (? & ? & ? & ? & _). split_and!; [done..|by left].
      * destruct Hstate as (? & ? & ? & _). split_and!; [done..|by left].
    + rewrite notify_lookup in Ht. apply fmap_Some in Ht as (t0 & Ht0 & ->).
      assert (thread_store t0 = raw') as Hraw0 by (revert Hraw; destruct (thread_store t0 =? raw)%Z; by rewrite ?awake_store).
      specialize (Hdone _ _ Ht0 Hraw0). destruct (thread_store t0 =? raw)%Z; [by apply fits_awake|done].
  - intros tid t Ht. rewrite notify_lookup in Ht. apply fmap_Some in Ht as (t0 & Ht0 & ->).
    specialize (Hth _ _ Ht0). destruct (thread_store t0 =? raw)%Z; by rewrite ?awake_store.
Qed.

Lemma notify_notifying raw ts tid t :
  ts !! tid = Some t -> awake t = t -> notify_all raw ts !! tid = Some t.
Proof. intros Ht Ha. rewrite notify_lookup, Ht. simpl. by destruct (thread_store t =? raw)%Z; rewrite ?Ha. Qed.

(** A close begins. *)
Lemma step_close h h' ts ps rs tid owner raw role :
  sys_inv (mkSystem h ts ps rs) -> ts !! tid = None -> linearize_close owner h = (Ok (Some (raw, role)), h') ->
  sys_inv (mkSystem h' (<[tid := match role with Destroy => Destroying owner raw | Join => Joining owner raw end]> ts) ps rs).
Proof.
  intros Hinv Htid Hl.
  apply linearize_close_Ok in Hl as (s & Hs & Hr & Hreg & _ & Hst).
  pose proof (inv_stores _ Hinv raw s Hs) as Hsi. pose proof Hsi as [Hstate _ Hpo]. simpl in *.
  destruct (store_state s) as [n|n|o] eqn:Hss.
  + destruct Hst as [-> Hst]. counts raw ts tid (Some (Destroying owner raw : Thread Inner)) Htid.
    eapply (sys_inv_update h ts ps rs tid (Some (Destroying owner raw)) raw s); try done;
      [by rewrite Htid|by intros ? [= <-]|by rewrite Hreg|by rewrite Hss|by left|].
    split; simpl; [|eapply inv_done_alter; [done|rewrite Hss; by intros []|by intros ? [= <-]]|done].
    destruct Hstate as (Hn & Hin & Hde). pose proof (drained_destroyer raw ts). pose proof (taken_drained raw ts).
    pose proof (waiting_destroyer raw ts). split_and!; [lia|lia|left; lia| |intros _; left; lia].
    left. split; [lia|done].
  + destruct Hst as [-> Hst]. apply (step_join h h' ts ps rs tid owner raw s); try done; [by rewrite Hreg|by rewrite Hss].
  + destruct Hst as [-> Hst]. apply (step_join h h' ts ps rs tid owner raw s); try done; [by rewrite Hreg|by rewrite Hss].
Qed.

(** A thread of the store moves without touching it, its own invariant aside. *)
Lemma step_along h ts ps rs tid t t' raw s :
  sys_inv (mkSystem h ts ps rs) -> ts !! tid = Some t -> stores h !! raw = Some s ->
  thread_store t = raw -> thread_store t' = raw -> fits (store_state s) t' ->
  match store_state s with
  | Open n => n = Z.of_nat (count is_call raw (partial_alter (fun _ => Some t') tid ts)) /\ is_Some (store_inner s) /\ count is_destroyer raw (partial_alter (fun _ => Some t') tid ts) = 0
  | Closing n => n = Z.of_nat (count is_call raw (partial_alter (fun _ => Some t') tid ts)) /\ count is_destroyer raw (partial_alter (fun _ => Some t') tid ts) = 1 /\
      (count is_drained raw (partial_alter (fun _ => Some t') tid ts) = 0 \/ n = 0%Z) /\
      (count is_taken raw (partial_alter (fun _ => Some t') tid ts) = 0 /\ is_Some (store_inner s) \/ count is_taken raw (partial_alter (fun _ => Some t') tid ts) = 1 /\ store_inner s = None) /\
      (n = 0%Z -> count drain_waiting raw (partial_alter (fun _ => Some t') tid ts) = 0 \/ 0 < count lease_notifying raw (partial_alter (fun _ => Some t') tid ts))
  | ClosedWith _ => count is_call raw (partial_alter (fun _ => Some t') tid ts) = 0 /\ count is_destroyer raw (partial_alter (fun _ => Some t') tid ts) = 0 /\ store_inner s = None /\
      (count join_waiting raw (partial_alter (fun _ => Some t') tid ts) = 0 \/ 0 < count close_notifying raw (partial_alter (fun _ => Some t') tid ts))
  end ->
  sys_inv (mkSystem h (<[tid := t']> ts) ps rs).
Proof.
  intros Hinv Htid Hs Hold Hnew Hfits Hstate. pose proof (inv_stores _ Hinv raw s Hs) as Hsi. pose proof Hsi as [_ _ Hpo]. simpl in *.
  eapply (sys_inv_update h ts ps rs tid (Some t') raw s s); try done;
    [intros x Hx; rewrite Htid in Hx; by injection Hx as <-|by intros ? [= <-]|by rewrite insert_id|by left|].
  split; [exact Hstate|eapply inv_done_alter; [done|done|by intros ? [= <-]]|done].
Qed.

(** The destroyer goes to sleep, wakes up, or stops waiting. *)
Lemma step_drain_waits h ts ps rs tid owner raw s :
  sys_inv (mkSystem h ts ps rs) -> ts !! tid = Some (Destroying owner raw) -> stores h !! raw = Some s -> draining s = true ->
  sys_inv (mkSystem h (<[tid := DrainWaiting owner raw]> ts) ps rs).
Proof.
  intros Hinv Htid Hs Hd. pose proof (inv_stores _ Hinv raw s Hs) as [Hstate _ _]. simpl in *.
  counts raw ts tid (Some (DrainWaiting owner raw : Thread Inner)) Htid.
  eapply (step_along h ts ps rs tid _ (DrainWaiting owner raw) raw s); try done.
  unfold draining in Hd. destruct (store_state s) as [n|n|o]; [done| |done]. apply negb_true_iff, Z.eqb_neq in Hd.
  destruct Hstate as (? & ? & ? & Hta & ?).
  split_and!; [lia|lia|lia| |lia]. destruct Hta as [[? ?]|[? ?]]; [left|right]; (split; [lia|done]).
Qed.

Lemma step_drained h ts ps rs tid owner raw s :
  sys_inv (mkSystem h ts ps rs) -> ts !! tid = Some (Destroying owner raw) -> stores h !! raw = Some s -> draining s = false ->
  sys_inv (mkSystem h (<[tid := Drained owner raw]> ts) ps rs).
Proof.
  intros Hinv Htid Hs Hd. pose proof (inv_stores _ Hinv raw s Hs) as [Hstate _ _]. simpl in *.
  counts raw ts tid (Some (Drained owner raw : Thread Inner)) Htid. pose proof (destroyer_counts raw ts tid _ Htid eq_refl) as Hdes.
  eapply (step_along h ts ps rs tid _ (Drained owner raw) raw s); try done.
  unfold draining in Hd. destruct (store_state s) as [n|n|o]; [simpl in Hdes; lia| |simpl in Hdes; lia].
  apply negb_false_iff, Z.eqb_eq in Hd. destruct Hstate as (? & ? & _ & Hta & ?).
  split_and!; [lia|lia|by right| |lia]. destruct Hta as [[? ?]|[? ?]]; [left|right]; (split; [lia|done]).
Qed.

(** A joiner goes to sleep, or sees the outcome. *)
Lemma step_join_waits h ts ps rs tid owner raw s :
  sys_inv (mkSystem h ts ps rs) -> ts !! tid = Some (Joining owner raw) -> stores h !! raw = Some s -> join_result s = None ->
  sys_inv (mkSystem h (<[tid := JoinWaiting owner raw]> ts) ps rs).
Proof.
  intros Hinv Htid Hs Hj. pose proof (inv_stores _ Hinv raw s Hs) as [Hstate Hdone _]. simpl in *.
  specialize (Hdone _ _ Htid eq_refl). counts raw ts tid (Some (JoinWaiting owner raw : Thread Inner)) Htid.
  eapply (step_along h ts ps rs tid _ (JoinWaiting owner raw) raw s); try done.
  unfold join_result in Hj. destruct (store_state s) as [n|n|o]; [done| |done].
  destruct Hstate as (? & ? & ? & Hta & ?). split_and!; [lia|lia|lia| |lia].
  destruct Hta as [[? ?]|[? ?]]; [left|right]; (split; [lia|done]).
Qed.

Lemma step_joined h ts ps rs tid owner raw s outcome :
  sys_inv (mkSystem h ts ps rs) -> ts !! tid = Some (Joining owner raw) -> stores h !! raw = Some s -> join_result s = Some outcome ->
  sys_inv (mkSystem h (<[tid := CloseDone owner raw outcome]> ts) ps rs).
Proof.
  intros Hinv Htid Hs Hj. pose proof (inv_stores _ Hinv raw s Hs) as [Hstate _ _]. simpl in *.
  counts raw ts tid (Some (CloseDone owner raw outcome : Thread Inner)) Htid.
  unfold join_result in Hj. destruct (store_state s) as [n|n|o] eqn:Hss; [done..|]. injection Hj as ->.
  eapply (step_along h ts ps rs tid _ (CloseDone owner raw outcome) raw s); try done. rewrite Hss.
  destruct Hstate as (? & ? & ? & ?). split_and!; [lia|lia|done|lia].
Qed.

(** A thread wakes up without a notification. *)
Lemma step_awake h ts ps rs tid t :
  sys_inv (mkSystem h ts ps rs) -> ts !! tid = Some t -> sys_inv (mkSystem h (<[tid := awake t]> ts) ps rs).
Proof.
  intros Hinv Htid. destruct (inv_threads _ Hinv tid _ Htid) as [s Hs]. simpl in Hs. pose proof (inv_stores _ Hinv _ s Hs) as [Hstate Hdone _]. simpl in *.
  specialize (Hdone _ _ Htid eq_refl). destruct t as [| | | |owner raw| | | | |owner raw|]; try (cbn [awake]; by rewrite insert_id); simpl in *.
  - counts raw ts tid (Some (Destroying owner raw : Thread Inner)) Htid. pose proof (destroyer_counts raw ts tid _ Htid eq_refl) as Hdes.
    eapply (step_along h ts ps rs tid _ (Destroying owner raw) raw s); try done.
    destruct (store_state s) as [n|n|o]; [simpl in Hdes; lia| |simpl in Hdes; lia].
    destruct Hstate as (? & ? & ? & Hta & ?). split_and!; [lia|lia|lia| |lia].
    destruct Hta as [[? ?]|[? ?]]; [left|right]; (split; [lia|done]).
  - counts raw ts tid (Some (Joining owner raw : Thread Inner)) Htid.
    eapply (step_along h ts ps rs tid _ (Joining owner raw) raw s); try done.
    destruct (store_state s) as [n|n|o]; [done| |].
    + destruct Hstate as (? & ? & ? & Hta & ?). split_and!; [lia|lia|lia| |lia].
      destruct Hta as [[? ?]|[? ?]]; [left|right]; (split; [lia|done]).
    + destruct Hstate as (? & ? & ? & ?). split_and!; [lia|lia|done|lia].
Qed.

(** The last lease notified the destroyer: nobody is left asleep that need not be. *)
Lemma step_lease_notifies h ts ps rs tid raw :
  sys_inv (mkSystem h ts ps rs) -> ts !! tid = Some (LeaseNotifying raw) ->
  sys_inv (mkSystem h (<[tid := LeaseReleased raw]> (notify_all raw ts)) ps rs).
Proof.
  intros Hinv Htid%(notify_notifying raw); [|done]. apply (sys_inv_notify _ _ _ _ raw) in Hinv.
  destruct (inv_threads _ Hinv tid _ Htid) as [s Hs]. simpl in Hs. pose proof (inv_stores _ Hinv raw s Hs) as [Hstate _ _]. simpl in *.
  pose proof (notify_asleep drain_waiting raw ts raw ltac:(by intros [])) as Hzero. rewrite decide_True in Hzero by done.
  set (ts' := notify_all raw ts) in *. counts raw ts' tid (Some (LeaseReleased raw : Thread Inner)) Htid.
  eapply (step_along h ts' ps rs tid _ (LeaseReleased raw) raw s); try done.
  destruct (store_state s) as [n|n|o].
  - destruct Hstate as (? & ? & ?). split_and!; [lia|done|lia].
  - destruct Hstate as (? & ? & ? & Hta & _). split_and!; [lia|lia|lia| |intros _; left; lia].
    destruct Hta as [[? ?]|[? ?]]; [left|right]; (split; [lia|done]).
  - destruct Hstate as (? & ? & ? & ?). split_and!; [lia|lia|done|lia].
Qed.

Lemma step_close_notifies h ts ps rs tid owner raw outcome :
  sys_inv (mkSystem h ts ps rs) -> ts !! tid = Some (CloseNotifying owner raw outcome) ->
  sys_inv (mkSystem h (<[tid := CloseDone owner raw outcome]> (notify_all raw ts)) ps rs).
Proof.
  intros Hinv Htid%(notify_notifying raw); [|done]. apply (sys_inv_notify _ _ _ _ raw) in Hinv.
  destruct (inv_threads _ Hinv tid _ Htid) as [s Hs]. simpl in Hs. pose proof (inv_stores _ Hinv raw s Hs) as [Hstate Hdone _]. simpl in *.
  specialize (Hdone _ _ Htid eq_refl). simpl in Hdone.
  pose proof (notify_asleep join_waiting raw ts raw ltac:(by intros [])) as Hzero. rewrite decide_True in Hzero by done.
  set (ts' := notify_all raw ts) in *. counts raw ts' tid (Some (CloseDone owner raw outcome : Thread Inner)) Htid.
  eapply (step_along h ts' ps rs tid _ (CloseDone owner raw outcome) raw s); try done. rewrite Hdone in Hstate |- *.
  destruct Hstate as (? & ? & ? & _). split_and!; [lia|lia|done|left; lia].
Qed.

(** The destroyer takes the contents. *)
Lemma step_take h ts ps rs tid owner raw s :
  sys_inv (mkSystem h ts ps rs) -> ts !! tid = Some (Drained owner raw) -> stores h !! raw = Some s ->
  sys_inv (mkSystem (set_store raw (take_inner s).2 h) (<[tid := Taken owner raw (take_inner s).1]> ts) ps rs).
Proof.
  intros Hinv Htid Hs.
  pose proof (inv_stores _ Hinv raw s Hs) as Hsi. pose proof Hsi as [Hstate _ Hpo]. simpl in *.
  counts raw ts tid (Some (Taken owner raw (store_inner s) : Thread Inner)) Htid.
  pose proof (destroyer_counts raw ts tid _ Htid eq_refl) as Hdes.
  apply (inv_move h ts ps rs tid (Some (Drained owner raw)) (Some (Taken owner raw (store_inner s))) raw s); try done;
    [by intros ? [= <-]|by intros ? [= <-]|].
  split; simpl; [|eapply inv_done_alter; [done|done|by intros ? [= <-]]|done].
  destruct (store_state s) as [n|n|o] eqn:Hss; [simpl in Hdes; lia| |simpl in Hdes; lia].
  destruct Hstate as (Hn & Hde & Hdr & Hta & Hw). simpl in Hdes.
  set (ts' := partial_alter _ tid ts) in *. pose proof (drained_destroyer raw ts').
  pose proof (taken_drained raw ts').
  split_and!; [lia|lia|right; destruct Hdr; lia| |lia]. right. split; [|done]. lia.
Qed.

(** The destroyer publishes the outcome. *)
Lemma step_destroyed h ts ps rs tid owner raw inner outcome s :
  sys_inv (mkSystem h ts ps rs) -> ts !! tid = Some (Taken owner raw inner) -> stores h !! raw = Some s ->
  sys_inv (mkSystem (set_store raw (set_state (ClosedWith outcome) s) h) (<[tid := CloseNotifying owner raw outcome]> ts) ps rs).
Proof.
  intros Hinv Htid Hs.
  pose proof (inv_stores _ Hinv raw s Hs) as Hsi. pose proof Hsi as [Hstate _ Hpo]. simpl in *.
  counts raw ts tid (Some (CloseNotifying owner raw outcome : Thread Inner)) Htid.
  pose proof (destroyer_counts raw ts tid _ Htid eq_refl) as Hdes. simpl in Hdes.
  destruct (store_state s) as [n|n|o] eqn:Hss; [lia| |lia].
  apply (inv_move h ts ps rs tid (Some (Taken owner raw inner)) (Some (CloseNotifying owner raw outcome)) raw s); try done;
    [by intros ? [= <-]|by intros ? [= <-]|by rewrite Hss|].
  destruct Hstate as (Hn & Hde & Hdr & Hta & _).
  split; simpl; [|eapply inv_done_alter; [done|rewrite Hss; by intros []|by intros ? [= <-]]|done].
  split_and!; [lia|lia| |right; lia]. destruct Hta as [[? ?]|[? ?]]; [lia|done].
Qed.

(** A closer retires the store and reports. *)
Lemma step_retire h ts ps rs tid owner raw outcome :
  sys_inv (mkSystem h ts ps rs) -> ts !! tid = Some (CloseDone owner raw outcome) ->
  sys_inv (mkSystem (retire_store owner raw h) (delete tid ts) ps ((raw, outcome) :: rs)).
Proof.
  intros Hinv Htid.
  destruct (inv_threads _ Hinv tid _ Htid) as [s Hs]. simpl in Hs.
  pose proof (inv_stores _ Hinv raw s Hs) as [_ Hdone _]. simpl in *. specialize (Hdone _ _ Htid eq_refl). simpl in Hdone.
  assert (sys_inv (mkSystem h (delete tid ts) ps ((raw, outcome) :: rs))) as Hleft.
  { apply (step_leave h ts ps rs ((raw, outcome) :: rs) tid (CloseDone owner raw outcome) raw s); try done.
    intros r o [[= -> ->]|Hin]%elem_of_cons; [by right|by left]. }
  unfold retire_store. case_bool_decide; [|done]. apply sys_inv_cells; [done|].
  intros o r Hr. by apply lookup_delete_Some in Hr as [_ Hr].
Qed.

Lemma thread_step_inv sys sys' : sys_inv sys -> thread_step sys sys' -> sys_inv sys'.
Proof.
  intros Hinv Hstep. destruct Hstep as [tid raw s h ts ps rs Htid Hs|tid raw h ts ps rs Htid|tid raw h ts ps rs Htid
    |tid owner raw s h ts ps rs Htid Hs Hd|tid owner raw s h ts ps rs Htid Hs Hd|tid owner raw s h ts ps rs Htid Hs
    |tid owner raw inner outcome s h ts ps rs Htid Hs|tid owner raw outcome h ts ps rs Htid
    |tid owner raw s h ts ps rs Htid Hs Hj|tid owner raw s outcome h ts ps rs Htid Hs Hj|tid owner raw outcome h ts ps rs Htid].
  - by eapply step_release.
  - by eapply step_lease_notifies.
  - destruct (inv_threads _ Hinv tid _ Htid) as [s Hs]. simpl in Hs.
    apply (step_leave h ts ps rs rs tid (LeaseReleased raw) raw s); try done. by left.
  - by eapply step_drain_waits.
  - by eapply step_drained.
  - by eapply step_take.
  - by eapply step_destroyed.
  - by eapply step_close_notifies.
  - by eapply step_join_waits.
  - by eapply step_joined.
  - by eapply step_retire.
Qed.

Lemma sys_step_inv sys sys' : sys_inv sys -> handle_step sys sys' -> sys_inv sys'.
Proof.
  intros Hinv Hstep.
  destruct Hstep as [owner raw inner res h h' ts ps rs Hpos Hfresh Hp|tid owner raw inner h h' ts ps rs Htid Ha
    |tid raw s h ts ps rs Htid Hs|tid owner raw role h h' ts ps rs Htid Howner Hl|owner h h' ts ps rs Howner Hl
    |tid t h ts ps rs Htid|sys sys' Hs].
  - by eapply sys_inv_open.
  - by eapply step_acquire.
  - by eapply step_panic.
  - eapply step_close; [by apply sys_inv_notify|by rewrite notify_lookup, Htid|done].
  - unfold linearize_close in Hl. destruct (registry h !! owner) as [raw|] eqn:Hr.
    + destruct (negb _ && negb _); [done|]. destruct (inv_registry _ Hinv owner raw Hr) as [s Hs]. simpl in Hs.
      rewrite Hs in Hl. by destruct (store_state s).
    + injection Hl as <-. by apply sys_inv_cells.
  - by eapply step_awake.
  - by eapply thread_step_inv.
Qed.

Lemma handles_history sys : rtc handle_step initial_system sys -> sys_inv sys.
Proof.
  apply (rtc_ind_r (fun sys => sys_inv sys)).
  - split; simpl; try done; try (by intros ? ? ?%not_elem_of_nil).
  - intros x y _ Hs Hi. by eapply sys_step_inv.
Qed.

(** ** Safety *)

(** C28: closing is linearized, drains and happens once, in every interleaving of data
    calls, closes and panics.  A call acquires a store only while it is open and
    with its inner store present; once a close has begun every call is refused; the
    inner store is taken only when no call is running in it, by the one destroyer;
    all closes of a store report the same outcome, after it is closed; and a store
    is poisoned only by a call that panicked, never by unbalanced leases. *)
Theorem close_linearized sys :
  rtc handle_step initial_system sys ->
  let h := sys_handles sys in
  (forall owner raw inner h', acquire_store owner h = (Ok (raw, inner), h') ->
     exists s n, stores h !! raw = Some s /\ store_state s = Open n /\ store_inner s = Some inner) /\
  (forall owner raw s, registry h !! owner = Some raw -> stores h !! raw = Some s ->
     (forall n, store_state s <> Open n) -> exists e, acquire_store owner h = (Err e, h) /\ code e = ES_ERR_STATE) /\
  (forall raw s tid, stores h !! raw = Some s -> store_inner s = None -> threads sys !! tid <> Some (InCall raw)) /\
  (forall tid1 tid2 t1 t2, threads sys !! tid1 = Some t1 -> threads sys !! tid2 = Some t2 ->
     is_destroyer t1 = true -> is_destroyer t2 = true -> thread_store t1 = thread_store t2 -> tid1 = tid2) /\
  (forall raw o1 o2, (raw, o1) ∈ reports sys -> (raw, o2) ∈ reports sys -> o1 = o2) /\
  (forall raw s, stores h !! raw = Some s -> store_poisoned s = true -> raw ∈ panicked sys).
Proof.
  intros Hr. apply handles_history in Hr as [Hst Hth Hreg Hrep]. simpl. split_and!.
  - intros owner raw inner h' Ha. apply acquire_Ok in Ha as (s & n & ? & ? & ? & _). eauto.
  - intros owner raw s Ho Hs Hno. unfold acquire_store. rewrite Ho, Hs.
    destruct (owner =? 0)%Z; [by eexists|]. destruct (_ || _); [by eexists|].
    destruct (store_state s) as [n| |] eqn:Hss; [by destruct (Hno n)|by eexists..].
  - intros raw s tid Hs Hi Ht. destruct (Hst _ _ Hs) as [Hstate _ _].
    assert (0 < count is_call raw (threads sys)) as Hpos
      by (eapply count_pos; [exact Ht|]; unfold counted; simpl; by rewrite Z.eqb_refl).
    destruct (store_state s) as [n|n|o]; [|..|lia].
    + destruct Hstate as (_ & [? Hin] & _). congruence.
    + destruct Hstate as (Hn & Hde & Hdr & [[_ [? Hin]]|[Hta _]] & _); [congruence|].
      pose proof (taken_drained raw (threads sys)). lia.
  - intros tid1 tid2 t1 t2 H1 H2 Hd1 Hd2 Heq. destruct (decide (tid1 = tid2)) as [|Hne]; [done|exfalso].
    destruct (Hth _ _ H1) as [s Hs]. destruct (Hst _ _ Hs) as [Hstate _ _].
    assert (2 <= count is_destroyer (thread_store t1) (threads sys)) as Htwo.
    { pose proof (count_alter is_destroyer (thread_store t1) (threads sys) tid1 None) as Ha. rewrite H1 in Ha.
      unfold one, counted in Ha. rewrite Hd1, Z.eqb_refl in Ha. simpl in Ha.
      assert (0 < count is_destroyer (thread_store t1) (partial_alter (fun _ => None) tid1 (threads sys))); [|lia].
      eapply (count_pos _ _ _ tid2 t2).
      - by rewrite lookup_partial_alter_ne.
      - unfold counted. rewrite Hd2, Heq. simpl. by apply Z.eqb_eq. }
    destruct (store_state s); lia.
  - intros raw o1 o2 H1 H2. destruct (Hrep _ _ H1) as (s1 & Hs1 & Hc1), (Hrep _ _ H2) as (s2 & Hs2 & Hc2). congruence.
  - intros raw s Hs Hp. destruct (Hst _ _ Hs) as [_ _ Hpo]. by apply Hpo.
Qed.

(** ** Progress *)

(** The notifications a thread has yet to give, and the steps it has left between them. *)
Definition notifications t : nat :=
  match t with
  | InCall _ | LeaseNotifying _ | Destroying _ _ | DrainWaiting _ _ | Drained _ _ | Taken _ _ _ | CloseNotifying _ _ _ => 1
  | LeaseReleased _ | Joining _ _ | JoinWaiting _ _ | CloseDone _ _ _ => 0
  end.
Definition steps_left t : nat :=
  match t with
  | Destroying _ _ => 6
  | DrainWaiting _ _ => 5
  | Drained _ _ => 4
  | InCall _ | Taken _ _ _ | Joining _ _ => 3
  | LeaseNotifying _ | CloseNotifying _ _ _ | JoinWaiting _ _ => 2
  | LeaseReleased _ | CloseDone _ _ _ => 1
  end.

Definition total (f : Thread Inner -> nat) ts : nat := map_fold (fun _ t n => f t + n) 0 ts.

Lemma total_insert f ts tid t : ts !! tid = None -> total f (<[tid := t]> ts) = f t + total f ts.
Proof. intros Hn. unfold total. rewrite map_fold_insert_L; [done| |done]. intros. lia. Qed.

Lemma total_delete f ts tid t : ts !! tid = Some t -> total f ts = total f (delete tid ts) + f t.
Proof.
  intros Ht. rewrite <-(insert_delete_id ts tid t Ht) at 1. rewrite total_insert by apply lookup_delete_eq. lia.
Qed.

Lemma total_replace f ts tid t t' : ts !! tid = Some t -> total f (<[tid := t']> ts) + f t = total f ts + f t'.
Proof.
  intros Ht. rewrite (total_delete f ts tid t Ht), <-(insert_delete_eq ts tid).
  rewrite total_insert by apply lookup_delete_eq. lia.
Qed.

Lemma total_notify f raw ts : (forall t, f (awake t) = f t) -> total f (notify_all raw ts) = total f ts.
Proof.
  intros Hf. induction ts as [|tid t ts Hn IH] using map_ind; [done|]. unfold notify_all in *. rewrite fmap_insert.
  rewrite !total_insert by (rewrite ?lookup_fmap, ?Hn; done). rewrite IH. f_equal. by destruct (thread_store t =? raw)%Z.
Qed.

(** Every step takes from the notifications left, or else from the steps left. *)
Lemma thread_step_shrinks sys sys' :
  thread_step sys sys' ->
  total notifications (threads sys') < total notifications (threads sys) \/
  total notifications (threads sys') = total notifications (threads sys) /\
  total steps_left (threads sys') < total steps_left (threads sys).
Proof.
  intros Hs. destruct Hs as [tid raw s h ts ps rs Htid Hs|tid raw h ts ps rs Htid|tid raw h ts ps rs Htid
    |tid owner raw s h ts ps rs Htid Hs Hd|tid owner raw s h ts ps rs Htid Hs Hd|tid owner raw s h ts ps rs Htid Hs
    |tid owner raw inner outcome s h ts ps rs Htid Hs|tid owner raw outcome h ts ps rs Htid
    |tid owner raw s h ts ps rs Htid Hs Hj|tid owner raw s outcome h ts ps rs Htid Hs Hj|tid owner raw outcome h ts ps rs Htid];
    cbn [threads].
  all: try match goal with Ht : _ !! ?tid = Some _ |- context [delete ?tid ?ts] =>
    pose proof (total_delete notifications ts tid _ Ht) as Hn; pose proof (total_delete steps_left ts tid _ Ht) as Hw;
    cbn in Hn, Hw; lia end.
  all: try match goal with Ht : _ !! ?tid = Some _ |- context [notify_all ?raw ?ts] =>
    pose proof (total_notify notifications raw ts ltac:(by intros [])) as Hnote;
    pose proof (notify_notifying raw ts tid _ Ht eq_refl) as Hnotified; clear Ht end.
  1: destruct (lease_drained s).
  all: match goal with Ht : ?ts !! ?tid = Some _ |- context [<[?tid := ?t']> ?ts] =>
    pose proof (total_replace notifications ts tid _ t' Ht) as Hn; pose proof (total_replace steps_left ts tid _ t' Ht) as Hw end;
    cbn [notifications steps_left] in Hn, Hw; lia.
Qed.

Lemma thread_step_sn (sys : System Inner) : sn thread_step sys.
Proof.
  remember (total notifications (threads sys)) as n eqn:Hn. remember (total steps_left (threads sys)) as m eqn:Hm.
  revert m sys Hn Hm. induction (lt_wf n) as [n _ IHn]. intros m. induction (lt_wf m) as [m _ IHm].
  intros sys -> ->. constructor. intros sys' Hs. destruct (thread_step_shrinks sys sys' Hs) as [Hlt|[Heq Hlt]].
  - by eapply IHn.
  - by eapply IHm.
Qed.

(** A thread of the store that a waiting closer waits for. *)
Lemma count_witness P raw ts : 0 < count P raw ts -> exists tid t, ts !! tid = Some t /\ P t = true /\ thread_store t = raw.
Proof.
  intros Hc. unfold count in Hc. destruct (map_choose (filter (fun kv => counted P raw kv.2 = true) ts)) as (tid & t & Ht).
  { intros He. rewrite He, map_size_empty in Hc. lia. }
  apply map_lookup_filter_Some in Ht as [Ht Hp]. cbn [snd] in Hp. unfold counted in Hp.
  apply andb_true_iff in Hp as [? ?%Z.eqb_eq]. eauto.
Qed.

(** A thread that does not sleep can go on. *)
Lemma awake_moves h ts ps rs tid t :
  sys_inv (mkSystem h ts ps rs) -> ts !! tid = Some t -> drain_waiting t = false -> join_waiting t = false ->
  red thread_step (mkSystem h ts ps rs).
Proof.
  intros Hinv Ht Hd Hj. destruct (inv_threads _ Hinv _ _ Ht) as [s Hs]. simpl in Hs.
  destruct t as [raw|raw|raw|owner raw|owner raw|owner raw|owner raw inner|owner raw o|owner raw|owner raw|owner raw o]; try done; simpl in Hs.
  - eexists. by eapply StepReleaseLease.
  - eexists. by eapply StepLeaseNotifies.
  - eexists. by eapply StepDropInner.
  - destruct (draining s) eqn:Hdr; eexists; [by eapply StepDrainWaits|by eapply StepDrained].
  - eexists. by eapply StepTake.
  - eexists. by eapply (StepDestroyed tid owner raw inner CloseOk).
  - eexists. by eapply StepCloseNotifies.
  - destruct (join_result s) eqn:Hr; eexists; [by eapply StepJoined|by eapply StepJoinWaits].
  - eexists. by eapply StepRetire.
Qed.

(** A sleeping destroyer waits for a call or for the notification of the last one. *)
Lemma drain_waiting_moves h ts ps rs tid owner raw :
  sys_inv (mkSystem h ts ps rs) -> ts !! tid = Some (DrainWaiting owner raw) -> red thread_step (mkSystem h ts ps rs).
Proof.
  intros Hinv Ht. destruct (inv_threads _ Hinv _ _ Ht) as [s Hs]. simpl in Hs.
  destruct (inv_stores _ Hinv _ _ Hs) as [Hstate _ _]. pose proof (destroyer_counts raw ts tid _ Ht eq_refl) as Hde. simpl in *.
  assert (0 < count drain_waiting raw ts) as Hdw by (eapply count_pos; [exact Ht|]; unfold counted; simpl; by rewrite Z.eqb_refl).
  destruct (store_state s) as [n|n|o]; [lia| |lia]. destruct Hstate as (Hn & _ & _ & _ & Hw).
  assert (0 < count is_call raw ts \/ 0 < count lease_notifying raw ts) as [Hc|Hc].
  { destruct (decide (n = 0%Z)) as [Hz|]; [destruct (Hw Hz); [lia|by right]|left; lia]. }
  all: destruct (count_witness _ raw ts Hc) as (tid' & t' & Ht' & HP & _); eapply awake_moves; [exact Hinv|exact Ht'|..]; by destruct t'.
Qed.

Lemma some_thread_moves (sys : System Inner) : sys_inv sys -> threads sys <> ∅ -> red thread_step sys.
Proof.
  destruct sys as [h ts ps rs]. intros Hinv (tid & t & Ht)%map_choose. cbn [threads] in Ht.
  destruct (drain_waiting t) eqn:Hd; [destruct t; try done; by eapply drain_waiting_moves|].
  destruct (join_waiting t) eqn:Hj; [|by eapply awake_moves].
  destruct t as [| | | | | | | | |owner raw|]; try done. destruct (inv_threads _ Hinv _ _ Ht) as [s Hs]. simpl in Hs.
  destruct (inv_stores _ Hinv _ _ Hs) as [Hstate Hdone _]. specialize (Hdone _ _ Ht eq_refl). simpl in *.
  assert (0 < count join_waiting raw ts) as Hjw by (eapply count_pos; [exact Ht|]; unfold counted; simpl; by rewrite Z.eqb_refl).
  destruct (store_state s) as [n|n|o]; [done| |].
  - destruct (count_witness is_destroyer raw ts) as (tid' & t' & Ht' & HP & _); [lia|].
    destruct (drain_waiting t') eqn:Hd'; [destruct t'; try done; by eapply drain_waiting_moves|].
    eapply awake_moves; [exact Hinv|exact Ht'|done|by destruct t'].
  - destruct Hstate as (_ & _ & _ & Hw). destruct (count_witness close_notifying raw ts) as (tid' & t' & Ht' & HP & _); [lia|].
    eapply awake_moves; [exact Hinv|exact Ht'|by destruct t'..].
Qed.

(** C39: no close waits forever.  From every reachable state, whatever calls and closes
    are in progress and whoever sleeps on the condition variable, every run of the
    threads inside the library is finite, and it can stop only when they have all left:
    while one is inside, one can go on without a spurious wakeup, so every sleeper is
    notified in time.  Once they have left, every store is open and idle, or closed with
    its contents gone.  (Calls are assumed to return; a thread that enters later or wakes
    up spuriously only adds to what is inside.) *)
Theorem close_terminates sys :
  rtc handle_step initial_system sys ->
  sn thread_step sys /\
  forall sys', rtc thread_step sys sys' ->
    (threads sys' <> ∅ -> red thread_step sys') /\
    (threads sys' = ∅ -> forall raw s, stores (sys_handles sys') !! raw = Some s ->
      match store_state s with
      | Open n => n = 0%Z
      | Closing _ => False
      | ClosedWith _ => store_inner s = None
      end).
Proof.
  intros Hr. apply handles_history in Hr. split; [apply thread_step_sn|]. intros sys' Hsteps.
  assert (sys_inv sys') as Hinv.
  { clear -Hr Hsteps. induction Hsteps; [done|]. by eapply IHHsteps, thread_step_inv. }
  split; [by apply some_thread_moves|]. intros Hempty raw s Hs.
  destruct (inv_stores _ Hinv _ _ Hs) as [Hstate _ _]. rewrite Hempty in Hstate.
  assert (forall P, count P raw (∅ : gmap nat (Thread Inner)) = 0) as Hz.
  { intros P. apply count_none. intros tid t Ht. by rewrite lookup_empty in Ht. }
  rewrite !Hz in Hstate. destruct (store_state s); [by destruct Hstate|by destruct Hstate as (_ & ? & _)|by destruct Hstate as (_ & _ & ? & _)].
Qed.
End invariant.
