(* ===== verification/Ffi.v ===== *)
(** * The entry points of the C ABI

    Models the [extern "C"] functions of src/crates/event-sorcery-ffi/src/lib.rs that
    run against an open store, with [ffi_call], [write_error], [commit_result],
    [settle_claim_with] and [dead_letter_unusable_claim].

    A call decodes its request, clears its outputs, acquires the store, runs its body
    under [catch_unwind] and releases the lease.  [F] is the body's monad: the
    database with its fault schedule, the claim registry, and an [AbiError].  The
    body's value is what it writes through its output pointer, always as its last
    action.  An output is a cell of the caller, null or holding whatever it held before
    the call ([Out]); each entry point resets it itself, as the code does.

    [send] is [Store::send] on the job aggregate, as in Worker.v.  A claim mints a
    token, a worker id and a claim id; they are arguments. *)

From S2P Require Import Prelude Json Sqlite EventTable Lifecycle Schema Job Engine EngineProps.
From S2P Require Import ViewRepository JobQueue Repository SqliteEs SchemaRecovery JobHistory Dispatch Worker.
From S2P Require Import Reactor Projection Startup Abi ClaimRegistry StoreHandle.

(** ** The body of a call *)

Record StoreInner : Type := mkInner {
  si_world : World;
  si_claims : ClaimRegistry;
}.

Definition F (A : Type) : Type := StoreInner -> result AbiError A * StoreInner.
#[global] Instance F_ret : MRet F := fun A a s => (Ok a, s).
#[global] Instance F_bind : MBind F :=
  fun A B f m s => match m s with (Ok a, s') => f a s' | (Err e, s') => (Err e, s') end.

Definition raise {A} (e : AbiError) : F A := fun s => (Err e, s).
Definition check {A} (r : result AbiError A) : F A := fun s => (r, s).

(** [inner.runtime.block_on(m).map_err(from)]. *)
Definition block_on {E A} (from : E -> AbiError) (m : M E A) : F A :=
  fun s => let '(r, w) := m (si_world s) in (map_err from r, mkInner w (si_claims s)).

(** One use of the registry, under its lock. *)
Definition with_claims {A} (f : ClaimRegistry -> result AbiError A * ClaimRegistry) : F A :=
  fun s => let '(r, c) := f (si_claims s) in (r, mkInner (si_world s) c).
Definition update_claims (f : ClaimRegistry -> ClaimRegistry) (s : StoreInner) : StoreInner :=
  mkInner (si_world s) (f (si_claims s)).

(** A pending guard is dropped when [body] fails, or however it ends. *)
Definition on_error {A} (drop : ClaimRegistry -> ClaimRegistry) (body : F A) : F A :=
  fun s => match body s with (Ok a, s) => (Ok a, s) | (Err e, s) => (Err e, update_claims drop s) end.
Definition finally {A} (drop : ClaimRegistry -> ClaimRegistry) (body : F A) : F A :=
  fun s => let '(r, s) := body s in (r, update_claims drop s).

Definition require_output (present : bool) (null : string) : F () :=
  if present then mret () else raise (AbiState null).

(** ** Answering *)

(** An output pointer and what its cell holds, a null buffer being [None]. *)
Record Out (A : Type) : Type := mkOut {
  out_present : bool;
  out_content : A;
}.
Arguments mkOut {A}.
Arguments out_present {A}.
Arguments out_content {A}.

(** [output.write(value)], unless the pointer is null. *)
Definition write_out {A} (value : A) (out : Out A) : Out A :=
  if out_present out then mkOut true value else out.

(** [clear_buffer_output], [clear_tag_output] and the write of zero to a version. *)
Definition reset_buffer (out : Out (option (list Z))) : Out (option (list Z)) := write_out None out.
Definition reset_tag (out : Out Z) : Out Z := write_out 0%Z out.
Definition reset_version (out : Out Z) : Out Z := write_out 0%Z out.

(** A call without an output beside the error's. *)
Definition no_output : Out () := mkOut false ().

(** What the caller sees: the returned class, and what the cells of its output and of
    the error hold. *)
Record Response (A : Type) : Type := mkResponse {
  resp_class : Z;
  resp_output : A;
  resp_error : option (list Z);
}.
Arguments mkResponse {A}.
Arguments resp_class {A}.
Arguments resp_output {A}.
Arguments resp_error {A}.

Section calls.
Context `{Ulid, CborCodec ErrorWire}.

Definition write_error {A} (out_error : Out (option (list Z))) (out : Out A) (error : AbiError) : Response A :=
  let out_error := reset_buffer out_error in
  let class := code error in
  let out_error :=
    match into_writer (mkErrorWire 1 class (error_detail error)) with
    | Ok bytes => if (bytes_len bytes <=? MAX_RESPONSE_BYTES)%Z then write_out (Some bytes) out_error else out_error
    | Err _ => out_error
    end in
  mkResponse class (out_content out) (out_content out_error).

(** [store] is the poison flag of the store, for calls that have one; [None] from
    [call] is a panic.  The resulting flag is returned beside the response. *)
Definition ffi_call {S A} (store : option bool) (out_error : Out (option (list Z))) (out : Out A)
    (call : S -> option (result AbiError A) * S) (s : S) : Response A * bool * S :=
  let poisoned := default false store in
  if poisoned then (write_error out_error out (AbiState "store is poisoned"), poisoned, s)
  else
    match call s with
    | (Some (Ok a), s) =>
        (mkResponse ES_OK (out_content (write_out a out)) (out_content (reset_buffer out_error)), poisoned, s)
    | (Some (Err error), s) => (write_error out_error out error, poisoned, s)
    | (None, s) => (write_error out_error out Panic, bool_decide (is_Some store), s)
    end.

(** A call on an open store, from the acquisition of its lease to its release. *)
Definition data_call {A} (owner : Z) (out_error : Out (option (list Z))) (out : Out A)
    (body : StoreInner -> option (result AbiError A) * StoreInner) (h : Handles StoreInner) :
    Response A * Handles StoreInner :=
  match acquire_store owner h with
  | (Err error, h) => (write_error out_error out error, h)
  | (Ok (raw, inner), h) =>
      let poisoned := default false (store_poisoned <$> stores h !! raw) in
      let '(response, poisoned, inner) := ffi_call (Some poisoned) out_error out body inner in
      let release s := drop_lease (mkEsStore (store_state s) (Some inner) poisoned) in
      (response, mkHandles (cells h) (registry h) (alter release raw (stores h)))
  end.

(** The bodies below do not panic. *)
Definition returns {A} (body : F A) (s : StoreInner) : option (result AbiError A) * StoreInner :=
  let '(r, s) := body s in (Some r, s).
End calls.

(** ** The entry points *)

Section bodies.
Context `{SerdeJson, Chrono, Ulid, SqliteJson, TableScan, CqrsLoad, HashOrder}.
Context `{CborCodec ErrorWire, CborCodec StoredEventWire, CborCodec StoredSnapshotWire, CborCodec JobsWire}.
Context `{CborCodec JobClaimWire, CommitCodec}.
Context (send : JobId -> JobCommand -> M SendErr ()).

Definition require_identifiers (version : Z) (aggregate_type aggregate_id : string) : result AbiError () :=
  _ ← require_version version;
  _ ← require_identifier_limit (text_len aggregate_type);
  require_identifier_limit (text_len aggregate_id).

Definition load_stream_body (request : result AbiError LoadStreamWire) (out_events : bool) : F (option (list Z)) :=
  _ ← require_output out_events "out_events is null";
  wire ← check request;
  let '(mkLoadStreamWire version aggregate_type aggregate_id after) := wire in
  _ ← check (require_identifiers version aggregate_type aggregate_id);
  after ← check (match after with
                 | None => Ok None
                 | Some after => Some <$> map_err InputInteger (usize_try_from after)
                 end);
  events ← block_on abi_of_engine_error
             (load_opaque_events_page_bounded (mkStream aggregate_type aggregate_id) after
                (Z.to_pos MAX_LIST_ITEMS) (Z.to_pos MAX_STORED_EVENT_PAGE_BYTES));
  page ← check (encode_event_page events);
  mret (Some page).

Definition current_version_body (request : result AbiError StreamWire) (out_version : bool) : F Z :=
  _ ← require_output out_version "out_version is null";
  wire ← check request;
  let '(mkStreamWire version aggregate_type aggregate_id) := wire in
  _ ← check (require_identifiers version aggregate_type aggregate_id);
  version ← block_on abi_of_engine_error (current_version (mkStream aggregate_type aggregate_id));
  check (map_err StorageInteger (u64_try_from version)).

Definition commit_result (parts : CommitParts) (expected : Z) (job : option EnqueueRequest) : F () :=
  let '(mkCommitParts aggregate_type aggregate_id expected_sequence events) := parts in
  let stream := mkStream aggregate_type aggregate_id in
  let request := mkOpaqueCommit stream expected_sequence events (option_list job) in
  fun s =>
    let '(r, w) := commit_opaque request (si_world s) in
    let s := mkInner w (si_claims s) in
    match r with
    | Ok _ => (Ok (), s)
    | Err OptimisticLock =>
        (actual ← block_on abi_of_engine_error (current_version stream);
         actual ← check (map_err StorageInteger (u64_try_from actual));
         raise (AbiConflict aggregate_type aggregate_id expected actual)) s
    | Err error => (Err (abi_of_engine_error error), s)
    end.

Definition commit_body (request : option EsBuf) : F () :=
  wire ← check (decode_validated (fun wire : CommitWire => require_commit_event_count (ce_observed (cw_events wire)))
                  request);
  let '(mkCommitWire version aggregate_type aggregate_id expected events) := wire in
  parts ← check (commit_parts version aggregate_type aggregate_id expected events);
  commit_result parts expected None.

(** [serde_json::to_value(Vec<u8>)]. *)
Definition bytes_to_value (payload : list Z) : Json := JArray (JInt <$> payload).

Definition job_seed (wire : JobSeedWire) : result AbiError EnqueueRequest :=
  let '(mkJobSeedWire job_id kind payload run_at_ms) := wire in
  _ ← require_identifier_limit (text_len job_id);
  _ ← require_identifier_limit (text_len kind);
  _ ← require_payload_limit (bytes_len payload);
  job_id ← ok_or JobIdentifier (ulid_from_str job_id);
  mret (mkEnqueueRequest job_id kind (bytes_to_value payload) run_at_ms).

Definition commit_with_job_body (request : option EsBuf) : F () :=
  wire ← check (decode_validated
                  (fun wire : CommitWithJobWire => require_commit_event_count (ce_observed (cj_events wire))) request);
  let '(mkCommitWithJobWire version aggregate_type aggregate_id expected events job) := wire in
  parts ← check (commit_parts version aggregate_type aggregate_id expected events);
  job ← check (job_seed job);
  commit_result parts expected (Some job).

Definition snapshot_load_body (request : result AbiError StreamWire) (out_snapshot : bool) : F (option (list Z)) :=
  _ ← require_output out_snapshot "out_snapshot is null";
  wire ← check request;
  let '(mkStreamWire version aggregate_type aggregate_id) := wire in
  _ ← check (require_identifiers version aggregate_type aggregate_id);
  snapshot ← block_on abi_of_engine_error (load_snapshot (mkStream aggregate_type aggregate_id));
  stored ← check (match snapshot with None => Ok None | Some snapshot => Some <$> snapshot_to_wire snapshot end);
  response ← check (encode_response (mkStoredSnapshotWire 1 stored));
  mret (Some response).

Definition snapshot_store_body (request : result AbiError SnapshotStoreWire) (out_version : bool) : F Z :=
  _ ← require_output out_version "out_version is null";
  wire ← check request;
  let '(mkSnapshotStoreWire version aggregate_type aggregate_id sequence payload) := wire in
  _ ← check (require_identifiers version aggregate_type aggregate_id);
  _ ← check (require_payload_limit (bytes_len payload));
  sequence ← check (map_err InputInteger (usize_try_from sequence));
  snapshot_version ← block_on abi_of_engine_error
    (store_snapshot (mkStream aggregate_type aggregate_id)
       (mkSnapshotWrite (encode_opaque_payload payload) sequence));
  check (map_err StorageInteger (u64_try_from snapshot_version)).

Definition snapshot_discard_body (request : result AbiError StreamWire) : F () :=
  wire ← check request;
  let '(mkStreamWire version aggregate_type aggregate_id) := wire in
  _ ← check (require_identifiers version aggregate_type aggregate_id);
  block_on abi_of_engine_error (discard_snapshot (mkStream aggregate_type aggregate_id)).

Definition schema_reconcile_body (target : result AbiError SchemaTarget) (out_reconciliation : bool) : F Z :=
  _ ← require_output out_reconciliation "out_reconciliation is null";
  target ← check target;
  reconciliation ← block_on abi_of_engine_error (reconcile_schema target);
  mret (match reconciliation with Changed => 0%Z | Unchanged => 1%Z end).

Definition schema_record_body (target : result AbiError SchemaTarget) : F () :=
  target ← check target;
  block_on abi_of_engine_error (record_schema target).

(** *** Jobs *)

Definition job_enqueue_body (request : result AbiError JobEnqueueWire) : F () :=
  wire ← check request;
  let '(mkJobEnqueueWire version job_id kind payload run_at_ms) := wire in
  _ ← check (require_version version);
  request ← check (job_seed (mkJobSeedWire job_id kind payload run_at_ms));
  let '(mkEnqueueRequest job_id kind payload run_at_ms) := request in
  block_on (job_runtime_error job_id) (enqueue_job_payload job_id kind payload run_at_ms).

Definition job_poll_body (request : result AbiError JobPollWire) (out_jobs : bool) : F (option (list Z)) :=
  _ ← require_output out_jobs "out_jobs is null";
  wire ← check request;
  let '(mkJobPollWire version kind now_ms limit) := wire in
  _ ← check (require_version version);
  _ ← check (require_identifier_limit (text_len kind));
  observed ← check (map_err InputInteger (usize_try_from limit));
  _ ← check (require_limit "job_poll_limit" MAX_LIST_ITEMS observed);
  jobs ← block_on AbiJobRuntime (runtime_poll_jobs kind now_ms limit);
  response ← check (encode_response (mkJobsWire 1 jobs));
  mret (Some response).

Definition dead_letter_unusable_claim (handle : JobClaimHandle) (refusal : JobRefusal) (s : StoreInner) :
    AbiError * StoreInner :=
  let job_id := handle_job_id handle in
  let '(settled, w) := dead_letter_job send handle Undecodable (refusal_text refusal) (si_world s) in
  (match settled with
   | Ok (SettlementApplied | SettlementFenced) => AbiJobRefusal job_id refusal
   | Err error => job_runtime_error job_id error
   end, mkInner w (si_claims s)).

Definition claim_answer (wire : JobClaimWire) : F (option (list Z)) :=
  response ← check (encode_response wire);
  mret (Some response).

(** What a claim call does with the queue's answer; it holds a reservation. *)
Definition finish_claim (job_id : JobId) (now_ms lease_until_ms : Z) (token : ClaimToken)
    (result : JobClaimResult) : F (option (list Z)) :=
  match result with
  | ClaimedJob handle payload =>
      match claimed_payload_bytes payload with
      | Err refusal =>
          finally drop_reservation
            (fun s => let '(error, s) := dead_letter_unusable_claim handle refusal s in (Err error, s))
      | Ok payload =>
          _ ← with_claims (fun c => (Ok (), issue token handle lease_until_ms c));
          claim_answer
            (mkJobClaimWire 1 0 (Some token) (Some (handle_attempt handle))
               (Some (if handle_is_first_execution handle then 0%Z else 1%Z)) (Some payload))
      end
  | ClaimAbandoned =>
      finally drop_reservation
        (_ ← with_claims (fun c => (Ok (), retire_expired_claims job_id now_ms c));
         claim_answer (mkJobClaimWire 1 1 None None None None))
  | ClaimContended =>
      finally drop_reservation (claim_answer (mkJobClaimWire 1 2 None None None None))
  | ClaimSkipped =>
      finally drop_reservation
        (_ ← with_claims (fun c => (Ok (), retire_expired_claims job_id now_ms c));
         claim_answer (mkJobClaimWire 1 3 None None None None))
  end.

(** [token] is what the random generator gives, [None] when it fails; [worker_ulid]
    and [claim_id] are the fresh ids of the worker and of the claim. *)
Definition job_claim_body (request : result AbiError JobClaimRequest) (out_claim : bool)
    (token : option ClaimToken) (worker_ulid claim_id : string) : F (option (list Z)) :=
  _ ← require_output out_claim "out_claim is null";
  wire ← check request;
  let '(mkJobClaimRequest version job_id worker_name now_ms lease_ms max_claims) := wire in
  _ ← check (require_version version);
  _ ← check (require_identifier_limit (text_len job_id));
  _ ← check (require_identifier_limit (text_len worker_name));
  if (lease_ms <=? 0)%Z || (max_claims =? 0)%Z then raise MalformedInput
  else
    job_id ← check (ok_or JobIdentifier (ulid_from_str job_id));
    lease_until_ms ← check (ok_or (AbiState "claim lease instant overflowed") (i64_checked_add now_ms lease_ms));
    token ← check (ok_or (AbiState "claim token generation failed") token);
    _ ← with_claims (prepare_claim now_ms);
    result ← on_error drop_reservation
      (block_on (job_runtime_error job_id)
         (claim_job_as job_id (worker_name ++ ":" ++ worker_ulid) now_ms lease_ms max_claims claim_id));
    finish_claim job_id now_ms lease_until_ms token result.

Definition job_renew_body (request : result AbiError JobRenewWire) (out_renewal : bool) : F Z :=
  _ ← require_output out_renewal "out_renewal is null";
  wire ← check request;
  let '(mkJobRenewWire version encoded new_lease_until_ms) := wire in
  _ ← check (require_version version);
  token ← check (decode_claim_token encoded);
  handle ← with_claims (begin_renewal token);
  result ← on_error (drop_renewal token)
    (block_on (job_runtime_error (handle_job_id handle)) (runtime_renew_job handle new_lease_until_ms));
  match result with
  | Held =>
      _ ← on_error (drop_renewal token) (with_claims (complete_renewal token new_lease_until_ms));
      mret 0%Z
  | Lost =>
      _ ← with_claims (fun c => (Ok (), retire_renewal token c));
      mret 1%Z
  end.

Definition settle_claim_with {Decoded} (validate : Decoded -> result AbiError ())
    (claim_token : Decoded -> result AbiError ClaimToken)
    (operation : JobClaimHandle -> Decoded -> F JobSettlementResult)
    (request : result AbiError Decoded) (out_settlement : bool) : F Z :=
  _ ← require_output out_settlement "out_settlement is null";
  decoded ← check request;
  _ ← check (validate decoded);
  token ← check (claim_token decoded);
  handle ← with_claims (begin_settlement token);
  result ← on_error (drop_settlement token) (operation handle decoded);
  _ ← with_claims (fun c => (Ok (), complete_settlement token c));
  mret (settlement_tag result).

Definition settle_with (handle : JobClaimHandle) (m : M JobRuntimeError JobSettlementResult) :
    F JobSettlementResult :=
  block_on (job_runtime_error (handle_job_id handle)) m.

Definition job_ack_body : result AbiError JobAckWire -> bool -> F Z :=
  settle_claim_with
    (fun wire => require_version (ack_version wire))
    (fun wire => decode_claim_token (ack_token wire))
    (fun claim _ => settle_with claim (acknowledge_job send claim)).

Definition job_retry_body : result AbiError JobRetryWire -> bool -> F Z :=
  settle_claim_with
    (fun wire => _ ← require_version (retry_version wire); require_error_text_limit (text_len (retry_error wire)))
    (fun wire => decode_claim_token (retry_token wire))
    (fun claim wire => settle_with claim (retry_job send claim (retry_run_at_ms wire) (retry_error wire))).

Definition job_defer_body : result AbiError JobDeferWire -> bool -> F Z :=
  settle_claim_with
    (fun wire => require_version (defer_version wire))
    (fun wire => decode_claim_token (defer_token wire))
    (fun claim wire => settle_with claim (defer_job send claim (defer_run_at_ms wire))).

Definition job_dead_letter_body : result AbiError JobDeadLetterWire -> bool -> F Z :=
  settle_claim_with
    (fun wire => _ ← require_version (dl_version wire);
                 _ ← require_error_text_limit (text_len (dl_error wire));
                 _ ← dead_reason (dl_reason wire);
                 mret ())
    (fun wire => decode_claim_token (dl_token wire))
    (fun claim wire =>
       reason ← check (dead_reason (dl_reason wire));
       settle_with claim (dead_letter_job send claim reason (dl_error wire))).

(** *** The calls *)

Context `{CborCodec LoadStreamWire, CborCodec StreamWire, CborCodec SnapshotStoreWire, CborCodec SchemaWire}.
Context `{CborCodec JobEnqueueWire, CborCodec JobPollWire, CborCodec JobClaimRequest, CborCodec JobRenewWire}.
Context `{CborCodec JobAckWire, CborCodec JobRetryWire, CborCodec JobDeferWire, CborCodec JobDeadLetterWire}.
Context (owner : Z) (request : option EsBuf) (out_error : Out (option (list Z))).

Definition es_load_stream (out_events : Out (option (list Z))) : Handles StoreInner -> Response (option (list Z)) * Handles StoreInner :=
  data_call owner out_error (reset_buffer out_events) (returns (load_stream_body (decode_buffer request) (out_present out_events))).
Definition es_current_version (out_version : Out Z) : Handles StoreInner -> Response Z * Handles StoreInner :=
  data_call owner out_error (reset_version out_version) (returns (current_version_body (decode_buffer request) (out_present out_version))).
Definition es_commit : Handles StoreInner -> Response () * Handles StoreInner :=
  data_call owner out_error no_output (returns (commit_body request)).
Definition es_commit_with_job : Handles StoreInner -> Response () * Handles StoreInner :=
  data_call owner out_error no_output (returns (commit_with_job_body request)).
Definition es_snapshot_load (out_snapshot : Out (option (list Z))) : Handles StoreInner -> Response (option (list Z)) * Handles StoreInner :=
  data_call owner out_error (reset_buffer out_snapshot) (returns (snapshot_load_body (decode_buffer request) (out_present out_snapshot))).
Definition es_snapshot_store (out_version : Out Z) : Handles StoreInner -> Response Z * Handles StoreInner :=
  data_call owner out_error (reset_version out_version) (returns (snapshot_store_body (decode_buffer request) (out_present out_version))).
Definition es_snapshot_discard : Handles StoreInner -> Response () * Handles StoreInner :=
  data_call owner out_error no_output (returns (snapshot_discard_body (decode_buffer request))).
Definition es_schema_reconcile (out_reconciliation : Out Z) : Handles StoreInner -> Response Z * Handles StoreInner :=
  data_call owner out_error (reset_tag out_reconciliation) (returns (schema_reconcile_body (decode_schema_target request) (out_present out_reconciliation))).
Definition es_schema_record : Handles StoreInner -> Response () * Handles StoreInner :=
  data_call owner out_error no_output (returns (schema_record_body (decode_schema_target request))).
Definition es_job_enqueue : Handles StoreInner -> Response () * Handles StoreInner :=
  data_call owner out_error no_output (returns (job_enqueue_body (decode_buffer request))).
Definition es_job_poll (out_jobs : Out (option (list Z))) : Handles StoreInner -> Response (option (list Z)) * Handles StoreInner :=
  data_call owner out_error (reset_buffer out_jobs) (returns (job_poll_body (decode_buffer request) (out_present out_jobs))).
Definition es_job_claim (out_claim : Out (option (list Z))) (token : option ClaimToken) (worker_ulid claim_id : string) :
    Handles StoreInner -> Response (option (list Z)) * Handles StoreInner :=
  data_call owner out_error (reset_buffer out_claim)
    (returns (job_claim_body (decode_buffer request) (out_present out_claim) token worker_ulid claim_id)).
Definition es_job_renew (out_renewal : Out Z) : Handles StoreInner -> Response Z * Handles StoreInner :=
  data_call owner out_error (reset_tag out_renewal) (returns (job_renew_body (decode_buffer request) (out_present out_renewal))).
Definition es_job_ack (out_settlement : Out Z) : Handles StoreInner -> Response Z * Handles StoreInner :=
  data_call owner out_error (reset_tag out_settlement) (returns (job_ack_body (decode_buffer request) (out_present out_settlement))).
Definition es_job_retry (out_settlement : Out Z) : Handles StoreInner -> Response Z * Handles StoreInner :=
  data_call owner out_error (reset_tag out_settlement) (returns (job_retry_body (decode_buffer request) (out_present out_settlement))).
Definition es_job_defer (out_settlement : Out Z) : Handles StoreInner -> Response Z * Handles StoreInner :=
  data_call owner out_error (reset_tag out_settlement) (returns (job_defer_body (decode_buffer request) (out_present out_settlement))).
Definition es_job_dead_letter (out_settlement : Out Z) : Handles StoreInner -> Response Z * Handles StoreInner :=
  data_call owner out_error (reset_tag out_settlement) (returns (job_dead_letter_body (decode_buffer request) (out_present out_settlement))).
End bodies.

(** ** Opening a store *)

(** The durable job aggregate as an entity (job.rs). *)
Definition job_config : EntityConfig := mkEntityConfig JOB_AGGREGATE_TYPE 1 Retain 10.

Section open.
Context `{SerdeJson, Chrono, Ulid, CqrsLoad, SqlxOptions, CborCodec ErrorWire, CborCodec OpenWire}.
(** The runtime's threads, the connection pool and the migrations are [tokio]'s and
    [sqlx]'s. *)
Context (build_runtime : Z -> result IoError ()).
Context (connect_with : ConnectOptions -> Z -> Z -> result SqlxError World).
Context (run_migrations : M SqlxError ()).

(** [JobRuntime::build]: the startup of the job entity with its queue. *)
Definition job_runtime_build : M ReconcileError () :=
  build_projected (Entity := JobState) (Error := JobError) job_config JOB_QUEUE.

Definition migrate : M SqliteJobError () := lift_err JobSql run_migrations.

(** [raw] is the address the new store is allocated at. *)
Definition open_body (options : option EsBuf) (owner raw : Z) (h : Handles StoreInner) :
    result AbiError () * Handles StoreInner :=
  let options := decode_open_options options in
  if (owner =? 0)%Z then (Err (AbiState "out_store is null"), h)
  else
    let h := write_cell owner 0 h in
    let opened :=
      options ← options;
      _ ← map_err RuntimeError (build_runtime (opt_runtime_threads options));
      w ← map_err AbiSql (connect_with (opt_connect_options options) (opt_busy_timeout_ms options)
                            (opt_pool_size options));
      let '(migrated, w) := migrate w in
      _ ← map_err AbiMigration migrated;
      let '(jobs, w) := job_runtime_build w in
      _ ← map_err AbiJobStartup jobs;
      mret (mkInner w empty_registry) in
    match opened with
    | Ok inner => publish_store owner raw inner h
    | Err error => (Err error, h)
    end.

Definition es_open (options : option EsBuf) (owner raw : Z) (out_error : Out (option (list Z))) (h : Handles StoreInner) :
    Response () * Handles StoreInner :=
  let body h := let '(r, h) := open_body options owner raw h in (Some r, h) in
  let '(response, _, h) := ffi_call None out_error no_output body h in
  (response, h).
End open.
