(* ===== verification/FfiProps.v ===== *)
(** * Properties of the C ABI

    What a caller of the entry points of Ffi.v can rely on: every answer has a
    documented class and decodes, a commit is acknowledged exactly when the engine
    applied it and its bytes come back, a won claim is answered with its token or sent a
    dead letter, and a settlement spends its token exactly when it lands. *)

From S2P Require Import Prelude Json Sqlite EventTable Lifecycle Schema Job Engine EngineProps EnginePaging.
From S2P Require Import ViewRepository JobQueue JobQueueProps Repository SqliteEs SchemaRecovery JobHistory Dispatch Worker.
From S2P Require Import Abi ClaimRegistry StoreHandle Ffi.

(** ** Answers *)

(** The error classes of the ABI. *)
Definition error_classes : list Z :=
  [ES_ERR_DECODE; ES_ERR_CONFLICT; ES_ERR_JOB_REFUSAL; ES_ERR_STORAGE; ES_ERR_STATE;
   ES_ERR_RESOURCE_LIMIT; ES_ERR_PANIC].

Lemma code_class e : code e ∈ error_classes.
Proof. unfold error_classes. destruct e; simpl; set_solver. Qed.

Lemma error_class_not_ok c : c ∈ error_classes -> c <> ES_OK.
Proof. unfold error_classes, ES_OK. intros Hc ->. revert Hc. cbv. set_solver. Qed.

Section answers.
Context `{Ulid} `{CborLaws ErrorWire P}.
(** The error wires the codec reads back. *)
Context (HP : forall e, P (mkErrorWire 1 (code e) (error_detail e))).

(** What an answer looks like.  Success leaves no error in its cell; an error has a
    documented class, its output cell holds [cleared], and the error's cell holds nothing
    or bounded bytes that decode to the version, that class and a detail.  A null pointer
    is never written through: [out] and [out_error] are the cells before the call. *)
Definition well_formed_response {A} (cleared : A) (out : Out A) (out_error : Out (option (list Z))) (r : Response A) : Prop :=
  (resp_class r = ES_OK \/
   resp_class r ∈ error_classes /\ (out_present out = true -> resp_output r = cleared)) /\
  (out_present out_error = true ->
   match resp_error r with
   | None => True
   | Some bytes => (bytes_len bytes <= MAX_RESPONSE_BYTES)%Z /\ resp_class r <> ES_OK /\
       exists detail, from_reader_with_recursion_limit MAX_CBOR_DEPTH bytes = Ok (mkErrorWire 1 (resp_class r) detail)
   end) /\
  (out_present out = false -> resp_output r = out_content out) /\
  (out_present out_error = false -> resp_error r = out_content out_error).

(** [out'] is [out] reset to [cleared]. *)
Definition reset_to {A} (cleared : A) (out out' : Out A) : Prop := out' = write_out cleared out.

Lemma reset_content {A} (cleared : A) out out' : reset_to cleared out out' ->
  (out_present out = true -> out_content out' = cleared) /\ (out_present out = false -> out' = out) /\
  out_present out' = out_present out.
Proof. intros ->. unfold write_out. by destruct out as [[] a]. Qed.

Lemma write_error_well_formed {A} (cleared : A) out out' out_error e :
  reset_to cleared out out' -> well_formed_response cleared out out_error (write_error out_error out' e).
Proof.
  intros Hout%reset_content. destruct Hout as (Hset & Hnull & Hp). unfold write_error, well_formed_response; simpl.
  split; [right; split; [apply code_class|exact Hset]|]. split; [|split; [by intros ->%Hnull|]].
  2:{ destruct out_error as [[] x]; [done|]. intros _. destruct (into_writer _) as [bytes|]; [|done]. by case_match. }
  destruct out_error as [[] x]; [|done]. intros _.
  destruct (into_writer _) as [bytes|] eqn:Hw; [|done].
  destruct (Z.leb_spec (bytes_len bytes) MAX_RESPONSE_BYTES); [|done]. split; [done|].
  split; [apply error_class_not_ok, code_class|]. exists (error_detail e).
  unfold into_writer in Hw. destruct (chunks_of _) as [chunks|] eqn:Hc; [|done]. injection Hw as <-.
  by apply from_reader_into_writer.
Qed.

Lemma success_well_formed {A} (cleared a : A) out out' out_error :
  reset_to cleared out out' ->
  well_formed_response cleared out out_error
    (mkResponse ES_OK (out_content (write_out a out')) (out_content (reset_buffer out_error))).
Proof.
  intros Hout%reset_content. destruct Hout as (_ & Hnull & _). unfold well_formed_response, reset_buffer, write_out; simpl.
  split; [by left|]. split; [by intros ->|]. split; [|by intros ->].
  intros Ha. specialize (Hnull Ha). subst. by rewrite Ha.
Qed.

(** No call is left holding a lease. *)
Definition counts_ok (h : Handles StoreInner) : Prop :=
  forall raw s n, stores h !! raw = Some s -> store_state s = Open n -> (0 <= n)%Z.

(** What a call may change of a store: its contents, and the poison flag only from
    unset to set. *)
Definition same_lifecycle (s s' : EsStore StoreInner) : Prop :=
  store_state s' = store_state s /\ (store_poisoned s = true -> s' = s).

Lemma release_acquired s inner n p :
  (0 <= n)%Z -> store_state s = Open n -> store_inner s = Some inner -> (store_poisoned s = true -> p = true) ->
  forall inner', (store_poisoned s = true -> inner' = inner) ->
  same_lifecycle s (drop_lease (mkEsStore (Open (n + 1)) (Some inner') p)).
Proof.
  intros Hn Hs Hi Hp inner' Hinner. unfold drop_lease; cbn [store_state].
  rewrite (proj2 (Z.leb_le 0 (n + 1 - 1))) by lia. replace (n + 1 - 1)%Z with n by lia.
  split; [done|]. intros Hpo. rewrite (Hp Hpo), (Hinner Hpo). destruct s; simpl in *; subst. done.
Qed.

Lemma acquire_Err owner h e h' :
  acquire_store (Inner := StoreInner) owner h = (Err e, h') -> h' = h.
Proof.
  unfold acquire_store. repeat case_match; try done; by intros [=].
Qed.

(** A call whose answer is documented and which leaves the handles as it found them: the
    owner cells, the registry and every other store untouched, the store's own lifecycle
    state, the count of active calls included, restored, and a poisoned store not
    touched at all. *)
Definition documented {A} (owner : Z) (cleared : A) (out : Out A) (out_error : Out (option (list Z)))
    (h : Handles StoreInner) (answer : Response A * Handles StoreInner) : Prop :=
  let '(r, h') := answer in
  well_formed_response cleared out out_error r /\ cells h' = cells h /\ registry h' = registry h /\
  (forall raw s, stores h !! raw = Some s -> exists s', stores h' !! raw = Some s' /\ same_lifecycle s s' /\
     (registry h !! owner <> Some raw -> s' = s)).

(** Any body, panicking or not. *)
Lemma data_call_documented {A} owner out_error (cleared : A) out out' body h :
  reset_to cleared out out' -> counts_ok h ->
  documented owner cleared out out_error h (data_call owner out_error out' body h).
Proof.
  intros Hreset Hc. unfold data_call, documented. destruct (acquire_store owner h) as [[[raw inner]|e] h1] eqn:Ha.
  2:{ apply acquire_Err in Ha as ->. split_and!; try done; [by apply write_error_well_formed|].
      intros raw s Hs. by exists s. }
  apply acquire_Ok in Ha as (s & n & Hs & Hst & Hi & Hown & _ & _ & ->). simpl.
  rewrite lookup_insert_eq. cbn [fmap option_fmap option_map default set_state store_poisoned].
  destruct (ffi_call _ _ _ _ _) as [[r p] inner'] eqn:Hf.
  assert (well_formed_response cleared out out_error r /\ (store_poisoned s = true -> p = true) /\
          (store_poisoned s = true -> inner' = inner)) as (Hr & Hp & Hin).
  { revert Hf. unfold ffi_call. simpl. destruct (store_poisoned s).
    - intros [= <- <- <-]. split; [by apply write_error_well_formed|done].
    - destruct (body inner) as [[[a|e]|] s1]; intros [= <- <- <-]; (split; [|by split]);
        by (apply write_error_well_formed || apply success_well_formed). }
  split; [done|]. split; [done|]. split; [done|]. intros raw' s0 Hs0. cbn [stores].
  destruct (decide (raw' = raw)) as [->|Hne].
  - rewrite lookup_alter_eq, lookup_insert_eq. simpl. rewrite Hs in Hs0. injection Hs0 as <-.
    eexists. split; [done|]. split.
    + eapply release_acquired; eauto.
    + intros Hreg. by destruct (Hreg Hown).
  - rewrite lookup_alter_ne, lookup_insert_ne by done. exists s0. split_and!; done.
Qed.
End answers.

(** ** Every entry point *)

Section entry_points.
Context `{SerdeJson, Chrono, Ulid, SqliteJson, TableScan, CqrsLoad, HashOrder}.
Context `{CborLaws ErrorWire P, CborCodec StoredEventWire, CborCodec StoredSnapshotWire, CborCodec JobsWire}.
Context `{CborCodec JobClaimWire, CommitCodec}.
Context `{CborCodec LoadStreamWire, CborCodec StreamWire, CborCodec SnapshotStoreWire, CborCodec SchemaWire}.
Context `{CborCodec JobEnqueueWire, CborCodec JobPollWire, CborCodec JobClaimRequest, CborCodec JobRenewWire}.
Context `{CborCodec JobAckWire, CborCodec JobRetryWire, CborCodec JobDeferWire, CborCodec JobDeadLetterWire}.
Context `{SqlxOptions, CborCodec OpenWire}.
Context (HP : forall e, P (mkErrorWire 1 (code e) (error_detail e))).
Context (send : JobId -> JobCommand -> M SendErr ()).
Context (build_runtime : Z -> result IoError ()) (connect_with : ConnectOptions -> Z -> Z -> result SqlxError World).
Context (run_migrations : M SqlxError ()).

Abbreviation Call A := (Handles StoreInner -> Response A * Handles StoreInner).

Section calls.
Context (owner : Z) (request : option EsBuf) (out_error : Out (option (list Z))).

(** The calls that answer a buffer, those that answer a version or a tag, and those that
    answer nothing. *)
Definition buffer_calls (token : option ClaimToken) (worker_ulid claim_id : string) (out : Out (option (list Z))) :
    list (Call (option (list Z))) :=
  [es_load_stream owner request out_error out; es_snapshot_load owner request out_error out;
   es_job_poll owner request out_error out; es_job_claim send owner request out_error out token worker_ulid claim_id].

Definition number_calls (out : Out Z) : list (Call Z) :=
  [es_current_version owner request out_error out; es_snapshot_store owner request out_error out;
   es_schema_reconcile owner request out_error out; es_job_renew owner request out_error out;
   es_job_ack send owner request out_error out; es_job_retry send owner request out_error out;
   es_job_defer send owner request out_error out; es_job_dead_letter send owner request out_error out].

Definition plain_calls : list (Call ()) :=
  [es_commit owner request out_error; es_commit_with_job owner request out_error;
   es_snapshot_discard owner request out_error; es_schema_record owner request out_error;
   es_job_enqueue owner request out_error].
End calls.

(** C37: whatever a data entry point does, its answer is one the ABI documents and it
    leaves the handles as it found them.  Whatever the output cells held before the call
    and whatever the request: a success class comes with no error in its cell; any other
    class is one of the seven documented ones, the output cell holds its cleared value
    (no buffer, zero), whatever it held before, and the error's cell holds nothing or
    bytes that fit the response limit and decode to exactly that class; null outputs are
    not written through.  The owner cells, the registry and every other store are
    untouched; the store's own lifecycle state, the count of active calls included, is
    restored, and a poisoned store is not touched at all.  The same holds of what
    [es_open] answers; when it fails no store is registered and its cell is null. *)
Theorem response_well_formed owner request out_error buffer number token worker_ulid claim_id raw h :
  counts_ok h ->
  Forall (fun call => documented owner None buffer out_error h (call h))
    (buffer_calls owner request out_error token worker_ulid claim_id buffer) /\
  Forall (fun call => documented owner 0%Z number out_error h (call h)) (number_calls owner request out_error number) /\
  Forall (fun call => documented owner () no_output out_error h (call h)) (plain_calls owner request out_error) /\
  let '(r, h') := es_open build_runtime connect_with run_migrations request owner raw out_error h in
  well_formed_response () no_output out_error r /\
  (resp_class r <> ES_OK -> registry h' = registry h /\ stores h' = stores h /\ (owner <> 0%Z -> read_cell owner h' = 0%Z)).
Proof.
  intros Hc. split; [|split; [|split]].
  1-3: repeat (apply Forall_cons; split; [by apply data_call_documented|]); by apply Forall_nil.
  unfold es_open, ffi_call. cbn [default].
  assert (forall r h', open_body build_runtime connect_with run_migrations request owner raw h = (Err r, h') ->
    registry h' = registry h /\ stores h' = stores h /\ (owner <> 0%Z -> read_cell owner h' = 0%Z)) as Hfail.
  { intros e h'. unfold open_body. destruct (Z.eqb_spec owner 0) as [->|Hne]; [by intros [= _ <-]|].
    assert (read_cell owner (write_cell owner 0 h) = 0%Z) as Hcell by (unfold read_cell; cbn; by rewrite lookup_insert_eq).
    cbv zeta. match goal with |- match ?x with _ => _ end = _ -> _ => destruct x as [inner|e'] end;
      [|intros [= _ <-]; by split_and!]. unfold publish_store. cbn [registry write_cell].
    destruct (registry h !! owner); [intros [= _ <-]; by split_and!|done]. }
  destruct (open_body build_runtime connect_with run_migrations request owner raw h) as [[[]|e] h'].
  - split; [by apply success_well_formed|]. intros Hcl. by destruct Hcl.
  - split; [by apply write_error_well_formed|]. intros _. by eapply Hfail.
Qed.
End entry_points.

(** ** Commits *)

(** Sequencing in the body of a call. *)
Lemma bind_check {A B} (r : result AbiError A) (f : A -> F B) s :
  (check r ≫= f) s = match r with Ok a => f a s | Err e => (Err e, s) end.
Proof. by destruct r. Qed.

Lemma bind_require {B} null (f : () -> F B) s : (require_output true null ≫= f) s = f () s.
Proof. done. Qed.

Lemma block_on_world {E A} (from : E -> AbiError) (m : M E A) s Q :
  wp true m (w_db (si_world s)) Q ->
  exists r, (block_on from m s).1 = map_err from r /\ Q r (w_db (si_world (block_on from m s).2)).
Proof.
  intros Hw%wp_world. unfold block_on. destruct (m (si_world s)) as [r w]. by exists r.
Qed.

Abbreviation db_of s := (w_db (si_world s)).

Section commits.
Context `{SerdeJsonLaws, Chrono, Ulid}.


(** The request a validated batch becomes. *)
Definition request_of (parts : CommitParts) (job : option EnqueueRequest) : OpaqueCommitRequest :=
  mkOpaqueCommit (mkStream (cp_aggregate_type parts) (cp_aggregate_id parts)) (cp_expected_sequence parts)
    (cp_events parts) (option_list job).

(** What an acknowledged commit did. *)
Definition commit_applied (request : OpaqueCommitRequest) (db db' : Db) : Prop :=
  exists serialized,
    let commit := mkCommit (ocr_stream request) (Some (ocr_expected_version request)) serialized None (ocr_jobs request) in
    collect_from (opaque_event (ocr_stream request) (ocr_expected_version request)) 0 (ocr_events request) =
      Ok serialized /\ accepted commit db /\ db' = committed commit db.

Lemma opaque_events_total stream v events i :
  (0 <= v)%Z -> (0 <= i)%Z -> (v + i + Z.of_nat (length events) <= usize_max)%Z ->
  exists serialized, collect_from (opaque_event stream v) i events = Ok serialized /\
    Forall (fun e => matches stream e = true) serialized.
Proof.
  intros Hv. revert i. induction events as [|x l IH]; intros i Hi Hl; [by exists []|].
  cbn [collect_from length] in *. unfold opaque_event at 1, sequence_at, usize_checked_add.
  replace (in_usize (v + i)) with true by (symmetry; range). cbn [mbind option_bind].
  replace (in_usize (v + i + 1)) with true by (symmetry; range). cbn [ok_or mbind result_bind mret result_ret].
  destruct (IH (i + 1)%Z ltac:(lia) ltac:(lia)) as (ys & -> & Hys). eexists. split; [done|].
  constructor; [|done]. unfold matches; simpl. by rewrite !String.eqb_refl.
Qed.

(** A commit stale by version. *)
Lemma commit_stale b request db :
  (0 <= ocr_expected_version request)%Z ->
  (ocr_expected_version request + Z.of_nat (length (ocr_events request)) <= usize_max)%Z ->
  in_usize (committed_version (ocr_stream request) db) = true ->
  committed_version (ocr_stream request) db <> ocr_expected_version request ->
  wp b (commit_opaque request) db (fun r db' => (b = false -> r = Err OptimisticLock) /\ is_ok r = false /\ db' = db).
Proof.
  destruct request as [stream v events jobs]. cbn [ocr_stream ocr_expected_version ocr_events ocr_jobs].
  intros Hv Hmax Hu Hne. destruct (opaque_events_total stream v events 0) as (serialized & Hs & Hm); [lia..|].
  unfold commit_opaque. wp_step. wp_step. rewrite Hs. unfold commit_serialized. cbn [with_jobs at_expected_version new_commit cr_stream cr_expected_version cr_events cr_snapshot cr_jobs].
  wp_step. wp_step. apply validate_event_stream_Ok in Hm. rewrite Hm. cbn [from_option].
  destruct (negb _); [by wp_step|]. wp_step; [by intros ->|]. wp_step. unfold check_version. wp_step.
  apply wp_committed_stream_version; [by intros ->|]. unfold usize_try_from. rewrite Hu. simpl.
  rewrite (proj2 (Z.eqb_neq _ _)) by done. by wp_step.
Qed.

Lemma wp_current_version b stream db :
  wp b (current_version stream) db (fun r db' => db' = db /\
    (forall v, r = Ok v -> v = committed_version stream db) /\
    (b = false -> in_usize (committed_version stream db) = true -> r = Ok (committed_version stream db))).
Proof.
  unfold current_version. wp_step. wp_step; wp_step; simpl; [by intros ->|].
  apply wp_committed_stream_version; [by intros ->|]. unfold usize_try_from.
  destruct (in_usize _); simpl; [|done]. split_and!; [done| |done]. by intros v [= <-].
Qed.

Lemma engine_error_not_conflict e t id v actual : abi_of_engine_error e <> AbiConflict t id v actual.
Proof. unfold abi_of_engine_error. repeat case_match; congruence. Qed.

(** Reading back the version that made a commit stale. *)
Lemma conflict_answer stream t id expected s :
  let '(r, s') := (actual ← block_on abi_of_engine_error (current_version stream);
                   actual ← check (map_err StorageInteger (u64_try_from actual));
                   raise (A := ()) (AbiConflict t id expected actual)) s in
  si_claims s' = si_claims s /\ db_of s' = db_of s /\ is_ok r = false /\
  (forall t' id' v actual, r = Err (AbiConflict t' id' v actual) ->
     t' = t /\ id' = id /\ v = expected /\ actual = committed_version stream (db_of s)) /\
  (w_faults (si_world s) = [] -> in_usize (committed_version stream (db_of s)) = true ->
   r = Err (AbiConflict t id expected (committed_version stream (db_of s)))).
Proof.
  destruct s as [[db fs] c]. unfold mbind, F_bind, block_on; simpl.
  pose proof (wp_current_version true stream db fs ltac:(done)) as Ht.
  assert (fs = [] -> in_usize (committed_version stream db) = true ->
          (current_version stream (mkWorld db fs)).1 = Ok (committed_version stream db)) as Hf.
  { intros ->. pose proof (wp_current_version false stream db [] ltac:(done)) as Hw.
    destruct (current_version _ _) as [r w]. simpl. intros Hu. by apply Hw. }
  destruct (current_version stream (mkWorld db fs)) as [[v|e] w]; simpl in *.
  - destruct Ht as (_ & Hdb & Hv & _). rewrite (Hv v eq_refl) in *. unfold check, u64_try_from.
    destruct (in_u64 _) eqn:Hu; simpl; rewrite ?Hdb; split_and!; try done.
    + by intros ???? [= -> -> -> ->].
    + intros _ Hz. exfalso. revert Hu. apply not_false_iff_true. range.
  - destruct Ht as (_ & Hdb & _). split_and!; try done.
    + intros t' id' v' a [= Hx]. by apply engine_error_not_conflict in Hx.
    + intros Hfs Hu. by specialize (Hf Hfs Hu).
Qed.

Lemma collect_require events events' :
  collect (fun event => _ ← require_payload_limit (bytes_len (pw_payload event));
             mret (mkProposed (pw_event_type event) (pw_event_version event) (pw_payload event))) events = Ok events' ->
  events' = (fun e => mkProposed (pw_event_type e) (pw_event_version e) (pw_payload e)) <$> events /\
  Forall (fun e => (bytes_len (pw_payload e) <= MAX_PAYLOAD_BYTES)%Z) events.
Proof.
  rewrite collect_Ok. induction 1 as [|x y l k Hxy _ [-> IH]]; [done|].
  apply bind_Ok in Hxy as ([] & Hr & [= <-]). split; [done|]. constructor; [|done].
  unfold require_payload_limit, require_limit in Hr. destruct (Z.leb_spec (bytes_len (pw_payload x)) MAX_PAYLOAD_BYTES); done.
Qed.

(** The validated batch: the wire's events, between one and the limit. *)
Lemma commit_parts_Ok version t id expected events parts :
  commit_parts version t id expected events = Ok parts ->
  version = 1%Z /\ parts = mkCommitParts t id expected
    ((fun e => mkProposed (pw_event_type e) (pw_event_version e) (pw_payload e)) <$> ce_values events) /\
  (0 <= expected)%Z /\ (expected + Z.of_nat (length (ce_values events)) <= usize_max)%Z /\
  ce_values events <> [] /\ (ce_observed events <= MAX_COMMIT_EVENTS)%Z /\
  Forall (fun e => (bytes_len (pw_payload e) <= MAX_PAYLOAD_BYTES)%Z) (ce_values events).
Proof.
  unfold commit_parts. intros Hb. apply bind_Ok in Hb as ([] & Hver & Hb). apply bind_Ok in Hb as ([] & _ & Hb).
  apply bind_Ok in Hb as ([] & _ & Hb). apply bind_Ok in Hb as ([] & Hcount & Hb).
  destruct (Nat.eqb_spec (length (ce_values events)) 0) as [|Hne]; [done|].
  apply bind_Ok in Hb as (e' & Hu & Hb). rewrite map_err_Ok in Hu.
  apply bind_Ok in Hb as (n & Hn & Hb). rewrite ok_or_Ok in Hn. apply usize_checked_add_Some in Hn as [-> Hn].
  apply bind_Ok in Hb as (evs & Hevs & [= <-]). apply collect_require in Hevs as [-> Hpay].
  unfold usize_try_from in Hu. destruct (in_usize expected) eqn:Hue; [|done]. injection Hu as <-.
  unfold require_version in Hver. destruct (Z.eqb_spec version 1) as [->|]; [|done].
  unfold require_commit_event_count, require_limit in Hcount.
  destruct (Z.leb_spec (ce_observed events) MAX_COMMIT_EVENTS); [|done].
  split_and!; try done; [range|range|]. intros Hnil. apply Hne. by rewrite Hnil.
Qed.

(** C23: a commit call tells the truth.  Under every fault schedule it answers success
    exactly when the engine applied the whole batch, with its job, at the expected
    version; any error leaves the database untouched; and a reported conflict names
    the requested stream and version and the version the stream is really at.
    Without faults, a stale expected version is always answered by that conflict. *)
Theorem commit_answer_exact version t id expected events parts job s :
  commit_parts version t id expected events = Ok parts ->
  let stream := mkStream t id in
  let '(r, s') := commit_result parts expected job s in
  si_claims s' = si_claims s /\
  (r = Ok () -> commit_applied (request_of parts job) (db_of s) (db_of s')) /\
  (is_ok r = false -> db_of s' = db_of s) /\
  (forall t' id' v actual, r = Err (AbiConflict t' id' v actual) ->
     t' = t /\ id' = id /\ v = expected /\ actual = committed_version stream (db_of s)) /\
  (w_faults (si_world s) = [] -> in_usize (committed_version stream (db_of s)) = true ->
   committed_version stream (db_of s) <> expected ->
   r = Err (AbiConflict t id expected (committed_version stream (db_of s)))).
Proof.
  intros Hp. apply commit_parts_Ok in Hp as (_ & -> & He & Hmax & _). cbv zeta.
  unfold commit_result. cbn [cp_aggregate_type cp_aggregate_id cp_expected_sequence cp_events].
  set (request := request_of _ job).
  change (mkOpaqueCommit _ _ _ _) with request.
  destruct s as [[db fs] c]; cbn [si_world si_claims w_db w_faults].
  pose proof (wp_commit_opaque true request db fs ltac:(done)) as Hw.
  assert (fs = [] -> in_usize (committed_version (mkStream t id) db) = true ->
    committed_version (mkStream t id) db <> expected ->
    (commit_opaque request (mkWorld db fs)).1 = Err OptimisticLock /\
    w_faults (commit_opaque request (mkWorld db fs)).2 = []) as Hstale.
  { intros -> Hu Hne. pose proof (commit_stale false request db He) as Hs.
    cbn [request request_of ocr_events ocr_expected_version ocr_stream cp_events cp_aggregate_type cp_aggregate_id cp_expected_sequence] in Hs.
    rewrite length_fmap in Hs. specialize (Hs Hmax Hu Hne [] ltac:(done)).
    destruct (commit_opaque request _) as [r w]. simpl. naive_solver. }
  destruct (commit_opaque request (mkWorld db fs)) as [[[]|e] [db' fs']]; cbn [w_db w_faults fst snd] in *.
  - destruct Hw as (_ & _ & Hok). cbn [si_claims si_world w_db]. split_and!; try done.
    + intros _. by apply Hok.
    + intros Hfs Hu Hne. by destruct (Hstale Hfs Hu Hne).
  - destruct Hw as (_ & Herr & _). specialize (Herr eq_refl). subst db'.
    destruct (decide (e = OptimisticLock)) as [->|Hne].
    + pose proof (conflict_answer (mkStream t id) t id expected (mkInner (mkWorld db fs') c)) as Hc.
      lazymatch type of Hc with match ?x with (_, _) => _ end => destruct x as [r s'] end. cbn [si_world si_claims w_db w_faults] in Hc.
      destruct Hc as (-> & -> & Hnok & Hconf & Hclean). split_and!; try done.
      * intros ->. done.
      * intros Hfs Hu Hv. apply Hclean; [|done]. by apply (Hstale Hfs Hu Hv).
    + assert (forall A (x y : A), match e with OptimisticLock => x | _ => y end = y) as Hm by (by destruct e).
      rewrite Hm. cbn [si_world si_claims w_db]. split_and!; try done.
      * intros ???? [= Hx]. by apply engine_error_not_conflict in Hx.
      * intros Hfs Hu Hv. destruct (Hstale Hfs Hu Hv) as [[= ->] _]. done.
Qed.
End commits.

(** ** Pages *)

Section pages.
Context `{SerdeJsonLaws, Chrono, Ulid, CborCodec StoredEventWire, CommitCodec}.

Definition wire_of (e : OpaqueStoredEvent) : StoredEventWire :=
  mkStoredEventWire (stored_sequence e) (stored_event_type e) (stored_event_version e) (stored_payload e).

(** The events the ABI can answer with. *)
Definition transferable (e : OpaqueStoredEvent) : Prop :=
  in_u64 (stored_sequence e) = true /\ (bytes_len (stored_payload e) <= MAX_PAYLOAD_BYTES)%Z.

Lemma event_to_wire_Ok e : transferable e -> event_to_wire e = Ok (wire_of e).
Proof.
  destruct e as [sequence ty v payload]. intros [Hu Hp]; simpl in *.
  unfold require_payload_limit, require_limit, u64_try_from. rewrite (proj2 (Z.leb_le _ _)) by done. simpl. by rewrite Hu.
Qed.

Lemma write_bytes_Ok bytes w :
  overflow_observed w = None -> (Z.of_nat (length (writer_bytes w) + length bytes) <= MAX_RESPONSE_BYTES)%Z ->
  write_bytes bytes w = Ok (mkWriter (writer_bytes w ++ bytes) None).
Proof.
  intros Ho Hl. unfold write_bytes, writer_write, usize_checked_add.
  replace (in_usize _) with true by (symmetry; unfold MAX_RESPONSE_BYTES in Hl; range). cbn [default].
  by rewrite (proj2 (Z.ltb_ge _ _)), Ho by lia.
Qed.

Lemma write_value_Ok wire chunks w :
  chunks_of wire = Ok chunks -> overflow_observed w = None ->
  (Z.of_nat (length (writer_bytes w) + length (concat chunks)) <= MAX_RESPONSE_BYTES)%Z ->
  write_value wire w = Ok (mkWriter (writer_bytes w ++ concat chunks) None).
Proof.
  intros Hc Ho Hl. unfold write_value. rewrite Hc. pose proof (write_chunks_spec chunks w ltac:(lia) Ho) as Hw.
  destruct (write_chunks chunks w) as [[[]|e] w'].
  - destruct Hw as (Hb & Ho' & _). destruct w' as [bytes o]; simpl in *. by subst.
  - lia.
Qed.

Lemma write_events_Ok events encodings w :
  Forall transferable events -> Forall2 (fun e c => chunks_of (wire_of e) = Ok c) events encodings ->
  overflow_observed w = None ->
  (Z.of_nat (length (writer_bytes w) + length (concat (concat encodings))) <= MAX_RESPONSE_BYTES)%Z ->
  write_events events w = Ok (mkWriter (writer_bytes w ++ concat (concat encodings)) None).
Proof.
  intros Ht He. revert w. induction He as [|e c events encodings Hc _ IH]; intros w Ho Hl; simpl.
  { rewrite app_nil_r. destruct w as [bytes o]; simpl in *. by subst. }
  apply Forall_cons in Ht as [Hte Ht]. rewrite event_to_wire_Ok by done. cbn [mbind result_bind].
  simpl in Hl. rewrite concat_app, length_app in Hl.
  rewrite (write_value_Ok _ c) by (done || lia). cbn [mbind result_bind].
  rewrite IH by (simpl; rewrite ?length_app; done || lia). simpl. by rewrite concat_app, (assoc_L (++)).
Qed.

(** The bytes of a page: a two-element array of the version and the events. *)
Definition page_layout (header : list Z) (encodings : list (list (list Z))) : list Z :=
  [0x82; 0x01]%Z ++ header ++ concat (concat encodings).

Lemma encode_event_page_Ok events encodings header :
  Forall transferable events -> Forall2 (fun e c => chunks_of (wire_of e) = Ok c) events encodings ->
  array_header (Z.of_nat (length events)) = Ok header ->
  (bytes_len (page_layout header encodings) <= MAX_RESPONSE_BYTES)%Z ->
  encode_event_page events = Ok (page_layout header encodings).
Proof.
  intros Ht He Hh Hl. unfold bytes_len, page_layout in Hl. rewrite !length_app in Hl. simpl in Hl.
  unfold encode_event_page. rewrite write_bytes_Ok by (unfold MAX_RESPONSE_BYTES; simpl; done || lia). cbn [mbind result_bind].
  unfold write_array_header. rewrite Hh. cbn [mbind result_bind].
  rewrite write_bytes_Ok by (simpl; done || lia). cbn [mbind result_bind].
  by rewrite (write_events_Ok _ encodings) by (simpl; rewrite ?length_app; done || lia).
Qed.

(** The events of a commit request as a later page gives them back. *)
Definition returned (expected : Z) (events : list ProposedEventWire) : list OpaqueStoredEvent :=
  stored_from (expected + 1)
    ((fun e => mkProposed (pw_event_type e) (pw_event_version e) (pw_payload e)) <$> events).

Lemma returned_length expected events : length (returned expected events) = length events.
Proof.
  unfold returned. generalize (expected + 1)%Z. induction events as [|e l IH]; intros n; [done|]. simpl. by rewrite IH.
Qed.

Lemma returned_transferable expected events :
  (0 <= expected)%Z -> (expected + Z.of_nat (length events) <= usize_max)%Z ->
  Forall (fun e => (bytes_len (pw_payload e) <= MAX_PAYLOAD_BYTES)%Z) events ->
  Forall transferable (returned expected events).
Proof.
  unfold returned. intros He Hl Hp. revert expected He Hl. induction Hp as [|e l Hpay _ IH]; intros v He Hl; [constructor|].
  cbn [fmap list_fmap stored_from length] in *. constructor; [split; [simpl; range|done]|].
  apply IH; lia.
Qed.

(** A run of a body that succeeded in committing. *)
Lemma commit_result_Ok parts expected job s s' :
  w_faults (si_world s) = [] -> commit_result parts expected job s = (Ok (), s') ->
  exists db', run (commit_opaque (request_of parts job)) (db_of s) = (Ok (), db') /\
    s' = mkInner (mkWorld db' []) (si_claims s).
Proof.
  destruct parts as [t id v events], s as [[db fs] c]. cbn [si_world si_claims w_faults w_db]. intros -> Hr.
  unfold commit_result in Hr. cbn [si_world si_claims] in Hr.
  pose proof (wp_commit_opaque false (request_of (mkCommitParts t id v events) job) db [] ltac:(done)) as Hw.
  unfold run. change (mkOpaqueCommit _ _ _ _) with (request_of (mkCommitParts t id v events) job) in Hr.
  destruct (commit_opaque _ _) as [[[]|e] [db' fs']]; cbn [w_db w_faults] in *.
  - injection Hr as <-. exists db'. split; [done|]. destruct Hw as [Hf _]. by rewrite (Hf eq_refl).
  - pose proof (conflict_answer (mkStream t id) t id expected (mkInner (mkWorld db' fs') c)) as Hc.
    destruct e; try done. lazymatch type of Hc with match ?x with (_, _) => _ end => destruct x as [r s1] end.
    injection Hr as -> ->. by destruct Hc as (_ & _ & ? & _).
Qed.

Lemma load_stream_valid t id v s :
  require_identifiers 1 t id = Ok () -> in_usize v = true ->
  load_stream_body (Ok (mkLoadStreamWire 1 t id (Some v))) true s =
    (events ← block_on abi_of_engine_error
                (load_opaque_events_page_bounded (mkStream t id) (Some v) (Z.to_pos MAX_LIST_ITEMS)
                   (Z.to_pos MAX_STORED_EVENT_PAGE_BYTES));
     page ← check (encode_event_page events);
     mret (Some page)) s.
Proof.
  intros Hids Hv. unfold load_stream_body. cbn [require_output]. unfold mbind at 1, F_bind at 1, mret at 1, F_ret at 1.
  rewrite bind_check, bind_check, Hids, bind_check. unfold usize_try_from. rewrite Hv. done.
Qed.

(** C21: what a caller commits through the ABI is what it loads.  After [es_commit] of a
    well-formed request succeeds, [es_load_stream] from the committed version answers
    a page of exactly these bytes: the two-element array, the version, the array
    header of the batch, and for each event in order the encoding of its sequence
    (counting up from the expected version), its type, its version and its payload,
    bit for bit, nothing more. *)
Theorem abi_round_trip request t id expected events s s' encodings header :
  decode_validated (fun wire => require_commit_event_count (ce_observed (cw_events wire))) request =
    Ok (mkCommitWire 1 t id expected events) ->
  ce_observed events = Z.of_nat (length (ce_values events)) ->
  Forall (fun e => is_bytes (pw_payload e)) (ce_values events) ->
  t <> JOB_AGGREGATE_TYPE -> well_formed (db_of s) -> w_faults (si_world s) = [] ->
  commit_body request s = (Ok (), s') ->
  let page := select_page (mkStream t id) (Some expected) MAX_LIST_ITEMS (db_of s') in
  (page_bytes page <= MAX_STORED_EVENT_PAGE_BYTES)%Z ->
  Forall2 (fun e c => chunks_of (wire_of e) = Ok c) (returned expected (ce_values events)) encodings ->
  array_header (Z.of_nat (length (ce_values events))) = Ok header ->
  (bytes_len (page_layout header encodings) <= MAX_RESPONSE_BYTES)%Z ->
  let loaded := load_stream_body (Ok (mkLoadStreamWire 1 t id (Some expected))) true s' in
  loaded.1 = Ok (Some (page_layout header encodings)) /\ db_of loaded.2 = db_of s'.
Proof.
  intros Hdec Hobs Hbytes Ht Hwf Hf Hc page Hpage Henc Hhead Hlen.
  unfold commit_body in Hc. rewrite bind_check, Hdec, bind_check in Hc.
  destruct (commit_parts 1 t id expected events) as [parts|] eqn:Hparts; [|done].
  pose proof Hparts as Hids. unfold commit_parts in Hids. apply bind_Ok in Hids as ([] & _ & Hids).
  apply bind_Ok in Hids as ([] & Hid1 & Hids). apply bind_Ok in Hids as ([] & Hid2 & _).
  apply commit_parts_Ok in Hparts as (_ & -> & He & Hmax & _ & Hcount & Hpay). rewrite Hobs in Hcount.
  apply commit_result_Ok in Hc as (db' & Hrun & ->); [|done].
  apply run_commit_opaque_Ok in Hrun as (serialized & Hser & Hacc & ->).
  cbv zeta. rewrite load_stream_valid.
  2:{ unfold require_identifiers. cbn [require_version Z.eqb Pos.eqb mbind result_bind]. rewrite Hid1. done. }
  2:{ range. }
  unfold mbind, F_bind, block_on. cbn [si_world si_claims].
  set (stored := (fun e => _) <$> ce_values events) in *.
  change (option_list None) with (@nil EnqueueRequest) in *.
  pose proof (opaque_page_committed (mkStream t id) expected stored [] serialized (db_of s)
     (Z.to_pos MAX_LIST_ITEMS) (Z.to_pos MAX_STORED_EVENT_PAGE_BYTES) Hwf Ht) as Hload.
  change (Zpos (Z.to_pos MAX_LIST_ITEMS)) with MAX_LIST_ITEMS in Hload.
  change (Zpos (Z.to_pos MAX_STORED_EVENT_PAGE_BYTES)) with MAX_STORED_EVENT_PAGE_BYTES in Hload.
  assert (length stored = length (ce_values events)) as Hls by apply length_fmap.
  unfold run in Hload. cbv zeta in Hload.
  specialize (Hload ltac:(by apply Forall_fmap) Hser Hacc eq_refl).
  specialize (Hload ltac:(unfold MAX_COMMIT_EVENTS, MAX_LIST_ITEMS in *; lia) Hpage).
  pose proof (page_bytes_nonneg page) as Hnn.
  assert (in_i64 (page_bytes page) = true) as Hi64.
  { unfold MAX_STORED_EVENT_PAGE_BYTES, MAX_RESPONSE_BYTES, MAX_REQUEST_BYTES in Hpage. range. }
  specialize (Hload Hi64).
  lazymatch goal with |- context [load_opaque_events_page_bounded ?a ?b ?c ?d ?w] =>
    change (load_opaque_events_page_bounded a b c d w) with
      (load_opaque_events_page_bounded (mkStream t id) (Some expected) c d (mkWorld (committed
         (mkCommit (mkStream t id) (Some expected) serialized None []) (db_of s)) [])) end.
  destruct (load_opaque_events_page_bounded _ _ _ _ _) as [r w]. injection Hload as -> Hdb. cbn [map_err check].
  change (stored_from _ _) with (returned expected (ce_values events)).
  rewrite (encode_event_page_Ok _ encodings header); [by split|..|done]; [|done|by rewrite returned_length].
  by apply returned_transferable.
Qed.
End pages.

(** ** Claims *)

Section claims.
Context `{SerdeJson, Chrono, Ulid, SqliteJson, TableScan, HashOrder, HashOrderLaws} `{CborCodec JobClaimWire}.
Context (send : JobId -> JobCommand -> M SendErr ()).
(** Claim answers encode, with a bounded overhead around the payload. *)
Context (Hcompact : forall outcome token attempt prior payload, exists chunks,
  chunks_of (mkJobClaimWire 1 outcome token attempt prior payload) = Ok chunks /\
  (Z.of_nat (length (concat chunks)) <= 1024 + from_option bytes_len 0 payload)%Z).

Definition claims_ok (c : ClaimRegistry) : Prop :=
  (0 <= reservations c)%Z /\ (Z.of_nat (size (retained c)) + reservations c <= MAX_ACTIVE_CLAIMS)%Z.

(** The call answers exactly the encoding of [wire]. *)
Definition answers (wire : JobClaimWire) (r : result AbiError (option (list Z))) : Prop :=
  exists response, into_writer wire = Ok response /\ r = Ok (Some response).

(** The product a won claim is answered with: its token, its attempt, whether the job was
    executed before, and its payload. *)
Definition won_wire (token : ClaimToken) (handle : JobClaimHandle) (payload : list Z) : JobClaimWire :=
  mkJobClaimWire 1 0 (Some token) (Some (handle_attempt handle))
    (Some (if handle_is_first_execution handle then 0%Z else 1%Z)) (Some payload).

(** The other outcomes are a tag. *)
Definition outcome_wire (outcome : Z) : JobClaimWire := mkJobClaimWire 1 outcome None None None None.

Lemma claim_answer_Ok outcome token attempt prior payload s :
  from_option (fun p => bytes_len p <= MAX_PAYLOAD_BYTES)%Z True payload ->
  exists r, claim_answer (mkJobClaimWire 1 outcome token attempt prior payload) s = (r, s) /\
    answers (mkJobClaimWire 1 outcome token attempt prior payload) r.
Proof.
  intros Hp. unfold answers, into_writer. destruct (Hcompact outcome token attempt prior payload) as (chunks & Hc & Hl).
  unfold claim_answer, encode_response, write_value. rewrite Hc.
  pose proof (write_chunks_spec chunks new_writer ltac:(by compute) eq_refl) as Hw.
  destruct (write_chunks chunks new_writer) as [[[]|[e]] w].
  { destruct Hw as [Hw _]. eexists. split; [done|]. eexists. split; [done|]. cbn in *. by rewrite Hw. }
  exfalso. destruct Hw as [Hw _]. simpl in Hw. destruct payload as [p|]; simpl in *;
    unfold MAX_PAYLOAD_BYTES, MAX_RESPONSE_BYTES in *; lia.
Qed.

(** Dropping a reservation after shrinking the registry undoes taking it. *)
Lemma unreserve_ok c m n :
  claims_ok (mkRegistry m (n + 1)) -> (0 <= n)%Z -> retained c = m \/ retained c ⊆ m -> reservations c = (n + 1)%Z ->
  claims_ok (drop_reservation c) /\ reservations (drop_reservation c) = n.
Proof.
  intros [_ Hcap] Hn Hm Hr. unfold claims_ok, drop_reservation, release_reservation; simpl in *.
  assert (size (retained c) <= size m) as Hs by (destruct Hm as [->|Hm]; [done|by apply map_subseteq_size]).
  split; [split|]; lia.
Qed.

Lemma issue_ok token handle lease c n :
  claims_ok c -> reservations c = (n + 1)%Z -> (0 <= n)%Z ->
  let c' := issue token handle lease c in
  claims_ok c' /\ reservations c' = n /\ retained c' !! token = Some (mkRetained handle lease Available) /\
  forall token' rc, retained c' !! token' = Some rc -> rc_state rc = Available ->
    handle_job_id (rc_handle rc) = handle_job_id handle -> token' = token.
Proof.
  intros [_ Hcap] Hr Hn. unfold issue, claims_ok, release_reservation. cbn [retained reservations].
  set (kept := filter _ _). assert (size kept <= size (retained c)) as Hs by apply map_subseteq_size, map_filter_subseteq.
  assert (size (<[token := mkRetained handle lease Available]> kept) <= S (size kept)) as Hi.
  { rewrite map_size_insert. destruct (kept !! token); simpl; lia. }
  split_and!; [lia|lia|lia|apply lookup_insert_eq|].
  intros token' rc. destruct (decide (token' = token)) as [|Hne]; [done|]. rewrite lookup_insert_ne by done.
  intros [_ Hf]%map_lookup_filter_Some. simpl in Hf. naive_solver.
Qed.

(** The call stops at its own checks, or reserves a slot and asks the queue. *)
Lemma claim_body_asks id worker_name now_ms lease_ms max_claims token worker_ulid claim_id s :
  let body := job_claim_body send (Ok (mkJobClaimRequest 1 id worker_name now_ms lease_ms max_claims)) true
                (Some token) worker_ulid claim_id in
  (exists e, body s = (Err e, s)) \/
  exists job_id, ulid_from_str id = Some job_id /\
    body s = (_ ← with_claims (prepare_claim now_ms);
              result ← on_error drop_reservation
                (block_on (job_runtime_error job_id)
                   (claim_job_as job_id (worker_name ++ ":" ++ worker_ulid) now_ms lease_ms max_claims claim_id));
              finish_claim send job_id now_ms (now_ms + lease_ms) token result) s.
Proof.
  cbv zeta. unfold job_claim_body. rewrite bind_require, bind_check. cbv beta iota.
  change (require_version 1) with (Ok () : result AbiError ()). rewrite bind_check. cbv beta iota. rewrite bind_check.
  destruct (require_identifier_limit (text_len id)) as [[]|]; [|by eauto]. rewrite bind_check.
  destruct (require_identifier_limit (text_len worker_name)) as [[]|]; [|by eauto].
  destruct (_ || _); [left; by eexists|]. rewrite bind_check.
  destruct (ulid_from_str id) as [job_id|]; [|by eauto]. cbn [ok_or]. rewrite bind_check.
  destruct (i64_checked_add now_ms lease_ms) as [until|] eqn:Hadd; [|by eauto]. cbn [ok_or]. rewrite bind_check.
  right. exists job_id. split; [done|]. unfold i64_checked_add in Hadd. destruct (in_i64 _); [|done]. by injection Hadd as <-.
Qed.

(** What became of a claim once the durable queue was asked. *)
Definition claim_settled (job_id : JobId) (lease_until_ms : Z) (token : ClaimToken)
    (before : ClaimRegistry) (asked : result JobRuntimeError JobClaimResult) (w : World) (r : result AbiError (option (list Z)))
    (s' : StoreInner) : Prop :=
  match asked with
  | Ok (ClaimedJob handle payload) =>
      match claimed_payload_bytes payload with
      | Ok bytes =>
          answers (won_wire token handle bytes) r /\ si_world s' = w /\
          retained (si_claims s') !! token = Some (mkRetained handle lease_until_ms Available) /\
          forall token' rc, retained (si_claims s') !! token' = Some rc -> rc_state rc = Available ->
            handle_job_id (rc_handle rc) = handle_job_id handle -> token' = token
      | Err refusal =>
          let '(settled, w') := dead_letter_job send handle Undecodable (refusal_text refusal) w in
          si_world s' = w' /\
          r = Err (match settled with
                   | Ok _ => AbiJobRefusal (handle_job_id handle) refusal
                   | Err error => job_runtime_error (handle_job_id handle) error
                   end)
      end
  | Ok outcome =>
      answers (outcome_wire (match outcome with ClaimAbandoned => 1 | ClaimContended => 2 | _ => 3 end)) r /\
      si_world s' = w /\ retained (si_claims s') ⊆ retained before
  | Err e => r = Err (job_runtime_error job_id e) /\ si_world s' = w
  end.

Lemma claim_settled_weaken job_id lease token before before' asked w r s' :
  retained before ⊆ retained before' ->
  claim_settled job_id lease token before asked w r s' -> claim_settled job_id lease token before' asked w r s'.
Proof.
  intros Hsub. unfold claim_settled. destruct asked as [[]|e]; try done; intros (? & ? & ?); split_and!; try done; by etrans.
Qed.

Lemma payload_within payload bytes :
  claimed_payload_bytes payload = Ok bytes -> (bytes_len bytes <= MAX_PAYLOAD_BYTES)%Z.
Proof.
  unfold claimed_payload_bytes. destruct payload; try done. intros Hb. apply bind_Ok in Hb as (bs & _ & Hb).
  destruct (Z.ltb_spec MAX_PAYLOAD_BYTES (bytes_len bs)); [done|]. by injection Hb as <-.
Qed.

Lemma finish_claim_spec job_id now_ms lease_until_ms token res s n :
  claims_ok (si_claims s) -> reservations (si_claims s) = (n + 1)%Z -> (0 <= n)%Z ->
  let '(r, s') := finish_claim send job_id now_ms lease_until_ms token res s in
  claims_ok (si_claims s') /\ reservations (si_claims s') = n /\
  claim_settled job_id lease_until_ms token (si_claims s) (Ok res) (si_world s) r s'.
Proof.
  intros Hok Hr Hn. destruct s as [w c]. cbn [si_world si_claims] in *.
  assert (claims_ok (mkRegistry (retained c) (n + 1))) as Hok' by (by rewrite <-Hr).
  destruct res as [handle payload| | |]; unfold finish_claim, claim_settled.
  - destruct (claimed_payload_bytes payload) as [bytes|refusal] eqn:Hb.
    + pose proof (issue_ok token handle lease_until_ms c n Hok Hr Hn) as (Hi & Hin & Htok & Huniq).
      unfold mbind, F_bind, with_claims. cbn [si_claims si_world].
      destruct (claim_answer_Ok 0 (Some token) (Some (handle_attempt handle))
        (Some (if handle_is_first_execution handle then 0 else 1)%Z) (Some bytes)
        (mkInner w (issue token handle lease_until_ms c))) as (r & -> & Hr'); [by eapply payload_within|].
      by split_and!.
    + unfold finally, dead_letter_unusable_claim. cbn [si_world si_claims].
      destruct (dead_letter_job _ _ _ _ w) as [settled w']. cbn [si_world si_claims update_claims].
      destruct (unreserve_ok c (retained c) n Hok' Hn (or_introl eq_refl) Hr) as [? ?].
      split_and!; try done. by destruct settled as [[]|].
  - unfold finally, mbind, F_bind, with_claims. cbn [si_claims si_world].
    destruct (claim_answer_Ok 1 None None None None (mkInner w (retire_expired_claims job_id now_ms c)) I) as (r & -> & Hr').
    unfold update_claims. cbn [si_claims si_world].
    destruct (unreserve_ok (retire_expired_claims job_id now_ms c) (retained c) n Hok' Hn) as [? ?];
      [right; apply map_filter_subseteq|done|split_and!; try done; apply map_filter_subseteq].
  - unfold finally. destruct (claim_answer_Ok 2 None None None None (mkInner w c) I) as (r & -> & Hr').
    unfold update_claims. cbn [si_claims si_world].
    destruct (unreserve_ok c (retained c) n Hok' Hn (or_introl eq_refl) Hr) as [? ?]. by split_and!.
  - unfold finally, mbind, F_bind, with_claims. cbn [si_claims si_world].
    destruct (claim_answer_Ok 3 None None None None (mkInner w (retire_expired_claims job_id now_ms c)) I) as (r & -> & Hr').
    unfold update_claims. cbn [si_claims si_world].
    destruct (unreserve_ok (retire_expired_claims job_id now_ms c) (retained c) n Hok' Hn) as [? ?];
      [right; apply map_filter_subseteq|done|split_and!; try done; apply map_filter_subseteq].
Qed.

(** C24: a won claim is handed over, and a claim call never leaks a slot.  Whatever the
    durable queue and the driver do, the number of reserved slots after [es_job_claim]
    is what it was and the registry stays within its capacity.  The call either stops
    before it asks the queue, or the outcome of asking is accounted for.  A won claim
    whose payload the ABI can carry is answered by exactly the encoding of its token, its
    attempt, whether it is a first execution, and its payload; the token is retained for
    that very claim until the requested instant, as the job's only token in circulation.
    One whose payload the ABI cannot carry is sent a dead letter as undecodable, and the
    answer is that refusal if it settled, else the error of the send (the claim is then
    held, with no token, until its lease expires).  Every other outcome is answered by its
    tag and issues no token. *)
Theorem claim_never_stranded id worker_name now_ms lease_ms max_claims token worker_ulid claim_id s :
  claims_ok (si_claims s) ->
  let '(r, s') := job_claim_body send (Ok (mkJobClaimRequest 1 id worker_name now_ms lease_ms max_claims)) true
                    (Some token) worker_ulid claim_id s in
  claims_ok (si_claims s') /\ reservations (si_claims s') = reservations (si_claims s) /\
  (is_ok r = false /\ si_world s' = si_world s \/
   exists job_id, ulid_from_str id = Some job_id /\
     let '(asked, w) := claim_job_as job_id (worker_name ++ ":" ++ worker_ulid) now_ms lease_ms max_claims claim_id
                          (si_world s) in
     claim_settled job_id (now_ms + lease_ms) token (si_claims s) asked w r s').
Proof.
  intros Hok. destruct (claim_body_asks id worker_name now_ms lease_ms max_claims token worker_ulid claim_id s)
    as [(e & ->)|(job_id & Hid & ->)]; [by auto|].
  pose proof (prepare_spec now_ms (si_claims s) (proj1 Hok) (proj2 Hok)) as Hp.
  unfold mbind at 1, F_bind at 1, with_claims. destruct (prepare_claim now_ms (si_claims s)) as [[[]|e] c1].
  2:{ destruct Hp as [-> _]. destruct s. by auto. }
  destruct Hp as (Hr1 & Hsub%retires_subseteq & Hcap1). pose proof Hok as [Hn _].
  assert (claims_ok c1) as Hok1 by (split; [lia|done]).
  unfold mbind, F_bind, on_error, block_on. cbn [si_world si_claims].
  destruct (claim_job_as _ _ _ _ _ _ _) as [[res|e] w] eqn:Hasked; cbn [map_err].
  - pose proof (finish_claim_spec job_id now_ms (now_ms + lease_ms) token res (mkInner w c1)
      (reservations (si_claims s)) Hok1 Hr1 Hn) as Hf.
    destruct (finish_claim _ _ _ _ _ _ _) as [r s']. destruct Hf as (? & ? & Hset). split_and!; try done.
    right. exists job_id. rewrite Hasked. split; [done|]. by eapply claim_settled_weaken.
  - destruct (unreserve_ok c1 (retained c1) (reservations (si_claims s))) as [Hd Hd']; try done.
    { by rewrite <-Hr1; destruct c1. } { by left. }
    split_and!; try done. right. exists job_id. by rewrite Hasked.
Qed.
End claims.

(** ** Settlements *)

Section settlements.
Context `{Chrono}.
Context (send : JobId -> JobCommand -> M SendErr ()).

(** The four settlement calls with their decoded requests. *)
Inductive SettleCall : Type :=
| CallAck (wire : JobAckWire)
| CallRetry (wire : JobRetryWire)
| CallDefer (wire : JobDeferWire)
| CallDeadLetter (wire : JobDeadLetterWire).

Definition settle_call (c : SettleCall) : F Z :=
  match c with
  | CallAck wire => job_ack_body send (Ok wire) true
  | CallRetry wire => job_retry_body send (Ok wire) true
  | CallDefer wire => job_defer_body send (Ok wire) true
  | CallDeadLetter wire => job_dead_letter_body send (Ok wire) true
  end.

Definition call_token (c : SettleCall) : ClaimToken :=
  match c with
  | CallAck wire => ack_token wire
  | CallRetry wire => retry_token wire
  | CallDefer wire => defer_token wire
  | CallDeadLetter wire => dl_token wire
  end.

(** The outcome the caller asked to record, for the claim of [handle]. *)
Definition call_command (c : SettleCall) (handle : JobClaimHandle) : option JobCommand :=
  match c with
  | CallAck _ => Some (Succeed (handle_claim_id handle))
  | CallRetry wire =>
      run_at ← from_timestamp_millis (retry_run_at_ms wire);
      attempt ← u32_checked_add (handle_attempt handle) 1;
      Some (RetrySchedule (handle_claim_id handle) run_at attempt (retry_error wire))
  | CallDefer wire =>
      run_at ← from_timestamp_millis (defer_run_at_ms wire);
      Some (Reschedule (handle_claim_id handle) run_at)
  | CallDeadLetter wire =>
      match dead_reason (dl_reason wire) with
      | Ok reason => Some (Kill (handle_claim_id handle) reason (dl_error wire))
      | Err _ => None
      end
  end.

(** The settlement of [handle] that [operation] runs: at most one command is sent. *)
Definition sends_once (operation : F JobSettlementResult) (handle : JobClaimHandle) (command : option JobCommand) : Prop :=
  forall s, si_claims (operation s).2 = si_claims s /\
    match (operation s).1 with
    | Ok result => exists command' sent,
        command = Some command' /\
        send (handle_job_id handle) command' (si_world s) = (sent, si_world (operation s).2) /\
        classify_settlement sent = match result with SettlementApplied => SettleApplied | SettlementFenced => SettleFenced end
    | Err _ => si_world (operation s).2 = si_world s \/ exists command' sent,
        command = Some command' /\
        send (handle_job_id handle) command' (si_world s) = (sent, si_world (operation s).2) /\ is_ok sent = false
    end.

Lemma settle_job_sends handle command m :
  m = settle_job send (handle_job_id handle) command -> sends_once (settle_with handle m) handle (Some command).
Proof.
  intros -> s. unfold settle_with, block_on, settle_job. destruct (send _ command (si_world s)) as [sent w] eqn:Hsend.
  simpl. split; [done|]. destruct (classify_settlement sent) eqn:Hcl; simpl.
  1,2: by exists command, sent.
  all: right; exists command, sent; split_and!; [done|done|by destruct sent].
Qed.

Lemma check_sends {A} (r : result AbiError A) (f : A -> F JobSettlementResult) handle command :
  (forall a, r = Ok a -> sends_once (f a) handle command) -> sends_once (check r ≫= f) handle command.
Proof. intros Hf s. rewrite bind_check. destruct r as [a|e]; [by apply Hf|]. split; [done|by left]. Qed.

Lemma lift_settles {A} (r : result JobRuntimeError A) (f : A -> M JobRuntimeError JobSettlementResult) handle command :
  (forall a, r = Ok a -> sends_once (settle_with handle (f a)) handle command) ->
  sends_once (settle_with handle (lift r ≫= f)) handle command.
Proof. intros Hf. destruct r as [a|e]; [by apply Hf|]. intros s. split; [done|by left]. Qed.

Lemma decode_claim_token_Ok encoded token : decode_claim_token encoded = Ok token -> token = encoded.
Proof. unfold decode_claim_token. case_match; [|done]. by intros [= <-]. Qed.

(** A settlement with [token] that records [command] of its claim. *)
Definition settlement_exact (token : ClaimToken) (command : JobClaimHandle -> option JobCommand) (s : StoreInner)
    (r : result AbiError Z) (s' : StoreInner) : Prop :=
  match r with
  | Err _ => si_claims s' = si_claims s /\
      (si_world s' = si_world s \/ exists handle lease recorded sent,
         retained (si_claims s) !! token = Some (mkRetained handle lease Available) /\ command handle = Some recorded /\
         send (handle_job_id handle) recorded (si_world s) = (sent, si_world s') /\ is_ok sent = false)
  | Ok tag => exists handle lease recorded sent,
      retained (si_claims s) !! token = Some (mkRetained handle lease Available) /\ command handle = Some recorded /\
      send (handle_job_id handle) recorded (si_world s) = (sent, si_world s') /\
      (tag = 0%Z /\ classify_settlement sent = SettleApplied \/ tag = 1%Z /\ classify_settlement sent = SettleFenced) /\
      si_claims s' = retire_claim token (si_claims s)
  end.

Lemma settle_claim_with_spec {D} validate claim_token operation (d : D) token command s :
  (forall handle, sends_once (operation handle d) handle (command handle)) ->
  (forall token', claim_token d = Ok token' -> token' = token) ->
  let '(r, s') := settle_claim_with validate claim_token operation (Ok d) true s in
  settlement_exact token command s r s'.
Proof.
  intros Hop Htok. unfold settle_claim_with. rewrite bind_require, bind_check, bind_check.
  destruct (validate d) as [[]|]; [|by split; [|left]]. rewrite bind_check.
  destruct (claim_token d) as [token'|]; [|by split; [|left]]. rewrite (Htok token' eq_refl). clear token' Htok.
  destruct s as [w [m n]]. unfold mbind, F_bind, with_claims, begin_settlement, begin_operation, on_error.
  cbn [si_claims si_world retained reservations].
  destruct (m !! token) as [[handle lease []]|] eqn:Hm; try (by split; [|left]). cbn [si_world si_claims].
  set (s1 := mkInner w _). destruct (Hop handle s1) as [Hc Hsend].
  destruct (operation handle d s1) as [[result|e] [w2 c2]]; simpl in Hc; subst c2; cbn [si_world si_claims fst snd] in *.
  - destruct Hsend as (recorded & sent & Hcmd & Hs & Hcl). exists handle, lease, recorded, sent.
    cbn [si_world si_claims retained]. split_and!; [done|done|exact Hs|destruct result; auto|].
    unfold complete_settlement, retire_claim. cbn [retained reservations]. by rewrite delete_insert_eq.
  - unfold settlement_exact, update_claims, drop_settlement, drop_operation. cbn [si_claims si_world retained reservations].
    split.
    + rewrite lookup_insert_eq. cbn [bool_decide]. rewrite bool_decide_true by done. by rewrite insert_insert_eq, insert_id.
    + destruct Hsend as [->|(recorded & sent & Hcmd & Hs & Hok)]; [by left|right]. by exists handle, lease, recorded, sent.
Qed.

Lemma settle_call_spec c s :
  let '(r, s') := settle_call c s in settlement_exact (call_token c) (call_command c) s r s'.
Proof.
  destruct c as [wire|wire|wire|wire]; apply settle_claim_with_spec; try (intros token; apply decode_claim_token_Ok); intros handle; simpl.
  - by eapply settle_job_sends.
  - apply lift_settles. intros run_at Hrun%ok_or_Ok. apply lift_settles. intros attempt Hat%ok_or_Ok.
    rewrite Hrun. cbn [mbind option_bind]. rewrite Hat. cbn [mbind option_bind]. by apply settle_job_sends.
  - apply lift_settles. intros run_at Hrun%ok_or_Ok. rewrite Hrun. cbn [mbind option_bind]. by apply settle_job_sends.
  - apply check_sends. intros reason ->. by apply settle_job_sends.
Qed.

(** A token that is not retained settles nothing. *)
Lemma settle_claim_with_spent {D} validate claim_token operation (d : D) token s :
  (forall token', claim_token d = Ok token' -> token' = token) -> retained (si_claims s) !! token = None ->
  exists e, settle_claim_with validate claim_token operation (Ok d) true s = (Err e, s).
Proof.
  intros Htok Hn. unfold settle_claim_with. rewrite bind_require, bind_check, bind_check.
  destruct (validate d) as [[]|]; [|by eauto]. rewrite bind_check.
  destruct (claim_token d) as [token'|]; [|by eauto]. rewrite (Htok token' eq_refl). destruct s as [w c].
  unfold mbind, F_bind, with_claims, begin_settlement, begin_operation. cbn [si_claims si_world] in *.
  rewrite Hn. by eauto.
Qed.

(** A settlement call spends its token exactly when its outcome landed.  A call
    that answers success found its token in circulation and sent one command, the
    outcome the caller asked for carrying the id of the claim the token stands for;
    tag 0 means the job aggregate accepted it, tag 1 that a newer claim fenced it.
    The token is then gone: every later settlement with it, of any kind, fails and
    changes nothing.  A call that answers an error leaves the registry exactly as it
    was, so the token can be used again, and sent at most a command that failed. *)
Theorem settlement_spends_token c s :
  let '(r, s') := settle_call c s in
  settlement_exact (call_token c) (call_command c) s r s' /\
  (is_ok r = true -> forall c', call_token c' = call_token c -> exists e, settle_call c' s' = (Err e, s')).
Proof.
  pose proof (settle_call_spec c s) as Hs. destruct (settle_call c s) as [[tag|e] s']; [|by split].
  split; [done|]. intros _ c' Hc. destruct Hs as (handle & lease & recorded & sent & _ & _ & _ & _ & Hr).
  assert (retained (si_claims s') !! call_token c' = None) as Hn.
  { rewrite Hr, Hc. unfold retire_claim; simpl. apply lookup_delete_eq. }
  destruct c' as [wire|wire|wire|wire]; eapply settle_claim_with_spent; try exact Hn; intros token; apply decode_claim_token_Ok.
Qed.
End settlements.
