(* ===== verification/Buffers.v ===== *)
(** * The memory of ABI buffers

    Models how src/crates/event-sorcery-ffi/src/lib.rs hands bytes out and takes them
    back: [owned_buffer] turns a response into an allocation the caller owns,
    [clear_buffer_output] and [clear_tag_output] reset an output before a call works,
    and [es_buf_free] releases a buffer once.

    The memory is the caller's [EsBuf] cells and the live allocations; freeing what is
    not a live allocation of that length is undefined behaviour, [None].  The address of
    an allocation is an argument.  [buffers_accounted] is the guarantee over every
    sequence of calls and frees. *)

From S2P Require Import Prelude Json Sqlite EventTable Lifecycle Schema Job Engine.
From S2P Require Import Abi ClaimRegistry StoreHandle Ffi.

(** [EsBuf]: a pointer, null or not, and a length. *)
Record CBuf : Type := mkCBuf { cbuf_ptr : option Z; cbuf_len : nat }.

Definition null_buffer : CBuf := mkCBuf None 0.

(** [NonNull::dangling] of a byte, the pointer of an empty boxed slice. *)
Definition DANGLING : Z := 1.

Record Memory : Type := mkMemory {
  slots : gmap Z CBuf;
  tags : gmap Z Z;
  heap : gmap Z (list Z);
}.

Definition write_slot (output : option Z) (buffer : CBuf) (m : Memory) : Memory :=
  match output with
  | None => m
  | Some a => mkMemory (<[a := buffer]> (slots m)) (tags m) (heap m)
  end.

Definition clear_buffer_output (output : option Z) (m : Memory) : Memory := write_slot output null_buffer m.

Definition write_tag (output : option Z) (tag : Z) (m : Memory) : Memory :=
  match output with
  | None => m
  | Some a => mkMemory (slots m) (<[a := tag]> (tags m)) (heap m)
  end.

Definition clear_tag_output (output : option Z) (m : Memory) : Memory := write_tag output 0 m.

(** [Box::into_raw(bytes.into_boxed_slice())]: an empty slice is not allocated. *)
Definition owned_buffer (address : Z) (bytes : list Z) (m : Memory) : CBuf * Memory :=
  match bytes with
  | [] => (mkCBuf (Some DANGLING) 0, m)
  | _ => (mkCBuf (Some address) (length bytes), mkMemory (slots m) (tags m) (<[address := bytes]> (heap m)))
  end.

Definition write_owned (address : Z) (output : option Z) (bytes : option (list Z)) (m : Memory) : Memory :=
  match output, bytes with
  | Some _, Some bytes => let '(buffer, m) := owned_buffer address bytes m in write_slot output buffer m
  | _, _ => m
  end.

(** How a call ends for the error output ([ffi_call], [write_error]). *)
Definition deliver_error {A} (address : Z) (out_error : option Z) (response : Response A) (m : Memory) : Memory :=
  if (resp_class response =? ES_OK)%Z then clear_buffer_output out_error m
  else write_owned address out_error (resp_error response) (clear_buffer_output out_error m).

(** The outputs of a call with a buffer output: cleared first, then one of them is
    written. *)
Definition deliver (address : Z) (out out_error : option Z) (response : Response (option (list Z))) (m : Memory) : Memory :=
  let m := clear_buffer_output out m in
  let m := if (resp_class response =? ES_OK)%Z then write_owned address out (resp_output response) m else m in
  deliver_error address out_error response m.

(** The outputs of a call that answers a tag. *)
Definition deliver_tag (address : Z) (out out_error : option Z) (response : Response Z) (m : Memory) : Memory :=
  let m := clear_tag_output out m in
  let m := if (resp_class response =? ES_OK)%Z then write_tag out (resp_output response) m else m in
  deliver_error address out_error response m.

Definition es_buf_free (buffer : option Z) (m : Memory) : option Memory :=
  match buffer with
  | None => Some m
  | Some a =>
      owned ← slots m !! a;
      match cbuf_ptr owned with
      | None => Some m
      | Some p =>
          let m := write_slot buffer null_buffer m in
          if (cbuf_len owned =? 0)%nat then Some m
          else
            bytes ← heap m !! p;
            if (length bytes =? cbuf_len owned)%nat
            then Some (mkMemory (slots m) (tags m) (delete p (heap m)))
            else None
      end
  end.

(** What a caller reads through a cell. *)
Definition read_slot (a : Z) (m : Memory) : option (list Z) :=
  buffer ← slots m !! a;
  p ← cbuf_ptr buffer;
  if (cbuf_len buffer =? 0)%nat then Some []
  else bytes ← heap m !! p; if (length bytes =? cbuf_len buffer)%nat then Some bytes else None.

(** ** Histories *)

(** A cell the caller may pass as an output again. *)
Definition reusable (output : option Z) (m : Memory) : Prop :=
  match output with None => True | Some a => slots m !! a ≫= cbuf_ptr = None end.

Inductive memory_step : Memory -> Memory -> Prop :=
| step_deliver m address out out_error response :
    heap m !! address = None -> (forall a, out = Some a -> out_error <> Some a) ->
    reusable out m -> reusable out_error m ->
    memory_step m (deliver address out out_error response m)
| step_deliver_tag m address out out_error response :
    heap m !! address = None -> reusable out_error m ->
    memory_step m (deliver_tag address out out_error response m)
| step_free m a m' :
    es_buf_free (Some a) m = Some m' -> memory_step m m'.

Definition no_memory : Memory := mkMemory ∅ ∅ ∅.

(** A cell that owns the allocation at [p]. *)
Definition owns (m : Memory) (a p : Z) : Prop :=
  exists len, slots m !! a = Some (mkCBuf (Some p) (S len)).

Record memory_ok (m : Memory) : Prop := {
  mo_live : forall a p len, slots m !! a = Some (mkCBuf (Some p) (S len)) ->
    exists bytes, heap m !! p = Some bytes /\ length bytes = S len;
  mo_unique : forall a a' p, owns m a p -> owns m a' p -> a = a';
  mo_owned : forall p bytes, heap m !! p = Some bytes -> exists a, owns m a p;
}.

Lemma no_memory_ok : memory_ok no_memory.
Proof. split; [done| |done]. intros a a' p [len Ha]. done. Qed.

(** Writing null over a cell that holds nothing changes nothing that is owned. *)
Lemma owns_write_null m output a p :
  reusable output m -> owns (write_slot output null_buffer m) a p <-> owns m a p.
Proof.
  intros Hr. unfold owns. destruct output as [o|]; [|done]. cbn.
  destruct (decide (a = o)) as [->|Hne]; [|by rewrite lookup_insert_ne].
  rewrite lookup_insert_eq. cbn in Hr. split; intros [len Ha]; [done|]. by rewrite Ha in Hr.
Qed.

Lemma write_null_ok m output : reusable output m -> memory_ok m -> memory_ok (write_slot output null_buffer m).
Proof.
  intros Hr [Hl Hu Ho]. split.
  - intros a p len Ha. destruct output as [o|]; [|by eapply Hl]. cbn in Ha.
    destruct (decide (a = o)) as [->|Hne]; [by rewrite lookup_insert_eq in Ha|].
    rewrite lookup_insert_ne in Ha by done. by eapply Hl.
  - intros a a' p Ha Ha'. apply owns_write_null in Ha, Ha'; [|done..]. by eapply Hu.
  - intros p bytes Hp. assert (heap m !! p = Some bytes) as Hp' by (by destruct output).
    destruct (Ho p bytes Hp') as [a Ha]. exists a. by apply owns_write_null.
Qed.

Lemma reusable_write_null m o output : reusable output m -> reusable output (write_slot o null_buffer m).
Proof.
  destruct o as [a|]; [|done]. destruct output as [b|]; [|done]. cbn. intros Hr.
  destruct (decide (a = b)) as [->|Hne]; [by rewrite lookup_insert_eq|by rewrite lookup_insert_ne].
Qed.

Lemma write_owned_ok m address output bytes :
  heap m !! address = None -> reusable output m -> memory_ok m -> memory_ok (write_owned address output bytes m).
Proof.
  intros Hf Hr Hok. destruct output as [o|]; [|done]. destruct bytes as [bytes|]; [|done]. cbn in Hr.
  assert (forall a p len, slots m !! a = Some (mkCBuf (Some p) (S len)) -> a <> o) as Hno.
  { intros a p len Ha ->. by rewrite Ha in Hr. }
  destruct Hok as [Hl Hu Ho]. destruct bytes as [|z bytes]; cbn.
  - split; cbn.
    + intros a p len. destruct (decide (a = o)) as [->|Hne]; [by rewrite lookup_insert_eq|].
      rewrite lookup_insert_ne by done. apply Hl.
    + intros a a' p [n Ha] [n' Ha']. cbn in *. rewrite lookup_insert_Some in Ha, Ha'.
      destruct Ha as [[_ [=]]|[_ Ha]], Ha' as [[_ [=]]|[_ Ha']]. apply (Hu a a' p); by eexists.
    + intros p b Hp. destruct (Ho p b Hp) as [a [n Ha]]. exists a, n. cbn.
      by rewrite lookup_insert_ne by (apply not_eq_sym; by eapply Hno).
  - assert (forall a p, owns m a p -> p <> address) as Hna.
    { intros a p [n Ha] ->. destruct (Hl _ _ _ Ha) as (b & Hb & _). by rewrite Hf in Hb. }
    split; cbn.
    + intros a p len Ha. rewrite lookup_insert_Some in Ha. destruct Ha as [[-> [= <- <-]]|[Hne Ha]].
      * rewrite lookup_insert_eq. by eexists.
      * rewrite lookup_insert_ne by (apply not_eq_sym, (Hna a); by eexists). by eapply Hl.
    + intros a a' p [n Ha] [n' Ha']. cbn in *. rewrite lookup_insert_Some in Ha, Ha'.
      destruct Ha as [[<- [= <- <-]]|[_ Ha]], Ha' as [[<- Ha']|[_ Ha']]; [done| | |].
      * exfalso. apply (Hna a' address); [by eexists|done].
      * injection Ha' as <- <-. exfalso. apply (Hna a address); [by eexists|done].
      * apply (Hu a a' p); by eexists.
    + intros p b Hp. rewrite lookup_insert_Some in Hp. destruct Hp as [[<- _]|[_ Hp]].
      * exists o, (length bytes). cbn. by rewrite lookup_insert_eq.
      * destruct (Ho p b Hp) as [a [n Ha]]. exists a, n. cbn.
        by rewrite lookup_insert_ne by (apply not_eq_sym; by eapply Hno).
Qed.

(** ** Calls and frees keep every allocation owned *)

Lemma deliver_error_ok {A} m address out_error (response : Response A) :
  heap m !! address = None -> reusable out_error m -> memory_ok m ->
  memory_ok (deliver_error address out_error response m).
Proof.
  intros Hf Hr Hok. unfold deliver_error, clear_buffer_output. case_match.
  - by apply write_null_ok.
  - apply write_owned_ok; [by destruct out_error|by apply reusable_write_null|by apply write_null_ok].
Qed.

Lemma write_tag_ok m output tag : memory_ok m -> memory_ok (write_tag output tag m).
Proof. destruct output as [o|]; [|done]. intros [Hl Hu Ho]. by split. Qed.

Lemma heap_write_null m output : heap (write_slot output null_buffer m) = heap m.
Proof. by destruct output. Qed.

Lemma reusable_write_owned m address out out_error bytes :
  (forall a, out = Some a -> out_error <> Some a) ->
  reusable out_error m -> reusable out_error (write_owned address out bytes m).
Proof.
  intros Hne Hr. destruct out_error as [e|]; [|done]. destruct out as [o|]; [|done].
  destruct bytes as [bytes|]; [|done]. assert (o <> e) by (intros ->; by eapply Hne).
  destruct bytes as [|z bytes]; cbn; by rewrite lookup_insert_ne.
Qed.

Lemma deliver_ok m address out out_error response :
  heap m !! address = None -> (forall a, out = Some a -> out_error <> Some a) ->
  reusable out m -> reusable out_error m -> memory_ok m ->
  memory_ok (deliver address out out_error response m).
Proof.
  intros Hf Hne Hr Hre Hok. unfold deliver, clear_buffer_output.
  destruct (resp_class response =? ES_OK)%Z eqn:Hc.
  - unfold deliver_error. rewrite Hc. apply write_null_ok.
    + apply reusable_write_owned; [done|]. by apply reusable_write_null.
    + apply write_owned_ok; [by rewrite heap_write_null|by apply reusable_write_null|by apply write_null_ok].
  - apply deliver_error_ok; [by rewrite heap_write_null|by apply reusable_write_null|by apply write_null_ok].
Qed.

(** A cell of a sound memory can be freed; what it owned goes, the rest stays. *)
Lemma es_buf_free_ok m a :
  is_Some (slots m !! a) -> memory_ok m ->
  exists m', es_buf_free (Some a) m = Some m' /\ memory_ok m' /\ reusable (Some a) m' /\ is_Some (slots m' !! a) /\
    forall b, b <> a -> read_slot b m' = read_slot b m.
Proof.
  intros [[ptr len] Ha] Hok. cbn. rewrite Ha. cbn.
  assert (forall m', slots m' = <[a := null_buffer]> (slots m) -> reusable (Some a) m' /\ is_Some (slots m' !! a)) as Hw.
  { intros m' Hm. cbn. rewrite Hm, lookup_insert_eq. by split; [|eexists]. }
  destruct ptr as [p|]; [|exists m; cbn; rewrite Ha; by eauto 6].
  destruct len as [|len]; cbn.
  - eexists. split; [done|]. split_and!; [|by apply Hw|by apply Hw|].
    + destruct Hok as [Hl Hu Ho]. split; cbn.
      * intros b q n. rewrite lookup_insert_Some. intros [[_ [=]]|[_ Hb]]. by eapply Hl.
      * intros b b' q [n Hb] [n' Hb']. cbn in *. rewrite lookup_insert_Some in Hb, Hb'.
        destruct Hb as [[_ [=]]|[_ Hb]], Hb' as [[_ [=]]|[_ Hb']]. apply (Hu b b' q); by eexists.
      * intros q bytes Hq. destruct (Ho q bytes Hq) as [b [n Hb]]. exists b, n. cbn.
        rewrite lookup_insert_ne; [done|]. intros ->. by rewrite Ha in Hb.
    + intros b Hb. unfold read_slot. cbn. by rewrite lookup_insert_ne.
  - destruct Hok as [Hl Hu Ho]. destruct (Hl _ _ _ Ha) as (bytes & Hp & Hlen).
    assert (forall b q, b <> a -> owns m b q -> q <> p) as Hother.
    { intros b q Hb Hq ->. apply Hb, (Hu b a p); [done|by exists len]. }
    rewrite Hp. cbn. rewrite Hlen, Nat.eqb_refl. eexists. split; [done|].
    split_and!; [|by apply Hw|by apply Hw|].
    + split; cbn.
      * intros b q n. rewrite lookup_insert_Some. intros [[_ [=]]|[Hb Hq]].
        rewrite lookup_delete_ne by (apply not_eq_sym, (Hother b); [done|by exists n]). by eapply Hl.
      * intros b b' q [n Hb] [n' Hb']. cbn in *. rewrite lookup_insert_Some in Hb, Hb'.
        destruct Hb as [[_ [=]]|[_ Hb]], Hb' as [[_ [=]]|[_ Hb']]. apply (Hu b b' q); by eexists.
      * intros q bs. rewrite lookup_delete_Some. intros [Hq Hbs]. destruct (Ho q bs Hbs) as [b [n Hb]].
        exists b, n. cbn. rewrite lookup_insert_ne; [done|]. intros ->. rewrite Ha in Hb. by injection Hb as ->.
    + intros b Hb. unfold read_slot. cbn. rewrite lookup_insert_ne by done.
      destruct (slots m !! b) as [[[q|] [|n]]|] eqn:Hs; cbn; try done.
      by rewrite lookup_delete_ne by (apply not_eq_sym, (Hother b); [done|by exists n]).
Qed.

Lemma memory_step_ok m m' : memory_step m m' -> memory_ok m -> memory_ok m'.
Proof.
  intros [? ? ? ? ? Hf Hne Hr Hre|? ? ? ? ? Hf Hre|? a m2 Hfree] Hok.
  - by apply deliver_ok.
  - unfold deliver_tag. destruct out as [o|]; case_match; apply deliver_error_ok; try done;
      repeat apply write_tag_ok; done.
  - assert (is_Some (slots m0 !! a)) as Ha by (cbn in Hfree; destruct (slots m0 !! a); [by eexists|done]).
    destruct (es_buf_free_ok m0 a Ha Hok) as (m3 & Hm & Hok' & _). congruence.
Qed.

(** ** What the caller reads *)

Lemma read_write_owned m address a bytes :
  read_slot a (write_owned address (Some a) (Some bytes) m) = Some bytes.
Proof.
  destruct bytes as [|z bytes]; unfold read_slot; cbn; rewrite lookup_insert_eq; [done|].
  cbn. rewrite lookup_insert_eq. cbn. by rewrite Nat.eqb_refl.
Qed.

Lemma read_write_other m output buffer b :
  output <> Some b -> read_slot b (write_slot output buffer m) = read_slot b m.
Proof.
  intros Hb. destruct output as [o|]; [|done]. unfold read_slot. cbn.
  rewrite lookup_insert_ne; [done|congruence].
Qed.

Lemma read_write_owned_other m address output bytes b :
  heap m !! address = None -> output <> Some b -> memory_ok m ->
  read_slot b (write_owned address output bytes m) = read_slot b m.
Proof.
  intros Hf Hb Hok. destruct output as [o|]; [|done]. destruct bytes as [[|z bytes]|]; [|unfold read_slot; cbn|done].
  - by apply (read_write_other _ (Some o)).
  - rewrite lookup_insert_ne by congruence. destruct (slots m !! b) as [[[q|] [|n]]|] eqn:Hs; cbn; try done.
    destruct (mo_live _ Hok _ _ _ Hs) as (bs & Hq & _). rewrite lookup_insert_ne; [done|congruence].
Qed.

Lemma read_null m a : read_slot a (write_slot (Some a) null_buffer m) = None.
Proof. unfold read_slot. cbn. by rewrite lookup_insert_eq. Qed.

Lemma deliver_reads m address out out_error response :
  heap m !! address = None -> (forall a, out = Some a -> out_error <> Some a) ->
  reusable out m -> reusable out_error m -> memory_ok m ->
  let m' := deliver address out out_error response m in
  (forall a, out = Some a -> read_slot a m' = if (resp_class response =? ES_OK)%Z then resp_output response else None) /\
  (forall a, out_error = Some a -> read_slot a m' = if (resp_class response =? ES_OK)%Z then None else resp_error response) /\
  (forall b, out <> Some b -> out_error <> Some b -> read_slot b m' = read_slot b m).
Proof.
  intros Hf Hne Hr Hre Hok m'. subst m'. unfold deliver, deliver_error, clear_buffer_output.
  destruct (resp_class response =? ES_OK)%Z; split_and!.
  - intros a ->. rewrite read_write_other by by apply Hne.
    destruct (resp_output response) as [bytes|]; [apply read_write_owned|apply read_null].
  - intros a ->. apply read_null.
  - intros b Hb Hb'. rewrite read_write_other by done.
    rewrite read_write_owned_other; [by rewrite read_write_other|by rewrite heap_write_null|done|by apply write_null_ok].
  - intros a ->. rewrite read_write_owned_other, read_write_other; [apply read_null|by apply Hne|..|by apply Hne|].
    + by rewrite !heap_write_null.
    + apply write_null_ok; [by apply reusable_write_null|by apply write_null_ok].
  - intros a ->. destruct (resp_error response) as [bytes|]; [apply read_write_owned|apply read_null].
  - intros b Hb Hb'. rewrite read_write_owned_other; [by rewrite !read_write_other|by rewrite !heap_write_null|done|].
    apply write_null_ok; [by apply reusable_write_null|by apply write_null_ok].
Qed.

(** C22: No buffer is lost or freed twice.  Over every sequence of calls and frees, with
    any answers and outputs: each live allocation is owned by exactly one cell, so once
    every cell is null nothing is allocated; freeing any cell is defined, leaves it
    null, touches no other buffer, and freeing it again does nothing.  A call into
    cells that hold no buffer puts its answer in the output it belongs to, leaves the
    other output empty, and changes what no other cell reads. *)
Theorem buffers_accounted m (Hm : rtc memory_step no_memory m) :
  (forall p bytes, heap m !! p = Some bytes -> exists! a, owns m a p) /\
  ((forall a, reusable (Some a) m) -> heap m = ∅) /\
  (forall a, is_Some (slots m !! a) ->
    exists m', es_buf_free (Some a) m = Some m' /\ read_slot a m' = None /\ es_buf_free (Some a) m' = Some m' /\
      forall b, b <> a -> read_slot b m' = read_slot b m) /\
  (forall address out out_error response, heap m !! address = None ->
    (forall a, out = Some a -> out_error <> Some a) -> reusable out m -> reusable out_error m ->
    let m' := deliver address out out_error response m in
    (forall a, out = Some a ->
       read_slot a m' = if (resp_class response =? ES_OK)%Z then resp_output response else None) /\
    (forall a, out_error = Some a ->
       read_slot a m' = if (resp_class response =? ES_OK)%Z then None else resp_error response) /\
    (forall b, out <> Some b -> out_error <> Some b -> read_slot b m' = read_slot b m)).
Proof.
  assert (memory_ok m) as Hok.
  { revert Hm. apply (rtc_ind_r (fun m => memory_ok m)); [apply no_memory_ok|].
    intros m1 m2 _ Hstep. by apply memory_step_ok. }
  split_and!.
  - intros p bytes Hp. destruct (mo_owned _ Hok _ _ Hp) as [a Ha]. exists a. split; [done|].
    intros a' Ha'. by apply (mo_unique _ Hok a a' p).
  - intros Hnull. apply map_empty. intros p. destruct (heap m !! p) as [bytes|] eqn:Hp; [|done].
    destruct (mo_owned _ Hok _ _ Hp) as [a [n Ha]]. specialize (Hnull a). cbn in Hnull. by rewrite Ha in Hnull.
  - intros a Ha. destruct (es_buf_free_ok m a Ha Hok) as (m' & Hm' & _ & Hr & [buffer Hb] & Hother).
    exists m'. split_and!; [done| | |done]; cbn in *; unfold read_slot; rewrite Hb in Hr |- *; cbn in *; by rewrite Hr.
  - intros. by apply deliver_reads.
Qed.
