(* ===== verification/JobStore.v ===== *)
(** * The job aggregate behind its store

    [JobRuntime::build] (src/crates/event-sorcery/src/job_backend.rs) wires jobs like any
    projected entity: their [Store] loads, decides, commits and then folds the outcome
    into [job_queue].  This file instantiates Store.v at [JobState] (job.rs) and connects
    a settlement, whoever sends it, with the histories of JobHistory.v:
    [store_settles_claim] for the runtime, [token_settles_claim] for a settlement through
    a claim token of the C ABI. *)

From S2P Require Import Prelude Json Sqlite EventTable Lifecycle Schema Job Engine EngineProps.
From S2P Require Import ViewRepository JobQueue JobQueueProps Repository SchemaRecovery JobHistory.
From S2P Require Import Reactor Dispatch Worker Projection Startup Store StoreProps.
From S2P Require Import Abi ClaimRegistry StoreHandle Ffi FfiProps.

(** ** The job entity's constants *)

Definition job_event_version (e : JobEvent) : string := JOB_EVENT_VERSION.

Section job_store.
Context `{SerdeJsonLaws, ChronoLaws, UlidLaws, SqliteJson}.
Context `{!CqrsEs JobState JobEvent JobError} `{!CqrsEsLaws}.

Definition job_projection : Query := projection_query ulid_from_str ulid_to_string JOB_QUEUE.

(** The queries of [StoreBuilder::<JobState>::with_backend(..).build()]. *)
Definition job_queries : list Query := with_projection ulid_from_str ulid_to_string JOB_QUEUE with_backend.

(** [Store::send] on the job aggregate.  Its handlers dispatch nothing, so the panic of
    a delay outside the calendar is unreachable, and its bound and clock are not read. *)
Definition job_send (job_id : JobId) (command : JobCommand) : M SendErr () :=
  r ← store_send job_config type_name job_event_version 0 (fun _ => 0%Z)
        job_queries (ulid_to_string job_id) command;
  match r with Some _ => mret () | None => fail UnexpectedError end.

(** ** The job's log as a store's log *)

Lemma job_events_number id n es :
  job_events id n es = number (wrap job_config type_name job_event_version id) n es.
Proof. revert n. induction es as [|e es IH]; intros n; [done|]. cbn [job_events number]. by rewrite IH. Qed.

(** The documents in the key order of a [Value]. *)
Definition event_value (e : JobEvent) : Json :=
  match e with
  | ClaimedEv worker claim_id lease_until =>
      tagged "Claimed" [("claim_id", JString claim_id); ("lease_until", JInt lease_until); ("worker", JString worker)]
  | RetryScheduled run_at attempt error =>
      tagged "RetryScheduled" [("attempt", JInt attempt); ("error", JString error); ("run_at", JInt run_at)]
  | DeadEv reason error => tagged "Dead" [("error", JString error); ("reason", dead_reason_to_json reason)]
  | e => job_event_to_json e
  end.

Definition state_value (s : JobState) : Json :=
  match s with
  | Pending kind payload run_at attempt claims =>
      tagged "Pending" [("attempt", JInt attempt); ("claims", JInt claims); ("kind", JString kind);
                        ("payload", payload); ("run_at", JInt run_at)]
  | Claimed kind payload worker claim_id run_at attempt claims =>
      tagged "Claimed" [("attempt", JInt attempt); ("claim_id", JString claim_id); ("claims", JInt claims);
                        ("kind", JString kind); ("payload", payload); ("run_at", JInt run_at);
                        ("worker", JString worker)]
  | s => job_state_to_json s
  end.

Ltac open_values :=
  repeat match goal with
  | H : is_value _ = true |- _ => apply bool_decide_eq_true in H
  | H : payload_storable _ |- _ => destruct H
  | H : _ /\ _ |- _ => destruct H
  end.

Lemma canon_event e : Job.event_ok e -> canon (ser e) = event_value e /\ canon (event_value e) = event_value e.
Proof.
  intros Hok. destruct e as [k p r|w c l| |r a err|r|[] err]; simpl in Hok; open_values; split; try reflexivity.
  all: simpl; repeat match goal with H : canon _ = _ |- _ => rewrite H; clear H end; try reflexivity.
Qed.

Lemma canon_state s : Job.state_ok s ->
  canon (ser (Live s : JobLifecycle)) = JObject [("Live", state_value s)] /\
  canon (JObject [("Live", state_value s)]) = JObject [("Live", state_value s)].
Proof.
  intros Hok. destruct s as [k p r a c|k p w cid r a c| |[]]; simpl in Hok; open_values; split; try reflexivity.
  all: simpl; repeat match goal with H : canon _ = _ |- _ => rewrite H; clear H end; try reflexivity.
Qed.

Local Ltac decode :=
  open_values; lazy -[representable in_u32 canon];
  repeat match goal with H : _ = _ |- _ => rewrite H; clear H end; try done.

Lemma decode_event e : Job.event_ok e -> de (event_value e) = Some e.
Proof. intros Hok. destruct e as [k p r|w c l| |r a err|r|[] err]; simpl in Hok; decode. Qed.

Lemma decode_state s : Job.state_ok s -> de (JObject [("Live", state_value s)]) = Some (Live s : JobLifecycle).
Proof. intros Hok. destruct s as [k p r a c|k p w cid r a c| |[]]; simpl in Hok; decode. Qed.

(** Instants and counters are JSON integers. *)
Lemma instant_integral r : representable r = true -> ((i64_min <=? r) && (r <=? u64_max))%Z = true.
Proof. intros Hr. by apply in_i64_integral, representable_i64. Qed.

Ltac portable_value :=
  unfold portable; apply andb_true_iff; split;
  [cbn [event_value state_value job_event_to_json job_state_to_json dead_reason_to_json tagged integral forallb snd]
  |apply Nat.ltb_lt; unfold recursion_limit in *;
   cbn [event_value state_value job_event_to_json job_state_to_json dead_reason_to_json tagged depth map max_list fold_right snd];
   lia];
  repeat match goal with
  | H : representable _ = true |- _ => rewrite (instant_integral _ H); clear H
  | H : in_u32 _ = true |- _ => rewrite (in_u32_integral _ H); clear H
  | H : integral _ = true |- _ => rewrite H; clear H
  end; done.

Lemma portable_event e : event_storable e -> portable (event_value e) = true.
Proof.
  intros [Hok Hp]. destruct e as [k p r|w c l| |r a err|r|[] err]; simpl in Hok, Hp; open_values; portable_value.
Qed.

Lemma portable_state s : state_storable s -> portable (JObject [("Live", state_value s)]) = true.
Proof.
  intros [Hok Hp]. destruct s as [k p r a c|k p w cid r a c| |[]]; simpl in Hok, Hp; open_values; portable_value.
Qed.

(** What the job types can hold, the event store reads back. *)
Lemma job_event_stored e : event_storable e -> Store.event_ok e.
Proof.
  intros Hst. pose proof Hst as [Hok _]. destruct (canon_event e Hok) as [Hc Hc']. unfold Store.event_ok.
  rewrite Hc. split_and!; [by apply portable_event|by apply bool_decide_eq_true|by apply decode_event].
Qed.

Lemma job_state_stored s :
  state_storable s -> Store.state_ok (Entity := JobState) (Event := JobEvent) (Error := JobError) (Live s).
Proof.
  intros Hst. pose proof Hst as [Hok _]. destruct (canon_state s Hok) as [Hc Hc']. unfold Store.state_ok.
  rewrite Hc. split_and!; [by apply portable_state|by apply bool_decide_eq_true|by apply decode_state].
Qed.

Abbreviation inv := (Store.store_inv job_config type_name job_event_version).
Abbreviation start := (Uninitialized : JobLifecycle).

(** The job's snapshot, if one was written, is of a state the job has had. *)
Definition job_stored (id : string) (es : list JobEvent) (db : Db) : Prop :=
  match db_snapshots db !! (JOB_AGGREGATE_TYPE, id) with
  | None => True
  | Some row =>
      covers (Entity := JobState) (Command := JobCommand) (Error := JobError) es 0 row \/
      outdated (Entity := JobState) (Event := JobEvent) (Error := JobError) job_config 0 row
  end.

Lemma job_log id es db :
  well_formed db -> job_inv id es db -> job_stored id es db -> inv id es 0 db.
Proof.
  intros Hwf [Hlog _ Hlive Hsto] Hs. split; [done| | |lia|].
  - split; [|done]. eapply Forall_impl; [exact Hsto|]. intros e. apply job_event_stored.
  - cbn [AGGREGATE_TYPE job_config]. rewrite Hlog, job_events_number. done.
  - unfold job_stored in Hs. cbn [AGGREGATE_TYPE job_config]. by destruct (db_snapshots db !! _).
Qed.

Lemma log_stored id es db : inv id es 0 db -> job_stored id es db.
Proof.
  intros Hinv. pose proof (si_snapshot _ _ _ _ _ _ _ Hinv) as Hs. unfold job_stored.
  cbn [AGGREGATE_TYPE job_config] in Hs. by destruct (db_snapshots db !! _).
Qed.

(** ** Settling through the store *)

Lemma settle_is_execute id (context : AggregateContext JobLifecycle) command :
  execute_in job_config type_name job_event_version 0 (fun _ => 0%Z) id context command =
  JobHistory.settle id (ctx_aggregate context) (ctx_sequence context) command (update_for job_config id context command).
Proof. reflexivity. Qed.

Lemma update_for_job id (context : AggregateContext JobLifecycle) command : snapshot_for id (update_for job_config id context command).
Proof.
  unfold update_for. destruct (handle _ command (Some [])) as [[events|e] ?]; [|done].
  by destruct (snapshot_with _ context events) as [[a v]|].
Qed.

(** What a command of the worker or of a token holder did to the job. *)
Definition settled (id : string) (es : list JobEvent) (command : JobCommand) (db db' : Db) : Prop :=
  es = [] /\ db' = db \/
  exists s e worker lease, replay start es = Live s /\ job_transition s command = Ok (Events [e]) /\
    last es = Some (ClaimedEv worker (command_claim_id command) lease) /\ is_claim e = false /\
    history_inv id (es ++ [e], db') /\ job_stored id (es ++ [e]) db'.

(** Projecting the outcome keeps the job's history. *)
Lemma projected_outcome j es e w worker cid lease :
  let id := ulid_to_string j in
  history_inv id (es ++ [e], w_db w) -> job_stored id (es ++ [e]) (w_db w) ->
  last es = Some (ClaimedEv worker cid lease) ->
  (forall row, view_table JOB_QUEUE (w_db w) !! id = Some row -> view_version row = Z.of_nat (length es)) ->
  let w' := job_projection id [e] w in
  history_inv id (es ++ [e], w_db w') /\ job_stored id (es ++ [e]) (w_db w').
Proof.
  intros id Hinv Hsto Hl Hv. cbv zeta. unfold job_projection, projection_query, bridge_dispatch, id.
  rewrite ulid_from_str_to_string. cbn [dispatch_events reactor_react projection_reactor fst snd].
  pose proof (react_loop_spec (Entity := JobState) (Error := JobError) (Z.to_nat RETRY_MAX_ATTEMPTS) JOB_QUEUE id e w) as Hr.
  fold (react (Entity := JobState) (Event := JobEvent) (Error := JobError) JOB_QUEUE id e) in Hr. fold id.
  destruct (react JOB_QUEUE id e w) as [o w1]. cbn [snd].
  destruct o; [|by rewrite Hr..].
  destruct Hr as (l & v & lease' & Hat & ->). destruct Hinv as [Hwf Hinv]. cbn [fst snd] in *.
  pose proof (ji_row _ _ _ Hinv) as Hrow. unfold view_at in Hat.
  destruct (view_table JOB_QUEUE (w_db w) !! id) as [row|] eqn:Hvt; [|by destruct es].
  destruct (read_row _ _ _ _ Hinv Hvt) as (n & s & Hver & Hn & Hrep & _ & _ & Htext & _).
  rewrite (Hv row eq_refl) in Hver. assert (n = length es) as -> by lia. rewrite take_app_length in Hrep.
  assert (view_from_str (view_payload row) = Ok (Live s : JobLifecycle)) as Hread.
  { unfold view_from_str. unfold lifecycle_from_text in Htext. by rewrite Htext. }
  rewrite Hread in Hat. cbn in Hat. injection Hat as <- <-.
  assert (job_inv id (es ++ [e]) (set_view JOB_QUEUE id (mkViewRow (i64_add (Z.of_nat (length es)) 1)
    (lifecycle_text (apply (replay start (take (length es) (es ++ [e]))) e)) (view_lease_until row)) (w_db w))) as Hproj.
  { eapply job_inv_project; [done|done|by apply list_lookup_middle|done|by apply Hv]. }
  rewrite take_app_length, Hrep in Hproj. rewrite (Hv row eq_refl). split; [split|done].
  - simpl. auto with sorcery.
  - cbn [fst snd]. eapply (job_inv_lease id _ _ _ lease') in Hproj.
    2:{ unfold set_view, view_table. cbn. rewrite lookup_insert_eq. cbn. by rewrite lookup_insert_eq. }
    revert Hproj. unfold set_view, set_view_table, view_table. cbn.
    rewrite !insert_insert_eq, lookup_insert_eq. cbn. by rewrite insert_insert_eq.
Qed.

(** The commit of an outcome decided at the end of the log. *)
Lemma wp_outcome id es db context command m :
  well_formed db -> job_inv id es db -> job_stored id es db -> command_ok command ->
  stands_at es (length es) context ->
  execute_in job_config type_name job_event_version 0 (fun _ => 0%Z) id context command = Some m ->
  wp true m db (fun r db' =>
    match r with
    | Err _ => db' = db
    | Ok _ => es = [] /\ db' = db \/
        exists s e, replay start es = Live s /\ job_transition s command = Ok (Events [e]) /\
          held_claim s = Some (command_claim_id command) /\ is_claim e = false /\
          (handle (replay start es) command (Some [])).1 = Ok [e] /\
          history_inv id (es ++ [e], db') /\ job_stored id (es ++ [e]) db' /\
          view_table JOB_QUEUE db' = view_table JOB_QUEUE db
    end).
Proof.
  intros Hwf Hinv Hst Hcmd Hctx Hm. pose proof (job_log _ _ _ Hwf Hinv Hst) as Hlog.
  pose proof (state_after_all (Entity := JobState) (Error := JobError) es (length es) (Nat.le_refl _)) as Hall.
  pose proof (wp_execute_in job_config type_name job_event_version 0 (fun _ => 0%Z) true id es (length es) context command m db Hctx Hm) as Hw1.
  pose proof Hm as Hm'. rewrite settle_is_execute in Hm'. destruct Hctx as (Ha & Hs & Hv). rewrite Ha, Hs in Hm'.
  pose proof (wp_settle true id es db (length es) command _ m Hinv Hcmd (update_for_job id context command) (Nat.le_refl _) Hm') as Hw2.
  eapply wp_mono; [apply (wp_and _ _ _ _ _ Hw1 Hw2)|]. intros [[]|err] db'; [|by intros [[-> _] _]].
  rewrite Hall. intros [(events & pending & Hh & Hdb) Hset]. rewrite take_ge in Hset by done.
  destruct Hset as [Hnil|(s & e & request & _ & Hr & Hheld & Ht & Hinv' & Hacc & Hdb')]; [by left|]. right.
  destruct (handle_job _ _ _ _ Hh) as [-> [[Hu _]|(s1 & e1 & s1' & Hs1 & -> & _ & Ht1 & Hev)]]; [by rewrite Hr in Hu|].
  rewrite Hr in Hs1. injection Hs1 as <-. rewrite Ht in Ht1. injection Ht1 as <-.
  destruct (transition_event _ _ _ Ht Hcmd) as [Hsto Hc].
  destruct Hdb as (prepared & Hp & Hacc' & Hdb). cbn in Hp. injection Hp as <-. cbn [prepared_requests] in *.
  assert (replay start (es ++ [e]) = Live s1') as Hnew by (by eapply replay_snoc).
  assert (inv id (es ++ [e]) 0 db') as Hlog'.
  { rewrite Hdb. eapply inv_committed; [by right|exact Hlog|done| |by rewrite <-replay_app, Hnew|by right; simpl; lia| |exact Hacc'].
    - split; [by constructor; [apply job_event_stored|]|]. rewrite <-replay_app, Hnew. apply job_state_stored.
      eapply replay_storable; [|exact Hnew]. apply Forall_app. split; [apply Hinv|by constructor].
    - eapply update_for_ok; [exact _|split_and!; [exact Ha|exact Hs|exact Hv]|exact Hh]. }
  exists s, e. split_and!; try done; [by rewrite Hh|by split; [apply (si_wf _ _ _ _ _ _ _ Hlog')|]|by apply log_stored|].
  rewrite Hdb. unfold committed. cbn [jobs_flushed fold_left cr_jobs persist_request].
  unfold snapshot_written. by repeat case_match.
Qed.

(** A claimed job's row stands at its last claim. *)
Lemma claimed_row_current id es db row worker cid lease :
  job_inv id es db -> last es = Some (ClaimedEv worker cid lease) ->
  view_table JOB_QUEUE db !! id = Some row -> view_version row = Z.of_nat (length es).
Proof.
  intros Hinv Hl Hrow. destruct (read_row _ _ _ _ Hinv Hrow) as (n & s & Hv & Hn & _ & _ & _ & _ & Hdrop).
  destruct (decide (n = length es)) as [->|Hne]; [done|]. exfalso.
  apply last_Some in Hl as [l ->]. rewrite length_app in *. cbn in Hn, Hne.
  rewrite drop_app_le in Hdrop by lia. apply Forall_app in Hdrop as [_ Hd]. by apply Forall_cons in Hd as [? _].
Qed.

Lemma job_send_spec j command es w :
  let id := ulid_to_string j in
  history_inv id (es, w_db w) -> job_stored id es (w_db w) -> command_ok command ->
  let '(r, w') := job_send j command w in
  match r with
  | Err _ => w_db w' = w_db w
  | Ok _ => settled id es command (w_db w) (w_db w')
  end.
Proof.
  intros id [Hwf Hinv] Hst Hcmd. cbn [fst snd] in *. unfold job_send, store_send. fold id.
  unfold mbind, M_bind.
  pose proof (wp_world _ w _ (wp_load_aggregate job_config type_name job_event_version true id es 0 (w_db w)
    (job_log _ _ _ Hwf Hinv Hst))) as Hl.
  destruct (load_aggregate (sqlite_event_repo job_config) id w) as [[context|e] w1]; cbn [fst snd] in Hl;
    [|by destruct Hl as [-> _]]. destruct Hl as [Hdb [Hctx _]].
  destruct (execute_in job_config type_name job_event_version 0 (fun _ => 0%Z) id context command) as [m|] eqn:Hm;
    [|by cbn].
  assert (wp true m (w_db w1) _) as Ho%wp_world by (rewrite Hdb; eapply wp_outcome; eassumption).
  destruct (m w1) as [[[]|e] w2]; cbn [fst snd] in Ho; [|done].
  destruct Hctx as (Ha & _). rewrite state_after_all in Ha by done. unfold notify. rewrite Ha.
  destruct Ho as [[-> Hdb2]|(s & e & Hr & Ht & Hheld & Hc & Hh & Hinv2 & Hst2 & Hviews)].
  - left. split; [done|]. cbn [replay fold_left] in *.
    destruct (handle (Uninitialized : JobLifecycle) command (Some [])) as [[events|err] pending] eqn:Hh; [|by cbn].
    destruct (handle_job _ _ _ _ Hh) as [_ [[_ ->]|(? & ? & ? & ? & _)]]; [by cbn|done].
  - destruct (handle (replay start es) command (Some [])) as [events pending]. cbn [fst] in Hh. subst events.
    cbn [run_queries]. right. destruct s; try done. injection Hheld as Hheld.
    destruct (replay_claimed_last _ _ _ _ _ _ _ _ Hr) as (es' & lease & Hes).
    assert (last es = Some (ClaimedEv worker (command_claim_id command) lease)) as Hlast
      by (by rewrite Hes, last_snoc, Hheld).
    destruct (projected_outcome j es e w2 worker _ lease Hinv2 Hst2 Hlast) as [Hinv3 Hst3].
    { intros row Hrow. rewrite Hviews in Hrow. eapply claimed_row_current; [exact Hinv|exact Hlast|exact Hrow]. }
    eexists _, e, worker, lease. split_and!; [exact Hr|exact Ht|exact Hlast|exact Hc|exact Hinv3|exact Hst3].
Qed.

(** A settlement through the store settles its claim.  [Store::send] on the job
    aggregate loads the job, decides, commits and projects; under any fault schedule it
    either answers an error and changes nothing, or the stream ended in the very claim
    the command carries, exactly the command's outcome was appended to it, the job's
    history invariant holds with the row projected or lagging, and its snapshot is
    still of a state the job has had. *)
Theorem store_settles_claim j command es w :
  let id := ulid_to_string j in
  history_inv id (es, w_db w) -> job_stored id es (w_db w) -> command_ok command ->
  let '(r, w') := job_send j command w in
  match r with
  | Err _ => w_db w' = w_db w
  | Ok _ => settled id es command (w_db w) (w_db w')
  end.
Proof. intros id Hinv Hst Hcmd. by apply job_send_spec. Qed.

(** ** Settling through a token *)

Lemma call_command_ok c handle recorded :
  call_command c handle = Some recorded ->
  command_ok recorded /\ command_claim_id recorded = handle_claim_id handle.
Proof.
  destruct c as [wire|wire|wire|wire]; cbn [call_command].
  - by intros [= <-].
  - intros (run_at & Hr & Ha)%bind_Some. apply bind_Some in Ha as (attempt & Ha & [= <-]).
    unfold from_timestamp_millis in Hr. unfold u32_checked_add in Ha.
    destruct (representable _) eqn:Hrep; [|done]. injection Hr as <-. destruct (in_u32 _) eqn:Hu; [|done].
    injection Ha as <-. by split.
  - intros (run_at & Hr & [= <-])%bind_Some. unfold from_timestamp_millis in Hr.
    destruct (representable _) eqn:Hrep; [|done]. injection Hr as <-. by split.
  - destruct (dead_reason (dl_reason wire)); [|done]. by intros [= <-].
Qed.

(** C10: a claim token settles the claim it stands for, durably and once.  A settlement
    call of any kind with a token in circulation, under any fault schedule: tag 0 means
    that the job's stream still ended in the token's own claim and that exactly the
    outcome the caller asked for was appended to it, every invariant of the job kept;
    tag 1 that nothing was written; in both cases the token is gone.  An error means
    that nothing was written and the token can be used again. *)
Theorem token_settles_claim c s es handle lease :
  let id := ulid_to_string (handle_job_id handle) in
  retained (si_claims s) !! call_token c = Some (mkRetained handle lease Available) ->
  history_inv id (es, w_db (si_world s)) -> job_stored id es (w_db (si_world s)) -> es <> [] ->
  let '(r, s') := settle_call job_send c s in
  match r with
  | Err _ => si_claims s' = si_claims s /\ w_db (si_world s') = w_db (si_world s)
  | Ok tag => retained (si_claims s') !! call_token c = None /\
      (tag = 1%Z /\ w_db (si_world s') = w_db (si_world s) \/
       tag = 0%Z /\ exists recorded state e worker lease',
         call_command c handle = Some recorded /\
         last es = Some (ClaimedEv worker (handle_claim_id handle) lease') /\
         replay start es = Live state /\ job_transition state recorded = Ok (Events [e]) /\
         history_inv id (es ++ [e], w_db (si_world s')) /\ job_stored id (es ++ [e]) (w_db (si_world s')))
  end.
Proof.
  intros id Hret Hinv Hst Hne. pose proof (settle_call_spec job_send c s) as Hs.
  assert (forall recorded sent s', call_command c handle = Some recorded ->
    job_send (handle_job_id handle) recorded (si_world s) = (sent, si_world s') ->
    match sent with
    | Err _ => w_db (si_world s') = w_db (si_world s)
    | Ok _ => settled id es recorded (w_db (si_world s)) (w_db (si_world s'))
    end) as Hsent.
  { intros recorded sent s' Hcmd Hsend. destruct (call_command_ok _ _ _ Hcmd) as [Hok _].
    pose proof (job_send_spec (handle_job_id handle) recorded es (si_world s) Hinv Hst Hok) as Hj.
    by rewrite Hsend in Hj. }
  destruct (settle_call job_send c s) as [[tag|e] s']; cbn [settlement_exact] in Hs.
  - destruct Hs as (handle' & lease1 & recorded & sent & Hret' & Hcmd & Hsend & Htag & Hcl).
    rewrite Hret in Hret'. injection Hret' as <- <-. specialize (Hsent _ _ _ Hcmd Hsend).
    split; [rewrite Hcl; unfold retire_claim; apply lookup_delete_eq|].
    destruct Htag as [[-> Hsa]|[-> Hsf]]; [right|left]; (split; [done|]).
    + destruct sent as [[]|err]; [|by destruct err as [[]| | | |]; try done; destruct e].
      destruct Hsent as [[-> _]|(st & e & worker & lease' & Hr & Ht & Hl & _ & Hinv' & Hst')]; [done|].
      exists recorded, st, e, worker, lease'. destruct (call_command_ok _ _ _ Hcmd) as [_ Hid].
      rewrite <-Hid. by split_and!.
    + by destruct sent as [[]|err].
  - destruct Hs as [Hcl [Hw|(handle' & lease1 & recorded & sent & Hret' & Hcmd & Hsend & Hbad)]].
    + by rewrite Hw.
    + rewrite Hret in Hret'. injection Hret' as <- <-. specialize (Hsent _ _ _ Hcmd Hsend). by destruct sent.
Qed.
End job_store.
