(* ===== verification/Protocol.v ===== *)
(** * The protocol of a dispatched job, origin and queue together

    The parts of a dispatch meet in one database: the origin's store (Delivery.v), the
    job's own aggregate and row (JobStore.v), the worker that claims, executes and
    acknowledges (Worker.v).  [kept] says which streams an operation of one part leaves
    alone, so that the invariants of the others survive it.  [protocol_step] runs them
    against each other: any number of claims, of executions that race as in
    [delivery_step], of lost executions and failed driver calls, in any order.

    [outcome_backed_by_origin] is what the queue's record of a dispatched job is worth;
    Completion.v follows one job from the command that kicked it off to the verdict. *)

From S2P Require Import Prelude Json Sqlite EventTable Lifecycle Schema Job Engine EngineProps.
From S2P Require Import ViewRepository JobQueue JobQueueProps Repository SchemaRecovery JobHistory Reactor Dispatch Worker Backend Poll.
From S2P Require Import Projection Startup Store StoreProps StoreHistory Delivery Ffi JobStore.

(** ** Frames *)

Section frames.
Context `{SerdeJsonLaws, Chrono, Ulid}.
Context {Entity Event Command Error : Type} `{EventSourced Entity Event Command Error}.
Context `{Serde Entity, Serde Event, Serde Error}.

(** The stream [(t, i)] and its snapshot are what they were. *)
Definition kept (t i : string) (db db' : Db) : Prop :=
  stream_rows t i db' = stream_rows t i db /\ db_snapshots db' !! (t, i) = db_snapshots db !! (t, i).

#[export] Instance kept_preorder t i : PreOrder (kept t i).
Proof. split; [done|]. intros d1 d2 d3 [H12 S12] [H23 S23]. split; [by rewrite H23|by rewrite S23]. Qed.

Lemma inv_kept config event_type event_version id log floor db db' :
  Store.store_inv (Entity := Entity) (Command := Command) (Error := Error) config event_type event_version id log floor db ->
  well_formed db' -> kept (AGGREGATE_TYPE config) id db db' ->
  Store.store_inv (Entity := Entity) (Command := Command) (Error := Error) config event_type event_version id log floor db'.
Proof. intros [] Hwf [Hr Hs]. split; try done; [by rewrite Hr|by rewrite Hs]. Qed.

(** A commit without jobs touches its own stream. *)
Lemma committed_kept t i request db :
  Forall (in_stream_event (stream_type (cr_stream request)) (stream_id (cr_stream request))) (cr_events request) ->
  cr_jobs request = [] -> (t, i) <> (stream_type (cr_stream request), stream_id (cr_stream request)) ->
  kept t i db (committed request db) /\ db_views (committed request db) = db_views db.
Proof.
  intros Hev Hj Hne. unfold committed. rewrite Hj. cbn [jobs_flushed fold_left].
  split; [split|unfold snapshot_written; by repeat case_match].
  - unfold stream_rows at 1. rewrite snapshot_written_events. apply stream_rows_append_other.
    eapply Forall_impl; [exact Hev|]. unfold in_stream_event. intros e [Ht Hi] [Ht' Hi']. congruence.
  - unfold snapshot_written. repeat case_match; try done. cbn. by rewrite lookup_insert_ne.
Qed.

(** The compaction of another type. *)
Lemma compacted_kept t i t' db : t <> t' -> kept t i db (delete_covered t' db).
Proof.
  intros Hne. split; [|done]. rewrite stream_rows_delete_covered. apply list_filter_all.
  intros r [[Ht _]%in_stream_true _]%list_elem_of_filter. unfold compactable. rewrite Ht. by rewrite (proj2 (String.eqb_neq t t')).
Qed.

Context `{!CqrsEs Entity Event Error} `{!CqrsEsLaws}.
Context (config : EntityConfig) (event_type event_version : Event -> string).
Context (max_delay : Z) (clock : nat -> Z) (queries : list (Query (Event := Event))).
Context (Hqueries : queries_keep queries).

(** A command that dispatches nothing touches its own stream, and the tables of its
    queries. *)
Lemma store_send_kept id log floor command w t i :
  Store.store_inv (Entity := Entity) (Command := Command) (Error := Error) config event_type event_version id log floor (w_db w) ->
  (handle (replay Uninitialized log) command (Some [])).2 = Some [] -> (t, i) <> (AGGREGATE_TYPE config, id) ->
  let w' := (store_send config event_type event_version max_delay clock queries id command w).2 in
  kept t i (w_db w) (w_db w') /\
  forall table, queries_off queries table -> view_table table (w_db w') = view_table table (w_db w).
Proof.
  intros Hinv Hpend Hne. cbv zeta.
  pose proof (store_send_queries config event_type event_version max_delay clock queries Hqueries id command w) as Hq.
  pose proof (wp_world _ w _ (wp_send_command config event_type event_version max_delay clock true id log floor command (w_db w) Hinv)) as Ho.
  destruct (send_command _ _ _ _ _ id command w) as [r w1]. cbn [fst snd] in Ho. destruct Hq as (w' & -> & Hq). cbn [snd].
  unfold send_outcome in Ho. destruct r as [[[]|]|e]; [|subst w'; destruct Ho as [-> _]; by split..].
  destruct Ho as (events & pending & Hh & Hdb). rewrite Hh in Hpend. cbn in Hpend. subst pending.
  assert (kept t i (w_db w) (w_db w1) /\ db_views (w_db w1) = db_views (w_db w)) as [Hk Hv].
  { destruct events as [|e events]; [by rewrite Hdb|]. destruct Hdb as (prepared & update & Hp & Hu & _ & ->).
    cbn in Hp. injection Hp as <-.
    apply committed_kept; [|done|]; cbn [persist_request cr_stream cr_events];
      (erewrite persist_stream_of; [|done|exact Hu]); [apply number_in_stream|done]. }
  destruct Hq as (He & Hsn & Hviews). split.
  - etransitivity; [exact Hk|]. split; [unfold stream_rows; by rewrite He|by rewrite Hsn].
  - intros table Ht. rewrite Hviews by done. unfold view_table. by rewrite Hv.
Qed.
End frames.

(** ** The queue's side *)

Section queue.
Context `{SerdeJsonLaws, ChronoLaws, UlidLaws, SqliteJson}.
Context `{!CqrsEs JobState JobEvent JobError} `{!CqrsEsLaws}.

(** The database holds the log [es] of the job [job]. *)
Definition job_log_at (job : JobId) (es : list JobEvent) (db : Db) : Prop :=
  let id := ulid_to_string job in history_inv id (es, db) /\ job_stored id es db.

(** The job's stream, snapshot and row are what they were. *)
Definition job_untouched (job : JobId) (db db' : Db) : Prop :=
  kept JOB_AGGREGATE_TYPE (ulid_to_string job) db db' /\
  view_table JOB_QUEUE db' !! ulid_to_string job = view_table JOB_QUEUE db !! ulid_to_string job.

Lemma job_log_untouched job es db db' :
  job_log_at job es db -> well_formed db' -> job_untouched job db db' -> job_log_at job es db'.
Proof.
  intros [Hinv Hst] Hwf [[Hr Hs] Hv]. split; [|by unfold job_stored; rewrite Hs].
  refine (proj1 (history_step _ (es, db) (es, db') _ Hinv)). exists ActOther. by apply step_other.
Qed.

(** Operations on other aggregates and other rows keep it. *)
Lemma job_log_kept job es db db' :
  job_log_at job es db -> well_formed db' -> kept JOB_AGGREGATE_TYPE (ulid_to_string job) db db' ->
  view_table JOB_QUEUE db' = view_table JOB_QUEUE db -> job_log_at job es db'.
Proof.
  intros Hlog Hwf Hk Hv. eapply job_log_untouched; [done|done|]. split; [done|by rewrite Hv].
Qed.

Lemma job_stored_app id es e db : job_stored id es db -> job_stored id (es ++ [e]) db.
Proof. unfold job_stored. case_match; [|done]. intros [Hc|Ho]; [left; by apply cov_app|by right]. Qed.

Lemma swapped_kept t i id event payload lease db :
  (t, i) <> (ev_aggregate_type event, ev_aggregate_id event) -> kept t i db (swapped id event payload lease db).
Proof.
  intros Hne. split; [|done]. apply (stream_rows_append_other t i [event] db).
  repeat constructor. unfold in_stream_event. intros [Ht Hi]. congruence.
Qed.

(** What a claim, won or not, makes of the job and of everything else. *)
Definition log_after_claim_as (es : list JobEvent) (worker fresh : string) (lease_until : Z)
    (r : result JobRuntimeError JobClaimResult) : list JobEvent :=
  match r with
  | Ok (ClaimedJob _ _) => es ++ [ClaimedEv worker fresh lease_until]
  | Ok ClaimAbandoned => es ++ [DeadEv Abandoned "claim budget exhausted"]
  | _ => es
  end.

Lemma claim_as_spec job es worker now_ms lease_ms max_claims fresh w :
  job_log_at job es (w_db w) -> in_u32 max_claims = true ->
  let '(r, w') := claim_job_as job worker now_ms lease_ms max_claims fresh w in
  (forall t i, t <> JOB_AGGREGATE_TYPE -> kept t i (w_db w) (w_db w')) /\
  match r with Ok (ClaimedJob h _) => handle_job_id h = job | _ => True end /\
  job_log_at job (log_after_claim_as es worker fresh (now_ms + lease_ms) r) (w_db w').
Proof.
  intros [[Hwf Hinv] Hst] Hm. cbn [fst snd] in *. unfold claim_job_as. destruct (_ || _ || _).
  { cbn. split; [by intros; split|]. split; [done|]. by split. }
  set (id := ulid_to_string job) in *. unfold mbind, M_bind, lift_err.
  pose proof (claim_spec id es w worker now_ms lease_ms max_claims fresh Hwf Hinv Hm) as Hc.
  set (dec := fun read => plan_claim id read worker now_ms lease_ms max_claims fresh) in *.
  pose proof (wp_world _ w _ (wp_claim_job true id dec (w_db w))) as Hw.
  pose proof (plan_claim_stream id (read_of id (w_db w)) worker now_ms lease_ms max_claims fresh) as Hp.
  fold (dec (read_of id (w_db w))) in Hp.
  destruct (claim_job id dec w) as [[[won| | |]|e] w']; cbn [fst snd map_err mret M_ret] in *.
  3-5: rewrite Hc; (split; [by intros; split|]); split; [done|]; by split.
  - destruct Hw as (event & payload & lease & Hd & _ & Hdb). rewrite Hd in Hp. destruct Hp as [Ht Hid].
    destruct Hc as (s & row & row' & _ & _ & _ & _ & _ & _ & _ & Hinv' & _ & _ & Hwf').
    split; [intros t i Hti; rewrite Hdb; apply swapped_kept; congruence|]. split; [done|].
    split; [by split|]. rewrite Hdb. by apply job_stored_app.
  - destruct Hw as (event & payload & Hd & _ & Hdb). rewrite Hd in Hp. destruct Hp as [Ht Hid].
    destruct Hc as (s & _ & _ & Hinv' & Hwf').
    split; [intros t i Hti; rewrite Hdb; apply swapped_kept; congruence|]. split; [done|].
    split; [by split|]. rewrite Hdb. by apply job_stored_app.
Qed.

Lemma renew_spec job es h lease w :
  handle_job_id h = job -> job_log_at job es (w_db w) ->
  let w' := (runtime_renew_job h lease w).2 in
  (forall t i, kept t i (w_db w) (w_db w')) /\ job_log_at job es (w_db w').
Proof.
  intros <- Hlog. cbv zeta. unfold runtime_renew_job, mbind, M_bind, lift_err. pose proof Hlog as [[Hwf Hinv] Hst].
  pose proof (wp_world _ w _ (wp_renew_job true (ulid_to_string (handle_job_id h)) (handle_claim_seq h) lease (w_db w))) as Hw.
  destruct (renew_job _ _ _ w) as [r w']. cbn [fst snd] in Hw.
  assert ((forall t i, kept t i (w_db w) (w_db w')) /\ job_log_at (handle_job_id h) es (w_db w')) as Hg; [|by destruct r].
  destruct Hw as [[_ ->]|(_ & row & Hrow & _ & _ & ->)]; [by split|]. split; [by split|].
  split; [split; [cbn [snd]; auto with sorcery|by apply job_inv_lease]|done].
Qed.

(** A settlement through the job's store. *)
Lemma ack_spec job es command w :
  job_log_at job es (w_db w) -> es <> [] -> command_ok command ->
  let '(r, w') := job_send job command w in
  (forall t i, t <> JOB_AGGREGATE_TYPE -> kept t i (w_db w) (w_db w')) /\
  exists es', job_log_at job es' (w_db w') /\
    match r with
    | Ok _ => exists s e, replay Uninitialized es = Live s /\ job_transition s command = Ok (Events [e]) /\ es' = es ++ [e]
    | Err _ => es' = es
    end.
Proof.
  intros Hlog Hne Hcmd. pose proof Hlog as [[Hwf Hinv] Hst]. cbn [fst snd] in *.
  pose proof (job_send_spec job command es w (conj Hwf Hinv) Hst Hcmd) as Hs.
  assert (forall t i, t <> JOB_AGGREGATE_TYPE -> kept t i (w_db w) (w_db (job_send job command w).2)) as Hk.
  { intros t i Ht.
    assert ((handle (replay (Uninitialized : JobLifecycle) es) command (Some [])).2 = Some []) as Hp.
    { destruct (handle _ command (Some [])) as [[events|e] pending] eqn:Hh; [by destruct (handle_job _ _ _ _ Hh)|].
      revert Hh. unfold handle. destruct (replay _ es) as [|s|]; cbn; [congruence| |congruence].
      destruct (job_transition s command) as [effect|] eqn:Htr; cbn; [|congruence].
      destruct (job_transition_holder _ _ _ Htr) as (_ & e1 & s1 & -> & Hev & _). cbn. rewrite Hev. congruence. }
    pose proof (store_send_kept job_config type_name job_event_version 0 (fun _ => 0%Z) job_queries
      (projection_keeps ulid_from_str ulid_to_string JOB_QUEUE) (ulid_to_string job) es 0 command w t i
      (job_log _ _ _ Hwf Hinv Hst) Hp ltac:(intros [=]; contradiction)) as [Hk _].
    unfold job_send, mbind, M_bind. destruct (store_send _ _ _ _ _ _ _ command w) as [[[]|e] w']; exact Hk. }
  destruct (job_send job command w) as [[[]|e] w']; (split; [exact Hk|]).
  - destruct Hs as [[-> _]|(s & e & worker & lease & Hr & Ht & _ & _ & Hh & Hst')]; [done|].
    exists (es ++ [e]). split; [by split|]. by exists s, e.
  - exists es. split; [|done]. by rewrite Hs.
Qed.

(** What the worker's command records. *)
Lemma ack_command_ok max_delta config now ctx (plan : AckPlan) command :
  ack_command max_delta config now ctx plan = Some command -> command_ok command.
Proof.
  assert (forall d run_at, instant_after now d = Some run_at -> representable run_at = true) as Hi.
  { unfold instant_after, from_timestamp_millis. intros d run_at. case_match; congruence. }
  destruct plan as [|d|e|e]; cbn [ack_command].
  - by intros [= <-].
  - intros (run_at & Hr & [= <-])%bind_Some. by eapply Hi.
  - case_match; [by intros [= <-]|]. intros (run_at & Hr & [= <-])%bind_Some. split; [by eapply Hi|apply in_u32_add].
  - by intros [= <-].
Qed.

Lemma ack_outcome max_delta config now ctx (plan : AckPlan) command s e :
  ack_command max_delta config now ctx plan = Some command -> job_transition s command = Ok (Events [e]) ->
  match e with
  | Succeeded => plan = AckSucceeded
  | DeadEv Rejected _ => exists text, plan = AckRejected text
  | _ => True
  end.
Proof.
  intros Ha Ht. destruct s as [|k p h c r a n| |]; try done. cbn in Ht. destruct (String.eqb c _); [|done]. injection Ht as <-.
  destruct plan as [|d|t|t]; cbn [ack_command] in Ha; repeat (case_match; simplify_eq/=; try done);
    try (by apply bind_Some in Ha as (? & _ & ?)); by eexists.
Qed.
End queue.

(** ** Origin and queue *)

Section protocol.
Context `{SerdeJsonLaws, ChronoLaws, UlidLaws, SqliteJson}.
Context {Entity Event Command Error : Type} `{EventSourced Entity Event Command Error}.
Context `{Serde Entity, Serde Event, Serde Error}.
Context `{!CqrsEs Entity Event Error} `{!CqrsEsLaws (Entity := Entity)}.
Context `{!CqrsEs JobState JobEvent JobError} `{!CqrsEsLaws (Entity := JobState)}.
Context (config : EntityConfig) (event_type event_version : Event -> string).
Context (max_delay : Z) (clock : nat -> Z) (queries : list (Query (Event := Event))).
Context {J Output JobError_ : Type} `{!Origin J Output JobError_ Entity Event Command Error}.
Context `{!OriginLaws J Output JobError_ Entity Event Command Error}.
Context (HT : AGGREGATE_TYPE config <> JOB_AGGREGATE_TYPE).
Context (Hqueries : queries_keep queries).
Context (Hqueue : queries_off queries JOB_QUEUE).
Context (error_chain : JobError_ -> string) (task_chain : TaskError JobError_ -> string).
Context (max_delta : Z) (worker_config : JobWorkerConfig).

Abbreviation Verdict_ := (Verdict (Output := Output) (Error := JobError_)).
Abbreviation T := (AGGREGATE_TYPE config).
Abbreviation inv := (Store.store_inv (Entity := Entity) (Command := Command) (Error := Error) config event_type event_version).
Abbreviation event_of v := (origin_event (Entity := Entity) (Command := Command) (Error := Error) (verdict_event (J := J) v)).
Abbreviation deliver_ := (origin_deliver (J := J) (Entity := Entity) (Error := Error) config event_type event_version max_delay clock queries).
Abbreviation execute_ := (execute (J := J) (Entity := Entity) (Error := Error) config event_type event_version max_delay clock queries error_chain).
Abbreviation TaskResult := (result (TaskError JobError_) (JobOutcome ())).

(** The origin stands so in the database. *)
Definition origin_at (id : string) (job : JobId) (v : option Verdict_) (db : Db) : Prop :=
  exists log floor entity, inv id log floor db /\ replay Uninitialized log = Live entity /\ verdict_stands job v entity.

Lemma origin_kept id job v db db' : origin_at id job v db -> well_formed db' -> kept T id db db' -> origin_at id job v db'.
Proof. intros (log & floor & entity & Hinv & Hr) Hwf Hk. exists log, floor, entity. split; [by eapply inv_kept|done]. Qed.

Lemma origin_well_formed id job v db : origin_at id job v db -> well_formed db.
Proof. intros (log & floor & entity & Hinv & _). apply Hinv. Qed.

Lemma origin_settles_once id job :
  settles_once config event_type event_version max_delay clock queries id job (origin_at id job).
Proof.
  intros v u w Hu (log & floor & entity & Hinv & Hlive & Hv). destruct v as [v0|]; cbn [verdict_stands] in Hv.
  - destruct Hv as [Hv0 Hd].
    pose proof (deliver_settled config event_type event_version max_delay clock queries Hqueries id log floor u v0 entity w HT Hinv Hlive Hd) as Hs.
    destruct (deliver_ id u w) as [r w']. destruct Hs as [Hi Hk]. exists (Some v0).
    split_and!; [by exists log, floor, entity|by left|intros Hr; exists v0; auto].
  - destruct Hv as [Hd Hsto]. rewrite <-(proj1 Hu) in Hd.
    destruct (settle_in_flight (J := J) _ u eq_refl) as [_ Hev]. rewrite <-Hd in Hev.
    pose proof (deliver_in_flight config event_type event_version max_delay clock queries Hqueries id log floor u entity w HT Hinv Hlive Hd (Hsto u Hu)) as Hs.
    destruct (deliver_ id u w) as [[[]|e] w'].
    + destruct (evolve_dispatch _ _ _ Hev) as (entity' & He & Hd'). exists (Some u). split_and!; [|by right|].
      * exists (log ++ [event_of u]), floor, entity'. split_and!; [done| |by split].
        rewrite replay_app, Hlive. cbn. by rewrite He.
      * intros _. exists u. split; [done|]. by destruct u.
    + exists None. rewrite Hs. split_and!; [|by left|done]. exists log, floor, entity. split_and!; [done|done|].
      split; [by rewrite Hd, (proj1 Hu)|done].
Qed.

(** An execution leaves every other stream and the queue's rows alone. *)
Lemma execute_kept id job v x db t i :
  origin_at id job v db -> (t, i) <> (T, id) ->
  let db' := (execute_ id x db).2 in kept t i db db' /\ view_table JOB_QUEUE db' = view_table JOB_QUEUE db.
Proof.
  intros (log & floor & entity & Hinv & Hlive & _) Hne. cbv zeta. unfold execute.
  pose proof (perform_in_delivers (deliver_ id) error_chain (ex_submit x) (ex_reconcile x) (ex_ctx x) (mkWorld db (ex_faults x))) as Hp.
  destruct (perform_in _ _ _ _ _ _) as [r w]. cbn [snd]. destruct (verdict_of _ _ _ _) as [u|].
  2: { destruct Hp as [-> _]. by split. }
  destruct Hp as [-> _].
  assert ((handle (replay Uninitialized log) (settle_command u) (Some [])).2 = Some []) as Hpend.
  { rewrite Hlive. pose proof (handle_settle (J := J) (Entity := Entity) entity u) as Hh.
    destruct (settle (J := J) (dispatch_state entity) u); [by rewrite Hh|]. destruct Hh as [e' ->]. done. }
  pose proof (store_send_kept config event_type event_version max_delay clock queries Hqueries id log floor
    (settle_command u) (mkWorld db (ex_faults x)) t i Hinv Hpend Hne) as [Hk Hv].
  unfold origin_deliver. specialize (Hv JOB_QUEUE Hqueue).
  by destruct (store_send _ _ _ _ _ _ id (settle_command u) _) as [[[[]|]|e] w'].
Qed.

(** *** The origin's races and the job *)

Abbreviation delivered_ := (delivered (J := J) (Entity := Entity) (Error := Error) config event_type event_version error_chain).
Abbreviation delivery_step_ := (delivery_step (J := J) (Entity := Entity) (Error := Error) config event_type event_version max_delay clock error_chain).
Abbreviation Races_ := (Races (Entity := Entity) (Event := Event) (Command := Command) (Error := Error) (Output := Output) (JobError := JobError_)).

Definition races_db (races : Races_) : Db := cf_db (rc_store races).

(** The same races over another database. *)
Definition on_db (db : Db) (races : Races_) : Races_ :=
  let '(mkRaces (mkConfig _ log accepted clients) ds own ran) := races in
  mkRaces (mkConfig db log accepted clients) ds own ran.

Lemma delivered_on_db id log job v races db :
  delivered_ id log job v races -> well_formed db -> kept T id (races_db races) db -> delivered_ id log job v (on_db db races).
Proof.
  intros Hd Hwf [Hr Hs]. destruct races as [[db0 log0 acc clients] ds own ran]. cbn in *.
  destruct Hd as [(floor & Hinv & Hcl) ? ? ? ? ? ?]. split; cbn in *; try done. exists floor. split; [by eapply inv_other|done].
Qed.

(** A verdict's commit leaves every other stream and the views alone. *)
Lemma deliver_keeps id log job v cf cf' ds own ran c u context r t i :
  delivered_ id log job v (mkRaces cf ds own ran) -> verdict_for job u -> (t, i) <> (T, id) ->
  commit_by config event_type event_version max_delay clock id c context (settle_command (J := J) (Entity := Entity) (Event := Event) (Error := Error) u) r cf cf' ->
  kept t i (cf_db cf) (cf_db cf') /\ db_views (cf_db cf') = db_views (cf_db cf).
Proof.
  intros Hd Hu Hne Hs.
  destruct (commit_lands config event_type event_version max_delay clock error_chain id log job HT _ _ _ _ _ _ _ _ _ _ Hd Hs)
    as (_ & (v0 & entity & Ha & Hst & _) & [(_ & _ & -> & _)|(events & pending & prepared & Hh & Hev & _ & Hcur & _ & Hp & [_ ->] & Hend & _)]).
  { by split. }
  assert (pending = Some []) as ->.
  { rewrite Ha in Hh. pose proof (settle_standing (J := J) job v0 entity u Hst Hu) as Hset. destruct v0 as [u0|].
    - by destruct (Hset _ _ Hh).
    - destruct Hset as [Hh' _]. congruence. }
  cbn in Hp. injection Hp as <-. rewrite Hcur in Hh.
  pose proof (update_for_ok config id _ context _ events _ Hend Hh) as Hok.
  apply committed_kept; [|done|]; cbn [persist_request cr_stream cr_events];
    (erewrite persist_stream_of; [|done|exact Hok]); [apply number_in_stream|done].
Qed.

Lemma delivery_keeps_job id log job v es c c' :
  delivery_step_ (job_untouched job) id job c c' -> delivered_ id log job v c -> job_log_at job es (races_db c) ->
  well_formed (races_db c') -> job_log_at job es (races_db c').
Proof.
  intros Hs Hd Hj Hwf. pose proof Hd as [(floor & Hinv & Hcl) _ _ _ _ Hds _].
  assert ((JOB_AGGREGATE_TYPE, ulid_to_string job) <> (T, id)) as Hne by (intros [=]; congruence).
  destruct Hs as
    [cf ds own ran k x u Hx Hu Hn|cf cf' ds own ran Hs|cf cf' ds own ran k x u context r Hc Hu Hs|cf ds own ran k x e Hc
    |cf ds own ran k|cf ds own ran x answer Hx Hu|cf cf' ds own ran k context command r Hn Hkeep Hs Hsto Haside
    |cf cf' ds own ran Hs|db db' log' accepted clients ds own ran Hwf' Hrows Hsn Haside]; cbn in *; try exact Hj.
  - destruct (read_step_ok config event_type event_version id floor cf cf' Hs Hinv Hcl) as (Hdb & _).
    unfold races_db. cbn. by rewrite Hdb.
  - assert (verdict_for job u) as Huj by (rewrite <-(Hds _ _ Hc); by eapply execution_verdict_for).
    destruct (deliver_keeps _ _ _ _ _ _ _ _ _ _ _ _ _ _ _ Hd Huj Hne Hs) as [Hk Hv].
    eapply job_log_kept; [exact Hj|exact Hwf|exact Hk|]. unfold view_table, races_db. cbn. by rewrite Hv.
  - by eapply job_log_untouched.
  - destruct (compaction_step_ok config event_type event_version id floor cf cf' Hs Hinv Hcl) as (_ & _ & _ & Hdb & _).
    unfold races_db in *. cbn in *. destruct Hdb as [->|Hdb]; [done|]. rewrite Hdb in *.
    eapply job_log_kept; [exact Hj|exact Hwf|by apply compacted_kept|done].
  - by eapply job_log_untouched.
Qed.

(** *** The worker *)

(** The origin's races over the database, the claims that were won, and what the
    executions under them are settled by. *)
Record Joint : Type := mkJoint {
  jt_races : Races_;
  jt_claims : list JobClaimHandle;
  jt_finished : list (JobClaimHandle * TaskResult);
}.

(** A command that reports neither success nor rejection. *)
Definition reports_nothing (command : JobCommand) : Prop :=
  match command with Succeed _ | Kill _ Rejected _ => False | _ => True end.

(** Any worker claims, any claim is renewed, executed and acknowledged at any time and
    any number of times, whatever the external system answers and the driver does;
    executions race as in [delivery_step].  An execution may be abandoned, by its timeout
    or a lost lease, before its delivery or after.  Whoever has access to the job may
    send it any other command, but success and rejection are the worker's to report. *)
Inductive protocol_step (id : string) (job : JobId) : Joint -> Joint -> Prop :=
| ps_claim rc cs fs worker now_ms lease_ms max_claims fresh faults r w :
    in_u32 max_claims = true ->
    claim_job_as job worker now_ms lease_ms max_claims fresh (mkWorld (races_db rc) faults) = (r, w) ->
    protocol_step id job (mkJoint rc cs fs)
      (mkJoint (on_db (w_db w) rc) (match r with Ok (ClaimedJob h _) => h :: cs | _ => cs end) fs)
| ps_renew rc cs fs h lease faults r w :
    h ∈ cs -> runtime_renew_job h lease (mkWorld (races_db rc) faults) = (r, w) ->
    protocol_step id job (mkJoint rc cs fs) (mkJoint (on_db (w_db w) rc) cs fs)
| ps_race rc rc' cs fs :
    delivery_step_ (job_untouched job) id job rc rc' -> protocol_step id job (mkJoint rc cs fs) (mkJoint rc' cs fs)
| ps_finish rc cs fs h x r :
    h ∈ cs -> (x, r) ∈ rc_ran rc -> ex_ctx x = task_context worker_config h ->
    protocol_step id job (mkJoint rc cs fs) (mkJoint rc cs ((h, map_err TaskFailure r) :: fs))
| ps_abandon rc cs fs h :
    h ∈ cs -> protocol_step id job (mkJoint rc cs fs) (mkJoint rc cs ((h, Err TaskOther) :: fs))
| ps_ack rc cs fs h result now command faults r w :
    (h, result) ∈ fs ->
    ack_command max_delta worker_config now (task_context worker_config h) (ack_plan task_chain result) = Some command ->
    job_send (handle_job_id h) command (mkWorld (races_db rc) faults) = (r, w) ->
    protocol_step id job (mkJoint rc cs fs) (mkJoint (on_db (w_db w) rc) cs fs)
| ps_command rc cs fs command faults r w :
    command_ok command -> reports_nothing command -> job_send job command (mkWorld (races_db rc) faults) = (r, w) ->
    protocol_step id job (mkJoint rc cs fs) (mkJoint (on_db (w_db w) rc) cs fs).

(** *** What the queue's record is worth *)

(** A result is reported only over a settled origin. *)
Definition vouched (v : option Verdict_) (r : TaskResult) : Prop :=
  match r with
  | Ok (OutDone _) => exists s, v = Some (VerdictConfirmed s)
  | Err (TaskFailure (Terminal _)) => exists f, v = Some (VerdictFailed f)
  | _ => True
  end.

Definition recorded (v : option Verdict_) (e : JobEvent) : Prop :=
  match e with
  | Succeeded => exists s, v = Some (VerdictConfirmed s)
  | DeadEv Rejected _ => exists f, v = Some (VerdictFailed f)
  | _ => True
  end.

(** [log] is the origin's log when the job was in flight. *)
Record backed (id : string) (log : list Event) (job : JobId) (v : option Verdict_) (es : list JobEvent) (c : Joint) : Prop := {
  bk_origin : delivered_ id log job v (jt_races c);
  bk_job : job_log_at job es (races_db (jt_races c));
  bk_enqueued : es <> [];
  bk_claims : forall h, h ∈ jt_claims c -> handle_job_id h = job;
  bk_finished : forall h r, (h, r) ∈ jt_finished c -> handle_job_id h = job /\ vouched v r;
  bk_recorded : Forall (recorded v) es;
}.

Lemma vouched_mono v v' r : v' = v \/ v = None -> vouched v r -> vouched v' r.
Proof. intros [-> | ->]; [done|]. destruct r as [[]|[[]|]]; try done; by intros [? [=]]. Qed.

Lemma recorded_mono v v' es : v' = v \/ v = None -> Forall (recorded v) es -> Forall (recorded v') es.
Proof.
  intros [-> | ->]; [done|]. intros Hes. eapply Forall_impl; [exact Hes|].
  intros [| | | | |[]]; try done; by intros [? [=]].
Qed.

(** What a command of [ack_command] records is vouched for by its execution. *)
Lemma ack_recorded v now ctx (result : TaskResult) command s e :
  vouched v result -> ack_command max_delta worker_config now ctx (ack_plan task_chain result) = Some command ->
  job_transition s command = Ok (Events [e]) -> recorded v e.
Proof.
  intros Hv Ha Ht. pose proof (ack_outcome _ _ _ _ _ _ _ _ Ha Ht) as Ho.
  destruct e as [| | | | |[]]; try done.
  - by destruct result as [[]|[[]|]].
  - destruct Ho as [text Ho]. by destruct result as [[]|[[]|]].
Qed.

Lemma nothing_recorded v command s e :
  reports_nothing command -> job_transition s command = Ok (Events [e]) -> recorded v e.
Proof.
  intros Hn Ht. destruct s as [|k p h c r a n| |]; try done. destruct command as [| | |cl []]; try done;
    cbn in Ht; (destruct (String.eqb c _); [|done]); by injection Ht as <-.
Qed.

(** A command of the job's store: its stream gains at most the command's event. *)
Lemma command_backed id log job v es rc cs fs command faults r w :
  backed id log job v es (mkJoint rc cs fs) -> command_ok command ->
  (forall s e, job_transition s command = Ok (Events [e]) -> recorded v e) ->
  job_send job command (mkWorld (races_db rc) faults) = (r, w) ->
  exists es', backed id log job v es' (mkJoint (on_db (w_db w) rc) cs fs).
Proof.
  intros [Ho Hj Hne Hc Hf Hr] Hcmd Hrec Hop. cbn [jt_races jt_claims jt_finished] in *.
  pose proof (ack_spec job es command (mkWorld (races_db rc) faults) Hj Hne Hcmd) as Hs.
  rewrite Hop in Hs. destruct Hs as (Hk & es' & Hj' & Hes). exists es'.
  split; cbn [jt_races jt_claims jt_finished]; try done.
  - eapply delivered_on_db; [exact Ho|apply Hj'|by apply Hk].
  - by destruct rc as [[]].
  - destruct r as [[]|e]; [|by subst]. destruct Hes as (s & e & _ & _ & ->). by destruct es.
  - destruct r as [[]|e]; [|by subst]. destruct Hes as (s & e & _ & Ht & ->).
    apply Forall_app. split; [done|]. constructor; [|done]. by eapply Hrec.
Qed.

Lemma protocol_step_backed id log job v es c c' :
  protocol_step id job c c' -> backed id log job v es c ->
  exists v' es', backed id log job v' es' c' /\ (v' = v \/ v = None).
Proof.
  intros Hstep Hb. pose proof Hb as [Ho Hj Hne Hc Hf Hr].
  destruct Hstep as
    [rc cs fs worker now lease mx fresh faults r w Hm Hop|rc cs fs h lease faults r w Hh Hop
    |rc rc' cs fs Hs|rc cs fs h x r Hh Hx Hctx|rc cs fs h Hh
    |rc cs fs h result now command faults r w Hh Ha Hop|rc cs fs command faults r w Hcmd Hn Hop]; cbn [jt_races jt_claims jt_finished] in *.
  - pose proof (claim_as_spec job es worker now lease mx fresh (mkWorld (races_db rc) faults) Hj Hm) as Hs. rewrite Hop in Hs.
    destruct Hs as (Hk & Hid & Hj'). eexists v, _. split; [|by left].
    split; cbn [jt_races jt_claims jt_finished]; [|by destruct rc as [[]]|..]; try done.
    + eapply delivered_on_db; [exact Ho|apply Hj'|by apply Hk].
    + unfold log_after_claim_as. repeat case_match; by destruct es.
    + destruct r as [[h payload| | |]|e]; try done. intros h' [->|Hh]%elem_of_cons; [done|by apply Hc].
    + unfold log_after_claim_as. repeat case_match; try done; apply Forall_app; by split; [|constructor].
  - pose proof (renew_spec job es h lease (mkWorld (races_db rc) faults) (Hc h Hh) Hj) as [Hk Hj']. rewrite Hop in *. cbn [snd] in *.
    exists v, es. split; [|by left]. split; cbn [jt_races jt_claims jt_finished]; try done; [|by destruct rc as [[]]].
    eapply delivered_on_db; [exact Ho|apply Hj'|apply Hk].
  - destruct (delivery_step_ok config event_type event_version max_delay clock error_chain (job_untouched job) id log job HT v rc rc' Hs Ho)
      as (v' & Ho' & Hv'). exists v', es. split; [|done]. split; cbn [jt_races jt_claims jt_finished]; try done.
    + eapply delivery_keeps_job; [exact Hs|exact Ho|exact Hj|]. destruct (dl_store _ _ _ _ _ _ _ _ _ Ho') as (floor & Hinv & _). apply Hinv.
    + intros h r Hin. destruct (Hf h r Hin). split; [done|]. by eapply vouched_mono.
    + by eapply recorded_mono.
  - exists v, es. split; [|by left]. split; try done. intros h' r' [[= -> ->]|Hin]%elem_of_cons; [|by apply Hf].
    split; [by apply Hc|]. pose proof (dl_ran _ _ _ _ _ _ _ _ _ Ho) as Hran. rewrite Forall_forall in Hran.
    destruct (Hran _ Hx) as [_ Hb']. by destruct r as [[]|[]].
  - exists v, es. split; [|by left]. split; try done. intros h' r' [[= -> ->]|Hin]%elem_of_cons; [by split; [apply Hc|]|by apply Hf].
  - destruct (Hf h result Hh) as [<- Hv].
    destruct (command_backed _ _ _ _ _ _ _ _ command faults r w Hb (ack_command_ok _ _ _ _ _ _ Ha)) as (es' & Hb');
      [intros s e; by eapply ack_recorded|done|]. exists v, es'. split; [exact Hb'|by left].
  - destruct (command_backed _ _ _ _ _ _ _ _ command faults r w Hb Hcmd) as (es' & Hb');
      [intros s e; by eapply nothing_recorded|done|]. exists v, es'. split; [exact Hb'|by left].
Qed.

(** C8: The queue's record of a dispatched job is backed by its origin.  Let a job be
    enqueued and in flight at its origin, all verdicts of which can be stored.  Workers
    claim, renew, execute, abandon and acknowledge it in any order and any number of
    times, their executions racing with each other, with the origin's other commands and
    with compaction as in C7, whatever the external system answers and wherever the
    driver fails; anybody may send the job's aggregate any command but a success or a
    rejection, which only a worker's acknowledgement reports; and the rest of the
    database changes as it likes, the origin's stream and the job's stream and row aside.
    Then the job's stream records a success only when its origin is durably confirmed, a
    rejection only when it is durably failed; its origin is settled by at most one
    verdict, which never changes; and every execution that reported either result found
    the origin so. *)
Theorem outcome_backed_by_origin id log floor job entity kind payload run_at db c1 c2 :
  inv id log floor db -> replay Uninitialized log = Live entity -> verdict_stands (J := J) (Output := Output) (JobError := JobError_) job None entity ->
  job_log_at job [Enqueued kind payload run_at] db ->
  rtc (protocol_step id job) (mkJoint (quiescent db log) [] []) c1 -> rtc (protocol_step id job) c1 c2 ->
  exists v1 es1 v2 es2, backed id log job v1 es1 c1 /\ backed id log job v2 es2 c2 /\ (v2 = v1 \/ v1 = None).
Proof.
  intros Hinv Hlive Hst Hj Hrun1 Hrun2.
  assert (forall v es c c', rtc (protocol_step id job) c c' -> backed id log job v es c ->
    exists v' es', backed id log job v' es' c' /\ (v' = v \/ v = None)) as Hrun.
  { intros v es c c' Hs. revert v es. induction Hs as [c|c c1' c2' Hs _ IH]; intros v es Hb.
    - exists v, es. split; [done|by left].
    - destruct (protocol_step_backed _ _ _ _ _ _ _ Hs Hb) as (v' & es' & Hb' & Hv).
      destruct (IH _ _ Hb') as (v'' & es'' & Hb'' & Hv'). exists v'', es''. split; [done|]. naive_solver. }
  assert (backed id log job None [Enqueued kind payload run_at] (mkJoint (quiescent db log) [] [])) as Hb.
  { split; cbn [jt_races jt_claims jt_finished]; try done; [by eapply quiescent_delivered|by intros h ?%not_elem_of_nil|by intros h r ?%not_elem_of_nil|].
    by constructor. }
  destruct (Hrun _ _ _ _ Hrun1 Hb) as (v1 & es1 & Hb1 & _). destruct (Hrun _ _ _ _ Hrun2 Hb1) as (v2 & es2 & Hb2 & Hv).
  by exists v1, es1, v2, es2.
Qed.
End protocol.
