(* ===== verification/Completion.v ===== *)
(** * From a command to the settled verdict

    One dispatched job in an orderly world: the command that kicks it off commits it with
    its events, the poll lists it, a worker's first claim of it is won, its execution
    settles with the external system, the origin takes the verdict, and the
    acknowledgement records the success.  Between any two of these anything else may
    happen to the database. *)

From S2P Require Import Prelude Json Sqlite EventTable Lifecycle Schema Job Engine EngineProps.
From S2P Require Import ViewRepository JobQueue JobQueueProps Repository SchemaRecovery JobHistory Reactor Dispatch Worker Backend Poll.
From S2P Require Import Projection Startup Store StoreProps StoreHistory Delivery Ffi JobStore Protocol.

(** ** Room *)

(** The stream and the snapshot's version can still grow. *)
Definition room (t i : string) (db : Db) : Prop :=
  (committed_version (mkStream t i) db < i64_max)%Z /\
  (default 0 (snap_snapshot_version <$> db_snapshots db !! (t, i)) < i64_max)%Z.

Section room.
Context `{SerdeJsonLaws}.
Context {Entity Event Command Error : Type} `{EventSourced Entity Event Command Error}.
Context `{Serde Entity, Serde Event, Serde Error}.
Context (config : EntityConfig) (event_type event_version : Event -> string).
Abbreviation inv := (Store.store_inv (Entity := Entity) (Command := Command) (Error := Error) config event_type event_version).

(** The log is no longer than the version of its stream. *)
Lemma inv_version id log floor db :
  inv id log floor db -> (Z.of_nat (length log) <= committed_version (mkStream (AGGREGATE_TYPE config) id) db)%Z.
Proof.
  intros Hinv. pose proof (si_floor _ _ _ _ _ _ _ Hinv) as Hf. unfold committed_version. cbn [stream_type stream_id].
  rewrite (si_rows _ _ _ _ _ _ _ Hinv).
  destruct (decide (floor < length log)) as [Hlt|Hge].
  - destruct (number_lookup_key (wrap config event_type event_version id) (fun _ _ => eq_refl) (Z.of_nat floor) (drop floor log)
      (Z.of_nat (length log))) as [e He]; [rewrite length_drop; lia|].
    etransitivity; [|apply Z.le_max_l].
    exact (max_sequence_elem _ _ (list_elem_of_fmap_2 event_row _ _ He)).
  - pose proof (si_snapshot _ _ _ _ _ _ _ Hinv) as Hs.
    destruct (db_snapshots db !! _) as [row|]; [|cbn; lia].
    destruct Hs as [(n & Hn & Hseq & _)|(_ & -> & Hseq & _)]; cbn; lia.
Qed.

Lemma room_roomy id log floor db e :
  inv id log floor db -> room (AGGREGATE_TYPE config) id db -> roomy config id log [e] db.
Proof. intros Hinv [Hv Hs]. split; [|exact Hs]. pose proof (inv_version id log floor db Hinv). simpl. lia. Qed.
End room.

(** ** The queue's part *)

Section queue.
Context `{SerdeJsonLaws, ChronoLaws, UlidLaws, SqliteJson, !SqliteJsonLaws, TableScan, !TableScanLaws}.
Context `{!CqrsEs JobState JobEvent JobError} `{!CqrsEsLaws}.
Context (job : JobId) (kind : string) (payload : Json) (run_at : Z).
Abbreviation id := (ulid_to_string job).
Abbreviation pending := (Pending kind payload run_at 0 0).

(** The row of a job that was only enqueued. *)
Lemma enqueued_row_at db :
  job_log_at job [Enqueued kind payload run_at] db ->
  exists row, view_table JOB_QUEUE db !! id = Some row /\ view_version row = 1%Z /\
    lifecycle_from_text (view_payload row) = Some (Live pending).
Proof.
  intros [[_ Hinv] _]. cbn [fst snd] in Hinv. pose proof (ji_row _ _ _ Hinv) as Hrow.
  destruct (view_table JOB_QUEUE db !! id) as [row|] eqn:Hv; [|done]. exists row. split; [done|].
  destruct (read_row _ _ _ _ Hinv Hv) as (n & s & Hn & Hle & Hr & _ & _ & Ht & _).
  destruct n as [|[|n]]; [done| |cbn in Hle; lia]. cbn in Hr. injection Hr as <-. by split.
Qed.

(** It is polled from its instant on. *)
Lemma enqueued_polled db now_ms limit :
  job_log_at job [Enqueued kind payload run_at] db -> rows_storable db ->
  exists ids, run (poll_jobs kind now_ms limit) db = (Ok (sql_limit limit ids), db) /\
    (id ∈ ids <-> (run_at <= now_ms)%Z).
Proof.
  intros Hlog Hrows. destruct (poll_jobs_spec _ kind now_ms limit Hrows) as (ids & Hp & _ & Hids & _).
  exists ids. split; [exact Hp|]. rewrite Hids. destruct (enqueued_row_at _ Hlog) as (row & Hrow & _ & Ht).
  unfold claimable. rewrite Hrow. split.
  - intros (row' & s & [= <-] & Hs & _ & Hrun). rewrite Ht in Hs. injection Hs as <-. by apply Z.leb_le.
  - intros Hle. exists row, pending. split_and!; [done|done|done|by apply Z.leb_le].
Qed.

(** Its first claim is won. *)
Lemma enqueued_claimed db worker now_ms lease_ms max_claims fresh :
  job_log_at job [Enqueued kind payload run_at] db -> (run_at <= now_ms)%Z ->
  (0 < lease_ms)%Z -> (0 < max_claims)%Z -> in_u32 max_claims = true -> representable (now_ms + lease_ms) = true ->
  exists db', run (claim_job_as job worker now_ms lease_ms max_claims fresh) db =
      (Ok (ClaimedJob (mkHandle job 2 fresh 0) payload), db') /\
    job_log_at job [Enqueued kind payload run_at; ClaimedEv worker fresh (now_ms + lease_ms)] db' /\
    forall t i, t <> JOB_AGGREGATE_TYPE -> kept t i db db'.
Proof.
  intros Hlog Hdue Hl Hm Hu Hrep. destruct (enqueued_row_at _ Hlog) as (row & Hrow & Hv & _).
  pose proof Hlog as [[_ Hinv] _]. cbn [fst snd] in Hinv.
  destruct (runnable_job_is_claimed job _ db row pending worker now_ms lease_ms max_claims fresh Hinv eq_refl Hrow Hv
    ltac:(done) ltac:(by apply Z.leb_le) Hl Hm Hrep) as [db' Hc].
  cbn [claim_count attempt_count job_args length] in Hc. rewrite (proj2 (Z.ltb_lt 0 max_claims) Hm) in Hc.
  exists db'. split; [exact Hc|].
  pose proof (claim_as_spec job _ worker now_ms lease_ms max_claims fresh (mkWorld db []) Hlog Hu) as Hs.
  unfold run in Hc. destruct (claim_job_as _ _ _ _ _ _ _) as [r w]. injection Hc as -> <-.
  destruct Hs as (Hk & _ & Hj). by split.
Qed.

(** The holder's success is recorded. *)
Lemma claimed_acknowledged db worker claim_id lease :
  let es := [Enqueued kind payload run_at; ClaimedEv worker claim_id lease] in
  job_log_at job es db -> room JOB_AGGREGATE_TYPE id db ->
  exists db', run (job_send job (Succeed claim_id)) db = (Ok (), db') /\ job_log_at job (es ++ [Succeeded]) db' /\
    forall t i, t <> JOB_AGGREGATE_TYPE -> kept t i db db'.
Proof.
  intros es Hlog Hroom. pose proof Hlog as [[Hwf Hinv] Hst]. cbn [fst snd] in *.
  pose proof (job_log _ _ _ Hwf Hinv Hst) as Hj.
  assert (handle (replay (Uninitialized : JobLifecycle) es) (Succeed claim_id) (Some []) = (Ok [Succeeded], Some [])) as Hh.
  { unfold es. cbn. unfold handle. cbn. rewrite String.eqb_refl. cbn. by rewrite ?String.eqb_refl. }
  pose proof (wp_run _ _ _ (wp_send_accepts job_config type_name job_event_version 0 (fun _ => 0%Z) id es 0 (Succeed claim_id)
    [Succeeded] _ db Hj Hh (or_introl eq_refl) (no_jobs_fit _ _ _) (room_roomy _ _ _ _ _ _ _ _ Hj Hroom))) as Hok. cbv beta in Hok.
  pose proof (store_send_queries job_config type_name job_event_version 0 (fun _ => 0%Z) job_queries
    (projection_keeps ulid_from_str ulid_to_string JOB_QUEUE) id (Succeed claim_id) (mkWorld db [])) as Hq.
  unfold run in Hok. destruct (send_command _ _ _ _ _ _ _ _) as [r w1]. cbn [fst] in Hok. subst r.
  destruct Hq as (w & Hw & _).
  assert (job_send job (Succeed claim_id) (mkWorld db []) = (Ok (), w)) as Hsend.
  { unfold job_send, mbind, M_bind. rewrite Hw. done. }
  pose proof (ack_spec job es (Succeed claim_id) (mkWorld db []) Hlog ltac:(done) I) as Ha. rewrite Hsend in Ha.
  destruct Ha as (Hk & es' & Hj' & s & e & Hr & Ht & ->).
  exists (w_db w). unfold run. rewrite Hsend. split; [done|]. split; [|exact Hk].
  unfold es in Hr. cbn in Hr. injection Hr as <-. cbn in Ht. rewrite String.eqb_refl in Ht. by injection Ht as <-.
Qed.
End queue.

(** ** The whole way *)

Section completion.
Context `{SerdeJsonLaws, ChronoLaws, UlidLaws, SqliteJson, !SqliteJsonLaws, TableScan, !TableScanLaws}.
Context {Entity Event Command Error : Type} `{EventSourced Entity Event Command Error}.
Context `{Serde Entity, Serde Event, Serde Error}.
Context `{!CqrsEs Entity Event Error} `{!CqrsEsLaws (Entity := Entity)}.
Context `{!CqrsEs JobState JobEvent JobError} `{!CqrsEsLaws (Entity := JobState)}.
Context (config : EntityConfig) (event_type event_version : Event -> string).
Context (max_delay : Z) (clock : nat -> Z) (queries : list (Query (Event := Event))).
Context {J Output JobError_ : Type} `{!Origin J Output JobError_ Entity Event Command Error}.
Context `{!OriginLaws J Output JobError_ Entity Event Command Error}.
Context (HT : AGGREGATE_TYPE config <> JOB_AGGREGATE_TYPE).
Context (Hqueries : queries_keep queries) (Hqueue : queries_off queries JOB_QUEUE).
Context (error_chain : JobError_ -> string) (worker_config : JobWorkerConfig).

Abbreviation Verdict_ := (Verdict (Output := Output) (Error := JobError_)).
Abbreviation T := (AGGREGATE_TYPE config).
Abbreviation inv := (Store.store_inv (Entity := Entity) (Command := Command) (Error := Error) config event_type event_version).
Abbreviation store_send_ := (store_send (Entity := Entity) (Error := Error) config event_type event_version max_delay clock queries).
Abbreviation execute_ := (execute (J := J) (Entity := Entity) (Error := Error) config event_type event_version max_delay clock queries error_chain).
Abbreviation origin_at_ := (origin_at (J := J) (Entity := Entity) (Event := Event) (Command := Command) (Error := Error)
  config event_type event_version).
Abbreviation event_of v := (origin_event (Entity := Entity) (Command := Command) (Error := Error) (verdict_event (J := J) v)).

(** The commit of a command that dispatches one job holds the job, enqueued. *)
Lemma dispatch_commits id command log floor events job kind payload w :
  inv id log floor (w_db w) -> job_log_at job [] (w_db w) ->
  handle (replay Uninitialized log) command (Some []) = (Ok events, Some [mkPendingPush job kind (Ok payload) None]) ->
  events <> [] -> storable (replay Uninitialized log) events -> undivided (SNAPSHOT_SIZE config) events -> is_value payload = true -> payload_storable payload ->
  let '(r, w') := store_send_ id command w in
  r = Ok (Some ()) ->
  inv id (log ++ events) floor (w_db w') /\ job_log_at job [Enqueued kind payload (clock 0 / 1000000)] (w_db w').
Proof.
  intros Hinv Hjob Hh Hne Hsto Hwhole Hval Hpay.
  pose proof (store_send_queries config event_type event_version max_delay clock queries Hqueries id command w) as Hq.
  pose proof (send_spec config event_type event_version max_delay clock id log floor command w HT Hinv) as Hs.
  destruct (send_command _ _ _ _ _ id command w) as [r w1]. destruct Hq as (w' & -> & Hq). intros ->.
  destruct Hs as (Hout & Hok & _). destruct (Hok eq_refl) as (events' & pending & Hh' & Hi).
  rewrite Hh in Hh'. injection Hh' as <- <-. specialize (Hi Hsto Hwhole). destruct Hq as (He & Hsn & Hviews).
  assert (inv id (log ++ events) floor (w_db w')) as Hi' by (by eapply inv_reframed).
  split; [exact Hi'|]. specialize (Hviews JOB_QUEUE Hqueue).
  assert (job_log_at job [Enqueued kind payload (clock 0 / 1000000)] (w_db w1)) as Hj1.
  2: { eapply job_log_kept; [exact Hj1|apply Hi'| |exact Hviews]. split; [unfold stream_rows; by rewrite He|by rewrite Hsn]. }
  destruct Hout as (events' & pending & Hh' & Hdb). rewrite Hh in Hh'. injection Hh' as <- <-.
  destruct events as [|e events]; [done|]. destruct Hdb as (prepared & update & Hp & Hu & Hacc & Hdb).
  cbn in Hp. injection Hp as <-. cbn [prepared_requests] in *.
  set (request := mkEnqueueRequest job kind payload (clock 0 / 1000000)) in *.
  set (whole := persist_request T _ update [request]) in *.
  set (alone := persist_request T (number (wrap config event_type event_version id) (Z.of_nat (length log)) (e :: events)) update []).
  pose proof Hacc as (Hm & Hver & Hins & Hsnap & (Hrep & Hji & _) & _).
  assert (accepted alone (w_db w)) as Halone by (by split_and!).
  assert (w_db w1 = swapped (ulid_to_string job) (job_event_of request) (view_payload (job_row_of request)) None
    (committed alone (w_db w))) as Hswap by exact Hdb.
  destruct (committed_kept JOB_AGGREGATE_TYPE (ulid_to_string job) alone (w_db w)) as [Hk Hv].
  { cbn [alone persist_request cr_stream cr_events]. erewrite persist_stream_of; [|done|exact Hu]. apply number_in_stream. }
  { done. }
  { cbn [alone persist_request cr_stream]. erewrite persist_stream_of; [|done|exact Hu]. intros [=]. by apply HT. }
  assert (job_log_at job [] (committed alone (w_db w))) as [Hinv0 Hst0].
  { eapply job_log_kept; [exact Hjob|apply well_formed_committed; [apply Hinv|exact Halone]|exact Hk|].
    unfold view_table. by rewrite Hv. }
  destruct (enqueue_step (ulid_to_string job) [] request (committed alone (w_db w)) eq_refl) as [_ Hinv1];
    [by split_and!|exact Hinv0|exact Hji|].
  split; [rewrite Hswap; exact Hinv1|]. rewrite Hswap. exact (job_stored_app _ [] _ _ Hst0).
Qed.

(** The undisturbed first execution of a claim confirms an origin in flight. *)
Lemma execute_confirms id job output claim_seq claim_id attempt submit reconcile db :
  let ctx := task_context worker_config (mkHandle job claim_seq claim_id attempt) in
  let verdict := confirmed job output (u32_add attempt 1) in
  origin_at_ id job None db -> room T id db -> is_first_execution ctx = true -> submit ctx = Ok (OutDone output) ->
  exists db', execute_ id (mkExecution ctx submit reconcile []) db = (Ok (OutDone ()), db') /\
    origin_at_ id job (Some verdict) db'.
Proof.
  intros ctx verdict Horigin Hroom Hfirst Hsub. set (x := mkExecution ctx submit reconcile []).
  assert (execution_verdict error_chain x = Some verdict) as Hver.
  { unfold execution_verdict, verdict_of, outcome_of. cbn [ex_ctx ex_submit ex_reconcile x]. by rewrite Hfirst, Hsub. }
  pose proof (execute_settles config event_type event_version max_delay clock queries error_chain id job (origin_at_ id job) None x db
    (origin_settles_once config event_type event_version max_delay clock queries HT Hqueries id job) eq_refl Horigin) as Hs.
  rewrite Hver in Hs. destruct Horigin as (log & floor & entity & Hinv & Hlive & Hfly & _).
  assert ((execute_ id x db).1 = Ok (OutDone ())) as Hdone.
  { by eapply (execution_accepted config event_type event_version max_delay clock queries Hqueries error_chain id log job entity floor x _ db HT Hlive Hfly);
      [exact Hinv| | |exact Hver|eapply room_roomy]. }
  destruct (execute_ id x db) as [r db']. cbn [fst] in Hdone. subst r.
  destruct Hs as (v & Ho & Hv & s & ->). exists db'. split; [done|]. destruct Hv as [[=]|[_ [= ->]]]. exact Ho.
Qed.
Context (from_value : Json -> option J) (task_chain : TaskError JobError_ -> string) (max_delta : Z).

Lemma origin_at_kept id job v db db' es :
  origin_at_ id job v db -> job_log_at job es db' -> (forall t i, t <> JOB_AGGREGATE_TYPE -> kept t i db db') ->
  origin_at_ id job v db'.
Proof. intros Ho [[Hwf _] _] Hk. eapply origin_kept; [exact Ho|exact Hwf|by apply Hk]. Qed.

(** What happens between the stages: it keeps the dispatch, in flight or settled, and the
    job's log.  Whatever leaves both streams alone does ([untouched_elsewhere]), and so
    do other operations, such as the compaction of the origin ([compacted_elsewhere]). *)
Definition elsewhere (id : string) (job : JobId) (db db' : Db) : Prop :=
  (forall v, origin_at_ id job v db -> origin_at_ id job v db') /\
  (forall es, job_log_at job es db -> job_log_at job es db').

Lemma untouched_elsewhere id job db db' :
  well_formed db' -> kept T id db db' -> job_untouched job db db' -> elsewhere id job db db'.
Proof. intros Hwf Hk Hj. split; [intros v Ho; by eapply origin_kept|intros es Hl; by eapply job_log_untouched]. Qed.

Lemma compacted_elsewhere id job db : COMPACTION_POLICY config = CompactAfterSnapshot -> elsewhere id job db (delete_covered T db).
Proof.
  intros Hp. split.
  - intros v (log & floor & entity & Hinv & Hlive & Hst).
    destruct (inv_compacted config event_type event_version id log floor db Hinv Hp) as (n & _ & _ & Hinv').
    by exists log, n, entity.
  - intros es Hj. pose proof Hj as [[Hwf _] _]. eapply job_log_kept; [exact Hj|by apply well_formed_delete_covered|by apply compacted_kept|done].
Qed.

(** C9: A dispatched job, from the command to the settled verdict.  Once a command that
    dispatches a job is answered, its event and the enqueued job are durable.  From the
    instant of the dispatch on the job is polled, a worker's first claim of it wins and
    carries the very job the handler dispatched; if its execution settles with the
    external system, the origin takes the verdict and the job is reported done; and the
    worker's acknowledgement is applied.  At the end the origin is confirmed by that
    verdict and the job's stream reads: enqueued, claimed, succeeded.  Between any two
    of these, anything else may happen to the database that leaves this dispatch and
    this job as they are. *)
Theorem dispatch_completes id command log floor event entity job kind payload j db0 db1 :
  inv id log floor db0 -> job_log_at job [] db0 ->
  handle (replay Uninitialized log) command (Some []) = (Ok [event], Some [mkPendingPush job kind (Ok payload) None]) ->
  storable (replay Uninitialized log) [event] -> is_value payload = true -> payload_storable payload ->
  from_value payload = Some j -> replay Uninitialized (log ++ [event]) = Live entity ->
  verdict_stands (J := J) (Output := Output) (JobError := JobError_) job None entity ->
  run (store_send_ id command) db0 = (Ok (Some ()), db1) ->
  let run_at := (clock 0 / 1000000)%Z in
  forall db2 now_ms worker lease_ms max_claims claim_id,
  elsewhere id job db1 db2 -> (run_at <= now_ms)%Z ->
  (0 < lease_ms)%Z -> (0 < max_claims)%Z -> in_u32 max_claims = true -> representable (now_ms + lease_ms) = true ->
  (rows_storable db2 -> exists ids, run (poll_jobs kind now_ms (-1)) db2 = (Ok (sql_limit (-1) ids), db2) /\ ulid_to_string job ∈ ids) /\
  let held := mkHandle job 2 claim_id 0 in
  let ctx := task_context worker_config held in
  exists db3, run (claim_job_as job worker now_ms lease_ms max_claims claim_id) db2 = (Ok (ClaimedJob held payload), db3) /\
    build_task from_value worker_config held payload = Some (j, ctx) /\
  forall db4 submit reconcile output,
  elsewhere id job db3 db4 -> room T id db4 -> submit ctx = Ok (OutDone output) ->
  exists db5, execute_ id (mkExecution ctx submit reconcile []) db4 = (Ok (OutDone ()), db5) /\
  forall db6 now, elsewhere id job db5 db6 -> room JOB_AGGREGATE_TYPE (ulid_to_string job) db6 ->
  exists acknowledge w7,
    ack max_delta worker_config now ctx (job_send job) 1 (ack_plan task_chain (Ok (OutDone ()))) = Some acknowledge /\
    acknowledge (mkWorld db6 []) = (Some SettleApplied, w7) /\
    origin_at_ id job (Some (confirmed job output 1)) (w_db w7) /\
    job_log_at job [Enqueued kind payload run_at; ClaimedEv worker claim_id (now_ms + lease_ms); Succeeded] (w_db w7).
Proof.
  intros Hinv Hjob Hh Hsto Hval Hpay Hj Hlive Hstands Hsend run_at db2 now_ms worker lease_ms max_claims claim_id
    [Ho12 Hj12] Hdue Hl Hm Hu Hrep.
  pose proof (dispatch_commits id command log floor [event] job kind payload (mkWorld db0 []) Hinv Hjob Hh ltac:(done) Hsto (or_intror (Nat.le_refl 1)) Hval Hpay) as Hc.
  unfold run in Hsend. destruct (store_send_ id command _) as [r w1]. injection Hsend as -> <-.
  destruct (Hc eq_refl) as [Hinv1 Hj1]. apply Hj12 in Hj1.
  assert (origin_at_ id job None db2) as Ho2 by (apply Ho12; by exists (log ++ [event]), floor, entity).
  split.
  { intros Hrows. destruct (enqueued_polled job kind payload run_at db2 now_ms (-1) Hj1 Hrows) as (ids & Hp & Hids).
    exists ids. split; [exact Hp|by apply Hids]. }
  intros held ctx.
  destruct (enqueued_claimed job kind payload run_at db2 worker now_ms lease_ms max_claims claim_id Hj1 Hdue Hl Hm Hu Hrep)
    as (db3 & Hclaim & Hj3 & Hk3).
  exists db3. split; [exact Hclaim|]. split; [unfold build_task; by rewrite Hj|].
  intros db4 submit reconcile output [Ho34 Hj34] Hroom Hsub.
  assert (origin_at_ id job None db4) as Ho4 by (apply Ho34; eapply origin_at_kept; [exact Ho2|exact Hj3|exact Hk3]).
  destruct (execute_confirms id job output 2 claim_id 0 submit reconcile db4 Ho4 Hroom eq_refl Hsub) as (db5 & Hex & Ho5).
  pose proof (execute_kept config event_type event_version max_delay clock queries Hqueries Hqueue error_chain id job None
    (mkExecution ctx submit reconcile []) db4 JOB_AGGREGATE_TYPE (ulid_to_string job) Ho4 ltac:(congruence)) as Hk5.
  fold held ctx in Hex. rewrite Hex in Hk5. destruct Hk5 as [Hk5 Hv5].
  exists db5. split; [exact Hex|]. intros db6 now [Ho56 Hj56] Hroom6.
  assert (job_log_at job [Enqueued kind payload run_at; ClaimedEv worker claim_id (now_ms + lease_ms)] db6) as Hj6.
  { apply Hj34 in Hj3. apply Hj56. eapply job_log_kept; [exact Hj3|by eapply origin_well_formed|exact Hk5|exact Hv5]. }
  destruct (claimed_acknowledged job kind payload run_at db6 worker claim_id _ Hj6 Hroom6) as (db7 & Hack & Hj7 & Hk7).
  unfold run in Hack. destruct (job_send job (Succeed claim_id) (mkWorld db6 [])) as [r w7] eqn:Hs7. injection Hack as -> <-.
  eexists _, w7. split; [reflexivity|]. cbn [ack_loop]. cbn [ack_plan ctx_claim_id ctx task_context held handle_claim_id].
  rewrite Hs7. split; [done|]. split; [|exact Hj7]. eapply origin_at_kept; [by apply Ho56|exact Hj7|exact Hk7].
Qed.
End completion.
