(* ===== verification/Witnesses.v ===== *)
(** * Concrete runs

    Concrete instances of the external libraries (a binary JSON text, the calendar
    range of [chrono], a ULID text, SQLite's JSON reader and table scan) and, for
    each property with hypotheses, a run of the model on concrete inputs where they
    hold.  The module also holds the concrete executions behind the development's
    findings. *)

From S2P Require Import Prelude Json Sqlite EventTable Lifecycle Job Engine EngineProps.
From S2P Require Import EnginePaging ViewRepository JobQueue JobQueueProps Repository.
From S2P Require Import JobHistory History Reactor Dispatch Worker Poll Projection.
Import BinaryText.

(** ** Instances *)

#[export] Instance calendar : Chrono := {|
  representable ms := ((-8334601228800000 <=? ms) && (ms <=? 8210266876799999))%Z |}.
#[export] Instance calendar_laws : ChronoLaws.
Proof. split. intros ms. simpl. range. Qed.

#[export] Instance binary_ulid : Ulid := {|
  ulid_to_string j := pos_to_text (N.succ_pos j);
  ulid_from_str s := Pos.pred_N <$> pos_of_text s |}.
#[export] Instance binary_ulid_laws : UlidLaws.
Proof. split. intros j. simpl. rewrite pos_of_to_text. simpl. by rewrite N.pos_pred_succ. Qed.

#[export] Instance sqlite_reader : SqliteJson := {| json_read := from_str |}.
#[export] Instance sqlite_reader_laws : SqliteJsonLaws.
Proof. split. intros j Hj. by apply from_str_to_string. Qed.

#[export] Instance key_scan : TableScan := {| scan := map_to_list |}.
#[export] Instance key_scan_laws : TableScanLaws.
Proof. split. done. Qed.

(** ** Deciding the schema invariant *)

Lemma well_formed_iff db :
  well_formed db <->
  NoDup (row_key <$> db_events db) /\
  Forall (fun r => in_i64 (row_sequence r) = true) (db_events db) /\
  map_Forall (fun _ s => in_i64 (snap_last_sequence s) = true /\ in_i64 (snap_snapshot_version s) = true)
    (db_snapshots db).
Proof. split; [intros []; by split_and!|intros (? & ? & ?); by constructor]. Qed.

#[export] Instance well_formed_dec db : Decision (well_formed db).
Proof. refine (cast_if (decide (NoDup (row_key <$> db_events db) /\
  Forall (fun r => in_i64 (row_sequence r) = true) (db_events db) /\
  map_Forall (fun _ s => in_i64 (snap_last_sequence s) = true /\ in_i64 (snap_snapshot_version s) = true)
    (db_snapshots db)))); abstract (by rewrite well_formed_iff). Defined.

#[export] Instance readable_dec e : Decision (readable e).
Proof. unfold readable. apply _. Defined.
#[export] Instance is_bytes_dec l : Decision (is_bytes l).
Proof. unfold is_bytes. apply _. Defined.

(** Decides a closed proposition by evaluation. *)
Ltac computed := apply (bool_decide_eq_true_1 _); vm_compute; reflexivity.

(** ** A stream of orders *)

Module Orders.
Definition stream : StreamIdentity := mkStream "order" "o-1".
Definition event (n : Z) : SerializedEvent :=
  mkSerializedEvent "order" "o-1" n "OrderEvent" "1.0" (JObject [("n", JInt n)]) (JObject []).
Definition place : CommitRequest :=
  mkCommit stream (Some 0%Z) [event 1; event 2] None [mkEnqueueRequest 7%N "charge" (JInt 5) 1000].
Definition ship : CommitRequest :=
  mkCommit stream (Some 2%Z) [event 3] (Some (mkSnapshotUpdate (JInt 3) 1)) [].

Definition db0 : Db := empty_db.
Definition db1 : Db := (run (commit place) db0).2.
Definition db2 : Db := (run (commit ship) db1).2.
End Orders.

Example place_ok : (run (commit Orders.place) Orders.db0).1 = Ok ().
Proof. vm_compute. reflexivity. Qed.
Example ship_ok : (run (commit Orders.ship) Orders.db1).1 = Ok ().
Proof. vm_compute. reflexivity. Qed.

(** Evaluates a closed goal. *)
Ltac evaluate := vm_compute; reflexivity.

Lemma commit_spec_witness :
  (commit Orders.place (mkWorld Orders.db0 [])).1 = Ok () /\
  forall e w', commit Orders.place (mkWorld Orders.db0 [None; Some (SqlxOther "io")]) = (Err e, w') ->
    w_db w' = Orders.db0.
Proof.
  split.
  - evaluate.
  - intros e w' Hc.
    exact (proj1 (proj2 (commit_spec Orders.place (mkWorld Orders.db0 [None; Some (SqlxOther "io")]))) e w' Hc).
Defined.

Lemma commit_load_witness :
  run (load_events Orders.stream (Some 2%Z)) Orders.db2 = (Ok [Orders.event 3], Orders.db2).
Proof.
  refine (proj1 (proj2 (commit_load Orders.ship Orders.db1 Orders.db2 2 _ _ eq_refl _ _))).
  - computed.
  - discriminate.
  - computed.
  - evaluate.
Defined.

Lemma store_snapshot_sound_witness :
  db_events (w_db (store_snapshot Orders.stream (mkSnapshotWrite (JInt 9) 2) (mkWorld Orders.db1 [])).2) =
    db_events Orders.db1.
Proof.
  assert (well_formed Orders.db1) as Hwf by computed.
  pose proof (store_snapshot_sound Orders.stream (mkSnapshotWrite (JInt 9) 2) (mkWorld Orders.db1 [])
    Hwf ltac:(simpl; lia) eq_refl eq_refl) as H.
  destruct (store_snapshot _ _ _) as [[v|e] w']; simpl in *.
  - exact (proj1 (proj2 (proj2 H))).
  - by rewrite (proj1 H).
Defined.

Lemma compaction_sound_witness :
  committed_version Orders.stream
    (w_db (compact_events "order" CompactAfterSnapshot (mkWorld Orders.db2 [])).2) = 3%Z.
Proof.
  assert (well_formed Orders.db2) as Hwf by computed.
  pose proof (compaction_sound "order" CompactAfterSnapshot (mkWorld Orders.db2 []) Hwf) as H.
  destruct (compact_events _ _ _) as [r w']. rewrite (proj1 H). evaluate.
Defined.

Lemma paging_complete_witness :
  exists all, length all = 3 /\
    run (load_all 4 Orders.stream None 1) Orders.db2 = (Ok all, Orders.db2).
Proof.
  exists [Orders.event 1; Orders.event 2; Orders.event 3]. split; [reflexivity|].
  refine (paging_complete Orders.stream None 1 Orders.db2 [Orders.event 1; Orders.event 2; Orders.event 3] _ _ _).
  - computed.
  - reflexivity.
  - evaluate.
Defined.

Lemma bounded_page_witness :
  run (load_events_page_bounded Orders.stream (Some 1%Z) 2 1) Orders.db2 =
    (Err (EventPageTooLarge (page_bytes (select_page Orders.stream (Some 1%Z) 2 Orders.db2)) 1), Orders.db2).
Proof.
  rewrite (bounded_page Orders.stream (Some 1%Z) (Some 1%Z) 2 1 Orders.db2 eq_refl eq_refl ltac:(evaluate)).
  replace (page_bytes _ <=? 1)%Z with false by evaluate. reflexivity.
Defined.

Module Opaque.
Definition request : OpaqueCommitRequest :=
  mkOpaqueCommit (mkStream "blob" "b") 0 [mkProposed "Put" "1" [0; 255; 7]%Z] [].
Definition db : Db := (run (commit_opaque request) empty_db).2.
End Opaque.

Lemma opaque_commit_round_trip_witness :
  run (load_opaque_events_page_bounded (mkStream "blob" "b") (Some 0%Z) 10 1000000) Opaque.db =
    (Ok [mkOpaqueStored 1 "Put" "1" [0; 255; 7]%Z], Opaque.db).
Proof.
  refine (opaque_commit_round_trip Opaque.request empty_db Opaque.db 10 1000000 _ _ _ _ eq_refl _ _ _).
  - computed.
  - discriminate.
  - computed.
  - evaluate.
  - simpl; lia.
  - apply Z.leb_le. evaluate.
  - evaluate.
Defined.

Lemma native_events_not_opaque_witness :
  is_ok (decode_opaque_event (Orders.event 1)) = true.
Proof.
  rewrite (native_events_not_opaque Orders.place (mkWorld Orders.db0 [])
    (commit Orders.place (mkWorld Orders.db0 [])).2 (Orders.event 1)); [reflexivity| |].
  - evaluate.
  - apply elem_of_cons. by left.
Defined.

Lemma engine_history_witness :
  (committed_version Orders.stream Orders.db0 <= committed_version Orders.stream Orders.db2)%Z.
Proof.
  refine (proj2 (engine_history Orders.db0 Orders.db2 Orders.stream _ _)).
  - eapply rtc_l; [|apply rtc_once].
    + exact (step_commit Orders.place 0 (mkWorld Orders.db0 []) _ _ eq_refl (surjective_pairing _)).
    + exact (step_commit Orders.ship 2 (mkWorld Orders.db1 []) _ _ eq_refl (surjective_pairing _)).
  - computed.
Defined.

Lemma version_committed_once_witness :
  exists w3, commit Orders.place (mkWorld Orders.db2 []) = (Err OptimisticLock, w3) /\ w_db w3 = Orders.db2.
Proof.
  refine (proj2 (version_committed_once Orders.place Orders.place 0 (mkWorld Orders.db0 [])
    (commit Orders.place (mkWorld Orders.db0 [])).2 (mkWorld Orders.db2 []) _ _ eq_refl _ eq_refl eq_refl _ _)
    eq_refl _ _).
  - computed.
  - discriminate.
  - discriminate.
  - evaluate.
  - apply rtc_once.
    exact (step_commit Orders.ship 2 (mkWorld Orders.db1 []) _ _ eq_refl (surjective_pairing _)).
  - repeat constructor.
  - repeat constructor.
Defined.

(** ** A durable job *)

#[export] Instance event_storable_dec e : Decision (event_storable e).
Proof. unfold event_storable, payload_storable. destruct e; simpl; apply _. Defined.
#[export] Instance state_storable_dec s : Decision (state_storable s).
Proof. unfold state_storable, payload_storable. destruct s; simpl; apply _. Defined.

Module Jobs.
Definition id : string := ulid_to_string 7%N.
Definition pending : JobState := Pending "charge" (JInt 5) 1000 0 0.
Definition held : JobState := Claimed "charge" (JInt 5) "w" "claim-a" 1000 0 1.
Definition log1 : list JobEvent := [Enqueued "charge" (JInt 5) 1000].
Definition log2 : list JobEvent := log1 ++ [ClaimedEv "w" "claim-a" 32000].
Definition log3 : list JobEvent := log2 ++ [Succeeded].

Definition claim (now : Z) (fresh : string) : M SqliteJobError (ClaimOutcome WonClaim) :=
  claim_job id (fun read => plan_claim id read "w" now 30000 50 fresh).

Definition db1 : Db := Orders.db1.
Definition db2 : Db := (run (claim 2000 "claim-a") db1).2.
Definition row2 : ViewRow := mkViewRow 2 (lifecycle_text (Live held)) (Some 32000%Z).

Definition row1 : ViewRow := mkViewRow 1 (lifecycle_text (Live pending)) None.

Lemma row1_lookup : view_table JOB_QUEUE db1 !! id = Some row1.
Proof. evaluate. Qed.

Lemma inv1 : job_inv id log1 db1.
Proof.
  split; [evaluate| |reflexivity|computed]. rewrite row1_lookup.
  exists 1, pending. split_and!; [done|simpl; lia|done|done|constructor].
Qed.

Lemma row2_lookup : view_table JOB_QUEUE db2 !! id = Some row2.
Proof. evaluate. Qed.

Lemma inv2 : job_inv id log2 db2.
Proof.
  split; [evaluate| |reflexivity|computed]. rewrite row2_lookup.
  exists 2, held. split_and!; [done|simpl; lia|done|done|constructor].
Qed.

Definition db3 : Db :=
  match JobHistory.settle id (replay Uninitialized log2) 2 (Succeed "claim-a") None with
  | Some m => (run m db2).2
  | None => db2
  end.

Lemma inv3 : job_inv id log3 db3.
Proof.
  split; [evaluate| |reflexivity|computed].
  assert (view_table JOB_QUEUE db3 !! id = Some row2) as -> by evaluate.
  exists 2, held. split_and!; [done|simpl; lia|done|done|by repeat constructor].
Qed.
End Jobs.

Lemma claim_compare_and_swap_witness :
  exists won w', Jobs.claim 2000 "claim-a" (mkWorld Jobs.db1 []) = (Ok (OutcomeWon won), w') /\
    job_inv Jobs.id (Jobs.log1 ++ [ClaimedEv "w" "claim-a" 32000]) (w_db w').
Proof.
  assert (well_formed Jobs.db1) as Hwf by computed.
  pose proof (claim_compare_and_swap Jobs.id Jobs.log1 (mkWorld Jobs.db1 []) "w" 2000 30000 50 "claim-a"
    Hwf Jobs.inv1 eq_refl) as H.
  assert ((Jobs.claim 2000 "claim-a" (mkWorld Jobs.db1 [])).1 =
          Ok (OutcomeWon (mkWonClaim 2 "claim-a" 0 (JInt 5)))) as Hr by evaluate.
  unfold Jobs.claim in *. destruct (claim_job _ _ _) as [r w']. cbn in Hr. subst r.
  destruct H as (s & row & row' & _ & _ & _ & _ & _ & _ & _ & Hinv & _).
  by exists (mkWonClaim 2 "claim-a" 0 (JInt 5)), w'.
Defined.

Lemma lease_excludes_claims_witness :
  run (Jobs.claim 32000 "claim-b") Jobs.db2 = (Ok OutcomeSkip, Jobs.db2).
Proof.
  refine (proj2 (lease_excludes_claims Jobs.id Jobs.log2 Jobs.db2 "charge" (JInt 5) "w" "claim-a" 1000 0 1
    Jobs.row2 32000 "w" 32000 30000 50 "claim-b" _ Jobs.inv2 eq_refl Jobs.row2_lookup eq_refl _)).
  - computed.
  - lia.
Defined.

Lemma renewal_fenced_witness :
  job_inv Jobs.id Jobs.log2 (w_db (renew_job Jobs.id 2 60000 (mkWorld Jobs.db2 [])).2).
Proof.
  pose proof (renewal_fenced Jobs.id Jobs.log2 (mkWorld Jobs.db2 []) 2 60000 Jobs.inv2) as H.
  destruct (renew_job _ _ _ _). exact (proj1 H).
Defined.

Lemma rows_storable_single db id row s :
  view_table JOB_QUEUE db = {[id := row]} -> state_storable s ->
  view_payload row = lifecycle_text (Live s) -> rows_storable db.
Proof.
  unfold rows_storable. intros -> Hs Hp i r [<- <-]%lookup_singleton_Some. eauto.
Qed.

Lemma poll_exact_witness :
  exists ids, run (poll_jobs "charge" 2000 (-1)) Jobs.db1 = (Ok (sql_limit (-1) ids), Jobs.db1) /\
    forall id, id ∈ ids <-> claimable Jobs.db1 "charge" 2000 id.
Proof.
  destruct (poll_exact Jobs.db1 "charge" 2000 (-1)) as (ids & Hr & _ & Hc & _).
  - apply (rows_storable_single _ Jobs.id Jobs.row1 Jobs.pending).
    + evaluate.
    + computed.
    + reflexivity.
  - exact (ex_intro _ ids (conj Hr Hc)).
Defined.

Lemma job_history_witness :
  history_inv Jobs.id (Jobs.log2, Jobs.db2) /\ Jobs.log1 `prefix_of` Jobs.log2.
Proof.
  assert (well_formed Jobs.db1) as Hwf by computed.
  assert (claim_job Jobs.id (fun read => plan_claim Jobs.id read "w" 2000 30000 50 "claim-a")
    (mkWorld Jobs.db1 []) = (Ok (OutcomeWon (mkWonClaim 2 "claim-a" 0 (JInt 5))), mkWorld Jobs.db2 [])) as Hc
    by evaluate.
  apply (JobHistory.step_claim Jobs.id Jobs.log1) in Hc; [|reflexivity]. cbn [w_db] in Hc.
  exact (job_history Jobs.id (Jobs.log1, Jobs.db1) (Jobs.log2, Jobs.db2) (rtc_once _ _ (ex_intro _ _ Hc)) (conj Hwf Jobs.inv1)).
Defined.

Lemma settlement_settles_its_claim_witness :
  exists m, JobHistory.settle Jobs.id (replay Uninitialized (take 2 Jobs.log2)) 2 (Succeed "claim-a") None = Some m /\
    (m (mkWorld Jobs.db2 [])).1 = Ok () /\
    exists e, history_inv Jobs.id (Jobs.log2 ++ [e], w_db (m (mkWorld Jobs.db2 [])).2).
Proof.
  destruct (JobHistory.settle Jobs.id (replay Uninitialized (take 2 Jobs.log2)) 2 (Succeed "claim-a") None) as [m|] eqn:Hm;
    [|vm_compute in Hm; discriminate].
  exists m. split; [reflexivity|].
  assert ((m (mkWorld Jobs.db2 [])).1 = Ok ()) as Hok
    by (vm_compute in Hm; injection Hm as <-; evaluate).
  assert (well_formed Jobs.db2) as Hwf by computed.
  pose proof (settlement_settles_its_claim Jobs.id Jobs.log2 2 (Succeed "claim-a") None m (mkWorld Jobs.db2 [])
    (conj Hwf Jobs.inv2) I I ltac:(simpl; lia) Hm) as H.
  destruct (m (mkWorld Jobs.db2 [])) as [r w']. cbn in Hok |- *. subst r. split; [done|].
  destruct H as (_ & worker & lease & e & _ & _ & H). by exists e.
Defined.

Lemma outcomes_follow_claims_witness :
  exists j worker cid lease, 2 = S j /\ Jobs.log3 !! j = Some (ClaimedEv worker cid lease).
Proof. exact (outcomes_follow_claims Jobs.id Jobs.log3 Jobs.db3 2 Succeeded Jobs.inv3 eq_refl eq_refl). Defined.

(** ** A counter entity *)

Module Counter.
Inductive event : Type := Opened (n : Z) | Added (n : Z).
Inductive command : Type := Open (n : Z) | Add (ns : list Z) | Start (job : N).
Inductive error : Type := Negative.

#[global] Instance machine : EventSourced Z event command error := {|
  originate e := match e with Opened n => Some n | Added _ => None end;
  evolve s e :=
    match e with
    | Opened _ => Ok None
    | Added n => if (s + n <? 0)%Z then Err Negative else Ok (Some (s + n)%Z)
    end;
  initialize c := match c with Open n => Ok (Events [Opened n]) | _ => Err Negative end;
  transition s c :=
    match c with
    | Open _ => Ok (Events [])
    | Add ns => Ok (Events (Added <$> ns))
    | Start j => Ok (Lifecycle.Dispatch (mkJobDispatch (Added 0) (mkPendingPush j "charge" (Ok (JInt 5)) None)))
    end;
|}.

#[global] Instance entity_serde : Serde Z := {|
  ser := JInt; de j := match j with JInt n => Some n | _ => None end |}.
#[global] Instance event_serde : Serde event := {|
  ser e := match e with Opened n => JArray [JInt n] | Added n => JInt n end;
  de j := match j with JArray [JInt n] => Some (Opened n) | JInt n => Some (Added n) | _ => None end |}.
#[global] Instance error_serde : Serde error := {| ser _ := JNull; de _ := Some Negative |}.

Definition live (n : Z) : Lifecycle Z event error := Live n.
End Counter.

Lemma handle_events_replay_witness :
  failed (replay (Counter.live 3) [Counter.Added (-2); Counter.Added 5]) = false.
Proof. exact (handle_events_replay (Counter.live 3) (Counter.Add [-2; 5]%Z) (Some []) _ (Some []) eq_refl). Defined.

Lemma handle_effect_witness :
  exists pushes, pushes = [mkPendingPush 7%N "charge" (Ok (JInt 5)) None] /\
    handle (Counter.live 3) (Counter.Start 7%N) (Some []) = (Ok [Counter.Added 0], Some pushes).
Proof.
  assert (handle (Counter.live 3) (Counter.Start 7%N) (Some []) =
    (Ok [Counter.Added 0], Some [mkPendingPush 7%N "charge" (Ok (JInt 5)) None])) as Hh by evaluate.
  destruct (handle_effect _ _ _ _ _ Hh) as [[Hd _]|(d & pushes & Hd & _ & Hp & Hp')]; [discriminate|].
  exists (pushes ++ [dispatch_pending d]). injection Hp as <-. injection Hd as <-. split; [reflexivity|exact Hh].
Defined.

Lemma handle_error_witness :
  exists pre e last, failed (replay (Counter.live 3) pre) = false /\
    apply (replay (Counter.live 3) pre) e = Failed (Apply Counter.Negative) last.
Proof.
  assert (handle (Counter.live 3) (Counter.Add [1; -9]%Z) None = (Err (Apply Counter.Negative), None)) as Hh
    by evaluate.
  destruct (handle_error _ _ _ _ _ Hh) as [H|[[H _]|(pre & e & last & Hf & Ha & [[post Hp]|(d & Hd & _)])]]; try discriminate.
  exact (ex_intro _ pre (ex_intro _ e (ex_intro _ last (conj Hf Ha)))).
Defined.

Lemma first_execution_iff_unclaimed_witness :
  is_first_execution (mkJobContext 7%N 3 "claim-b" 0 5 (mkDeliveryPolicy 1 1)) = true <->
  Forall (fun e => is_claim e = false) Jobs.log2.
Proof.
  exact (first_execution_iff_unclaimed Jobs.log2 Jobs.held
    (mkJobContext 7%N 3 "claim-b" 0 5 (mkDeliveryPolicy 1 1)) eq_refl eq_refl eq_refl).
Defined.

Definition pushes : list PendingPush := [mkPendingPush 9%N "charge" (Ok (JInt 5)) None].

Lemma persist_atomic_witness :
  exists m, persist 10 (fun _ => 0%Z) "order" [Orders.event 1] None (Some pushes) = Some m /\
    (m (mkWorld empty_db [])).1 = Ok (Some []) /\
    w_db (m (mkWorld empty_db [None; None; Some (SqlxOther "io")])).2 = empty_db.
Proof.
  destruct (persist 10 (fun _ => 0%Z) "order" [Orders.event 1] None (Some pushes)) as [m|] eqn:Hm; [|discriminate].
  exists m. split; [reflexivity|].
  pose proof (persist_atomic 10 (fun _ => 0%Z) "order" [Orders.event 1] None pushes m
    (mkWorld empty_db [None; None; Some (SqlxOther "io")]) Hm) as H.
  assert (is_ok (m (mkWorld empty_db [None; None; Some (SqlxOther "io")])).1 = false /\
          (m (mkWorld empty_db [])).1 = Ok (Some [])) as [Hr ->]
    by (injection Hm as <-; split; evaluate).
  split; [reflexivity|]. destruct (m (mkWorld empty_db [None; None; Some (SqlxOther "io")])) as [[p|e] w'].
  - discriminate Hr.
  - exact H.
Defined.

Lemma backoff_saturates_witness : backoff_delay_ms 64 100 1000 = 1000%Z.
Proof. rewrite (proj1 (backoff_saturates 64 100 1000 ltac:(lia) ltac:(lia) ltac:(unfold u64_max; lia))). reflexivity. Defined.

(** ** Dispatched jobs and the worker *)

Module Payments.
Definition dispatched : Type := DispatchedJob (Output := Z) (Error := string).
Definition verdict : Verdict (Output := Z) (Error := string) := confirmed 7%N 42%Z 1%Z.
Definition other : Verdict (Output := Z) (Error := string) :=
  failed_outcome 7%N (FailureRejected "declined") 1%Z.
Definition ctx (seq attempt : Z) : JobContext :=
  mkJobContext 7%N seq "claim-b" attempt 3 (mkDeliveryPolicy 1000 60000).
Definition submit (c : JobContext) : result (JobFailure (Error := string)) (JobOutcome Z) := Ok (OutDone 42%Z).
Definition reconcile (c : JobContext) : result (JobFailure (Error := string)) (Reconciliation (Output := Z)) :=
  Ok RecNotSubmitted.
Definition deliver (v : Verdict (Output := Z) (Error := string)) : result OriginDeliveryError () := Ok ().
Definition run (seq attempt : Z) := perform submit reconcile deliver id (ctx seq attempt).

Definition config : JobWorkerConfig := mkJobWorkerConfig 250000000 16 8 30000000000 10000000000 300000000000 3 50
  (fun a => (1000000000 * 2 ^ a)%Z) (mkDeliveryPolicy 1000 60000).
Definition failing (claim_id : string) : FailingRun := mkFailingRun "w" claim_id 32000 2000000000 "timeout".
End Payments.

Lemma settle_exactly_once_witness :
  settle (J := Json) (verdict_state Payments.verdict) Payments.verdict = Ok [] /\
  settle (J := Json) (verdict_state Payments.verdict) Payments.other = Err OutcomeMismatch.
Proof.
  split.
  - exact (proj1 (proj2 (settle_exactly_once 7%N Payments.verdict Payments.verdict eq_refl))).
  - exact (proj1 (proj2 (settle_exactly_once 7%N Payments.verdict Payments.other eq_refl))).
Defined.

Lemma submit_needs_reconciliation_witness :
  (Payments.run 3 1).2 = [CallReconcile; CallSubmit; CallDeliver (confirmed 7%N 42%Z 2%Z)] /\
  (Payments.run 3 1).2 !! 0 = Some CallReconcile.
Proof.
  split; [reflexivity|].
  destruct (submit_needs_reconciliation Payments.submit Payments.reconcile Payments.deliver id
    (Payments.ctx 3 1) _ _ (surjective_pairing _)) as [_ [H|[H _]]].
  - right. left.
  - discriminate H.
  - exact H.
Defined.

Lemma final_attempt_is_killed_witness :
  ack_command 1000000000000 Payments.config 2000000000
    (task_context Payments.config (mkHandle 7%N 6 "claim-c" 2)) (AckFailed "timeout") =
    Some (Kill "claim-c" RetriesExhausted "timeout").
Proof.
  exact (proj1 (proj1 (final_attempt_is_killed 1000000000000 Payments.config (mkHandle 7%N 6 "claim-c" 2)
    2000000000 "timeout" ltac:(simpl; lia))) eq_refl).
Defined.

Lemma failing_schedulable : schedulable 1000000000000 Payments.config (Payments.failing "a").
Proof.
  intros a. unfold schedulable, lease_delta, Payments.config, Payments.failing. cbn [backoff_delay fr_now].
  assert (0 <= 1000000000 * 2 ^ a)%Z by lia.
  case_match; [|reflexivity]. simpl. apply andb_true_iff. rewrite !Z.leb_le.
  pose proof (Z.div_le_mono (2000000000 + 1000000000 * 2 ^ a) (2000000000 + 1000000000000) 1000000
    ltac:(lia) ltac:(lia)).
  pose proof (Z.div_pos (2000000000 + 1000000000 * 2 ^ a) 1000000 ltac:(lia) ltac:(lia)).
  change ((2000000000 + 1000000000000) `div` 1000000)%Z with 1002000%Z in *. lia.
Qed.

Lemma retry_budget_exact_witness :
  failing_runs 1000000000000 Payments.config (Pending "charge" (JInt 5) 1000 0 0)
    [Payments.failing "a"; Payments.failing "a"; Payments.failing "a"] = Some (Dead RetriesExhausted).
Proof.
  pose proof (retry_budget_exact 1000000000000 Payments.config "charge" (JInt 5) 1000 0
    [Payments.failing "a"; Payments.failing "a"; Payments.failing "a"]
    ltac:(simpl; unfold u32_max; lia) ltac:(repeat constructor; apply failing_schedulable)) as H.
  destruct (failing_runs _ _ _ _) as [[? ? ? ? ?|? ? ? ? ? ? ?| |reason]|]; simpl in H;
    [lia|contradiction|contradiction|by rewrite (proj1 H)|lia].
Defined.

Lemma runnable_job_is_claimed_witness :
  exists db', run (claim_job_as 7%N "w" 2000 30000 50 "claim-a") Jobs.db1 =
    (Ok (ClaimedJob (mkHandle 7%N 2 "claim-a" 0) (JInt 5)), db').
Proof.
  exact (runnable_job_is_claimed 7%N Jobs.log1 Jobs.db1 Jobs.row1 Jobs.pending "w" 2000 30000 50 "claim-a" Jobs.inv1 eq_refl Jobs.row1_lookup eq_refl
    ltac:(unfold i64_max; simpl; lia) eq_refl ltac:(lia) ltac:(lia) eq_refl).
Defined.

(** ** Views *)

Module Views.
Definition stored (n : Z) (e : Counter.event) : SerializedEvent :=
  mkSerializedEvent "counter" "c" n "CounterEvent" "1.0" (ser e) (JObject []).
Definition events : list Counter.event := [Counter.Opened 3; Counter.Added 4; Counter.Added 5].
Definition committed_db : Db :=
  (run (commit (mkCommit (mkStream "counter" "c") (Some 0%Z)
     [stored 1 (Counter.Opened 3); stored 2 (Counter.Added 4); stored 3 (Counter.Added 5)] None [])) empty_db).2.
Definition reacted (w : World) (e : Counter.event) : World :=
  (react (Entity := Z) (Error := Counter.error) "counter_view" "c" e w).2.
(** The view has seen the first event only. *)
Definition lagging : Db := w_db (reacted (mkWorld committed_db []) (Counter.Opened 3)).

#[export] Instance event_eq_dec : EqDecision Counter.event.
Proof. solve_decision. Defined.
#[export] Instance positive_sequences_dec t db : Decision (positive_sequences t db).
Proof. unfold positive_sequences. apply _. Defined.
#[export] Instance decoded_dec t id db es : Decision (decoded (Event := Counter.event) t id db es).
Proof. unfold decoded. apply _. Defined.

Definition row (n : Z) (version : Z) : ViewRow :=
  mkViewRow version (to_string (ser (Counter.live n))) None.
Definition view_of (db : Db) : option ViewRow := view_table "counter_view" db !! "c".

Lemma lagging_sound :
  view_sound (Entity := Z) (Error := Counter.error) "counter_view" "counter" "c" lagging.
Proof.
  unfold view_sound. assert (view_table "counter_view" lagging !! "c" = Some (row 3 1)) as -> by evaluate.
  intros l Hl. vm_compute in Hl. injection Hl as <-. exists [Counter.Opened 3]. split; evaluate.
Qed.
End Views.
Import Views.

Lemma catch_up_restores_witness :
  exists db', run (catch_up (Entity := Z) (Error := Counter.error) "counter_view" "counter") lagging = (Ok (), db') /\
    view_of db' = Some (row 12 3).
Proof.
  assert (well_formed lagging) as Hwf by computed.
  assert (positive_sequences "counter" lagging) as Hp by computed.
  assert (decoded "counter" "c" lagging events) as Hd by computed.
  destruct (catch_up_restores (Entity := Z) (Error := Counter.error) "counter_view" "counter"
    (fun _ => replay Uninitialized events) lagging Hwf Hp) as (db' & Hr & _ & Ht & _).
  - intros id [Hid _]. replace (aggregate_ids "counter" lagging) with ["c"] in Hid by evaluate.
    apply list_elem_of_singleton in Hid as ->. evaluate.
  - exists db'. split; [exact Hr|]. unfold view_of. rewrite Ht, decide_True; [evaluate|]. split; [|evaluate].
    replace (aggregate_ids "counter" lagging) with ["c"] by evaluate. left.
Defined.

Lemma rebuild_all_is_fold_witness :
  exists db', run (rebuild_all (Entity := Z) (Error := Counter.error) "counter_view" "counter") lagging =
    (Ok (), db') /\ view_of db' = Some (row 12 3).
Proof.
  assert (well_formed lagging) as Hwf by computed.
  assert (positive_sequences "counter" lagging) as Hp by computed.
  assert (decoded "counter" "c" lagging events) as Hd by computed.
  destruct (rebuild_all_is_fold (Entity := Z) (Error := Counter.error) "counter_view" "counter"
    (fun _ => events) lagging Hwf Hp) as (db' & Hr & _ & Ht).
  - replace (aggregate_ids "counter" lagging) with ["c"] by evaluate. constructor; [exact Hd|constructor].
  - exists db'. split; [exact Hr|]. unfold view_of. rewrite Ht, decide_True; [evaluate|].
    replace (aggregate_ids "counter" lagging) with ["c"] by evaluate. left.
Defined.

(** ** Findings *)

(** A native persist carries no expected version, so a writer that loaded the stream
    before its last commit is accepted once compaction has removed the rows that
    would have conflicted; the event it is told was committed lies at or below the
    snapshot and is never loaded.  The same events with their version are refused. *)
Example stale_persist_accepted_after_compaction :
  let db := w_db (compact_events "order" CompactAfterSnapshot (mkWorld Orders.db2 [])).2 in
  let stale := at_expected_version (new_commit Orders.stream [Orders.event 3]) 2 in
  exists m, persist 10 (fun _ => 0%Z) "order" [Orders.event 3] None (Some []) = Some m /\
    (run m Orders.db2).1 = Err OptimisticLockError /\
    (run m db).1 = Ok (Some []) /\
    (run (get_last_events "order" "o-1" 3) (run m db).2).1 = Ok [] /\
    (run (commit stale) db).1 = Err OptimisticLock.
Proof.
  cbv zeta. eexists. split; [reflexivity|]. split_and!; evaluate.
Qed.

(** A context without a retry budget ([max_attempts = 0]) never considers an attempt
    final, so a failing job is dead-lettered without its origin being told. *)
Example zero_budget_killed_untold :
  let config := mkJobWorkerConfig 0 0 0 0 0 0 0 50 (fun _ => 0%Z) (mkDeliveryPolicy 0 0) in
  let ctx := task_context config (mkHandle 7%N 2 "claim-a" 0) in
  is_final_attempt ctx = false /\
  ack_command 10 config 0 ctx (AckFailed "timeout") = Some (Kill "claim-a" RetriesExhausted "timeout").
Proof. split; reflexivity. Qed.

(** A view's version counts the events applied to it, not their sequences.  When one
    reaction is lost to a driver failure and a later one succeeds, the next catch-up
    applies the later event a second time and never the lost one: the view ends at
    the last sequence with 13 where the stream folds to 12. *)
Example lost_reaction_not_caught_up :
  let w1 := reacted (mkWorld committed_db []) (Counter.Opened 3) in
  let w2 := reacted (mkWorld (w_db w1) [None; Some (SqlxOther "io")]) (Counter.Added 4) in
  let w3 := reacted (mkWorld (w_db w2) []) (Counter.Added 5) in
  let r := run (catch_up (Entity := Z) (Error := Counter.error) "counter_view" "counter") (w_db w3) in
  r.1 = Ok () /\ view_of r.2 = Some (row 13 3) /\ replay Uninitialized events = Counter.live 12.
Proof. cbv zeta. split_and!; evaluate. Qed.

(** Two writers race to create a view row: the loser's insert fails on the primary
    key, which is reported as a connection error, not as an optimistic-lock conflict,
    and is not retryable, so [react] drops its event. *)
Example first_insert_conflict_not_retried :
  let r := run (update_view "counter_view" (Counter.live 7) (mkViewContext "c" 0)) lagging in
  r = (Err (ConnectionError unique_violation_error), lagging) /\
  is_retryable_sqlite_busy (persistence_node (ConnectionError unique_violation_error)) = false.
Proof. split; evaluate. Qed.

(** ** A poll *)

Module Queue.
Definition logs (id : string) : list JobEvent := if decide (id = Jobs.id) then Jobs.log1 else [].
Definition from_value (j : Json) : option Z := match j with JInt n => Some n | _ => None end.

Lemma jobs : jobs_inv logs Jobs.db1.
Proof.
  split; [computed|]. intros id. unfold logs. case_decide as Hid; [subst; exact Jobs.inv1|].
  assert (Forall (fun r => row_aggregate_type r = JOB_AGGREGATE_TYPE -> row_aggregate_id r = Jobs.id)
    (db_events Jobs.db1)) as Hrows by computed.
  split; [| |reflexivity|constructor].
  - apply list_filter_none. intros r Hr. rewrite in_stream_true. intros [Ht Hi].
    rewrite Forall_forall in Hrows. by rewrite (Hrows r Hr Ht) in Hi.
  - replace (view_table JOB_QUEUE Jobs.db1) with ({[Jobs.id := Jobs.row1]} : gmap string ViewRow) by evaluate.
    by rewrite lookup_singleton_ne.
Qed.
End Queue.

Lemma poll_task_holds_claim_witness :
  exists ctx w', poll Queue.from_value "charge" "w" Payments.config 2000 (fun _ => "claim-a") (mkWorld Jobs.db1 []) =
      (PollTask 5%Z ctx, w') /\
    exists logs', jobs_inv logs' (w_db w') /\ holds_claim "w" Payments.config logs' 2000 ctx.
Proof.
  pose proof (poll_task_holds_claim Queue.from_value "charge" "w" Payments.config Queue.logs 2000
    (fun _ => "claim-a") (mkWorld Jobs.db1 []) Queue.jobs eq_refl) as H.
  assert ((poll Queue.from_value "charge" "w" Payments.config 2000 (fun _ => "claim-a") (mkWorld Jobs.db1 [])).1 =
    PollTask 5%Z (task_context Payments.config (mkHandle 7%N 2 "claim-a" 0))) as Hr by evaluate.
  destruct (poll _ _ _ _ _ _ _) as [r w']. cbn [fst] in Hr. subst r.
  destruct H as (logs' & Hinv & _ & Hclaim).
  exists (task_context Payments.config (mkHandle 7%N 2 "claim-a" 0)), w'. split; [reflexivity|].
  exact (ex_intro _ logs' (conj Hinv Hclaim)).
Defined.
