(* ===== verification/AbiWitnesses.v ===== *)
(** * Concrete runs of schema recovery, startup and the C ABI

    The second part of Witnesses.v: instances of the remaining external interfaces (the
    command load of [cqrs-es], a hash map's order, a CBOR codec) and a concrete run for
    each property of schema recovery, startup, execution, queries and the ABI; and the
    concrete executions behind the findings of these parts. *)

From S2P Require Import Prelude Json Sqlite EventTable Lifecycle Schema Job Engine EngineProps.
From S2P Require Import EnginePaging ViewRepository JobQueue JobQueueProps Repository SqliteEs SchemaRecovery.
From S2P Require Import JobHistory History Reactor Dispatch Worker Execution Poll Projection Startup Queries.
From S2P Require Import Abi ClaimRegistry StoreHandle Ffi FfiProps Witnesses.
Import BinaryText Views.

(** ** Instances *)

(** [cqrs-es] folds the decoded payloads. *)
#[export] Instance replay_load : CqrsLoad := {|
  load_context events :=
    match mapM (fun e => de (A := SchemaRegistryEvent) (ev_payload e)) events with
    | Some decoded => Ok (replay Uninitialized decoded, default 0%Z (ev_sequence <$> last events))
    | None => Err Malformed
    end |}.
#[export] Instance replay_load_laws : CqrsLoadLaws.
Proof. split. intros events decoded Hd. cbn [load_context replay_load]. by rewrite Hd. Qed.

#[export] Instance sorted_iter : HashOrder := {| hash_iter := map_to_list |}.
#[export] Instance sorted_iter_laws : HashOrderLaws.
Proof. split. done. Qed.

(** Any countable wire type has a codec: one number, in one piece. *)
Definition countable_codec (T : Type) `{Countable T} : CborCodec T := {|
  from_reader_with_recursion_limit _ bytes :=
    match bytes with
    | [Zpos p] => ok_or (CborFailure "malformed") (decode p)
    | _ => Err (CborFailure "malformed")
    end;
  chunks_of x := Ok [[Zpos (encode x)]] |}.

Lemma countable_codec_laws (T : Type) `{Countable T} : @CborLaws T (countable_codec T) (fun _ => True).
Proof. split. intros x chunks _ [= <-]. simpl. by rewrite decode_encode. Qed.

#[export] Instance proposed_eq_dec : EqDecision ProposedEventWire.
Proof. solve_decision. Defined.
#[export] Instance proposed_countable : Countable ProposedEventWire.
Proof.
  refine (inj_countable' (fun w => (pw_event_type w, pw_event_version w, pw_payload w))
    (fun '(t, v, p) => mkProposedWire t v p) _). by intros [].
Defined.
#[export] Instance stored_eq_dec : EqDecision StoredEventWire.
Proof. solve_decision. Defined.
#[export] Instance stored_countable : Countable StoredEventWire.
Proof.
  refine (inj_countable' (fun w => (sw_sequence w, sw_event_type w, sw_event_version w, sw_payload w))
    (fun '(s, t, v, p) => mkStoredEventWire s t v p) _). by intros [].
Defined.
#[export] Instance job_claim_eq_dec : EqDecision JobClaimWire.
Proof. solve_decision. Defined.
#[export] Instance job_claim_countable : Countable JobClaimWire.
Proof.
  refine (inj_countable' (fun w => (jc_version w, jc_outcome w, jc_token w, jc_attempt w, jc_has_prior_execution w, jc_payload w))
    (fun '(v, o, t, a, h, p) => mkJobClaimWire v o t a h p) _). by intros [].
Defined.

Fixpoint cbor_tree (v : CborValue) : gen_tree (string + Z) :=
  match v with
  | CborText s => GenLeaf (inl s)
  | CborInteger z => GenLeaf (inr z)
  | CborArray l => GenNode 0 (map cbor_tree l)
  | CborNull => GenNode 1 []
  end.
Fixpoint tree_cbor (t : gen_tree (string + Z)) : CborValue :=
  match t with
  | GenLeaf (inl s) => CborText s
  | GenLeaf (inr z) => CborInteger z
  | GenNode 0 l => CborArray (map tree_cbor l)
  | GenNode _ _ => CborNull
  end.
Lemma tree_cbor_tree : forall v, tree_cbor (cbor_tree v) = v.
Proof.
  fix IH 1. intros [s|z|l|]; try reflexivity. simpl. f_equal.
  induction l as [|v l IHl]; [reflexivity|]. simpl. by rewrite IH, IHl.
Qed.
#[export] Instance cbor_eq_dec : EqDecision CborValue.
Proof.
  refine (fun a b => cast_if (decide (cbor_tree a = cbor_tree b))).
  - by rewrite <-(tree_cbor_tree a), <-(tree_cbor_tree b), e.
  - by intros ->.
Defined.
#[export] Instance cbor_countable : Countable CborValue.
Proof. refine (inj_countable' cbor_tree tree_cbor tree_cbor_tree). Defined.
#[export] Instance error_eq_dec : EqDecision ErrorWire.
Proof. solve_decision. Defined.
#[export] Instance error_countable : Countable ErrorWire.
Proof.
  refine (inj_countable' (fun w => (ew_version w, ew_class w, ew_detail w)) (fun '(v, c, d) => mkErrorWire v c d) _).
  by intros [].
Defined.

#[export] Instance error_codec : CborCodec ErrorWire := countable_codec ErrorWire.
#[export] Instance error_codec_laws : CborLaws ErrorWire (fun _ => True) := countable_codec_laws ErrorWire.
#[export] Instance stored_codec : CborCodec StoredEventWire := countable_codec StoredEventWire.
#[export] Instance job_claim_codec : CborCodec JobClaimWire := countable_codec JobClaimWire.

(** A commit is read through the visitor, event by event. *)
Definition seq_elements (events : list ProposedEventWire) : list SeqElement :=
  (fun e => mkSeqElement (Ok e) (Ok ())) <$> events.
#[export] Instance commit_codec : CommitCodec := {|
  read_commit visit _ bytes :=
    match bytes with
    | [Zpos p] =>
        '(v, t, id, x, es) ← ok_or (CborFailure "malformed")
          (decode p : option (Z * string * string * Z * list ProposedEventWire));
        events ← visit (seq_elements es);
        mret (mkCommitWire v t id x events)
    | _ => Err (CborFailure "malformed")
    end;
  write_commit w :=
    Ok [[Zpos (encode (cw_version w, cw_aggregate_type w, cw_aggregate_id w, cw_expected w, ce_values (cw_events w)))]];
  read_commit_with_job _ _ _ := Err (CborFailure "unsupported");
  write_commit_with_job _ := Err (CborFailure "unsupported");
|}.

(** ** Schema recovery and startup *)

Module Counters.
Definition target : SchemaTarget := mkSchemaTarget "counter" 2 Retain.
Definition config : EntityConfig := mkEntityConfig "counter" 2 Retain 10.
Definition crash : option SqlxError := Some (SqlxOther "crash").

Lemma fresh_registry : registry_inv [] lagging.
Proof.
  split_and!; [constructor|by compute| |evaluate]. unfold keys_unique. computed.
Qed.
End Counters.

Lemma schema_version_settles_witness :
  exists db', run (record_target Counters.target) lagging = (Ok (), db') /\
    run (reconcile_target Counters.target) db' = (Ok Unchanged, db').
Proof.
  destruct (schema_version_settles Counters.target [] lagging Counters.fresh_registry eq_refl ltac:(by compute))
    as [(db' & Hr & Hu & _) _].
  by exists db'.
Defined.

Lemma startup_crash_safe_witness :
  let build := build_projected (Entity := Z) (Error := Counter.error) Counters.config "counter_view" in
  exists db', run build (startups build [[Counters.crash]; [None; None; None; Counters.crash]] lagging) = (Ok (), db') /\
    views_exact (Entity := Z) (Error := Counter.error) Counters.config "counter_view" (fun _ => events) db' /\
    view_of db' = Some (row 12 3).
Proof.
  assert (log_decodes Counters.config (fun _ => events) lagging) as Hlog.
  { split_and!; [unfold keys_unique; computed|computed|].
    replace (aggregate_ids (AGGREGATE_TYPE Counters.config) lagging) with ["c"] by evaluate. constructor; [computed|constructor]. }
  destruct (startup_crash_safe (Entity := Z) (Error := Counter.error) Counters.config "counter_view" (fun _ => events)
    ltac:(discriminate) eq_refl ltac:(intros id; evaluate) [] lagging
    [[Counters.crash]; [None; None; None; Counters.crash]] eq_refl ltac:(by compute) Hlog Counters.fresh_registry
    ltac:(intros H; discriminate H)) as (_ & db' & Hr & _ & _ & _ & Hx).
  exists db'. split; [exact Hr|]. split; [by apply Hx|].
  assert (view_of (run (build_projected (Entity := Z) (Error := Counter.error) Counters.config "counter_view")
    (startups (build_projected (Entity := Z) (Error := Counter.error) Counters.config "counter_view")
      [[Counters.crash]; [None; None; None; Counters.crash]] lagging)).2 = Some (row 12 3)) as Hv by evaluate.
  rewrite Hr in Hv. exact Hv.
Defined.

(** ** The claim registry *)

Module Tokens.
Definition token : ClaimToken := [1; 2; 3; 4; 5; 6; 7; 8; 9; 10; 11; 12; 13; 14; 15; 16]%Z.
Definition won : JobClaimHandle := mkHandle 7%N 2 "claim-a" 0.
Definition reserved_once : Claims := mkClaims (mkRegistry ∅ 1) {[0 := InReservation]} ∅ [].
Definition held : ClaimRegistry := mkRegistry {[token := mkRetained won 32000 Available]} 0.
Definition issued_once : Claims := mkClaims held ∅ {[token := won]} [].
Definition settling : Claims :=
  mkClaims (mkRegistry {[token := mkRetained won 32000 Settling]} 0) {[1 := InSettlement token won]} {[token := won]} [].

Lemma reserved_reachable : rtc registry_step no_claims reserved_once.
Proof. apply rtc_once. apply (StepPrepare 1000 0 empty_registry (mkRegistry ∅ 1) ∅ ∅ []); [done|evaluate]. Qed.

Lemma settling_reachable : rtc registry_step no_claims settling.
Proof.
  etrans; [apply reserved_reachable|]. eapply rtc_l; [|apply rtc_once].
  - exact (StepIssue 0 token won 32000 (mkRegistry ∅ 1) {[0 := InReservation]} ∅ [] eq_refl eq_refl).
  - change settling with (mkClaims (mkRegistry {[token := mkRetained won 32000 Settling]} 0)
      (<[1 := InSettlement token won]> ∅) {[token := won]} []).
    apply (StepBeginSettlement 1 token won (issue token won 32000 (mkRegistry ∅ 1))); [evaluate|evaluate].
Qed.
End Tokens.

Lemma registry_bounded_witness : reservations (claims_registry Tokens.reserved_once) = 1%Z.
Proof. exact (proj1 (proj2 (registry_bounded Tokens.reserved_once Tokens.reserved_reachable))). Defined.

Lemma token_exclusive_witness :
  (begin_settlement Tokens.token (claims_registry Tokens.settling)).1 = Err (AbiState "claim handle is invalid").
Proof.
  destruct (proj1 (proj2 (proj2 (token_exclusive Tokens.settling Tokens.settling_reachable)))
    1 (InSettlement Tokens.token Tokens.won) Tokens.token Tokens.won Settling eq_refl eq_refl) as (_ & _ & H & _).
  exact H.
Defined.

(** ** Store handles *)

Module Stores.
Definition owner : Z := 64.
Definition raw : Z := 4096.
Definition store (state : StoreState) (inner : option string) : EsStore string := mkEsStore state inner false.
Definition with_store (cell : Z) (s : EsStore string) : Handles string :=
  mkHandles {[owner := cell]} {[owner := raw]} {[raw := s]}.
Definition system (cell : Z) (s : EsStore string) (ts : gmap nat (Thread string)) : System string :=
  mkSystem (with_store cell s) ts ∅ [].

Definition opened : System string := system raw (store (Open 0) (Some "engine")) ∅.
Definition in_call : System string := system raw (store (Open 1) (Some "engine")) {[0 := InCall raw]}.
Definition closing : System string :=
  system 0 (store (Closing 1) (Some "engine")) {[0 := InCall raw; 1 := Destroying owner raw]}.
(** The closer fell asleep; the call that kept it waiting is out but has not notified. *)
Definition unnotified : System string :=
  system 0 (store (Closing 0) (Some "engine")) {[0 := LeaseNotifying raw; 1 := DrainWaiting owner raw]}.
Definition released : System string :=
  system 0 (store (Closing 0) (Some "engine")) {[0 := LeaseReleased raw; 1 := Destroying owner raw]}.
Definition reported : System string :=
  mkSystem (mkHandles {[owner := 0%Z]} ∅ {[raw := store (ClosedWith CloseOk) None]})
    {[0 := LeaseReleased raw]} ∅ [(raw, CloseOk)].

Lemma opened_reachable : rtc handle_step initial_system opened.
Proof.
  apply rtc_once. apply (StepOpen owner raw "engine" (Ok ()) (mkHandles ∅ ∅ ∅) (sys_handles opened) ∅ ∅ []);
    [done|done|evaluate].
Qed.

Lemma in_call_reachable : rtc handle_step initial_system in_call.
Proof.
  etrans; [apply opened_reachable|]. apply rtc_once.
  apply (StepAcquire 0 owner raw "engine" (sys_handles opened) (sys_handles in_call) ∅ ∅ []); [done|evaluate].
Qed.

Lemma closing_reachable : rtc handle_step initial_system closing.
Proof.
  etrans; [apply in_call_reachable|]. apply rtc_once.
  replace closing with (mkSystem (sys_handles closing) (<[1 := Destroying owner raw]> (notify_all raw (threads in_call))) ∅ [])
    by evaluate.
  apply (StepClose 1 owner raw Destroy (sys_handles in_call) (sys_handles closing) (threads in_call) ∅ []);
    [done|done|evaluate].
Qed.

Lemma unnotified_reachable : rtc handle_step initial_system unnotified.
Proof.
  etrans; [apply closing_reachable|]. eapply rtc_l.
  { apply StepThread. by apply (StepDrainWaits 1 owner raw (store (Closing 1) (Some "engine"))). }
  apply rtc_once, StepThread.
  replace unnotified with (mkSystem (set_store raw (drop_lease (store (Closing 1) (Some "engine"))) (sys_handles closing))
    (<[0 := if lease_drained (store (Closing 1) (Some "engine")) then LeaseNotifying raw else LeaseReleased raw]>
      (<[1 := DrainWaiting owner raw]> (threads closing))) ∅ []) by evaluate.
  by apply (StepReleaseLease 0 raw (store (Closing 1) (Some "engine"))).
Qed.

Lemma released_reachable : rtc handle_step initial_system released.
Proof.
  etrans; [apply unnotified_reachable|]. apply rtc_once, StepThread.
  replace released with (mkSystem (sys_handles unnotified) (<[0 := LeaseReleased raw]> (notify_all raw (threads unnotified))) ∅ [])
    by evaluate.
  by apply (StepLeaseNotifies 0 raw).
Qed.
End Stores.

Lemma close_linearized_witness :
  acquire_store Stores.owner (sys_handles Stores.closing) = (Err (AbiState "store is closed"), sys_handles Stores.closing) /\
  exists e, acquire_store Stores.owner (sys_handles Stores.closing) = (Err e, sys_handles Stores.closing) /\
    code e = ES_ERR_STATE.
Proof.
  split; [evaluate|].
  exact (proj1 (proj2 (close_linearized Stores.closing Stores.closing_reachable)) Stores.owner Stores.raw
    (Stores.store (Closing 1) (Some "engine")) eq_refl eq_refl (fun n H => ltac:(discriminate H))).
Defined.

(** The closer asleep over a drained store is not left behind. *)
Lemma close_terminates_witness :
  threads Stores.unnotified !! 1 = Some (DrainWaiting Stores.owner Stores.raw) /\
  sn thread_step Stores.unnotified /\ red thread_step Stores.unnotified.
Proof.
  split; [reflexivity|].
  destruct (close_terminates Stores.unnotified Stores.unnotified_reachable) as [Hsn Hruns]. split; [exact Hsn|].
  apply (proj1 (Hruns _ (rtc_refl _ _))). intros He.
  assert (threads Stores.unnotified !! 0 = Some (LeaseNotifying Stores.raw)) as Ht by reflexivity. by rewrite He in Ht.
Defined.

(** [es_close] can report [CloseOk] while a data call that has released its lease still
    holds the engine: the lease's destructor counts the call out before its reference to
    the inner store is dropped, so the last reference can go on that call's thread. *)
Example close_reports_before_last_reference :
  rtc handle_step initial_system Stores.reported /\
  threads Stores.reported !! 0 = Some (LeaseReleased Stores.raw) /\ (Stores.raw, CloseOk) ∈ reports Stores.reported.
Proof.
  split; [|by split; [|left]]. etrans; [apply Stores.released_reachable|].
  eapply rtc_l; [by eapply StepThread, (StepDrained 1 Stores.owner Stores.raw)|].
  eapply rtc_l; [by eapply StepThread, (StepTake 1 Stores.owner Stores.raw)|].
  eapply rtc_l; [by eapply StepThread, (StepDestroyed 1 Stores.owner Stores.raw _ CloseOk)|].
  eapply rtc_l; [by eapply StepThread, (StepCloseNotifies 1 Stores.owner Stores.raw CloseOk)|].
  apply rtc_once, StepThread.
  match goal with |- thread_step (mkSystem ?h ?ts ?ps ?rs) _ =>
    replace Stores.reported with (mkSystem (retire_store Stores.owner Stores.raw h) (delete 1 ts) ps ((Stores.raw, CloseOk) :: rs))
      by evaluate end.
  by eapply StepRetire.
Qed.

(** ** Calls *)

Module Calls.
Definition fresh : StoreInner := mkInner (mkWorld empty_db []) empty_registry.
Definition handles : Handles StoreInner :=
  mkHandles {[64%Z := 4096%Z]} {[64%Z := 4096%Z]} {[4096%Z := mkEsStore (Open 0) (Some fresh) false]}.

Definition event (payload : list Z) : ProposedEventWire := mkProposedWire "placed" "1" payload.
Definition batch : CommitEvents := mkCommitEvents [event [1; 2]; event [255]]%Z 2.
Definition wire : CommitWire := mkCommitWire 1 "order" "o-1" 0 batch.
Definition parts : CommitParts := default (mkCommitParts "" "" 0 []) (ok (commit_parts 1 "order" "o-1" 0 batch)).
Definition request : option EsBuf := Some (Data (default [] (ok (into_writer wire)))).
Definition committed_inner : StoreInner := (commit_body request fresh).2.
Definition encodings : list (list (list Z)) :=
  (fun e => [[Zpos (encode (wire_of e))]]) <$> returned 0 (ce_values batch).

Lemma counts : counts_ok handles.
Proof. intros raw s n Hs Hn. cbn [handles stores] in Hs. apply lookup_singleton_Some in Hs as [<- <-]. injection Hn as <-. done. Qed.

(** Claim answers take one piece. *)
Lemma compact outcome token attempt prior payload :
  exists chunks, chunks_of (mkJobClaimWire 1 outcome token attempt prior payload) = Ok chunks /\
    (Z.of_nat (length (concat chunks)) <= 1024 + from_option bytes_len 0 payload)%Z.
Proof. eexists. split; [reflexivity|]. destruct payload; simpl; unfold bytes_len; lia. Qed.

(** A commit enqueues a job with an opaque payload, which is then claimed. *)
Definition charge : CommitRequest :=
  mkCommit Orders.stream (Some 0%Z) [Orders.event 1] None
    [mkEnqueueRequest 7%N "charge" (bytes_to_value [5; 6]%Z) 1000].
Definition paid : Json := bytes_to_value [5; 6]%Z.
Definition before_claim : StoreInner := mkInner (mkWorld (run (commit charge) empty_db).2 []) empty_registry.
(** The job aggregate is not reached. *)
Definition asked : result JobRuntimeError JobClaimResult * World :=
  claim_job_as 7%N "w:worker-ulid" 2000 30000 50 "claim-a" (si_world before_claim).
Definition unsent (job_id : JobId) (command : JobCommand) : M SendErr () := fun w => (Ok (), w).
End Calls.

(** The other wire types are not read in the runs below. *)
#[local] Instance unread_codec (T : Type) : CborCodec T | 100 := {|
  from_reader_with_recursion_limit _ _ := Err (CborFailure "unread");
  chunks_of _ := Ok [] |}.
#[local] Instance unread_options : SqlxOptions := {|
  ConnectOptions := ();
  connect_options_from_str _ := Ok ();
  form_urlencoded_parse _ := [] |}.

(** A null request, with leftovers in both cells. *)
Definition stale_cell : Out (option (list Z)) := mkOut true (Some [7; 7]%Z).

Lemma response_well_formed_witness :
  counts_ok Calls.handles /\
  exists r h', es_job_poll 64 None stale_cell stale_cell Calls.handles = (r, h') /\
    resp_class r = ES_ERR_DECODE /\ resp_output r = None /\
    (exists bytes detail, resp_error r = Some bytes /\
       from_reader_with_recursion_limit MAX_CBOR_DEPTH bytes = Ok (mkErrorWire 1 ES_ERR_DECODE detail)) /\
    stores h' = stores Calls.handles.
Proof.
  split; [apply Calls.counts|].
  pose proof (response_well_formed (P := fun _ => True) (fun _ => I) Calls.unsent (fun _ => Ok ())
    (fun _ _ _ => Err (SqlxOther "closed")) (fun w => (Ok (), w)) 64 None stale_cell stale_cell (mkOut true 7%Z)
    None "worker-ulid" "claim-a" 4096 Calls.handles Calls.counts) as (Hbuffers & _).
  destruct (es_job_poll 64 None stale_cell stale_cell Calls.handles) as [r h'] eqn:Hrun. exists r, h'. split; [reflexivity|].
  assert (resp_class r = ES_ERR_DECODE /\ is_Some (resp_error r) /\ stores h' = stores Calls.handles) as (Hc & [bytes He] & Hs).
  { vm_compute in Hrun. injection Hrun as <- <-. split; [done|]. split; [by eexists|]. evaluate. }
  apply Forall_cons in Hbuffers as [_ Hbuffers]. apply Forall_cons in Hbuffers as [_ Hbuffers].
  apply Forall_cons in Hbuffers as [Hpoll _]. rewrite Hrun in Hpoll. destruct Hpoll as ((Hclass & Herr & _) & _).
  rewrite He, Hc in Herr. rewrite Hc in Hclass. destruct (Herr eq_refl) as (_ & _ & detail & Hd).
  split; [exact Hc|]. split; [|split; [by exists bytes, detail|exact Hs]].
  destruct Hclass as [Hok|[_ Hout]]; [discriminate Hok|exact (Hout eq_refl)].
Defined.

Lemma commit_answer_exact_witness :
  commit_parts 1 "order" "o-1" 0 Calls.batch = Ok Calls.parts /\
  (commit_result Calls.parts 0 None Calls.committed_inner).1 = Err (AbiConflict "order" "o-1" 0 2).
Proof.
  assert (commit_parts 1 "order" "o-1" 0 Calls.batch = Ok Calls.parts) as Hp by evaluate.
  split; [exact Hp|].
  pose proof (commit_answer_exact 1 "order" "o-1" 0 Calls.batch Calls.parts None Calls.committed_inner Hp) as H.
  cbv zeta in H. destruct (commit_result _ _ _ _) as [r s'].
  assert (committed_version (mkStream "order" "o-1") (w_db (si_world Calls.committed_inner)) = 2%Z) as Hv by evaluate.
  rewrite Hv in H. apply H; [evaluate|evaluate|lia].
Defined.

Lemma abi_round_trip_witness :
  (load_stream_body (Ok (mkLoadStreamWire 1 "order" "o-1" (Some 0%Z))) true Calls.committed_inner).1 =
  Ok (Some ([0x82; 0x01; 0x82]%Z ++ concat (concat Calls.encodings))).
Proof.
  refine (proj1 (abi_round_trip Calls.request "order" "o-1" 0 Calls.batch Calls.fresh Calls.committed_inner
    Calls.encodings [0x82]%Z _ _ _ _ _ _ _ _ _ _ _)).
  - evaluate.
  - reflexivity.
  - computed.
  - discriminate.
  - computed.
  - reflexivity.
  - evaluate.
  - by vm_compute.
  - repeat constructor.
  - evaluate.
  - by vm_compute.
Defined.

Lemma claim_never_stranded_witness :
  claims_ok (si_claims Calls.before_claim) /\
  exists r s', job_claim_body Calls.unsent (Ok (mkJobClaimRequest 1 Jobs.id "w" 2000 30000 50)) true (Some Tokens.token)
      "worker-ulid" "claim-a" Calls.before_claim = (r, s') /\
    claims_ok (si_claims s') /\ retained (si_claims s') !! Tokens.token = Some (mkRetained Tokens.won 32000 Available) /\
    answers (won_wire Tokens.token Tokens.won [5; 6]%Z) r.
Proof.
  assert (claims_ok (si_claims Calls.before_claim)) as Hok by (by split; vm_compute).
  split; [exact Hok|].
  pose proof (claim_never_stranded Calls.unsent Calls.compact Jobs.id "w" 2000 30000 50 Tokens.token "worker-ulid" "claim-a"
    Calls.before_claim Hok) as H.
  destruct (job_claim_body _ _ _ _ _ _ _) as [r s'] eqn:Hrun. exists r, s'. split; [reflexivity|].
  destruct H as (Hok' & _ & Hor). split; [exact Hok'|].
  destruct Hor as [[Hr _]|(job_id & Hid & Hset)]; [vm_compute in Hrun; injection Hrun as <- _; discriminate Hr|].
  vm_compute in Hid. injection Hid as <-.
  change (claim_job_as _ _ _ _ _ _ _) with (Calls.asked) in Hset.
  assert (Calls.asked.1 = Ok (ClaimedJob Tokens.won Calls.paid)) as Ha by evaluate.
  assert (claimed_payload_bytes Calls.paid = Ok [5; 6]%Z) as Hb by evaluate.
  rewrite (surjective_pairing Calls.asked) in Hset. unfold claim_settled in Hset. rewrite Ha, Hb in Hset.
  destruct Hset as (Hans & _ & Hret & _). split; [exact Hret|exact Hans].
Defined.

(** ** Executing a claimed job *)

Module Running.
Definition max_delta : Z := 100000000000000000.
(** Another worker tries to claim the job 31 s in, under the lease renewed at 5 s. *)
Definition ticks : list RenewTick :=
  [mkTick id 5000000000; mkTick (fun w => (Jobs.claim 31000 "claim-b" w).2) 31000000000].
Definition start : World := mkWorld Jobs.db2 [].

Definition renewed : World := mkWorld (run (renew_job Jobs.id 2 35000) Jobs.db2).2 [].

Lemma refused : job_act Jobs.id (ActClaim 31000) (Jobs.log2, w_db renewed) (Jobs.log2, w_db (Jobs.claim 31000 "claim-b" renewed).2).
Proof.
  pose proof (step_claim Jobs.id Jobs.log2 "w" 31000 30000 50 "claim-b" renewed
    (Jobs.claim 31000 "claim-b" renewed).1 (Jobs.claim 31000 "claim-b" renewed).2 eq_refl (surjective_pairing _)) as Hstep.
  replace (log_after_claim _ _ _ _ _) with Jobs.log2 in Hstep by evaluate. exact Hstep.
Qed.

Lemma quiet :
  permitted_ticks Jobs.id max_delta Payments.config (Payments.ctx 2 0) "claim-a" Jobs.log2 true ticks start.
Proof.
  assert (instant_after 5000000000 (lease_delta max_delta (lease_duration Payments.config)) = Some 35000%Z) as Hl by evaluate.
  split; [by exists Jobs.log2|]. cbn [tick_now]. rewrite Hl.
  replace (renew_job _ _ _ _).2 with renewed by evaluate.
  split; [|by destruct (instant_after _ _)]. exists Jobs.log2. apply rtc_once. exists (ActClaim 31000).
  split; [|apply refused]. exists (mkViewRow 2 (view_payload Jobs.row2) (Some 35000%Z)), 35000%Z.
  split; [evaluate|]. split; [done|lia].
Qed.
End Running.

Lemma kept_claim_witness :
  permitted_ticks Jobs.id Running.max_delta Payments.config (Payments.ctx 2 0) "claim-a" Jobs.log2 true
    Running.ticks Running.start /\
  (renew_loop Running.max_delta Payments.config (Payments.ctx 2 0) Running.ticks Running.start).1 = false.
Proof.
  split; [apply Running.quiet|].
  pose proof (kept_claim Jobs.id Running.max_delta Payments.config (Payments.ctx 2 0) "claim-a" Jobs.log2
    Running.ticks Running.start (E := string) (A := Z) (fun _ => "") (fun _ w => (Ok (), w)) 1 None 31000000000
    eq_refl eq_refl ltac:(split; [computed|apply Jobs.inv2]) ltac:(by repeat eexists) Running.quiet) as H.
  destruct (renew_loop _ _ _ _ _) as [lost w']. exact (proj1 H).
Defined.

(** ** Queries *)

(** Rowids as SQLite assigns them to rows inserted one after the other; no ties broken. *)
#[export] Instance inserted : RowIds := {|
  event_rowid db r := Z.of_nat (S (default 0 (fst <$> list_find (eq r) (db_events db))));
  snapshot_rowid _ _ := 1%Z;
  tie_rank _ _ := 0%Z;
|}.

(** An aggregate whose events were compacted away is still counted, listed and paged. *)
Lemma ids_exact_witness :
  let compacted := delete_covered "order" Orders.db2 in
  run (count_aggregates "order") compacted = (Ok 1%Z, compacted) /\
  run (load_all_ids Some "order") compacted = (Ok ["o-1"], compacted) /\
  pages_answer Some "order" ["o-1"] 5 10 compacted.
Proof.
  destruct (ids_exact Some "order" Orders.db2 (delete_covered "order" Orders.db2) "order" 10 5
    ltac:(computed) ltac:(lia) ltac:(by vm_compute) ltac:(vm_compute; lia) (or_intror eq_refl))
    as (_ & _ & _ & Hcount & Hall & Hpages).
  split; [exact Hcount|]. split; [rewrite Hall; evaluate|].
  replace (union_ids "order" Orders.db2) with ["o-1"] in Hpages by evaluate. apply Hpages. by repeat constructor.
Defined.

(** ** Findings *)

(** [load_ids_paginated] promises the most recently created aggregate first, but an event
    of an older aggregate puts that one first: the order is that of the last activity. *)
Definition order_row (id : string) (sequence : Z) : StoredEventRow :=
  event_row (mkSerializedEvent "order" id sequence "placed" "1" JNull (JObject [])).

Example pages_by_activity :
  let db := mkDb [order_row "first" 1; order_row "second" 1; order_row "first" 2] ∅ ∅ in
  (run (load_ids_paginated Some "order" 10 0) db).1 = Ok ["first"; "second"].
Proof. evaluate. Qed.

Module Second.
Definition token : ClaimToken := [2; 2; 3; 4; 5; 6; 7; 8; 9; 10; 11; 12; 13; 14; 15; 16]%Z.
Definition won : JobClaimHandle := mkHandle 7%N 4 "claim-b" 1.
End Second.

(** [issue] promises the job's only settleable claim, but it leaves a token that is
    being settled alone; when that settlement fails, its drop puts the old token back
    beside the new one.  (The old claim id still fences the old token durably.) *)
Example two_tokens_for_one_job :
  exists c, rtc registry_step no_claims c /\
    retained (claims_registry c) !! Tokens.token = Some (mkRetained Tokens.won 32000 Available) /\
    retained (claims_registry c) !! Second.token = Some (mkRetained Second.won 70000 Available) /\
    handle_job_id Tokens.won = handle_job_id Second.won.
Proof.
  eexists. split; [etrans; [apply Tokens.settling_reachable|]|].
  - eapply rtc_l; [eapply (StepPrepare 40000 2); [done|vm_compute; reflexivity]|].
    eapply rtc_l; [by eapply (StepIssue 2 Second.token Second.won 70000)|].
    apply rtc_once. by eapply (StepDropSettlement 1 Tokens.token Tokens.won).
  - split_and!; vm_compute; reflexivity.
Qed.

Module Compacted.
Definition old : SchemaTarget := mkSchemaTarget "order" 1 CompactAfterSnapshot.
Definition new : SchemaTarget := mkSchemaTarget "order" 2 Retain.
Definition db : Db := (run (compact_events "order" CompactAfterSnapshot) (run (record_target old) Orders.db2).2).2.
End Compacted.

(** A type whose events were compacted away can be reconciled under [Retain]: the guard
    of [reconcile_target] looks at the new target's policy only, the snapshot that was
    the last copy of the state is deleted, and the stream's version falls back to 0. *)
Example retain_clears_compacted_snapshot :
  stream_rows "order" "o-1" Compacted.db = [] /\
  committed_version Orders.stream Compacted.db = 3%Z /\
  (run (reconcile_target Compacted.new) Compacted.db).1 = Ok Changed /\
  committed_version Orders.stream (run (reconcile_target Compacted.new) Compacted.db).2 = 0%Z /\
  (run (reconcile_target (mkSchemaTarget "order" 2 CompactAfterSnapshot)) Compacted.db).1 =
    Err (CompactedSnapshotClear "order" (Some 1%Z) 2).
Proof. split_and!; vm_compute; reflexivity. Qed.
