(* ===== verification/StoreWitnesses.v ===== *)
(** * Concrete runs of the store facade

    An instance of the [cqrs-es] interface that follows its documentation, a compacting
    entity whose snapshot and stream have moved apart, a concrete run for each property of
    Store.v, and the execution behind the finding on loads that compaction overtakes. *)

From S2P Require Import Prelude Json Sqlite EventTable Lifecycle Schema Job Engine EngineProps.
From S2P Require Import ViewRepository Repository SchemaRecovery Projection Startup.
From S2P Require Import JobQueue JobQueueProps JobHistory Dispatch Worker Backend SupportTicket.
From S2P Require Import Abi ClaimRegistry StoreHandle Ffi FfiProps Queries.
From S2P Require Import Store StoreProps StoreHistory StoreViews JobStore Buffers TestDouble Witnesses.
Import BinaryText.

(** ** The framework *)

Section documented.
Context {Entity Event Command Error : Type} `{EventSourced Entity Event Command Error}.
Context `{Serde Entity, Serde Event, Serde Error}.

Definition load_start (snapshot : option SerializedSnapshot) : Lifecycle Entity Event Error * Z * option Z :=
  match snapshot with
  | Some s =>
      match de (ss_aggregate s) with
      | Some state => (state, ss_current_sequence s, Some (ss_current_snapshot s))
      | None => (Uninitialized, 0%Z, None)
      end
  | None => (Uninitialized, 0%Z, None)
  end.

Definition documented_load (repo : EventRepo) (id : string) :
    M (AggregateError (LifecycleError Entity Event Error)) (AggregateContext (Lifecycle Entity Event Error)) :=
  snapshot ← lift_err aggregate_error_of_persistence (repo_get_snapshot repo id);
  let '(state, sequence, version) := load_start snapshot in
  events ← lift_err aggregate_error_of_persistence (repo_get_last_events repo id sequence);
  match mapM (fun e => de (ev_payload e)) events with
  | Some decoded =>
      mret (mkAggregateContext (replay state decoded) (default sequence (ev_sequence <$> last events)) version)
  | None => fail (AggregateDeserializationError Malformed)
  end.

(** How many events of a batch a snapshot folds: up to the last boundary, a multiple of
    the snapshot size, that the batch reaches. *)
Definition folded_events (size sequence : Z) (length : Z) : option Z :=
  let next_at := (size - sequence mod size)%Z in
  if ((0 <? size) && (next_at <=? length))%Z
  then let rest := (length - next_at)%Z in Some (next_at + (rest - rest mod size))%Z
  else None.

#[export] Instance documented : CqrsEs Entity Event Error := {|
  load_aggregate := documented_load;
  snapshot_with size context events :=
    n ← folded_events size (ctx_sequence context) (Z.of_nat (length events));
    Some (canon (ser (replay (ctx_aggregate context) (take (Z.to_nat n) events))),
          (default 0 (ctx_snapshot context) + 1)%Z);
|}.

Lemma folded_events_spec size sequence n k :
  folded_events size sequence n = Some k ->
  (0 < k <= n)%Z /\ (size = 1%Z -> k = n).
Proof.
  unfold folded_events. destruct (_ && _) eqn:Hb; [|done]. intros [= <-].
  apply andb_true_iff in Hb as [Hs%Z.ltb_lt Hn%Z.leb_le].
  pose proof (Z.mod_pos_bound sequence size Hs) as Hm. remember (n - (size - sequence mod size))%Z as rest eqn:Hrest.
  pose proof (Z.mod_pos_bound rest size Hs). pose proof (Z.mod_le rest size ltac:(lia) Hs).
  split; [lia|]. intros ->. rewrite !Z.mod_1_r in *. lia.
Qed.

#[export] Instance documented_laws : CqrsEsLaws.
Proof.
  split.
  - intros b repo id db snapshot state sequence events decoded Hs Hst He _ Hd. cbn [load_aggregate documented].
    unfold documented_load. apply wp_bind, wp_lift_err. eapply wp_mono; [exact Hs|].
    intros [sn|e] db' [-> Hr]; cbn [map_err]; [subst sn|by split].
    assert (exists version, load_start snapshot = (state, sequence, version) /\
      from_option (fun v => Some v = ss_current_snapshot <$> snapshot) True version) as (version & -> & Hv).
    { unfold load_start, starts in *. destruct snapshot as [s|].
      - destruct (de (ss_aggregate s)) as [d|]; destruct Hst as [-> ->]; by eexists.
      - destruct Hst as [-> ->]. by eexists. }
    apply wp_bind, wp_lift_err. eapply wp_mono; [exact He|].
    intros [es|e] db' [-> Hr]; cbn [map_err]; [subst es|by split]. rewrite Hd. by apply wp_ret.
  - intros b repo id db Hs. unfold refuses. cbn [load_aggregate documented].
    unfold documented_load. apply wp_bind, wp_lift_err. eapply wp_mono; [exact Hs|]. by intros [sn|e] db' [-> Hr].
  - intros size context events aggregate version (k & Hk & [= <- <-])%bind_Some. split; [done|].
    apply folded_events_spec in Hk as [Hk Hone]. exists (Z.to_nat k). split; [lia|]. split; [done|].
    intros [Hs|Hl]; [specialize (Hone Hs)|]; lia.
Qed.
End documented.

(** ** A compacting counter *)

Module Stored.
Import Counter.
Definition config : EntityConfig := mkEntityConfig "counter" 1 CompactAfterSnapshot 1.
Definition type_of (e : event) : string := match e with Opened _ => "Opened" | Added _ => "Added" end.
Definition revision_of (e : event) : string := "1.0".
Definition wrapped (e : event) (k : Z) : SerializedEvent := wrap config type_of revision_of "c" e k.
Definition log : list event := [Opened 5; Added 1; Added 2; Added 3].
Definition snapshot (n : Z) (last version : Z) : StoredSnapshotRow :=
  mkStoredSnapshotRow last version (to_string (canon (ser (live n)))).

(** Events 1 and 2 are gone; the snapshot stands at event 3. *)
Definition db : Db :=
  mkDb (event_row <$> [wrapped (Added 2) 3; wrapped (Added 3) 4])
    {[("counter", "c") := snapshot 8 3 1]} ∅.
Definition w : World := mkWorld db [].

Abbreviation invariant := (Store.store_inv (Entity := Z) (Command := command) (Error := error) config type_of revision_of "c").
Abbreviation send := (send_command (Entity := Z) (Error := error) config type_of revision_of 1000 (fun _ => 0%Z) "c").
Abbreviation load := (store_load (Entity := Z) (Event := event) (Error := error) config "c").

Lemma event_stored e : match e with Opened n | Added n => (0 <=? n) && (n <? 100) end%Z = true -> event_ok e.
Proof.
  intros Hn. unfold event_ok. destruct e as [n|n]; (split_and!; [|by apply bool_decide_eq_true|done]);
    unfold portable; cbn; rewrite !andb_true_r; range.
Qed.

Lemma state_stored n : ((0 <=? n) && (n <? 100))%Z = true -> state_ok (live n).
Proof.
  intros Hn. unfold state_ok. split_and!; [|by apply bool_decide_eq_true|done].
  unfold portable. cbn. rewrite !andb_true_r. range.
Qed.

Lemma db_holds : invariant log 2 db.
Proof.
  split.
  - computed.
  - split; [|done]. repeat constructor; by apply event_stored.
  - evaluate.
  - simpl. lia.
  - cbn. left. exists 3. split; [simpl; lia|]. split; [done|]. split; [exact (state_stored 8 eq_refl)|]. by split.
Qed.

Ltac stores := intros events pending Hh; vm_compute in Hh; injection Hh as <- <-;
  (split; [|by left]); (split; [repeat (apply Forall_cons; split; [by apply event_stored|]); constructor|match goal with |- state_ok ?s =>
     let s' := eval vm_compute in s in match s' with Live ?n => exact (state_stored n eq_refl) end end]).

Lemma config_holds : config_ok config type_of revision_of "c" (mkConfig db log ([] : list command) ∅).
Proof. exists 2. split; [exact db_holds|apply map_Forall_empty]. Qed.

(** *** Two clients *)

Definition add (ns : list Z) (context : AggregateContext (Lifecycle Z event error)) (d : Db) : Db :=
  match execute_in config type_of revision_of 1000 (fun _ => 0%Z) "c" context (Add ns) with
  | Some m => (run m d).2
  | None => d
  end.

Definition first : AggregateContext (Lifecycle Z event error) := mkAggregateContext (live 11) 4 (Some 1%Z).
Definition db1 : Db := add [4; 5]%Z first db.
Definition log1 : list event := log ++ [Added 4; Added 5].
Definition second : AggregateContext (Lifecycle Z event error) := mkAggregateContext (live 20) 6 (Some 1%Z).
Definition db2 : Db := add [6]%Z second db1.

Abbreviation step := (store_step (Entity := Z) (Command := command) (Error := error)
  config type_of revision_of 1000 (fun _ => 0%Z) "c").
Abbreviation steps := (rtc step).

(** Both read the snapshot; the second commits before the first has read the events. *)
Lemma interleaved :
  steps (mkConfig db log [] ∅) (mkConfig db2 (log1 ++ [Added 6]) [Add [4; 5]%Z; Add [6]%Z] ∅).
Proof.
  eapply rtc_l.
  { apply step_read, (read_snapshot _ _ log [] ∅ 0 (mkWorld db []) (mkWorld db [])
      (Some (mkSerializedSnapshot "c" (canon (ser (live 8))) 3 1)) (live 8) 3); [evaluate|by split]. }
  eapply rtc_l.
  { apply step_read, (read_snapshot _ _ log [] _ 1 (mkWorld db []) (mkWorld db [])
      (Some (mkSerializedSnapshot "c" (canon (ser (live 8))) 3 1)) (live 8) 3); [evaluate|by split]. }
  eapply rtc_l.
  { eapply step_read, (read_events _ _ log [] _ 1 (mkWorld db []) (mkWorld db []) (live 8) 3 (Some 1%Z)
      [wrapped (Added 3) 4] [Added 3]); evaluate. }
  eapply rtc_l.
  { eapply (step_commit _ _ _ _ _ _ 1 first (Add [4; 5]%Z) (Ok ())); [|stores].
    eapply (commit_with _ _ _ _ _ _ 1 first (Add [4; 5]%Z) log [] _ _ (mkWorld db []) (Ok ()) (mkWorld db1 []));
      [evaluate|reflexivity|evaluate]. }
  replace (log_after _ _ _ _ _) with (log1, [Add [4; 5]%Z]) by evaluate. cbv beta iota.
  eapply rtc_l.
  { eapply step_read, (read_events _ _ log1 _ _ 0 (mkWorld db1 []) (mkWorld db1 []) (live 8) 3 (Some 1%Z)
      [wrapped (Added 3) 4; wrapped (Added 4) 5; wrapped (Added 5) 6] [Added 3; Added 4; Added 5]); evaluate. }
  eapply rtc_l.
  { eapply (step_commit _ _ _ _ _ _ 0 second (Add [6]%Z) (Ok ())); [|stores].
    eapply (commit_with _ _ _ _ _ _ 0 second (Add [6]%Z) log1 _ _ _ (mkWorld db1 []) (Ok ()) (mkWorld db2 []));
      [evaluate|reflexivity|evaluate]. }
  replace (log_after _ _ _ _ _) with (log1 ++ [Added 6], [Add [4; 5]%Z; Add [6]%Z]) by evaluate. cbv beta iota.
  replace (delete _ _) with (∅ : gmap nat (Client (Entity := Z) (Event := event) (Error := error))) by evaluate.
  apply rtc_refl.
Qed.
End Stored.

Lemma store_load_exact_witness :
  Stored.load Stored.w = (Ok (Some 11%Z), Stored.w) /\
  (Stored.load Stored.w).1 = map_err send_error_of_lifecycle
    (into_result (replay (Uninitialized : Lifecycle Z Counter.event Counter.error) Stored.log)).
Proof.
  split; [evaluate|].
  pose proof (store_load_exact (Entity := Z) (Error := Counter.error) Stored.config Stored.type_of Stored.revision_of "c" Stored.log 2
    (Counter.live 8) 3 Stored.w) as Hl.
  assert (Stored.load Stored.w = (Ok (Some 11%Z), Stored.w)) as Hr by evaluate. rewrite Hr in Hl |- *.
  destruct Hl as [_ [[Hf _]|[_ Hl]]].
  - apply (inv_held _ _ _ _ _ _ _ Stored.db_holds).
  - split; [simpl; lia|]. split; [done|]. eexists. split; [evaluate|by split].
  - by destruct Hf.
  - apply Hl. reflexivity.
Defined.

(** With a snapshot size above one, a batch that crosses a boundary is snapshotted short:
    the document folds its events up to the boundary, the row names its last sequence.
    The store then answers 11 for a log that folds to 15. *)
Example boundary_snapshot_drops_tail :
  let config := mkEntityConfig "counter" 1 Retain 2 in
  let log := take 3 Stored.log in
  let db := mkDb (event_row <$> number (wrap config Stored.type_of Stored.revision_of "c") 0 log) ∅ ∅ in
  let sent := run (send_command (Entity := Z) (Error := Counter.error) config Stored.type_of Stored.revision_of 1000
                     (fun _ => 0%Z) "c" (Counter.Add [3; 4]%Z)) db in
  sent.1 = Ok (Some ()) /\
  db_snapshots sent.2 !! ("counter", "c") = Some (Stored.snapshot 11 5 1) /\
  (run (store_load (Entity := Z) (Event := Counter.event) (Error := Counter.error) config "c") sent.2).1 = Ok (Some 11%Z) /\
  replay (Uninitialized : Lifecycle Z Counter.event Counter.error) (log ++ [Counter.Added 3; Counter.Added 4]) =
    Counter.live 15.
Proof. cbv zeta. split_and!; evaluate. Qed.

Lemma send_refines_witness :
  exists w', Stored.send (Counter.Add [4; 5]%Z) Stored.w = (Ok (Some ()), w') /\
    Stored.invariant Stored.log1 2 (w_db w') /\ (Stored.load w').1 = Ok (Some 20%Z).
Proof.
  pose proof (send_refines Stored.config Stored.type_of Stored.revision_of 1000 (fun _ => 0%Z) "c" Stored.log 2
    (Counter.Add [4; 5]%Z) Stored.w ltac:(discriminate) Stored.db_holds) as Hs.
  exists (Stored.send (Counter.Add [4; 5]%Z) Stored.w).2.
  destruct (Stored.send (Counter.Add [4; 5]%Z) Stored.w) as [r w'] eqn:Hw. cbn [snd].
  assert (r = Ok (Some ())) as -> by (change r with (r, w').1; rewrite <-Hw; evaluate).
  split; [reflexivity|]. split; [|replace w' with (Stored.send (Counter.Add [4; 5]%Z) Stored.w).2 by (by rewrite Hw); evaluate].
  destruct Hs as (_ & Hs & _). destruct (Hs eq_refl) as (events & pending & Hh & Hinv).
  vm_compute in Hh. injection Hh as <- <-. apply Hinv; [|by left].
  split; [by repeat (apply Forall_cons; split; [by apply Stored.event_stored|])|exact (Stored.state_stored 20 eq_refl)].
Defined.

Lemma corrupt_snapshot_surfaced_witness :
  let w := mkWorld (set_snapshot ("counter", "c") (mkStoredSnapshotRow 3 1 (to_string JNull)) Stored.db) [] in
  is_ok (Stored.load w).1 = false /\ is_ok (Stored.send (Counter.Open 1) w).1 = false.
Proof.
  intros w. destruct (corrupt_snapshot_surfaced (Command := Counter.command) (Entity := Z) (Error := Counter.error)
    Stored.config Stored.type_of Stored.revision_of 1000
    (fun _ => 0%Z) "c" (Counter.Open 1) (mkStoredSnapshotRow 3 1 (to_string JNull)) w eq_refl) as [Hl Hs].
  - reflexivity.
  - intros j Hj. vm_compute in Hj. injection Hj as <-. reflexivity.
  - destruct (Stored.load w), (Stored.send (Counter.Open 1) w). exact (conj (proj1 Hl) (proj1 Hs)).
Defined.

Lemma store_linearizable_witness :
  run_from (Error := Counter.error) (Entity := Z) Stored.log [Counter.Add [4; 5]%Z; Counter.Add [6]%Z]
    (Stored.log1 ++ [Counter.Added 6]).
Proof.
  exact (proj1 (proj2 (store_linearizable Stored.config Stored.type_of Stored.revision_of 1000 (fun _ => 0%Z) "c" _ _
    ltac:(discriminate) Stored.interleaved Stored.config_holds eq_refl))).
Defined.

(** *** A projected counter *)

Module Projected.
Import Counter.
Definition config : EntityConfig := mkEntityConfig "counter" 1 Retain 1.
Definition log : list event := [Opened 5; Added 1].
Definition db : Db :=
  mkDb (event_row <$> number (wrap config Stored.type_of Stored.revision_of "c") 0 log) ∅
    {["counter_view" := {["c" := mkViewRow 2 (to_string (ser (live 6))) None]}]}.

Lemma holds :
  Store.store_inv (Entity := Z) (Command := command) (Error := error) config Stored.type_of Stored.revision_of "c" log 0 db.
Proof.
  split.
  - computed.
  - split; [|done]. repeat constructor; by apply Stored.event_stored.
  - evaluate.
  - simpl. lia.
  - done.
Qed.

Lemma states_ok k : view_ok (replay (Uninitialized : Lifecycle Z event error) (log ++ take k [Added 4; Added 5])).
Proof. destruct k as [|[|[|k]]]; by split; [vm_compute|]. Qed.
End Projected.

Lemma send_projects_witness :
  exists db', run (store_send (Error := Counter.error) (Entity := Z) Projected.config Stored.type_of Stored.revision_of 1000 (fun _ => 0%Z)
      [projection_query (Entity := Z) (Event := Counter.event) (Error := Counter.error) Some id "counter_view"] "c"
      (Counter.Add [4; 5]%Z)) Projected.db = (Ok (Some ()), db') /\
    (run (projection_load (Entity := Z) (Event := Counter.event) (Error := Counter.error) id "counter_view" "c") db').1 =
      Ok (Some 15%Z).
Proof.
  destruct (send_projects (Entity := Z) (Error := Counter.error) Projected.config Stored.type_of Stored.revision_of 1000
    (fun _ => 0%Z) Some id "counter_view" "c" Projected.log 0 (Counter.Add [4; 5]%Z) [Counter.Added 4; Counter.Added 5] (Some []) Projected.db)
    as (db' & Hr & _ & _ & Hl & _).
  - discriminate.
  - discriminate.
  - reflexivity.
  - exact Projected.holds.
  - cbn. split; [discriminate|by split].
  - evaluate.
  - apply no_jobs_fit.
  - split; by vm_compute.
  - split; [repeat (apply Forall_cons; split; [by apply Stored.event_stored|]); constructor|exact (Stored.state_stored 15 eq_refl)].
  - by left.
  - exact Projected.states_ok.
  - exists db'. exact (conj Hr Hl).
Defined.

(** *** A job *)

Lemma store_settles_claim_witness :
  exists e, history_inv Jobs.id (Jobs.log2 ++ [e], w_db (job_send 7%N (Succeed "claim-a") (mkWorld Jobs.db2 [])).2).
Proof.
  assert (well_formed Jobs.db2) as Hwf by computed.
  pose proof (store_settles_claim 7%N (Succeed "claim-a") Jobs.log2 (mkWorld Jobs.db2 []) (conj Hwf Jobs.inv2) I I) as Hs.
  assert ((job_send 7%N (Succeed "claim-a") (mkWorld Jobs.db2 [])).1 = Ok ()) as Hr by evaluate.
  destruct (job_send 7%N (Succeed "claim-a") (mkWorld Jobs.db2 [])) as [r w']. cbn in Hr |- *. subst r.
  destruct Hs as [[H _]|(s & e & worker & lease & _ & _ & _ & _ & H & _)]; [discriminate H|by exists e].
Defined.

Module Token.
Definition token : ClaimToken := [1; 2; 3; 4; 5; 6; 7; 8; 9; 10; 11; 12; 13; 14; 15; 16]%Z.
Definition won : JobClaimHandle := mkHandle 7%N 2 "claim-a" 0.
Definition inner : StoreInner :=
  mkInner (mkWorld Jobs.db2 []) (mkRegistry {[token := mkRetained won 32000 Available]} 0).
Definition wire : JobAckWire := mkJobAckWire 1 token.
Definition settled : result AbiError Z * StoreInner := settle_call job_send (CallAck wire) inner.
End Token.

Lemma token_settles_claim_witness :
  Token.settled.1 = Ok 0%Z /\ exists e, history_inv Jobs.id (Jobs.log2 ++ [e], w_db (si_world Token.settled.2)).
Proof.
  assert (well_formed Jobs.db2) as Hwf by computed.
  pose proof (token_settles_claim (CallAck Token.wire) Token.inner Jobs.log2 Token.won 32000 eq_refl
    (conj Hwf Jobs.inv2) I ltac:(discriminate)) as Hs.
  assert (Token.settled.1 = Ok 0%Z) as Hr by evaluate. split; [exact Hr|].
  unfold Token.settled in *. destruct (settle_call job_send (CallAck Token.wire) Token.inner) as [r s'].
  cbn in Hr |- *. subst r. destruct Hs as [_ [[H _]|(_ & recorded & st & e & worker & lease & _ & _ & _ & _ & H & _)]];
    [discriminate H|by exists e].
Defined.

(** A load reads the snapshot and the events after it in two statements.  When another
    client commits past that snapshot, writes a new one and the events it covers are
    compacted in between, the load finds a state no prefix of the log has, at the
    sequence of its end; a command is then accepted against it, and its snapshot makes
    the lost events permanent: 29 where the log folds to 41. *)
Example torn_load_after_compaction :
  let ahead := Stored.add [4; 5]%Z Stored.first Stored.db in
  let compacted := (run (compact_events "counter" CompactAfterSnapshot) ahead).2 in
  let moved := Stored.add [6]%Z Stored.second compacted in
  let torn := mkAggregateContext (Counter.live 14) 7 (Some 1%Z) in
  run (get_snapshot CompactAfterSnapshot (fun _ => true) "counter" "c") Stored.db =
    (Ok (Some (mkSerializedSnapshot "c" (canon (ser (Counter.live 8))) 3 1)), Stored.db) /\
  run (get_last_events "counter" "c" 3) moved = (Ok [Stored.wrapped (Counter.Added 6) 7], moved) /\
  (Stored.load (mkWorld moved [])).1 = Ok (Some 26%Z) /\
  (Stored.load (mkWorld (Stored.add [7; 8]%Z torn moved) [])).1 = Ok (Some 29%Z).
Proof. cbv zeta. split_and!; evaluate. Qed.

(** ** The in-memory store *)

#[export] Instance in_memory {Event : Type} : MemStore Event := {|
  Mem := string -> list Event;
  mem_default _ := [];
  mem_events m id := m id;
  mem_commit m id events := fun id' => if decide (id' = id) then m id ++ events else m id';
|}.
#[export] Instance in_memory_laws {Event : Type} : MemStoreLaws Event.
Proof. by split. Qed.

Lemma test_store_agrees_witness :
  let m := mem_commit mem_default "c" Stored.log in
  let m' := (test_send (Entity := Z) (Error := Counter.error) "c" (Counter.Add [4; 5]%Z) m).2 in
  let db' := (run (Stored.send (Counter.Add [4; 5]%Z)) Stored.db).2 in
  mem_events m' "c" = Stored.log1 /\ Stored.invariant (mem_events m' "c") 2 db' /\
  (run Stored.load Stored.db).1 = map_err UserError (test_load "c" m).
Proof.
  cbv zeta. set (m := mem_commit mem_default "c" Stored.log : Mem).
  destruct (test_store_agrees Stored.config Stored.type_of Stored.revision_of 1000 (fun _ => 0%Z) "c" 2
    (Counter.Add [4; 5]%Z) m Stored.db ltac:(discriminate) Stored.db_holds) as (Hload & decision & pushes & Hh & Hs).
  split; [evaluate|]. split; [|exact Hload].
  vm_compute in Hh. injection Hh as <- <-. unfold test_store_send in Hs.
  destruct (test_send (Entity := Z) (Error := Counter.error) "c" (Counter.Add [4; 5]%Z) m) as [tested m'].
  cbn [snd]. fold m in Hs. destruct (run (Stored.send (Counter.Add [4; 5]%Z)) Stored.db) as [sent db'].
  apply Hs. intros events [= <-]. split; [by split; vm_compute|]. split; [|by left].
  split; [by repeat (apply Forall_cons; split; [by apply Stored.event_stored|])|exact (Stored.state_stored 20 eq_refl)].
Defined.

(** [TestStore] opens no pending-job scope, so closing a ticket, which dispatches its
    notification, is refused where the store accepts it. *)
Example test_store_refuses_dispatch :
  let tickets := ticket_event_sourced (fun _ => "now") 3%N in
  let log := [SupportTicket.Opened 1 "printer" 0] in
  (test_send (H := tickets) "T-1" (CloseTicket 5) (mem_commit mem_default "T-1" log)).1 =
    Err (UserError (LcDispatchNotBuffered NotBuffered)) /\
  exists events push,
    handle (H := tickets) (replay (H := tickets) Uninitialized log) (CloseTicket 5) (Some []) = (Ok events, Some [push]).
Proof. cbv zeta. split; [reflexivity|]. do 2 eexists. reflexivity. Qed.

(** ** A standalone job *)

Module Sweep.
Definition send : M (JobEnqueueError BackendError) JobId :=
  default (mret 0%N)
    (enqueue_resolved 86400000000000 5000000000 sweep_stale_tickets 9%N (Some 2000000000%Z)).
Definition id : string := ulid_to_string 9%N.
Definition db : Db := (run send empty_db).2.
Definition claim (now_ms : Z) := claim_job_as 9%N "worker" now_ms 30000 5 "claim".
End Sweep.

(** Enqueued at 5s for two seconds later. *)
Lemma enqueued_job_delivered_witness :
  (run Sweep.send empty_db).1 = Ok 9%N /\
  (exists ids, run (poll_jobs KIND 7000 (-1)) Sweep.db = (Ok (sql_limit (-1) ids), Sweep.db) /\ Sweep.id ∈ ids) /\
  run (Sweep.claim 6999) Sweep.db = (Ok ClaimSkipped, Sweep.db) /\
  exists handle db', run (Sweep.claim 7000) Sweep.db = (Ok (ClaimedJob handle JNull), db').
Proof.
  assert (history_inv Sweep.id ([], empty_db)) as Hinv.
  { split; [by computed|]. by split; [done|done|done|constructor]. }
  assert (rows_storable empty_db) as Hrows by (intros i r Hi; discriminate Hi).
  pose proof (wp_run _ _ _ (enqueued_job_delivered 86400000000000 5000000000 sweep_stale_tickets 9%N
    (Some 2000000000%Z) false Sweep.send empty_db Hinv Hrows eq_refl)) as Hd.
  assert ((run Sweep.send empty_db).1 = Ok 9%N) as Hok by evaluate. cbv beta in Hd. rewrite Hok in Hd.
  destruct Hd as (_ & payload & run_at & Hpay & Hat & _ & _ & Hpoll & Hclaim). fold Sweep.db in Hpoll, Hclaim.
  injection Hpay as <-. assert (run_at = 7000%Z) as -> by (vm_compute in Hat; congruence).
  split; [exact Hok|]. split_and!.
  - destruct (Hpoll 7000%Z (-1)%Z) as (ids & Hr & Hi). exists ids. split; [exact Hr|]. by apply Hi.
  - exact (Hclaim Payments.config "worker" 6999%Z 30000%Z 5%Z "claim" ltac:(done) ltac:(done) ltac:(by computed)).
  - destruct (Hclaim Payments.config "worker" 7000%Z 30000%Z 5%Z "claim" ltac:(done) ltac:(done) ltac:(by computed))
      as (handle & db' & Hr & _). exists handle, db'. exact Hr.
Defined.

(** ** Buffers *)

(** A load answered three bytes into the cell at 10; the cell at 20 took no error. *)
Definition answered : Response (option (list Z)) := mkResponse ES_OK (Some [131; 1; 2]%Z) None.
Definition after_answer : Memory := deliver 5000 (Some 10%Z) (Some 20%Z) answered no_memory.

Lemma buffers_accounted_witness :
  read_slot 10 after_answer = Some [131; 1; 2]%Z /\
  (exists m, es_buf_free (Some 10%Z) after_answer = Some m /\ heap m = ∅ /\
     es_buf_free (Some 10%Z) m = Some m) /\
  exists! a, owns after_answer a 5000.
Proof.
  assert (rtc memory_step no_memory after_answer) as Hrun.
  { apply rtc_once, step_deliver; [done|congruence|done|done]. }
  destruct (buffers_accounted after_answer Hrun) as (Howned & _ & _ & _).
  split; [by vm_compute|]. split.
  - eexists. split; [by vm_compute|]. by split; vm_compute.
  - by apply (Howned 5000%Z [131; 1; 2]%Z).
Defined.
