(* ===== verification/DeliveryWitnesses.v ===== *)
(** * A concrete delivery

    An order whose confirmation job is in flight, and executions of that job: two that
    race for their verdict, and two under one claim, the first of which loses the
    database while it delivers.  Then the same dispatch from its command to the settled
    verdict, and a ticket closed end to end. *)

From S2P Require Import Prelude Json Sqlite EventTable Lifecycle Schema Job Engine EngineProps.
From S2P Require Import ViewRepository Repository SchemaRecovery Reactor Dispatch Projection Startup Store StoreProps StoreHistory.
From S2P Require Import JobQueue JobQueueProps JobHistory Worker Backend Effects Shop Delivery DispatchJson OrderOrigin SupportTicket TicketOrigin Ffi JobStore Protocol Completion.
From S2P Require Import Witnesses StoreWitnesses.
From Stdlib Require Import Ascii.
Import BinaryText.

(** Orders whose next job is 7. *)
#[local] Instance orders : EventSourced Order OrderEvent OrderCommand OrderError := order_event_sourced 7%N.

(** Two executions that both settled with the external system. *)
Module Confirming.
Definition id : string := "O-1".
Definition log : list OrderEvent := [OrderDispatch (Dispatched 7%N (mkConfirmation 1 "widget" 3))].
Definition order : Order := mkOrder "widget" 3 PendingConfirmation (InFlight 7%N).
Definition db : Db :=
  mkDb (event_row <$> number (wrap order_config order_event_type order_event_version id) 0 log) ∅ ∅.
Definition chain (never : Never) : string := match never with end.

Definition ctx (claim_seq attempt : Z) : JobContext :=
  mkJobContext 7%N claim_seq "claim" attempt 5 (mkDeliveryPolicy 1000 60000).
Abbreviation execution := (Execution (Output := unit) (JobError := Never)).
Definition first : execution := mkExecution (ctx 2 0) confirmation_submit confirmation_reconcile [].
Definition second : execution := mkExecution (ctx 3 1) confirmation_submit confirmation_reconcile [].
Definition told (x : execution) : ConfirmationVerdict := confirmed 7%N () (ctx_attempt (ex_ctx x) + 1).

Lemma order_db_holds :
  Store.store_inv (Entity := Order) (Command := OrderCommand) (Error := OrderError)
    order_config order_event_type order_event_version id log 0 db.
Proof.
  split.
  - computed.
  - split; [|done]. constructor; [|constructor]. by apply order_event_stored.
  - evaluate.
  - simpl. lia.
  - done.
Qed.

Lemma order_flies : verdict_stands (J := SendOrderConfirmation) (Entity := Order) (Event := OrderEvent) (Command := OrderCommand)
  (Error := OrderError) 7%N (None : option ConfirmationVerdict) order.
Proof. split; [done|]. intros u. by apply order_verdict_storable. Qed.

(** What both load before either commits, and what their commits do. *)
Definition loaded : AggregateContext (Lifecycle Order OrderEvent OrderError) := mkAggregateContext (Live order) 1 None.
Definition commit_verdict (v : ConfirmationVerdict) (context : AggregateContext (Lifecycle Order OrderEvent OrderError))
    (faults : list (option SqlxError)) (d : Db) :
    result (AggregateError (LifecycleError Order OrderEvent OrderError)) () * World :=
  match execute_in order_config order_event_type order_event_version 1000 (fun _ => 0%Z) id context (Settle v) with
  | Some m => m (mkWorld d faults)
  | None => (Ok (), mkWorld d faults)
  end.
Definition db2 : Db := w_db (commit_verdict (told second) loaded [] db).2.
Definition beaten : JobOutcome () := OutDefer 1000.

Abbreviation step := (delivery_step (J := SendOrderConfirmation) (Entity := Order) (Event := OrderEvent) (Command := OrderCommand)
  (Error := OrderError) order_config order_event_type order_event_version 1000 (fun _ => 0%Z) chain (fun _ _ => True) id 7%N).
Abbreviation races := (Races (Entity := Order) (Event := OrderEvent) (Command := OrderCommand) (Error := OrderError) (Output := unit) (JobError := Never)).
Definition start : races := quiescent (Entity := Order) (Command := OrderCommand) (Error := OrderError) (Output := unit) (JobError := Never) db log.
Definition settled_log : list OrderEvent := log ++ [OrderDispatch (EvConfirmed (mkSettled 7%N () 2))].
Definition finished : races := mkRaces (mkConfig db2 settled_log [Settle (told second)] ∅) ∅ []
  [(second, Ok (OutDone ())); (first, Ok beaten)].

Abbreviation client := (Client (Entity := Order) (Event := OrderEvent) (Error := OrderError)).

Lemma raced : rtc step start finished.
Proof.
  eapply rtc_l; [apply (race_begin _ _ _ _ _ _ _ _ _ (mkConfig db log [] ∅) ∅ [] [] 0 first (told first)); evaluate|].
  eapply rtc_l; [eapply (race_begin _ _ _ _ _ _ _ _ _ (mkConfig db log [] ∅) _ [] [] 1 second (told second)); evaluate|].
  eapply rtc_l.
  { apply race_read, (read_snapshot _ _ log [] ∅ 0 (mkWorld db []) (mkWorld db []) None Uninitialized 0); [evaluate|by split]. }
  eapply rtc_l.
  { apply race_read, (read_snapshot _ _ log [] _ 1 (mkWorld db []) (mkWorld db []) None Uninitialized 0); [evaluate|by split]. }
  eapply rtc_l.
  { eapply race_read, (read_events _ _ log [] _ 0 (mkWorld db []) (mkWorld db []) Uninitialized 0 None
      (number (wrap order_config order_event_type order_event_version id) 0 log) log); evaluate. }
  eapply rtc_l.
  { eapply race_read, (read_events _ _ log [] _ 1 (mkWorld db []) (mkWorld db []) Uninitialized 0 None
      (number (wrap order_config order_event_type order_event_version id) 0 log) log); evaluate. }
  eapply rtc_l.
  { eapply (race_deliver _ _ _ _ _ _ _ _ _ _ _ _ _ _ 1 second (told second) loaded (Ok ())); [evaluate|evaluate|].
    eapply (commit_with _ _ _ _ _ _ 1 loaded (Settle (told second)) log [] _ _ (mkWorld db []) (Ok ()) (mkWorld db2 []));
      [evaluate|reflexivity|evaluate]. }
  replace (log_after _ _ _ _ _) with (settled_log, [Settle (told second)]) by evaluate. cbv beta iota.
  eapply rtc_l.
  { eapply (race_deliver _ _ _ _ _ _ _ _ _ _ _ _ _ _ 0 first (told first) loaded); [evaluate|evaluate|].
    eapply (commit_with _ _ _ _ _ _ 0 loaded (Settle (told first)) settled_log [Settle (told second)] _ _ (mkWorld db2 []));
      [evaluate|reflexivity|exact (surjective_pairing (commit_verdict (told first) loaded [] db2))]. }
  match goal with |- rtc _ ?a ?b => replace b with a by evaluate end. apply rtc_refl.
Qed.
End Confirming.

(** The second is first to commit; the other's commit conflicts, and it defers.  The order
    is durably confirmed, once, by the second's verdict. *)
Lemma verdict_applied_once_witness :
  (exists r, (Confirming.second, r) ∈ rc_ran Confirming.finished /\ r = Ok (OutDone ())) /\
  exists s, delivered (J := SendOrderConfirmation) order_config order_event_type order_event_version Confirming.chain
    Confirming.id Confirming.log 7%N (Some (VerdictConfirmed s)) Confirming.finished.
Proof.
  split; [eexists; split; [left|done]|].
  destruct (verdict_applied_once (H3 := order_event_sourced 7%N) (H4 := order_serde) (H5 := order_event_serde) (H6 := order_error_serde)
    (H7 := documented_laws) (J := SendOrderConfirmation)
    order_config order_event_type order_event_version 1000 (fun _ => 0%Z) []
    (fun id events w => conj eq_refl eq_refl) Confirming.chain
    Confirming.id Confirming.log 7%N Confirming.order 0 Confirming.db Confirming.start Confirming.finished)
    as (v & v' & _ & Hd & _).
  - discriminate.
  - exact Confirming.order_db_holds.
  - reflexivity.
  - exact Confirming.order_flies.
  - apply rtc_refl.
  - exact Confirming.raced.
  - pose proof (dl_ran _ _ _ _ _ _ _ _ _ Hd) as Hran. rewrite Forall_forall in Hran.
    destruct (Hran (Confirming.second, Ok (OutDone ()))) as [_ [s ->]]; [left|]. by exists s.
Defined.

(** ** The protocol *)

Module Placing.
Definition id : string := "O-1".
Definition job : SendOrderConfirmation := mkConfirmation 1 "widget" 3.
Definition payload : Json := canon (confirmation_to_json job).
Definition placed : OrderEvent := OrderDispatch (Dispatched 7%N job).
Definition order : Order := mkOrder "widget" 3 PendingConfirmation (InFlight 7%N).
Definition clock (_ : nat) : Z := 5000000000.
Definition worker_config : JobWorkerConfig :=
  mkJobWorkerConfig 0 10 1 30000000000 10000000000 60000000000 5 5 (fun _ => 0%Z) (mkDeliveryPolicy 1000 60000).
Definition chain (never : Never) : string := match never with end.

Abbreviation invariant := (Store.store_inv (Entity := Order) (Command := OrderCommand) (Error := OrderError)
  order_config order_event_type order_event_version).
Definition place : M (AggregateError (LifecycleError Order OrderEvent OrderError)) (option ()) :=
  store_send order_config order_event_type order_event_version 1000 clock [] id (Place 1 "widget" 3).
Definition db : Db := (run place empty_db).2.

Lemma place_answered : run place empty_db = (Ok (Some ()), db).
Proof. apply injective_projections; [evaluate|reflexivity]. Qed.

Lemma empty_holds : invariant id [] 0 empty_db.
Proof. split; [by computed|by split|evaluate|simpl; lia|done]. Qed.

Lemma no_job : job_log_at 7%N [] empty_db.
Proof. split; [split; [by computed|by split]|done]. Qed.

Lemma place_handled :
  handle (replay (Uninitialized : Lifecycle Order OrderEvent OrderError) []) (Place 1 "widget" 3) (Some []) =
    (Ok [placed], Some [mkPendingPush 7%N "send-order-confirmation" (Ok payload) None]).
Proof. reflexivity. Qed.

Lemma placed_storable : storable (replay (Uninitialized : Lifecycle Order OrderEvent OrderError) []) [placed].
Proof. split; [constructor; [by apply order_event_stored|constructor]|by apply (order_stored order)]. Qed.

Lemma payload_stored : payload_storable payload.
Proof. split; [done|]. apply Nat.ltb_lt. reflexivity. Qed.

Lemma order_stands : verdict_stands (J := SendOrderConfirmation) (Entity := Order) (Event := OrderEvent)
  (Command := OrderCommand) (Error := OrderError) 7%N (None : option ConfirmationVerdict) order.
Proof. exact Confirming.order_flies. Qed.

Abbreviation origin := (origin_at (J := SendOrderConfirmation) (Entity := Order) (Event := OrderEvent) (Command := OrderCommand)
  (Error := OrderError) (Output := unit) (JobError_ := Never) order_config order_event_type order_event_version id 7%N).
Abbreviation elsewhere_ := (elsewhere (J := SendOrderConfirmation) (Entity := Order) (Event := OrderEvent) (Command := OrderCommand)
  (Error := OrderError) (Output := unit) (JobError_ := Never) order_config order_event_type order_event_version id 7%N).

Lemma nothing_else d : elsewhere_ d d.
Proof. by split. Qed.

Lemma queries_none : queries_keep ([] : list (Query (Event := OrderEvent))).
Proof. by split. Qed.

Lemma dispatch_committed :
  invariant id [placed] 0 db /\ job_log_at 7%N [Enqueued "send-order-confirmation" payload 5000] db.
Proof.
  pose proof (dispatch_commits order_config order_event_type order_event_version 1000 clock [] ltac:(discriminate)
    queries_none (fun _ _ _ => eq_refl) id (Place 1 "widget" 3) [] 0 [placed] 7%N "send-order-confirmation" payload (mkWorld empty_db [])
    empty_holds no_job place_handled ltac:(done) placed_storable (or_intror (Nat.le_refl 1)) ltac:(by computed) payload_stored) as Hc.
  pose proof place_answered as Hp. unfold run in Hp. fold place in Hc. destruct (place _) as [r w]. injection Hp as -> <-.
  exact (Hc eq_refl).
Qed.

Lemma placed_holds : invariant id [placed] 0 db.
Proof. exact (proj1 dispatch_committed). Qed.

Lemma dispatched_holds :
  origin None db /\ job_log_at 7%N [Enqueued "send-order-confirmation" payload 5000] db.
Proof.
  split; [|exact (proj2 dispatch_committed)]. exists [placed], 0, order. split_and!; [exact placed_holds|done|exact order_stands].
Qed.

(** A worker claims the job; its first execution loses the database while it delivers,
    the second delivers, and its acknowledgement is sent. *)
Definition held : JobClaimHandle := mkHandle 7%N 2 "claim-a" 0.
Definition claimed : Db := (run (claim_job_as 7%N "worker" 7000 30000 5 "claim-a") db).2.
Definition lost : JobClaimHandle * result (TaskError Never) (JobOutcome ()) := (held, Ok (OutDefer 1000)).
Definition done_ : JobClaimHandle * result (TaskError Never) (JobOutcome ()) := (held, Ok (OutDone ())).

Abbreviation step := (protocol_step (J := SendOrderConfirmation) (Entity := Order) (Event := OrderEvent) (Command := OrderCommand)
  (Error := OrderError) (Output := unit) order_config order_event_type order_event_version 1000 clock
  chain (fun _ => "failed") 1000 worker_config id 7%N).

(** Both executions under the claim, the snapshot they load, and their commits. *)
Definition x : Confirming.execution := mkExecution (task_context worker_config held) confirmation_submit confirmation_reconcile [].
Definition v : ConfirmationVerdict := confirmed 7%N () 1.
Definition loaded : AggregateContext (Lifecycle Order OrderEvent OrderError) := mkAggregateContext (Live order) 1 (Some 1%Z).
Definition deliver (faults : list (option SqlxError)) (d : Db) :
    result (AggregateError (LifecycleError Order OrderEvent OrderError)) () * World :=
  match execute_in order_config order_event_type order_event_version 1000 clock id loaded (Settle v) with
  | Some m => m (mkWorld d faults)
  | None => (Ok (), mkWorld d faults)
  end.
Definition io : list (option SqlxError) := [Some (SqlxOther "io")].
Definition confirmed_log : list OrderEvent := [placed; OrderDispatch (EvConfirmed (mkSettled 7%N () 1))].

Definition start : Confirming.races := quiescent db [placed].
Definition ran : list (Confirming.execution * result (Dispatch.JobFailure (Error := Never)) (JobOutcome ())) :=
  [(x, Ok (OutDefer 1000)); (x, Ok (OutDone ()))].
Definition confirmed_races (d : Db) : Confirming.races := mkRaces (mkConfig d confirmed_log [Settle v] ∅) ∅ [] ran.

(** An execution begins and loads, while nothing else happens. *)
Lemma delivery_starts ran fs :
  rtc step (mkJoint (mkRaces (mkConfig claimed [placed] [] ∅) ∅ [] ran) [held] fs)
    (mkJoint (mkRaces (mkConfig claimed [placed] [] {[0 := Loaded loaded]}) {[0 := x]} [] ran) [held] fs).
Proof.
  eapply rtc_l; [apply ps_race, (race_begin _ _ _ _ _ _ _ _ _ (mkConfig claimed [placed] [] ∅) ∅ [] ran 0 x v); evaluate|].
  eapply rtc_l.
  { apply ps_race, race_read, (read_snapshot _ _ [placed] [] ∅ 0 (mkWorld claimed []) (mkWorld claimed [])
      (Some (mkSerializedSnapshot id (canon (ser (Live order : Lifecycle Order OrderEvent OrderError))) 1 1)) (Live order) 1); [evaluate|by split]. }
  eapply rtc_l.
  { eapply ps_race, race_read, (read_events _ _ [placed] [] _ 0 (mkWorld claimed []) (mkWorld claimed []) (Live order) 1 (Some 1%Z) [] []); evaluate. }
  match goal with |- rtc _ ?a ?b => replace b with a by evaluate end. apply rtc_refl.
Qed.

(** The first execution loses the database when it commits, the second does not. *)
Lemma to_done : rtc step (mkJoint start [] []) (mkJoint (confirmed_races (w_db (deliver [] claimed).2)) [held] [done_; lost]).
Proof.
  eapply rtc_l.
  { apply (ps_claim _ _ _ _ _ _ _ _ _ _ _ start [] [] "worker" 7000 30000 5 "claim-a" []
      (Ok (ClaimedJob held payload)) (mkWorld claimed [])); [done|evaluate]. }
  etrans; [apply delivery_starts|]. eapply rtc_l.
  { eapply ps_race, (race_deliver _ _ _ _ _ _ _ _ _ _ _ _ _ _ 0 x v loaded); [evaluate|evaluate|].
    eapply (commit_with _ _ _ _ _ _ 0 loaded (Settle v) [placed] [] _ _ (mkWorld claimed io));
      [evaluate|reflexivity|exact (surjective_pairing (deliver io claimed))]. }
  match goal with |- rtc _ ?a _ =>
    replace a with (mkJoint (mkRaces (mkConfig claimed [placed] [] ∅) ∅ [] [(x, Ok (OutDefer 1000))] : Confirming.races) [held] []) by evaluate end.
  eapply rtc_l; [apply (ps_finish _ _ _ _ _ _ _ _ _ _ _ _ [held] [] held x (Ok (OutDefer 1000))); [by left|by left|reflexivity]|].
  etrans; [apply delivery_starts|]. eapply rtc_l.
  { eapply ps_race, (race_deliver _ _ _ _ _ _ _ _ _ _ _ _ _ _ 0 x v loaded); [evaluate|evaluate|].
    eapply (commit_with _ _ _ _ _ _ 0 loaded (Settle v) [placed] [] _ _ (mkWorld claimed []));
      [evaluate|reflexivity|exact (surjective_pairing (deliver [] claimed))]. }
  match goal with |- rtc _ ?a _ =>
    replace a with (mkJoint (confirmed_races (w_db (deliver [] claimed).2)) [held] [lost]) by evaluate end.
  apply rtc_once, (ps_finish _ _ _ _ _ _ _ _ _ _ _ _ [held] [lost] held x (Ok (OutDone ()))); [by left|right; left|reflexivity].
Qed.

Definition confirmed_db : Db := w_db (deliver [] claimed).2.
Definition acknowledged_db : Db := w_db (job_send 7%N (Succeed "claim-a") (mkWorld confirmed_db [])).2.

Lemma to_recorded : rtc step (mkJoint (confirmed_races confirmed_db) [held] [done_; lost]) (mkJoint (confirmed_races acknowledged_db) [held] [done_; lost]).
Proof.
  eapply rtc_l; [|apply rtc_refl].
  apply (ps_ack _ _ _ _ _ _ _ _ _ _ _ (confirmed_races confirmed_db) [held] [done_; lost] held (Ok (OutDone ())) 8000000000%Z (Succeed "claim-a") []
    (Ok ()) (job_send 7%N (Succeed "claim-a") (mkWorld confirmed_db [])).2); [by left|reflexivity|].
  apply injective_projections; [evaluate|reflexivity].
Qed.
End Placing.

(** The queue records the success, and one verdict stands behind it throughout. *)
Lemma outcome_backed_by_origin_witness :
  exists s es, backed (J := SendOrderConfirmation) order_config order_event_type order_event_version Placing.chain
    Placing.id [Placing.placed] 7%N (Some (VerdictConfirmed s)) es
    (mkJoint (Placing.confirmed_races Placing.acknowledged_db) [Placing.held] [Placing.done_; Placing.lost]).
Proof.
  destruct (outcome_backed_by_origin (J := SendOrderConfirmation) (Error := OrderError) (CqrsEsLaws0 := documented_laws)
    order_config order_event_type order_event_version 1000 Placing.clock
    ltac:(discriminate) Placing.chain (fun _ => "failed") 1000 Placing.worker_config
    Placing.id [Placing.placed] 0 7%N Placing.order "send-order-confirmation" Placing.payload 5000 Placing.db _ _
    Placing.placed_holds eq_refl Placing.order_stands (proj2 Placing.dispatched_holds) Placing.to_done Placing.to_recorded)
    as (v1 & es1 & v2 & es2 & [_ _ _ _ Hf1 _] & Hb2 & Hv).
  destruct (Hf1 Placing.held (Ok (OutDone ())) ltac:(left)) as [_ [s ->]]. exists s, es2.
  destruct Hv as [-> | [=]]. exact Hb2.
Defined.

(** Placed at 5s, confirmed and recorded. *)
Lemma dispatch_completes_witness :
  exists w, Placing.origin (Some (confirmed 7%N () 1)) (w_db w) /\
    job_log_at 7%N [Enqueued "send-order-confirmation" Placing.payload 5000; ClaimedEv "worker" "claim-a" 37000; Succeeded] (w_db w).
Proof.
  destruct (dispatch_completes (J := SendOrderConfirmation) (Error := OrderError) (CqrsEsLaws0 := documented_laws) order_config order_event_type order_event_version 1000 Placing.clock []
    ltac:(discriminate) Placing.queries_none (fun _ _ _ => eq_refl) Placing.chain Placing.worker_config
    confirmation_of_json (fun _ => "failed") 1000 Placing.id (Place 1 "widget" 3) [] 0 Placing.placed Placing.order
    7%N "send-order-confirmation" Placing.payload Placing.job empty_db Placing.db
    Placing.empty_holds Placing.no_job Placing.place_handled Placing.placed_storable eq_refl Placing.payload_stored eq_refl
    eq_refl Placing.order_stands Placing.place_answered Placing.db 7000%Z "worker" 30000%Z 5%Z "claim-a"
    (Placing.nothing_else _) ltac:(done) ltac:(done) ltac:(done) eq_refl eq_refl) as (_ & db3 & Hclaim & _ & Hnext).
  assert (db3 = (run (claim_job_as 7%N "worker" 7000 30000 5 "claim-a") Placing.db).2) as -> by (by rewrite Hclaim).
  destruct (Hnext _ confirmation_submit confirmation_reconcile () (Placing.nothing_else _)) as (db5 & Hex & Hlast);
    [by computed|reflexivity|].
  match type of Hex with ?run = _ => assert (db5 = run.2) as -> by (by rewrite Hex) end.
  destruct (Hlast _ 8000000000%Z (Placing.nothing_else _)) as (acknowledge & w7 & _ & _ & Hfinal); [by computed|].
  by exists w7.
Defined.

(** An execution that runs into its timeout reports nothing to its origin.  If it was the
    last attempt, the worker dead-letters the job as exhausted, and the order stays in
    flight. *)
Example timed_out_last_attempt_untold :
  let once := mkJobWorkerConfig 0 10 1 30000000000 10000000000 60000000000 1 5 (fun _ => 0%Z) (mkDeliveryPolicy 1000 60000) in
  let result := Err TaskOther : result (TaskError Never) (JobOutcome ()) in
  let killed := Kill "claim-a" RetriesExhausted "job execution exceeded 60s" in
  let after_ack := job_send 7%N killed (mkWorld Placing.claimed []) in
  ack_command 1000 once 70000000000 (task_context once Placing.held) (ack_plan (fun _ => "job execution exceeded 60s") result) =
    Some killed /\
  after_ack.1 = Ok () /\
  (store_load (Entity := JobState) (Event := JobEvent) (Error := JobError) job_config (ulid_to_string 7%N) after_ack.2).1 = Ok (Some (Dead RetriesExhausted)) /\
  (store_load (Entity := Order) (Event := OrderEvent) (Error := OrderError) order_config Placing.id after_ack.2).1 =
    Ok (Some Placing.order).
Proof. cbv zeta. split_and!; evaluate. Qed.

(** ** A ticket *)

(** Instants as a sign and their digits. *)
#[local] Instance signed_instants : TicketInstants := {|
  instant_text i := String (if (i <? 0)%Z then "-" else "+")%char (ulid_to_string (Z.abs_N i));
  instant_of_text s :=
    match s with
    | String c digits => n ← ulid_from_str digits; Some (if Ascii.eqb c "-"%char then - Z.of_N n else Z.of_N n)%Z
    | EmptyString => None
    end |}.
#[local] Instance signed_instants_laws : TicketInstantsLaws.
Proof.
  split. intros i. cbn [instant_of_text instant_text signed_instants]. rewrite ulid_from_str_to_string. cbn [mbind option_bind].
  f_equal. destruct (Z.ltb_spec i 0); cbn; lia.
Qed.

Module Closing.
#[local] Instance tickets : EventSourced SupportTicket SupportTicketEvent SupportTicketCommand SupportTicketError :=
  ticket_event_sourced instant_text 7%N.
Definition id : string := "T-0003".
Definition send (command : SupportTicketCommand) (db : Db) : Db :=
  (run (store_send (Entity := SupportTicket) (Error := SupportTicketError) ticket_config ticket_event_type ticket_event_version
    1000 Placing.clock [] id command) db).2.
Definition look (db : Db) : result (AggregateError (LifecycleError SupportTicket SupportTicketEvent SupportTicketError)) (option SupportTicket) :=
  (store_load (Entity := SupportTicket) (Event := SupportTicketEvent) (Error := SupportTicketError) ticket_config id (mkWorld db [])).1.
Definition attempt (d : Db) : result (Dispatch.JobFailure (Error := Never)) (JobOutcome ()) * Db :=
  Delivery.execute (J := NotifyClosed) (Entity := SupportTicket) (Command := SupportTicketCommand) (Error := SupportTicketError)
    ticket_config ticket_event_type ticket_event_version 1000 Placing.clock [] Placing.chain id
    (mkExecution (task_context Placing.worker_config Placing.held) notify_submit notify_reconcile []) d.
End Closing.

(** A ticket opened, kept waiting and closed: the close leaves it closing with its
    notification enqueued; a worker claims that job, its execution closes the ticket, and
    the acknowledgement settles the job.  A second close is refused throughout. *)
Example ticket_closed_end_to_end :
  let db := Closing.send (CloseTicket 20) (Closing.send (AwaitCustomer 15) (Closing.send (OpenTicket 3 "billing" 10) empty_db)) in
  let claimed := (run (claim_job_as 7%N "worker" 7000 30000 5 "claim-a") db).2 in
  let '(result, delivered) := Closing.attempt claimed in
  let acknowledged := job_send 7%N (Succeed "claim-a") (mkWorld delivered []) in
  Closing.look db = Ok (Some (mkTicket 3 "billing" StatusClosing 20 (InFlight 7%N))) /\
  Closing.send (CloseTicket 21) db = db /\
  result = Ok (OutDone ()) /\
  Closing.look delivered = Ok (Some (mkTicket 3 "billing" StatusClosed 20 (DjConfirmed (mkSettled 7%N () 1)))) /\
  Closing.send (CloseTicket 22) delivered = delivered /\
  acknowledged.1 = Ok () /\
  (store_load (Entity := JobState) (Event := JobEvent) (Error := JobError) job_config (ulid_to_string 7%N) acknowledged.2).1 = Ok (Some Job.Done).
Proof. vm_compute. split_and!; reflexivity. Qed.
