(* ===== verification/ViewWitnesses.v ===== *)
(** * Concrete reactions

    Counters and their view: reactions side by side over SQLite and over the in-memory
    double, and reactions that overtake each other. *)

From S2P Require Import Prelude Json Sqlite EventTable Lifecycle Schema Job Engine EngineProps.
From S2P Require Import ViewRepository Reactor Projection Queries StoreViews ViewBackend Witnesses.
Import BinaryText.

Module Counters.
Definition repo : SqliteViewRepository := mkSqliteViewRepository the_pool "counter_view".
Abbreviation Rx := (Reaction (Entity := Z) (Event := Counter.event) (Error := Counter.error)).

(** Two events committed on a counter of 3, to be reacted to at once. *)
Definition added : list (string * Counter.event) := [("c", Counter.Added 4); ("c", Counter.Added 5)].
Definition seen : World := mkWorld Views.lagging [].

(** Both load version 1, the first saves, the second conflicts and starts over. *)
Definition conflicting : list nat := [0; 1; 0; 1; 1; 1].

Definition both : list Rx * World := interleaved repo conflicting (begin_reaction <$> added, seen).

Lemma seen_stands : standing (R := SqliteViewRepository) repo "c" seen = Some (Counter.live 3, 1%Z).
Proof. evaluate. Qed.

Lemma states_read_back : all_storable (R := SqliteViewRepository) (S := World) added (Counter.live 3).
Proof.
  intros es Hl He. change (reads_back (replay (Counter.live 3) es)).
  assert (forall e, e ∈ added.*2 -> e = Counter.Added 4 \/ e = Counter.Added 5) as Hk.
  { intros e [->|[->|[]%not_elem_of_nil]%elem_of_cons]%elem_of_cons; auto. }
  destruct es as [|a [|b [|? ?]]]; [by split| | |cbn in Hl; lia].
  - apply Forall_cons in He as [Ha%Hk _]. destruct Ha as [-> | ->]; by split.
  - apply Forall_cons in He as [Ha%Hk [Hb%Hk _]%Forall_cons].
    destruct Ha as [-> | ->], Hb as [-> | ->]; by split.
Qed.
End Counters.

Lemma reactions_lose_no_update_witness :
  exists order, succeeded "c" Counters.both.1 order /\ length order = 2 /\
    Views.view_of (w_db Counters.both.2) = Some (Views.row 12 3).
Proof.
  pose proof (reactions_lose_no_update Counters.repo Counters.added "c" Counters.conflicting (Counter.live 3) 1 Counters.seen
    Counters.seen_stands Counters.states_read_back ltac:(lia) ltac:(unfold i64_max; cbn; lia)) as Hr.
  change (interleaved _ _ _) with Counters.both in Hr. rewrite (surjective_pairing Counters.both) in Hr.
  destruct Hr as (order & Hs & Hst). exists order. split_and!; [exact Hs| |evaluate].
  assert (standing Counters.repo "c" Counters.both.2 = Some (Counter.live 12, 3%Z)) as Hend by evaluate.
  rewrite Hend in Hst. injection Hst as _ Hv. lia.
Defined.

(** The same two reactions over the in-memory double: the second save overwrites the
    first, an update is lost though both reactions report success. *)
Example in_memory_loses_update :
  let '(reactions, views) := interleaved in_memory [0; 1; 0; 1]
    (begin_reaction (Error := Counter.error) <$> Counters.added, {["c" := Counter.live 3]}) in
  Forall (fun x => reaction_at x = Finished Reacted) reactions /\ views = {["c" := Counter.live 8]}.
Proof. split; [by repeat constructor|evaluate]. Qed.

(** Events commit in order, but each is reacted to by the task that sent it.  When the
    second event's reaction overtakes the first's, the view is folded in the wrong
    order: the counter's view fails for good where its stream folds to 7, at the
    stream's last sequence, so [catch_up] leaves it as it is. *)
Example overtaking_reaction_not_caught_up :
  let db := (run (commit (mkCommit (mkStream "counter" "c") (Some 0%Z)
     [Views.stored 1 (Counter.Opened 3); Views.stored 2 (Counter.Added 4)] None [])) empty_db).2 in
  let '(reactions, w) := interleaved Counters.repo [1; 1; 0; 0]
    (begin_reaction (Entity := Z) (Error := Counter.error) <$> [("c", Counter.Opened 3); ("c", Counter.Added 4)], mkWorld db []) in
  let r := run (catch_up (Entity := Z) (Error := Counter.error) "counter_view" "counter") (w_db w) in
  Forall (fun x => reaction_at x = Finished Reacted) reactions /\
  r = (Ok (), w_db w) /\
  (prod_map failed id <$> standing (Entity := Z) (Error := Counter.error) Counters.repo "c" w) = Some (true, 2%Z) /\
  replay Uninitialized [Counter.Opened 3; Counter.Added 4] = Counter.live 7.
Proof. vm_compute. split_and!; [by repeat constructor|reflexivity..]. Qed.
